(* ===== verification/_CoqProject ===== *)
-Q . S2P
Prelude.v
Allocator.v
FirstFit.v
AllocatorRefine.v
AllocatorSpec.v
HeapClient.v
AllocatorBench.v
LruCache.v
LruRefine.v
LruTheorems.v
Ring.v
Threads.v
Resources.v
BoundedQueue.v
QueueTheorems.v
ThreadPool.v
PoolInvariant.v
PoolTheorems.v
SharedBuffer.v
SharedTheorems.v
SharedPrograms.v
Shell.v
ShellTheorems.v
FileSearch.v
SearchTheorems.v
SearchBench.v
VmStudy.v
SignalServer.v
SignalTheorems.v
EchoServer.v
EchoTheorems.v
ThreadedServer.v
EchoClient.v
EchoSession.v
ServerSetup.v
Monitors.v
