(* ===== verification/Prelude.v ===== *)
(** * A verification of the systems-programming collection

    The repository holds small systems programs in C: a heap allocator, two
    studies of mapped files, an LRU cache, a bounded queue, a thread pool, a
    ring buffer in shared memory, a shell, and servers and clients over TCP.
    They do not link against each other.  What interacts is: a component and
    its client programs (allocator and benchmark, shared buffer and its
    producer and consumer, servers and their clients), the threads or processes
    inside one component, and each program and the operating system.  The
    definitions are pure or state-passing functions that follow the source
    statement by statement; concurrent components are step relations over a
    table of threads.

    ** The common language (this file, [Threads], [Resources], [Ring])

    - [Prelude]: machine integers ([wrap64], [wrap32], [int_max]); [outcome], a
      value, a [Fault] (undefined behaviour) or [NoFuel]; the state monad [ST]
      with [wp] (total correctness), [faults] and [ends] (no loop is cut short);
      decimal numerals as [snprintf] writes them.
    - [Threads]: runs of a labelled step relation, execution of a schedule,
      counting threads by program point, condition variables, the mutex
      invariant, and the class [Monitor] of the components built on one mutex.
    - [Resources]: what constructors acquire and destructors release.
    - [Ring]: the array with front and size that [queue.c] and [thread_pool.c]
      both contain, and its content as a list.

    ** The components

    - Allocator, [02_memory/custom_malloc].  [Allocator] is [allocator.c] on
      word-granular memory, headers in the memory they describe; [FirstFit] the
      abstract first-fit allocator on a tiling of the arena; [AllocatorRefine]
      the heap invariant and the refinement of each function; [AllocatorSpec]
      the properties: refinement over client runs, freshness and alignment of
      blocks, preservation of payloads, statistics, and the two inputs on which
      [my_malloc] damages the heap ([my_malloc_sliver_overflow],
      [my_malloc_size_wraps]).  [HeapClient] states what a client may rely on
      as the classes [Heap] and [FirstFitHeap]; [AllocatorBench] is
      [benchmark.c] verified against them.
    - LRU cache, [06_storage/lru_cache].  [LruCache] is [lru_cache.c] on a heap
      of nodes; the field [next] serves both the recency list and the hash
      chains.  [LruRefine] has the abstract cache and the relation to it,
      [LruTheorems] the refinement for the runs in which it holds, and what
      happens in the others.
    - Bounded queue, [03_threads/producer_consumer]: [BoundedQueue] and
      [QueueTheorems] (FIFO, no lost wakeup, no fault, create and destroy).
    - Thread pool, [03_threads/thread_pool]: [ThreadPool], [PoolInvariant] and
      [PoolTheorems] (each task runs once and in order, destroy waits for all
      workers, progress, and which uses of a pool that is being released are
      undefined, besides three deadlocks or early returns).  The release in
      [thread_pool_destroy] is a sequence of steps, from [Joined] to [Freed],
      and whatever is used after it was destroyed is a fault.
    - Shared memory ring, [08_advanced/shared_memory_ipc]: [SharedBuffer] is
      [shared_buffer.c] from [buffer_open(0)] on, with the semaphores of each
      process at addresses of its own, so that using a pointer another process
      stored is a fault; [SharedTheorems] has the delivery of messages to one
      consumer, progress, and the configurations that break them;
      [SharedPrograms] has [buffer_open(1)] and puts [producer.c] and
      [consumer.c] around it, from the start of their [main]s.
    - Shell, [01_processes/mini_shell]: [Shell] is [shell.c] over a table of
      descriptors and children, with the array of commands as the bytes that
      are read as pointers; [ShellTheorems] has the tokenizer against a
      reference splitter, the wiring of a pipeline, redirection, the end of a
      session, and what external commands come to: a single one stores outside
      [args], those of a pipeline are taken from addresses made of text.
    - Mapped files, [02_memory/mmap_playground]: [FileSearch] the searches of
      [benchmark.c], [SearchTheorems] their results against the number of
      occurrences, [SearchBench] the program around them, [VmStudy] is
      [vm_study.c].
    - Signal server, [01_processes/signal_handlers]: [SignalServer] and
      [SignalTheorems] (the count of connections and the drain).
    - Echo servers, [04_networking/tcp_echo_server]: [EchoServer] has the loop
      of [server_threaded.c] on one connection and the event loop of
      [server_epoll.c], [EchoTheorems] what they send back; [ThreadedServer]
      the threads of [server_threaded.c] and their count, which is loaded and
      stored in two steps; a signal inside a function that is not
      async-signal-safe is a fault.  [ServerSetup] has the setup of all three
      servers.
    - Clients: [EchoClient] has the load generator [client.c] and the test
      client of the signal server.  [EchoSession] states what a client may rely
      on as the class [EchoService], makes the three servers instances of it,
      and proves the clients against it.
    - [Monitors]: the four components with a mutex as instances of [Monitor],
      and mutual exclusion for all at once.

    ** How concurrency is modelled

    A step is one call on a lock, condition variable or semaphore, one system
    call, or the code between two of them; code under a mutex is not
    interrupted by code that needs the same mutex, which is a theorem and not
    an assumption.  The schedule is arbitrary, [pthread_cond_wait] may wake up
    without a signal, and what the operating system answers is a choice of the
    step.  Theorems over runs are about every state that can be reached.

    ** Parameters and bounds

    What [mmap], [malloc], [rand], [read], [write], [accept], [poll], [fork],
    [open], [sem_open] and the like return are arguments; whole system calls
    that fail are booleans or choices of the step. The page size is the class
    [PageSize]; the bytes on the stack of the shell and the text at an address
    are functions. Loops whose recursion is not structural take fuel. The
    bounds are stated in the theorems, and running out is an outcome of its own
    that the theorems exclude:
    - allocator: more than the length of the free list; a block has at least 24
      bytes, so [enough_fuel] of the heap's size is always enough;
    - LRU cache: the capacity plus two, since a chain or list has at most one
      node more than the capacity;
    - searches and page loops: one more than the positions, or pages, there are
      in the mapping; 2^31 for the files of the benchmark;
    - shared buffer: 256, the size of a message slot, for the reads of [strlen];
    - shell: one more than the number of characters of the input.

    ** Not modelled

    Time, what is printed (but for the numbers in it), and percentages in
    floating point; the halves of the allocator's benchmark that run on the C
    library's [malloc]; signal masks, SIGPIPE (a [write] to a closed connection
    is an error, also in the load generator, which does not ignore the signal),
    and the shell's SIGINT handler, which only prints; weak memory (fields
    outside a mutex are read and written one at a time, in program order); the
    lock calls of the LRU cache, whose functions are taken as atomic since each
    holds the lock from its first access to its last; the test drivers [test.c]
    of the queue, the pool and the cache. *)
From stdpp Require Export base tactics numbers list gmap fin_maps.
From Stdlib Require Export Lia ZArith.

#[global] Open Scope Z_scope.

(** * Machine integers *)

(** The null pointer. *)
Definition NULL : Z := 0.

(** Range of a C [int] on the platforms the code is built for. *)
Definition int_min : Z := - 2 ^ 31.
Definition int_max : Z := 2 ^ 31 - 1.
Definition is_int (z : Z) : Prop := int_min ≤ z ≤ int_max.
#[export] Instance is_int_dec z : Decision (is_int z) := _.

(** Wrap-around of [size_t] and [uint64_t], and of [unsigned int]. *)
Definition wrap64 (z : Z) : Z := z mod 2 ^ 64.
Definition wrap32 (z : Z) : Z := z mod 2 ^ 32.

(** Rounding up to a multiple. *)
Lemma round_up n p : 0 < p → n ≤ p * ((n + p - 1) / p) < n + p.
Proof.
  intros Hp. pose proof (Z.div_mod (n + p - 1) p ltac:(lia)) as H.
  pose proof (Z.mod_pos_bound (n + p - 1) p Hp). set (q := (n + p - 1) / p) in *. clearbody q. lia.
Qed.

(** Conversion of a 32-bit pattern to a signed [int]. *)
Definition sign32 (u : Z) : Z := if u <? 2 ^ 31 then u else u - 2 ^ 32.

Lemma wrap64_small z : 0 ≤ z < 2 ^ 64 → wrap64 z = z.
Proof. apply Z.mod_small. Qed.

Lemma wrap64_bound z : 0 ≤ wrap64 z < 2 ^ 64.
Proof. apply Z.mod_pos_bound. lia. Qed.

(** The value of an integer comparison that [lia] can decide. *)
Ltac cmp_step :=
  match goal with
  | |- context [?a <? ?b] =>
      first [rewrite (proj2 (Z.ltb_lt a b)) by lia | rewrite (proj2 (Z.ltb_ge a b)) by lia]
  | |- context [?a <=? ?b] =>
      first [rewrite (proj2 (Z.leb_le a b)) by lia | rewrite (proj2 (Z.leb_gt a b)) by lia]
  | |- context [?a =? ?b] =>
      first [rewrite (proj2 (Z.eqb_eq a b)) by lia | rewrite (proj2 (Z.eqb_neq a b)) by lia]
  end.
Ltac cmp := repeat cmp_step.

(** * Outcomes: a value, undefined behaviour, or a loop cut short *)

Inductive fault : Type :=
| NullDeref        (* load or store through a null pointer *)
| OutOfBounds      (* access outside the object the pointer points into *)
| UseAfterFree     (* access through a pointer whose object was freed *)
| IntOverflow      (* signed overflow *)
| DivByZero        (* division or remainder by zero *)
| Uninit           (* use of an object that was never written *)
| Misuse.          (* a call the C library forbids in the state it is in *)

#[export] Instance fault_eq_dec : EqDecision fault.
Proof. solve_decision. Defined.

Inductive outcome (A : Type) : Type :=
| Done (a : A)
| Fault (f : fault)
| NoFuel.
Arguments Done {A} a.
Arguments Fault {A} f.
Arguments NoFuel {A}.

#[export] Instance outcome_ret : MRet outcome := λ A a, Done a.
#[export] Instance outcome_bind : MBind outcome := λ A B f m,
  match m with Done a => f a | Fault e => Fault e | NoFuel => NoFuel end.

(** * State-passing computations *)

Definition ST (S A : Type) : Type := S → outcome (A * S).

#[export] Instance st_ret {S} : MRet (ST S) := λ A a s, Done (a, s).
#[export] Instance st_bind {S} : MBind (ST S) := λ A B f m s,
  match m s with
  | Done (a, s') => f a s'
  | Fault e => Fault e
  | NoFuel => NoFuel
  end.

Section primitives.
Context {S : Type}.

Definition st_get : ST S S := λ s, Done (s, s).
Definition st_modify (f : S → S) : ST S unit := λ s, Done (tt, f s).
Definition st_fault {A} (e : fault) : ST S A := λ _, Fault e.
Definition st_nofuel {A} : ST S A := λ _, NoFuel.
Definition st_lift {A} (o : outcome A) : ST S A := λ s,
  match o with Done a => Done (a, s) | Fault e => Fault e | NoFuel => NoFuel end.

End primitives.

(** A signed [int] result: undefined when it does not fit. *)
Definition int_result (z : Z) : outcome Z :=
  if bool_decide (is_int z) then Done z else Fault IntOverflow.

Lemma int_result_inv z n : int_result z = Done n → n = z.
Proof. unfold int_result. case_bool_decide; congruence. Qed.

(** ** Total correctness

    [wp m Q s] says that [m], started in [s], returns, without undefined
    behaviour, a value and a state that satisfy [Q]. *)

Definition wp {S A} (m : ST S A) (Q : A → S → Prop) (s : S) : Prop :=
  match m s with Done (a, s') => Q a s' | _ => False end.

Section wp_rules.
Context {S : Type}.
Implicit Types s : S.

Lemma wp_run {A} (m : ST S A) Q s :
  wp m Q s ↔ ∃ a s', m s = Done (a, s') ∧ Q a s'.
Proof.
  unfold wp. destruct (m s) as [[a s']|e|]; naive_solver.
Qed.

Lemma wp_done {A} (m : ST S A) Q s a s' :
  m s = Done (a, s') → wp m Q s → Q a s'.
Proof. unfold wp. intros ->. done. Qed.

Lemma wp_mono {A} (m : ST S A) (Q Q' : A → S → Prop) s :
  wp m Q s → (∀ a s', Q a s' → Q' a s') → wp m Q' s.
Proof. rewrite !wp_run. naive_solver. Qed.

Lemma wp_bind {A B} (m : ST S A) (f : A → ST S B) Q s :
  wp m (λ a s', wp (f a) Q s') s → wp (m ≫= f) Q s.
Proof.
  unfold wp, mbind, st_bind. by destruct (m s) as [[a s']|e|].
Qed.

Lemma wp_assoc {A B C} (m : ST S A) (f : A → ST S B) (g : B → ST S C) Q s :
  wp ((m ≫= f) ≫= g) Q s → wp (m ≫= λ a, f a ≫= g) Q s.
Proof. unfold wp, mbind, st_bind. by destruct (m s) as [[a s']|e|]. Qed.

Lemma wp_ret {A} (a : A) (Q : A → S → Prop) s : Q a s → wp (mret a) Q s.
Proof. done. Qed.

Lemma wp_get (Q : S → S → Prop) s : Q s s → wp st_get Q s.
Proof. done. Qed.

Lemma wp_modify f (Q : unit → S → Prop) s : Q tt (f s) → wp (st_modify f) Q s.
Proof. done. Qed.

Lemma wp_lift {A} (o : outcome A) (a : A) (Q : A → S → Prop) s :
  o = Done a → Q a s → wp (st_lift o) Q s.
Proof. by intros ->. Qed.

Lemma wp_if {A} (b : bool) (m1 m2 : ST S A) Q s :
  (b = true → wp m1 Q s) → (b = false → wp m2 Q s) → wp (if b then m1 else m2) Q s.
Proof. destruct b; auto. Qed.

End wp_rules.

(** ** Undefined behaviour

    [faults m e s]: [m], started in [s], runs into the fault [e]. *)
Definition faults {S A} (m : ST S A) (e : fault) (s : S) : Prop := m s = Fault e.

Section fault_rules.
Context {S : Type}.
Implicit Types s : S.

Lemma faults_here {A B} (m : ST S A) (f : A → ST S B) e s :
  faults m e s → faults (m ≫= f) e s.
Proof. unfold faults, mbind, st_bind. by intros ->. Qed.

Lemma faults_later {A B} (m : ST S A) (f : A → ST S B) e s :
  wp m (λ a s', faults (f a) e s') s → faults (m ≫= f) e s.
Proof. unfold wp, faults, mbind, st_bind. by destruct (m s) as [[a s']|?|]. Qed.

End fault_rules.

(** ** Termination

    [ends m]: whatever the state, [m] returns or faults; no loop of it is cut
    short for want of fuel.  The database [ends] carries the rules. *)
Definition ends {S A} (m : ST S A) : Prop := ∀ s, m s ≠ NoFuel.

Section ends_rules.
Context {S : Type}.

Lemma ends_ret {A} (a : A) : ends (S := S) (mret a).
Proof. done. Qed.
Lemma ends_get : ends (S := S) st_get.
Proof. done. Qed.
Lemma ends_modify (f : S → S) : ends (st_modify f).
Proof. done. Qed.
Lemma ends_fault {A} e : ends (S := S) (A := A) (st_fault e).
Proof. done. Qed.
Lemma ends_lift {A} (o : outcome A) : o ≠ NoFuel → ends (S := S) (st_lift o).
Proof. intros Ho s. by destruct o. Qed.
Lemma ends_bind {A B} (m : ST S A) (f : A → ST S B) : ends m → (∀ a, ends (f a)) → ends (m ≫= f).
Proof.
  intros Hm Hf s. unfold mbind, st_bind. specialize (Hm s).
  destruct (m s) as [[a s']| |]; [apply Hf|done|done].
Qed.
Lemma ends_faults {A} (m : ST S A) e : (∀ s, faults m e s) → ends m.
Proof. intros Hf s. rewrite (Hf s). done. Qed.

End ends_rules.

Create HintDb ends.
#[export] Hint Resolve ends_ret ends_get ends_modify ends_fault ends_lift : ends.
#[export] Hint Extern 3 (ends (mbind _ _)) => (apply ends_bind; [|intros ?]) : ends.

(** [wp_step] runs one rule of the monad; components extend it with the rules
    of their own primitives. *)
Ltac wp_step :=
  lazymatch goal with
  | |- wp (mbind _ _) _ _ => apply wp_bind
  | |- wp (mret _) _ _ => apply wp_ret
  | |- wp st_get _ _ => apply wp_get
  | |- wp (st_modify _) _ _ => apply wp_modify
  end.

(** * Lists: maps, binds and filters that leave every element alone *)

Lemma bind_id_on {A} (f : A → list A) (l : list A) :
  (∀ x, x ∈ l → f x = [x]) → l ≫= f = l.
Proof.
  induction l as [|x l IH]; intros Hf; [done|].
  rewrite bind_cons, Hf, IH by set_solver. done.
Qed.

Lemma fmap_id_on {A} (f : A → A) (l : list A) :
  (∀ x, x ∈ l → f x = x) → f <$> l = l.
Proof.
  induction l as [|x l IH]; intros Hf; [done|].
  rewrite fmap_cons, Hf, IH by set_solver. done.
Qed.

Lemma filter_id_on {A} (P : A → Prop) `{∀ x, Decision (P x)} (l : list A) :
  (∀ x, x ∈ l → P x) → filter P l = l.
Proof.
  induction l as [|x l IH]; intros Hf; [done|].
  rewrite filter_cons_True, IH by set_solver. done.
Qed.

Lemma elem_of_middle_ne {A} (x y : A) l1 l2 : x ∈ l1 ++ y :: l2 → x ≠ y → x ∈ l1 ++ l2.
Proof. rewrite !elem_of_app, elem_of_cons. naive_solver. Qed.

Lemma elem_of_middle {A} (x : A) l1 l2 : x ∈ l1 ++ x :: l2.
Proof. rewrite elem_of_app, elem_of_cons. auto. Qed.

Lemma Permutation_push_second {A} (x y : A) l1 l2 : x :: (l1 ++ y :: l2) ≡ₚ l1 ++ y :: x :: l2.
Proof. rewrite (Permutation_middle l1 (y :: l2) x). by rewrite (Permutation_swap x y). Qed.

(** An element of a list without duplicates splits it in one way only. *)
Lemma NoDup_split_unique {A} (x : A) l1 : ∀ k1 l2 k2,
  NoDup (l1 ++ x :: l2) → l1 ++ x :: l2 = k1 ++ x :: k2 → l1 = k1 ∧ l2 = k2.
Proof.
  induction l1 as [|y l1 IH]; intros [|z k1] l2 k2 Hnd Heq; simplify_list_eq; [done|..].
  - apply NoDup_cons in Hnd as [[] _]. apply elem_of_middle.
  - apply NoDup_cons in Hnd as [[] _]. apply elem_of_middle.
  - apply NoDup_cons in Hnd as [_ Hnd]. by destruct (IH k1 l2 k2 Hnd) as [-> ->].
Qed.

(** Membership in an explicit list, without the cost of [set_solver]. *)
Ltac solve_elem :=
  solve [ repeat first
    [ assumption
    | apply list_elem_of_here
    | apply elem_of_middle
    | apply list_elem_of_further
    | apply elem_of_app; right; solve_elem
    | apply elem_of_app; left; solve_elem ] ].

(** * Decimal numerals *)

(** The digits of [n], at most [fuel] of them. *)
Fixpoint digits (fuel : nat) (n : Z) : list Z :=
  match fuel with
  | O => []
  | S fuel => if n <? 10 then [48 + n] else digits fuel (n / 10) ++ [48 + n mod 10]
  end.

(** What [%d] and [%ld] print; an [int] has at most 10 digits, a [long] 19. *)
Definition decimal (fuel : nat) (n : Z) : list Z :=
  if n <? 0 then 45 :: digits fuel (- n) else digits fuel n.

Definition digits_value (l : list Z) : Z := foldl (λ v d, 10 * v + (d - 48)) 0 l.

Lemma digits_length fuel : ∀ n, (length (digits fuel n) ≤ fuel)%nat.
Proof.
  induction fuel as [|fuel IH]; intros n; simpl; [done|].
  destruct (n <? 10); simpl; [lia|]. rewrite length_app. specialize (IH (n / 10)). simpl. lia.
Qed.

Lemma decimal_length fuel n : (length (decimal fuel n) ≤ S fuel)%nat.
Proof.
  unfold decimal. pose proof (digits_length fuel n). pose proof (digits_length fuel (- n)).
  destruct (n <? 0); cbn [length]; lia.
Qed.

(** The digits of a number read back as the number. *)
Lemma digits_read fuel : ∀ n, 0 ≤ n < 10 ^ Z.of_nat fuel → digits_value (digits fuel n) = n.
Proof.
  induction fuel as [|fuel IH]; intros n Hn; [unfold digits_value; simpl in *; lia|]. cbn [digits].
  destruct (Z.ltb_spec n 10) as [Hlt|Hge]; [unfold digits_value; simpl; lia|].
  unfold digits_value. rewrite foldl_snoc. fold (digits_value (digits fuel (n / 10))).
  rewrite Nat2Z.inj_succ, Z.pow_succ_r in Hn by lia. rewrite IH by (split; [apply Z.div_pos|apply Z.div_lt_upper_bound]; lia).
  Z.div_mod_to_equations. lia.
Qed.

Lemma digits_positive fuel n : 0 ≤ n → Forall (λ d, 48 ≤ d) (digits fuel n).
Proof.
  revert n. induction fuel as [|fuel IH]; intros n Hn; cbn [digits]; [constructor|].
  destruct (Z.ltb_spec n 10); [repeat constructor; lia|]. apply Forall_app. split.
  - apply IH. Z.div_mod_to_equations. lia.
  - repeat constructor. Z.div_mod_to_equations. lia.
Qed.
