(* ===== verification/Allocator.v ===== *)
(** The custom heap allocator: [02_memory/custom_malloc/allocator.c].

    The arena is word-granular memory; a block is a header of three words
    followed by its payload.  This file holds the data, the operations as the
    source writes them, and the abstract first-fit allocator they implement. *)
From S2P Require Import Prelude.

Module Alloc.

(** ** Layout *)

Definition ALIGNMENT : Z := 8.

(** [ALIGN(size)]: [((size) + ALIGNMENT - 1) & ~(ALIGNMENT - 1)] in [size_t]
    arithmetic; the [int] mask is converted to [size_t]. *)
Definition ALIGN (size : Z) : Z :=
  Z.land (wrap64 (wrap64 (size + ALIGNMENT) - 1)) (wrap64 (Z.lnot (ALIGNMENT - 1))).

(** [sizeof(BlockHeader)]: [size_t size], [int is_free] and padding,
    [BlockHeader *next]. *)
Definition sizeof_BlockHeader : Z := 24.
Definition HEADER_SIZE : Z := ALIGN sizeof_BlockHeader.

Definition off_size : Z := 0.
Definition off_is_free : Z := 8.
Definition off_next : Z := 16.

(** ** State: the file's static variables and the memory they point into.
    Memory maps the address of every aligned 8-byte word to its contents. *)
Record alloc : Type := mkAlloc {
  heap_start : Z;
  heap_size : Z;
  free_list : Z;
  total_allocated : Z;
  total_freed : Z;
  num_allocations : Z;
  num_frees : Z;
  mem : gmap Z Z;
}.

Definition set_mem (f : gmap Z Z → gmap Z Z) (s : alloc) : alloc :=
  mkAlloc (heap_start s) (heap_size s) (free_list s) (total_allocated s)
    (total_freed s) (num_allocations s) (num_frees s) (f (mem s)).

Definition set_free_list (b : Z) (s : alloc) : alloc :=
  mkAlloc (heap_start s) (heap_size s) b (total_allocated s)
    (total_freed s) (num_allocations s) (num_frees s) (mem s).

Definition set_heap (start size : Z) (s : alloc) : alloc :=
  mkAlloc start size (free_list s) (total_allocated s)
    (total_freed s) (num_allocations s) (num_frees s) (mem s).

(** [total_allocated += n; num_allocations++;] *)
Definition count_alloc (n : Z) (s : alloc) : alloc :=
  mkAlloc (heap_start s) (heap_size s) (free_list s)
    (wrap64 (total_allocated s + n)) (total_freed s)
    (wrap64 (num_allocations s + 1)) (num_frees s) (mem s).

(** [total_freed += n; num_frees++;] *)
Definition count_free (n : Z) (s : alloc) : alloc :=
  mkAlloc (heap_start s) (heap_size s) (free_list s) (total_allocated s)
    (wrap64 (total_freed s + n)) (num_allocations s)
    (wrap64 (num_frees s + 1)) (mem s).

(** The statics before [allocator_init]. *)
Definition initial : alloc := mkAlloc NULL 0 NULL 0 0 0 0 ∅.

(** ** Typed accesses to a block header *)

Definition load64 (a : Z) : ST alloc Z := λ s,
  match mem s !! a with
  | Some w => Done (w, s)
  | None => Fault (if bool_decide (a < 4096) then NullDeref else OutOfBounds)
  end.

Definition store64 (a v : Z) : ST alloc unit := λ s,
  match mem s !! a with
  | Some _ => Done (tt, set_mem <[a := v]> s)
  | None => Fault (if bool_decide (a < 4096) then NullDeref else OutOfBounds)
  end.

Definition load_size (b : Z) : ST alloc Z := load64 (b + off_size).
Definition store_size (b v : Z) : ST alloc unit := store64 (b + off_size) v.
Definition load_next (b : Z) : ST alloc Z := load64 (b + off_next).
Definition store_next (b v : Z) : ST alloc unit := store64 (b + off_next) v.

(** [is_free] is the low half of its word; storing it keeps the padding. *)
Definition low32 (w : Z) : Z := sign32 (wrap32 w).
Definition put_low32 (w v : Z) : Z := w - wrap32 w + wrap32 v.

Definition load_is_free (b : Z) : ST alloc Z :=
  w ← load64 (b + off_is_free); mret (low32 w).
Definition store_is_free (b v : Z) : ST alloc unit :=
  w ← load64 (b + off_is_free); store64 (b + off_is_free) (put_low32 w v).

(** ** [allocator_init]

    [region] is what the C library's [malloc] answers: [None] for NULL, or the
    address of a fresh object and its indeterminate contents. *)
Definition region_words (base size : Z) (junk : Z → Z) : gmap Z Z :=
  list_to_map ((λ i, (base + 8 * i, junk i)) <$> seqZ 0 (size / 8)).

Definition allocator_init (region : option (Z * (Z → Z))) (size : Z) : ST alloc unit :=
  match region with
  | None => st_modify (set_heap NULL size)
  | Some (base, junk) =>
      _ ← st_modify (set_heap base size);
      _ ← st_modify (set_mem (λ m, region_words base size junk ∪ m));
      _ ← store_size base size;
      _ ← store_is_free base 1;
      _ ← store_next base NULL;
      st_modify (set_free_list base)
  end.

(** ** [find_free_block]: the block and, through [*prev], its predecessor *)
Fixpoint find_loop (fuel : nat) (size prev current : Z) : ST alloc (Z * Z) :=
  match fuel with
  | O => st_nofuel
  | S fuel =>
      if current =? NULL then mret (NULL, prev) else
      is_free ← load_is_free current;
      fits ← (if negb (is_free =? 0)
              then cs ← load_size current; mret (size <=? cs)
              else mret false);
      if (fits : bool) then mret (current, prev) else
      next ← load_next current;
      find_loop fuel size current next
  end.

Definition find_free_block (fuel : nat) (size : Z) : ST alloc (Z * Z) :=
  s ← st_get; find_loop fuel size NULL (free_list s).

(** ** [coalesce] *)
Definition adjacent_free (current next : Z) : ST alloc bool :=
  cs ← load_size current;
  if current + cs =? next then
    cf ← load_is_free current;
    if negb (cf =? 0)
    then nf ← load_is_free next; mret (negb (nf =? 0))
    else mret false
  else mret false.

Definition merge_next (current next : Z) : ST alloc unit :=
  cs ← load_size current;
  ns ← load_size next;
  _ ← store_size current (wrap64 (cs + ns));
  nn ← load_next next;
  store_next current nn.

Fixpoint coalesce_loop (fuel : nat) (current : Z) : ST alloc unit :=
  match fuel with
  | O => st_nofuel
  | S fuel =>
      if current =? NULL then mret tt else
      next ← load_next current;
      if next =? NULL then mret tt else
      adj ← adjacent_free current next;
      if (adj : bool)
      then _ ← merge_next current next; coalesce_loop fuel current
      else n ← load_next current; coalesce_loop fuel n
  end.

Definition coalesce (fuel : nat) : ST alloc unit :=
  s ← st_get; coalesce_loop fuel (free_list s).

(** ** [my_malloc] *)
Definition split_block (block total_size : Z) : ST alloc unit :=
  bsize ← load_size block;
  if total_size <? bsize then
    let new_block := block + total_size in
    bs ← load_size block;
    _ ← store_size new_block (wrap64 (bs - total_size));
    _ ← store_is_free new_block 1;
    bn ← load_next block;
    _ ← store_next new_block bn;
    _ ← store_size block total_size;
    store_next block new_block
  else mret tt.

Definition unlink_block (block prev : Z) : ST alloc unit :=
  n ← load_next block;
  _ ← (if negb (prev =? NULL) then store_next prev n
       else st_modify (set_free_list n));
  store_next block NULL.

(** Split, mark as allocated, remove from the free list. *)
Definition take_block (block prev total_size : Z) : ST alloc unit :=
  _ ← split_block block total_size;
  _ ← store_is_free block 0;
  unlink_block block prev.

Definition my_malloc (fuel : nat) (size : Z) : ST alloc Z :=
  s ← st_get;
  if (size =? 0) || (heap_start s =? NULL) then mret NULL else
  let size := ALIGN size in
  let total_size := wrap64 (HEADER_SIZE + size) in
  if heap_size s <? total_size then mret NULL else
  bp ← find_free_block fuel total_size;
  let '(block, prev) := bp in
  if block =? NULL then mret NULL else
  _ ← take_block block prev total_size;
  _ ← st_modify (count_alloc total_size);
  mret (block + HEADER_SIZE).

(** ** [my_free] *)
Definition my_free (fuel : nat) (ptr : Z) : ST alloc unit :=
  if ptr =? NULL then mret tt else
  let block := ptr - HEADER_SIZE in
  bsize ← load_size block;
  bad ← (if bsize =? 0 then mret true
         else bs ← load_size block; s ← st_get; mret (heap_size s <? bs));
  if (bad : bool) then mret tt else
  _ ← store_is_free block 1;
  s ← st_get;
  _ ← store_next block (free_list s);
  _ ← st_modify (set_free_list block);
  bs ← load_size block;
  _ ← st_modify (count_free bs);
  coalesce fuel.

(** ** [allocator_stats]: the numbers it prints *)
Record stats : Type := mkStats {
  st_net : Z;             (* total_allocated - total_freed *)
  st_free_blocks : Z;     (* num_free_blocks, an int *)
  st_free_memory : Z;     (* total_free_size *)
}.

Fixpoint stats_loop (fuel : nat) (n sz current : Z) : ST alloc (Z * Z) :=
  match fuel with
  | O => st_nofuel
  | S fuel =>
      if current =? NULL then mret (n, sz) else
      n ← st_lift (int_result (n + 1));
      cs ← load_size current;
      nx ← load_next current;
      stats_loop fuel n (wrap64 (sz + cs)) nx
  end.

Definition allocator_stats (fuel : nat) : ST alloc stats :=
  s ← st_get;
  r ← stats_loop fuel 0 0 (free_list s);
  mret (mkStats (wrap64 (total_allocated s - total_freed s)) r.1 r.2).

(** ** [allocator_cleanup]: [free(heap_start)] ends the region's lifetime *)
Definition in_region (base size a : Z) : Prop := base ≤ a < base + size.
#[export] Instance in_region_dec base size a : Decision (in_region base size a) := _.

Definition allocator_cleanup : ST alloc unit :=
  s ← st_get;
  if heap_start s =? NULL then mret tt else
  _ ← st_modify (set_mem (filter (λ w, ¬ in_region (heap_start s) (heap_size s) w.1)));
  st_modify (set_heap NULL (heap_size s)).

End Alloc.
