(* ===== verification/FirstFit.v ===== *)
(** The abstract allocator: what [allocator.c] promises, as pure functions on
    an address-ordered tiling of the arena and a free list of addresses, with
    the facts about tilings that the refinement proof uses. *)
From S2P Require Import Prelude Allocator.

Module FirstFit.

Record blk : Type := Blk { b_addr : Z; b_size : Z; b_free : bool }.

#[export] Instance blk_eq_dec : EqDecision blk.
Proof. solve_decision. Defined.

(** Bytes a request takes: the payload rounded up to 8, after the header. *)
Definition round8 (size : Z) : Z := 8 * ((size + 7) / 8).
Definition footprint (size : Z) : Z := 24 + round8 size.

(** [bs] covers [lo, hi) without gap or overlap, each block holding a header. *)
Fixpoint tiles (lo : Z) (bs : list blk) (hi : Z) : Prop :=
  match bs with
  | [] => lo = hi
  | b :: bs' => b_addr b = lo ∧ 24 ≤ b_size b ∧ tiles (lo + b_size b) bs' hi
  end.

Definition free_addrs (bs : list blk) : list Z := b_addr <$> filter (λ b, b_free b) bs.

Definition total_size (bs : list blk) : Z := foldr (λ b n, b_size b + n) 0 bs.
Definition free_bytes (bs : list blk) : Z := total_size (filter (λ b, b_free b) bs).
Definition live_bytes (bs : list blk) : Z := total_size (filter (λ b, ¬ b_free b) bs).

Fixpoint size_of (bs : list blk) (a : Z) : Z :=
  match bs with
  | [] => 0
  | b :: bs' => if decide (b_addr b = a) then b_size b else size_of bs' a
  end.

(** ** Allocation: first fit, splitting what is left over *)

Fixpoint first_fit (bs : list blk) (t : Z) (fl : list Z) : option Z :=
  match fl with
  | [] => None
  | a :: fl' => if decide (t ≤ size_of bs a) then Some a else first_fit bs t fl'
  end.

Definition carve1 (a t : Z) (b : blk) : list blk :=
  if decide (b_addr b = a) then
    if decide (t < b_size b) then [Blk a t false; Blk (a + t) (b_size b - t) true]
    else [Blk a (b_size b) false]
  else [b].
Definition carve (a t : Z) (bs : list blk) : list blk := bs ≫= carve1 a t.

Definition relink1 (a : Z) (r : list Z) (x : Z) : list Z := if decide (x = a) then r else [x].
Definition relink (a : Z) (r : list Z) (fl : list Z) : list Z := fl ≫= relink1 a r.

Definition remainder (bs : list blk) (a t : Z) : list Z :=
  if decide (t < size_of bs a) then [a + t] else [].

(** Serving [t] bytes, header included. *)
Definition serve (heap_size t : Z) (bs : list blk) (fl : list Z)
  : Z * list blk * list Z :=
  if decide (heap_size < t) then (NULL, bs, fl) else
  match first_fit bs t fl with
  | None => (NULL, bs, fl)
  | Some a => (a + 24, carve a t bs, relink a (remainder bs a t) fl)
  end.

Definition malloc (heap_size size : Z) := serve heap_size (footprint size).

(** The leftover of the block a request is served from is empty or can hold a
    header.  The source does not check this. *)
Definition no_sliver (heap_size t : Z) (bs : list blk) (fl : list Z) : Prop :=
  match first_fit bs t fl with
  | Some a => t ≤ heap_size → size_of bs a = t ∨ t + 24 ≤ size_of bs a
  | None => True
  end.
#[export] Instance no_sliver_dec hs t bs fl : Decision (no_sliver hs t bs fl).
Proof. unfold no_sliver. destruct (first_fit _ _ _); apply _. Defined.

(** ** Release: push on the list, then merge list neighbours that touch *)

Definition mark1 (a : Z) (b : blk) : blk :=
  if decide (b_addr b = a) then Blk a (b_size b) true else b.
Definition mark_free (a : Z) (bs : list blk) : list blk := mark1 a <$> bs.

Definition grow1 (a n : Z) (b : blk) : blk :=
  if decide (b_addr b = a) then Blk a (b_size b + n) (b_free b) else b.
Definition merge (a b : Z) (bs : list blk) : list blk :=
  grow1 a (size_of bs b) <$> filter (λ c, b_addr c ≠ b) bs.

Fixpoint coalesce_from (bs : list blk) (cur : Z) (rest : list Z) : list blk * list Z :=
  match rest with
  | [] => (bs, [cur])
  | b :: r =>
      if decide (cur + size_of bs cur = b) then coalesce_from (merge cur b bs) cur r
      else let '(bs', fl') := coalesce_from bs b r in (bs', cur :: fl')
  end.

Definition release (a : Z) (bs : list blk) (fl : list Z) : list blk * list Z :=
  coalesce_from (mark_free a bs) a fl.

(** ** Facts about tilings *)

Lemma tiles_app lo l1 l2 hi :
  tiles lo (l1 ++ l2) hi ↔ ∃ mid, tiles lo l1 mid ∧ tiles mid l2 hi.
Proof.
  revert lo. induction l1 as [|b l1 IH]; intros lo; simpl.
  - naive_solver.
  - rewrite IH. naive_solver.
Qed.

Lemma tiles_le lo bs hi : tiles lo bs hi → lo ≤ hi.
Proof.
  revert lo. induction bs as [|b bs IH]; intros lo; simpl; [lia|].
  intros (? & ? & Ht). apply IH in Ht. lia.
Qed.

Lemma tiles_bounds lo bs hi b :
  tiles lo bs hi → b ∈ bs → lo ≤ b_addr b ∧ b_addr b + b_size b ≤ hi ∧ 24 ≤ b_size b.
Proof.
  intros Ht (l1 & l2 & ->)%list_elem_of_split.
  apply tiles_app in Ht as (mid & H1 & H2). simpl in H2.
  apply tiles_le in H1. destruct H2 as (? & ? & H2). apply tiles_le in H2. lia.
Qed.

(** Two different blocks of a tiling are disjoint. *)
Lemma tiles_disjoint lo l1 b l2 hi c :
  tiles lo (l1 ++ b :: l2) hi → c ∈ l1 ++ l2 →
  b_addr c + b_size c ≤ b_addr b ∨ b_addr b + b_size b ≤ b_addr c.
Proof.
  intros (mid & H1 & H2)%tiles_app [Hc|Hc]%elem_of_app; simpl in H2.
  - pose proof (tiles_bounds _ _ _ _ H1 Hc). lia.
  - destruct H2 as (? & ? & H2). pose proof (tiles_bounds _ _ _ _ H2 Hc). lia.
Qed.

Lemma tiles_addr_ne lo l1 b l2 hi c :
  tiles lo (l1 ++ b :: l2) hi → c ∈ l1 ++ l2 → b_addr c ≠ b_addr b.
Proof.
  intros Ht Hc.
  pose proof (tiles_disjoint _ _ _ _ _ _ Ht Hc).
  pose proof (tiles_bounds _ _ _ b Ht ltac:(set_solver)).
  pose proof (tiles_bounds _ _ _ c Ht ltac:(set_solver)). lia.
Qed.

Lemma tiles_inj lo bs hi b c :
  tiles lo bs hi → b ∈ bs → c ∈ bs → b_addr b = b_addr c → b = c.
Proof.
  intros Ht (l1 & l2 & ->)%list_elem_of_split Hc Heq.
  destruct (decide (b = c)) as [|Hne]; [done|exfalso].
  assert (Hc' : c ∈ l1 ++ l2) by set_solver.
  by apply (tiles_addr_ne _ _ _ _ _ _ Ht Hc').
Qed.

Lemma tiles_nodup lo bs hi : tiles lo bs hi → NoDup (b_addr <$> bs).
Proof.
  revert lo. induction bs as [|b bs IH]; intros lo; simpl; [constructor|].
  intros Ht. constructor.
  - intros (c & Hc & Hin)%list_elem_of_fmap.
    by apply (tiles_addr_ne lo [] b bs hi c Ht Hin).
  - destruct Ht as (? & ? & Ht). by eapply IH.
Qed.

Lemma tiles_total lo bs hi : tiles lo bs hi → total_size bs = hi - lo.
Proof.
  revert lo. induction bs as [|b bs IH]; intros lo; simpl; [lia|].
  intros (? & ? & Ht). apply IH in Ht. lia.
Qed.

Lemma total_size_app l1 l2 : total_size (l1 ++ l2) = total_size l1 + total_size l2.
Proof. induction l1 as [|b l1 IH]; simpl; lia. Qed.

Lemma total_size_split bs : total_size bs = free_bytes bs + live_bytes bs.
Proof.
  induction bs as [|b bs IH]; [done|].
  unfold free_bytes, live_bytes in *. rewrite !filter_cons. simpl.
  destruct (b_free b); repeat case_decide; simpl; naive_solver lia.
Qed.

Lemma tiles_length lo bs hi : tiles lo bs hi → 24 * Z.of_nat (length bs) ≤ hi - lo.
Proof.
  revert lo. induction bs as [|b bs IH]; intros lo; simpl; [lia|].
  intros (? & ? & Ht). apply IH in Ht. lia.
Qed.

Lemma size_of_elem lo bs hi b : tiles lo bs hi → b ∈ bs → size_of bs (b_addr b) = b_size b.
Proof.
  revert lo. induction bs as [|c bs IH]; intros lo Ht Hin; simpl; [set_solver|].
  case_decide as Heq.
  - f_equal. by eapply tiles_inj; [exact Ht|set_solver..|].
  - apply elem_of_cons in Hin as [->|Hin]; [done|].
    destruct Ht as (? & ? & Ht). by eapply IH.
Qed.

Lemma free_addrs_app l1 l2 : free_addrs (l1 ++ l2) = free_addrs l1 ++ free_addrs l2.
Proof. unfold free_addrs. by rewrite filter_app, fmap_app. Qed.

Lemma free_addrs_cons b l :
  free_addrs (b :: l) = (if b_free b then [b_addr b] else []) ++ free_addrs l.
Proof.
  unfold free_addrs. rewrite filter_cons. destruct (b_free b); case_decide; naive_solver.
Qed.

Lemma elem_of_free_addrs a bs :
  a ∈ free_addrs bs ↔ ∃ b, b ∈ bs ∧ b_addr b = a ∧ b_free b = true.
Proof.
  unfold free_addrs. rewrite list_elem_of_fmap.
  setoid_rewrite list_elem_of_filter. split.
  - intros (b & -> & Hf & Hin). exists b. by destruct (b_free b).
  - intros (b & Hin & <- & Hf). exists b. by rewrite Hf.
Qed.

(** Rewriting one block of a tiling, with its neighbours left alone. *)
Section one_block.
Context (lo hi : Z) (l1 l2 : list blk) (b : blk).
Hypothesis Ht : tiles lo (l1 ++ b :: l2) hi.

Lemma others_ne c : c ∈ l1 ++ l2 → b_addr c ≠ b_addr b.
Proof. by eapply tiles_addr_ne. Qed.

Lemma bind_one (f : blk → list blk) :
  (∀ c, b_addr c ≠ b_addr b → f c = [c]) → (l1 ++ b :: l2) ≫= f = l1 ++ f b ++ l2.
Proof.
  intros Hf. rewrite bind_app, bind_cons.
  rewrite !bind_id_on; [done|intros c Hc; apply Hf, others_ne; set_solver..].
Qed.

Lemma fmap_one (f : blk → blk) :
  (∀ c, b_addr c ≠ b_addr b → f c = c) → f <$> (l1 ++ b :: l2 : list blk) = l1 ++ f b :: l2.
Proof.
  intros Hf. rewrite fmap_app, fmap_cons.
  rewrite !fmap_id_on; [done|intros c Hc; apply Hf, others_ne; set_solver..].
Qed.

Lemma filter_one :
  filter (λ c, b_addr c ≠ b_addr b) (l1 ++ b :: l2) = l1 ++ l2.
Proof.
  rewrite filter_app, filter_cons_False by naive_solver.
  rewrite !filter_id_on; [done|intros c Hc; apply others_ne; set_solver..].
Qed.

Lemma size_of_one : size_of (l1 ++ b :: l2) (b_addr b) = b_size b.
Proof. eapply size_of_elem; [exact Ht|set_solver]. Qed.

End one_block.

Lemma carve_split lo hi l1 l2 b t :
  tiles lo (l1 ++ b :: l2) hi →
  carve (b_addr b) t (l1 ++ b :: l2) = l1 ++ carve1 (b_addr b) t b ++ l2.
Proof.
  intros Ht. apply (bind_one _ _ _ _ _ Ht). intros c Hc.
  unfold carve1. by rewrite decide_False.
Qed.

Lemma mark_split lo hi l1 l2 b :
  tiles lo (l1 ++ b :: l2) hi →
  mark_free (b_addr b) (l1 ++ b :: l2) = l1 ++ Blk (b_addr b) (b_size b) true :: l2.
Proof.
  intros Ht. unfold mark_free. rewrite (fmap_one _ _ _ _ _ Ht).
  - unfold mark1. by rewrite decide_True.
  - intros c Hc. unfold mark1. by rewrite decide_False.
Qed.

Lemma relink_split a r pre post :
  NoDup (pre ++ a :: post) → relink a r (pre ++ a :: post) = pre ++ r ++ post.
Proof.
  intros Hnd. rewrite <- Permutation_middle in Hnd. apply NoDup_cons in Hnd as [Ha _].
  unfold relink. rewrite bind_app, bind_cons. unfold relink1 at 2.
  rewrite decide_True by done.
  rewrite !bind_id_on; [done|intros x Hx; unfold relink1; rewrite decide_False; [done|set_solver]..].
Qed.

(** The block that starts where another ends is its right neighbour. *)
Lemma tiles_next lo l1 b l2 hi c :
  tiles lo (l1 ++ b :: l2) hi → c ∈ l1 ++ b :: l2 → b_addr c = b_addr b + b_size b →
  ∃ l2', l2 = c :: l2'.
Proof.
  intros Ht Hc Heq. pose proof (tiles_bounds _ _ _ b Ht ltac:(set_solver)) as Hb.
  assert (Hc' : c ∈ l1 ++ l2).
  { apply elem_of_app in Hc as [?|[->|?]%elem_of_cons]; [set_solver|lia|set_solver]. }
  pose proof Ht as Ht0. apply tiles_app in Ht as (mid & H1 & Hbm & Hbs & H2).
  apply elem_of_app in Hc' as [Hc'|Hc'].
  { pose proof (tiles_bounds _ _ _ _ H1 Hc'). lia. }
  destruct l2 as [|d l2]; [set_solver|].
  destruct H2 as (Hd & Hds & H2).
  exists l2. f_equal. symmetry. eapply tiles_inj; [exact Ht0|set_solver..|lia].
Qed.

(** Two touching neighbours joined still tile the arena. *)
Lemma tiles_join lo hi l1 l2 b c :
  tiles lo (l1 ++ b :: c :: l2) hi →
  tiles lo (l1 ++ Blk (b_addr b) (b_size b + b_size c) (b_free b) :: l2) hi.
Proof.
  intros (mid & H1 & ? & ? & ? & ? & H2)%tiles_app.
  apply tiles_app. exists mid. simpl. split_and!; [done..|lia|].
  by rewrite Z.add_assoc.
Qed.

Lemma merge_split lo hi l1 l2 b c :
  tiles lo (l1 ++ b :: c :: l2) hi →
  merge (b_addr b) (b_addr c) (l1 ++ b :: c :: l2) =
  l1 ++ Blk (b_addr b) (b_size b + b_size c) (b_free b) :: l2.
Proof.
  intros Ht. unfold merge.
  rewrite (size_of_elem _ _ _ c Ht) by set_solver.
  rewrite cons_middle, app_assoc in Ht |- *.
  rewrite (filter_one _ _ _ _ _ Ht), <- app_assoc.
  rewrite <- app_assoc in Ht. pose proof (tiles_join _ _ _ _ _ _ Ht) as Hj.
  rewrite fmap_app, fmap_app, fmap_cons.
  rewrite !(fmap_id_on _ l1), !(fmap_id_on _ l2).
  - simpl. unfold grow1. by rewrite decide_True.
  - intros d Hd. unfold grow1. rewrite decide_False; [done|].
    apply (others_ne _ _ _ _ _ Hj d). set_solver.
  - intros d Hd. unfold grow1. rewrite decide_False; [done|].
    apply (others_ne _ _ _ _ _ Hj d). set_solver.
Qed.

(** ** Abstract heaps: a tiling and a listing of its free blocks *)

Record wf (lo hi : Z) (bs : list blk) (fl : list Z) : Prop := {
  wf_tiles : tiles lo bs hi;
  wf_free : fl ≡ₚ free_addrs bs;
}.

Definition live (bs : list blk) : list blk := filter (λ b, ¬ b_free b) bs.

Lemma wf_free_elem lo hi bs fl a :
  wf lo hi bs fl → a ∈ fl → Blk a (size_of bs a) true ∈ bs.
Proof.
  intros [Ht Hp]. rewrite Hp. intros ([a' sz f] & Hb & <- & Hf)%elem_of_free_addrs.
  simpl in *. subst f. pose proof (size_of_elem _ _ _ _ Ht Hb) as Hs. simpl in Hs. by rewrite Hs.
Qed.

Lemma free_addrs_nodup bs : NoDup (b_addr <$> bs) → NoDup (free_addrs bs).
Proof.
  induction bs as [|b bs IH]; [constructor|]. rewrite fmap_cons, free_addrs_cons.
  intros [Hb Hl]%NoDup_cons. destruct (b_free b); simpl; [|by apply IH].
  apply NoDup_cons. split; [|by apply IH].
  intros (c & Hc & Heq & _)%elem_of_free_addrs.
  apply Hb. rewrite <- Heq. by apply list_elem_of_fmap_2.
Qed.

Lemma wf_nodup lo hi bs fl : wf lo hi bs fl → NoDup fl.
Proof. intros [Ht Hp]. rewrite Hp. by eapply free_addrs_nodup, tiles_nodup. Qed.

Lemma live_app l1 l2 : live (l1 ++ l2) = live l1 ++ live l2.
Proof. apply filter_app. Qed.

Lemma live_cons_free a sz l : live (Blk a sz true :: l) = live l.
Proof. unfold live. rewrite filter_cons_False; [done|]. simpl. naive_solver. Qed.

Lemma live_cons_live a sz l : live (Blk a sz false :: l) = Blk a sz false :: live l.
Proof. unfold live. rewrite filter_cons_True; [done|]. simpl. naive_solver. Qed.

(** Two touching entries of the list are neighbours, and merging joins them. *)
Lemma touching_neighbours lo hi bs fl a b :
  wf lo hi bs fl → a ∈ fl → b ∈ fl → a + size_of bs a = b →
  ∃ l1 l2, bs = l1 ++ Blk a (size_of bs a) true :: Blk b (size_of bs b) true :: l2 ∧
    merge a b bs = l1 ++ Blk a (size_of bs a + size_of bs b) true :: l2.
Proof.
  intros Hwf Ha Hb Hab. pose proof (wf_tiles _ _ _ _ Hwf) as Ht.
  apply (wf_free_elem _ _ _ _ _ Hwf) in Ha, Hb.
  destruct (list_elem_of_split _ _ Ha) as (l1 & l2' & Hl). rewrite Hl in Ht.
  destruct (tiles_next _ _ _ _ _ (Blk b (size_of bs b) true) Ht) as [l2 ->];
    [by rewrite <- Hl|simpl; lia|].
  exists l1, l2. split; [done|]. rewrite Hl at 1. apply (merge_split _ _ _ _ _ _ Ht).
Qed.

Lemma wf_merge lo hi bs pre a b post :
  wf lo hi bs (pre ++ a :: b :: post) → a + size_of bs a = b →
  wf lo hi (merge a b bs) (pre ++ a :: post) ∧ live (merge a b bs) = live bs.
Proof.
  intros Hwf Hab.
  destruct (touching_neighbours _ _ _ _ a b Hwf) as (l1 & l2 & Hbs & Hm); [set_solver..|done|].
  destruct Hwf as [Ht Hp]. rewrite Hm. split; [split|].
  - rewrite Hbs in Ht. apply (tiles_join _ _ _ _ (Blk a _ true) (Blk b _ true) Ht).
  - rewrite Hbs in Hp. rewrite free_addrs_app, !free_addrs_cons in Hp.
    rewrite free_addrs_app, free_addrs_cons. simpl in *.
    apply (inj (b ::.)). etransitivity; [apply Permutation_push_second|].
    rewrite Hp. symmetry. apply Permutation_push_second.
  - rewrite live_app, live_cons_free.
    apply (f_equal live) in Hbs. by rewrite live_app, !live_cons_free in Hbs.
Qed.

Lemma size_of_merge a b bs x : x ≠ a → x ≠ b → size_of (merge a b bs) x = size_of bs x.
Proof.
  intros Ha Hb. unfold merge. generalize (size_of bs b) as n. intros n.
  induction bs as [|c bs IH]; [done|]. rewrite filter_cons. simpl.
  case_decide as Hc; [|rewrite IH, decide_False by congruence; done].
  rewrite fmap_cons. simpl. rewrite IH. unfold grow1.
  destruct (decide (b_addr c = a)) as [Heq|Hne]; simpl; [|done].
  by rewrite !decide_False by congruence.
Qed.

(** ** Coalescing *)

Lemma coalesce_from_wf lo hi rest : ∀ bs pre cur,
  wf lo hi bs (pre ++ cur :: rest) →
  wf lo hi (coalesce_from bs cur rest).1 (pre ++ (coalesce_from bs cur rest).2) ∧
  live (coalesce_from bs cur rest).1 = live bs.
Proof.
  induction rest as [|b rest IH]; intros bs pre cur Hwf; simpl; [done|].
  case_decide as Hab.
  - destruct (wf_merge _ _ _ _ _ _ _ Hwf Hab) as [Hwf' <-]. by apply IH.
  - rewrite cons_middle, app_assoc in Hwf. destruct (IH bs (pre ++ [cur]) b Hwf) as [H1 H2].
    destruct (coalesce_from bs b rest) as [bs' fl']. simpl in *. by rewrite <- app_assoc in H1.
Qed.

Lemma coalesce_from_head rest : ∀ bs cur, ∃ fl, (coalesce_from bs cur rest).2 = cur :: fl.
Proof.
  induction rest as [|b rest IH]; intros bs cur; simpl; [by exists []|].
  case_decide; [apply IH|]. destruct (coalesce_from bs b rest). simpl. eauto.
Qed.

Lemma coalesce_from_size rest x : ∀ bs cur,
  x ∉ cur :: rest → size_of (coalesce_from bs cur rest).1 x = size_of bs x.
Proof.
  induction rest as [|b rest IH]; intros bs cur Hx; simpl; [done|].
  apply not_elem_of_cons in Hx as [Hc Hx]. case_decide.
  - rewrite IH by (apply not_elem_of_cons; set_solver).
    apply size_of_merge; set_solver.
  - specialize (IH bs b Hx). by destruct (coalesce_from bs b rest).
Qed.

(** No two list neighbours touch. *)
Fixpoint separated (bs : list blk) (fl : list Z) : Prop :=
  match fl with
  | a :: (b :: _) as tl => a + size_of bs a ≠ b ∧ separated bs tl
  | _ => True
  end.

Lemma coalesce_from_separated lo hi rest : ∀ bs pre cur,
  wf lo hi bs (pre ++ cur :: rest) →
  separated (coalesce_from bs cur rest).1 (coalesce_from bs cur rest).2.
Proof.
  induction rest as [|b rest IH]; intros bs pre cur Hwf; simpl; [done|].
  case_decide as Hab.
  - eapply IH. by apply (wf_merge _ _ _ pre cur b rest).
  - pose proof (wf_nodup _ _ _ _ Hwf) as (_ & _ & [Hcur _]%NoDup_cons)%NoDup_app.
    rewrite cons_middle, app_assoc in Hwf.
    specialize (IH bs (pre ++ [cur]) b Hwf). pose proof (coalesce_from_size rest cur bs b Hcur) as Hs.
    destruct (coalesce_from_head rest bs b) as [fl Hfl].
    destruct (coalesce_from bs b rest) as [bs' fl']. simpl in *. subst fl'. by rewrite Hs.
Qed.

(** ** What a served request promises *)

Lemma first_fit_elem bs t fl a : first_fit bs t fl = Some a → a ∈ fl ∧ t ≤ size_of bs a.
Proof.
  induction fl as [|b fl IH]; simpl; [done|]. case_decide; intros ?; simplify_eq; [set_solver|].
  set_solver.
Qed.

Lemma first_fit_none bs t fl : first_fit bs t fl = None ↔ ∀ a, a ∈ fl → size_of bs a < t.
Proof.
  induction fl as [|b fl IH]; simpl; [set_solver|]. case_decide as Hd.
  - split; [done|]. intros Hall. specialize (Hall b). set_solver by lia.
  - rewrite IH. split; intros Hall a Ha.
    + apply elem_of_cons in Ha as [->|Ha]; [lia|by apply Hall].
    + apply Hall. by apply elem_of_cons; right.
Qed.

Lemma serve_success lo hi hs t bs fl p bs' fl' :
  wf lo hi bs fl → no_sliver hs t bs fl → serve hs t bs fl = (p, bs', fl') → p ≠ NULL →
  ∃ l1 a l2, p = a + 24 ∧ bs = l1 ++ Blk a (size_of bs a) true :: l2 ∧
    Blk a t false ∈ bs' ∧ live bs' ≡ₚ Blk a t false :: live bs.
Proof.
  intros Hwf Hns Hs Hp. unfold serve, no_sliver in *.
  case_decide as Hhs; [naive_solver|].
  destruct (first_fit bs t fl) as [a|] eqn:Hff; [|naive_solver]. simplify_eq.
  apply first_fit_elem in Hff as [Ha Hle]. specialize (Hns ltac:(lia)).
  apply (wf_free_elem _ _ _ _ _ Hwf) in Ha. pose proof (wf_tiles _ _ _ _ Hwf) as Ht.
  destruct (list_elem_of_split _ _ Ha) as (l1 & l2 & Hl). exists l1, a, l2.
  remember (size_of bs a) as sz eqn:Esz. rewrite Hl in Ht.
  pose proof (carve_split _ _ _ _ (Blk a sz true) t Ht) as Hc. simpl in Hc.
  rewrite <- Hl in Hc. unfold carve1 in Hc. simpl in Hc. destruct (decide (a = a)); [|done].
  split; [done|]. split; [done|]. rewrite Hc, Hl, !live_app, live_cons_free.
  rewrite (Permutation_middle (live l1)). destruct (decide (t < sz)).
  - split; [set_solver|done].
  - replace sz with t by lia. split; [set_solver|done].
Qed.

Lemma live_bytes_live bs : live_bytes bs = total_size (live bs).
Proof. done. Qed.

Lemma total_size_perm l1 l2 : l1 ≡ₚ l2 → total_size l1 = total_size l2.
Proof. induction 1; simpl in *; lia. Qed.

(** A live block marked free and pushed on the list. *)
Lemma wf_push lo hi bs fl a sz :
  wf lo hi bs fl → Blk a sz false ∈ bs →
  wf lo hi (mark_free a bs) (a :: fl) ∧ Blk a sz false :: live (mark_free a bs) ≡ₚ live bs.
Proof.
  intros [Ht Hp] Hin. destruct (list_elem_of_split _ _ Hin) as (l1 & l2 & ->).
  pose proof (mark_split _ _ _ _ _ Ht) as Hm. simpl in Hm. rewrite Hm. split; [split|].
  - apply tiles_app in Ht as (mid & H1 & ? & ? & H2). apply tiles_app. by exists mid.
  - rewrite Hp, !free_addrs_app, !free_addrs_cons. simpl. by rewrite Permutation_middle.
  - by rewrite !live_app, live_cons_free, live_cons_live, Permutation_middle.
Qed.

Lemma release_mark_live lo hi bs fl a sz :
  wf lo hi bs fl → Blk a sz false ∈ bs → live (release a bs fl).1 = live (mark_free a bs).
Proof.
  intros Hwf Hin. destruct (wf_push _ _ _ _ _ _ Hwf Hin) as [Hw _].
  by apply (coalesce_from_wf _ _ fl _ []) in Hw as [_ ?].
Qed.

Lemma release_live lo hi bs fl a sz :
  wf lo hi bs fl → Blk a sz false ∈ bs →
  Blk a sz false :: live (release a bs fl).1 ≡ₚ live bs.
Proof.
  intros Hwf Hin. rewrite (release_mark_live _ _ _ _ _ _ Hwf Hin).
  by apply (wf_push _ _ _ _ _ _ Hwf Hin).
Qed.

Lemma release_separated lo hi bs fl a sz :
  wf lo hi bs fl → Blk a sz false ∈ bs → separated (release a bs fl).1 (release a bs fl).2.
Proof.
  intros Hwf Hin. destruct (wf_push _ _ _ _ _ _ Hwf Hin) as [Hw _].
  by apply (coalesce_from_separated _ _ fl _ [] _ Hw).
Qed.

(** ** A heap of a single free block *)

Lemma serve_single base t total hs :
  t ≤ hs → t ≤ total →
  serve hs t [Blk base total true] [base] =
    (base + 24, carve1 base t (Blk base total true), if decide (t < total) then [base + t] else []).
Proof.
  intros Hhs Ht. unfold serve, carve, relink, relink1, remainder. simpl.
  destruct (decide (base = base)) as [_|]; [|done].
  rewrite decide_False by lia. rewrite (decide_True (P := t ≤ total)) by lia.
  rewrite !app_nil_r. by destruct (decide (base = base)).
Qed.

Lemma release_single base t total :
  24 ≤ t → t = total ∨ t + 24 ≤ total →
  release base (carve1 base t (Blk base total true)) (if decide (t < total) then [base + t] else [])
    = ([Blk base total true], [base]).
Proof.
  intros H24 Ht. unfold release, carve1. simpl. destruct (decide (base = base)); [|done].
  destruct (decide (t < total)) as [Hlt|Hge].
  - set (b := Blk base t false). set (r := Blk (base + t) (total - t) true).
    set (b' := Blk base t true).
    assert (Htl : tiles base ([] ++ b :: [r]) (base + total)) by (simpl; lia).
    assert (Htl' : tiles base ([] ++ b' :: r :: []) (base + total)) by (simpl; lia).
    change (coalesce_from (mark_free (b_addr b) ([] ++ b :: [r])) base [base + t] =
      ([Blk base total true], [base])).
    rewrite (mark_split _ _ _ _ _ Htl).
    change (coalesce_from ([] ++ b' :: r :: []) base [base + t] = ([Blk base total true], [base])).
    cbn [coalesce_from]. rewrite decide_True.
    + change base with (b_addr b') at 1. change (base + t) with (b_addr r).
      rewrite (merge_split _ _ _ _ _ _ Htl'). simpl.
      by replace (t + (total - t)) with total by lia.
    + change base with (b_addr b') at 2. by rewrite (size_of_elem _ _ _ b' Htl') by constructor.
  - replace total with t by lia. simpl. unfold mark1. simpl. by destruct (decide (base = base)).
Qed.

End FirstFit.
