(* ===== verification/AllocatorRefine.v ===== *)
(** [allocator.c] implements the abstract first-fit allocator of [FirstFit]:
    the heap invariant, and the refinement of each operation. *)
From S2P Require Import Prelude Allocator FirstFit.
Import Alloc FirstFit.

(** ** Alignment arithmetic *)

Lemma land_mask8 x : 0 ≤ x < 2 ^ 64 → Z.land x (2 ^ 64 - 8) = 8 * (x / 8).
Proof.
  intros Hx. apply Z.bits_inj'. intros n Hn.
  replace (8 * (x / 8)) with (Z.shiftl (Z.shiftr x 3) 3)
    by (rewrite Z.shiftl_mul_pow2, Z.shiftr_div_pow2 by lia; change (2 ^ 3) with 8; lia).
  rewrite Z.land_spec, Z.shiftl_spec by lia.
  change (2 ^ 64 - 8) with (Z.shiftl (Z.ones 61) 3).
  rewrite Z.shiftl_spec by lia.
  destruct (decide (n < 3)).
  - rewrite (Z.testbit_neg_r _ (n - 3)) by lia. rewrite (Z.testbit_neg_r (Z.shiftr x 3)) by lia.
    by rewrite andb_false_r.
  - rewrite Z.shiftr_spec by lia. replace (n - 3 + 3) with n by lia.
    destruct (decide (n < 64)).
    + rewrite Z.ones_spec_low by lia. by rewrite andb_true_r.
    + rewrite Z.ones_spec_high by lia. rewrite andb_false_r.
      rewrite <- (Z.mod_small x (2 ^ 64)) by lia. by rewrite Z.mod_pow2_bits_high by lia.
Qed.

Lemma ALIGN_spec size :
  0 ≤ size < 2 ^ 64 → ALIGN size = 8 * (wrap64 (size + 7) / 8).
Proof.
  intros Hs. unfold ALIGN, ALIGNMENT.
  change (wrap64 (Z.lnot (8 - 1))) with (2 ^ 64 - 8).
  rewrite land_mask8 by apply wrap64_bound.
  unfold wrap64. rewrite Zminus_mod_idemp_l. do 3 f_equal. lia.
Qed.

Lemma ALIGN_round8 size : 0 ≤ size ≤ 2 ^ 64 - 8 → ALIGN size = round8 size.
Proof.
  intros Hs. rewrite ALIGN_spec by lia. unfold round8. by rewrite wrap64_small by lia.
Qed.

Lemma HEADER_SIZE_24 : HEADER_SIZE = 24.
Proof. reflexivity. Qed.

Lemma footprint_bounds size : 0 < size → size + 24 ≤ footprint size ≤ size + 31.
Proof. unfold footprint, round8. intros. Z.div_mod_to_equations. lia. Qed.

Lemma footprint_mod8 size : footprint size mod 8 = 0.
Proof. unfold footprint, round8. Z.div_mod_to_equations. lia. Qed.

(** ** The is_free half-word *)

Lemma low32_put w v : is_int v → low32 (put_low32 w v) = v.
Proof.
  unfold is_int, int_min, int_max, low32, put_low32, sign32, wrap32. intros Hv.
  replace ((w - w mod 2 ^ 32 + v mod 2 ^ 32) mod 2 ^ 32) with (v mod 2 ^ 32).
  - Z.div_mod_to_equations. case_match; lia.
  - rewrite Z.add_mod_idemp_r by lia.
    replace (w - w mod 2 ^ 32 + v) with (v + (w / 2 ^ 32) * 2 ^ 32).
    + by rewrite Z_mod_plus_full.
    + pose proof (Z.div_mod w (2 ^ 32)). lia.
Qed.

Lemma low32_put_1 w : low32 (put_low32 w 1) = 1.
Proof. by apply low32_put. Qed.
Lemma low32_put_0 w : low32 (put_low32 w 0) = 0.
Proof. by apply low32_put. Qed.

(** ** Rules for header accesses *)

Section access_rules.
Implicit Types s : alloc.

Lemma wp_load_size b v (Q : Z → alloc → Prop) s :
  mem s !! b = Some v → Q v s → wp (load_size b) Q s.
Proof. unfold wp, load_size, load64, off_size. rewrite Z.add_0_r. by intros ->. Qed.

Lemma wp_load_next b v (Q : Z → alloc → Prop) s :
  mem s !! (b + 16) = Some v → Q v s → wp (load_next b) Q s.
Proof. unfold wp, load_next, load64, off_next. by intros ->. Qed.

Lemma wp_load_is_free b w v (Q : Z → alloc → Prop) s :
  mem s !! (b + 8) = Some w → low32 w = v → Q v s → wp (load_is_free b) Q s.
Proof.
  unfold wp, load_is_free, mbind, st_bind, load64, off_is_free. by intros -> <-.
Qed.

Lemma wp_store_size b v (Q : unit → alloc → Prop) s :
  is_Some (mem s !! b) → Q tt (set_mem <[b := v]> s) → wp (store_size b v) Q s.
Proof. unfold wp, store_size, store64, off_size. rewrite Z.add_0_r. by intros [? ->]. Qed.

Lemma wp_store_next b v (Q : unit → alloc → Prop) s :
  is_Some (mem s !! (b + 16)) → Q tt (set_mem <[b + 16 := v]> s) → wp (store_next b v) Q s.
Proof. unfold wp, store_next, store64, off_next. by intros [? ->]. Qed.

Lemma wp_store_is_free b v (Q : unit → alloc → Prop) s :
  is_Some (mem s !! (b + 8)) →
  (∀ w, mem s !! (b + 8) = Some w → Q tt (set_mem <[b + 8 := put_low32 w v]> s)) →
  wp (store_is_free b v) Q s.
Proof.
  unfold wp, store_is_free, mbind, st_bind, load64, store64, off_is_free.
  intros [w Hw] HQ. rewrite Hw. rewrite Hw. by apply HQ.
Qed.

End access_rules.

(** Lookups in memory after a run of stores to addresses [lia] tells apart. *)
Ltac mem_look :=
  repeat first
    [ rewrite lookup_insert_eq
    | rewrite lookup_insert_ne by lia ].

(** One step of a symbolic execution of the allocator. *)
Ltac alloc_step :=
  cbv beta;
  lazymatch goal with
  | |- wp (load_size _) _ _ => eapply wp_load_size; [cbn; mem_look; try eassumption|]
  | |- wp (load_next _) _ _ => eapply wp_load_next; [cbn; mem_look; try eassumption|]
  | |- wp (load_is_free _) _ _ =>
      eapply wp_load_is_free; [cbn; mem_look; try eassumption|try eassumption|]
  | |- wp (store_size _ _) _ _ => apply wp_store_size; [cbn; mem_look; eauto|]
  | |- wp (store_next _ _) _ _ => apply wp_store_next; [cbn; mem_look; eauto|]
  | |- wp (store_is_free _ _) _ _ => apply wp_store_is_free; [cbn; mem_look; eauto|cbn; mem_look]
  | |- _ => wp_step
  end; cbv beta.

(** ** The invariant *)

Definition flag (f : bool) : Z := if f then 1 else 0.

(** The header of [b] is in memory, its fields those of [b]. *)
Record block_ok (m : gmap Z Z) (b : blk) : Prop := {
  bo_align : b_addr b mod 8 = 0;
  bo_size : m !! b_addr b = Some (b_size b);
  bo_free : ∃ w, m !! (b_addr b + 8) = Some w ∧ low32 w = flag (b_free b);
  bo_next : is_Some (m !! (b_addr b + 16));
}.

(** [fl] is what following [next] from [a] visits, up to NULL. *)
Fixpoint chain (m : gmap Z Z) (a : Z) (fl : list Z) : Prop :=
  match fl with
  | [] => a = NULL
  | b :: fl' => a = b ∧ ∃ n, m !! (b + 16) = Some n ∧ chain m n fl'
  end.

(** The part of a chain before the address [x]. *)
Fixpoint segment (m : gmap Z Z) (a : Z) (pre : list Z) (x : Z) : Prop :=
  match pre with
  | [] => a = x
  | b :: pre' => a = b ∧ ∃ n, m !! (b + 16) = Some n ∧ segment m n pre' x
  end.

(** An arena of [size] bytes at [start], memory [m] and list head [h] hold the
    blocks [bs] and the free list [fl]. *)
Record heap_ok (start size : Z) (m : gmap Z Z) (h : Z) (bs : list blk) (fl : list Z)
    : Prop := {
  ho_start : 4096 ≤ start;
  ho_end : start + size ≤ 2 ^ 64;
  ho_align : start mod 8 = 0;
  ho_mapped : ∀ a, start ≤ a → a + 8 ≤ start + size → a mod 8 = 0 → is_Some (m !! a);
  ho_tiles : tiles start bs (start + size);
  ho_blocks : ∀ b, b ∈ bs → block_ok m b;
  ho_chain : chain m h fl;
  ho_free : fl ≡ₚ free_addrs bs;
}.

Definition heap_inv (s : alloc) (bs : list blk) (fl : list Z) : Prop :=
  heap_ok (heap_start s) (heap_size s) (mem s) (free_list s) bs fl.

(** ** Chains *)

Lemma chain_app m a pre rest :
  chain m a (pre ++ rest) ↔ ∃ x, segment m a pre x ∧ chain m x rest.
Proof.
  revert a. induction pre as [|b pre IH]; intros a; simpl.
  - naive_solver.
  - setoid_rewrite IH. naive_solver.
Qed.

Lemma chain_agree m m' a fl :
  chain m a fl → (∀ b, b ∈ fl → m' !! (b + 16) = m !! (b + 16)) → chain m' a fl.
Proof.
  revert a. induction fl as [|b fl IH]; intros a; simpl; [done|].
  intros (-> & n & Hn & Hc) Hag. split; [done|]. exists n. split.
  - by rewrite Hag by set_solver.
  - apply IH; [done|set_solver].
Qed.

Lemma chain_det m a fl fl' : 
  chain m a fl → chain m a fl' → NULL ∉ fl → NULL ∉ fl' → fl = fl'.
Proof.
  revert a fl'. induction fl as [|b fl IH]; intros a [|b' fl']; simpl; [set_solver..|].
  intros (-> & n & Hn & Hc) (-> & n' & Hn' & Hc') ??. simplify_eq.
  f_equal. eapply IH; [done..|set_solver|set_solver].
Qed.

(** Redirecting the last link of a segment from [x] to [y]. *)
Lemma segment_agree m m' a pre x y :
  segment m a pre x → NoDup pre →
  (∀ b, b ∈ pre → last pre ≠ Some b → m' !! (b + 16) = m !! (b + 16)) →
  (∀ p, last pre = Some p → m' !! (p + 16) = Some y) →
  segment m' (if decide (pre = []) then y else a) pre y.
Proof.
  revert a. induction pre as [|b pre IH]; intros a; simpl; [done|].
  intros (-> & n & Hn & Hs) [Hb Hnd]%NoDup_cons Hag Hlast. split; [done|].
  destruct pre as [|c pre]; simpl in *.
  - exists y. split; [|done]. by apply Hlast.
  - exists n. split.
    + rewrite Hag; [done|set_solver|]. intros Hl.
      apply Hb. by apply last_Some_elem_of.
    + apply (IH n); [done..| |done]. intros d Hd Hne. apply Hag; [set_solver|done].
Qed.

(** ** Consequences of the invariant *)

Section heap_facts.
Context {start size : Z} {m : gmap Z Z} {h : Z} {bs : list blk} {fl : list Z}.
Hypothesis Hok : heap_ok start size m h bs fl.

Lemma ok_wf : wf start (start + size) bs fl.
Proof. split; apply Hok. Qed.

Lemma ok_nodup : NoDup fl.
Proof. eapply wf_nodup, ok_wf. Qed.

Lemma ok_free_block a : a ∈ fl → ∃ b, b ∈ bs ∧ b_addr b = a ∧ b_free b = true.
Proof. rewrite (ho_free _ _ _ _ _ _ Hok). apply elem_of_free_addrs. Qed.

Lemma ok_free_header a :
  a ∈ fl → block_ok m (Blk a (size_of bs a) true) ∧ Blk a (size_of bs a) true ∈ bs.
Proof.
  intros ([a' sz f] & Hb & <- & Hf)%ok_free_block. simpl in *. subst f.
  pose proof (size_of_elem _ _ _ _ (ho_tiles _ _ _ _ _ _ Hok) Hb) as Hsz.
  simpl in Hsz. rewrite Hsz. split; [|done]. by apply (ho_blocks _ _ _ _ _ _ Hok).
Qed.

Lemma ok_elem_bounds b :
  b ∈ bs → start ≤ b_addr b ∧ b_addr b + b_size b ≤ start + size ∧ 24 ≤ b_size b.
Proof. apply tiles_bounds, (ho_tiles _ _ _ _ _ _ Hok). Qed.

Lemma ok_free_bounds a : a ∈ fl → 4096 ≤ a.
Proof.
  intros (b & Hb & <- & _)%ok_free_block. apply ok_elem_bounds in Hb.
  pose proof (ho_start _ _ _ _ _ _ Hok). lia.
Qed.

Lemma ok_free_headers a :
  a ∈ fl → block_ok m (Blk a (size_of bs a) true) ∧ a ≠ NULL.
Proof.
  intros Ha. split; [by apply ok_free_header|].
  apply ok_free_bounds in Ha. unfold NULL. lia.
Qed.

(** The free list is short: every entry is a block of at least a header. *)
Lemma ok_free_length : 24 * Z.of_nat (length fl) ≤ size.
Proof.
  rewrite (ho_free _ _ _ _ _ _ Hok). unfold free_addrs. rewrite length_fmap.
  pose proof (length_filter (λ b : blk, b_free b) bs).
  pose proof (tiles_length _ _ _ (ho_tiles _ _ _ _ _ _ Hok)). lia.
Qed.

End heap_facts.

(** ** Local change of the heap

    Replacing the consecutive blocks [ob] by [nb] over the same bytes, and the
    stretch [ofl] of the free list by [nfl], where memory changes only in those
    bytes and in the link that pointed to the stretch. *)
Section local_change.
Context (start size : Z) (m m' : gmap Z Z) (h y lo hi : Z).
Context (l1 ob nb l2 : list blk) (pre ofl nfl post : list Z).
Hypothesis Hok : heap_ok start size m h (l1 ++ ob ++ l2) (pre ++ ofl ++ post).
Hypothesis Ho : tiles lo ob hi.
Hypothesis Hne : ob ≠ [].
Hypothesis Hofl : ofl ≡ₚ free_addrs ob.
Hypothesis Hm' : ∀ x, ¬ lo ≤ x < hi → last pre ≠ Some (x - 16) → m' !! x = m !! x.
Hypothesis Hlast : ∀ p, last pre = Some p → m' !! (p + 16) = Some y.

Lemma lc_tiles : tiles start l1 lo ∧ tiles hi l2 (start + size).
Proof.
  pose proof (ho_tiles _ _ _ _ _ _ Hok) as (mid & H1 & (mid' & H2 & H3)%tiles_app)%tiles_app.
  assert (mid = lo) as ->.
  { destruct ob as [|o ob']; [done|]. simpl in *. naive_solver. }
  assert (mid' = hi) as ->.
  { apply tiles_total in H2, Ho. lia. }
  done.
Qed.

Lemma lc_out c : c ∈ l1 ++ l2 → b_addr c + b_size c ≤ lo ∨ hi ≤ b_addr c.
Proof.
  destruct lc_tiles as [H1 H3]. intros [Hc|Hc]%elem_of_app.
  - pose proof (tiles_bounds _ _ _ _ H1 Hc). lia.
  - pose proof (tiles_bounds _ _ _ _ H3 Hc). lia.
Qed.

Lemma lc_perm : pre ++ post ≡ₚ free_addrs (l1 ++ l2).
Proof.
  pose proof (ho_free _ _ _ _ _ _ Hok) as Hp.
  rewrite !free_addrs_app, <- Hofl in Hp. rewrite free_addrs_app.
  apply (inj (ofl ++.)). rewrite Permutation_app_swap_app, Hp.
  by rewrite Permutation_app_swap_app.
Qed.

(** Every other list entry is the address of a block outside the bytes. *)
Lemma lc_entry q : q ∈ pre ++ post → ∃ c, c ∈ l1 ++ l2 ∧ b_addr c = q ∧ 24 ≤ b_size c.
Proof.
  rewrite lc_perm. intros (c & Hc & <- & _)%elem_of_free_addrs.
  exists c. split_and!; [done..|].
  apply (ok_elem_bounds Hok c). rewrite !elem_of_app in *. naive_solver.
Qed.

Lemma lc_nodup : NoDup (pre ++ post).
Proof.
  pose proof (ok_nodup Hok) as Hnd. rewrite Permutation_app_swap_app in Hnd.
  by apply NoDup_app in Hnd as (_ & _ & ?).
Qed.

Lemma lc_agree_far q :
  q ∈ pre ++ post → last pre ≠ Some q → m' !! (q + 16) = m !! (q + 16).
Proof.
  intros Hq Hl. destruct (lc_entry q Hq) as (c & Hc & <- & Hsz).
  apply lc_out in Hc. apply Hm'; [lia|]. by replace (b_addr c + 16 - 16) with (b_addr c) by lia.
Qed.

Lemma lc_agree_block c : c ∈ l1 ++ l2 → 
  m' !! b_addr c = m !! b_addr c ∧ m' !! (b_addr c + 8) = m !! (b_addr c + 8).
Proof.
  intros Hc. pose proof (lc_out c Hc) as Hoc.
  assert (Hin : ∀ d, d ∈ l1 ++ l2 → d ∈ l1 ++ ob ++ l2)
    by (intros d; rewrite !elem_of_app; naive_solver).
  pose proof (ok_elem_bounds Hok c (Hin c Hc)).
  assert (Hp : ∀ k, k = 0 ∨ k = 8 → last pre ≠ Some (b_addr c + k - 16)).
  { intros k Hk Hl%last_Some_elem_of.
    destruct (lc_entry (b_addr c + k - 16)) as (d & Hd & Heq & Hsd); [set_solver|].
    destruct (list_elem_of_split _ _ (Hin c Hc)) as (k1 & k2 & Hk12).
    pose proof (ho_tiles _ _ _ _ _ _ Hok) as Ht. 
    pose proof (Hin d Hd) as Hd'. rewrite Hk12 in Ht, Hd'.
    apply elem_of_app in Hd' as [Hd'|[->|Hd']%elem_of_cons]; [|lia|];
      pose proof (tiles_disjoint _ _ _ _ _ d Ht) as Hdis; rewrite elem_of_app in Hdis;
      naive_solver lia. }
  split; apply Hm'; try lia.
  - rewrite <- (Z.add_0_r (b_addr c)). apply Hp. lia.
  - apply Hp. lia.
Qed.

Lemma lc_replace :
  tiles lo nb hi → nfl ≡ₚ free_addrs nb →
  (∀ c, c ∈ nb → block_ok m' c) →
  (∀ x, is_Some (m !! x) → is_Some (m' !! x)) →
  (∀ x n, segment m x ofl n → chain m' n post → (pre = [] → h = x) → chain m' y (nfl ++ post)) →
  heap_ok start size m' (if decide (pre = []) then y else h)
    (l1 ++ nb ++ l2) (pre ++ nfl ++ post).
Proof.
  intros Hn Hnfl Hnb Hsome Hchain. destruct lc_tiles as [H1 H3].
  split; try apply Hok.
  - intros a ???. by apply Hsome, (ho_mapped _ _ _ _ _ _ Hok).
  - apply tiles_app. exists lo. split; [done|]. apply tiles_app. by exists hi.
  - intros c Hc. rewrite Permutation_app_swap_app in Hc.
    apply elem_of_app in Hc as [Hc|Hc]; [by apply Hnb|].
    destruct (lc_agree_block c Hc) as [E1 E2].
    destruct (ho_blocks _ _ _ _ _ _ Hok c) as [B1 B2 B3 B4];
      [rewrite !elem_of_app in *; naive_solver|].
    split; [done|by rewrite E1|by rewrite E2|by apply Hsome].
  - pose proof (ho_chain _ _ _ _ _ _ Hok) as (x & Hpre & (n & Hs & Hpost)%chain_app)%chain_app.
    apply chain_app. exists y. split.
    + eapply segment_agree; [done| |intros b Hb; apply lc_agree_far; set_solver|done].
      by pose proof lc_nodup as [? _]%NoDup_app.
    + apply (Hchain x n Hs); [|by intros ->].
      eapply chain_agree; [done|]. intros b Hb. apply lc_agree_far; [set_solver|].
      intros Hl%last_Some_elem_of. pose proof lc_nodup as (_ & Hx & _)%NoDup_app.
      by apply (Hx b).
  - rewrite !free_addrs_app, <- Hnfl, Permutation_app_swap_app, lc_perm, free_addrs_app.
    by rewrite Permutation_app_swap_app.
Qed.

End local_change.

(** ** [find_free_block] *)

(** The first fitting entry of a list and the entry before it. *)
Fixpoint find_pos (bs : list blk) (t prev : Z) (fl : list Z) : Z * Z :=
  match fl with
  | [] => (NULL, prev)
  | a :: fl' => if decide (t ≤ size_of bs a) then (a, prev) else find_pos bs t a fl'
  end.

Lemma find_pos_first_fit bs t prev fl :
  match first_fit bs t fl with
  | Some a => ∃ pre post, fl = pre ++ a :: post ∧ t ≤ size_of bs a ∧
      find_pos bs t prev fl = (a, default prev (last pre))
  | None => (find_pos bs t prev fl).1 = NULL
  end.
Proof.
  revert prev. induction fl as [|a fl IH]; intros prev; simpl; [done|].
  case_decide; [by exists [], fl|].
  specialize (IH a). destruct (first_fit bs t fl) as [c|]; [|done].
  destruct IH as (pre & post & -> & Ht & ->). exists (a :: pre), post.
  split_and!; [done..|]. f_equal. rewrite last_cons. by destruct (last pre).
Qed.

Lemma find_loop_run bs t s :
  ∀ suf fuel prev cur,
  chain (mem s) cur suf →
  (∀ a, a ∈ suf → block_ok (mem s) (Blk a (size_of bs a) true) ∧ a ≠ NULL) →
  (length suf < fuel)%nat →
  wp (find_loop fuel t prev cur) (λ r s', r = find_pos bs t prev suf ∧ s' = s) s.
Proof.
  induction suf as [|a suf IH]; intros [|fuel] prev cur Hc Hok Hf; simpl in *; try lia.
  { subst cur. by apply wp_ret. }
  destruct Hc as (-> & n & Hn & Hc).
  destruct (Hok a) as [[_ Hsz (w & Hw & Hfr) _] Hnz]; [set_solver|]. simpl in *.
  rewrite (proj2 (Z.eqb_neq _ _) Hnz).
  do 3 alloc_step. simpl. do 3 alloc_step.
  destruct (Z.leb_spec t (size_of bs a)).
  - rewrite decide_True by done. by alloc_step.
  - rewrite decide_False by lia. do 2 alloc_step.
    apply IH; [done| |lia]. intros b Hb. apply Hok. set_solver.
Qed.

(** ** Serving a request from a free block *)

(** Everything but memory and the head of the free list is unchanged. *)
Definition same_frame (s s' : alloc) : Prop :=
  heap_start s' = heap_start s ∧ heap_size s' = heap_size s ∧
  total_allocated s' = total_allocated s ∧ total_freed s' = total_freed s ∧
  num_allocations s' = num_allocations s ∧ num_frees s' = num_frees s.

(** What [take_block] leaves in memory, at the cells that matter. *)
Record taken (m m' : gmap Z Z) (h h' a sz t : Z) (prev : option Z) (y : Z) : Prop := {
  tk_split : t + 24 ≤ sz → block_ok m' (Blk (a + t) (sz - t) true);
  tk_block : block_ok m' (Blk a t false);
  tk_far : ∀ x, ¬ a ≤ x < a + sz → prev ≠ Some (x - 16) → m' !! x = m !! x;
  tk_some : ∀ x, is_Some (m !! x) → is_Some (m' !! x);
  tk_prev : ∀ p, prev = Some p → m' !! (p + 16) = Some y;
  tk_next : t + 24 ≤ sz → ∃ n, m !! (a + 16) = Some n ∧ m' !! (a + t + 16) = Some n;
  tk_head : h' = match prev with Some _ => h | None => y end;
}.

Lemma is_Some_insert (m : gmap Z Z) i v x : is_Some (m !! x) → is_Some (<[i:=v]> m !! x).
Proof. intros. rewrite lookup_insert. case_decide; [eauto|done]. Qed.

(** Closes the clauses of [taken] once the stores are in place. *)
Ltac solve_block_ok :=
  split; simpl; mem_look;
  [ done | done
  | eexists; split; [done|first [apply low32_put_0 | apply low32_put_1]] | eauto ].

Ltac solve_taken :=
  lazymatch goal with
  | |- block_ok _ _ => solve_block_ok
  | |- is_Some _ => by repeat apply is_Some_insert
  | H : Some ?p ≠ Some ?q |- _ !! _ = _ => assert (p ≠ q) by congruence; by mem_look
  | |- ∃ _, _ => eexists; split; [eassumption|]; by mem_look
  | |- _ => by mem_look
  end.

(** [prev->next = n] or [free_list = n]. *)
Definition link_from (prev : option Z) (n : Z) (s : alloc) : alloc :=
  match prev with
  | Some p => set_mem <[p + 16 := n]> s
  | None => set_free_list n s
  end.

Lemma wp_unlink_block a prev n (Q : unit → alloc → Prop) s :
  mem s !! (a + 16) = Some n →
  (∀ p, prev = Some p → p ≠ NULL ∧ is_Some (mem s !! (p + 16))) →
  Q tt (set_mem <[a + 16 := NULL]> (link_from prev n s)) →
  wp (unlink_block a (default NULL prev)) Q s.
Proof.
  intros Hn Hprev HQ. unfold unlink_block. do 3 alloc_step.
  destruct prev as [p|]; simpl in *.
  - destruct (Hprev p eq_refl) as [Hp Hsp]. rewrite (proj2 (Z.eqb_neq p NULL) Hp). simpl.
    alloc_step. apply wp_store_next; [|done]. cbn. by apply is_Some_insert.
  - alloc_step. apply wp_store_next; [|done]. by exists n.
Qed.

Lemma take_block_exact s a t prev n :
  block_ok (mem s) (Blk a t true) → mem s !! (a + 16) = Some n → 4096 ≤ a → 24 ≤ t →
  (∀ p, prev = Some p → 4096 ≤ p ∧ (p + 24 ≤ a ∨ a + t ≤ p) ∧ is_Some (mem s !! (p + 16))) →
  wp (take_block a (default NULL prev) t)
    (λ _ s', same_frame s s' ∧
       taken (mem s) (mem s') (free_list s) (free_list s') a t t prev n) s.
Proof.
  intros [Hal Hsz (w & Hw & Hfr) _] Hn Ha Ht Hprev. simpl in *.
  unfold take_block, split_block.
  do 3 alloc_step. rewrite Z.ltb_irrefl. do 3 alloc_step. intros w' Hw'.
  apply (wp_unlink_block _ _ n); [by cbn; mem_look| |].
  { intros p Hp. destruct (Hprev p Hp) as (? & ? & ?). unfold NULL.
    split; [lia|]. cbn. by apply is_Some_insert. }
  destruct prev as [p|]; (split; [done|]); split; simpl; intros; simplify_eq;
    try (destruct (Hprev _ eq_refl) as (? & ? & ?)); try lia; try done.
  all: solve_taken.
Qed.

Lemma mod8_add a b : a mod 8 = 0 → b mod 8 = 0 → (a + b) mod 8 = 0.
Proof. intros. Z.div_mod_to_equations. lia. Qed.

Lemma take_block_split s a sz t prev n :
  block_ok (mem s) (Blk a sz true) → mem s !! (a + 16) = Some n → 4096 ≤ a →
  24 ≤ t → t + 24 ≤ sz < 2 ^ 64 → t mod 8 = 0 →
  (∀ x, a ≤ x → x + 8 ≤ a + sz → x mod 8 = 0 → is_Some (mem s !! x)) →
  (∀ p, prev = Some p → 4096 ≤ p ∧ (p + 24 ≤ a ∨ a + sz ≤ p) ∧ is_Some (mem s !! (p + 16))) →
  wp (take_block a (default NULL prev) t)
    (λ _ s', same_frame s s' ∧
       taken (mem s) (mem s') (free_list s) (free_list s') a sz t prev (a + t)) s.
Proof.
  intros [Hal Hsz (w & Hw & Hfr) _] Hn Ha Ht Htsz Hmod Hmap Hprev. simpl in *.
  assert (Hat : (a + t) mod 8 = 0) by by apply mod8_add.
  assert (Hm0 : is_Some (mem s !! (a + t))) by (apply Hmap; [lia..|done]).
  assert (Hm1 : is_Some (mem s !! (a + t + 8))) by (apply Hmap; [lia..|by apply mod8_add]).
  assert (Hm2 : is_Some (mem s !! (a + t + 16))) by (apply Hmap; [lia..|by apply mod8_add]).
  unfold take_block, split_block.
  do 3 alloc_step. rewrite (proj2 (Z.ltb_lt t sz)) by lia. do 6 alloc_step.
  intros w' Hw'. do 7 alloc_step.
  do 2 alloc_step. intros w'' Hw''. rewrite Hw in Hw''. injection Hw'' as <-.
  apply (wp_unlink_block _ _ (a + t)); [by cbn; mem_look| |].
  { intros p Hp. destruct (Hprev p Hp) as (? & ? & ?). unfold NULL.
    split; [lia|]. cbn. by repeat apply is_Some_insert. }
  rewrite wrap64_small by lia.
  destruct prev as [p|]; (split; [done|]); split; simpl; intros; simplify_eq;
    try (destruct (Hprev _ eq_refl) as (? & ? & ?)); try lia; try done.
  all: solve_taken.
Qed.

(** The bytes clients own. *)
Definition live_payload (bs : list blk) (x : Z) : Prop :=
  ∃ b, b ∈ bs ∧ b_free b = false ∧ b_addr b + 24 ≤ x < b_addr b + b_size b.

(** A live payload meets neither a free block nor the header of one. *)
Lemma live_payload_far start size m h l1 b l2 fl x :
  heap_ok start size m h (l1 ++ b :: l2) fl → b_free b = true →
  live_payload (l1 ++ b :: l2) x →
  ¬ b_addr b ≤ x < b_addr b + b_size b ∧
  ∀ p, p ∈ fl → x ≠ p ∧ x ≠ p + 8 ∧ x ≠ p + 16.
Proof.
  intros Hok Hb (c & Hc & Hcf & Hx). pose proof (ho_tiles _ _ _ _ _ _ Hok) as Ht. split.
  - assert (c ≠ b) as Hne by congruence.
    pose proof (tiles_disjoint _ _ _ _ _ _ Ht (elem_of_middle_ne _ _ _ _ Hc Hne)). lia.
  - intros p (d & Hd & <- & Hdf)%(ok_free_block Hok).
    assert (d ≠ c) as Hne by congruence.
    pose proof (ok_elem_bounds Hok d Hd).
    apply list_elem_of_split in Hc as (k1 & k2 & Hk). rewrite Hk in Ht, Hd.
    pose proof (tiles_disjoint _ _ _ _ _ _ Ht (elem_of_middle_ne _ _ _ _ Hd Hne)). lia.
Qed.

Lemma taken_chain m m' h h' a sz t prev y post n :
  taken m m' h h' a sz t prev y → m !! (a + 16) = Some n → chain m' n post →
  (sz = t ∧ y = n) ∨ (t + 24 ≤ sz ∧ y = a + t) →
  chain m' y ((if decide (t < sz) then [a + t] else []) ++ post).
Proof.
  intros Htk Hn Hc [[-> ->]|[Hlt ->]].
  - by rewrite decide_False by lia.
  - rewrite decide_True by lia. simpl. split; [done|].
    destruct (tk_next _ _ _ _ _ _ _ _ _ Htk Hlt) as (n' & Hn' & Hm').
    exists n. simplify_eq. done.
Qed.

(** The list entry before a free block is a header outside the block. *)
Lemma prev_far start size m h bs pre a post p :
  heap_ok start size m h bs (pre ++ a :: post) → last pre = Some p →
  4096 ≤ p ∧ (p + 24 ≤ a ∨ a + size_of bs a ≤ p) ∧ is_Some (m !! (p + 16)).
Proof.
  intros Hok Hp%last_Some_elem_of.
  pose proof (ok_nodup Hok) as Hnd. rewrite <- Permutation_middle in Hnd.
  apply NoDup_cons in Hnd as [Hnd _].
  split; [apply (ok_free_bounds Hok); set_solver|].
  destruct (ok_free_block Hok p ltac:(set_solver)) as (c & Hc & <- & _).
  split; [|apply (ho_blocks _ _ _ _ _ _ Hok _ Hc)].
  destruct (ok_free_header Hok a ltac:(set_solver)) as [_ Hin].
  pose proof (ok_elem_bounds Hok c Hc). pose proof (ho_tiles _ _ _ _ _ _ Hok) as Ht.
  apply list_elem_of_split in Hin as (l1 & l2 & Hl). rewrite Hl in Ht.
  pose proof (tiles_disjoint _ _ _ _ _ c Ht) as Hd. simpl in Hd.
  destruct (Hd ltac:(rewrite Hl in Hc; set_solver)); lia.
Qed.

Lemma take_block_ok s bs pre a post t n :
  heap_inv s bs (pre ++ a :: post) → mem s !! (a + 16) = Some n →
  size_of bs a = t ∨ t + 24 ≤ size_of bs a → 24 ≤ t → t mod 8 = 0 →
  wp (take_block a (default NULL (last pre)) t)
    (λ _ s', same_frame s s' ∧
       taken (mem s) (mem s') (free_list s) (free_list s') a (size_of bs a) t (last pre)
         (if decide (t < size_of bs a) then a + t else n)) s.
Proof.
  intros Hok Hn Hsz Ht Hmod.
  destruct (ok_free_header Hok a) as [Hb Hin]; [set_solver|].
  pose proof (ok_elem_bounds Hok _ Hin) as Hbnd. simpl in Hbnd.
  pose proof (ho_end _ _ _ _ _ _ Hok). pose proof (ho_start _ _ _ _ _ _ Hok).
  pose proof (λ p, prev_far _ _ _ _ _ pre a post p Hok) as Hprev.
  destruct Hsz as [Heq|Hlt].
  - rewrite Heq in *. rewrite decide_False by lia. apply take_block_exact; auto with lia.
  - rewrite decide_True by lia. eapply take_block_split; eauto with lia.
    intros x ???. apply (ho_mapped _ _ _ _ _ _ Hok); [lia..|done].
Qed.

(** The heap after a block is taken. *)
Lemma taken_ok start size m h l1 b l2 pre post m' h' t n :
  heap_ok start size m h (l1 ++ b :: l2) (pre ++ b_addr b :: post) →
  b_free b = true → m !! (b_addr b + 16) = Some n →
  b_size b = t ∨ t + 24 ≤ b_size b → 24 ≤ t →
  taken m m' h h' (b_addr b) (b_size b) t (last pre)
    (if decide (t < b_size b) then b_addr b + t else n) →
  heap_ok start size m' h' (l1 ++ carve1 (b_addr b) t b ++ l2)
    (pre ++ (if decide (t < b_size b) then [b_addr b + t] else []) ++ post).
Proof.
  intros Hok Hf Hn Hsz Ht Htk.
  set (y := if decide (t < b_size b) then b_addr b + t else n) in *.
  assert (Hh' : h' = if decide (pre = []) then y else h).
  { rewrite (tk_head _ _ _ _ _ _ _ _ _ Htk). destruct pre as [|c pre]; [done|].
    simpl. rewrite last_cons. by destruct (last pre). }
  rewrite Hh'. unfold carve1. destruct (decide (b_addr b = b_addr b)); [|done].
  eapply (lc_replace _ _ m m' h y (b_addr b) (b_addr b + b_size b)
            l1 [b] _ l2 pre [b_addr b]); try done.
  - pose proof (ok_elem_bounds Hok b ltac:(set_solver)). simpl. lia.
  - by rewrite free_addrs_cons, Hf.
  - apply Htk.
  - apply Htk.
  - destruct (decide (t < b_size b)); simpl; lia.
  - destruct (decide (t < b_size b)); try lia; by rewrite !free_addrs_cons.
  - intros c Hc. destruct Hsz as [Hsz|Hsz].
    + rewrite decide_False in Hc by lia. rewrite Hsz in Hc. apply list_elem_of_singleton in Hc as ->.
      apply Htk.
    + rewrite decide_True in Hc by lia.
      apply elem_of_cons in Hc as [->|Hc%list_elem_of_singleton]; [apply Htk|subst c; by apply Htk].
  - apply Htk.
  - intros x n' [-> (n'' & Hn'' & Hs)] Hc _. simpl in Hs. simplify_eq.
    eapply taken_chain; [done..|]. unfold y. destruct (decide (t < b_size b)); [right|left]; lia.
Qed.

Lemma serve_ok s bs pre a post t :
  heap_inv s bs (pre ++ a :: post) →
  size_of bs a = t ∨ t + 24 ≤ size_of bs a → 24 ≤ t → t mod 8 = 0 →
  wp (take_block a (default NULL (last pre)) t)
    (λ _ s', same_frame s s' ∧
       heap_inv s' (carve a t bs) (relink a (remainder bs a t) (pre ++ a :: post)) ∧
       ∀ x, live_payload bs x → mem s' !! x = mem s !! x) s.
Proof.
  intros Hok Hsz Ht Hmod. destruct (ok_free_header Hok a) as [Hb Hin]; [set_solver|].
  destruct (bo_next _ _ Hb) as [n Hn]. simpl in Hn.
  eapply wp_mono; [by apply (take_block_ok s bs pre a post t n)|].
  intros _ s' [Hsame Htk]. split; [done|].
  rewrite relink_split by (by apply (ok_nodup Hok)). unfold remainder.
  set (b := Blk a (size_of bs a) true) in *.
  apply list_elem_of_split in Hin as (l1 & l2 & Hl). split.
  - destruct Hsame as (Hst & Hhs & _). unfold heap_inv. rewrite Hst, Hhs.
    pose proof (ho_tiles _ _ _ _ _ _ Hok) as Htl. rewrite Hl in Htl.
    rewrite Hl at 1. change a with (b_addr b) at 1.
    rewrite (carve_split _ _ _ _ _ _ Htl).
    eapply (taken_ok _ _ (mem s) (free_list s) l1 b l2 pre post); try done.
    rewrite Hl in Hok. done.
  - intros x Hx. rewrite Hl in Hok, Hx.
    destruct (live_payload_far _ _ _ _ _ _ _ _ _ Hok eq_refl Hx) as [Hout Hfar].
    apply (tk_far _ _ _ _ _ _ _ _ _ Htk); [done|].
    intros Hp%last_Some_elem_of. destruct (Hfar (x - 16)) as (_ & _ & Hne); [set_solver|lia].
Qed.

(** ** [my_malloc] *)

(** What serving [t] bytes does to the statistics. *)
Definition counted_alloc (t p : Z) (s s' : alloc) : Prop :=
  if decide (p = NULL) then s' = s else
  total_allocated s' = wrap64 (total_allocated s + t) ∧
  num_allocations s' = wrap64 (num_allocations s + 1) ∧
  total_freed s' = total_freed s ∧ num_frees s' = num_frees s.

(** A request whose aligned size plus header is [t] bytes. *)
Lemma my_malloc_wp fuel size t s bs fl :
  heap_inv s bs fl → size ≠ 0 → wrap64 (HEADER_SIZE + ALIGN size) = t →
  24 ≤ t → t mod 8 = 0 → no_sliver (heap_size s) t bs fl → (length fl < fuel)%nat →
  wp (my_malloc fuel size)
    (λ p s', (∃ bs' fl', serve (heap_size s) t bs fl = (p, bs', fl') ∧ heap_inv s' bs' fl') ∧
       heap_start s' = heap_start s ∧ heap_size s' = heap_size s ∧ counted_alloc t p s s' ∧
       ∀ x, live_payload bs x → mem s' !! x = mem s !! x) s.
Proof.
  intros Hok Hsize Ht Ht24 Htmod Hsl Hfuel. pose proof (ho_start _ _ _ _ _ _ Hok).
  unfold my_malloc. do 2 wp_step.
  rewrite (proj2 (Z.eqb_neq size 0)), (proj2 (Z.eqb_neq (heap_start s) NULL)) by (unfold NULL; lia).
  rewrite Ht, HEADER_SIZE_24. simpl. unfold serve. destruct (Z.ltb_spec (heap_size s) t).
  { rewrite decide_True by done. wp_step. split_and!; try done. by eexists _, _. }
  rewrite decide_False by lia. unfold find_free_block. do 3 wp_step.
  eapply wp_mono.
  { apply (find_loop_run bs); [apply Hok|apply (ok_free_headers Hok)|done]. }
  intros _ _ [-> ->]. pose proof (find_pos_first_fit bs t NULL fl) as Hff.
  unfold no_sliver in Hsl. destruct (first_fit bs t fl) as [a|] eqn:Hfit; cycle 1.
  { destruct (find_pos _ _ _ _) as [b p]. simpl in Hff. subst b. simpl. wp_step.
    split_and!; try done. by eexists _, _. }
  destruct Hff as (pre & post & -> & Hle & ->). simpl.
  pose proof (ok_free_bounds Hok a ltac:(set_solver)).
  rewrite (proj2 (Z.eqb_neq a NULL)) by (unfold NULL; lia). wp_step.
  eapply wp_mono; [apply (serve_ok _ bs); [done|by apply Hsl|done..]|].
  intros _ s' ((Hst & Hhs & Hta & Htf & Hna & Hnf) & Hok' & Hlive). do 3 wp_step.
  split_and!; try done; [by eexists _, _|].
  unfold counted_alloc. rewrite decide_False by (unfold NULL; lia). simpl. by rewrite Hta, Hna.
Qed.

(** ** [coalesce] *)

Lemma segment_last m a pre x p :
  segment m a pre x → last pre = Some p → m !! (p + 16) = Some x.
Proof.
  revert a. induction pre as [|b pre IH]; intros a; simpl; [done|].
  intros (-> & n & Hn & Hs) Hl. destruct pre as [|c pre]; simpl in *.
  - by simplify_eq.
  - by apply (IH n).
Qed.

(** The link to a list entry holds its address. *)
Lemma ok_link start size m h bs pre a post :
  heap_ok start size m h bs (pre ++ a :: post) →
  (pre = [] → h = a) ∧ (∀ p, last pre = Some p → m !! (p + 16) = Some a).
Proof.
  intros Hok. pose proof (ho_chain _ _ _ _ _ _ Hok) as (x & Hs & -> & _)%chain_app.
  split; [by intros ->|]. intros p. by eapply segment_last.
Qed.

Definition merged (a sa sb nn : Z) (s : alloc) : alloc :=
  set_mem <[a + 16 := nn]> (set_mem <[a := sa + sb]> s).

Lemma wp_adjacent_free a b sa sb (Q : bool → alloc → Prop) s :
  block_ok (mem s) (Blk a sa true) → block_ok (mem s) (Blk b sb true) →
  Q (bool_decide (a + sa = b)) s → wp (adjacent_free a b) Q s.
Proof.
  intros [_ Hsa (w & Hw & Hfr) _] [_ _ (w' & Hw' & Hfr') _] HQ. simpl in *.
  unfold adjacent_free. do 2 alloc_step. destruct (Z.eqb_spec (a + sa) b) as [Heq|Hne].
  - rewrite bool_decide_true in HQ by done. do 2 alloc_step. simpl. by do 3 alloc_step.
  - rewrite bool_decide_false in HQ by done. by alloc_step.
Qed.

Lemma wp_merge_next a b sa sb nn (Q : unit → alloc → Prop) s :
  block_ok (mem s) (Blk a sa true) → block_ok (mem s) (Blk b sb true) →
  mem s !! (b + 16) = Some nn → b = a + sa → 24 ≤ sa → 0 ≤ sa + sb < 2 ^ 64 →
  Q tt (merged a sa sb nn s) → wp (merge_next a b) Q s.
Proof.
  intros [_ Hsa (w & Hw & Hfr) [n Hn]] [_ Hsb _ _] Hnn -> H24 Hsz HQ. simpl in *.
  unfold merge_next. do 9 alloc_step. by rewrite wrap64_small by lia.
Qed.

Lemma merged_ok s l1 l2 pre a b sa sb nn post :
  heap_inv s (l1 ++ Blk a sa true :: Blk b sb true :: l2) (pre ++ a :: b :: post) →
  b = a + sa → mem s !! (b + 16) = Some nn →
  heap_inv (merged a sa sb nn s) (l1 ++ Blk a (sa + sb) true :: l2) (pre ++ a :: post).
Proof.
  intros Hok -> Hnn. pose proof (ok_link _ _ _ _ _ _ _ _ Hok) as [Hh Hl].
  pose proof (ok_elem_bounds Hok (Blk a sa true) ltac:(set_solver)) as Ba.
  pose proof (ok_elem_bounds Hok (Blk (a + sa) sb true) ltac:(set_solver)) as Bb. simpl in *.
  pose proof (ho_blocks _ _ _ _ _ _ Hok (Blk a sa true) ltac:(set_solver))
    as [Bal Bsz (w & Bw & Bf) Bn]. simpl in *.
  assert (Hsz : size_of (l1 ++ Blk a sa true :: Blk (a + sa) sb true :: l2) a = sa).
  { apply (size_of_elem _ _ _ (Blk a sa true) (ho_tiles _ _ _ _ _ _ Hok)). set_solver. }
  pose proof (λ p, prev_far _ _ _ _ _ pre a _ p Hok) as Hprev. rewrite Hsz in Hprev.
  replace (heap_inv _ _ _) with (heap_ok (heap_start s) (heap_size s)
    (<[a + 16 := nn]> (<[a := sa + sb]> (mem s))) (if decide (pre = []) then a else free_list s)
    (l1 ++ [Blk a (sa + sb) true] ++ l2) (pre ++ [a] ++ post))
    by (unfold heap_inv; simpl; f_equal; case_decide; [by rewrite Hh|done]).
  eapply (lc_replace _ _ (mem s) _ _ a a (a + sa + sb)
    l1 [Blk a sa true; Blk (a + sa) sb true] _ l2 pre [a; a + sa]); try done.
  - simpl. lia.
  - intros x Hx _. mem_look. done.
  - intros p Hp. destruct (Hprev p Hp) as (? & ? & _). mem_look. by apply Hl.
  - simpl. lia.
  - intros c ->%list_elem_of_singleton. split; simpl; mem_look; [done..|eauto|eauto].
  - intros x Hx. by repeat apply is_Some_insert.
  - intros x n (-> & n' & Hn' & -> & n'' & Hn'' & Hs) Hc _. simpl in Hs. simplify_eq.
    simpl. split; [done|]. eexists. split; [by mem_look|done].
Qed.

Lemma live_payload_merge l1 l2 a b sa sb x :
  live_payload (l1 ++ Blk a sa true :: Blk b sb true :: l2) x →
  live_payload (l1 ++ Blk a (sa + sb) true :: l2) x.
Proof.
  intros (c & Hc & Hf & Hx). exists c. split; [|done].
  apply (elem_of_middle_ne _ _ _ (_ :: l2)) in Hc; [|by intros ->].
  apply elem_of_middle_ne in Hc; [|by intros ->]. set_solver.
Qed.

Lemma merge_step_wp s bs pre a b rest :
  heap_inv s bs (pre ++ a :: b :: rest) → a + size_of bs a = b →
  wp (merge_next a b)
    (λ _ s', same_frame s s' ∧ free_list s' = free_list s ∧
       heap_inv s' (merge a b bs) (pre ++ a :: rest) ∧
       ∀ x, live_payload bs x → mem s' !! x = mem s !! x ∧ live_payload (merge a b bs) x) s.
Proof.
  intros Hok Heq.
  destruct (ok_free_header Hok a) as [Ha Hain]; [set_solver|].
  destruct (ok_free_header Hok b) as [Hb Hbin]; [set_solver|].
  destruct (bo_next _ _ Hb) as [nn Hnn]. simpl in Hnn.
  destruct (touching_neighbours _ _ _ _ a b (ok_wf Hok)) as (l1 & l2 & Hbs & Hmerge);
    [set_solver..|done|].
  pose proof (ok_elem_bounds Hok _ Hain) as Ba. pose proof (ok_elem_bounds Hok _ Hbin) as Bb.
  pose proof (ho_start _ _ _ _ _ _ Hok). pose proof (ho_end _ _ _ _ _ _ Hok). simpl in *.
  eapply wp_merge_next; [done..|lia|lia| |]; [lia|].
  rewrite Hmerge. rewrite Hbs in Hok. split_and!; try done.
  - apply (merged_ok _ _ _ _ _ _ _ _ nn _ Hok); [done|done].
  - intros x Hx. rewrite Hbs in Hx. split; [|by apply live_payload_merge in Hx].
    destruct (live_payload_far _ _ _ _ _ _ _ _ _ Hok eq_refl Hx) as [Hfar _].
    simpl in *. by mem_look.
Qed.

Lemma coalesce_loop_wp :
  ∀ rest fuel cur pre bs s, heap_inv s bs (pre ++ cur :: rest) → (length rest < fuel)%nat →
  wp (coalesce_loop fuel cur)
    (λ _ s', same_frame s s' ∧ free_list s' = free_list s ∧
       heap_inv s' (coalesce_from bs cur rest).1 (pre ++ (coalesce_from bs cur rest).2) ∧
       ∀ x, live_payload bs x → mem s' !! x = mem s !! x) s.
Proof.
  induction rest as [|b rest IH]; intros [|fuel] cur pre bs s Hok Hf; simpl in *; try lia.
  all: destruct (ok_free_header Hok cur) as [Hb _]; [set_solver|].
  all: pose proof (ok_free_bounds Hok cur ltac:(set_solver)).
  all: rewrite (proj2 (Z.eqb_neq cur NULL)) by (unfold NULL; lia).
  all: pose proof (ho_chain _ _ _ _ _ _ Hok) as (x0 & _ & -> & n & Hn & Hc)%chain_app; simpl in Hc.
  { subst n. do 2 alloc_step. simpl. by alloc_step. }
  destruct Hc as (-> & _).
  destruct (ok_free_header Hok b) as [Hb' _]; [set_solver|].
  pose proof (ok_free_bounds Hok b ltac:(set_solver)).
  do 2 alloc_step. rewrite (proj2 (Z.eqb_neq b NULL)) by (unfold NULL; lia).
  wp_step. eapply wp_adjacent_free; [done..|].
  destruct (decide (cur + size_of bs cur = b)) as [Heq|Hne].
  - rewrite bool_decide_true by done. wp_step.
    eapply wp_mono; [by apply merge_step_wp|]. intros _ s1 (Hs1 & Hf1 & Hok1 & Hl1).
    eapply wp_mono; [apply IH; [exact Hok1|lia]|].
    intros _ s' (Hs' & Hf' & Hok' & Hl'). split_and!; [|congruence|done|].
    + unfold same_frame in *. naive_solver congruence.
    + intros x Hx. destruct (Hl1 x Hx). by rewrite Hl'.
  - rewrite bool_decide_false by done. do 2 alloc_step.
    rewrite cons_middle, app_assoc in Hok.
    eapply wp_mono; [apply (IH fuel b (pre ++ [cur]) bs s Hok); lia|].
    intros _ s' (Hsame & Hfl & Hinv & Hlive). destruct (coalesce_from bs b rest) as [bs' fl'].
    simpl in *. rewrite <- app_assoc in Hinv. by split_and!.
Qed.

(** ** [my_free] *)

(** What [my_free] of a block of [n] bytes does to the statistics. *)
Definition counted_free (n : Z) (s s' : alloc) : Prop :=
  total_allocated s' = total_allocated s ∧ num_allocations s' = num_allocations s ∧
  total_freed s' = wrap64 (total_freed s + n) ∧ num_frees s' = wrap64 (num_frees s + 1).

(** Memory and list head after the block is marked and pushed. *)
Lemma pushed_ok start size m h l1 a sz l2 fl w :
  heap_ok start size m h (l1 ++ Blk a sz false :: l2) fl →
  heap_ok start size (<[a + 16 := h]> (<[a + 8 := put_low32 w 1]> m)) a
    (l1 ++ Blk a sz true :: l2) (a :: fl).
Proof.
  intros Hok. pose proof (ok_elem_bounds Hok (Blk a sz false) ltac:(set_solver)) as B.
  destruct (ho_blocks _ _ _ _ _ _ Hok (Blk a sz false) ltac:(set_solver))
    as [Bal Bsz (w' & Bw & Bf) Bn]. simpl in *.
  change a with (if decide ([] = @nil Z) then a else h) at 3.
  apply (lc_replace start size m _ h a a (a + sz) l1 [Blk a sz false] [Blk a sz true] l2 [] [] [a]);
    try done.
  - simpl. lia.
  - intros x Hx _. by mem_look.
  - simpl. lia.
  - intros c ->%list_elem_of_singleton. split; simpl; mem_look; [done..| |eauto].
    eexists. split; [done|apply low32_put_1].
  - intros x Hx. by repeat apply is_Some_insert.
  - intros x n Hs Hc Hh. simpl in Hs. rewrite <- Hs, <- Hh in Hc by done.
    simpl. split; [done|]. eexists. split; [by mem_look|done].
Qed.

Lemma live_payload_mark l1 a sz l2 x :
  live_payload (l1 ++ Blk a sz true :: l2) x → live_payload (l1 ++ Blk a sz false :: l2) x.
Proof.
  intros (c & Hc & Hf & Hx). exists c. split; [|done].
  apply elem_of_middle_ne in Hc; [set_solver|by intros ->].
Qed.

Lemma my_free_wp fuel s bs fl a sz :
  heap_inv s bs fl → Blk a sz false ∈ bs → (length fl < fuel)%nat →
  wp (my_free fuel (a + HEADER_SIZE))
    (λ _ s', heap_inv s' (release a bs fl).1 (release a bs fl).2 ∧
       heap_start s' = heap_start s ∧ heap_size s' = heap_size s ∧ counted_free sz s s' ∧
       ∀ x, live_payload (mark_free a bs) x → mem s' !! x = mem s !! x) s.
Proof.
  intros Hok Hin Hfuel. rewrite HEADER_SIZE_24.
  pose proof (ok_elem_bounds Hok _ Hin) as B. simpl in B.
  destruct (ho_blocks _ _ _ _ _ _ Hok _ Hin) as [Bal Bsz (w & Bw & Bf) Bn]. simpl in *.
  pose proof (ho_start _ _ _ _ _ _ Hok). pose proof (ho_end _ _ _ _ _ _ Hok).
  unfold my_free. rewrite (proj2 (Z.eqb_neq (a + 24) NULL)) by (unfold NULL; lia).
  rewrite HEADER_SIZE_24. replace (a + 24 - 24) with a by lia.
  do 3 alloc_step. rewrite (proj2 (Z.eqb_neq sz 0)) by lia. do 5 alloc_step.
  rewrite (proj2 (Z.ltb_ge (heap_size s) sz)) by lia.
  do 2 alloc_step. intros w' Hw'. do 10 alloc_step.
  destruct (list_elem_of_split _ _ Hin) as (l1 & l2 & Hl).
  pose proof (ho_tiles _ _ _ _ _ _ Hok) as Ht. rewrite Hl in Ht.
  pose proof (mark_split _ _ _ _ _ Ht) as Hmark. simpl in Hmark. rewrite <- Hl in Hmark.
  pose proof Hok as Hok'. unfold heap_inv in Hok'. rewrite Hl in Hok'.
  apply (pushed_ok _ _ _ _ _ _ _ _ _ w') in Hok'. rewrite <- Hmark in Hok'.
  unfold coalesce. do 2 wp_step. eapply wp_mono.
  { apply (coalesce_loop_wp fl fuel a [] (mark_free a bs)); [exact Hok'|done]. }
  intros _ s' ((Hs & Hh & Hta & Htf & Hna & Hnf) & _ & Hinv & Hlive). simpl in *.
  split_and!; [done..| |].
  - unfold counted_free. by rewrite Hta, Htf, Hna, Hnf.
  - intros x Hx. rewrite Hlive by done. rewrite Hmark in Hx, Hok'.
    destruct (live_payload_far _ _ _ _ _ _ _ _ _ Hok' eq_refl Hx) as [Hfar _].
    simpl in Hfar. by mem_look.
Qed.

(** ** [allocator_init] *)

Lemma region_words_mapped base size junk x :
  base ≤ x → x + 8 ≤ base + size → (x - base) mod 8 = 0 →
  is_Some (region_words base size junk !! x).
Proof.
  intros H1 H2 H3. destruct (region_words base size junk !! x) eqn:E; [eauto|exfalso].
  unfold region_words in E. apply not_elem_of_list_to_map in E. apply E.
  rewrite <- list_fmap_compose. apply list_elem_of_fmap. exists ((x - base) / 8).
  rewrite elem_of_seqZ. simpl. Z.div_mod_to_equations. lia.
Qed.

Lemma allocator_init_wp base junk size s :
  4096 ≤ base → base mod 8 = 0 → base + size ≤ 2 ^ 64 → 24 ≤ size →
  wp (allocator_init (Some (base, junk)) size)
    (λ _ s', heap_inv s' [Blk base size true] [base] ∧
       heap_start s' = base ∧ heap_size s' = size ∧
       total_allocated s' = total_allocated s ∧ total_freed s' = total_freed s ∧
       num_allocations s' = num_allocations s ∧ num_frees s' = num_frees s) s.
Proof.
  intros Hb Hmod Hend Hsz.
  assert (Hmap : ∀ x, base ≤ x → x + 8 ≤ base + size → x mod 8 = 0 →
    is_Some ((region_words base size junk ∪ mem s) !! x)).
  { intros x ???. apply lookup_union_is_Some. left. apply region_words_mapped; [done..|].
    Z.div_mod_to_equations. lia. }
  assert (is_Some ((region_words base size junk ∪ mem s) !! base)) by (apply Hmap; lia).
  assert (is_Some ((region_words base size junk ∪ mem s) !! (base + 8)))
    by (apply Hmap; [lia..|by apply mod8_add]).
  assert (is_Some ((region_words base size junk ∪ mem s) !! (base + 16)))
    by (apply Hmap; [lia..|by apply mod8_add]).
  unfold allocator_init. do 8 alloc_step. intros w Hw. do 3 alloc_step.
  split; [|done]. unfold heap_inv. simpl. split; simpl; try done.
  - intros x ???. repeat apply is_Some_insert. by apply Hmap.
  - intros b ->%list_elem_of_singleton. split; simpl; mem_look; [done..| |eauto].
    eexists. split; [done|apply low32_put_1].
  - split; [done|]. eexists. split; [by mem_look|done].
Qed.
