(* ===== verification/AllocatorSpec.v ===== *)
(** The properties of the custom allocator: functional refinement of each
    operation, safety of client data, accounting over whole client runs, and
    the two inputs on which [my_malloc] breaks its own heap. *)
From S2P Require Import Prelude Allocator FirstFit AllocatorRefine.
Import Alloc FirstFit.

(** A heap of 256 bytes at 4096, for the witnesses. *)
Definition demo_run {A} (m : ST alloc A) : outcome (A * alloc) :=
  (_ ← allocator_init (Some (4096, λ _, 0)) 256; m) initial.

Definition demo_heap : alloc :=
  match demo_run (mret tt) with Done (_, s) => s | _ => initial end.

Lemma demo_heap_inv : heap_inv demo_heap [Blk 4096 256 true] [4096].
Proof.
  pose proof (allocator_init_wp 4096 (λ _, 0) 256 initial) as H.
  apply wp_run in H as (? & s & E & H & _); [|lia|done|lia|lia].
  by assert (demo_heap = s) as -> by (unfold demo_heap, demo_run, mbind, st_bind; by rewrite E).
Qed.

(** The abstract answer determines the concrete run. *)
Lemma my_malloc_exact fuel size s bs fl p bs' fl' :
  heap_inv s bs fl → 0 < size ≤ 2 ^ 64 - 32 →
  no_sliver (heap_size s) (footprint size) bs fl → (length fl < fuel)%nat →
  malloc (heap_size s) size bs fl = (p, bs', fl') →
  ∃ s', my_malloc fuel size s = Done (p, s') ∧ heap_inv s' bs' fl' ∧
    counted_alloc (footprint size) p s s'.
Proof.
  intros Hok Hsize Hsl Hf Hm. pose proof (footprint_bounds size ltac:(lia)).
  destruct (proj1 (wp_run _ _ _) (my_malloc_wp fuel size (footprint size) s bs fl Hok ltac:(lia)
    ltac:(rewrite ALIGN_round8, HEADER_SIZE_24 by lia; apply wrap64_small; unfold footprint in *; lia)
    ltac:(lia) (footprint_mod8 size) Hsl Hf)) as (p' & s' & E & (? & ? & Hs & Hi) & _ & _ & Hc & _).
  unfold malloc in Hm. rewrite Hm in Hs. simplify_eq. by exists s'.
Qed.

Lemma my_free_exact fuel s bs fl a sz :
  heap_inv s bs fl → Blk a sz false ∈ bs → (length fl < fuel)%nat →
  ∃ s', my_free fuel (a + HEADER_SIZE) s = Done (tt, s') ∧
    heap_inv s' (release a bs fl).1 (release a bs fl).2 ∧ counted_free sz s s'.
Proof.
  intros Hok Hin Hf. destruct (proj1 (wp_run _ _ _) (my_free_wp fuel s bs fl a sz Hok Hin Hf))
    as ([] & s' & E & Hinv & _ & _ & Hc & _). by exists s'.
Qed.

(** The abstract allocator's NULL: too large for the arena, or no fit. *)
Lemma malloc_null hs lo hi size bs fl p bs' fl' :
  wf lo hi bs fl → 0 < lo → malloc hs size bs fl = (p, bs', fl') →
  p = NULL ↔ hs < footprint size ∨ ∀ a, a ∈ fl → size_of bs a < footprint size.
Proof.
  intros Hwf Hlo Hm. unfold malloc, serve in Hm.
  case_decide as Hhs; [naive_solver|]. rewrite <- (first_fit_none bs (footprint size) fl).
  destruct (first_fit _ _ _) as [a|] eqn:Hff; [|naive_solver].
  apply first_fit_elem in Hff as [Ha _]. apply (wf_free_elem _ _ _ _ _ Hwf) in Ha.
  pose proof (tiles_bounds _ _ _ _ (wf_tiles _ _ _ _ Hwf) Ha) as Hb. simpl in Hb.
  simplify_eq. split; [unfold NULL; lia|]. intros [?|?]; [lia|done].
Qed.

(** C2. [my_malloc] implements first fit: on a well-formed heap, for a size of at
    most 2^64 - 32, so that rounding it up does not wrap around, and provided
    the block it splits leaves no sliver, it terminates without undefined
    behaviour, answers what the abstract allocator answers, and leaves the heap
    of the abstract allocator.  It answers NULL exactly when the request exceeds the
    arena or no block of the free list can hold it. *)
Theorem my_malloc_refines fuel size s bs fl p bs' fl' :
  heap_inv s bs fl → 0 < size ≤ 2 ^ 64 - 32 →
  no_sliver (heap_size s) (footprint size) bs fl → (length fl < fuel)%nat →
  malloc (heap_size s) size bs fl = (p, bs', fl') →
  ∃ s', my_malloc fuel size s = Done (p, s') ∧ heap_inv s' bs' fl' ∧
    counted_alloc (footprint size) p s s' ∧
    (p = NULL ↔ heap_size s < footprint size ∨ ∀ a, a ∈ fl → size_of bs a < footprint size).
Proof.
  intros Hok Hsize Hsl Hf Hm.
  destruct (my_malloc_exact _ _ _ _ _ _ _ _ Hok Hsize Hsl Hf Hm) as (s' & E & Hi & Hc).
  exists s'. split_and!; [done..|]. eapply malloc_null; [apply (ok_wf Hok)| |done].
  pose proof (ho_start _ _ _ _ _ _ Hok). lia.
Qed.

Lemma my_malloc_refines_witness :
  ∃ s', my_malloc 2 20 demo_heap = Done (4120, s') ∧
    heap_inv s' [Blk 4096 48 false; Blk 4144 208 true] [4144] ∧
    counted_alloc 48 4120 demo_heap s' ∧
    (4120 = NULL ↔ 256 < 48 ∨ ∀ a, a ∈ [4096] → size_of [Blk 4096 256 true] a < 48).
Proof.
  apply (my_malloc_refines 2 20 demo_heap [Blk 4096 256 true] [4096]).
  - apply demo_heap_inv.
  - lia.
  - eapply bool_decide_unpack. vm_compute. exact I.
  - simpl. lia.
  - vm_compute. reflexivity.
Defined.

(** C4. On a well-formed heap, for such a size and without a sliver, a pointer
    [my_malloc] returns is aligned to 8, at least [size] bytes
    after it are inside the arena, and no byte of its block belongs to a block
    that was live before the call. *)
Theorem my_malloc_fresh fuel size s bs fl p s' :
  heap_inv s bs fl → 0 < size ≤ 2 ^ 64 - 32 →
  no_sliver (heap_size s) (footprint size) bs fl → (length fl < fuel)%nat →
  my_malloc fuel size s = Done (p, s') → p ≠ NULL →
  p mod 8 = 0 ∧ heap_start s + 24 ≤ p ∧ p + size ≤ heap_start s + heap_size s ∧
  ∀ c, c ∈ bs → b_free c = false → p + size ≤ b_addr c ∨ b_addr c + b_size c ≤ p - 24.
Proof.
  intros Hok Hsize Hsl Hf Hrun Hp. pose proof (footprint_bounds size ltac:(lia)) as Hfp.
  destruct (malloc (heap_size s) size bs fl) as [[p' bs'] fl'] eqn:Hm.
  destruct (my_malloc_exact _ _ _ _ _ _ _ _ Hok Hsize Hsl Hf Hm) as (s1 & E & Hinv & _).
  rewrite E in Hrun. simplify_eq.
  destruct (serve_success _ _ _ _ _ _ _ _ _ (ok_wf Hok) Hsl Hm Hp)
    as (l1 & a & l2 & -> & Hbs & Hin & _).
  pose proof (ho_blocks _ _ _ _ _ _ Hok (Blk a (size_of bs a) true)
    ltac:(rewrite Hbs at 2; apply elem_of_middle)) as [Hal _ _ _].
  pose proof (ok_elem_bounds Hok (Blk a (size_of bs a) true)
    ltac:(rewrite Hbs at 2; apply elem_of_middle)) as Hbd.
  assert (footprint size ≤ size_of bs a) as Hle.
  { unfold malloc, serve in Hm. case_decide; [congruence|].
    destruct (first_fit _ _ _) as [a'|] eqn:Hff; [|congruence].
    apply first_fit_elem in Hff as [_ Hff]. by replace a with a' by (simplify_eq; lia). }
  simpl in *. split_and!; [by apply mod8_add|lia|lia|].
  intros c Hc Hcf. pose proof (ho_tiles _ _ _ _ _ _ Hok) as Ht. rewrite Hbs in Ht, Hc.
  apply elem_of_middle_ne in Hc; [|by intros ->].
  pose proof (tiles_disjoint _ _ _ _ _ _ Ht Hc) as Hd. simpl in Hd. lia.
Qed.

Lemma my_malloc_fresh_witness :
  ∃ s', my_malloc 2 20 demo_heap = Done (4120, s') ∧ 4120 mod 8 = 0.
Proof.
  destruct (my_malloc 2 20 demo_heap) as [[p s']|e|] eqn:E;
    [|exfalso; vm_compute in E; discriminate E..].
  assert (p = 4120) as -> by (vm_compute in E; congruence).
  exists s'. split; [done|].
  apply (my_malloc_fresh 2 20 demo_heap [Blk 4096 256 true] [4096] 4120 s').
  - apply demo_heap_inv.
  - lia.
  - eapply bool_decide_unpack. vm_compute. exact I.
  - simpl. lia.
  - done.
  - done.
Defined.

(** C3. [my_free] of a live block terminates without undefined behaviour,
    marks the block free, puts it first on the list and coalesces exactly as
    the abstract allocator does, and charges its size to [total_freed]. *)
Theorem my_free_refines fuel s bs fl a sz :
  heap_inv s bs fl → Blk a sz false ∈ bs → (length fl < fuel)%nat →
  ∃ s', my_free fuel (a + HEADER_SIZE) s = Done (tt, s') ∧
    heap_inv s' (release a bs fl).1 (release a bs fl).2 ∧ counted_free sz s s' ∧
    Blk a sz false :: live (release a bs fl).1 ≡ₚ live bs.
Proof.
  intros Hok Hin Hf. destruct (my_free_exact _ _ _ _ _ _ Hok Hin Hf) as (s' & E & Hinv & Hc).
  exists s'. split_and!; [done..|]. eapply release_live; [apply (ok_wf Hok)|done].
Qed.

(** The demo heap after one allocation of 20 bytes. *)
Definition demo_heap1 : alloc :=
  match my_malloc 2 20 demo_heap with Done (_, s) => s | _ => initial end.

Lemma demo_heap1_inv : heap_inv demo_heap1 [Blk 4096 48 false; Blk 4144 208 true] [4144].
Proof.
  destruct (my_malloc_exact 2 20 demo_heap [Blk 4096 256 true] [4096] 4120
    [Blk 4096 48 false; Blk 4144 208 true] [4144]) as (s' & E & H & _);
    [apply demo_heap_inv|lia|eapply bool_decide_unpack; vm_compute; exact I|simpl; lia
    |vm_compute; reflexivity|].
  unfold demo_heap1. by rewrite E.
Qed.

Lemma my_free_refines_witness :
  ∃ s', my_free 2 4120 demo_heap1 = Done (tt, s') ∧
    heap_inv s' [Blk 4096 256 true] [4096].
Proof.
  destruct (my_free_refines 2 demo_heap1 [Blk 4096 48 false; Blk 4144 208 true] [4144] 4096 48)
    as (s' & E & H & _).
  - apply demo_heap1_inv.
  - set_solver.
  - simpl. lia.
  - exists s'. split; [exact E|].
    assert (release 4096 [Blk 4096 48 false; Blk 4144 208 true] [4144] =
      ([Blk 4096 256 true], [4096])) as Hr by (vm_compute; reflexivity).
    rewrite Hr in H. exact H.
Defined.

(** Coalescing is complete along the list: after a [my_free], no block on
    the free list ends where the block after it on the list starts. *)
Theorem my_free_separates fuel s bs fl a sz :
  heap_inv s bs fl → Blk a sz false ∈ bs → (length fl < fuel)%nat →
  ∃ s' bs' fl', my_free fuel (a + HEADER_SIZE) s = Done (tt, s') ∧ heap_inv s' bs' fl' ∧
    separated bs' fl'.
Proof.
  intros Hok Hin Hf. destruct (proj1 (wp_run _ _ _) (my_free_wp fuel s bs fl a sz Hok Hin Hf))
    as ([] & s' & E & Hinv & _).
  eexists s', _, _. split_and!; [done..|].
  by apply (release_separated _ _ _ _ _ _ (ok_wf Hok) Hin).
Qed.

Lemma my_free_separates_witness :
  ∃ s' bs' fl', my_free 2 4120 demo_heap1 = Done (tt, s') ∧ heap_inv s' bs' fl' ∧
    separated bs' fl'.
Proof.
  apply (my_free_separates 2 demo_heap1 [Blk 4096 48 false; Blk 4144 208 true] [4144] 4096 48).
  - apply demo_heap1_inv.
  - set_solver.
  - simpl. lia.
Defined.

(** ** Client runs *)

(** What a client of the allocator does: allocate, free, store a word. *)
Inductive call : Type :=
| CMalloc (size : Z)
| CFree (ptr : Z)
| CWrite (x v : Z).

Definition run_call (fuel : nat) (c : call) : ST alloc unit :=
  match c with
  | CMalloc size => _ ← my_malloc fuel size; mret tt
  | CFree ptr => my_free fuel ptr
  | CWrite x v => store64 x v
  end.

Definition spec_call (hs : Z) (c : call) (h : list blk * list Z) : list blk * list Z :=
  match c with
  | CMalloc size => let '(_, bs, fl) := malloc hs size h.1 h.2 in (bs, fl)
  | CFree ptr => release (ptr - HEADER_SIZE) h.1 h.2
  | CWrite _ _ => h
  end.

(** Sizes that do not wrap and leave no sliver; pointers [my_malloc] returned
    and not freed since; stores inside a live payload. *)
Definition legal (hs : Z) (c : call) (h : list blk * list Z) : Prop :=
  match c with
  | CMalloc size => 0 < size ≤ 2 ^ 64 - 32 ∧ no_sliver hs (footprint size) h.1 h.2
  | CFree ptr => Exists (λ b, b_addr b = ptr - HEADER_SIZE ∧ b_free b = false) h.1
  | CWrite x _ => x mod 8 = 0 ∧
      Exists (λ b, b_free b = false ∧ b_addr b + 24 ≤ x ∧ x + 8 ≤ b_addr b + b_size b) h.1
  end.
#[export] Instance legal_dec hs c h : Decision (legal hs c h).
Proof. destruct c; simpl; apply _. Defined.

Fixpoint run_calls (fuel : nat) (cs : list call) : ST alloc unit :=
  match cs with
  | [] => mret tt
  | c :: cs => _ ← run_call fuel c; run_calls fuel cs
  end.

Fixpoint spec_calls (hs : Z) (cs : list call) (h : list blk * list Z) : list blk * list Z :=
  match cs with [] => h | c :: cs => spec_calls hs cs (spec_call hs c h) end.

Fixpoint all_legal (hs : Z) (cs : list call) (h : list blk * list Z) : Prop :=
  match cs with [] => True | c :: cs => legal hs c h ∧ all_legal hs cs (spec_call hs c h) end.
#[export] Instance all_legal_dec hs cs h : Decision (all_legal hs cs h).
Proof. revert h. induction cs; intros h; simpl; apply _. Defined.

(** More loop iterations than any free list of the arena has entries. *)
Definition enough_fuel (hs : Z) : nat := S (Z.to_nat (hs / 24)).

Lemma enough_fuel_ok s bs fl :
  heap_inv s bs fl → (length fl < enough_fuel (heap_size s))%nat.
Proof.
  intros Hok. pose proof (ok_free_length Hok) as H. unfold enough_fuel.
  Z.div_mod_to_equations. lia.
Qed.

(** The counters agree with the live blocks. *)
Definition accounted (s : alloc) (bs : list blk) : Prop :=
  wrap64 (total_allocated s - total_freed s) = wrap64 (live_bytes bs).

Lemma wrap64_eq a b : wrap64 a = wrap64 b ↔ ∃ k, a = b + k * 2 ^ 64.
Proof.
  unfold wrap64. split.
  - intros H. exists (a / 2 ^ 64 - b / 2 ^ 64).
    pose proof (Z.div_mod a (2 ^ 64)). pose proof (Z.div_mod b (2 ^ 64)). lia.
  - intros [k ->]. by rewrite Z_mod_plus_full.
Qed.

Lemma accounted_alloc t p s s' bs bs' a :
  accounted s bs → counted_alloc t p s s' → p ≠ NULL → live bs' ≡ₚ Blk a t false :: live bs →
  accounted s' bs'.
Proof.
  unfold accounted, counted_alloc. intros Ha Hc Hp Hl. rewrite decide_False in Hc by done.
  destruct Hc as (-> & _ & -> & _). rewrite !live_bytes_live in *.
  rewrite (total_size_perm _ _ Hl). simpl. apply wrap64_eq in Ha as [k Ha].
  assert (wrap64 (wrap64 (total_allocated s + t)) = wrap64 (total_allocated s + t)) as Hw
    by (apply wrap64_small, wrap64_bound).
  apply wrap64_eq in Hw as [j Hw]. apply wrap64_eq. exists (k + j). lia.
Qed.

Lemma accounted_free sz s s' bs bs' a :
  accounted s bs → counted_free sz s s' → Blk a sz false :: live bs' ≡ₚ live bs →
  accounted s' bs'.
Proof.
  unfold accounted, counted_free. intros Ha (-> & _ & -> & _) Hl. rewrite !live_bytes_live in *.
  apply total_size_perm in Hl. simpl in Hl. apply wrap64_eq in Ha as [k Ha].
  assert (wrap64 (wrap64 (total_freed s + sz)) = wrap64 (total_freed s + sz)) as Hw
    by (apply wrap64_small, wrap64_bound).
  apply wrap64_eq in Hw as [j Hw]. apply wrap64_eq. exists (k - j). lia.
Qed.

(** A client store inside a live payload keeps the heap well formed. *)
Lemma payload_store_ok start size m h bs fl x v :
  heap_ok start size m h bs fl →
  Exists (λ b, b_free b = false ∧ b_addr b + 24 ≤ x ∧ x + 8 ≤ b_addr b + b_size b) bs →
  heap_ok start size (<[x := v]> m) h bs fl.
Proof.
  intros Hok (b & Hb & Hf & Hx)%Exists_exists. pose proof (ho_tiles _ _ _ _ _ _ Hok) as Ht.
  assert (Hne : ∀ c, c ∈ bs → b_addr c + 16 < x ∨ x < b_addr c).
  { intros c Hc. destruct (decide (c = b)) as [->|Hcb]; [lia|].
    destruct (list_elem_of_split _ _ Hb) as (l1 & l2 & Hl). rewrite Hl in Ht.
    pose proof (ok_elem_bounds Hok c Hc). rewrite Hl in Hc.
    pose proof (tiles_disjoint _ _ _ _ _ _ Ht (elem_of_middle_ne _ _ _ _ Hc Hcb)). lia. }
  destruct Hok as [H1 H2 H3 H4 H5 H6 H7 H8]. split; try done.
  - intros a ???. by apply is_Some_insert, H4.
  - intros c Hc. destruct (H6 c Hc) as [B1 B2 (w & B3 & B4) B5]. specialize (Hne c Hc).
    split; [done|by mem_look| |by apply is_Some_insert].
    exists w. split; [by mem_look|done].
  - eapply chain_agree; [done|]. intros a Ha. rewrite H8 in Ha.
    apply elem_of_free_addrs in Ha as (c & Hc & <- & _). specialize (Hne c Hc). by mem_look.
Qed.

Lemma live_payload_live bs x :
  live_payload bs x ↔ ∃ b, b ∈ live bs ∧ b_addr b + 24 ≤ x < b_addr b + b_size b.
Proof.
  unfold live_payload, live. setoid_rewrite list_elem_of_filter. split.
  - intros (b & Hb & Hf & Hx). exists b. rewrite Hf. naive_solver.
  - intros (b & [Hf Hb] & Hx). exists b. destruct (b_free b); naive_solver.
Qed.

(** One legal client call: the concrete step exists, lands on the abstract
    heap, keeps the accounts and writes no other client's bytes. *)
Lemma run_call_ok c s bs fl :
  heap_inv s bs fl → legal (heap_size s) c (bs, fl) →
  wp (run_call (enough_fuel (heap_size s)) c)
    (λ _ s', heap_inv s' (spec_call (heap_size s) c (bs, fl)).1
                         (spec_call (heap_size s) c (bs, fl)).2 ∧
       heap_start s' = heap_start s ∧ heap_size s' = heap_size s ∧
       (accounted s bs → accounted s' (spec_call (heap_size s) c (bs, fl)).1) ∧
       ∀ x, (∀ v, c ≠ CWrite x v) → live_payload bs x →
         live_payload (spec_call (heap_size s) c (bs, fl)).1 x → mem s' !! x = mem s !! x) s.
Proof.
  intros Hok Hleg. pose proof (enough_fuel_ok _ _ _ Hok) as Hf.
  destruct c as [size|ptr|x v]; simpl in *.
  - destruct Hleg as [Hsize Hsl]. pose proof (footprint_bounds size ltac:(lia)). wp_step.
    eapply wp_mono; [apply (my_malloc_wp _ size (footprint size) s bs fl); try done;
      [lia| |lia|apply footprint_mod8]|].
    { rewrite ALIGN_round8, HEADER_SIZE_24 by lia. apply wrap64_small. unfold footprint in *. lia. }
    intros p s' ((bs' & fl' & Hs & Hinv) & Hst & Hhs & Hc & Hlive). wp_step.
    unfold malloc. rewrite Hs. simpl. split_and!; [done..| |auto].
    intros Hacc. destruct (decide (p = NULL)) as [->|Hp].
    + unfold counted_alloc in Hc. rewrite decide_True in Hc by done. subst s'.
      unfold serve in Hs. pose proof (ho_start _ _ _ _ _ _ Hok).
      case_decide; [by simplify_eq|]. destruct (first_fit _ _ _) eqn:Hff; [|by simplify_eq].
      apply first_fit_elem in Hff as [Ha _]. apply (ok_free_bounds Hok) in Ha.
      exfalso. unfold NULL in Hs. simplify_eq. lia.
    + destruct (serve_success _ _ _ _ _ _ _ _ _ (ok_wf Hok) Hsl Hs Hp)
        as (_ & a & _ & _ & _ & _ & Hl). by eapply accounted_alloc.
  - apply Exists_exists in Hleg as ([a sz f] & Hin & Ha & Hfr). simpl in *. subst a f.
    pose proof (my_free_wp _ s bs fl _ sz Hok Hin Hf) as Hwp.
    replace (ptr - HEADER_SIZE + HEADER_SIZE) with ptr in Hwp by lia.
    eapply wp_mono; [exact Hwp|].
    intros _ s' (Hinv & Hst & Hhs & Hc & Hlive). split_and!; [done..| |].
    + intros Hacc. eapply accounted_free; [done..|]. eapply release_live; [apply (ok_wf Hok)|done].
    + intros x _ _ Hx. apply Hlive. rewrite live_payload_live in Hx |- *.
      by rewrite <- (release_mark_live _ _ _ _ _ _ (ok_wf Hok) Hin).
  - destruct Hleg as [Hal Hx]. pose proof Hx as (b & Hb & Hbf & Hbx)%Exists_exists.
    pose proof (ok_elem_bounds Hok b Hb).
    unfold wp, store64. destruct (ho_mapped _ _ _ _ _ _ Hok x) as [w ->]; [lia..|done|].
    split_and!; [by apply payload_store_ok|done..|].
    intros y Hy _ _. simpl. rewrite lookup_insert_ne; [done|]. intros ->. by apply (Hy v).
Qed.

(** C1. Any run of legal client calls — allocations, frees of live pointers,
    stores into live payloads, in any order — executes without undefined
    behaviour, ends in the heap of the abstract allocator, and leaves
    [total_allocated - total_freed] equal to the bytes of the live blocks. *)
Theorem client_run_refines cs s bs fl :
  heap_inv s bs fl → accounted s bs → all_legal (heap_size s) cs (bs, fl) →
  ∃ s', run_calls (enough_fuel (heap_size s)) cs s = Done (tt, s') ∧
    heap_inv s' (spec_calls (heap_size s) cs (bs, fl)).1 (spec_calls (heap_size s) cs (bs, fl)).2 ∧
    accounted s' (spec_calls (heap_size s) cs (bs, fl)).1.
Proof.
  revert s bs fl. induction cs as [|c cs IH]; intros s bs fl Hok Hacc Hleg; simpl in *.
  { by exists s. }
  destruct Hleg as [Hc Hcs].
  destruct (proj1 (wp_run _ _ _) (run_call_ok c s bs fl Hok Hc))
    as ([] & s1 & E & Hok1 & _ & Hhs & Hacc1 & _).
  destruct (spec_call (heap_size s) c (bs, fl)) as [bs1 fl1]. simpl in *. rewrite <- Hhs in *.
  destruct (IH s1 bs1 fl1 Hok1 (Hacc1 Hacc) Hcs) as (s' & E' & H).
  exists s'. split; [|done]. unfold mbind, st_bind. by rewrite E.
Qed.

Definition demo_calls : list call :=
  [CMalloc 20; CMalloc 40; CWrite 4128 7; CFree 4120; CMalloc 24; CFree 4168; CFree 4120].

Lemma client_run_refines_witness :
  ∃ s', run_calls (enough_fuel (heap_size demo_heap)) demo_calls demo_heap = Done (tt, s') ∧
    heap_inv s' [Blk 4096 256 true] [4096].
Proof.
  destruct (client_run_refines demo_calls demo_heap [Blk 4096 256 true] [4096]) as (s' & E & H & _).
  - apply demo_heap_inv.
  - vm_compute. reflexivity.
  - eapply bool_decide_unpack. vm_compute. exact I.
  - exists s'. split; [exact E|].
    assert (spec_calls (heap_size demo_heap) demo_calls ([Blk 4096 256 true], [4096]) =
      ([Blk 4096 256 true], [4096])) as Hr by (vm_compute; reflexivity).
    rewrite Hr in H. exact H.
Defined.

(** C5. No allocator call writes a client's bytes: a word in a payload that is
    live before and after a [my_malloc] or [my_free] keeps its contents. *)
Theorem payload_preserved c s bs fl x s' :
  heap_inv s bs fl → legal (heap_size s) c (bs, fl) → (∀ v, c ≠ CWrite x v) →
  live_payload bs x → live_payload (spec_call (heap_size s) c (bs, fl)).1 x →
  run_call (enough_fuel (heap_size s)) c s = Done (tt, s') → mem s' !! x = mem s !! x.
Proof.
  intros Hok Hleg Hc Hx Hx' E.
  destruct (wp_done _ _ _ _ _ E (run_call_ok c s bs fl Hok Hleg)) as (_ & _ & _ & _ & Hlive).
  by apply Hlive.
Qed.

Lemma payload_preserved_witness :
  ∃ s', run_call (enough_fuel (heap_size demo_heap1)) (CMalloc 24) demo_heap1 = Done (tt, s') ∧
    mem s' !! 4128 = mem demo_heap1 !! 4128.
Proof.
  destruct (run_call (enough_fuel (heap_size demo_heap1)) (CMalloc 24) demo_heap1)
    as [[[] s']|e|] eqn:E; [|exfalso; vm_compute in E; discriminate E..].
  exists s'. split; [done|].
  apply (payload_preserved (CMalloc 24) demo_heap1 [Blk 4096 48 false; Blk 4144 208 true] [4144]).
  - apply demo_heap1_inv.
  - eapply bool_decide_unpack. vm_compute. exact I.
  - done.
  - exists (Blk 4096 48 false). split; [constructor|]. simpl. split; [done|lia].
  - exists (Blk 4096 48 false). split; [|simpl; split; [done|lia]].
    assert ((spec_call (heap_size demo_heap1) (CMalloc 24)
      ([Blk 4096 48 false; Blk 4144 208 true], [4144])).1 =
      [Blk 4096 48 false; Blk 4144 48 false; Blk 4192 160 true]) as -> by (vm_compute; reflexivity).
    constructor.
  - exact E.
Defined.

(** ** [allocator_stats] *)

Definition sumZ (l : list Z) : Z := foldr Z.add 0 l.

#[local] Arguments sumZ : simpl never.

Lemma sumZ_cons x l : sumZ (x :: l) = x + sumZ l.
Proof. done. Qed.

Lemma sumZ_perm l1 l2 : l1 ≡ₚ l2 → sumZ l1 = sumZ l2.
Proof. unfold sumZ. induction 1; simpl in *; lia. Qed.

Lemma free_bytes_sum lo hi bs fl :
  wf lo hi bs fl → sumZ (size_of bs <$> fl) = free_bytes bs.
Proof.
  intros [Ht Hp]. rewrite (sumZ_perm _ _ (fmap_Permutation _ _ _ Hp)).
  assert (Hall : ∀ b, b ∈ bs → size_of bs (b_addr b) = b_size b)
    by (intros b; apply (size_of_elem _ _ _ _ Ht)).
  revert Hall. generalize (size_of bs) as f. clear. intros f.
  induction bs as [|b bs IH]; intros Hall; [done|].
  rewrite free_addrs_cons. unfold free_bytes in *. rewrite filter_cons.
  assert (Hb : f (b_addr b) = b_size b) by (apply Hall; set_solver).
  assert (IH' := IH (λ c Hc, Hall c (list_elem_of_further _ _ _ Hc))).
  destruct (b_free b); case_decide as Hd; simpl in *; try done.
  rewrite sumZ_cons, Hb. f_equal. exact IH'.
Qed.

Lemma stats_loop_wp bs s : ∀ suf fuel n sz cur,
  chain (mem s) cur suf →
  (∀ a, a ∈ suf → block_ok (mem s) (Blk a (size_of bs a) true) ∧ a ≠ NULL) →
  (length suf < fuel)%nat → 0 ≤ n → n + Z.of_nat (length suf) ≤ int_max →
  wp (stats_loop fuel n sz cur)
    (λ r s', s' = s ∧ r.1 = n + Z.of_nat (length suf) ∧
       wrap64 r.2 = wrap64 (sz + sumZ (size_of bs <$> suf)) ∧ (suf = [] → r.2 = sz) ∧
       (suf ≠ [] → 0 ≤ r.2 < 2 ^ 64)) s.
Proof.
  induction suf as [|a suf IH]; intros [|fuel] n sz cur Hc Hok Hf Hn Hmax; simpl in *; try lia.
  { subst cur. apply wp_ret. simpl. unfold sumZ. simpl. split_and!; try done; by rewrite Z.add_0_r. }
  destruct Hc as (-> & nx & Hnx & Hc).
  destruct (Hok a) as [[_ Hsz _ _] Hnz]; [by constructor|]. simpl in *.
  rewrite (proj2 (Z.eqb_neq _ _) Hnz). wp_step.
  apply (wp_lift _ (n + 1)).
  { unfold int_result. rewrite bool_decide_true; [done|]. unfold is_int, int_min, int_max in *. lia. }
  do 4 alloc_step.
  eapply wp_mono; [apply (IH fuel (n + 1) (wrap64 (sz + size_of bs a)) nx Hc)|].
  - intros b Hb. apply Hok. by constructor.
  - lia.
  - lia.
  - lia.
  - intros [k r] s' (-> & Hk & Hr & Hnil & Hrange). simpl in *. split_and!; [done|lia| |done|].
    + rewrite Hr. unfold wrap64. rewrite Zplus_mod_idemp_l. f_equal. rewrite <- Z.add_assoc. reflexivity.
    + intros _. destruct suf; [rewrite Hnil by done; apply wrap64_bound|by apply Hrange].
Qed.

(** [allocator_stats] reports the truth about the heap: the live bytes as
    net memory in use, the number of free blocks and their total size, which
    with the live bytes makes up the whole arena. *)
Theorem allocator_stats_correct fuel s bs fl :
  heap_inv s bs fl → accounted s bs → (length fl < fuel)%nat →
  Z.of_nat (length fl) ≤ int_max →
  allocator_stats fuel s =
    Done (mkStats (live_bytes bs) (Z.of_nat (length fl)) (free_bytes bs), s) ∧
  free_bytes bs + live_bytes bs = heap_size s.
Proof.
  intros Hok Hacc Hf Hmax.
  pose proof (tiles_total _ _ _ (ho_tiles _ _ _ _ _ _ Hok)) as Htot.
  rewrite total_size_split in Htot. split; [|lia].
  assert (Hnn : ∀ l, (∀ b, b ∈ l → b ∈ bs) → 0 ≤ total_size l).
  { induction l as [|b l IHl]; intros Hl; simpl; [lia|].
    pose proof (ok_elem_bounds Hok b (Hl b ltac:(solve_elem))). specialize (IHl ltac:(auto using list_elem_of_further)). lia. }
  assert (0 ≤ free_bytes bs) by (apply Hnn; intros b [_ ?]%list_elem_of_filter; done).
  assert (0 ≤ live_bytes bs) by (apply Hnn; intros b [_ ?]%list_elem_of_filter; done).
  pose proof (ho_start _ _ _ _ _ _ Hok). pose proof (ho_end _ _ _ _ _ _ Hok).
  unfold accounted in Hacc. rewrite (wrap64_small (live_bytes bs)) in Hacc by lia.
  destruct (proj1 (wp_run _ _ _) (stats_loop_wp bs s fl fuel 0 0 (free_list s)
    (ho_chain _ _ _ _ _ _ Hok)
    (ok_free_headers Hok)
    Hf ltac:(lia) ltac:(lia))) as ([n r] & s' & E & -> & Hn & Hr & Hnil & Hrange).
  simpl in *. rewrite (free_bytes_sum _ _ _ _ (ok_wf Hok)) in Hr.
  unfold allocator_stats, mbind, st_bind, st_get. rewrite E. simpl. rewrite Hacc, Hn.
  unfold mret, st_ret. do 3 f_equal.
  rewrite Z.add_0_l, (wrap64_small (free_bytes bs)) in Hr by lia. rewrite <- Hr. symmetry. apply wrap64_small.
  destruct fl; [rewrite Hnil by done; lia|by apply Hrange].
Qed.

Lemma allocator_stats_correct_witness :
  allocator_stats 2 demo_heap1 = Done (mkStats 48 1 208, demo_heap1) ∧ 208 + 48 = heap_size demo_heap1.
Proof.
  destruct (allocator_stats_correct 2 demo_heap1 [Blk 4096 48 false; Blk 4144 208 true] [4144]) as [E H].
  - apply demo_heap1_inv.
  - vm_compute. reflexivity.
  - simpl. lia.
  - vm_compute. discriminate.
  - split; [exact E|exact H].
Defined.

(** Round trip: on a fresh arena, allocating and freeing the block again
    restores the arena to one free block. *)
Theorem malloc_free_roundtrip base junk total size :
  4096 ≤ base → base mod 8 = 0 → base + total ≤ 2 ^ 64 → 0 < size ≤ 2 ^ 64 - 32 →
  footprint size = total ∨ footprint size + 24 ≤ total →
  ∃ s p s1 s2, allocator_init (Some (base, junk)) total initial = Done (tt, s) ∧
    my_malloc 2 size s = Done (p, s1) ∧ p = base + 24 ∧
    my_free 2 p s1 = Done (tt, s2) ∧ heap_inv s2 [Blk base total true] [base].
Proof.
  intros Hb Hmod Hend Hsize Hfit. pose proof (footprint_bounds size ltac:(lia)) as Hfp.
  destruct (proj1 (wp_run _ _ _) (allocator_init_wp base junk total initial Hb Hmod Hend
    ltac:(lia))) as ([] & s & E0 & Hok & Hst & Hhs & _).
  set (t := footprint size) in *.
  pose proof (serve_single base t total (heap_size s) ltac:(lia) ltac:(lia)) as Hm.
  assert (Hsl : no_sliver (heap_size s) t [Blk base total true] [base]).
  { unfold no_sliver. simpl. destruct (decide (base = base)); [|done].
    rewrite decide_True by lia. destruct (decide (base = base)); [lia|done]. }
  destruct (my_malloc_exact 2 size s _ _ _ _ _ Hok Hsize Hsl ltac:(simpl; lia) Hm)
    as (s1 & E1 & Hok1 & _). fold t in Hok1.
  assert (Hin : Blk base t false ∈ carve1 base t (Blk base total true)).
  { unfold carve1. simpl. destruct (decide (base = base)); [|done].
    case_decide; [constructor|]. replace total with t by lia. constructor. }
  destruct (my_free_exact 2 s1 _ _ base t Hok1 Hin) as (s2 & E2 & Hok2 & _).
  { case_decide; simpl; lia. }
  rewrite release_single in Hok2 by lia.
  exists s, (base + 24), s1, s2. rewrite HEADER_SIZE_24 in E2. by split_and!.
Qed.

Lemma malloc_free_roundtrip_witness :
  ∃ s p s1 s2, allocator_init (Some (4096, λ _, 0)) 256 initial = Done (tt, s) ∧
    my_malloc 2 20 s = Done (p, s1) ∧ p = 4096 + 24 ∧
    my_free 2 p s1 = Done (tt, s2) ∧ heap_inv s2 [Blk 4096 256 true] [4096].
Proof.
  apply malloc_free_roundtrip; [lia|done|lia|lia|]. right. vm_compute. discriminate.
Defined.

(** Size overflow: for a request within 8 bytes of [SIZE_MAX] the alignment
    wraps to 0, and instead of failing [my_malloc] returns a block with no
    payload at all whenever any free block exists. *)
Theorem my_malloc_size_wraps fuel size s bs a fl :
  heap_inv s bs (a :: fl) → 2 ^ 64 - 8 < size < 2 ^ 64 →
  size_of bs a = 24 ∨ 48 ≤ size_of bs a → (S (length fl) < fuel)%nat →
  ∃ s' bs' fl', my_malloc fuel size s = Done (a + 24, s') ∧ heap_inv s' bs' fl' ∧
    Blk a 24 false ∈ bs'.
Proof.
  intros Hok Hsize Hsz Hf.
  pose proof (ok_free_length Hok) as Hlen. simpl in Hlen.
  assert (Hff : first_fit bs 24 (a :: fl) = Some a) by (simpl; by rewrite decide_True by lia).
  assert (Hsl : no_sliver (heap_size s) 24 bs (a :: fl)) by (unfold no_sliver; rewrite Hff; lia).
  assert (Ht : wrap64 (HEADER_SIZE + ALIGN size) = 24).
  { rewrite ALIGN_spec, HEADER_SIZE_24 by lia.
    replace (wrap64 (size + 7)) with (size + 7 - 2 ^ 64).
    - rewrite Z.div_small by lia. done.
    - unfold wrap64. apply (Z.mod_unique _ _ 1); lia. }
  destruct (proj1 (wp_run _ _ _) (my_malloc_wp fuel size 24 s bs (a :: fl) Hok ltac:(lia) Ht
    ltac:(lia) ltac:(done) Hsl Hf)) as (p & s' & E & (bs' & fl' & Hs & Hinv) & _).
  assert (p = a + 24) as ->.
  { unfold serve in Hs. rewrite decide_False, Hff in Hs by lia. congruence. }
  exists s', bs', fl'. split_and!; [done..|].
  pose proof (ok_free_bounds Hok a ltac:(constructor)).
  destruct (serve_success _ _ _ _ _ _ _ _ _ (ok_wf Hok) Hsl Hs ltac:(unfold NULL; lia))
    as (_ & a' & _ & Ha & _ & Hin & _). by replace a with a' by lia.
Qed.

Lemma my_malloc_size_wraps_witness :
  ∃ s' bs' fl', my_malloc 3 (2 ^ 64 - 1) demo_heap = Done (4096 + 24, s') ∧
    heap_inv s' bs' fl' ∧ Blk 4096 24 false ∈ bs'.
Proof.
  apply (my_malloc_size_wraps 3 _ demo_heap [Blk 4096 256 true] 4096 []).
  - apply demo_heap_inv.
  - lia.
  - right. vm_compute. discriminate.
  - simpl. lia.
Defined.

(** ** Slivers *)

Lemma store64_faults a v s : mem s !! a = None → 4096 ≤ a → faults (store64 a v) OutOfBounds s.
Proof. intros Ha Hge. unfold faults, store64. by rewrite Ha, bool_decide_false by lia. Qed.

Lemma load64_faults a s : mem s !! a = None → 4096 ≤ a → faults (load64 a) OutOfBounds s.
Proof. intros Ha Hge. unfold faults, load64. by rewrite Ha, bool_decide_false by lia. Qed.

(** Splitting off fewer than 24 bytes at the end of memory runs off it. *)
Lemma split_block_faults s a sz t :
  block_ok (mem s) (Blk a sz true) → 4096 ≤ a → 24 ≤ t → t < sz < t + 24 →
  (∀ x, a + sz < x + 8 → mem s !! x = None) →
  faults (split_block a t) OutOfBounds s.
Proof.
  intros [_ Hsz _ [n Hn]] Ha Ht Htsz Hend. simpl in *. unfold split_block.
  apply faults_later. alloc_step. rewrite (proj2 (Z.ltb_lt t sz)) by lia.
  apply faults_later. alloc_step. unfold store_size, off_size. rewrite !Z.add_0_r.
  destruct (mem s !! (a + t)) eqn:E1; [|apply faults_here, store64_faults; [done|lia]].
  apply faults_later. unfold wp, store64. rewrite E1.
  destruct (mem s !! (a + t + 8)) eqn:E2; cycle 1.
  { apply faults_here, faults_here, load64_faults; [|unfold off_is_free; lia].
    simpl. unfold off_is_free. by mem_look. }
  apply faults_later, wp_store_is_free; [simpl; mem_look; eauto|]. intros w Hw.
  apply faults_later. eapply wp_load_next; [simpl; mem_look; exact Hn|].
  apply faults_here, store64_faults; [|unfold off_next; lia].
  simpl. unfold off_next. mem_look. apply Hend. lia.
Qed.

(** C6. Sliver overflow: [my_malloc] does not check that what is left of a
    block can hold a header.  When the block it splits is the last of the arena
    and fewer than 24 bytes remain, it stores the new header past the end of
    the arena. *)
Theorem my_malloc_sliver_overflow fuel size s bs fl a :
  heap_inv s bs fl → 0 < size ≤ 2 ^ 64 - 32 → footprint size ≤ heap_size s →
  first_fit bs (footprint size) fl = Some a →
  footprint size < size_of bs a < footprint size + 24 →
  a + size_of bs a = heap_start s + heap_size s →
  (∀ x, heap_start s + heap_size s < x + 8 → mem s !! x = None) →
  (length fl < fuel)%nat →
  my_malloc fuel size s = Fault OutOfBounds.
Proof.
  intros Hok Hsize Hhs Hff Hsz Hlast Hend Hf. pose proof (footprint_bounds size ltac:(lia)).
  pose proof (ho_start _ _ _ _ _ _ Hok). pose proof (ho_end _ _ _ _ _ _ Hok).
  change (faults (my_malloc fuel size) OutOfBounds s). unfold my_malloc.
  apply faults_later. wp_step.
  rewrite (proj2 (Z.eqb_neq size 0)), (proj2 (Z.eqb_neq (heap_start s) NULL)) by (unfold NULL; lia).
  simpl. rewrite ALIGN_round8, HEADER_SIZE_24 by lia.
  change (24 + round8 size) with (footprint size). rewrite wrap64_small by lia.
  rewrite (proj2 (Z.ltb_ge _ _)) by lia.
  apply faults_later. unfold find_free_block. do 2 wp_step.
  eapply wp_mono.
  { apply (find_loop_run bs); [apply Hok|apply (ok_free_headers Hok)|done]. }
  intros _ _ [-> ->]. pose proof (find_pos_first_fit bs (footprint size) NULL fl) as Hpos.
  rewrite Hff in Hpos. destruct Hpos as (pre & post & -> & _ & ->).
  destruct (ok_free_headers Hok a ltac:(solve_elem)) as [Hb Hnz].
  pose proof (ok_free_bounds Hok a ltac:(solve_elem)).
  rewrite (proj2 (Z.eqb_neq a NULL) Hnz). apply faults_here. unfold take_block.
  apply faults_here. apply (split_block_faults _ _ (size_of bs a)); [done|lia..|].
  intros x Hx. apply Hend. lia.
Qed.

(** An arena of exactly one 40-byte request plus 8 bytes. *)
Definition sliver_heap : alloc :=
  match allocator_init (Some (4096, λ _, 0)) 72 initial with Done (_, s) => s | _ => initial end.

Lemma sliver_heap_inv : heap_inv sliver_heap [Blk 4096 72 true] [4096].
Proof.
  pose proof (allocator_init_wp 4096 (λ _, 0) 72 initial) as H.
  apply wp_run in H as (? & s & E & H & _); [|lia|done|lia|lia].
  by assert (sliver_heap = s) as -> by (unfold sliver_heap; by rewrite E).
Qed.

Lemma sliver_heap_mem x : is_Some (mem sliver_heap !! x) → x ≤ 4160.
Proof.
  assert (map_Forall (λ k _, k ≤ 4160) (mem sliver_heap)) as Hall
    by (eapply bool_decide_unpack; vm_compute; exact I).
  intros [v Hv]. by apply (Hall x v).
Qed.

Lemma my_malloc_sliver_overflow_witness : my_malloc 2 40 sliver_heap = Fault OutOfBounds.
Proof.
  apply (my_malloc_sliver_overflow 2 40 sliver_heap [Blk 4096 72 true] [4096] 4096).
  - apply sliver_heap_inv.
  - lia.
  - vm_compute. discriminate.
  - reflexivity.
  - vm_compute. split; reflexivity.
  - reflexivity.
  - intros x Hx. destruct (mem sliver_heap !! x) eqn:E; [|done].
    assert (x ≤ 4160) by (apply sliver_heap_mem; by rewrite E).
    assert (heap_start sliver_heap + heap_size sliver_heap = 4168) by (vm_compute; reflexivity).
    exfalso. lia.
  - simpl. lia.
Defined.
