(* ===== verification/HeapClient.v ===== *)
(** What the allocator promises to a client that watches its blocks, as an
    interface, and the allocator as an instance of it.

    The view of a heap is the list of its live blocks and its free list, each
    block an address and a size, header included. *)
From S2P Require Import Prelude Allocator FirstFit AllocatorRefine AllocatorSpec.
Import Alloc FirstFit.

(** No block of the list ends where the next one on it starts. *)
Fixpoint apart (F : list (Z * Z)) : Prop :=
  match F with
  | p :: (q :: _) as F' => p.1 + p.2 ≠ q.1 ∧ apart F'
  | _ => True
  end.

(** What is left of a block of [sz] bytes at [a] when [t] are taken. *)
Definition leftover (a sz t : Z) : list (Z * Z) :=
  if decide (t < sz) then [(a + t, sz - t)] else [].

(** The two calls every client makes. *)
Class Heap (S : Type) : Type := {
  h_malloc : Z → ST S Z;
  h_free : Z → ST S unit;
}.

(** A heap of [total] bytes that serves from the first block that fits, and
    puts freed blocks first. *)
Class FirstFitHeap (S : Type) `{Heap S} (total : Z) : Type := {
  view : S → list (Z * Z) → list (Z * Z) → Prop;
  ff_malloc s L pre a sz post size :
    view s L (pre ++ (a, sz) :: post) →
    0 < size ≤ 2 ^ 64 - 32 → Forall (λ p, p.2 < footprint size) pre →
    sz = footprint size ∨ footprint size + 24 ≤ sz →
    wp (h_malloc size) (λ p s', p = a + 24 ∧
      view s' ((a, footprint size) :: L) (pre ++ leftover a sz (footprint size) ++ post)) s;
  ff_free s L a sz F :
    view s L F → (a, sz) ∈ L → apart ((a, sz) :: F) →
    wp (h_free (a + 24)) (λ _ s', ∃ L', L ≡ₚ (a, sz) :: L' ∧ view s' L' ((a, sz) :: F)) s;
  ff_free_some s L a sz F :
    view s L F → (a, sz) ∈ L →
    wp (h_free (a + 24)) (λ _ s', ∃ L' F', L ≡ₚ (a, sz) :: L' ∧ view s' L' F') s;
}.

(** ** The abstract allocator on a known free list *)

Lemma first_fit_at bs t pre a post :
  Forall (λ x, size_of bs x < t) pre → t ≤ size_of bs a → first_fit bs t (pre ++ a :: post) = Some a.
Proof.
  intros Hpre Ha. induction Hpre as [|x pre Hx Hpre IH]; simpl.
  - by rewrite decide_True.
  - by rewrite decide_False by lia.
Qed.

Lemma mark1_same a b : b_addr (mark1 a b) = b_addr b ∧ b_size (mark1 a b) = b_size b.
Proof. unfold mark1. by destruct (decide (b_addr b = a)) as [<-|]. Qed.

Lemma size_of_mark a bs x : size_of (mark_free a bs) x = size_of bs x.
Proof.
  unfold mark_free. induction bs as [|b bs IH]; [done|]. rewrite fmap_cons. cbn [size_of].
  destruct (mark1_same a b) as [-> ->]. by rewrite IH.
Qed.

Lemma coalesce_apart bs F : ∀ a,
  separated bs (a :: F) → coalesce_from bs a F = (bs, a :: F).
Proof.
  induction F as [|b F IH]; intros a Hs; simpl; [done|]. destruct Hs as [Hne Hs].
  rewrite decide_False by done. by rewrite IH.
Qed.

(** The sizes on [F] are those of its blocks. *)
Definition sizes_ok (bs : list blk) (F : list (Z * Z)) : Prop := Forall (λ p, size_of bs p.1 = p.2) F.

Lemma apart_separated bs F : sizes_ok bs F → apart F → separated bs F.*1.
Proof.
  induction 1 as [|p F Hp HF IH]; [done|]. destruct F as [|q F]; simpl; [done|].
  intros [Hne Ha]. rewrite Hp. split; [done|]. by apply IH.
Qed.

Definition blk_of (p : Z * Z) : blk := Blk p.1 p.2 false.

(** The view of [allocator.c]'s state. *)
Record arena (total : Z) (s : alloc) (L F : list (Z * Z)) : Prop := {
  ar_blocks : ∃ bs, heap_inv s bs F.*1 ∧ accounted s bs ∧ sizes_ok bs F ∧ live bs ≡ₚ blk_of <$> L;
  ar_size : heap_size s = total;
}.

#[export] Instance my_heap (total : Z) : Heap alloc := {|
  h_malloc := my_malloc (enough_fuel total);
  h_free := my_free (enough_fuel total);
|}.

(** A free block keeps its size when another one is carved. *)
Lemma carve_sizes lo hi bs t a F :
  tiles lo bs hi → tiles lo (carve a t bs) hi → NoDup (a :: F.*1) →
  (∀ x, x ∈ F.*1 → Blk x (size_of bs x) true ∈ bs) → sizes_ok bs F → sizes_ok (carve a t bs) F.
Proof.
  intros Ht Ht' [Ha Hnd]%NoDup_cons Hin HF. apply Forall_forall. intros [x sz] Hx.
  pose proof (proj1 (Forall_forall _ _) HF _ Hx) as Hsz. simpl in *.
  assert (x ∈ F.*1) as Hx1 by (apply list_elem_of_fmap; by exists (x, sz)).
  specialize (Hin x Hx1). rewrite Hsz in Hin.
  change x with (b_addr (Blk x sz true)). rewrite (size_of_elem _ _ _ (Blk x sz true) Ht'); [done|].
  unfold carve. apply list_elem_of_bind. exists (Blk x sz true). split; [|done].
  unfold carve1. simpl. rewrite decide_False; [constructor|]. intros ->. done.
Qed.

Lemma leftover_sizes lo hi bs t a sz :
  tiles lo (carve a t bs) hi → Blk a sz true ∈ bs → sizes_ok (carve a t bs) (leftover a sz t).
Proof.
  intros Ht' Hin. unfold leftover. destruct (decide (t < sz)) as [Hlt|]; [|constructor].
  apply Forall_singleton. simpl.
  apply (size_of_elem _ _ _ (Blk (a + t) (sz - t) true) Ht'). apply list_elem_of_bind.
  exists (Blk a sz true). split; [|done]. unfold carve1. simpl.
  rewrite !decide_True by done. apply list_elem_of_further, list_elem_of_here.
Qed.

Lemma arena_malloc total s L pre a sz post size :
  arena total s L (pre ++ (a, sz) :: post) →
  0 < size ≤ 2 ^ 64 - 32 → Forall (λ p, p.2 < footprint size) pre →
  sz = footprint size ∨ footprint size + 24 ≤ sz →
  wp (my_malloc (enough_fuel total) size) (λ p s', p = a + 24 ∧
    arena total s' ((a, footprint size) :: L) (pre ++ leftover a sz (footprint size) ++ post)) s.
Proof.
  intros [(bs & Hinv & Hacc & HF & HL) <-] Hsize Hpre Hfit. set (t := footprint size) in *.
  pose proof (ok_wf Hinv) as Hwf. pose proof (wf_nodup _ _ _ _ Hwf) as Hnd.
  rewrite fmap_app, fmap_cons in *. simpl in *.
  apply Forall_app in HF as [HFpre [Hsz HFpost]%Forall_cons]. simpl in Hsz.
  assert (Hff : first_fit bs t (pre.*1 ++ a :: post.*1) = Some a).
  { apply first_fit_at; [|lia]. apply Forall_fmap. unfold sizes_ok in HFpre.
    apply (Forall_impl _ _ _ (proj2 (Forall_and _ _) (conj Hpre HFpre))).
    intros p [H1 H2]. simpl. lia. }
  assert (Hfree : Blk a sz true ∈ bs).
  { rewrite <- Hsz. apply (wf_free_elem _ _ _ _ _ Hwf). apply elem_of_middle. }
  pose proof (ok_elem_bounds Hinv _ Hfree) as Hb. simpl in Hb.
  pose proof (footprint_bounds size ltac:(lia)) as Hfp. fold t in Hfp.
  assert (Hsl : no_sliver (heap_size s) t bs (pre.*1 ++ a :: post.*1)).
  { unfold no_sliver. rewrite Hff. intros _. rewrite Hsz. done. }
  assert (Hserve : malloc (heap_size s) size bs (pre.*1 ++ a :: post.*1) =
    (a + 24, carve a t bs, pre.*1 ++ (leftover a sz t).*1 ++ post.*1)).
  { unfold malloc, serve. fold t. rewrite decide_False by lia. rewrite Hff, relink_split by done.
    do 3 f_equal. unfold remainder, leftover. rewrite Hsz. by destruct (decide (t < sz)). }
  assert (Hp : a + 24 ≠ NULL).
  { pose proof (ho_start _ _ _ _ _ _ Hinv). unfold NULL. lia. }
  destruct (serve_success _ _ _ _ _ _ _ _ _ Hwf Hsl Hserve Hp) as (_ & a' & _ & Ha' & _ & _ & Hlive).
  assert (a' = a) as -> by lia. fold t in Hlive.
  eapply wp_mono; [apply (my_malloc_wp _ size t s bs _ Hinv); try done; [lia| |lia|apply footprint_mod8
    |by eapply enough_fuel_ok]|].
  { rewrite ALIGN_round8, HEADER_SIZE_24 by lia. apply wrap64_small. unfold t, footprint in *. lia. }
  intros p s' ((bs' & fl' & Hs & Hinv') & Hst & Hhs & Hc & _).
  unfold malloc in Hserve. fold t in Hserve. rewrite Hserve in Hs. injection Hs as <- <- <-.
  split; [done|]. split; [|done]. exists (carve a t bs). rewrite !fmap_app.
  pose proof (ho_tiles _ _ _ _ _ _ Hinv) as Ht. pose proof (ho_tiles _ _ _ _ _ _ Hinv') as Ht'.
  rewrite Hst, Hhs in Ht'. split_and!; [done|by eapply accounted_alloc| |].
  - assert (Hold : sizes_ok (carve a t bs) (pre ++ post)).
    { apply (carve_sizes _ _ bs t a _ Ht Ht'); [..|by apply Forall_app].
      - rewrite fmap_app. by rewrite (Permutation_middle pre.*1 post.*1 a).
      - intros x Hx. apply (wf_free_elem _ _ _ _ _ Hwf). rewrite fmap_app in Hx.
        apply elem_of_app in Hx as [Hx|Hx]; apply elem_of_app; [by left|right; by constructor]. }
    apply Forall_app in Hold as [H1 H2]. apply Forall_app. split; [done|]. apply Forall_app.
    split; [|done]. by apply (leftover_sizes _ _ bs t a sz Ht').
  - rewrite fmap_cons, Hlive, HL. done.
Qed.

Lemma arena_free total s L a sz F :
  arena total s L F → (a, sz) ∈ L → apart ((a, sz) :: F) →
  wp (my_free (enough_fuel total) (a + 24))
    (λ _ s', ∃ L', L ≡ₚ (a, sz) :: L' ∧ arena total s' L' ((a, sz) :: F)) s.
Proof.
  intros [(bs & Hinv & Hacc & HF & HL) <-] Hin Hap.
  assert (Hb : Blk a sz false ∈ live bs).
  { rewrite HL. apply list_elem_of_fmap. by exists (a, sz). }
  apply list_elem_of_filter in Hb as [_ Hb].
  assert (Hsz : size_of bs a = sz).
  { apply (size_of_elem _ _ _ (Blk a sz false) (ho_tiles _ _ _ _ _ _ Hinv) Hb). }
  assert (Hrel : release a bs F.*1 = (mark_free a bs, a :: F.*1)).
  { unfold release. apply coalesce_apart.
    assert (Hs : sizes_ok (mark_free a bs) ((a, sz) :: F)).
    { constructor; [by rewrite size_of_mark|]. eapply Forall_impl; [exact HF|].
      intros p Hp. by rewrite size_of_mark. }
    by apply (apart_separated _ _ Hs). }
  destruct (list_elem_of_split _ _ Hin) as (l1 & l2 & ->). rewrite <- Permutation_middle in HL.
  pose proof (release_live _ _ _ _ _ _ (ok_wf Hinv) Hb) as Hlive. rewrite Hrel in Hlive. simpl in Hlive.
  change (a + 24) with (a + HEADER_SIZE).
  eapply wp_mono; [apply (my_free_wp _ s bs _ a sz Hinv Hb); by eapply enough_fuel_ok|].
  intros _ s' (Hinv' & _ & Hhs & Hc & _). rewrite Hrel in Hinv'. simpl in Hinv'.
  exists (l1 ++ l2). split; [by rewrite Permutation_middle|]. split; [|done].
  exists (mark_free a bs). split_and!; [done|by eapply accounted_free| |].
  - constructor; [by rewrite size_of_mark|]. eapply Forall_impl; [exact HF|].
    intros p Hp. by rewrite size_of_mark.
  - rewrite HL, fmap_cons in Hlive. by apply Permutation_cons_inv in Hlive.
Qed.

(** Without a condition on the neighbours: blocks may be merged. *)
Lemma arena_free_some total s L a sz F :
  arena total s L F → (a, sz) ∈ L →
  wp (my_free (enough_fuel total) (a + 24)) (λ _ s', ∃ L' F', L ≡ₚ (a, sz) :: L' ∧ arena total s' L' F') s.
Proof.
  intros [(bs & Hinv & Hacc & HF & HL) <-] Hin.
  assert (Hb : Blk a sz false ∈ live bs).
  { rewrite HL. apply list_elem_of_fmap. by exists (a, sz). }
  apply list_elem_of_filter in Hb as [_ Hb].
  destruct (list_elem_of_split _ _ Hin) as (l1 & l2 & ->). rewrite <- Permutation_middle in HL.
  pose proof (release_live _ _ _ _ _ _ (ok_wf Hinv) Hb) as Hlive.
  destruct (release a bs F.*1) as [bs' fl'] eqn:Hrel. simpl in Hlive.
  change (a + 24) with (a + HEADER_SIZE).
  eapply wp_mono; [apply (my_free_wp _ s bs _ a sz Hinv Hb); by eapply enough_fuel_ok|].
  intros _ s' (Hinv' & _ & Hhs & Hc & _). rewrite Hrel in Hinv'. simpl in Hinv'.
  exists (l1 ++ l2), ((λ x, (x, size_of bs' x)) <$> fl'). split; [by rewrite Permutation_middle|].
  split; [|done]. exists bs'. rewrite <- list_fmap_compose. rewrite list_fmap_id.
  split_and!; [done|by eapply accounted_free| |].
  - apply Forall_fmap, Forall_forall. done.
  - rewrite HL, fmap_cons in Hlive. by apply Permutation_cons_inv in Hlive.
Qed.

(** What [allocator_stats] prints for a view. *)
Definition sizes (F : list (Z * Z)) : Z := sumZ F.*2.

Lemma arena_stats total s L F :
  arena total s L F → total ≤ int_max →
  allocator_stats (enough_fuel total) s =
    Done (mkStats (total - sizes F) (Z.of_nat (length F)) (sizes F), s).
Proof.
  intros [(bs & Hinv & Hacc & HF & HL) <-] Hmax. pose proof (ok_free_length Hinv) as Hlen.
  rewrite length_fmap in Hlen.
  destruct (allocator_stats_correct _ _ _ _ Hinv Hacc (enough_fuel_ok _ _ _ Hinv)) as [-> Hsum].
  { rewrite length_fmap. lia. }
  rewrite length_fmap. assert (free_bytes bs = sizes F) as Hfb.
  { rewrite <- (free_bytes_sum _ _ _ _ (ok_wf Hinv)). unfold sizes. f_equal.
    rewrite <- list_fmap_compose. apply list_fmap_ext. intros i p Hp. simpl.
    by apply (Forall_lookup_1 _ _ _ _ HF Hp). }
  rewrite Hfb in *. do 3 f_equal. lia.
Qed.

#[export] Instance my_first_fit (total : Z) : @FirstFitHeap alloc (my_heap total) total.
Proof.
  refine (Build_FirstFitHeap alloc (my_heap total) total (arena total) _ _ _).
  - intros. cbn [h_malloc my_heap]. by apply arena_malloc.
  - intros. cbn [h_free my_heap]. by apply arena_free.
  - intros. cbn [h_free my_heap]. by eapply arena_free_some.
Defined.
