(* ===== verification/AllocatorBench.v ===== *)
(** The benchmark of the allocator, [02_memory/custom_malloc/benchmark.c]: its
    workloads as clients of the [Heap] interface, and what they leave behind.

    Timing and printing are left out; the numbers [rand] returns are a
    parameter. *)
From S2P Require Import Prelude Allocator FirstFit AllocatorRefine AllocatorSpec HeapClient.
Import Alloc FirstFit.

Module Bench.

(** [(rand() % 256) + 16] *)
Definition rand_size (r : Z) : Z := Z.rem r 256 + 16.

Section workloads.
Context {S : Type} `{Heap S}.

(** [for (i = 0; i < num_ops; i++) ptrs[i] = malloc(size)] *)
Fixpoint alloc_all (sizes : list Z) : ST S (list Z) :=
  match sizes with
  | [] => mret []
  | size :: sizes => p ← h_malloc size; ps ← alloc_all sizes; mret (p :: ps)
  end.

Fixpoint free_all (ptrs : list Z) : ST S unit :=
  match ptrs with [] => mret tt | p :: ptrs => _ ← h_free p; free_all ptrs end.

(** Either half of the first two tests; [array_ok]: did [malloc] give the array
    of pointers? *)
Definition pattern (array_ok : bool) (rands : list Z) : ST S unit :=
  if negb array_ok && negb (length rands =? 0)%nat then st_fault NullDeref else
  ptrs ← alloc_all (rand_size <$> rands);
  free_all ptrs.

End workloads.

(** Elements 0, 2, 4, ... *)
Fixpoint every_other {A} (l : list A) : list A :=
  match l with x :: _ :: l => x :: every_other l | l => l end.

Definition RANDOM_HEAP : Z := 10 * 1024 * 1024.
Definition FRAG_HEAP : Z := 1024 * 1024.

(** The half of [test_random_pattern] and of [test_streaming_pattern] that runs
    on the custom allocator; the two are the same. *)
Definition test_pattern (array_ok : bool) (region : option (Z * (Z → Z))) (rands : list Z) : ST alloc stats :=
  _ ← allocator_init region RANDOM_HEAP;
  _ ← @pattern alloc (my_heap RANDOM_HEAP) array_ok rands;
  st ← allocator_stats (enough_fuel RANDOM_HEAP);
  _ ← allocator_cleanup;
  mret st.
Definition test_random_pattern := test_pattern.
Definition test_streaming_pattern := test_pattern.

(** The three reports of [test_fragmentation], and both arrays of pointers;
    [arrays_ok] as [array_ok], for [ptrs] and [new_ptrs]. *)
Definition test_fragmentation (arrays_ok : bool * bool) (region : option (Z * (Z → Z)))
    : ST alloc (stats * stats * stats * list Z * list Z) :=
  let fuel := enough_fuel FRAG_HEAP in
  let heap := my_heap FRAG_HEAP in
  _ ← allocator_init region FRAG_HEAP;
  if negb arrays_ok.1 then st_fault NullDeref else
  ptrs ← @alloc_all alloc heap (replicate 100 5120);
  st1 ← allocator_stats fuel;
  _ ← @free_all alloc heap (every_other ptrs);
  st2 ← allocator_stats fuel;
  if negb arrays_ok.2 then st_fault NullDeref else
  new_ptrs ← @alloc_all alloc heap (replicate 50 5120);
  st3 ← allocator_stats fuel;
  _ ← @free_all alloc heap (every_other (tail ptrs));
  _ ← @free_all alloc heap new_ptrs;
  _ ← allocator_cleanup;
  mret (st1, st2, st3, ptrs, new_ptrs).

(** [main], given what each test's regions, arrays and random numbers are. *)
Definition main (r1 r2 r3 : option (Z * (Z → Z))) (rands1 rands2 : list Z)
    : ST alloc (stats * stats * (stats * stats * stats * list Z * list Z)) :=
  s1 ← test_random_pattern true r1 rands1;
  s2 ← test_streaming_pattern true r2 rands2;
  s3 ← test_fragmentation (true, true) r3;
  mret (s1, s2, s3).

End Bench.
Import Bench.

(** ** Rows of blocks *)

(** Blocks of the sizes [ts], one after the other from [a] on. *)
Fixpoint row (a : Z) (ts : list Z) : list (Z * Z) :=
  match ts with [] => [] | t :: ts => (a, t) :: row (a + t) ts end.

Definition payload (p : Z * Z) : Z := p.1 + 24.

(** Each block starts at or after the end of the one before it. *)
Fixpoint climbing (ps : list (Z * Z)) : Prop :=
  match ps with
  | p :: (q :: _) as ps' => p.1 + p.2 ≤ q.1 ∧ climbing ps'
  | _ => True
  end.

(** The first block of [ps] does not touch the first one of [F]. *)
Definition clear_of (ps F : list (Z * Z)) : Prop :=
  match ps, F with p :: _, q :: _ => p.1 + p.2 ≠ q.1 | _, _ => True end.

Lemma apart_app F1 F2 : apart (F1 ++ F2) → apart F2.
Proof.
  induction F1 as [|p F1 IH]; [done|]. intros Hp. apply IH. simpl in Hp.
  destruct (F1 ++ F2); [done|]. apply Hp.
Qed.

(** Blocks freed from left to right end up on the list without touching. *)
Lemma apart_rev ps : ∀ F,
  climbing ps → Forall (λ p, 0 < p.2) ps → clear_of ps F → apart F → apart (reverse ps ++ F).
Proof.
  induction ps as [|p ps IH]; intros F Hc Hpos Hcl Hap; [done|].
  rewrite reverse_cons, <- app_assoc. simpl. inversion_clear Hpos as [|? ? Hp Hps]. apply IH.
  - simpl in Hc. by destruct ps as [|q ps]; [|destruct Hc].
  - done.
  - destruct ps as [|q ps]; [done|]. simpl in *. inversion_clear Hps. lia.
  - destruct F as [|q F]; [done|]. by split.
Qed.

Lemma row_climbing ts : ∀ a, climbing (row a ts).
Proof.
  induction ts as [|t ts IH]; intros a; [done|]. specialize (IH (a + t)). simpl in *.
  destruct ts; [done|]. simpl in *. split; [lia|done].
Qed.

Lemma row_positive ts a : Forall (λ t, 0 < t) ts → Forall (λ p, 0 < p.2) (row a ts).
Proof. intros H. revert a. induction H as [|t ts Ht Hts IH]; intros a; simpl; constructor; auto. Qed.

Lemma row_length a ts : length (row a ts) = length ts.
Proof. revert a. induction ts as [|t ts IH]; intros a; simpl; auto. Qed.

Lemma row_sizes a ts : (row a ts).*2 = ts.
Proof. revert a. induction ts as [|t ts IH]; intros a; simpl; [done|]. by rewrite IH. Qed.

(** ** The workloads against the interface *)
Section clients.
Context {S : Type} (total : Z) `{FirstFitHeap S total}.
Implicit Types (s : S) (L F : list (Z * Z)).

Definition legal_size (size : Z) : Prop := 0 < size ≤ 2 ^ 64 - 32.

Lemma footprints_nonneg req : Forall legal_size req → 0 ≤ sumZ (footprint <$> req).
Proof.
  induction 1 as [|x l [Hx _] Hl IH]; [done|]. rewrite fmap_cons, sumZ_cons.
  pose proof (footprint_bounds x Hx). lia.
Qed.

(** From one free block with room, requests are served side by side. *)
Lemma alloc_row_wp req : ∀ s L a r,
  view s L [(a, r)] → Forall legal_size req → sumZ (footprint <$> req) + 24 ≤ r →
  wp (alloc_all req) (λ ps s',
    let cells := row a (footprint <$> req) in
    let used := sumZ (footprint <$> req) in
    ps = payload <$> cells ∧ view s' (reverse cells ++ L) [(a + used, r - used)]) s.
Proof.
  induction req as [|size req IH]; intros s L a r Hv Hreq Hr; cbn [alloc_all].
  { apply wp_ret. simpl. split; [done|]. rewrite Z.add_0_r, Z.sub_0_r. done. }
  inversion_clear Hreq as [|? ? Hs Hreq']. rewrite fmap_cons, sumZ_cons in Hr.
  pose proof (footprints_nonneg _ Hreq') as Hnn. pose proof (footprint_bounds size (proj1 Hs)).
  apply wp_bind. eapply wp_mono.
  { apply (ff_malloc s L [] a r [] size Hv Hs); [constructor|right; lia]. }
  intros p s' [-> Hv']. unfold leftover in Hv'. rewrite decide_True in Hv' by lia.
  simpl in Hv'. apply wp_bind. eapply wp_mono; [apply (IH _ _ _ _ Hv' Hreq'); lia|].
  intros ps s'' [-> Hv'']. apply wp_ret. cbv zeta. rewrite fmap_cons, sumZ_cons. cbn [row].
  split; [done|]. rewrite reverse_cons, <- app_assoc, Z.add_assoc, Z.sub_add_distr. done.
Qed.

(** Requests of exactly the size of the first free blocks take them in turn. *)
Lemma alloc_reuse_wp size ps : ∀ s L F,
  view s L (ps ++ F) → legal_size size → Forall (λ p, p.2 = footprint size) ps →
  wp (alloc_all (replicate (length ps) size)) (λ qs s',
    qs = payload <$> ps ∧ view s' (reverse ps ++ L) F) s.
Proof.
  induction ps as [|[a t] ps IH]; intros s L F Hv Hs Hps; simpl; [by apply wp_ret|].
  inversion_clear Hps as [|? ? Ht Hps']. simpl in Ht. subst t. apply wp_bind. eapply wp_mono.
  { apply (ff_malloc s L [] a (footprint size) (ps ++ F) size Hv Hs); [constructor|by left]. }
  intros p s' [-> Hv']. unfold leftover in Hv'. rewrite decide_False in Hv' by lia. simpl in Hv'.
  apply wp_bind. eapply wp_mono; [by apply (IH _ _ _ Hv' Hs)|].
  intros qs s'' [-> Hv'']. apply wp_ret. split; [done|].
  by rewrite reverse_cons, <- app_assoc.
Qed.

(** Blocks freed without touching the one freed before pile up on the list. *)
Lemma free_row_wp ps : ∀ s L L0 F,
  view s L F → L ≡ₚ ps ++ L0 → apart (reverse ps ++ F) →
  wp (free_all (payload <$> ps)) (λ _ s', ∃ L', L' ≡ₚ L0 ∧ view s' L' (reverse ps ++ F)) s.
Proof.
  induction ps as [|[a sz] ps IH]; intros s L L0 F Hv HL Hap; simpl.
  { apply wp_ret. eauto. }
  rewrite reverse_cons, <- app_assoc in Hap. simpl in Hap. apply wp_bind. eapply wp_mono.
  { apply (ff_free s L a sz F Hv); [rewrite HL; constructor|by eapply apart_app]. }
  intros _ s' (L' & HL' & Hv'). rewrite HL in HL'. simpl in HL'. apply Permutation_cons_inv in HL'.
  eapply wp_mono; [apply (IH _ _ L0 _ Hv')|]; [by rewrite HL'|done|].
  intros _ s'' (L'' & HL'' & Hv''). exists L''. rewrite reverse_cons, <- app_assoc. done.
Qed.

(** Any live blocks may be freed in any order. *)
Lemma free_some_wp ps : ∀ s L L0 F,
  view s L F → L ≡ₚ ps ++ L0 →
  wp (free_all (payload <$> ps)) (λ _ s', ∃ L' F', L' ≡ₚ L0 ∧ view s' L' F') s.
Proof.
  induction ps as [|[a sz] ps IH]; intros s L L0 F Hv HL; simpl; [apply wp_ret; eauto|].
  apply wp_bind. eapply wp_mono; [apply (ff_free_some s L a sz F Hv); rewrite HL; constructor|].
  intros _ s' (L' & F' & HL' & Hv'). rewrite HL in HL'. simpl in HL'. apply Permutation_cons_inv in HL'.
  apply (IH _ _ L0 _ Hv'). by rewrite HL'.
Qed.

End clients.

(** ** Every other element *)

Lemma every_other_fmap {A B} (f : A → B) : ∀ n l, (length l ≤ n)%nat →
  every_other (f <$> l) = f <$> every_other l.
Proof.
  induction n as [|n IH]; intros [|x [|y l]] Hl; simpl in *; try done; try lia.
  f_equal. apply IH. lia.
Qed.

Lemma every_other_split {A} : ∀ n (l : list A), (length l ≤ n)%nat →
  l ≡ₚ every_other l ++ every_other (tail l).
Proof.
  induction n as [|n IH]; intros [|x l] Hl; simpl in *; try done; try lia.
  destruct l as [|y l]; [done|]. simpl in *. constructor.
  rewrite (IH (y :: l)) at 1 by (simpl; lia). simpl. apply Permutation_app_comm.
Qed.

Lemma every_other_in {A} (l : list A) x : x ∈ every_other l → x ∈ l.
Proof. rewrite (every_other_split _ l (le_n _)) at 2. intros. apply elem_of_app. by left. Qed.

Lemma climbing_tail p ps : climbing (p :: ps) → climbing ps.
Proof. simpl. destruct ps; [done|]. by intros [_ ?]. Qed.

Lemma climbing_every_other : ∀ n ps, (length ps ≤ n)%nat →
  climbing ps → Forall (λ p, 0 < p.2) ps → climbing (every_other ps).
Proof.
  induction n as [|n IH]; intros [|p [|q ps]] Hl Hc Hpos; simpl in Hl; try done; try lia.
  inversion_clear Hpos as [|? ? _ Hpos']. inversion_clear Hpos' as [|? ? Hq Hpos].
  cbn [every_other]. pose proof (climbing_tail _ _ (climbing_tail _ _ Hc)) as Hc'.
  specialize (IH ps ltac:(lia) Hc' Hpos). destruct ps as [|r ps]; [done|].
  simpl in Hc. destruct Hc as (H1 & H2 & _).
  destruct ps as [|r' ps]; simpl in *; (split; [lia|done]).
Qed.

(** ** A fresh heap, and an idle one *)

(** Where the C library puts a region: aligned, and inside the address space. *)
Definition region_ok (base total : Z) : Prop :=
  4096 ≤ base ∧ base mod 8 = 0 ∧ base + total ≤ 2 ^ 64.

(** Nothing is counted as allocated. *)
Definition idle (s : alloc) : Prop := wrap64 (total_allocated s - total_freed s) = 0.

Lemma init_arena base junk total s :
  region_ok base total → 24 ≤ total → idle s →
  wp (allocator_init (Some (base, junk)) total) (λ _ s', arena total s' [] [(base, total)]) s.
Proof.
  intros (Hb & Hm & He) Ht Hidle. eapply wp_mono; [by apply allocator_init_wp|].
  intros _ s' (Hinv & _ & Hsz & Ha & Hf & _). split; [|done].
  exists [Blk base total true]. split_and!; [done| | |done].
  - unfold accounted. rewrite Ha, Hf, Hidle. done.
  - constructor; [|constructor]. simpl. by rewrite decide_True.
Qed.

Lemma arena_idle total s F : arena total s [] F → idle s.
Proof.
  intros [(bs & _ & Hacc & _ & HL) _]. unfold idle. rewrite Hacc, live_bytes_live.
  simpl in HL. apply Permutation_nil_r in HL. by rewrite HL.
Qed.

(** [arena_stats] as a rule. *)
Lemma arena_report total s L F : arena total s L F → total ≤ int_max →
  wp (allocator_stats (enough_fuel total)) (λ st s',
    st = mkStats (total - sizes F) (Z.of_nat (length F)) (sizes F) ∧ s' = s) s.
Proof. intros Hv Ht. unfold wp. by rewrite (arena_stats _ _ _ _ Hv Ht). Qed.

Lemma cleanup_idle s : idle s → wp allocator_cleanup (λ _ s', idle s' ∧ heap_start s' = NULL) s.
Proof.
  intros H. unfold allocator_cleanup, wp, mbind, st_bind, st_get.
  destruct (Z.eqb_spec (heap_start s) NULL); done.
Qed.

Lemma sizes_app F1 F2 : sizes (F1 ++ F2) = sizes F1 + sizes F2.
Proof.
  unfold sizes. rewrite fmap_app. induction F1 as [|p F1 IH]; [done|].
  rewrite !fmap_cons, <- app_comm_cons, !sumZ_cons. lia.
Qed.

Lemma sizes_row a ts : sizes (row a ts) = sumZ ts.
Proof. unfold sizes. by rewrite row_sizes. Qed.

Lemma sizes_perm F1 F2 : F1 ≡ₚ F2 → sizes F1 = sizes F2.
Proof. intros H. unfold sizes. apply sumZ_perm. by rewrite H. Qed.

Lemma rand_size_bounds r : 0 ≤ r → 16 ≤ rand_size r ≤ 271.
Proof. intros. unfold rand_size. pose proof (Z.rem_bound_pos r 256). lia. Qed.

(** ** The two patterns *)

Lemma rand_sizes_legal rands : Forall (λ r, 0 ≤ r) rands → Forall legal_size (rand_size <$> rands).
Proof.
  intros H. apply Forall_fmap. eapply Forall_impl; [exact H|]. intros r Hr.
  pose proof (rand_size_bounds r Hr). unfold legal_size. simpl. lia.
Qed.

Lemma rand_sizes_total rands : Forall (λ r, 0 ≤ r) rands →
  sumZ (footprint <$> (rand_size <$> rands)) ≤ 302 * Z.of_nat (length rands).
Proof.
  induction 1 as [|r rands Hr _ IH]; [done|]. rewrite !fmap_cons, sumZ_cons.
  pose proof (rand_size_bounds r Hr). pose proof (footprint_bounds (rand_size r) ltac:(lia)).
  simpl length. lia.
Qed.

Lemma footprints_positive req : Forall legal_size req → Forall (λ t, 0 < t) (footprint <$> req).
Proof.
  intros H. apply Forall_fmap. eapply Forall_impl; [exact H|]. intros x [Hx _].
  pose proof (footprint_bounds x Hx). simpl. lia.
Qed.

Lemma reverse_length_sizes ps : sizes (reverse ps) = sizes ps.
Proof. apply sizes_perm. by rewrite reverse_Permutation. Qed.

(** Filling part of a heap with blocks and freeing them in the same order. *)
Lemma test_pattern_wp base junk rands s :
  region_ok base RANDOM_HEAP → idle s → Forall (λ r, 0 ≤ r) rands → 2 ≤ Z.of_nat (length rands) ≤ 10000 →
  wp (test_pattern true (Some (base, junk)) rands) (λ st s',
    st = mkStats 0 (Z.of_nat (length rands) + 1) RANDOM_HEAP ∧ idle s' ∧ heap_start s' = NULL) s.
Proof.
  intros Hr Hidle Hrands Hlen. unfold test_pattern. apply wp_bind.
  eapply wp_mono; [apply (init_arena _ _ _ _ Hr); [unfold RANDOM_HEAP; lia|done]|].
  intros [] s1 Hv. apply wp_bind. unfold pattern. cbn [negb andb]. apply wp_bind.
  set (req := rand_size <$> rands). pose proof (rand_sizes_legal _ Hrands) as Hreq. fold req in Hreq.
  pose proof (rand_sizes_total _ Hrands) as Htot. fold req in Htot.
  pose proof (row_length base (footprint <$> req)) as Hlen'. unfold req in Hlen'.
  rewrite !length_fmap in Hlen'. fold req in Hlen'.
  eapply wp_mono; [apply (@alloc_row_wp alloc RANDOM_HEAP (my_heap RANDOM_HEAP) (my_first_fit RANDOM_HEAP)
    req s1 [] base RANDOM_HEAP Hv Hreq); unfold RANDOM_HEAP; lia|].
  intros ps s2 [-> Hv2]. set (cells := row base (footprint <$> req)) in *.
  eapply wp_mono; [apply (@free_row_wp alloc RANDOM_HEAP (my_heap RANDOM_HEAP) (my_first_fit RANDOM_HEAP)
    cells s2 _ [] _ Hv2)|].
  { by rewrite reverse_Permutation. }
  { apply apart_rev; [apply row_climbing|by apply row_positive, footprints_positive| |done].
    unfold cells, req. destruct rands as [|r1 [|r2 rands]]; simpl in Hlen; try lia.
    unfold req in Hreq. rewrite !fmap_cons in Hreq.
    apply Forall_cons in Hreq as [_ [[Hr2 _] Hreq]%Forall_cons].
    pose proof (footprints_nonneg _ Hreq). pose proof (footprint_bounds _ Hr2).
    rewrite !fmap_cons, !sumZ_cons. cbn [row clear_of fst snd]. lia. }
  intros [] s3 (L' & HL' & Hv3). apply Permutation_nil_r in HL'. subst L'. apply wp_bind.
  eapply wp_mono; [apply (arena_report _ _ _ _ Hv3); unfold RANDOM_HEAP, int_max; lia|].
  intros st ? [-> ->]. apply wp_bind. eapply wp_mono; [apply cleanup_idle, (arena_idle _ _ _ Hv3)|].
  intros _ s4 [Hi Hn]. apply wp_ret. split_and!; [|done..].
  rewrite sizes_app, reverse_length_sizes, length_app, length_reverse, Hlen'. unfold cells.
  rewrite sizes_row. unfold sizes. simpl. f_equal; lia.
Qed.

(** ** Fragmentation *)

Section fragmentation.
Context (base : Z).

(** The hundred blocks, and what is left behind them. *)
Definition cells : list (Z * Z) := row base (replicate 100 5144).
Definition spare : list (Z * Z) := [(base + 514400, 534176)].

Lemma cells_positive : Forall (λ p, 0 < p.2) cells.
Proof. apply row_positive, Forall_replicate. lia. Qed.

Lemma evens_footprint : Forall (λ p, p.2 = footprint 5120) (reverse (every_other cells)).
Proof.
  apply Forall_forall. intros p Hp. rewrite reverse_Permutation in Hp. apply every_other_in in Hp.
  assert (p.2 ∈ replicate 100 5144) as Hp'.
  { rewrite <- (row_sizes base). apply list_elem_of_fmap. eauto. }
  apply elem_of_replicate_inv in Hp'. by rewrite Hp'.
Qed.

Lemma evens_apart : apart (reverse (every_other cells) ++ spare).
Proof.
  apply apart_rev; [| | |done].
  - apply (climbing_every_other _ _ (le_n _)); [apply row_climbing|apply cells_positive].
  - apply Forall_forall. intros p Hp%every_other_in. revert p Hp. apply Forall_forall, cells_positive.
  - unfold cells, spare. cbn [row replicate every_other clear_of fst snd]. lia.
Qed.

Lemma evens_payload : every_other (payload <$> cells) = payload <$> every_other cells.
Proof. by apply (every_other_fmap _ _ _ (le_n _)). Qed.

Lemma odds_payload : every_other (tail (payload <$> cells)) = payload <$> every_other (tail cells).
Proof. by apply (every_other_fmap payload _ (tail cells) (le_n _)). Qed.

Let heap := my_first_fit FRAG_HEAP.

Lemma fill_wp s :
  arena FRAG_HEAP s [] [(base, FRAG_HEAP)] →
  wp (@alloc_all alloc (my_heap FRAG_HEAP) (replicate 100 5120)) (λ ps s',
    ps = payload <$> cells ∧ arena FRAG_HEAP s' (reverse cells) spare) s.
Proof.
  intros Hv. eapply wp_mono.
  { apply (@alloc_row_wp alloc FRAG_HEAP _ heap (replicate 100 5120) s [] base FRAG_HEAP Hv).
    - apply Forall_replicate. unfold legal_size. lia.
    - vm_compute. discriminate. }
  intros ps s' [-> Hv']. rewrite app_nil_r, !fmap_replicate in *. change (footprint 5120) with 5144 in *.
  change (sumZ (replicate 100 5144)) with 514400 in Hv'. split; [done|exact Hv'].
Qed.

Lemma free_evens_wp s :
  arena FRAG_HEAP s (reverse cells) spare →
  wp (@free_all alloc (my_heap FRAG_HEAP) (payload <$> every_other cells)) (λ _ s', ∃ L,
    L ≡ₚ every_other (tail cells) ∧ arena FRAG_HEAP s' L (reverse (every_other cells) ++ spare)) s.
Proof.
  intros Hv. apply (@free_row_wp alloc FRAG_HEAP _ heap _ _ _ _ _ Hv); [|apply evens_apart].
  rewrite reverse_Permutation. by apply (every_other_split _ _ (le_n _)).
Qed.

Lemma reuse_wp s L :
  arena FRAG_HEAP s L (reverse (every_other cells) ++ spare) →
  wp (@alloc_all alloc (my_heap FRAG_HEAP) (replicate 50 5120)) (λ qs s',
    qs = payload <$> reverse (every_other cells) ∧ arena FRAG_HEAP s' (every_other cells ++ L) spare) s.
Proof.
  intros Hv. eapply wp_mono.
  { apply (@alloc_reuse_wp alloc FRAG_HEAP _ heap 5120 _ s L spare Hv); [|apply evens_footprint].
    unfold legal_size. lia. }
  intros qs s' [-> Hv']. by rewrite reverse_involutive in Hv'.
Qed.

Lemma free_rest_wp s L :
  arena FRAG_HEAP s (every_other cells ++ L) spare → L ≡ₚ every_other (tail cells) →
  wp (_ ← @free_all alloc (my_heap FRAG_HEAP) (payload <$> every_other (tail cells));
      @free_all alloc (my_heap FRAG_HEAP) (payload <$> reverse (every_other cells)))
    (λ _ s', idle s') s.
Proof.
  intros Hv HL. apply wp_bind. eapply wp_mono.
  { apply (@free_some_wp alloc FRAG_HEAP _ heap (every_other (tail cells)) _ _ (every_other cells) _ Hv).
    by rewrite HL, Permutation_app_comm. }
  intros [] s' (L' & F' & HL' & Hv'). eapply wp_mono.
  { apply (@free_some_wp alloc FRAG_HEAP _ heap (reverse (every_other cells)) _ _ [] _ Hv').
    by rewrite app_nil_r, HL', reverse_Permutation. }
  intros [] s'' (L'' & F'' & HL'' & Hv''). apply Permutation_nil_r in HL''. subst L''.
  exact (arena_idle _ _ _ Hv'').
Qed.

(** The reports of [test_fragmentation], the two pointer arrays included. *)
Lemma test_fragmentation_wp junk s :
  region_ok base FRAG_HEAP → idle s →
  wp (test_fragmentation (true, true) (Some (base, junk))) (λ r s',
    r = (mkStats 514400 1 534176, mkStats 257200 51 791376, mkStats 514400 1 534176,
         payload <$> cells, reverse (every_other (payload <$> cells))) ∧
    idle s' ∧ heap_start s' = NULL) s.
Proof.
  intros Hr Hidle. unfold test_fragmentation. cbv zeta. cbn [negb fst snd].
  assert (HF : FRAG_HEAP ≤ int_max) by (unfold FRAG_HEAP, int_max; lia). apply wp_bind.
  eapply wp_mono; [apply (init_arena _ _ _ _ Hr); [unfold FRAG_HEAP; lia|done]|].
  intros [] s1 Hv. apply wp_bind. eapply wp_mono; [by apply fill_wp|]. intros ps s2 [-> Hv2].
  apply wp_bind. eapply wp_mono; [apply (arena_report _ _ _ _ Hv2 HF)|]. intros st1 ? [-> ->].
  apply wp_bind. rewrite evens_payload, odds_payload.
  eapply wp_mono; [by apply free_evens_wp|]. intros [] s3 (L3 & HL3 & Hv3).
  apply wp_bind. eapply wp_mono; [apply (arena_report _ _ _ _ Hv3 HF)|]. intros st2 ? [-> ->].
  apply wp_bind. eapply wp_mono; [by apply reuse_wp|]. intros qs s4 [-> Hv4].
  apply wp_bind. eapply wp_mono; [apply (arena_report _ _ _ _ Hv4 HF)|]. intros st3 ? [-> ->].
  apply wp_assoc. apply wp_bind. eapply wp_mono; [by eapply free_rest_wp|]. intros [] s5 Hi.
  apply wp_bind. eapply wp_mono; [by apply cleanup_idle|]. intros [] s6 [Hi' Hn]. apply wp_ret.
  split_and!; [|done..]. rewrite fmap_reverse, sizes_app, reverse_length_sizes. done.
Qed.

End fragmentation.

(** ** The whole benchmark *)

(** C7. The benchmark's [main], given aligned regions from the C library: no
    allocation of any test fails and no undefined behaviour occurs. The first
    two tests end with every byte free, in one free block more than there were
    operations: freed in the order of allocation, no two blocks are ever merged.
    The fragmentation test reports 100 blocks live, then half of them on a list
    of 51, then the same report as at first, the new blocks being the freed ones
    in reverse. *)
Theorem main_reports b1 b2 b3 junk1 junk2 junk3 rands1 rands2 :
  region_ok b1 RANDOM_HEAP → region_ok b2 RANDOM_HEAP → region_ok b3 FRAG_HEAP →
  Forall (λ r, 0 ≤ r) rands1 → Forall (λ r, 0 ≤ r) rands2 →
  2 ≤ Z.of_nat (length rands1) ≤ 10000 → 2 ≤ Z.of_nat (length rands2) ≤ 10000 →
  ∃ s, main (Some (b1, junk1)) (Some (b2, junk2)) (Some (b3, junk3)) rands1 rands2 initial = Done
    ((mkStats 0 (Z.of_nat (length rands1) + 1) RANDOM_HEAP,
      mkStats 0 (Z.of_nat (length rands2) + 1) RANDOM_HEAP,
      (mkStats 514400 1 534176, mkStats 257200 51 791376, mkStats 514400 1 534176,
       payload <$> cells b3, reverse (every_other (payload <$> cells b3)))), s) ∧
    heap_start s = NULL.
Proof.
  intros Hb1 Hb2 Hb3 Hr1 Hr2 Hn1 Hn2.
  assert (Hwp : wp (main (Some (b1, junk1)) (Some (b2, junk2)) (Some (b3, junk3)) rands1 rands2)
    (λ r s, r = (mkStats 0 (Z.of_nat (length rands1) + 1) RANDOM_HEAP,
      mkStats 0 (Z.of_nat (length rands2) + 1) RANDOM_HEAP,
      (mkStats 514400 1 534176, mkStats 257200 51 791376, mkStats 514400 1 534176,
       payload <$> cells b3, reverse (every_other (payload <$> cells b3)))) ∧ heap_start s = NULL) initial).
  { unfold main. apply wp_bind. eapply wp_mono; [by apply test_pattern_wp|]. intros st1 s1 (-> & Hi1 & _).
    apply wp_bind. eapply wp_mono; [by apply test_pattern_wp|]. intros st2 s2 (-> & Hi2 & _).
    apply wp_bind. eapply wp_mono; [by apply test_fragmentation_wp|]. intros r s3 (-> & _ & Hn).
    by apply wp_ret. }
  apply (proj1 (wp_run _ _ _)) in Hwp as (r & s & E & -> & Hn). exists s. split; [exact E|exact Hn].
Qed.

Lemma main_reports_witness :
  ∃ s, main (Some (4096, λ _, 0)) (Some (8192, λ _, 5)) (Some (4096, λ _, 7)) [1; 255; 77] [2; 2] initial = Done
    ((mkStats 0 (Z.of_nat (length [1; 255; 77]) + 1) RANDOM_HEAP,
      mkStats 0 (Z.of_nat (length [2; 2]) + 1) RANDOM_HEAP,
      (mkStats 514400 1 534176, mkStats 257200 51 791376, mkStats 514400 1 534176,
       payload <$> cells 4096, reverse (every_other (payload <$> cells 4096)))), s) ∧
    heap_start s = NULL.
Proof.
  apply (main_reports 4096 8192 4096 (λ _, 0) (λ _, 5) (λ _, 7) [1; 255; 77] [2; 2]).
  1-3: unfold region_ok, RANDOM_HEAP, FRAG_HEAP; split_and!; [lia|reflexivity|lia].
  1-2: repeat constructor; lia.
  all: simpl; lia.
Defined.
