(* ===== verification/LruCache.v ===== *)
(** The LRU cache: [06_storage/lru_cache/lru_cache.c].

    Nodes live in a heap of their own; [next] is one field, used by the source
    both for the recency list and for the hash chains.  A node that was freed
    is absent from the heap, and touching it is a fault. *)
From S2P Require Import Prelude.

Module LRU.

Definition HASH_TABLE_SIZE : Z := 1024.

Record node : Type := mkNode { key : Z; value : Z; prev : Z; next : Z }.

(** [struct lru_cache], and the heap its pointers point into. *)
Record cache : Type := mkCache {
  head : Z;
  tail : Z;
  max_size : Z;
  current_size : Z;
  table : list Z;
  hits : Z;
  misses : Z;
  evictions : Z;
  nodes : gmap Z node;
}.

(** ** Field updates *)
Definition set_value (v : Z) (n : node) : node := mkNode (key n) v (prev n) (next n).
Definition set_prev (p : Z) (n : node) : node := mkNode (key n) (value n) p (next n).
Definition set_next (p : Z) (n : node) : node := mkNode (key n) (value n) (prev n) p.

Definition set_head (p : Z) (c : cache) : cache :=
  mkCache p (tail c) (max_size c) (current_size c) (table c) (hits c) (misses c) (evictions c) (nodes c).
Definition set_tail (p : Z) (c : cache) : cache :=
  mkCache (head c) p (max_size c) (current_size c) (table c) (hits c) (misses c) (evictions c) (nodes c).
Definition set_size (n : Z) (c : cache) : cache :=
  mkCache (head c) (tail c) (max_size c) n (table c) (hits c) (misses c) (evictions c) (nodes c).
Definition set_table (t : list Z) (c : cache) : cache :=
  mkCache (head c) (tail c) (max_size c) (current_size c) t (hits c) (misses c) (evictions c) (nodes c).
Definition set_hits (n : Z) (c : cache) : cache :=
  mkCache (head c) (tail c) (max_size c) (current_size c) (table c) n (misses c) (evictions c) (nodes c).
Definition set_misses (n : Z) (c : cache) : cache :=
  mkCache (head c) (tail c) (max_size c) (current_size c) (table c) (hits c) n (evictions c) (nodes c).
Definition set_evictions (n : Z) (c : cache) : cache :=
  mkCache (head c) (tail c) (max_size c) (current_size c) (table c) (hits c) (misses c) n (nodes c).
Definition set_nodes (m : gmap Z node) (c : cache) : cache :=
  mkCache (head c) (tail c) (max_size c) (current_size c) (table c) (hits c) (misses c) (evictions c) m.

(** ** Accesses through pointers *)
Definition read (p : Z) : ST cache node := λ c,
  if p =? NULL then Fault NullDeref else
  match nodes c !! p with Some n => Done (n, c) | None => Fault UseAfterFree end.

Definition write (p : Z) (f : node → node) : ST cache unit :=
  n ← read p; st_modify (λ c, set_nodes (<[p := f n]> (nodes c)) c).

Definition free (p : Z) : ST cache unit :=
  if p =? NULL then mret tt else
  _ ← read p; st_modify (λ c, set_nodes (delete p (nodes c)) c).

(** [table[h]] for an [int] index [h]. *)
Definition read_table (h : Z) : ST cache Z := λ c,
  if h <? 0 then Fault OutOfBounds else
  match table c !! Z.to_nat h with Some p => Done (p, c) | None => Fault OutOfBounds end.

Definition write_table (h p : Z) : ST cache unit :=
  _ ← read_table h; st_modify (λ c, set_table (<[Z.to_nat h := p]> (table c)) c).

(** [cache->f++] on an [int] field. *)
Definition bump (get : cache → Z) (set : Z → cache → cache) (d : Z) : ST cache unit :=
  c ← st_get; n ← st_lift (int_result (get c + d)); st_modify (set n).

(** ** The static helpers *)

(** C's [%] truncates towards zero. *)
Definition hash_key (k : Z) : Z := Z.rem k HASH_TABLE_SIZE.

Fixpoint find_loop (fuel : nat) (k p : Z) : ST cache Z :=
  match fuel with
  | O => st_nofuel
  | S fuel =>
      if p =? NULL then mret NULL else
      n ← read p;
      if key n =? k then mret p else find_loop fuel k (next n)
  end.

Definition find_node (fuel : nat) (k : Z) : ST cache Z :=
  p ← read_table (hash_key k); find_loop fuel k p.

Definition move_to_front (p : Z) : ST cache unit :=
  n ← read p;
  if prev n =? NULL then mret tt else
  _ ← write (prev n) (set_next (next n));
  n ← read p;
  _ ← (if negb (next n =? NULL) then write (next n) (set_prev (prev n))
       else st_modify (set_tail (prev n)));
  _ ← write p (set_prev NULL);
  c ← st_get;
  _ ← write p (set_next (head c));
  _ ← (if negb (head c =? NULL) then write (head c) (set_prev p) else mret tt);
  _ ← st_modify (set_head p);
  c ← st_get;
  if tail c =? NULL then st_modify (set_tail p) else mret tt.

(** [while (node && node->next != victim) node = node->next;] *)
Fixpoint pred_loop (fuel : nat) (victim p : Z) : ST cache Z :=
  match fuel with
  | O => st_nofuel
  | S fuel =>
      if p =? NULL then mret NULL else
      n ← read p;
      if next n =? victim then mret p else pred_loop fuel victim (next n)
  end.

(** The removal of the victim from its hash chain. *)
Definition unchain (fuel : nat) (victim : Z) : ST cache unit :=
  v ← read victim;
  let hash := hash_key (key v) in
  p ← read_table hash;
  if p =? victim then
    n ← read p; write_table hash (next n)
  else
    q ← pred_loop fuel victim p;
    if negb (q =? NULL) then
      v ← read victim; write q (set_next (next v))
    else mret tt.

Definition evict_lru (fuel : nat) : ST cache unit :=
  c ← st_get;
  if tail c =? NULL then mret tt else
  let victim := tail c in
  v ← read victim;
  _ ← (if negb (prev v =? NULL) then write (prev v) (set_next NULL)
       else st_modify (set_head NULL));
  v ← read victim;
  _ ← st_modify (set_tail (prev v));
  _ ← unchain fuel victim;
  _ ← bump current_size set_size (-1);
  _ ← bump evictions set_evictions 1;
  free victim.

(** ** The interface.  [NULL] cache arguments are answered before the lock is
    taken; every other call runs under [cache->lock]. *)

Definition empty_table : list Z := replicate (Z.to_nat HASH_TABLE_SIZE) NULL.

(** [cache_mem], [table_mem]: whether the two [malloc]s succeed; [mutex_rc]:
    what [pthread_mutex_init] returns. *)
Definition lru_cache_create (cache_mem table_mem : bool) (mutex_rc max : Z) : option cache :=
  if max <=? 0 then None else
  if negb cache_mem then None else
  if negb table_mem then None else
  if negb (mutex_rc =? 0) then None else
  Some (mkCache NULL NULL max 0 empty_table 0 0 0 ∅).

Definition lru_cache_get (fuel : nat) (k : Z) : ST cache Z :=
  p ← find_node fuel k;
  if p =? NULL then
    _ ← bump misses set_misses 1; mret NULL
  else
    _ ← move_to_front p;
    _ ← bump hits set_hits 1;
    n ← read p; mret (value n).

(** The new node linked in at both ends of the code's two lists. *)
Definition insert_node (p k v : Z) : ST cache unit :=
  c ← st_get;
  _ ← st_modify (λ c, set_nodes (<[p := mkNode k v NULL (head c)]> (nodes c)) c);
  _ ← (if negb (head c =? NULL) then write (head c) (set_prev p) else mret tt);
  _ ← st_modify (set_head p);
  c ← st_get;
  _ ← (if tail c =? NULL then st_modify (set_tail p) else mret tt);
  let hash := hash_key k in
  q ← read_table hash;
  _ ← write p (set_next q);
  write_table hash p.

(** [alloc] is the C library's [malloc]: from the nodes in use, NULL or the
    address of a new one. *)
Definition lru_cache_put (alloc : gmap Z node → option Z) (fuel : nat) (k v : Z) : ST cache Z :=
  existing ← find_node fuel k;
  if negb (existing =? NULL) then
    _ ← write existing (set_value v);
    _ ← move_to_front existing;
    mret 0
  else
    c ← st_get;
    match alloc (nodes c) with
    | None => mret (-1)
    | Some p =>
        _ ← insert_node p k v;
        _ ← bump current_size set_size 1;
        c ← st_get;
        _ ← (if max_size c <? current_size c then evict_lru fuel else mret tt);
        mret 0
    end.

Fixpoint clear_loop (fuel : nat) (p : Z) : ST cache unit :=
  match fuel with
  | O => st_nofuel
  | S fuel =>
      if p =? NULL then mret tt else
      n ← read p;
      _ ← free p;
      clear_loop fuel (next n)
  end.

Definition lru_cache_clear (fuel : nat) : ST cache unit :=
  c ← st_get;
  _ ← clear_loop fuel (head c);
  _ ← st_modify (set_table empty_table);
  _ ← st_modify (set_head NULL);
  _ ← st_modify (set_tail NULL);
  st_modify (set_size 0).

Definition lru_cache_stats : ST cache (Z * Z * Z) :=
  c ← st_get; mret (hits c, misses c, evictions c).

(** What is left of the heap when the cache is gone. *)
Definition lru_cache_destroy (fuel : nat) (c : cache) : outcome (gmap Z node) :=
  match lru_cache_clear fuel c with
  | Done (_, c') => Done (nodes c')
  | Fault e => Fault e
  | NoFuel => NoFuel
  end.

(** ** Client calls *)
Inductive call : Type := CGet (k : Z) | CPut (k v : Z).

Definition run_call (alloc : gmap Z node → option Z) (fuel : nat) (c : call) : ST cache Z :=
  match c with
  | CGet k => lru_cache_get fuel k
  | CPut k v => lru_cache_put alloc fuel k v
  end.

Fixpoint run_calls (alloc : gmap Z node → option Z) (fuel : nat) (cs : list call)
  : ST cache (list Z) :=
  match cs with
  | [] => mret []
  | c :: cs => r ← run_call alloc fuel c; rs ← run_calls alloc fuel cs; mret (r :: rs)
  end.

End LRU.
