(* ===== verification/LruRefine.v ===== *)
(** The LRU cache against its contract: the abstract cache, the
    representation invariant that relates it to nodes and pointers, and the
    lemmas on the two kinds of chain the nodes are threaded on. *)
From S2P Require Import Prelude LruCache.
Import LRU.

(** ** The contract: entries, most recently used first *)
Module LruSpec.

Abbreviation entries := (list (Z * Z)).

Fixpoint assoc (k : Z) (l : entries) : option Z :=
  match l with
  | [] => None
  | (k', v) :: l => if decide (k' = k) then Some v else assoc k l
  end.

Definition forget (k : Z) (l : entries) : entries := filter (λ e, e.1 ≠ k) l.

Record state : Type := mkState {
  items : entries;
  n_hits : Z;
  n_misses : Z;
  n_evictions : Z;
}.

Definition get (k : Z) (s : state) : Z * state :=
  match assoc k (items s) with
  | Some v =>
      (v, mkState ((k, v) :: forget k (items s)) (n_hits s + 1) (n_misses s) (n_evictions s))
  | None => (NULL, mkState (items s) (n_hits s) (n_misses s + 1) (n_evictions s))
  end.

Definition put (cap : nat) (k v : Z) (s : state) : state :=
  let l := (k, v) :: forget k (items s) in
  mkState (take cap l) (n_hits s) (n_misses s)
    (n_evictions s + if decide (cap < length l)%nat then 1 else 0).

Definition step (cap : nat) (c : call) (s : state) : Z * state :=
  match c with
  | CGet k => get k s
  | CPut k v => (0, put cap k v s)
  end.

Fixpoint steps (cap : nat) (cs : list call) (s : state) : list Z * state :=
  match cs with
  | [] => ([], s)
  | c :: cs =>
      let '(r, s1) := step cap c s in
      let '(rs, s2) := steps cap cs s1 in (r :: rs, s2)
  end.

Definition call_key (c : call) : Z := match c with CGet k => k | CPut k _ => k end.

(** The calls that never move an entry: the key is new, or the most recently
    used one. *)
Definition still (c : call) (s : state) : Prop :=
  0 ≤ call_key c ∧
  (assoc (call_key c) (items s) = None ∨ fst <$> hd_error (items s) = Some (call_key c)).
#[export] Instance still_dec c s : Decision (still c s) := _.

Fixpoint all_still (cap : nat) (cs : list call) (s : state) : Prop :=
  match cs with [] => True | c :: cs => still c s ∧ all_still cap cs (step cap c s).2 end.
#[export] Instance all_still_dec cap cs s : Decision (all_still cap cs s).
Proof. revert s. induction cs; intros s; simpl; apply _. Defined.

End LruSpec.

(** ** Representation *)
Record entry : Type := Entry { e_addr : Z; e_key : Z; e_val : Z }.

#[export] Instance entry_eq_dec : EqDecision entry.
Proof. solve_decision. Defined.

Definition bucket (e : entry) : Z := e_key e mod HASH_TABLE_SIZE.
Definition view (es : list entry) : list (Z * Z) := (λ e, (e_key e, e_val e)) <$> es.

Definition first_addr (es : list entry) : Z :=
  match es with [] => NULL | e :: _ => e_addr e end.
Definition last_addr (es : list entry) : Z :=
  match last es with Some e => e_addr e | None => NULL end.

(** The first entry of bucket [b], and the entry with key [k]. *)
Fixpoint first_in (b : Z) (es : list entry) : Z :=
  match es with
  | [] => NULL
  | e :: es => if decide (bucket e = b) then e_addr e else first_in b es
  end.
Fixpoint addr_of (k : Z) (es : list entry) : Z :=
  match es with
  | [] => NULL
  | e :: es => if decide (e_key e = k) then e_addr e else addr_of k es
  end.

(** [prev] points to the entry used just before; [next] to the next older
    entry of the same bucket. *)
Definition linked (m : gmap Z node) (es : list entry) : Prop :=
  ∀ l1 e l2, es = l1 ++ e :: l2 →
    m !! e_addr e = Some (mkNode (e_key e) (e_val e) (last_addr l1) (first_in (bucket e) l2)).

(** The part of [linked] that the hash chains need. *)
Fixpoint chained (m : gmap Z node) (es : list entry) : Prop :=
  match es with
  | [] => True
  | e :: es =>
      (∃ v p, m !! e_addr e = Some (mkNode (e_key e) v p (first_in (bucket e) es))) ∧
      chained m es
  end.

Definition addrs (es : list entry) : list Z := e_addr <$> es.

Record shape (c : cache) (es : list entry) : Prop := {
  sh_nodes : linked (nodes c) es;
  sh_addrs : NoDup (NULL :: addrs es);
  sh_keys : NoDup (e_key <$> es);
  sh_nonneg : Forall (λ e, 0 ≤ e_key e) es;
  sh_head : head c = first_addr es;
  sh_tail : tail c = last_addr es;
  sh_table_length : length (table c) = Z.to_nat HASH_TABLE_SIZE;
  sh_table : ∀ b, 0 ≤ b < HASH_TABLE_SIZE → table c !! Z.to_nat b = Some (first_in b es);
  sh_size : current_size c = Z.of_nat (length es);
}.

Record cache_ok (c : cache) (es : list entry) : Prop := {
  ok_shape : shape c es;
  ok_cap : 1 ≤ max_size c < int_max;
  ok_len : Z.of_nat (length es) ≤ max_size c;
}.

(** ** First entries of a bucket *)

Lemma first_in_elem b es : first_in b es ∈ NULL :: addrs es.
Proof.
  induction es as [|e es IH]; [constructor|]. unfold addrs. rewrite fmap_cons. simpl. case_decide.
  - apply list_elem_of_further. constructor.
  - apply elem_of_cons in IH as [->|IH]; [constructor|]. do 2 apply list_elem_of_further. exact IH.
Qed.

Lemma first_in_null b es :
  NULL ∉ addrs es → first_in b es = NULL ↔ ∀ e, e ∈ es → bucket e ≠ b.
Proof.
  induction es as [|e es IH]; intros Hn; simpl; [set_solver|].
  apply not_elem_of_cons in Hn as [Hn1 Hn2]. case_decide.
  - split; [naive_solver|]. intros H'. exfalso. apply (H' e); [constructor|done].
  - rewrite IH by done. setoid_rewrite elem_of_cons. naive_solver.
Qed.

Lemma first_in_snoc b es v :
  NULL ∉ addrs es →
  first_in b (es ++ [v]) =
    if decide (first_in b es = NULL) then (if decide (bucket v = b) then e_addr v else NULL)
    else first_in b es.
Proof.
  intros Hn. induction es as [|e es IH]; simpl; [done|].
  apply not_elem_of_cons in Hn as [Hn1 Hn2].
  destruct (decide (bucket e = b)); [by rewrite decide_False|by apply IH].
Qed.

Lemma last_addr_snoc es v : last_addr (es ++ [v]) = e_addr v.
Proof. unfold last_addr. by rewrite last_snoc. Qed.

Lemma last_addr_cons e es : last_addr (e :: es) = if decide (es = []) then e_addr e else last_addr es.
Proof.
  unfold last_addr. destruct es as [|e' es]; [done|]. rewrite decide_False by done.
  by rewrite last_cons_cons.
Qed.

Lemma nodup_null es : NoDup (NULL :: addrs es) → NULL ∉ addrs es.
Proof. by intros [? _]%NoDup_cons. Qed.

Lemma shape_null c es : shape c es → NULL ∉ addrs es.
Proof. intros Hs. apply nodup_null, (sh_addrs _ _ Hs). Qed.

Lemma addr_of_null k es : NULL ∉ addrs es → addr_of k es = NULL ↔ k ∉ e_key <$> es.
Proof.
  induction es as [|e es IH]; intros Hn; simpl; [set_solver|].
  apply not_elem_of_cons in Hn as [Hn1 Hn2]. rewrite not_elem_of_cons. case_decide.
  - split; [congruence|]. intros [? _]. congruence.
  - rewrite IH by done. naive_solver.
Qed.

Lemma linked_chained m es : linked m es → chained m es.
Proof.
  cut (∀ l1, linked m (l1 ++ es) → chained m es); [intros H; apply (H [])|].
  induction es as [|e es IH]; intros l1 Hl; simpl; [done|]. split.
  - eauto.
  - apply (IH (l1 ++ [e])). by rewrite <- app_assoc.
Qed.

Lemma linked_elem m es e : linked m es → e ∈ es → ∃ n, m !! e_addr e = Some n.
Proof. intros Hl (l1 & l2 & ->)%list_elem_of_split. eauto. Qed.

(** ** Rules for the node accesses *)

Lemma wp_read p n (Q : node → cache → Prop) c :
  p ≠ NULL → nodes c !! p = Some n → Q n c → wp (read p) Q c.
Proof. intros Hp Hn HQ. unfold wp, read. rewrite (proj2 (Z.eqb_neq p NULL)) by done. by rewrite Hn. Qed.

Lemma wp_write p f n (Q : unit → cache → Prop) c :
  p ≠ NULL → nodes c !! p = Some n → Q tt (set_nodes (<[p := f n]> (nodes c)) c) →
  wp (write p f) Q c.
Proof. intros Hp Hn HQ. unfold write. wp_step. by apply (wp_read _ n). Qed.

Lemma wp_bump get set d (Q : unit → cache → Prop) c :
  is_int (get c + d) → Q tt (set (get c + d) c) → wp (bump get set d) Q c.
Proof.
  intros Hi HQ. unfold bump. do 3 wp_step. unfold int_result.
  eapply wp_lift; [by rewrite bool_decide_true|]. by wp_step.
Qed.

Lemma wp_read_table h p (Q : Z → cache → Prop) c :
  0 ≤ h → table c !! Z.to_nat h = Some p → Q p c → wp (read_table h) Q c.
Proof.
  intros Hh Hp HQ. unfold wp, read_table. rewrite (proj2 (Z.ltb_ge h 0)) by done. by rewrite Hp.
Qed.

Lemma hash_key_nonneg k : 0 ≤ k → hash_key k = k mod HASH_TABLE_SIZE.
Proof. intros Hk. unfold hash_key. by rewrite Z.rem_mod_nonneg. Qed.

Lemma bucket_range k : 0 ≤ k mod HASH_TABLE_SIZE < HASH_TABLE_SIZE.
Proof. by apply Z.mod_pos_bound. Qed.

(** ** Walking a hash chain *)

Lemma find_loop_ok k es : ∀ fuel c,
  chained (nodes c) es → NULL ∉ addrs es → (length es < fuel)%nat →
  find_loop fuel k (first_in (k mod HASH_TABLE_SIZE) es) c = Done (addr_of k es, c).
Proof.
  induction es as [|e es IH]; intros fuel c Hch Hn Hf;
    (destruct fuel as [|fuel]; [simpl in Hf; lia|]); [done|].
  destruct Hch as [(v & p & He) Hch]. apply not_elem_of_cons in Hn as [Hne Hn].
  simpl in Hf. cbn [first_in addr_of].
  destruct (decide (bucket e = k mod HASH_TABLE_SIZE)) as [Hb|Hb].
  - cbn [find_loop]. unfold mbind, st_bind, read.
    rewrite !(proj2 (Z.eqb_neq (e_addr e) NULL)) by congruence. rewrite He.
    change (key (mkNode (e_key e) v p _)) with (e_key e).
    destruct (decide (e_key e = k)) as [->|Hk]; [by rewrite Z.eqb_refl|].
    rewrite (proj2 (Z.eqb_neq _ k) Hk). rewrite <- (IH fuel c) by (done || lia). by rewrite Hb.
  - rewrite decide_False by (unfold bucket in Hb; congruence). apply IH; [done..|lia].
Qed.

Lemma find_node_ok fuel k c es :
  0 ≤ k → chained (nodes c) es → NULL ∉ addrs es →
  table c !! Z.to_nat (k mod HASH_TABLE_SIZE) = Some (first_in (k mod HASH_TABLE_SIZE) es) →
  (length es < fuel)%nat →
  find_node fuel k c = Done (addr_of k es, c).
Proof.
  intros Hk Hch Hn Ht Hf. unfold find_node. rewrite hash_key_nonneg by done.
  unfold mbind, st_bind, read_table. pose proof (bucket_range k).
  cmp_step. rewrite Ht. by apply find_loop_ok.
Qed.

Lemma shape_find fuel k c es :
  shape c es → 0 ≤ k → (length es < fuel)%nat → find_node fuel k c = Done (addr_of k es, c).
Proof.
  intros Hs Hk Hf. apply find_node_ok; [done|..|done].
  - apply linked_chained, (sh_nodes _ _ Hs).
  - by eapply shape_null.
  - apply (sh_table _ _ Hs), bucket_range.
Qed.

(** The predecessor search: nobody points to the victim ... *)
Lemma pred_loop_none victim b es : ∀ fuel c,
  chained (nodes c) es → victim ∉ NULL :: addrs es → NULL ∉ addrs es → (length es < fuel)%nat →
  pred_loop fuel victim (first_in b es) c = Done (NULL, c).
Proof.
  induction es as [|e es IH]; intros fuel c Hch Hv Hn Hf;
    (destruct fuel as [|fuel]; [simpl in Hf; lia|]); [done|].
  destruct Hch as [(v & p & He) Hch]. apply not_elem_of_cons in Hn as [Hne Hn].
  assert (Hv' : victim ∉ NULL :: addrs es).
  { rewrite not_elem_of_cons in Hv |- *. destruct Hv as [? Hv].
    apply not_elem_of_cons in Hv as [_ ?]. done. }
  simpl in Hf. cbn [first_in]. destruct (decide (bucket e = b)) as [Hb|Hb]; [|apply IH; done || lia].
  cbn [pred_loop]. unfold mbind, st_bind, read.
  rewrite !(proj2 (Z.eqb_neq (e_addr e) NULL)) by congruence. rewrite He.
  change (next (mkNode (e_key e) v p (first_in (bucket e) es))) with (first_in (bucket e) es).
  rewrite (proj2 (Z.eqb_neq _ victim)) by (intros <-; apply Hv', first_in_elem).
  rewrite Hb. apply IH; done || lia.
Qed.

(** ... or the last entry of its bucket before it does. *)
Lemma pred_loop_some v es : ∀ fuel c,
  chained (nodes c) (es ++ [v]) → NoDup (NULL :: addrs (es ++ [v])) →
  first_in (bucket v) es ≠ NULL → (length es < fuel)%nat →
  ∃ l1 q l2, es = l1 ++ q :: l2 ∧ bucket q = bucket v ∧ first_in (bucket v) l2 = NULL ∧
    pred_loop fuel (e_addr v) (first_in (bucket v) es) c = Done (e_addr q, c).
Proof.
  induction es as [|e es IH]; intros fuel c Hch Hnd Hb Hf; [done|].
  destruct fuel as [|fuel]; [simpl in Hf; lia|].
  destruct Hch as [(w & p & He) Hch]. simpl in Hnd. rewrite !NoDup_cons in Hnd.
  destruct Hnd as (Hnull & Hade & Hnd). apply not_elem_of_cons in Hnull as [Hne Hn].
  assert (Hne' : NULL ∉ addrs es) by (unfold addrs in *; rewrite fmap_app in Hn; set_solver).
  assert (Hnd' : NoDup (NULL :: addrs (es ++ [v]))) by by constructor.
  simpl in Hf. cbn [first_in] in *. destruct (decide (bucket e = bucket v)) as [Hbe|Hbe].
  - cbn [pred_loop]. unfold mbind, st_bind, read.
    rewrite !(proj2 (Z.eqb_neq (e_addr e) NULL)) by congruence. rewrite He.
    change (next (mkNode (e_key e) w p ?x)) with x. cbn [next].
    rewrite Hbe, first_in_snoc by done.
    destruct (decide (first_in (bucket v) es = NULL)) as [Hz|Hz].
    + rewrite decide_True, Z.eqb_refl by done. by exists [], e, es.
    + rewrite (proj2 (Z.eqb_neq _ (e_addr v))).
      * destruct (IH fuel c Hch Hnd' Hz ltac:(lia)) as (l1 & q & l2 & -> & ? & ? & ?).
        by exists (e :: l1), q, l2.
      * intros Heq. pose proof (first_in_elem (bucket v) es) as Hin. rewrite Heq in Hin.
        unfold addrs in Hnd'. rewrite fmap_app, app_comm_cons in Hnd'.
        apply NoDup_app in Hnd' as (_ & Hd & _). apply (Hd (e_addr v) Hin). constructor.
  - destruct (IH (S fuel) c Hch Hnd' Hb ltac:(lia)) as (l1 & q & l2 & -> & ? & ? & ?).
    by exists (e :: l1), q, l2.
Qed.

(** ** Dropping the least recently used entry *)

Lemma nodup_entries es : NoDup (NULL :: addrs es) → NoDup es.
Proof. intros [_ H]%NoDup_cons. by eapply NoDup_fmap_1. Qed.

Lemma addrs_app l1 l2 : addrs (l1 ++ l2) = addrs l1 ++ addrs l2.
Proof. apply fmap_app. Qed.

Lemma nodup_init es v : NoDup (NULL :: addrs (es ++ [v])) → NoDup (NULL :: addrs es).
Proof. rewrite addrs_app, app_comm_cons. by intros [? _]%NoDup_app. Qed.

Lemma linked_drop_none m es v :
  linked m (es ++ [v]) → NULL ∉ addrs es → first_in (bucket v) es = NULL → linked m es.
Proof.
  intros Hl Hn Hb l1 e l2 ->. rewrite (Hl l1 e (l2 ++ [v])) by by rewrite <- app_assoc.
  rewrite first_in_null in Hb by done.
  rewrite first_in_snoc by (rewrite addrs_app in Hn; set_solver).
  destruct (decide (first_in (bucket e) l2 = NULL)) as [->|]; [|done].
  rewrite decide_False; [done|]. intros Heq. apply (Hb e); [apply elem_of_middle|done].
Qed.

Lemma linked_drop_some m l1 q l2 v n :
  linked m ((l1 ++ q :: l2) ++ [v]) → NoDup (NULL :: addrs ((l1 ++ q :: l2) ++ [v])) →
  bucket q = bucket v → first_in (bucket v) l2 = NULL → m !! e_addr q = Some n →
  linked (<[e_addr q := set_next NULL n]> m) (l1 ++ q :: l2).
Proof.
  intros Hl Hnd Hq Hl2 Hn k1 e k2 Hs. pose proof (nodup_init _ _ Hnd) as Hnd'.
  pose proof (nodup_null _ Hnd') as Hnull. pose proof (nodup_entries _ Hnd') as Hnde.
  pose proof (Hl k1 e (k2 ++ [v]) ltac:(by rewrite Hs, <- app_assoc)) as He.
  destruct (decide (e = q)) as [->|Hne].
  - destruct (NoDup_split_unique q l1 k1 l2 k2 Hnde Hs) as [<- <-].
    rewrite Hn in He. injection He as ->. rewrite lookup_insert_eq.
    unfold set_next. simpl. by rewrite Hq, Hl2.
  - apply NoDup_cons in Hnd' as [_ Hnd']. rewrite lookup_insert_ne; cycle 1.
    { intros Heq. rewrite Hs in Hnd'. rewrite addrs_app in Hnd'. simpl in Hnd'.
      assert (Hin : q ∈ k1 ++ k2) by (eapply elem_of_middle_ne; [rewrite <- Hs; apply elem_of_middle|done]).
      rewrite <- Permutation_middle in Hnd'. apply NoDup_cons in Hnd' as [Hnd' _].
      apply Hnd'. rewrite <- Heq. apply elem_of_app.
      apply elem_of_app in Hin as [?|?]; [left|right]; by apply list_elem_of_fmap_2. }
    rewrite He. do 2 f_equal.
    assert (Hk2 : NULL ∉ addrs k2) by (rewrite Hs, addrs_app in Hnull; simpl in Hnull; set_solver).
    rewrite first_in_snoc by done.
    destruct (decide (first_in (bucket e) k2 = NULL)) as [Hz|]; [|done].
    rewrite decide_False; [done|]. intros Hev. rewrite <- Hev in *.
    assert (e ∈ l1 ++ l2) as [Hin|Hin]%elem_of_app
      by (eapply elem_of_middle_ne; [rewrite Hs; apply elem_of_middle|done]).
    + apply list_elem_of_split in Hin as (a & b & ->). rewrite <- app_assoc in Hs, Hnde. simpl in *.
      destruct (NoDup_split_unique e a k1 _ k2 Hnde Hs) as [_ <-].
      apply first_in_null with (e := q) in Hz; [by rewrite Hq in Hz|done|apply elem_of_middle].
    + apply first_in_null with (e := e) in Hl2; [done| |done].
      rewrite addrs_app in Hnull. simpl in Hnull. set_solver.
Qed.

(** The table after the last entry of bucket [b] left. *)
Lemma table_drop_last (t : list Z) es v :
  NULL ∉ addrs es → first_in (bucket v) es = NULL →
  length t = Z.to_nat HASH_TABLE_SIZE →
  (∀ b, 0 ≤ b < HASH_TABLE_SIZE → t !! Z.to_nat b = Some (first_in b (es ++ [v]))) →
  ∀ b, 0 ≤ b < HASH_TABLE_SIZE → <[Z.to_nat (bucket v) := NULL]> t !! Z.to_nat b = Some (first_in b es).
Proof.
  intros Hn Hb Hlen Ht b Hr. pose proof (bucket_range (e_key v)) as Hv. fold (bucket v) in Hv.
  destruct (decide (b = bucket v)) as [->|Hne].
  - rewrite list_lookup_insert_eq by lia. by rewrite Hb.
  - rewrite list_lookup_insert_ne by lia. rewrite Ht by done. rewrite first_in_snoc by done.
    rewrite (decide_False (P := bucket v = b)) by congruence.
    by destruct (decide (first_in b es = NULL)) as [->|].
Qed.

Lemma table_drop_other (t : list Z) es v :
  NULL ∉ addrs es → first_in (bucket v) es ≠ NULL →
  (∀ b, 0 ≤ b < HASH_TABLE_SIZE → t !! Z.to_nat b = Some (first_in b (es ++ [v]))) →
  ∀ b, 0 ≤ b < HASH_TABLE_SIZE → t !! Z.to_nat b = Some (first_in b es).
Proof.
  intros Hn Hb Ht b Hr. rewrite Ht by done. rewrite first_in_snoc by done.
  destruct (decide (first_in b es = NULL)) as [Hz|]; [|done].
  rewrite decide_False by congruence. by rewrite Hz.
Qed.

(** What [unchain] is given, and what it leaves. *)
Definition unchained (es : list entry) (v : entry) (c c' : cache) : Prop :=
  linked (nodes c') es ∧ length (table c') = Z.to_nat HASH_TABLE_SIZE ∧
  (∀ b, 0 ≤ b < HASH_TABLE_SIZE → table c' !! Z.to_nat b = Some (first_in b es)) ∧
  c' = set_table (table c') (set_nodes (nodes c') c) ∧
  (∀ x, x ∉ addrs es → nodes c' !! x = nodes c !! x).

Lemma elem_addrs e es : e ∈ es → e_addr e ∈ addrs es.
Proof. apply list_elem_of_fmap_2. Qed.

Lemma unchain_ok fuel v es c val p :
  NoDup (NULL :: addrs (es ++ [v])) → 0 ≤ e_key v → (length es < fuel)%nat →
  nodes c !! e_addr v = Some (mkNode (e_key v) val p NULL) →
  length (table c) = Z.to_nat HASH_TABLE_SIZE →
  (∀ b, 0 ≤ b < HASH_TABLE_SIZE → table c !! Z.to_nat b = Some (first_in b (es ++ [v]))) →
  linked (nodes c) (es ++ [v]) ∨ linked (nodes c) es ∧ first_in (bucket v) es ≠ NULL →
  wp (unchain fuel (e_addr v)) (λ _ c', unchained es v c c') c.
Proof.
  intros Hnd Hk Hf Hv Hlen Ht Hl. pose proof (nodup_null _ (nodup_init _ _ Hnd)) as Hn.
  assert (Hvn : e_addr v ∉ NULL :: addrs es).
  { rewrite addrs_app, app_comm_cons in Hnd. apply NoDup_app in Hnd as (_ & Hd & _).
    intros Hin. apply (Hd _ Hin). constructor. }
  assert (Hv0 : e_addr v ≠ NULL) by (apply not_elem_of_cons in Hvn; naive_solver).
  pose proof (bucket_range (e_key v)) as Hr. fold (bucket v) in Hr.
  unfold unchain. wp_step. eapply wp_read; [done..|]. simpl.
  rewrite hash_key_nonneg by done. fold (bucket v). wp_step.
  eapply wp_read_table; [lia|by apply Ht|].
  rewrite first_in_snoc, (decide_True (P := bucket v = bucket v)) by done.
  destruct (decide (first_in (bucket v) es = NULL)) as [Hz|Hz].
  - rewrite Z.eqb_refl. wp_step. eapply wp_read; [done..|]. simpl. unfold write_table. wp_step.
    eapply wp_read_table; [lia|by apply Ht|]. wp_step.
    destruct Hl as [Hl|[_ ?]]; [|done]. split_and!; simpl; [by eapply linked_drop_none|
      by rewrite length_insert|by apply table_drop_last|done|done].
  - rewrite (proj2 (Z.eqb_neq _ (e_addr v)))
      by (intros Heq; apply Hvn; rewrite <- Heq; apply first_in_elem). wp_step.
    pose proof (table_drop_other _ _ _ Hn Hz Ht) as Ht'. destruct Hl as [Hl|[Hl _]].
    + destruct (pred_loop_some v es fuel c (linked_chained _ _ Hl) Hnd Hz Hf)
        as (l1 & q & l2 & -> & Hq & Hl2 & E).
      assert (e_addr q ≠ NULL).
      { intros Heq. apply Hn. rewrite <- Heq. apply elem_addrs, elem_of_middle. }
      unfold wp at 1. rewrite E. rewrite (proj2 (Z.eqb_neq (e_addr q) NULL)) by done.
      simpl. wp_step. eapply wp_read; [done..|]. simpl.
      destruct (linked_elem _ _ q Hl) as [n Hqn].
      { apply elem_of_app. left. apply elem_of_middle. }
      eapply wp_write; [done..|].
      split_and!; simpl; [by eapply linked_drop_some|done..|].
      intros x Hx. apply lookup_insert_ne. intros <-. apply Hx, elem_addrs, elem_of_middle.
    + unfold wp at 1. rewrite (pred_loop_none _ _ es fuel c); [|by apply linked_chained|done..].
      simpl. split_and!; try done. by destruct c.
Qed.

(** [victim->prev->next = NULL]: it either cuts the victim's own hash chain or
    changes nothing. *)
Lemma linked_cut_prev m es p v n :
  linked m ((es ++ [p]) ++ [v]) → NoDup (NULL :: addrs ((es ++ [p]) ++ [v])) →
  m !! e_addr p = Some n →
  linked (<[e_addr p := set_next NULL n]> m) ((es ++ [p]) ++ [v]) ∨
  linked (<[e_addr p := set_next NULL n]> m) (es ++ [p]) ∧ first_in (bucket v) (es ++ [p]) ≠ NULL.
Proof.
  intros Hl Hnd Hn. destruct (decide (bucket p = bucket v)) as [Hb|Hb].
  - right. split; [by eapply (linked_drop_some m es p [])|].
    intros Hz. eapply first_in_null with (e := p) in Hz; [done|by eapply nodup_null, nodup_init|].
    apply elem_of_app. right. constructor.
  - left. pose proof (Hl es p [v] ltac:(by rewrite <- app_assoc)) as Hp. rewrite Hn in Hp.
    injection Hp as ->. rewrite insert_id; [done|]. rewrite Hn. unfold set_next. simpl.
    by rewrite decide_False by congruence.
Qed.

Lemma linked_last m es v :
  linked m (es ++ [v]) → m !! e_addr v = Some (mkNode (e_key v) (e_val v) (last_addr es) NULL).
Proof. intros Hl. by rewrite (Hl es v []). Qed.

Lemma linked_delete m es x : linked m es → x ∉ addrs es → linked (delete x m) es.
Proof.
  intros Hl Hx l1 e l2 Hs. rewrite lookup_delete_ne; [by apply Hl|].
  intros ->. apply Hx, elem_addrs. rewrite Hs. apply elem_of_middle.
Qed.

Lemma keys_init (es : list entry) v : NoDup (e_key <$> (es ++ [v])) → NoDup (e_key <$> es).
Proof. rewrite fmap_app. by intros [? _]%NoDup_app. Qed.

Lemma evict_lru_wp fuel es v c :
  shape c (es ++ [v]) → (length es < fuel)%nat → is_int (Z.of_nat (length es)) →
  is_int (evictions c + 1) →
  wp (evict_lru fuel) (λ _ c', shape c' es ∧ max_size c' = max_size c ∧ hits c' = hits c ∧
    misses c' = misses c ∧ evictions c' = evictions c + 1) c.
Proof.
  intros [Hl Hnd Hkeys Hpos Hh Htl Htlen Ht Hsz] Hf Hlen Hev.
  rewrite last_addr_snoc in Htl. pose proof (linked_last _ _ _ Hl) as Hv.
  pose proof (nodup_null _ (nodup_init _ _ Hnd)) as Hn.
  assert (Hvn : e_addr v ∉ NULL :: addrs es).
  { rewrite addrs_app, app_comm_cons in Hnd. apply NoDup_app in Hnd as (_ & Hd & _).
    intros Hin. apply (Hd _ Hin). constructor. }
  apply not_elem_of_cons in Hvn as [Hv0 Hvn].
  apply Forall_app in Hpos as [Hpos Hkv]. rewrite Forall_singleton in Hkv.
  rewrite length_app in Hsz. simpl in Hsz.
  unfold evict_lru. wp_step. wp_step. rewrite Htl, (proj2 (Z.eqb_neq _ NULL)) by done.
  wp_step. eapply wp_read; [done..|]. simpl. wp_step.
  (* after the recency list is unlinked *)
  eapply (wp_mono _ (λ _ c1, nodes c1 !! e_addr v = Some (mkNode (e_key v) (e_val v) (last_addr es) NULL)
    ∧ (linked (nodes c1) (es ++ [v]) ∨ linked (nodes c1) es ∧ first_in (bucket v) es ≠ NULL)
    ∧ head c1 = first_addr es ∧ c1 = set_head (head c1) (set_nodes (nodes c1) c))).
  { destruct es as [|p es _] using rev_ind; [|rewrite last_addr_snoc].
    { simpl. wp_step. split_and!; try done. by left. }
    assert (Hp0 : e_addr p ≠ NULL).
    { intros Heq. apply Hn. rewrite <- Heq. apply elem_addrs, elem_of_app. right. constructor. }
    rewrite (proj2 (Z.eqb_neq _ NULL)) by done. simpl.
    destruct (linked_elem _ _ p Hl) as [n Hpn].
    { apply elem_of_app. left. apply elem_of_app. right. constructor. }
    eapply wp_write; [done..|]. simpl. split_and!; [|by apply linked_cut_prev| |by destruct c].
    - rewrite lookup_insert_ne; [by rewrite Hv, last_addr_snoc|].
      intros Heq. apply Hvn. rewrite <- Heq. apply elem_addrs, elem_of_app. right. constructor.
    - rewrite Hh. by destruct es. }
  intros _ c1 (Hv1 & Hl1 & Hh1 & Hc1). wp_step. eapply wp_read; [done..|]. simpl. do 3 wp_step.
  eapply wp_mono.
  { apply (unchain_ok _ v es _ (e_val v) (last_addr es)); simpl; try done;
      by rewrite Hc1. }
  intros _ c2 (Hl2 & Htl2 & Ht2 & Hc2 & Hfr). rewrite Hc2, Hc1. wp_step.
  apply wp_bump; simpl; [by replace (current_size c + -1) with (Z.of_nat (length es)) by lia|].
  wp_step. apply wp_bump; simpl; [done|]. unfold free. rewrite (proj2 (Z.eqb_neq _ NULL)) by done.
  wp_step. eapply wp_read; simpl; [done|by rewrite Hfr|]. wp_step. split; [|done].
  split; simpl; try done; [by apply linked_delete|by eapply nodup_init|by eapply keys_init|lia].
Qed.

(** ** Putting a new entry in front *)

Lemma linked_push m m' es p k v :
  linked m es → p ∉ addrs es → NoDup (addrs es) →
  m' !! p = Some (mkNode k v NULL (first_in (k mod HASH_TABLE_SIZE) es)) →
  (∀ e, e ∈ es → m' !! e_addr e =
     (if decide (e_addr e = first_addr es) then set_prev p else id) <$> m !! e_addr e) →
  linked m' (Entry p k v :: es).
Proof.
  intros Hl Hp Hnd Hnew Hold l1 e l2 Hs. destruct l1 as [|e0 l1]; simplify_list_eq.
  { rewrite Hnew. done. }
  rewrite Hold by apply elem_of_middle. rewrite (Hl l1 e l2) by done. simpl.
  rewrite last_addr_cons. destruct l1 as [|e1 l1]; simpl.
  - rewrite decide_True by done. done.
  - rewrite decide_False; [done|]. intros Heq. rewrite addrs_app in Hnd. simpl in Hnd.
    apply NoDup_cons in Hnd as [Hnd _]. apply Hnd. rewrite <- Heq. apply elem_of_middle.
Qed.

Lemma table_push (t : list Z) es p k v :
  0 ≤ k → length t = Z.to_nat HASH_TABLE_SIZE →
  (∀ b, 0 ≤ b < HASH_TABLE_SIZE → t !! Z.to_nat b = Some (first_in b es)) →
  ∀ b, 0 ≤ b < HASH_TABLE_SIZE →
    <[Z.to_nat (k mod HASH_TABLE_SIZE) := p]> t !! Z.to_nat b = Some (first_in b (Entry p k v :: es)).
Proof.
  intros Hk Hlen Ht b Hb. pose proof (bucket_range k). simpl. unfold bucket. simpl.
  destruct (decide (k mod HASH_TABLE_SIZE = b)) as [<-|Hne].
  - by rewrite list_lookup_insert_eq by lia.
  - rewrite list_lookup_insert_ne by lia. by apply Ht.
Qed.

(** [if (cache->head) cache->head->prev = new_node;] *)
Lemma link_old_head_wp p n es c :
  linked (nodes c) es → head c = first_addr es → NULL ∉ addrs es → p ∉ addrs es →
  wp (if negb (head c =? NULL) then write (head c) (set_prev p) else mret tt)
    (λ _ c1, c1 = set_nodes (nodes c1) c ∧ nodes c1 !! p = Some n ∧
      ∀ e, e ∈ es → nodes c1 !! e_addr e =
        (if decide (e_addr e = first_addr es) then set_prev p else id) <$> nodes c !! e_addr e)
    (set_nodes (<[p := n]> (nodes c)) c).
Proof.
  intros Hl Hh Hn Hpa. rewrite Hh.
  assert (Hne : ∀ e, e ∈ es → p ≠ e_addr e) by (intros e He ->; by apply Hpa, elem_addrs).
  destruct es as [|e es]; simpl.
  { wp_step. split_and!; [done|apply lookup_insert_eq|intros ? []%elem_of_nil]. }
  assert (e_addr e ≠ NULL) by (apply not_elem_of_cons in Hn; naive_solver).
  rewrite (proj2 (Z.eqb_neq _ NULL)) by done. simpl.
  destruct (linked_elem _ _ e Hl ltac:(constructor)) as [n0 En].
  eapply wp_write; [done|simpl; rewrite lookup_insert_ne by (apply Hne; constructor); exact En|].
  simpl. split_and!; [done| |].
  - rewrite lookup_insert_ne by (apply not_eq_sym, Hne; constructor). apply lookup_insert_eq.
  - intros e' He'. destruct (decide (e_addr e' = e_addr e)) as [->|Hd].
    + by rewrite lookup_insert_eq, En.
    + rewrite !lookup_insert_ne by (done || by apply Hne). by rewrite option_fmap_id.
Qed.

(** [if (!cache->tail) cache->tail = new_node;] *)
Lemma set_first_tail_wp e es c :
  tail c = last_addr es → NULL ∉ addrs es →
  wp (if tail c =? NULL then st_modify (set_tail (e_addr e)) else mret tt)
    (λ _ c', c' = set_tail (last_addr (e :: es)) c) c.
Proof.
  intros Htl Hn. rewrite last_addr_cons, Htl. destruct es as [|e' es _] using rev_ind; simpl.
  - by wp_step.
  - rewrite last_addr_snoc, decide_False by (by destruct es).
    rewrite (proj2 (Z.eqb_neq _ NULL)).
    + wp_step. rewrite <- last_addr_snoc with (es := es), <- Htl. by destruct c.
    + intros Heq. apply Hn. rewrite <- Heq. apply elem_addrs, elem_of_app. right. constructor.
Qed.

(** Pointers and table of the cache with [Entry p k v] in front. *)
Lemma shape_push p k v es c c' :
  shape c es → 0 ≤ k → k ∉ e_key <$> es → p ≠ NULL → p ∉ addrs es →
  linked (nodes c') (Entry p k v :: es) → head c' = p → tail c' = last_addr (Entry p k v :: es) →
  table c' = <[Z.to_nat (k mod HASH_TABLE_SIZE) := p]> (table c) →
  current_size c' = Z.of_nat (S (length es)) → shape c' (Entry p k v :: es).
Proof.
  intros [Hl Hnd Hkeys Hpos Hh Htl Htlen Ht Hsz] Hk Hkey Hp0 Hpa Hl' Hh' Htl' Ht' Hsz'.
  split; try done.
  - change (addrs (Entry p k v :: es)) with (p :: addrs es).
    apply NoDup_cons in Hnd as [Hnd1 Hnd2]. rewrite !NoDup_cons, not_elem_of_cons. naive_solver.
  - by apply NoDup_cons.
  - by constructor.
  - by rewrite Ht', length_insert.
  - rewrite Ht'. by apply table_push.
Qed.

Lemma insert_node_wp p k v es c :
  shape c es → 0 ≤ k → k ∉ e_key <$> es → p ≠ NULL → nodes c !! p = None →
  wp (insert_node p k v) (λ _ c', ∀ n, n = Z.of_nat (S (length es)) →
      shape (set_size n c') (Entry p k v :: es) ∧
      max_size c' = max_size c ∧ hits c' = hits c ∧ misses c' = misses c ∧
      evictions c' = evictions c ∧ current_size c' = current_size c) c.
Proof.
  intros Hs Hk Hkey Hp0 Hp. pose proof (shape_null _ _ Hs) as Hn.
  pose proof Hs as [Hl Hnd _ _ Hh Htl _ Ht _].
  assert (Hpa : p ∉ addrs es).
  { intros (e & -> & He)%list_elem_of_fmap. destruct (linked_elem _ _ _ Hl He). congruence. }
  pose proof (bucket_range k) as Hr. unfold insert_node. do 5 wp_step.
  eapply wp_mono; [by apply link_old_head_wp|]. intros _ c1 (Hc1 & Hc1p & Hc1e). do 5 wp_step.
  eapply wp_mono; [apply (set_first_tail_wp (Entry p k v) es); [by rewrite Hc1|done]|].
  intros _ c2 ->. rewrite hash_key_nonneg by done. wp_step.
  eapply wp_read_table; [lia|rewrite Hc1; by apply Ht|]. wp_step.
  eapply wp_write; [done|simpl; exact Hc1p|]. unfold write_table. wp_step.
  eapply wp_read_table; [lia|simpl; rewrite Hc1; by apply Ht|]. wp_step. intros ? ->.
  rewrite Hc1. simpl. split; [|done]. apply (shape_push _ _ _ _ c); try done. simpl.
  eapply (linked_push (nodes c)); [done..|by apply NoDup_cons in Hnd as [_ ?]|
    apply lookup_insert_eq|].
  intros e He. rewrite lookup_insert_ne; [by apply Hc1e|]. intros ->. by apply Hpa, elem_addrs.
Qed.

(** ** Abstract and concrete lookups *)

Lemma assoc_none k es : LruSpec.assoc k (view es) = None ↔ k ∉ e_key <$> es.
Proof.
  induction es as [|e es IH]; simpl; [set_solver|]. case_decide; set_solver.
Qed.

Lemma forget_absent k es : k ∉ e_key <$> es → LruSpec.forget k (view es) = view es.
Proof.
  intros Hk. apply filter_id_on. intros x (e & -> & He)%list_elem_of_fmap. simpl.
  intros <-. by apply Hk, list_elem_of_fmap_2.
Qed.

Lemma forget_head e es :
  NoDup (e_key <$> (e :: es)) → LruSpec.forget (e_key e) (view (e :: es)) = view es.
Proof.
  intros [Hk _]%NoDup_cons. unfold LruSpec.forget, view.
  rewrite fmap_cons, filter_cons_False by (simpl; naive_solver). by apply forget_absent.
Qed.

(** The concrete cache represents the abstract one. *)
Definition refines (c : cache) (s : LruSpec.state) : Prop :=
  ∃ es, cache_ok c es ∧ view es = LruSpec.items s ∧ hits c = LruSpec.n_hits s ∧
    misses c = LruSpec.n_misses s ∧ evictions c = LruSpec.n_evictions s.

(** Room for [n] more increments of each statistic. *)
Definition counters_fit (n : Z) (c : cache) : Prop :=
  0 ≤ hits c ≤ int_max - n ∧ 0 ≤ misses c ≤ int_max - n ∧ 0 ≤ evictions c ≤ int_max - n.
#[export] Instance counters_fit_dec n c : Decision (counters_fit n c) := _.

(** What [malloc] promises: a new, non-null address. *)
Definition malloc_ok (alloc : gmap Z node → option Z) : Prop :=
  ∀ m, ∃ p, alloc m = Some p ∧ p ≠ NULL ∧ m !! p = None.

(** ** The two lookups of a still call *)

Lemma move_to_front_head e es c :
  shape c (e :: es) → move_to_front (e_addr e) c = Done (tt, c).
Proof.
  intros Hs. pose proof (shape_null _ _ Hs) as [Hn _]%not_elem_of_cons.
  pose proof (sh_nodes _ _ Hs [] e es eq_refl) as He.
  unfold move_to_front, mbind, st_bind, read. rewrite (proj2 (Z.eqb_neq _ NULL)) by congruence.
  by rewrite He.
Qed.

Lemma addr_of_head e es : addr_of (e_key e) (e :: es) = e_addr e.
Proof. simpl. by rewrite decide_True. Qed.

Lemma still_cases c s es :
  LruSpec.still c s → view es = LruSpec.items s →
  LruSpec.call_key c ∉ e_key <$> es ∨
  ∃ e es', es = e :: es' ∧ e_key e = LruSpec.call_key c.
Proof.
  intros [_ Hs] Hv. rewrite <- Hv in Hs. destruct Hs as [Hn|Hh]; [left; by apply assoc_none|right].
  destruct es as [|e es]; simplify_eq/=. eauto.
Qed.

(** ** [lru_cache_get] *)

Lemma shape_counters c c' es :
  shape c es → nodes c' = nodes c → head c' = head c → tail c' = tail c → table c' = table c →
  current_size c' = current_size c → shape c' es.
Proof. intros [] Hn Hh Ht Htb Hsz. split; rewrite ?Hn, ?Hh, ?Ht, ?Htb, ?Hsz; done. Qed.

Lemma get_absent_wp fuel k c es :
  shape c es → 0 ≤ k → k ∉ e_key <$> es → (length es < fuel)%nat → is_int (misses c + 1) →
  wp (lru_cache_get fuel k) (λ r c', r = NULL ∧ c' = set_misses (misses c + 1) c) c.
Proof.
  intros Hs Hk Hka Hf Hm. unfold lru_cache_get. wp_step. unfold wp at 1.
  rewrite (shape_find _ _ _ _ Hs Hk Hf), (proj2 (addr_of_null k es (shape_null _ _ Hs)) Hka).
  simpl. wp_step. apply wp_bump; [done|]. by wp_step.
Qed.

Lemma get_head_wp fuel e c es :
  shape c (e :: es) → (S (length es) < fuel)%nat → is_int (hits c + 1) →
  wp (lru_cache_get fuel (e_key e)) (λ r c', r = e_val e ∧ c' = set_hits (hits c + 1) c) c.
Proof.
  intros Hs Hf Hh. pose proof (sh_nonneg _ _ Hs) as [Hk _]%Forall_cons.
  pose proof (shape_null _ _ Hs) as [Hn _]%not_elem_of_cons.
  unfold lru_cache_get. wp_step. unfold wp at 1.
  rewrite (shape_find _ _ _ _ Hs Hk Hf), addr_of_head.
  rewrite (proj2 (Z.eqb_neq _ NULL)) by congruence. wp_step. unfold wp at 1.
  rewrite (move_to_front_head _ _ _ Hs). wp_step. apply wp_bump; [done|]. wp_step.
  eapply wp_read; [congruence|simpl; apply (sh_nodes _ _ Hs [] e es eq_refl)|]. by wp_step.
Qed.

(** ** [lru_cache_put] *)

Lemma linked_set_value m e es v :
  linked m (e :: es) → NoDup (addrs (e :: es)) →
  linked (<[e_addr e := mkNode (e_key e) v NULL (first_in (bucket e) es)]> m)
    (Entry (e_addr e) (e_key e) v :: es).
Proof.
  intros Hl [Hne Hnd]%NoDup_cons l1 x l2 Hs. destruct l1 as [|y l1]; simplify_list_eq.
  { by rewrite lookup_insert_eq. }
  rewrite lookup_insert_ne.
  - rewrite (Hl (e :: l1) x l2) by done. by destruct l1.
  - intros Heq. apply Hne. rewrite Heq. apply elem_addrs, elem_of_middle.
Qed.

Lemma put_head_wp alloc fuel e v c es :
  shape c (e :: es) → (S (length es) < fuel)%nat →
  wp (lru_cache_put alloc fuel (e_key e) v) (λ r c', r = 0 ∧
    shape c' (Entry (e_addr e) (e_key e) v :: es) ∧
    c' = set_nodes (nodes c') c) c.
Proof.
  intros Hs Hf. pose proof (sh_nonneg _ _ Hs) as [Hk _]%Forall_cons.
  pose proof (shape_null _ _ Hs) as [Hn _]%not_elem_of_cons.
  unfold lru_cache_put. wp_step. unfold wp at 1.
  rewrite (shape_find _ _ _ _ Hs Hk Hf), addr_of_head.
  rewrite (proj2 (Z.eqb_neq _ NULL)) by congruence. simpl. wp_step.
  pose proof (sh_nodes _ _ Hs [] e es eq_refl) as He.
  eapply wp_write; [congruence|exact He|]. wp_step.
  assert (Hs' : shape (set_nodes (<[e_addr e := mkNode (e_key e) v NULL (first_in (bucket e) es)]>
    (nodes c)) c) (Entry (e_addr e) (e_key e) v :: es)).
  { destruct Hs as [Hl Hnd Hkeys Hpos Hh Htl Htlen Ht Hsz]. split; simpl; try done.
    - apply linked_set_value; [done|by apply NoDup_cons in Hnd as [_ ?]].
    - by apply Forall_cons in Hpos as [? ?]; constructor.
    - rewrite Htl, !last_addr_cons. done. }
  unfold wp at 1. pose proof (move_to_front_head _ _ _ Hs') as E. simpl in E.
  unfold set_value. simpl. unfold last_addr. simpl. rewrite E. by wp_step.
Qed.

Lemma put_absent_wp alloc fuel k v c es :
  cache_ok c es → 0 ≤ k → k ∉ e_key <$> es → (S (length es) < fuel)%nat →
  malloc_ok alloc → is_int (evictions c + 1) →
  wp (lru_cache_put alloc fuel k v) (λ r c', r = 0 ∧ ∃ p,
    cache_ok c' (take (Z.to_nat (max_size c)) (Entry p k v :: es)) ∧
    hits c' = hits c ∧ misses c' = misses c ∧ max_size c' = max_size c ∧
    evictions c' = evictions c + if decide (Z.to_nat (max_size c) < S (length es))%nat then 1 else 0) c.
Proof.
  intros [Hs Hcap Hlen] Hk Hka Hf Hm Hev. unfold lru_cache_put. wp_step. unfold wp at 1.
  rewrite (shape_find fuel k c es Hs Hk ltac:(lia)), (proj2 (addr_of_null k es (shape_null _ _ Hs)) Hka).
  simpl. do 2 wp_step. destruct (Hm (nodes c)) as (p & -> & Hp0 & Hp). wp_step.
  eapply wp_mono; [by apply (insert_node_wp p k v es c)|].
  intros [] c1 Hc1. specialize (Hc1 _ eq_refl) as (Hs1 & Hmax & Hh & Hmi & He & Hsz). wp_step.
  rewrite (sh_size _ _ Hs) in Hsz.
  apply wp_bump; rewrite Hsz; [unfold is_int, int_min, int_max in *; lia|]. wp_step. wp_step.
  replace (Z.of_nat (length es) + 1) with (Z.of_nat (S (length es))) by lia.
  set (c2 := set_size _ c1) in *. wp_step.
  change (max_size c1) with (max_size c2) in Hmax. change (hits c1) with (hits c2) in Hh.
  change (misses c1) with (misses c2) in Hmi. change (evictions c1) with (evictions c2) in He.
  change (current_size c2) with (Z.of_nat (S (length es))). clearbody c2.
  rewrite Hmax. destruct (decide (Z.to_nat (max_size c) < S (length es))%nat) as [Hlt|Hge].
  - cmp_step.
    assert (length es = Z.to_nat (max_size c)) as Hl by lia. rewrite <- Hl.
    destruct (exists_last (l := Entry p k v :: es) ltac:(done)) as (es0 & w & Hes).
    assert (length es0 = length es) as Hl0.
    { apply (f_equal length) in Hes. rewrite length_app in Hes. simpl in Hes. lia. }
    rewrite Hes in Hs1. eapply wp_mono.
    { apply (evict_lru_wp fuel es0 w); [done|lia|unfold is_int, int_min, int_max in *; lia|].
      by rewrite He. }
    intros _ c' (Hs' & Hm' & Hh' & Hmi' & He'). wp_step. split; [done|]. exists p.
    rewrite Hes, <- Hl0, take_app_length. split; [split; [done|rewrite Hm', Hmax; lia..]|].
    split_and!; [by rewrite Hh'|by rewrite Hmi'|by rewrite Hm'|by rewrite He', <- He].
  - cmp_step. do 2 wp_step. split; [done|]. exists p.
    rewrite take_ge by (simpl; lia). split; [split; [done|rewrite Hmax; simpl; lia..]|].
    by rewrite Z.add_0_r.
Qed.

(** ** One still call *)

Lemma view_cons e es : view (e :: es) = (e_key e, e_val e) :: view es.
Proof. done. Qed.

Lemma cache_ok_len c es : cache_ok c es → (length es ≤ Z.to_nat (max_size c))%nat.
Proof. intros [_ ? ?]. lia. Qed.

Lemma get_refines alloc fuel k c s n :
  LruSpec.still (CGet k) s → refines c s → (S (Z.to_nat (max_size c)) < fuel)%nat →
  0 ≤ n → counters_fit (n + 1) c →
  wp (run_call alloc fuel (CGet k)) (λ r c',
    r = (LruSpec.get k s).1 ∧ refines c' (LruSpec.get k s).2 ∧ max_size c' = max_size c ∧
    counters_fit n c') c.
Proof.
  intros Hst (es & Hok & Hv & Hh & Hm & He) Hf Hn Hc. pose proof (cache_ok_len _ _ Hok).
  pose proof Hok as [Hs Hcap Hlen]. pose proof Hst as [Hk _]. simpl in Hk.
  unfold LruSpec.get. rewrite <- Hv.
  destruct (still_cases _ _ _ Hst Hv) as [Hka|(e & es' & -> & Hek)]; simpl in *.
  - rewrite (proj2 (assoc_none k es) Hka).
    eapply wp_mono; [apply (get_absent_wp fuel k c es); try done; [lia|];
      unfold counters_fit, is_int, int_min, int_max in *; lia|].
    intros r c' [-> ->]. split_and!; [done| |done|unfold counters_fit in *; simpl; lia].
    exists es. simpl. split_and!; try done; [|by rewrite Hm].
    by split; [apply (shape_counters c)|..].
  - subst k. unfold LruSpec.assoc. simpl. rewrite decide_True by done.
    eapply wp_mono; [apply (get_head_wp fuel e c es'); try done; [simpl in *; lia|];
      unfold counters_fit, is_int, int_min, int_max in *; lia|].
    intros r c' [-> ->]. split_and!; [done| |done|unfold counters_fit in *; simpl; lia].
    pose proof (forget_head e es' (sh_keys _ _ Hs)) as Hfg. rewrite view_cons in Hfg.
    exists (e :: es'). simpl. split_and!; try done; [|by rewrite Hfg|by rewrite Hh].
    by split; [apply (shape_counters c)|..].
Qed.

Lemma put_refines alloc fuel k v c s n :
  LruSpec.still (CPut k v) s → refines c s → (S (Z.to_nat (max_size c)) < fuel)%nat →
  0 ≤ n → counters_fit (n + 1) c → malloc_ok alloc →
  wp (run_call alloc fuel (CPut k v)) (λ r c',
    r = 0 ∧ refines c' (LruSpec.put (Z.to_nat (max_size c)) k v s) ∧ max_size c' = max_size c ∧
    counters_fit n c') c.
Proof.
  intros Hst (es & Hok & Hv & Hh & Hm & He) Hf Hn Hc Hal. pose proof (cache_ok_len _ _ Hok).
  pose proof Hok as [Hs Hcap Hlen]. pose proof Hst as [Hk _]. simpl in Hk.
  unfold LruSpec.put. rewrite <- Hv.
  destruct (still_cases _ _ _ Hst Hv) as [Hka|(e & es' & -> & Hek)]; simpl run_call; simpl in Hek || simpl in Hka.
  - rewrite forget_absent by done. change ((k, v) :: view es) with (view (Entry NULL k v :: es)).
    eapply wp_mono; [apply (put_absent_wp alloc fuel k v c es); try done; [lia|];
      unfold counters_fit, is_int, int_min, int_max in *; lia|].
    intros r c' (-> & p & Hok' & Hh' & Hm' & Hx & He').
    assert (length (view (Entry NULL k v :: es)) = S (length es)) as Hlv
      by (simpl; unfold view; by rewrite length_fmap).
    split_and!; [done| |done|unfold counters_fit in *; case_decide; lia].
    eexists. split_and!; [exact Hok'|..]; simpl LruSpec.n_hits; simpl LruSpec.n_misses;
      simpl LruSpec.items; simpl LruSpec.n_evictions; [|congruence..|].
    + unfold view. by rewrite fmap_take, !fmap_cons.
    + rewrite He', He. simpl in Hlv |- *. by rewrite Hlv.
  - subst k. rewrite (forget_head e es') by apply (sh_keys _ _ Hs).
    eapply wp_mono; [apply (put_head_wp alloc fuel e v c es'); [done|simpl in *; lia]|].
    intros r c' (-> & Hs' & Hc').
    assert (length ((e_key e, v) :: view es') = S (length es')) as Hlv
      by (simpl; unfold view; by rewrite length_fmap).
    assert (max_size c' = max_size c ∧ hits c' = hits c ∧ misses c' = misses c ∧
      evictions c' = evictions c) as (Hmx & Hh' & Hm' & He') by (rewrite Hc'; done).
    clear Hc'. split; [done|]. split; [|split; [done|unfold counters_fit in *; lia]].
    exists (Entry (e_addr e) (e_key e) v :: es').
    split; [split; [exact Hs'|by rewrite Hmx|by rewrite Hmx]|].
    simpl LruSpec.n_hits. simpl LruSpec.n_misses. simpl LruSpec.n_evictions. simpl LruSpec.items.
    simpl in H. rewrite take_ge by (rewrite Hlv; lia).
    rewrite decide_False by (simpl in Hlv |- *; lia). rewrite Z.add_0_r. split_and!; [done|congruence..].
Qed.
