(* ===== verification/LruTheorems.v ===== *)
(** The properties of the LRU cache: it implements the abstract cache for as
    long as no entry has to move, and what happens when one has to. *)
From S2P Require Import Prelude LruCache LruRefine.
Import LRU.

(** ** More on chains *)

Lemma chained_set_prev m es x n p :
  chained m es → m !! x = Some n → chained (<[x := set_prev p n]> m) es.
Proof.
  intros Hch Hx. induction es as [|e es IH]; simpl; [done|].
  destruct Hch as [(v & q & He) Hch]. split; [|by apply IH].
  destruct (decide (e_addr e = x)) as [<-|Hne].
  - rewrite lookup_insert_eq. rewrite Hx in He. injection He as ->. unfold set_prev. simpl. eauto.
  - rewrite lookup_insert_ne by done. eauto.
Qed.

Lemma chained_insert_other m es x n : chained m es → x ∉ addrs es → chained (<[x := n]> m) es.
Proof.
  intros Hch Hx. induction es as [|e es IH]; simpl; [done|].
  destruct Hch as [(v & q & He) Hch]. apply not_elem_of_cons in Hx as [Hxe Hx].
  split; [|by apply IH]. rewrite lookup_insert_ne by done. eauto.
Qed.

Lemma chained_delete_other m es x : chained m es → x ∉ addrs es → chained (delete x m) es.
Proof.
  intros Hch Hx. induction es as [|e es IH]; simpl; [done|].
  destruct Hch as [(v & q & He) Hch]. apply not_elem_of_cons in Hx as [Hxe Hx].
  split; [|by apply IH]. rewrite lookup_delete_ne by done. eauto.
Qed.

Lemma chained_first m b es :
  chained m es → first_in b es ≠ NULL → ∃ n, m !! first_in b es = Some n.
Proof.
  induction es as [|e es IH]; simpl; [done|]. intros [(v & p & He) Hch].
  case_decide; [eauto|by apply IH].
Qed.

(** ** [lru_cache_clear] *)

Definition in_bucket (b : Z) (es : list entry) : list entry := filter (λ e, bucket e = b) es.

Lemma clear_loop_ok b es : ∀ fuel c,
  chained (nodes c) es → NoDup (NULL :: addrs es) → (length es < fuel)%nat →
  ∃ m, clear_loop fuel (first_in b es) c = Done (tt, set_nodes m c) ∧
    ∀ x, m !! x = if decide (x ∈ addrs (in_bucket b es)) then None else nodes c !! x.
Proof.
  induction es as [|e es IH]; intros fuel c Hch Hnd Hf;
    (destruct fuel as [|fuel]; [simpl in Hf; lia|]).
  { exists (nodes c). split; [by destruct c|done]. }
  destruct Hch as [(v & p & He) Hch]. change (addrs (e :: es)) with (e_addr e :: addrs es) in Hnd.
  rewrite !NoDup_cons, not_elem_of_cons in Hnd. destruct Hnd as ([Hne Hn] & Hea & Hnd).
  assert (Hnd' : NoDup (NULL :: addrs es)) by by constructor.
  simpl in Hf. cbn [first_in]. unfold in_bucket. rewrite filter_cons.
  destruct (decide (bucket e = b)) as [Hb|Hb]; [|apply IH; done || lia].
  cbn [clear_loop]. unfold mbind, st_bind, free, read at 1. fold (@mbind (ST cache)).
  rewrite !(proj2 (Z.eqb_neq (e_addr e) NULL)) by congruence. rewrite He.
  unfold mbind, st_bind, read, st_modify. rewrite (proj2 (Z.eqb_neq (e_addr e) NULL)) by congruence.
  rewrite He. simpl. rewrite Hb.
  destruct (IH fuel (set_nodes (delete (e_addr e) (nodes c)) c)) as (m & -> & Hm);
    [by apply chained_delete_other|done|lia|].
  exists m. split; [done|]. intros x. rewrite Hm. simpl.
  change (addrs (e :: ?l)) with (e_addr e :: addrs l). fold (in_bucket b es).
  destruct (decide (x ∈ addrs (in_bucket b es))) as [Hx|Hx].
  - by rewrite decide_True by by constructor.
  - destruct (decide (x = e_addr e)) as [->|Hxe].
    + rewrite decide_True by constructor. apply lookup_delete_eq.
    + rewrite decide_False by by rewrite not_elem_of_cons. by apply lookup_delete_ne.
Qed.

(** The abstract cache after a [clear]. *)
Definition cleared (s : LruSpec.state) : LruSpec.state :=
  LruSpec.mkState [] (LruSpec.n_hits s) (LruSpec.n_misses s) (LruSpec.n_evictions s).

Lemma empty_table_lookup b :
  0 ≤ b < HASH_TABLE_SIZE → empty_table !! Z.to_nat b = Some NULL.
Proof. intros Hb. apply lookup_replicate_2. lia. Qed.

Lemma shape_empty c :
  head c = NULL → tail c = NULL → current_size c = 0 → table c = empty_table → shape c [].
Proof.
  intros Hh Ht Hs Htb. split; try done.
  - intros [|??] ???; discriminate.
  - repeat constructor. apply not_elem_of_nil.
  - constructor.
  - rewrite Htb. apply length_replicate.
  - rewrite Htb. apply empty_table_lookup.
Qed.

(** Where the walk of [clear] starts: the chain of the first entry. *)
Definition head_bucket (es : list entry) : Z :=
  match es with [] => 0 | e :: _ => bucket e end.

Lemma first_in_head_bucket es : first_in (head_bucket es) es = first_addr es.
Proof. destruct es; simpl; [done|]. by rewrite decide_True. Qed.

Lemma clear_wp fuel c es :
  cache_ok c es → (length es < fuel)%nat →
  ∃ c', lru_cache_clear fuel c = Done (tt, c') ∧ cache_ok c' [] ∧
    hits c' = hits c ∧ misses c' = misses c ∧ evictions c' = evictions c ∧
    ∀ x, nodes c' !! x =
      if decide (x ∈ addrs (in_bucket (head_bucket es) es)) then None else nodes c !! x.
Proof.
  intros [Hs Hcap Hlen] Hf.
  destruct (clear_loop_ok (head_bucket es) es fuel c) as (m & E & Hm);
    [apply linked_chained, (sh_nodes _ _ Hs)|apply (sh_addrs _ _ Hs)|done|].
  rewrite first_in_head_bucket, <- (sh_head _ _ Hs) in E.
  exists (set_size 0 (set_tail NULL (set_head NULL (set_table empty_table (set_nodes m c))))).
  unfold lru_cache_clear, mbind, st_bind, st_get. rewrite E.
  split_and!; [done| |done..|exact Hm]. split; [by apply shape_empty|done|simpl; lia].
Qed.

(** ** A concrete allocator and cache for the witnesses *)

(** The next free 16-byte slot above every node in use. *)
Definition bump_alloc (m : gmap Z node) : option Z :=
  Some (16 + map_fold (λ p _ a, Z.max p a) 0 m).

Lemma bump_alloc_above (m : gmap Z node) :
  0 ≤ map_fold (λ p _ a, Z.max p a) 0 m ∧ ∀ p, is_Some (m !! p) → p ≤ map_fold (λ p _ a, Z.max p a) 0 m.
Proof.
  apply (map_fold_weak_ind (λ r m, 0 ≤ r ∧ ∀ p, is_Some (m !! p) → p ≤ r)).
  - split; [lia|]. intros p [x Hx]. by rewrite lookup_empty in Hx.
  - intros i x m' r Hi [H0 Hr]. split; [lia|]. intros p Hp.
    destruct (decide (p = i)) as [->|Hne]; [lia|]. rewrite lookup_insert_ne in Hp by done.
    specialize (Hr p Hp). lia.
Qed.

Lemma bump_alloc_ok : malloc_ok bump_alloc.
Proof.
  intros m. destruct (bump_alloc_above m) as [H0 H]. eexists. split; [done|]. split; [unfold NULL; lia|].
  apply eq_None_not_Some. intros Hp%H. lia.
Qed.

Definition fresh_cache (max : Z) : cache :=
  mkCache NULL NULL max 0 empty_table 0 0 0 ∅.

Definition empty_state : LruSpec.state := LruSpec.mkState [] 0 0 0.

Lemma fresh_cache_ok max : 1 ≤ max < int_max → cache_ok (fresh_cache max) [].
Proof. intros Hm. split; [by apply shape_empty|done|simpl; lia]. Qed.

Lemma fresh_cache_refines max : 1 ≤ max < int_max → refines (fresh_cache max) empty_state.
Proof. intros Hm. exists []. split; [by apply fresh_cache_ok|done]. Qed.

Definition results {A B} (o : outcome (A * B)) : outcome A :=
  match o with Done (a, _) => Done a | Fault e => Fault e | NoFuel => NoFuel end.

(** Runs of still calls, by induction. *)
Lemma run_calls_refines alloc fuel cs : ∀ c s,
  refines c s → malloc_ok alloc → (S (Z.to_nat (max_size c)) < fuel)%nat →
  counters_fit (Z.of_nat (length cs)) c → LruSpec.all_still (Z.to_nat (max_size c)) cs s →
  ∃ c', run_calls alloc fuel cs c = Done ((LruSpec.steps (Z.to_nat (max_size c)) cs s).1, c') ∧
    refines c' (LruSpec.steps (Z.to_nat (max_size c)) cs s).2.
Proof.
  induction cs as [|k cs IH]; intros c s Hr Hal Hf Hc Hst; simpl; [eauto|].
  destruct Hst as [Hk Hst].
  replace (Z.of_nat (length (k :: cs))) with (Z.of_nat (length cs) + 1) in Hc by (simpl; lia).
  assert (Hcall : wp (run_call alloc fuel k) (λ r c',
    r = (LruSpec.step (Z.to_nat (max_size c)) k s).1 ∧
    refines c' (LruSpec.step (Z.to_nat (max_size c)) k s).2 ∧ max_size c' = max_size c ∧
    counters_fit (Z.of_nat (length cs)) c') c).
  { destruct k as [k|k v]; [by apply get_refines; try lia|by apply put_refines; try lia]. }
  apply wp_run in Hcall as (r & c1 & E & -> & Hr1 & Hm1 & Hc1).
  destruct (LruSpec.step (Z.to_nat (max_size c)) k s) as [r s1]. simpl in *.
  rewrite <- Hm1 in Hst, Hf |- *. destruct (IH c1 s1 Hr1 Hal Hf Hc1 Hst) as (c2 & E2 & Hr2).
  unfold mbind, st_bind. rewrite E, E2.
  destruct (LruSpec.steps (Z.to_nat (max_size c1)) cs s1) as [rs s2]. simpl. eauto.
Qed.

(** [lru_cache_create] refuses a size that is not positive and every
    failed allocation or mutex, and otherwise returns the empty cache. *)
Theorem lru_cache_create_spec cache_mem table_mem rc max :
  max < int_max →
  match lru_cache_create cache_mem table_mem rc max with
  | None => max ≤ 0 ∨ cache_mem = false ∨ table_mem = false ∨ rc ≠ 0
  | Some c => cache_mem = true ∧ table_mem = true ∧ rc = 0 ∧ max_size c = max ∧
      refines c empty_state
  end.
Proof.
  intros Hmax. unfold lru_cache_create. destruct (Z.leb_spec max 0); [auto|].
  destruct cache_mem; simpl; [|auto]. destruct table_mem; simpl; [|auto].
  destruct (Z.eqb_spec rc 0); simpl; [|auto]. split_and!; [done..|]. apply fresh_cache_refines. lia.
Qed.

Lemma lru_cache_create_spec_witness :
  match lru_cache_create true true 0 3 with
  | None => 3 ≤ 0 ∨ true = false ∨ true = false ∨ 0 ≠ 0
  | Some c => true = true ∧ true = true ∧ 0 = 0 ∧ max_size c = 3 ∧ refines c empty_state
  end.
Proof. apply lru_cache_create_spec. reflexivity. Defined.

(** C8. The cache implements least-recently-used replacement for every run in
    which each key used is not negative and is either new or the most recently
    used one, [malloc] never fails and no statistic exceeds an [int]: it returns
    what the abstract cache returns, keeps its entries in recency order, evicts
    exactly its victims, counts its hits, misses and evictions, and never holds
    more than [max_size] entries. *)
Theorem lru_run_refines alloc fuel cs c s :
  refines c s → malloc_ok alloc → (S (Z.to_nat (max_size c)) < fuel)%nat →
  counters_fit (Z.of_nat (length cs)) c → LruSpec.all_still (Z.to_nat (max_size c)) cs s →
  ∃ c', run_calls alloc fuel cs c = Done ((LruSpec.steps (Z.to_nat (max_size c)) cs s).1, c') ∧
    refines c' (LruSpec.steps (Z.to_nat (max_size c)) cs s).2 ∧
    0 ≤ current_size c' ≤ max_size c'.
Proof.
  intros Hr Hal Hf Hc Hst. destruct (run_calls_refines _ _ _ _ _ Hr Hal Hf Hc Hst) as (c' & E & Hr').
  exists c'. split; [done|]. split; [done|]. destruct Hr' as (es & [Hs _ Hlen] & _).
  rewrite (sh_size _ _ Hs). lia.
Qed.

Definition demo_calls : list call :=
  [CPut 1 10; CPut 2 20; CGet 2; CGet 7; CPut 2 21; CPut 1025 30; CGet 1025; CGet 1].

Lemma lru_run_refines_witness :
  ∃ c', run_calls bump_alloc 4 demo_calls (fresh_cache 2) = Done ([0; 0; 20; 0; 0; 0; 30; 0], c') ∧
    refines c' (LruSpec.mkState [(1025, 30); (2, 21)] 2 2 1) ∧ 0 ≤ current_size c' ≤ max_size c'.
Proof.
  apply (lru_run_refines bump_alloc 4 demo_calls (fresh_cache 2) empty_state).
  - apply fresh_cache_refines. split; [discriminate|reflexivity].
  - apply bump_alloc_ok.
  - simpl. lia.
  - eapply bool_decide_unpack. vm_compute. exact I.
  - eapply bool_decide_unpack. vm_compute. exact I.
Defined.




(** The cache of the demo: two keys of different buckets. *)
Definition cache_of (max : Z) (cs : list call) : cache :=
  match run_calls bump_alloc 10 cs (fresh_cache max) with Done (_, c) => c | _ => fresh_cache max end.

(** A decidable reading of the invariant, for concrete caches. *)
Definition linkedb (m : gmap Z node) (es : list entry) : bool :=
  forallb (λ i, match es !! i with
    | Some e => match m !! e_addr e with
        | Some n => (key n =? e_key e) && (value n =? e_val e) &&
            (prev n =? last_addr (take i es)) && (next n =? first_in (bucket e) (drop (S i) es))
        | None => false
        end
    | None => true
    end) (seq 0 (length es)).

Lemma linkedb_sound m es : linkedb m es = true → linked m es.
Proof.
  unfold linkedb. rewrite forallb_forall. intros H l1 e l2 ->.
  specialize (H (length l1)). rewrite list_lookup_middle in H by done.
  rewrite take_app_length in H.
  replace (drop (S (length l1)) (l1 ++ e :: l2)) with l2 in H.
  - specialize (H ltac:(apply in_seq; rewrite length_app; simpl; lia)).
    destruct (m !! e_addr e) as [[k v p n]|]; [|done]. simpl in H.
    rewrite !andb_true_iff, !Z.eqb_eq in H. by destruct H as [[[-> ->] ->] ->].
  - rewrite cons_middle, app_assoc, drop_app_length'; [done|]. rewrite length_app. simpl. lia.
Qed.

Definition tableb (t : list Z) (es : list entry) : bool :=
  forallb (λ b, bool_decide (t !! b = Some (first_in (Z.of_nat b) es))) (seq 0 1024).

Lemma tableb_sound t es b :
  tableb t es = true → 0 ≤ b < HASH_TABLE_SIZE → t !! Z.to_nat b = Some (first_in b es).
Proof.
  unfold tableb, HASH_TABLE_SIZE. rewrite forallb_forall. intros H Hb.
  specialize (H (Z.to_nat b) ltac:(apply in_seq; lia)).
  apply bool_decide_eq_true in H. by rewrite Z2Nat.id in H by lia.
Qed.

Definition shapeb (c : cache) (es : list entry) : bool :=
  linkedb (nodes c) es && bool_decide (NoDup (NULL :: addrs es)) &&
  bool_decide (NoDup (e_key <$> es)) && bool_decide (Forall (λ e, 0 ≤ e_key e) es) &&
  (head c =? first_addr es) && (tail c =? last_addr es) &&
  (length (table c) =? 1024)%nat && tableb (table c) es &&
  (current_size c =? Z.of_nat (length es)).

Lemma shapeb_sound c es : shapeb c es = true → shape c es.
Proof.
  unfold shapeb. rewrite !andb_true_iff, !bool_decide_eq_true, !Z.eqb_eq, Nat.eqb_eq.
  intros ((((((((? & ?) & ?) & ?) & ?) & ?) & ?) & ?) & ?).
  split; try done; [by apply linkedb_sound|intros; by apply tableb_sound].
Qed.

Definition demo_cache : cache := cache_of 3 [CPut 1 10; CPut 2 20; CPut 1026 30].
Definition demo_entries : list entry := [Entry 48 1026 30; Entry 32 2 20; Entry 16 1 10].

Lemma demo_cache_ok : cache_ok demo_cache demo_entries.
Proof.
  split; [apply shapeb_sound; vm_compute; reflexivity|vm_compute; split; [discriminate|reflexivity]|].
  vm_compute. discriminate.
Qed.


(** ** Entries that move *)

(** A hit on the second entry when it shares the bucket of the first: the hash
    chain that starts at the first entry no longer contains it. *)
Lemma move_second_wp e1 e2 rest c :
  cache_ok c (e1 :: e2 :: rest) → bucket e1 = bucket e2 →
  wp (move_to_front (e_addr e2)) (λ _ c',
    chained (nodes c') (e1 :: rest) ∧ table c' = table c ∧ hits c' = hits c ∧
    misses c' = misses c ∧ (∃ n, nodes c' !! e_addr e2 = Some n ∧ value n = e_val e2)) c.
Proof.
  intros [Hs _ _] Hb. pose proof Hs as [Hl Hnd _ _ Hh Htl _ _ _].
  pose proof (Hl [] e1 (e2 :: rest) eq_refl) as H1. pose proof (Hl [e1] e2 rest eq_refl) as H2.
  change (last_addr [e1]) with (e_addr e1) in H2.
  pose proof (linked_chained _ _ Hl) as (_ & _ & Hch).
  change (addrs (e1 :: e2 :: rest)) with (e_addr e1 :: e_addr e2 :: addrs rest) in Hnd.
  rewrite !NoDup_cons, !not_elem_of_cons in Hnd.
  destruct Hnd as ((Hn1 & Hn2 & Hn) & (H12 & H1r) & H2r & _).
  unfold move_to_front. wp_step. eapply wp_read; [done|exact H2|]. simpl.
  rewrite (proj2 (Z.eqb_neq _ NULL)) by done.
  wp_step. eapply wp_write; [done|exact H1|]. simpl.
  wp_step. eapply wp_read; [done|simpl; rewrite lookup_insert_ne by done; exact H2|]. simpl.
  lazymatch goal with
  | |- context [set_nodes (<[e_addr e1 := ?n]> _) _] => set (m1 := <[e_addr e1 := n]> (nodes c))
  end.
  assert (Hm1 : chained m1 rest ∧ (∃ p, m1 !! e_addr e1 =
      Some (mkNode (e_key e1) (e_val e1) p (first_in (bucket e2) rest))) ∧
    m1 !! e_addr e2 = nodes c !! e_addr e2).
  { unfold m1. split_and!; [by apply chained_insert_other|eexists; apply lookup_insert_eq|].
    by apply lookup_insert_ne. }
  clearbody m1. destruct Hm1 as (Hc1 & [p1 E1] & E2). rewrite H2 in E2. wp_step.
  eapply (wp_mono _ (λ _ c', ∃ t m, c' = set_tail t (set_nodes m c) ∧ chained m rest ∧
    (∃ p, m !! e_addr e1 = Some (mkNode (e_key e1) (e_val e1) p (first_in (bucket e2) rest))) ∧
    (∃ p n, m !! e_addr e2 = Some (mkNode (e_key e2) (e_val e2) p n)))).
  { destruct (Z.eqb_spec (first_in (bucket e2) rest) NULL) as [Hz|Hz]; simpl.
    - wp_step. eexists _, m1. split; [done|]. eauto 10.
    - destruct (chained_first _ _ _ Hc1 Hz) as [n En].
      pose proof (first_in_elem (bucket e2) rest) as [Hin|Hin]%elem_of_cons; [done|].
      eapply wp_write; [done|exact En|]. simpl. exists (tail c), (<[first_in (bucket e2) rest := set_prev (e_addr e1) n]> m1). split; [done|].
      split; [by apply chained_set_prev|]. rewrite !lookup_insert_ne by (intros Heq; congruence).
      eauto 10. }
  intros _ c2 (t & m & -> & Hc & [p E] & (p' & n' & E')). wp_step.
  eapply wp_write; [done|exact E'|]. simpl. wp_step. wp_step. wp_step.
  eapply wp_write; [done|apply lookup_insert_eq|]. simpl. rewrite Hh. simpl.
  rewrite (proj2 (Z.eqb_neq _ NULL)) by done. simpl. wp_step.
  eapply wp_write; [done|simpl; rewrite !lookup_insert_ne by done; exact E|]. simpl. do 4 wp_step.
  lazymatch goal with
  | |- wp _ _ ?s => eapply (wp_mono _ (λ _ c', ∃ t', c' = set_tail t' s))
  end.
  { simpl. destruct (t =? NULL); wp_step; by eexists. }
  intros [] c' [t' ->]. simpl. split; [|split_and!; try done].
  - split; [rewrite lookup_insert_eq, Hb; unfold set_prev; simpl; eauto|].
    by repeat apply chained_insert_other.
  - rewrite lookup_insert_ne by done. rewrite lookup_insert_eq. eexists. split; [done|]. done.
Qed.

(** Lost entry: whenever the two most recently used keys share a hash
    bucket, a [get] of the second hits and returns its value, and the same
    [get] right after it misses. *)
Theorem lru_get_hit_then_miss fuel c e1 e2 rest :
  cache_ok c (e1 :: e2 :: rest) → bucket e1 = bucket e2 →
  (S (S (length rest)) < fuel)%nat → is_int (hits c + 1) → is_int (misses c + 1) →
  ∃ c1 c2, lru_cache_get fuel (e_key e2) c = Done (e_val e2, c1) ∧
    lru_cache_get fuel (e_key e2) c1 = Done (NULL, c2).
Proof.
  intros Hok Hb Hf Hh Hm. pose proof (ok_shape _ _ Hok) as Hs.
  pose proof (sh_nonneg _ _ Hs) as [_ [Hk _]%Forall_cons]%Forall_cons.
  pose proof (sh_keys _ _ Hs) as Hnd. pose proof (shape_null _ _ Hs) as Hn.
  assert (addr_of (e_key e2) (e1 :: e2 :: rest) = e_addr e2) as Ha.
  { simpl. apply NoDup_cons in Hnd as [Hnd _]. rewrite decide_False by set_solver.
    by rewrite decide_True. }
  assert (Hne2 : e_addr e2 ≠ NULL).
  { intros Heq. apply Hn. rewrite <- Heq. apply elem_addrs. repeat constructor. }
  destruct (proj1 (wp_run _ _ _) (move_second_wp _ _ _ _ Hok Hb))
    as ([] & c1 & E1 & Hch & Ht & Hh1 & Hm1 & n & En & Hv).
  set (c1' := set_hits (hits c + 1) c1). exists c1', (set_misses (misses c + 1) c1').
  unfold lru_cache_get, mbind, st_bind.
  rewrite (shape_find fuel _ _ _ Hs Hk) by (simpl; lia). rewrite Ha.
  rewrite (proj2 (Z.eqb_neq _ NULL)) by done. rewrite E1.
  unfold bump, st_get, st_lift, st_modify, mbind, st_bind, int_result. rewrite Hh1.
  rewrite bool_decide_true by done. unfold read. rewrite (proj2 (Z.eqb_neq _ NULL)) by done.
  fold c1'. change (nodes c1') with (nodes c1). rewrite En, Hv. split; [done|].
  rewrite (find_node_ok fuel (e_key e2) c1' (e1 :: rest)); [| done | exact Hch | | | simpl; lia].
  - simpl. rewrite decide_False by (apply NoDup_cons in Hnd as [Hnd _]; set_solver).
    apply NoDup_cons in Hnd as [_ [Hnd _]%NoDup_cons].
    rewrite (proj2 (addr_of_null (e_key e2) rest ltac:(unfold addrs in *; simpl in *; set_solver))) by done.
    simpl. unfold c1'. simpl. rewrite Hm1. by rewrite bool_decide_true.
  - unfold addrs in *. simpl in *. set_solver.
  - unfold c1'. simpl table. rewrite Ht.
    rewrite (sh_table _ _ Hs) by apply bucket_range. simpl. rewrite Hb.
    by rewrite !decide_True by (unfold bucket in *; congruence).
Qed.

Definition clash_cache : cache := cache_of 2 [CPut 0 10; CPut 1024 11].

Lemma lru_get_hit_then_miss_witness :
  ∃ c1 c2, lru_cache_get 4 0 clash_cache = Done (10, c1) ∧ lru_cache_get 4 0 c1 = Done (NULL, c2).
Proof.
  apply (lru_get_hit_then_miss 4 clash_cache (Entry 32 1024 11) (Entry 16 0 10) []).
  - split; [apply shapeb_sound; vm_compute; reflexivity
           |vm_compute; split; [discriminate|reflexivity]|vm_compute; discriminate].
  - reflexivity.
  - simpl. lia.
  - vm_compute. split; discriminate.
  - vm_compute. split; discriminate.
Defined.

(** Wrong victim: after a hit on an entry that is neither the first nor the
    last, the tail is wrong.  The run below fills a cache of three with keys 1,
    2 and 3 and uses 2; putting 4 then evicts 3, the second most recently used
    key, and keeps 1, the least recently used one. *)
Theorem lru_evicts_wrong_entry :
  results (run_calls bump_alloc 10
    [CPut 1 10; CPut 2 20; CPut 3 30; CGet 2; CPut 4 40; CGet 1; CGet 3] (fresh_cache 3))
    = Done [0; 0; 0; 20; 0; 10; 0] ∧
  (LruSpec.steps 3 [CPut 1 10; CPut 2 20; CPut 3 30; CGet 2; CPut 4 40; CGet 1; CGet 3] empty_state).1
    = [0; 0; 0; 20; 0; 0; 30].
Proof. vm_compute. split; reflexivity. Qed.

(** Use after free: once the tail is wrong the evicted node stays on a hash
    chain, and a later [get] follows it. *)
Theorem lru_use_after_free :
  results (run_calls bump_alloc 10
    [CPut 1 10; CPut 2 20; CPut 3 30; CGet 2; CPut 4 40; CPut 5 50; CGet 1] (fresh_cache 3))
    = Fault UseAfterFree.
Proof. vm_compute. reflexivity. Qed.

(** C11. Negative keys: C's remainder keeps the sign, so every operation on a
    negative key that is not a multiple of 1024 indexes the table out of
    bounds, whatever the cache holds. *)
Theorem lru_negative_key alloc fuel k v c :
  k < 0 → k mod HASH_TABLE_SIZE ≠ 0 →
  lru_cache_get fuel k c = Fault OutOfBounds ∧ lru_cache_put alloc fuel k v c = Fault OutOfBounds.
Proof.
  intros Hk Hmod. assert (Hh : hash_key k < 0).
  { unfold hash_key, HASH_TABLE_SIZE in *. pose proof (Z.rem_nonpos k 1024 ltac:(lia) ltac:(lia)).
    destruct (Z.eq_dec (Z.rem k 1024) 0) as [Hz|]; [|lia].
    exfalso. apply Hmod. apply Z.rem_divide in Hz; [|lia]. by apply Z.mod_divide. }
  assert (E : find_node fuel k c = Fault OutOfBounds).
  { unfold find_node, mbind, st_bind, read_table. by rewrite (proj2 (Z.ltb_lt _ 0) Hh). }
  unfold lru_cache_get, lru_cache_put, mbind, st_bind. by rewrite E.
Qed.

Lemma lru_negative_key_witness :
  lru_cache_get 5 (-1) (fresh_cache 2) = Fault OutOfBounds ∧
  lru_cache_put bump_alloc 5 (-1) 7 (fresh_cache 2) = Fault OutOfBounds.
Proof. apply lru_negative_key; [reflexivity|vm_compute; discriminate]. Defined.
