(* ===== verification/Ring.v ===== *)
(** The circular buffer that the bounded queue ([queue.c]) and the thread pool
    ([thread_pool.c]) both keep in place: an array, its capacity, the index of
    the first item and the number of items. *)
From S2P Require Import Prelude.

(** C's [%] on [int]. *)
Definition int_rem (a b : Z) : outcome Z :=
  if b =? 0 then Fault DivByZero
  else if (a =? int_min) && (b =? -1) then Fault IntOverflow
  else Done (Z.rem a b).

Module Ring.

Section ring.
Context {A : Type}.

(** A slot that was never written holds [None]. *)
Record ring : Type := mkRing {
  slots : list (option A);
  capacity : Z;
  size : Z;
  front : Z;
}.

Definition load_slot (i : Z) : ST ring A := λ r,
  if i <? 0 then Fault OutOfBounds else
  match slots r !! Z.to_nat i with
  | Some (Some x) => Done (x, r)
  | Some None => Fault Uninit
  | None => Fault OutOfBounds
  end.

Definition store_slot (i : Z) (x : A) : ST ring unit := λ r,
  if (i <? 0) || (Z.of_nat (length (slots r)) <=? i) then Fault OutOfBounds else
  Done (tt, mkRing (<[Z.to_nat i := Some x]> (slots r)) (capacity r) (size r) (front r)).

Definition set_size (n : Z) (r : ring) : ring := mkRing (slots r) (capacity r) n (front r).
Definition set_front (n : Z) (r : ring) : ring := mkRing (slots r) (capacity r) (size r) n.

(** [back = (front + size) % capacity; items[back] = x; size++;] *)
Definition push (x : A) : ST ring unit :=
  r ← st_get;
  sum ← st_lift (int_result (front r + size r));
  back ← st_lift (int_rem sum (capacity r));
  _ ← store_slot back x;
  n ← st_lift (int_result (size r + 1));
  st_modify (set_size n).

(** [x = items[front]; front = (front + 1) % capacity; size--;] *)
Definition pop : ST ring A :=
  r ← st_get;
  x ← load_slot (front r);
  sum ← st_lift (int_result (front r + 1));
  f ← st_lift (int_rem sum (capacity r));
  _ ← st_modify (set_front f);
  n ← st_lift (int_result (size r - 1));
  _ ← st_modify (set_size n);
  mret x.

Definition empty (cap : Z) : ring := mkRing (replicate (Z.to_nat cap) None) cap 0 0.

(** ** The queue a ring holds *)

(** Capacities whose index arithmetic stays inside [int]. *)
Definition cap_ok (cap : Z) : Prop := 1 ≤ cap ≤ 2 ^ 30.

Record holds (r : ring) (l : list A) : Prop := {
  h_cap : cap_ok (capacity r);
  h_slots : length (slots r) = Z.to_nat (capacity r);
  h_front : 0 ≤ front r < capacity r;
  h_size : size r = Z.of_nat (length l);
  h_len : Z.of_nat (length l) ≤ capacity r;
  h_items : ∀ i x, l !! i = Some x →
    slots r !! Z.to_nat ((front r + Z.of_nat i) mod capacity r) = Some (Some x);
}.

Lemma holds_empty cap : cap_ok cap → holds (empty cap) [].
Proof.
  unfold cap_ok. intros Hc. split; simpl; try done; try lia. by rewrite length_replicate.
Qed.

Lemma int_rem_mod a b : 0 ≤ a → 0 < b → int_rem a b = Done (a mod b).
Proof.
  intros Ha Hb. unfold int_rem, int_min. cmp_step.
  cmp_step. simpl. by rewrite Z.rem_mod_nonneg by lia.
Qed.

Lemma int_result_done z : is_int z → int_result z = Done z.
Proof. intros Hz. unfold int_result. by rewrite bool_decide_true. Qed.

(** Offsets below the capacity name different slots. *)
Lemma mod_offset_inj a i j c :
  0 ≤ i < c → 0 ≤ j < c → (a + i) mod c = (a + j) mod c → i = j.
Proof.
  intros Hi Hj Heq. assert ((i - j) mod c = 0) as Hz.
  { replace (i - j) with ((a + i) - (a + j)) by lia.
    rewrite Zminus_mod, Heq, Z.sub_diag. apply Z.mod_0_l. lia. }
  apply Z.mod_divide in Hz as [k Hk]; [|lia]. assert (k = 0) by nia. lia.
Qed.

Lemma push_wp x r l :
  holds r l → Z.of_nat (length l) < capacity r →
  wp (push x) (λ _ r', holds r' (l ++ [x]) ∧ capacity r' = capacity r) r.
Proof.
  intros [[Hc1 Hc2] Hs Hf Hn Hl Hi] Hlt. unfold push. do 3 wp_step.
  eapply wp_lift; [apply int_result_done; unfold is_int, int_min, int_max; lia|]. wp_step.
  eapply wp_lift; [apply int_rem_mod; lia|]. wp_step.
  pose proof (Z.mod_pos_bound (front r + size r) (capacity r) ltac:(lia)) as Hb.
  unfold wp, store_slot. do 2 cmp_step. simpl.
  rewrite int_result_done by (unfold is_int, int_min, int_max; lia). simpl. split; [|done].
  split; simpl; try done; rewrite ?length_insert, ?length_app; simpl; try lia.
  intros i y Hy. rewrite Hn. destruct (decide (i = length l)) as [->|Hne].
  - rewrite list_lookup_middle in Hy by done. simplify_eq.
    apply list_lookup_insert_eq. rewrite Hs. rewrite Hn in Hb. lia.
  - assert (i < length l)%nat.
    { apply lookup_lt_Some in Hy. rewrite length_app in Hy. simpl in Hy. lia. }
    rewrite lookup_app_l in Hy by done. rewrite list_lookup_insert_ne; [by apply Hi|].
    rewrite Hn in Hb. pose proof (Z.mod_pos_bound (front r + Z.of_nat i) (capacity r) ltac:(lia)).
    intros Heq. apply Z2Nat.inj in Heq; [|lia..]. apply mod_offset_inj in Heq; lia.
Qed.

Lemma pop_wp x r l :
  holds r (x :: l) → wp pop (λ y r', y = x ∧ holds r' l ∧ capacity r' = capacity r) r.
Proof.
  intros [[Hc1 Hc2] Hs Hf Hn Hl Hi]. simpl in *. unfold pop. do 3 wp_step.
  unfold wp at 1, load_slot. cmp_step.
  pose proof (Hi 0%nat x eq_refl) as H0. rewrite Z.add_0_r, Z.mod_small in H0 by lia. rewrite H0.
  wp_step. eapply wp_lift; [apply int_result_done; unfold is_int, int_min, int_max; lia|]. wp_step.
  eapply wp_lift; [apply int_rem_mod; lia|]. do 3 wp_step.
  eapply wp_lift; [apply int_result_done; unfold is_int, int_min, int_max; lia|]. do 3 wp_step.
  split; [done|]. split; [|done].
  pose proof (Z.mod_pos_bound (front r + 1) (capacity r) ltac:(lia)).
  split; simpl; try done; try lia.
  intros i y Hy. rewrite <- (Hi (S i) y Hy). do 2 f_equal.
  rewrite Zplus_mod_idemp_l. f_equal. lia.
Qed.

(** The same, for runs that are known to have returned. *)
Lemma push_done x r l u r' :
  holds r l → size r < capacity r → push x r = Done (u, r') →
  holds r' (l ++ [x]) ∧ capacity r' = capacity r ∧ size r' = size r + 1.
Proof.
  intros Hh Hlt E. pose proof (h_size _ _ Hh) as Hn. rewrite Hn in Hlt.
  pose proof (push_wp x r l Hh Hlt) as Hwp. unfold wp in Hwp. rewrite E in Hwp.
  destruct Hwp as [Hh' Hc]. split_and!; [done..|].
  rewrite (h_size _ _ Hh'), Hn, length_app. simpl. lia.
Qed.

Lemma pop_done r l x r' :
  holds r l → size r ≠ 0 → pop r = Done (x, r') →
  ∃ l', l = x :: l' ∧ holds r' l' ∧ capacity r' = capacity r ∧ size r' = size r - 1.
Proof.
  intros Hh Hne E. pose proof (h_size _ _ Hh) as Hn. destruct l as [|y l]; [done|].
  pose proof (pop_wp y r l Hh) as Hwp. unfold wp in Hwp. rewrite E in Hwp.
  destruct Hwp as (-> & Hh' & Hc). exists l. split_and!; [done..|].
  rewrite (h_size _ _ Hh'), Hn. simpl. lia.
Qed.

Lemma holds_bounds r l : holds r l → 0 ≤ size r ≤ capacity r.
Proof. intros []. lia. Qed.

Lemma push_returns x r l : holds r l → size r < capacity r → ∃ u r', push x r = Done (u, r').
Proof.
  intros Hh Hlt. rewrite (h_size _ _ Hh) in Hlt.
  destruct (proj1 (wp_run _ _ _) (push_wp x r l Hh Hlt)) as (u & r' & E & _). eauto.
Qed.

Lemma pop_returns r l : holds r l → size r ≠ 0 → ∃ x r', pop r = Done (x, r').
Proof.
  intros Hh Hne. destruct l as [|x l]; [by rewrite (h_size _ _ Hh) in Hne|].
  destruct (proj1 (wp_run _ _ _) (pop_wp x r l Hh)) as (y & r' & E & _). eauto.
Qed.

End ring.
Arguments ring : clear implicits.

End Ring.

(** Replace the equation of a push or pop on the ring that [Hl] describes by
    what it did to the size and the capacity. *)
Ltac note_ring Hl :=
  repeat match goal with
  | E : Ring.push _ _ = Done _ |- _ =>
      destruct (Ring.push_done _ _ _ _ _ Hl ltac:(lia) E) as (_ & ? & ?); clear E
  | E : Ring.pop _ = Done _ |- _ =>
      destruct (Ring.pop_done _ _ _ _ Hl ltac:(lia) E) as (? & _ & _ & ? & ?); clear E
  end.
