(* ===== verification/Threads.v ===== *)
(** What the concurrent components share: runs of a labelled step relation and
    invariants along them, counting the threads of a thread table that satisfy
    a predicate, condition variables, mutual exclusion, and the class of the
    components that synchronise on one mutex. *)
From S2P Require Import Prelude.

(** ** Runs *)
Section runs.
Context {S E : Type} (step : S → list E → S → Prop).

Inductive run : S → list E → S → Prop :=
| run_nil s : run s [] s
| run_snoc s es s' es' s'' : run s es s' → step s' es' s'' → run s (es ++ es') s''.

Lemma run_invariant (I : S → list E → Prop) s es s' :
  I s [] → (∀ s1 es1 es2 s2, I s1 es1 → step s1 es2 s2 → I s2 (es1 ++ es2)) →
  run s es s' → I s' es.
Proof. intros H0 Hstep Hr. induction Hr; eauto. Qed.

Lemma run_state_invariant (I : S → Prop) s es s' :
  I s → (∀ s1 es1 s2, I s1 → step s1 es1 s2 → I s2) → run s es s' → I s'.
Proof. intros H0 Hstep. by apply (run_invariant (λ s _, I s)); eauto. Qed.

End runs.

(** ** Counting threads *)
Section count.
Context {P : Type}.
Implicit Types (m : gmap nat P) (f : P → bool).

Definition cnt f m : Z := map_fold (λ _ p n, Z.b2z (f p) + n) 0 m.

Lemma cnt_empty f : cnt f ∅ = 0.
Proof. apply map_fold_empty. Qed.

Lemma cnt_insert_new f m t p : m !! t = None → cnt f (<[t := p]> m) = Z.b2z (f p) + cnt f m.
Proof. intros Ht. unfold cnt. apply (map_fold_insert_L (λ _ p n, Z.b2z (f p) + n)); [intros; lia|done]. Qed.

Lemma cnt_delete f m t p : m !! t = Some p → cnt f m = Z.b2z (f p) + cnt f (delete t m).
Proof.
  intros Ht. rewrite <- (insert_delete_id m t p Ht) at 1. apply cnt_insert_new.
  apply lookup_delete_eq.
Qed.

(** One thread changes state. *)
Lemma cnt_update f m t p p' :
  m !! t = Some p → cnt f (<[t := p']> m) = cnt f m - Z.b2z (f p) + Z.b2z (f p').
Proof.
  intros Ht. rewrite (cnt_delete f m t p Ht).
  rewrite (cnt_delete f (<[t := p']> m) t p') by apply lookup_insert_eq.
  rewrite delete_insert_eq. lia.
Qed.

Lemma cnt_nonneg f m : 0 ≤ cnt f m.
Proof.
  induction m as [|t p m Ht IH] using map_ind; [by rewrite cnt_empty|].
  rewrite cnt_insert_new by done. destruct (f p); simpl; lia.
Qed.

Lemma cnt_fmap f (g : P → P) m : cnt f (g <$> m) = cnt (λ p, f (g p)) m.
Proof.
  induction m as [|t p m Ht IH] using map_ind; [by rewrite fmap_empty|].
  rewrite fmap_insert, !cnt_insert_new; [by rewrite IH|done|by rewrite lookup_fmap, Ht].
Qed.

Lemma cnt_ext f g m : (∀ p, f p = g p) → cnt f m = cnt g m.
Proof.
  intros Hfg. induction m as [|t p m Ht IH] using map_ind; [done|].
  rewrite !cnt_insert_new by done. by rewrite Hfg, IH.
Qed.

Lemma cnt_add f g h m :
  (∀ p, Z.b2z (h p) = Z.b2z (f p) + Z.b2z (g p)) → cnt h m = cnt f m + cnt g m.
Proof.
  intros Hh. induction m as [|t p m Ht IH] using map_ind; [by rewrite !cnt_empty|].
  rewrite !cnt_insert_new by done. rewrite Hh, IH. lia.
Qed.

Lemma cnt_pos f m : 0 < cnt f m ↔ ∃ t p, m !! t = Some p ∧ f p = true.
Proof.
  split.
  - induction m as [|t p m Ht IH] using map_ind; [rewrite cnt_empty; lia|].
    rewrite cnt_insert_new by done. destruct (f p) eqn:Hp; simpl.
    + intros _. exists t, p. by rewrite lookup_insert_eq.
    + intros Hc. destruct (IH Hc) as (t' & p' & Hm & Hf). exists t', p'.
      rewrite lookup_insert_ne; [done|]. intros ->. congruence.
  - intros (t & p & Hm & Hf). rewrite (cnt_delete f m t p Hm), Hf.
    pose proof (cnt_nonneg f (delete t m)). simpl. lia.
Qed.

Lemma cnt_zero f m : cnt f m = 0 ↔ ∀ t p, m !! t = Some p → f p = false.
Proof.
  pose proof (cnt_nonneg f m). pose proof (cnt_pos f m) as Hp. split.
  - intros Hz t p Hm. destruct (f p) eqn:Hf; [|done]. assert (0 < cnt f m); [|lia].
    apply Hp. eauto.
  - intros Hall. destruct (decide (0 < cnt f m)) as [Hlt|]; [|lia].
    apply Hp in Hlt as (t & p & Hm & Hf). rewrite (Hall t p Hm) in Hf. done.
Qed.

Lemma cnt_at f m t p : m !! t = Some p → Z.b2z (f p) ≤ cnt f m.
Proof. intros Ht. rewrite (cnt_delete f m t p Ht). pose proof (cnt_nonneg f (delete t m)). lia. Qed.

Lemma cnt_le f g m : (∀ p, f p = true → g p = true) → cnt f m ≤ cnt g m.
Proof.
  intros Hfg. induction m as [|t p m Ht IH] using map_ind; [by rewrite !cnt_empty|].
  rewrite !cnt_insert_new by done. specialize (Hfg p). destruct (f p), (g p); simpl in *; [lia|by discriminate (Hfg eq_refl)|lia..].
Qed.

(** At most one: two threads that satisfy [f] are the same. *)
Lemma cnt_unique f m t1 t2 p1 p2 :
  cnt f m ≤ 1 → m !! t1 = Some p1 → m !! t2 = Some p2 → f p1 = true → f p2 = true → t1 = t2.
Proof.
  intros Hc H1 H2 Hf1 Hf2. destruct (decide (t1 = t2)) as [|Hne]; [done|].
  rewrite (cnt_delete f m t1 p1 H1) in Hc.
  rewrite (cnt_delete f (delete t1 m) t2 p2) in Hc by by rewrite lookup_delete_ne.
  pose proof (cnt_nonneg f (delete t2 (delete t1 m))). rewrite Hf1, Hf2 in Hc. simpl in Hc. lia.
Qed.

End count.

(** ** Condition variables

    A condition variable is the set of threads whose program counter says they
    wait on it; [wake] is where a woken thread goes, to take the mutex again. *)
Section condvar.
Context {P : Type} (waits : P → bool) (wake : P → P).

(** [pthread_cond_signal]: wakes one waiter if there is one.  [w] resolves the
    choice.  A real signal may wake more; that is a spurious wakeup, which the
    components allow at any time. *)
Definition cond_signal (w : option nat) (m : gmap nat P) : option (gmap nat P) :=
  match w with
  | Some u =>
      match m !! u with
      | Some p => if waits p then Some (<[u := wake p]> m) else None
      | None => None
      end
  | None => if cnt waits m =? 0 then Some m else None
  end.

(** [pthread_cond_broadcast] *)
Definition cond_broadcast (m : gmap nat P) : gmap nat P :=
  (λ p, if waits p then wake p else p) <$> m.

Lemma cond_signal_spec w m m' :
  cond_signal w m = Some m' →
  (m' = m ∧ cnt waits m = 0) ∨
  ∃ u p, m !! u = Some p ∧ waits p = true ∧ m' = <[u := wake p]> m.
Proof.
  unfold cond_signal. destruct w as [u|].
  - destruct (m !! u) as [p|] eqn:Hu; [|done]. destruct (waits p) eqn:Hp; [|done].
    intros ?. simplify_eq. right. eauto 10.
  - destruct (Z.eqb_spec (cnt waits m) 0); [|done]. intros ?. simplify_eq. by left.
Qed.

(** A signal is always possible. *)
Lemma cond_signal_enabled m : ∃ w m', cond_signal w m = Some m'.
Proof.
  destruct (decide (cnt waits m = 0)) as [Hz|Hz].
  - exists None, m. unfold cond_signal. by rewrite (proj2 (Z.eqb_eq _ _) Hz).
  - pose proof (cnt_nonneg waits m). assert (0 < cnt waits m) as Hp by lia.
    apply cnt_pos in Hp as (u & p & Hu & Hp). exists (Some u), (<[u := wake p]> m).
    unfold cond_signal. by rewrite Hu, Hp.
Qed.

(** A signal leaves a thread that does not wait where it is. *)
Lemma cond_signal_other w m m' t p :
  cond_signal w m = Some m' → m !! t = Some p → waits p = false → m' !! t = Some p.
Proof.
  intros Hs Ht Hp. apply cond_signal_spec in Hs as [[-> _]|(u & pu & Hu & Hpu & ->)]; [done|].
  rewrite lookup_insert_ne; [done|]. intros ->. congruence.
Qed.

(** Counting after a broadcast. *)
Lemma cnt_broadcast f m :
  cnt f (cond_broadcast m) = cnt (λ p, f (if waits p then wake p else p)) m.
Proof. apply cnt_fmap. Qed.

Lemma cnt_broadcast_same f m :
  (∀ p, waits p = true → f (wake p) = f p) → cnt f (cond_broadcast m) = cnt f m.
Proof.
  intros Hf. rewrite cnt_broadcast. apply cnt_ext. intros p. destruct (waits p) eqn:Hp; auto.
Qed.

Lemma cnt_broadcast_none f m :
  (∀ p, waits p = true → f (wake p) = false) → (∀ p, f p = true → waits p = true) →
  cnt f (cond_broadcast m) = 0.
Proof.
  intros Hw Hf. rewrite cnt_broadcast. apply cnt_zero. intros t p _.
  destruct (waits p) eqn:Hp; [by apply Hw|]. destruct (f p) eqn:Hfp; [|done].
  apply Hf in Hfp. congruence.
Qed.

Lemma lookup_broadcast m t p :
  m !! t = Some p → waits p = false → cond_broadcast m !! t = Some p.
Proof. intros Ht Hp. unfold cond_broadcast. by rewrite lookup_fmap, Ht; simpl; rewrite Hp. Qed.

End condvar.

(** ** Mutual exclusion

    [o] is the owner of the mutex, [crit] says at which program points the
    mutex is held. *)
Section mutex.
Context {P : Type} (crit : P → bool).
Implicit Types (m : gmap nat P) (o : option nat).

Definition mutex_inv o m : Prop :=
  match o with
  | None => cnt crit m = 0
  | Some t => cnt crit m = 1 ∧ ∃ p, m !! t = Some p ∧ crit p = true
  end.

Lemma mutex_le o m : mutex_inv o m → cnt crit m ≤ 1.
Proof. destruct o; simpl; lia. Qed.

Lemma mutex_owner o m t p : mutex_inv o m → m !! t = Some p → crit p = true → o = Some t.
Proof.
  intros Hm Ht Hp. pose proof (mutex_le _ _ Hm) as Hle. destruct o as [u|]; simpl in Hm.
  - destruct Hm as (_ & p' & Hu & Hp'). f_equal. by eapply cnt_unique.
  - by rewrite (proj1 (cnt_zero crit m) Hm t p Ht) in Hp.
Qed.

Lemma mutex_exclusive o m t1 t2 p1 p2 :
  mutex_inv o m → m !! t1 = Some p1 → m !! t2 = Some p2 → crit p1 = true → crit p2 = true → t1 = t2.
Proof. intros Hm ????. by eapply cnt_unique; [eapply mutex_le|..]. Qed.

(** While [t] holds the mutex, it is the only thread at a critical point. *)
Lemma mutex_exact o m t p f :
  mutex_inv o m → m !! t = Some p → crit p = true → (∀ p, f p = true → crit p = true) →
  cnt f m = Z.b2z (f p).
Proof.
  intros Hm Ht Hp Hf. pose proof (mutex_le _ _ Hm) as Hle.
  rewrite (cnt_delete crit m t p Ht), Hp in Hle. rewrite (cnt_delete f m t p Ht).
  pose proof (cnt_le f crit (delete t m) Hf). pose proof (cnt_nonneg f (delete t m)).
  simpl in Hle. lia.
Qed.

Lemma mutex_keep o m t p p' :
  m !! t = Some p → crit p' = crit p → mutex_inv o m → mutex_inv o (<[t := p']> m).
Proof.
  intros Ht Hp Hm. unfold mutex_inv in *. rewrite (cnt_update crit m t p p' Ht), Hp.
  replace (cnt crit m - Z.b2z (crit p) + Z.b2z (crit p)) with (cnt crit m) by lia.
  destruct o as [u|]; [|done]. destruct Hm as (Hc & pu & Hu & Hpu). split; [done|].
  destruct (decide (u = t)) as [->|Hne].
  - exists p'. rewrite lookup_insert_eq. split; [done|]. congruence.
  - exists pu. by rewrite lookup_insert_ne.
Qed.

Lemma mutex_acquire m t p p' :
  m !! t = Some p → crit p = false → crit p' = true → mutex_inv None m →
  mutex_inv (Some t) (<[t := p']> m).
Proof.
  intros Ht Hp Hp' Hm. unfold mutex_inv in *. rewrite (cnt_update crit m t p p' Ht), Hp, Hp'.
  split; [simpl; lia|]. exists p'. by rewrite lookup_insert_eq.
Qed.

Lemma mutex_release o m t p p' :
  m !! t = Some p → crit p = true → crit p' = false → mutex_inv o m →
  mutex_inv None (<[t := p']> m).
Proof.
  intros Ht Hp Hp' Hm. pose proof (mutex_owner _ _ _ _ Hm Ht Hp) as ->.
  unfold mutex_inv in *. rewrite (cnt_update crit m t p p' Ht), Hp, Hp'. simpl. lia.
Qed.

(** A new thread, outside the critical section. *)
Lemma mutex_new o m u p :
  m !! u = None → crit p = false → mutex_inv o m → mutex_inv o (<[u := p]> m).
Proof.
  intros Hu Hp Hm. unfold mutex_inv in *. rewrite cnt_insert_new, Hp by done. simpl.
  destruct o as [t|]; [|done]. destruct Hm as (Hc & q & Ht & Hq). split; [done|].
  exists q. rewrite lookup_insert_ne; [done|]. congruence.
Qed.

Lemma mutex_broadcast waits wake o m :
  (∀ p, waits p = true → crit (wake p) = crit p) → mutex_inv o m →
  mutex_inv o (cond_broadcast waits wake m).
Proof.
  intros Hw Hm. unfold mutex_inv in *. rewrite cnt_broadcast_same by done.
  destruct o as [t|]; [|done]. destruct Hm as (Hc & p & Ht & Hp). split; [done|].
  unfold cond_broadcast. rewrite lookup_fmap, Ht. simpl. eexists. split; [done|].
  destruct (waits p) eqn:Hwp; [|done]. by rewrite Hw.
Qed.

Lemma mutex_init m : (∀ t p, m !! t = Some p → crit p = false) → mutex_inv None m.
Proof. apply cnt_zero. Qed.

End mutex.
#[global] Arguments mutex_inv : simpl never.

(** [mutex_inv] after a step, from [Hm] before it: the thread keeps, takes or
    releases the mutex, or another thread was woken and it keeps it. *)
Ltac solve_mutex Hm :=
  first
  [ exact Hm
  | eapply mutex_keep; [eassumption|done|exact Hm]
  | eapply mutex_release; [eassumption|done|done|exact Hm]
  | try match goal with Ho : _ = None |- _ => rewrite Ho in Hm end;
    eapply mutex_acquire; [eassumption|done|done|exact Hm]
  | eapply mutex_keep; [eassumption|done|]; eapply mutex_keep; [eassumption|done|exact Hm] ].

(** ** Roles

    Thread 0 is the main thread; [is_main] says which program points are its. *)
Section roles.
Context {P : Type} (is_main : P → bool).
Implicit Types (m : gmap nat P).

Definition roles m : Prop := ∀ t p, m !! t = Some p → is_main p = bool_decide (t = 0%nat).

Lemma role_update m t p :
  roles m → is_main p = bool_decide (t = 0%nat) →
  roles (<[t := p]> m).
Proof.
  intros Hm Hp t' p'. destruct (decide (t' = t)) as [->|Hne].
  - rewrite lookup_insert_eq. intros ?. by simplify_eq.
  - rewrite lookup_insert_ne by done. apply Hm.
Qed.

(** A property of [main] only holds of at most one thread. *)
Lemma cnt_main f m :
  roles m → (∀ p, f p = true → is_main p = true) →
  cnt f m ≤ 1.
Proof.
  intros Hr Hf. assert (Hz : ∀ t p, m !! t = Some p → t ≠ 0%nat → f p = false).
  { intros t p Ht Hne. destruct (f p) eqn:E; [|done]. apply Hf in E. rewrite (Hr t p Ht) in E.
    by apply bool_decide_eq_true in E. }
  destruct (m !! 0%nat) as [p|] eqn:E.
  - rewrite (cnt_delete f m 0 p E). rewrite (proj2 (cnt_zero f (delete 0%nat m))).
    + destruct (f p); simpl; lia.
    + intros t q [Hne Ht]%lookup_delete_Some. by apply (Hz t).
  - rewrite (proj2 (cnt_zero f m)); [lia|]. intros t p Ht. apply (Hz t); [done|]. congruence.
Qed.

End roles.
#[global] Arguments cnt_main {P is_main} f m _ _.
#[global] Arguments role_update {P is_main} m t p _ _ _ _ _.

Lemma lookup_insert_none {P} (m : gmap nat P) t u p q :
  m !! t = Some p → m !! u = None → <[t := q]> m !! u = None.
Proof. intros Ht Hu. rewrite lookup_insert_ne; [done|]. congruence. Qed.


(** ** Thread steps as functions

    A component gives [tstep t ch s]: the effect of the next step of thread
    [t], with the choice [ch] made where the step is not deterministic; [None]
    when the step is not enabled.  Steps and runs follow, and a schedule can be
    executed. *)
Section thread_steps.
Context {S E C : Type} (tstep : nat → C → S → option (outcome (S * list E))).

Inductive thread_step : S → list E → S → Prop :=
| step_thread t ch s s' es : tstep t ch s = Some (Done (s', es)) → thread_step s es s'.

Lemma run_cons s es s1 es' s2 :
  thread_step s es s1 → run thread_step s1 es' s2 → run thread_step s (es ++ es') s2.
Proof.
  intros Hs Hr. induction Hr as [s1|s1 es1 s' es' s'' Hr IH Hs'].
  - rewrite app_nil_r. apply (run_snoc thread_step s [] s); [apply run_nil|done].
  - rewrite app_assoc. eapply run_snoc; [by apply IH|done].
Qed.

Lemma run_app s es s1 es' s2 :
  run thread_step s es s1 → run thread_step s1 es' s2 → run thread_step s (es ++ es') s2.
Proof.
  intros H1 H2. induction H2 as [|s1 es1 s' es' s'' Hr IH Hs']; [by rewrite app_nil_r|].
  rewrite app_assoc. eapply run_snoc; [by apply IH|done].
Qed.

Fixpoint exec (sched : list (nat * C)) (s : S) : option (S * list E) :=
  match sched with
  | [] => Some (s, [])
  | (t, ch) :: sched =>
      match tstep t ch s with
      | Some (Done (s1, es)) =>
          match exec sched s1 with Some (s2, es') => Some (s2, es ++ es') | None => None end
      | _ => None
      end
  end.

Lemma exec_run sched : ∀ s s' es, exec sched s = Some (s', es) → run thread_step s es s'.
Proof.
  induction sched as [|[t ch] sched IH]; intros s s' es; simpl.
  - intros ?. simplify_eq. apply run_nil.
  - destruct (tstep t ch s) as [[[s1 es1]| |]|] eqn:E1; try done.
    destruct (exec sched s1) as [[s2 es2]|] eqn:E2; [|done]. intros ?. simplify_eq.
    eapply run_cons; [by econstructor|by apply IH].
Qed.

End thread_steps.

(** ** Monitors

    A component whose threads synchronise on one mutex: where its threads are,
    who owns the mutex, at which program points it is held, and that starting
    and stepping keep [mutex_inv]. *)
Class Monitor {S E C P : Type} (tstep : nat → C → S → option (outcome (S * list E))) (start : S → Prop) : Type := {
  m_owner : S → option nat;
  m_threads : S → gmap nat P;
  m_crit : P → bool;
  m_start s : start s → mutex_inv m_crit (m_owner s) (m_threads s);
  m_step t ch s s' es :
    tstep t ch s = Some (Done (s', es)) → mutex_inv m_crit (m_owner s) (m_threads s) →
    mutex_inv m_crit (m_owner s') (m_threads s');
}.

(** At most one thread is at a point where the mutex is held, its owner, and
    the mutex has no owner otherwise. *)
Definition exclusive {P} (crit : P → bool) (o : option nat) (m : gmap nat P) : Prop :=
  (∀ t1 t2 p1 p2, m !! t1 = Some p1 → m !! t2 = Some p2 → crit p1 = true → crit p2 = true → t1 = t2) ∧
  (∀ t, o = Some t ↔ ∃ p, m !! t = Some p ∧ crit p = true).

Section monitor.
Context {S E C P : Type} (tstep : nat → C → S → option (outcome (S * list E))) (start : S → Prop).
Context `{!Monitor (P := P) tstep start}.

Lemma monitor_reachable s0 es s :
  start s0 → run (thread_step tstep) s0 es s → mutex_inv m_crit (m_owner s) (m_threads s).
Proof.
  intros Hs Hr.
  apply (run_state_invariant (thread_step tstep) (λ s, mutex_inv m_crit (m_owner s) (m_threads s)) s0 es s); [| |done].
  - by apply m_start.
  - intros s1 es1 s2 Hi Hst. inversion Hst as [t ch ? ? ? H]; subst. by eapply m_step.
Qed.

Lemma monitor_exclusive s0 es s :
  start s0 → run (thread_step tstep) s0 es s → exclusive m_crit (m_owner s) (m_threads s).
Proof.
  intros Hs Hr. pose proof (monitor_reachable _ _ _ Hs Hr) as Hm. split.
  - intros t1 t2 p1 p2 H1 H2 H3 H4. by eapply mutex_exclusive.
  - intros t. split.
    + intros Ho. rewrite Ho in Hm. by destruct Hm.
    + intros (p & Ht & Hp). by eapply mutex_owner.
Qed.

End monitor.

(** ** Case analysis on steps *)

(** The counts of the thread table after a step. *)
Ltac count_threads :=
  repeat match goal with
  | |- context [cnt ?f (<[?t := ?p']> ?m)] =>
      match goal with H : m !! t = Some ?p |- _ => rewrite (cnt_update f m t p p' H) end
  end.

(** The entry of a thread that does not wait, in a table where a waiter was woken. *)
Lemma lookup_woken {P} (m : gmap nat P) t u p pu p' :
  m !! t = Some p → m !! u = Some pu → p ≠ pu → <[u := p']> m !! t = Some p.
Proof. intros Ht Hu Hne. rewrite lookup_insert_ne; [done|]. intros ->. congruence. Qed.

Ltac note_woken :=
  repeat match goal with
  | Hpc : ?m !! ?t = Some ?p, Hu : ?m !! ?u = Some ?pu |- context [<[?u := ?p']> ?m] =>
      lazymatch goal with
      | _ : <[u := p']> m !! t = Some p |- _ => fail
      | _ => pose proof (lookup_woken m t u p pu p' Hpc Hu ltac:(discriminate))
      end
  end.

