(* ===== verification/Resources.v ===== *)
(** Constructors and destructors of the concurrent components acquire and
    release objects of the C library one by one; on an error path they must
    release exactly what they acquired.  The state is the list of what is
    held, the last acquired first. *)
From S2P Require Import Prelude.

Section resources.
Context {R : Type} `{EqDecision R}.

(** [r] is acquired when the library call succeeds. *)
Definition acquire (r : R) (success : bool) : ST (list R) bool := λ h,
  Done (success, if success then r :: h else h).

Fixpoint remove_one (r : R) (h : list R) : option (list R) :=
  match h with
  | [] => None
  | r' :: h => if decide (r = r') then Some h else cons r' <$> remove_one r h
  end.

(** Releasing what is not held is a double free. *)
Definition release (r : R) : ST (list R) unit := λ h,
  match remove_one r h with Some h' => Done (tt, h') | None => Fault UseAfterFree end.

Fixpoint release_all (rs : list R) : ST (list R) unit :=
  match rs with [] => mret tt | r :: rs => _ ← release r; release_all rs end.

Lemma remove_one_perm r h : r ∈ h → ∃ h', remove_one r h = Some h' ∧ h ≡ₚ r :: h'.
Proof.
  induction h as [|r' h IH]; [by intros ?%elem_of_nil|]. intros Hr. simpl.
  destruct (decide (r = r')) as [->|Hne]; [eauto|].
  apply elem_of_cons in Hr as [|Hr]; [done|]. destruct (IH Hr) as (h' & -> & Hp).
  exists (r' :: h'). split; [done|]. rewrite Hp. apply Permutation_swap.
Qed.

(** Releasing exactly what was acquired restores what was held before. *)
Lemma release_all_ok rs : ∀ h h0, h ≡ₚ rs ++ h0 → ∃ h', release_all rs h = Done (tt, h') ∧ h' ≡ₚ h0.
Proof.
  induction rs as [|r rs IH]; intros h h0 Hp; simpl; [eauto|].
  destruct (remove_one_perm r h) as (h1 & E & Hp1).
  { rewrite Hp. constructor. }
  unfold mbind, st_bind, release. rewrite E. apply IH.
  rewrite Hp1 in Hp. by apply (inj (r ::.)) in Hp.
Qed.

Lemma acquire_wp r b (Q : bool → list R → Prop) h :
  Q b (if b then r :: h else h) → wp (acquire r b) Q h.
Proof. done. Qed.

Lemma release_wp r (Q : unit → list R → Prop) h h0 :
  h ≡ₚ r :: h0 → (∀ h', h' ≡ₚ h0 → Q tt h') → wp (release r) Q h.
Proof.
  intros Hp HQ. destruct (remove_one_perm r h) as (h1 & E & Hp1); [rewrite Hp; constructor|].
  unfold wp, release. rewrite E. apply HQ. rewrite Hp1 in Hp. by apply (inj (r ::.)) in Hp.
Qed.

End resources.
