(* ===== verification/BoundedQueue.v ===== *)
(** The bounded blocking queue: [03_threads/producer_consumer/queue.c].

    Each function is the list of its program points; a step of a thread is one
    lock operation, or the code between two of them, which runs with the mutex
    held.  Any number of threads call any functions in any order. *)
From S2P Require Import Prelude Ring Threads Resources.

Module BoundedQueue.

Inductive call : Type :=
| Enqueue (item : Z)
| Dequeue
| TryDequeue
| Size.

(** Program points.  [...Wait]: blocked in [pthread_cond_wait]; [...Woken]:
    woken, not yet holding the mutex again; [...Fail]: the wait returned an
    error. *)
Inductive pc : Type :=
| Idle
| EnqLock (item : Z) | EnqTest (item : Z) | EnqWait (item : Z) | EnqWoken (item : Z)
| EnqFail | EnqSignal | EnqUnlock
| DeqLock | DeqTest | DeqWait | DeqWoken | DeqFail | DeqSignal (item : Z) | DeqUnlock (item : Z)
| TryLock | TryTest | TrySignal (item : Z) | TryUnlock (item : Z)
| SizeLock | SizeRead | SizeUnlock (n : Z).

(** [Put] and [Got] mark an item entering and leaving; [Return] the value a
    call returns. *)
Inductive event : Type :=
| Put (t : nat) (item : Z)
| Got (t : nat) (item : Z)
| Return (t : nat) (r : Z).

(** How nondeterminism is resolved: which function a thread calls, success or
    failure of a pthread call, which waiter a signal wakes. *)
Inductive choice : Type :=
| Start (c : call)
| Go
| Fail
| Wake (w : option nat).

Record queue : Type := mkQueue {
  ring : Ring.ring Z;
  owner : option nat;
  threads : gmap nat pc;
}.

Definition goto (t : nat) (p : pc) (q : queue) : queue :=
  mkQueue (ring q) (owner q) (<[t := p]> (threads q)).
Definition set_owner (o : option nat) (q : queue) : queue := mkQueue (ring q) o (threads q).
Definition set_ring (r : Ring.ring Z) (q : queue) : queue := mkQueue r (owner q) (threads q).
Definition set_threads (m : gmap nat pc) (q : queue) : queue := mkQueue (ring q) (owner q) m.

(** A step that is not enabled is [None]; one that hits undefined behaviour is
    a fault. *)
Definition result : Type := option (outcome (queue * list event)).
Definition ok (q : queue) (es : list event) : result := Some (Done (q, es)).

(** ** The mutex *)
Definition lock (t : nat) (p : pc) (q : queue) : result :=
  match owner q with None => ok (goto t p (set_owner (Some t) q)) [] | Some _ => None end.

Definition unlock_return (t : nat) (r : Z) (q : queue) : result :=
  ok (goto t Idle (set_owner None q)) [Return t r].

(** [pthread_cond_wait]: releases the mutex and blocks. *)
Definition wait (t : nat) (p : pc) (q : queue) : result :=
  ok (goto t p (set_owner None q)) [].

(** ** The two condition variables *)
Definition waits_full (p : pc) : bool := match p with EnqWait _ => true | _ => false end.
Definition waits_empty (p : pc) : bool := match p with DeqWait => true | _ => false end.

Definition woken (p : pc) : pc :=
  match p with EnqWait i => EnqWoken i | DeqWait => DeqWoken | p => p end.

Definition signal (waits : pc → bool) (w : option nat) (t : nat) (p : pc) (q : queue) : result :=
  match cond_signal waits woken w (threads q) with
  | Some m => ok (goto t p (set_threads m q)) []
  | None => None
  end.

(** A ring operation inside the critical section. *)
Definition with_ring {A} (m : ST (Ring.ring Z) A) (k : A → queue → queue * list event) (q : queue)
  : result :=
  match m (ring q) with
  | Done (x, r) => Some (Done (k x (set_ring r q)))
  | Fault e => Some (Fault e)
  | NoFuel => Some NoFuel
  end.

Definition is_full (q : queue) : bool := Ring.capacity (ring q) <=? Ring.size (ring q).
Definition is_empty (q : queue) : bool := Ring.size (ring q) =? 0.

(** ** The functions *)
Definition queue_enqueue (t : nat) (p : pc) (ch : choice) (q : queue) : result :=
  match p, ch with
  | EnqLock item, Go => lock t (EnqTest item) q
  | EnqLock _, Fail => ok (goto t Idle q) [Return t (-1)]
  | EnqTest item, Go =>
      if is_full q then wait t (EnqWait item) q
      else with_ring (Ring.push item) (λ _ q', (goto t EnqSignal q', [Put t item])) q
  | EnqTest _, Fail => if is_full q then ok (goto t EnqFail q) [] else None
  | EnqWait item, Go => ok (goto t (EnqWoken item) q) []
  | EnqWoken item, Go => lock t (EnqTest item) q
  | EnqFail, Go => unlock_return t (-1) q
  | EnqSignal, Wake w => signal waits_empty w t EnqUnlock q
  | EnqUnlock, Go => unlock_return t 0 q
  | _, _ => None
  end.

Definition queue_dequeue (t : nat) (p : pc) (ch : choice) (q : queue) : result :=
  match p, ch with
  | DeqLock, Go => lock t DeqTest q
  | DeqLock, Fail => ok (goto t Idle q) [Return t NULL]
  | DeqTest, Go =>
      if is_empty q then wait t DeqWait q
      else with_ring Ring.pop (λ item q', (goto t (DeqSignal item) q', [Got t item])) q
  | DeqTest, Fail => if is_empty q then ok (goto t DeqFail q) [] else None
  | DeqWait, Go => ok (goto t DeqWoken q) []
  | DeqWoken, Go => lock t DeqTest q
  | DeqFail, Go => unlock_return t NULL q
  | DeqSignal item, Wake w => signal waits_full w t (DeqUnlock item) q
  | DeqUnlock item, Go => unlock_return t item q
  | _, _ => None
  end.

Definition queue_try_dequeue (t : nat) (p : pc) (ch : choice) (q : queue) : result :=
  match p, ch with
  | TryLock, Go => lock t TryTest q
  | TryLock, Fail => ok (goto t Idle q) [Return t NULL]
  | TryTest, Go =>
      if 0 <? Ring.size (ring q)
      then with_ring Ring.pop (λ item q', (goto t (TrySignal item) q', [Got t item])) q
      else ok (goto t (TryUnlock NULL) q) []
  | TrySignal item, Wake w => signal waits_full w t (TryUnlock item) q
  | TryUnlock item, Go => unlock_return t item q
  | _, _ => None
  end.

Definition queue_size (t : nat) (p : pc) (ch : choice) (q : queue) : result :=
  match p, ch with
  | SizeLock, Go => lock t SizeRead q
  | SizeRead, Go => ok (goto t (SizeUnlock (Ring.size (ring q))) q) []
  | SizeUnlock n, Go => unlock_return t n q
  | _, _ => None
  end.

(** Entering a function: the NULL-item check, then the lock. *)
Definition enter (t : nat) (c : call) (q : queue) : result :=
  match c with
  | Enqueue item =>
      if item =? NULL then ok q [Return t (-1)] else ok (goto t (EnqLock item) q) []
  | Dequeue => ok (goto t DeqLock q) []
  | TryDequeue => ok (goto t TryLock q) []
  | Size => ok (goto t SizeLock q) []
  end.

(** One step of thread [t]. *)
Definition tstep (t : nat) (ch : choice) (q : queue) : result :=
  match threads q !! t with
  | None => None
  | Some Idle => match ch with Start c => enter t c q | _ => None end
  | Some ((EnqLock _ | EnqTest _ | EnqWait _ | EnqWoken _ | EnqFail | EnqSignal | EnqUnlock) as p) =>
      queue_enqueue t p ch q
  | Some ((DeqLock | DeqTest | DeqWait | DeqWoken | DeqFail | DeqSignal _ | DeqUnlock _) as p) =>
      queue_dequeue t p ch q
  | Some ((TryLock | TryTest | TrySignal _ | TryUnlock _) as p) => queue_try_dequeue t p ch q
  | Some ((SizeLock | SizeRead | SizeUnlock _) as p) => queue_size t p ch q
  end.

Definition step : queue → list event → queue → Prop := thread_step tstep.

(** A fresh queue and [n] threads that have not called anything. *)
Definition start (cap : Z) (n : nat) : queue :=
  mkQueue (Ring.empty cap) None (list_to_map ((λ t, (t, Idle)) <$> seq 0 n)).

(** ** Creation and destruction: what is held of the C library *)
Inductive resource : Type := QueueMem | ItemsMem | Mutex | CondFull | CondEmpty.
#[export] Instance resource_eq_dec : EqDecision resource.
Proof. solve_decision. Defined.

(** Which of the library calls succeed. *)
Record create_calls : Type := mkCalls {
  c_queue : bool; c_items : bool; c_mutex : bool; c_full : bool; c_empty : bool;
}.

Definition queue_create (o : create_calls) (cap : Z) : ST (list resource) (option (Ring.ring Z)) :=
  b ← acquire QueueMem (c_queue o);
  if negb b then mret None else
  b ← acquire ItemsMem (c_items o);
  if negb b then _ ← release QueueMem; mret None else
  b ← acquire Mutex (c_mutex o);
  if negb b then _ ← release ItemsMem; _ ← release QueueMem; mret None else
  b ← acquire CondFull (c_full o);
  if negb b then _ ← release Mutex; _ ← release ItemsMem; _ ← release QueueMem; mret None else
  b ← acquire CondEmpty (c_empty o);
  if negb b then
    _ ← release CondFull; _ ← release Mutex; _ ← release ItemsMem; _ ← release QueueMem; mret None
  else mret (Some (Ring.empty cap)).

(** [None]: a NULL queue. *)
Definition queue_destroy (q : option (Ring.ring Z)) : ST (list resource) unit :=
  match q with
  | None => mret tt
  | Some _ => release_all [CondEmpty; CondFull; Mutex; ItemsMem; QueueMem]
  end.

End BoundedQueue.
