(* ===== verification/QueueTheorems.v ===== *)
(** The properties of the bounded queue, under every interleaving: mutual
    exclusion, bounds, FIFO order without loss or duplication, absence of
    undefined behaviour, and absence of lost wakeups. *)
From S2P Require Import Prelude Ring Threads Resources BoundedQueue.
Import BoundedQueue.

(** ** Classes of program points *)

(** The mutex is held here. *)
Definition crit (p : pc) : bool :=
  match p with
  | EnqTest _ | EnqFail | EnqSignal | EnqUnlock
  | DeqTest | DeqFail | DeqSignal _ | DeqUnlock _
  | TryTest | TrySignal _ | TryUnlock _ | SizeRead | SizeUnlock _ => true
  | _ => false
  end.

(** Consumers on their way to the emptiness test, and wakeups of consumers
    still to be sent; the same for producers. *)
Definition con_active (p : pc) : bool :=
  match p with DeqWoken | DeqTest | EnqSignal => true | _ => false end.
Definition prod_active (p : pc) : bool :=
  match p with EnqWoken _ | EnqTest _ | DeqSignal _ | TrySignal _ => true | _ => false end.

Definition puts (es : list event) : list Z :=
  omap (λ e, match e with Put _ x => Some x | _ => None end) es.
Definition gots (es : list event) : list Z :=
  omap (λ e, match e with Got _ x => Some x | _ => None end) es.

(** ** Case analysis on a step *)

(** All the ways thread [t] can have moved; [H : tstep t ch q = Some ..]. *)
Ltac step_cases ch H :=
  unfold tstep in H;
  let p := fresh "p" in let Hpc := fresh "Hpc" in
  match type of H with context [threads ?q !! ?t] =>
    destruct (threads q !! t) as [p|] eqn:Hpc; [|discriminate H] end;
  destruct p, ch; simpl in H; try discriminate H;
  unfold enter, lock, unlock_return, wait, signal, with_ring, ok in H;
  repeat (case_match; try discriminate H); simplify_eq/=;
  repeat match goal with
  | Hs : cond_signal _ _ _ _ = Some _ |- _ =>
      let u := fresh "u" in let pu := fresh "pu" in let Hu := fresh "Hu" in let Hpu := fresh "Hpu" in
      apply cond_signal_spec in Hs as [[-> Hs]|(u & pu & Hu & Hpu & ->)];
      [|destruct pu; try discriminate Hpu]
  end.

(** ** Mutual exclusion *)
Lemma queue_mutex_step t ch q q' es :
  tstep t ch q = Some (Done (q', es)) → mutex_inv crit (owner q) (threads q) →
  mutex_inv crit (owner q') (threads q').
Proof.
  intros H Hm. step_cases ch H; note_woken; solve_mutex Hm.
Qed.

(** ** The data: bounds and FIFO order *)

Definition data_inv (cap : Z) (q : queue) (es : list event) : Prop :=
  ∃ l, Ring.holds (ring q) l ∧ puts es = gots es ++ l ∧ Ring.capacity (ring q) = cap.

Lemma puts_app es es' : puts (es ++ es') = puts es ++ puts es'.
Proof. apply omap_app. Qed.
Lemma gots_app es es' : gots (es ++ es') = gots es ++ gots es'.
Proof. apply omap_app. Qed.

Lemma queue_data_step cap t ch q q' es es' :
  tstep t ch q = Some (Done (q', es')) → data_inv cap q es → data_inv cap q' (es ++ es').
Proof.
  unfold data_inv. rewrite puts_app, gots_app. intros H (l & Hl & Hes & Hc).
  step_cases ch H; try (exists l; rewrite !app_nil_r; done).
  all: match goal with
  | E : Ring.push _ _ = Done _ |- _ =>
      unfold is_full in *; destruct (Ring.push_done _ _ _ _ _ Hl ltac:(lia) E) as (Hl' & Hc' & _);
      exists (l ++ [item]); rewrite !app_nil_r, Hes, <- app_assoc; split_and!; congruence || done
  | E : Ring.pop _ = Done _ |- _ =>
      unfold is_empty in *; destruct (Ring.pop_done _ _ _ _ Hl ltac:(lia) E) as (l' & -> & Hl' & Hc' & _);
      exists l'; rewrite !app_nil_r, Hes, <- app_assoc; split_and!; congruence || done
  end.
Qed.

(** ** Wakeups *)

(** A consumer waits only while every queued item has a consumer on its way. *)
Definition consumers_inv (q : queue) : Prop :=
  0 < cnt waits_empty (threads q) → Ring.size (ring q) ≤ cnt con_active (threads q).
(** A producer waits only while every free slot has a producer on its way. *)
Definition producers_inv (q : queue) : Prop :=
  0 < cnt waits_full (threads q) →
  Ring.capacity (ring q) - Ring.size (ring q) ≤ cnt prod_active (threads q).

Ltac know_counts q :=
  pose proof (cnt_nonneg waits_empty (threads q)); pose proof (cnt_nonneg waits_full (threads q));
  pose proof (cnt_nonneg con_active (threads q)); pose proof (cnt_nonneg prod_active (threads q)).

(** A thread at an active point counts. *)
Ltac know_active :=
  match goal with
  | H : threads ?q !! ?t = Some ?p |- context [<[?t := _]> _] =>
      pose proof (cnt_at con_active _ _ _ H); pose proof (cnt_at prod_active _ _ _ H)
  end.

Lemma wakeups_step t ch q q' es l :
  tstep t ch q = Some (Done (q', es)) → Ring.holds (ring q) l →
  consumers_inv q → producers_inv q → consumers_inv q' ∧ producers_inv q'.
Proof.
  unfold consumers_inv, producers_inv. intros H Hl Hcon Hprod. know_counts q.
  step_cases ch H; try done; note_woken; unfold is_full, is_empty in *;
  note_ring Hl; know_active; count_threads; simpl in *; lia.
Qed.

(** ** Reachable states *)

Record inv (cap : Z) (q : queue) (es : list event) : Prop := {
  i_mutex : mutex_inv crit (owner q) (threads q);
  i_data : data_inv cap q es;
  i_cons : consumers_inv q;
  i_prod : producers_inv q;
}.

Lemma queue_start_threads cap n t p : threads (start cap n) !! t = Some p → p = Idle.
Proof.
  simpl. intros H%elem_of_list_to_map_2. by apply list_elem_of_fmap in H as (i & [= _ ->] & _).
Qed.

Lemma start_count f cap n : f Idle = false → cnt f (threads (start cap n)) = 0.
Proof. intros Hf. apply cnt_zero. intros t p ->%queue_start_threads. done. Qed.

Lemma queue_start_inv cap n : Ring.cap_ok cap → inv cap (start cap n) [].
Proof.
  intros Hc. split.
  - apply mutex_init. by intros t p ->%queue_start_threads.
  - exists []. split_and!; [by apply Ring.holds_empty|done..].
  - intros Hw. by rewrite start_count in Hw.
  - intros Hw. by rewrite start_count in Hw.
Qed.

Lemma queue_inv_step cap q es q' es' : inv cap q es → step q es' q' → inv cap q' (es ++ es').
Proof.
  intros [Hm Hd Hc Hp] Hs. inversion Hs as [t ch ? ? ? H]; subst. pose proof Hd as (l & Hl & _).
  destruct (wakeups_step _ _ _ _ _ _ H Hl Hc Hp).
  split; [by eapply queue_mutex_step|by eapply queue_data_step|done..].
Qed.

Lemma queue_reachable_inv cap n es q : Ring.cap_ok cap → run step (start cap n) es q → inv cap q es.
Proof.
  intros Hc Hr. apply (run_invariant step (inv cap) (start cap n) es q); [by apply queue_start_inv| |done].
  intros s1 es1 es2 s2. apply queue_inv_step.
Qed.

(** A run of two threads on a queue of one slot: thread 0 enqueues 7, thread 1
    dequeues it, thread 0 enqueues 8 and is about to signal. *)
Definition demo_schedule : list (nat * choice) :=
  [(0%nat, Start (Enqueue 7)); (0%nat, Go); (0%nat, Go); (0%nat, Wake None); (0%nat, Go);
   (1%nat, Start Dequeue); (1%nat, Go); (1%nat, Go); (1%nat, Wake None);
   (0%nat, Start (Enqueue 8)); (1%nat, Go); (0%nat, Go); (0%nat, Go)].

Definition demo_queue : queue :=
  match exec tstep demo_schedule (start 1 2) with Some (q, _) => q | None => start 1 2 end.
Definition demo_events : list event :=
  [Put 0 7; Return 0 0; Got 1 7; Return 1 7; Put 0 8].

Lemma queue_demo_run : run step (start 1 2) demo_events demo_queue.
Proof.
  apply (exec_run tstep demo_schedule). vm_compute. reflexivity.
Qed.

Lemma cap_ok_1 : Ring.cap_ok 1.
Proof. split; [reflexivity|discriminate]. Qed.

(** Mutual exclusion: in every reachable state at most one thread is between
    taking and releasing the mutex. *)
Theorem queue_mutual_exclusion cap n es q t1 t2 p1 p2 :
  Ring.cap_ok cap → run step (start cap n) es q →
  threads q !! t1 = Some p1 → threads q !! t2 = Some p2 → crit p1 = true → crit p2 = true →
  t1 = t2 ∧ owner q = Some t1.
Proof.
  intros Hc Hr H1 H2 Hp1 Hp2. pose proof (i_mutex _ _ _ (queue_reachable_inv _ _ _ _ Hc Hr)) as Hm.
  split; [by eapply mutex_exclusive|by eapply mutex_owner].
Qed.

Lemma queue_mutual_exclusion_witness : 0%nat = 0%nat ∧ owner demo_queue = Some 0%nat.
Proof.
  apply (queue_mutual_exclusion 1 2 demo_events demo_queue 0 0 EnqSignal EnqSignal);
    [apply cap_ok_1|apply queue_demo_run|vm_compute; reflexivity..].
Defined.

(** C12. The queue is a bounded FIFO under every interleaving: what was
    enqueued, in order, is what was dequeued, in order, followed by what the
    ring still holds, which is never more than [capacity] items. *)
Theorem queue_fifo cap n es q :
  Ring.cap_ok cap → run step (start cap n) es q →
  ∃ l, Ring.holds (ring q) l ∧ puts es = gots es ++ l ∧ Z.of_nat (length l) ≤ cap.
Proof.
  intros Hc Hr. destruct (i_data _ _ _ (queue_reachable_inv _ _ _ _ Hc Hr)) as (l & Hl & Hes & Hcap).
  exists l. split_and!; [done..|]. rewrite <- Hcap. apply (Ring.h_len _ _ Hl).
Qed.

Lemma queue_fifo_witness :
  ∃ l, Ring.holds (ring demo_queue) l ∧ [7; 8] = [7] ++ l ∧ Z.of_nat (length l) ≤ 1.
Proof. apply (queue_fifo 1 2 demo_events demo_queue); [apply cap_ok_1|apply queue_demo_run]. Defined.

(** No step of a reachable state is undefined: no array access out of
    bounds, no read of a slot that was never written, no [int] overflow, no
    remainder by zero, for capacities up to [2^30]. *)
Theorem queue_no_fault cap n es q t ch e :
  Ring.cap_ok cap → run step (start cap n) es q → tstep t ch q ≠ Some (Fault e).
Proof.
  intros Hc Hr H. destruct (i_data _ _ _ (queue_reachable_inv _ _ _ _ Hc Hr)) as (l & Hl & _).
  step_cases ch H; unfold is_full, is_empty in *.
  - destruct (Ring.push_returns item _ _ Hl ltac:(lia)) as (? & ? & ?); congruence.
  - destruct (Ring.pop_returns _ _ Hl ltac:(lia)) as (? & ? & ?); congruence.
  - destruct (Ring.pop_returns _ _ Hl ltac:(lia)) as (? & ? & ?); congruence.
Qed.

Lemma queue_no_fault_witness : tstep 0 (Wake None) demo_queue ≠ Some (Fault OutOfBounds).
Proof. apply (queue_no_fault 1 2 demo_events); [apply cap_ok_1|apply queue_demo_run]. Defined.

(** ** Progress *)

Definition waiting (p : pc) : bool := waits_full p || waits_empty p.

Lemma signal_enabled waits t p q : ∃ w q' es, signal waits w t p q = Some (Done (q', es)).
Proof.
  destruct (cond_signal_enabled waits woken (threads q)) as (w & m & E).
  exists w. unfold signal. rewrite E. by eexists _, _.
Qed.

(** The thread that holds the mutex can move. *)
Lemma queue_crit_moves t p q l :
  threads q !! t = Some p → crit p = true → Ring.holds (ring q) l →
  ∃ ch q' es, tstep t ch q = Some (Done (q', es)).
Proof.
  intros Ht Hp Hl. pose proof (Ring.holds_bounds _ _ Hl). unfold tstep. rewrite Ht.
  destruct p; try discriminate Hp; simpl.
  all: try (exists Go; unfold unlock_return, ok; simpl; by eexists _, _).
  all: try (lazymatch goal with |- context [signal ?ws _ ?t ?p ?q] =>
      destruct (signal_enabled ws t p q) as (w & q' & es & E); exists (Wake w); simpl; eauto end).
  - exists Go. simpl. unfold is_full, with_ring, wait, ok. destruct (Z.leb_spec (Ring.capacity (ring q)) (Ring.size (ring q))).
    + by eexists _, _.
    + destruct (Ring.push_returns item _ _ Hl) as (u & r & ->); [lia|]. by eexists _, _.
  - exists Go. simpl. unfold is_empty, with_ring, wait, ok. destruct (Z.eqb_spec (Ring.size (ring q)) 0).
    + by eexists _, _.
    + destruct (Ring.pop_returns _ _ Hl) as (x & r & ->); [lia|]. by eexists _, _.
  - exists Go. simpl. unfold with_ring, ok. destruct (Z.ltb_spec 0 (Ring.size (ring q))).
    + destruct (Ring.pop_returns _ _ Hl) as (x & r & ->); [lia|]. by eexists _, _.
    + by eexists _, _.
Qed.

(** With the mutex free, every thread in a call that does not wait can move. *)
Lemma queue_free_moves t p q :
  threads q !! t = Some p → crit p = false → waiting p = false → p ≠ Idle → owner q = None →
  ∃ ch q' es, tstep t ch q = Some (Done (q', es)).
Proof.
  intros Ht Hp Hw Hi Ho. unfold tstep. rewrite Ht.
  destruct p; try discriminate; try done; exists Go; simpl; unfold lock, ok; rewrite Ho;
    by eexists _, _.
Qed.

(** C13. No deadlock and no lost wakeup: in every reachable state, either a
    thread that is inside a call and not asleep can take a step, or every
    thread is idle or asleep, and then consumers sleep only if the queue is
    empty and producers only if it is full — never both. *)
Theorem queue_progress cap n es q :
  Ring.cap_ok cap → run step (start cap n) es q →
  (∃ t p ch q' es', threads q !! t = Some p ∧ p ≠ Idle ∧ waiting p = false ∧
     tstep t ch q = Some (Done (q', es'))) ∨
  (∀ t p, threads q !! t = Some p → p = Idle ∨ waiting p = true) ∧
  (∀ t p, threads q !! t = Some p → waits_empty p = true → Ring.size (ring q) = 0) ∧
  (∀ t p, threads q !! t = Some p → waits_full p = true → Ring.size (ring q) = cap).
Proof.
  intros Hc Hr. destruct (queue_reachable_inv _ _ _ _ Hc Hr) as [Hm (l & Hl & _ & Hcap) Hcon Hprod].
  pose proof (Ring.holds_bounds _ _ Hl) as Hb.
  set (busy p := negb (waiting p) && negb (match p with Idle => true | _ => false end)).
  destruct (decide (0 < cnt busy (threads q))) as [Hbusy|Hno].
  - left. apply cnt_pos in Hbusy as (t & p & Ht & Hp). unfold busy in Hp.
    destruct (waiting p) eqn:Hw; [done|].
    destruct (owner q) as [o|] eqn:Ho; simpl in Hm.
    + destruct Hm as (_ & po & Hto & Hpo).
      destruct (queue_crit_moves _ _ _ _ Hto Hpo Hl) as (ch & q' & es' & E).
      exists o, po, ch, q', es'. split; [done|]. by destruct po.
    + pose proof (proj1 (cnt_zero crit (threads q)) Hm t p Ht) as Hcp.
      assert (p ≠ Idle) as Hi by (by intros ->).
      destruct (queue_free_moves t p q Ht Hcp Hw Hi Ho) as (ch & q' & es' & E).
      by exists t, p, ch, q', es'.
  - right. pose proof (cnt_nonneg busy (threads q)).
    assert (Hz : cnt busy (threads q) = 0) by lia. pose proof (proj1 (cnt_zero _ _) Hz) as Hall.
    assert (cnt con_active (threads q) = 0) as Hca.
    { apply cnt_zero. intros t p Ht. specialize (Hall t p Ht). by destruct p. }
    assert (cnt prod_active (threads q) = 0) as Hpa.
    { apply cnt_zero. intros t p Ht. specialize (Hall t p Ht). by destruct p. }
    unfold consumers_inv, producers_inv in *. split_and!.
    + intros t p Ht. specialize (Hall t p Ht). destruct p; auto; done.
    + intros t p Ht Hp. assert (0 < cnt waits_empty (threads q)) by (apply cnt_pos; eauto). lia.
    + intros t p Ht Hp. assert (0 < cnt waits_full (threads q)) by (apply cnt_pos; eauto). lia.
Qed.

Lemma queue_progress_witness :
  (∃ t p ch q' es', threads demo_queue !! t = Some p ∧ p ≠ Idle ∧ waiting p = false ∧
     tstep t ch demo_queue = Some (Done (q', es'))) ∨
  (∀ t p, threads demo_queue !! t = Some p → p = Idle ∨ waiting p = true) ∧
  (∀ t p, threads demo_queue !! t = Some p → waits_empty p = true → Ring.size (ring demo_queue) = 0) ∧
  (∀ t p, threads demo_queue !! t = Some p → waits_full p = true → Ring.size (ring demo_queue) = 1).
Proof. apply (queue_progress 1 2 demo_events); [apply cap_ok_1|apply queue_demo_run]. Defined.

(** ** A whole call, uncontended *)

Lemma exec_step t ch sched q q1 es1 q2 es2 :
  tstep t ch q = Some (Done (q1, es1)) → exec tstep sched q1 = Some (q2, es2) →
  exec tstep ((t, ch) :: sched) q = Some (q2, es1 ++ es2).
Proof. intros E1 E2. simpl. by rewrite E1, E2. Qed.

Lemma tstep_at t p ch q r :
  threads q !! t = Some p →
  match p with
  | Idle => match ch with Start c => enter t c q | _ => None end
  | EnqLock _ | EnqTest _ | EnqWait _ | EnqWoken _ | EnqFail | EnqSignal | EnqUnlock =>
      queue_enqueue t p ch q
  | DeqLock | DeqTest | DeqWait | DeqWoken | DeqFail | DeqSignal _ | DeqUnlock _ =>
      queue_dequeue t p ch q
  | TryLock | TryTest | TrySignal _ | TryUnlock _ => queue_try_dequeue t p ch q
  | SizeLock | SizeRead | SizeUnlock _ => queue_size t p ch q
  end = r → tstep t ch q = r.
Proof. intros Ht <-. unfold tstep. by rewrite Ht. Qed.

(** Run the next step of [t], which is at a known program point. *)
Ltac exec_next :=
  eapply exec_step; [eapply tstep_at; [simpl; first [eassumption | apply lookup_insert_eq]|simpl]|].

(** What a signal does to everything but the woken thread. *)
Lemma signal_done waits t p pt q :
  threads q !! t = Some pt → waits pt = false →
  ∃ w q', signal waits w t p q = Some (Done (q', [])) ∧ ring q' = ring q ∧ owner q' = owner q ∧
    threads q' !! t = Some p.
Proof.
  intros Ht Hp. destruct (cond_signal_enabled waits woken (threads q)) as (w & m & E).
  exists w. unfold signal. rewrite E. eexists. split; [done|]. simpl. by rewrite lookup_insert_eq.
Qed.

(** What is left behind by a call of [t] that returned, with [l] in the queue. *)
Definition returned (t : nat) (l : list Z) (q : queue) : Prop :=
  Ring.holds (ring q) l ∧ owner q = None ∧ threads q !! t = Some Idle.

(** An enqueue that finds the mutex free and the queue not full returns 0
    without blocking, with its item at the back and the mutex released. *)
Theorem queue_enqueue_returns t item q l :
  threads q !! t = Some Idle → owner q = None → item ≠ NULL →
  Ring.holds (ring q) l → Z.of_nat (length l) < Ring.capacity (ring q) →
  ∃ w q', exec tstep [(t, Start (Enqueue item)); (t, Go); (t, Go); (t, Wake w); (t, Go)] q =
      Some (q', [Put t item; Return t 0]) ∧
    returned t (l ++ [item]) q'.
Proof.
  intros Ht Ho Hi Hl Hlen. pose proof (Ring.h_size _ _ Hl) as Hsz.
  destruct (Ring.push_returns item _ _ Hl ltac:(lia)) as (u & r & E).
  destruct (Ring.push_done _ _ _ _ _ Hl ltac:(lia) E) as (Hr & _).
  set (q3 := goto t EnqSignal (set_ring r (goto t (EnqTest item) (set_owner (Some t)
    (goto t (EnqLock item) q))))).
  destruct (signal_done waits_empty t EnqUnlock EnqSignal q3) as (w & q4 & E4 & Hr4 & Ho4 & Ht4);
    [apply lookup_insert_eq|done|].
  exists w, (goto t Idle (set_owner None q4)). split.
  - change [Put t item; Return t 0] with ([] ++ [] ++ [Put t item] ++ [] ++ [Return t 0] ++ []).
    exec_next. { by rewrite (proj2 (Z.eqb_neq item NULL) Hi). }
    exec_next. { unfold lock. simpl. by rewrite Ho. }
    exec_next. { unfold is_full, with_ring. simpl. rewrite (proj2 (Z.leb_gt _ _)) by lia. by rewrite E. }
    exec_next. { exact E4. }
    exec_next. { done. } done.
  - unfold returned. simpl. rewrite Hr4. split_and!; [done..|apply lookup_insert_eq].
Qed.

Lemma queue_enqueue_returns_witness :
  ∃ w q', exec tstep [(0%nat, Start (Enqueue 7)); (0%nat, Go); (0%nat, Go); (0%nat, Wake w); (0%nat, Go)]
      (start 4 2) = Some (q', [Put 0 7; Return 0 0]) ∧
    returned 0 ([] ++ [7]) q'.
Proof.
  apply (queue_enqueue_returns 0 7 (start 4 2) []);
    [vm_compute; reflexivity|reflexivity|discriminate
    |apply Ring.holds_empty; split; [discriminate|discriminate]|vm_compute; reflexivity].
Defined.

Lemma dequeue_run t q x l :
  threads q !! t = Some Idle → owner q = None → Ring.holds (ring q) (x :: l) →
  ∃ w q', exec tstep [(t, Start Dequeue); (t, Go); (t, Go); (t, Wake w); (t, Go)] q =
    Some (q', [Got t x; Return t x]) ∧ returned t l q'.
Proof.
  intros Ht Ho Hl. pose proof (Ring.h_size _ _ Hl) as Hsz. simpl in Hsz.
  destruct (Ring.pop_returns _ _ Hl ltac:(lia)) as (y & r & E).
  destruct (Ring.pop_done _ _ _ _ Hl ltac:(lia) E) as (l' & [= <- <-] & Hr & _).
  set (q3 := goto t (DeqSignal x) (set_ring r (goto t DeqTest (set_owner (Some t) (goto t DeqLock q))))).
  destruct (signal_done waits_full t (DeqUnlock x) (DeqSignal x) q3) as (w & q4 & E4 & Hr4 & Ho4 & Ht4);
    [apply lookup_insert_eq|done|].
  exists w, (goto t Idle (set_owner None q4)). split.
  - change [Got t x; Return t x] with ([] ++ [] ++ [Got t x] ++ [] ++ [Return t x] ++ []).
    exec_next. { done. }
    exec_next. { unfold lock. simpl. by rewrite Ho. }
    exec_next. { unfold is_empty, with_ring. simpl. rewrite (proj2 (Z.eqb_neq _ 0)) by lia. by rewrite E. }
    exec_next. { exact E4. }
    exec_next. { done. } done.
  - unfold returned. simpl. rewrite Hr4. split_and!; [done..|apply lookup_insert_eq].
Qed.

Lemma try_dequeue_run t q x l :
  threads q !! t = Some Idle → owner q = None → Ring.holds (ring q) (x :: l) →
  ∃ w q', exec tstep [(t, Start TryDequeue); (t, Go); (t, Go); (t, Wake w); (t, Go)] q =
    Some (q', [Got t x; Return t x]) ∧ returned t l q'.
Proof.
  intros Ht Ho Hl. pose proof (Ring.h_size _ _ Hl) as Hsz. simpl in Hsz.
  destruct (Ring.pop_returns _ _ Hl ltac:(lia)) as (y & r & E).
  destruct (Ring.pop_done _ _ _ _ Hl ltac:(lia) E) as (l' & [= <- <-] & Hr & _).
  set (q3 := goto t (TrySignal x) (set_ring r (goto t TryTest (set_owner (Some t) (goto t TryLock q))))).
  destruct (signal_done waits_full t (TryUnlock x) (TrySignal x) q3) as (w & q4 & E4 & Hr4 & Ho4 & Ht4);
    [apply lookup_insert_eq|done|].
  exists w, (goto t Idle (set_owner None q4)). split.
  - change [Got t x; Return t x] with ([] ++ [] ++ [Got t x] ++ [] ++ [Return t x] ++ []).
    exec_next. { done. }
    exec_next. { unfold lock. simpl. by rewrite Ho. }
    exec_next. { unfold with_ring. simpl. rewrite (proj2 (Z.ltb_lt 0 _)) by lia. by rewrite E. }
    exec_next. { exact E4. }
    exec_next. { done. } done.
  - unfold returned. simpl. rewrite Hr4. split_and!; [done..|apply lookup_insert_eq].
Qed.

Lemma try_dequeue_empty_run t q :
  threads q !! t = Some Idle → owner q = None → Ring.holds (ring q) [] →
  ∃ q', exec tstep [(t, Start TryDequeue); (t, Go); (t, Go); (t, Go)] q = Some (q', [Return t NULL]) ∧
    ring q' = ring q ∧ returned t [] q'.
Proof.
  intros Ht Ho Hl. pose proof (Ring.h_size _ _ Hl) as Hsz. simpl in Hsz.
  eexists (goto t Idle (set_owner None (goto t (TryUnlock NULL) (goto t TryTest (set_owner (Some t)
    (goto t TryLock q)))))). split; [|split; [done|split_and!; [done..|apply lookup_insert_eq]]].
  change [Return t NULL] with ([] ++ [] ++ [] ++ [Return t NULL] ++ []).
  exec_next. { done. }
  exec_next. { unfold lock. simpl. by rewrite Ho. }
  exec_next. { simpl. by rewrite Hsz. }
  exec_next. { done. } done.
Qed.

(** A dequeue that finds the mutex free and the queue not empty returns the
    front item without blocking and leaves the others; [queue_try_dequeue] does
    the same, and answers NULL on an empty queue. *)
Theorem queue_dequeue_returns t q l :
  threads q !! t = Some Idle → owner q = None → Ring.holds (ring q) l →
  match l with
  | x :: l' => ∀ c, c = Dequeue ∨ c = TryDequeue →
      ∃ w q', exec tstep [(t, Start c); (t, Go); (t, Go); (t, Wake w); (t, Go)] q =
        Some (q', [Got t x; Return t x]) ∧ returned t l' q'
  | [] =>
      ∃ q', exec tstep [(t, Start TryDequeue); (t, Go); (t, Go); (t, Go)] q =
        Some (q', [Return t NULL]) ∧ ring q' = ring q ∧ returned t [] q'
  end.
Proof.
  intros Ht Ho Hl. destruct l as [|x l]; [by apply try_dequeue_empty_run|].
  intros c [-> | ->]; [by apply dequeue_run|by apply try_dequeue_run].
Qed.

Lemma queue_dequeue_returns_witness :
  ∃ q', exec tstep [(0%nat, Start TryDequeue); (0%nat, Go); (0%nat, Go); (0%nat, Go)] (start 4 2) =
      Some (q', [Return 0 NULL]) ∧
    ring q' = ring (start 4 2) ∧ returned 0 [] q'.
Proof.
  apply (queue_dequeue_returns 0 (start 4 2) []);
    [vm_compute; reflexivity|reflexivity|apply Ring.holds_empty; split; [discriminate|discriminate]].
Defined.

(** ** Construction and destruction *)

(** [queue_create] releases everything it acquired on every error path, and
    otherwise returns the empty queue holding its five resources, which
    [queue_destroy] releases exactly once. *)
Theorem queue_create_destroy o cap held :
  match queue_create o cap held with
  | Done (None, held') => held' = held ∧
      (c_queue o && c_items o && c_mutex o && c_full o && c_empty o) = false
  | Done (Some r, held') =>
      held' = [CondEmpty; CondFull; Mutex; ItemsMem; QueueMem] ++ held ∧ r = Ring.empty cap ∧
      queue_destroy (Some r) held' = Done (tt, held)
  | _ => False
  end.
Proof. destruct o as [[] [] [] [] []]; vm_compute; auto. Qed.
