(* ===== verification/ThreadPool.v ===== *)
(** The thread pool: [03_threads/thread_pool/thread_pool.c].

    Worker threads run [worker_thread]; any number of client threads submit
    tasks, wait for them and destroy the pool, in any order.  A step is one
    pthread operation or the code between two of them. *)
From S2P Require Import Prelude Ring Threads Resources.

Module ThreadPool.

Definition QUEUE_CAPACITY_MULTIPLIER : Z := 10.

(** [task_t]: a function pointer and its argument. *)
Record task : Type := Task { func : Z; arg : Z }.
#[export] Instance task_eq_dec : EqDecision task.
Proof. solve_decision. Defined.

Inductive call : Type :=
| Submit (x : task)
| WaitAll
| Destroy.

(** Program points.  [W]: a worker; [Sub]: [thread_pool_submit]; [Wa]:
    [thread_pool_wait_all], called from [thread_pool_destroy] when the flag is
    set; [D]: the rest of [thread_pool_destroy]; [Cf]: the failure path of
    [thread_pool_create] after a [pthread_create] failed, which ends like
    [thread_pool_destroy], with the value [r] to return. *)
Inductive pc : Type :=
| Idle
| WLock | WTest | WSleep | WWait | WWoken | WExit
| WBroadcast (x : task) | WSignal (x : task) | WUnlock (x : task) | WRun (x : task) | WDone
| SubLock (x : task) | SubTest (x : task) | SubFull (x : task) | SubWait (x : task)
| SubWoken (x : task) | SubRecheck (x : task) | SubFail | SubSignal | SubUnlock
| WaLock (k : bool) | WaTest (k : bool) | WaWait (k : bool) | WaWoken (k : bool) | WaUnlock (k : bool)
| DLock | DSet | DBroadcast | DUnlock | DJoin
| DCondEmpty (r : Z) | DCondWork (r : Z) | DMutex (r : Z) | DFree (r : Z)
| CfSet | CfBroadcast | CfJoin.

Inductive event : Type :=
| Submitted (t : nat) (x : task)
| Started (t : nat) (x : task)
| Finished (t : nat) (x : task)
| Return (t : nat) (r : Z).

Inductive choice : Type :=
| Start (c : call)
| Go
| Wake (w : option nat).

(** What the pool consists of. *)
Inductive resource : Type :=
| PoolMem | QueueMem | ThreadsMem | Mutex | CondWork | CondEmpty | Worker (i : nat).
#[export] Instance resource_eq_dec : EqDecision resource.
Proof. solve_decision. Defined.

(** How far the release of the pool has come: nothing was released; the workers
    were joined; [cond_empty], [cond_work], the mutex were destroyed; the memory
    was freed. *)
Inductive phase : Type := Live | Joined | EmptyGone | WorkGone | MutexGone | Freed.

(** Is it gone? *)
Definition gone (st : phase) (o : resource) : bool :=
  match st, o with
  | (EmptyGone | WorkGone | MutexGone | Freed), CondEmpty
  | (WorkGone | MutexGone | Freed), CondWork
  | (MutexGone | Freed), Mutex
  | Freed, _ => true
  | _, _ => false
  end.

(** [shutdown] is an [int] used as a flag. *)
Record pool : Type := mkPool {
  ring : Ring.ring task;
  shutdown : Z;
  stage : phase;
  owner : option nat;
  threads : gmap nat pc;
}.

Definition goto (t : nat) (p : pc) (s : pool) : pool :=
  mkPool (ring s) (shutdown s) (stage s) (owner s) (<[t := p]> (threads s)).
Definition set_owner (o : option nat) (s : pool) : pool :=
  mkPool (ring s) (shutdown s) (stage s) o (threads s).
Definition set_ring (r : Ring.ring task) (s : pool) : pool :=
  mkPool r (shutdown s) (stage s) (owner s) (threads s).
Definition set_threads (m : gmap nat pc) (s : pool) : pool :=
  mkPool (ring s) (shutdown s) (stage s) (owner s) m.
Definition set_shutdown (s : pool) : pool :=
  mkPool (ring s) 1 (stage s) (owner s) (threads s).
Definition set_stage (st : phase) (s : pool) : pool :=
  mkPool (ring s) (shutdown s) st (owner s) (threads s).

(** Has the release begun? *)
Definition closed (st : phase) : bool := match st with Live => false | _ => true end.
Definition freed (s : pool) : bool := closed (stage s).

Definition result : Type := option (outcome (pool * list event)).
Definition ok (s : pool) (es : list event) : result := Some (Done (s, es)).

(** Using what was destroyed, or freed, is undefined. *)
Definition gone_fault (st : phase) : fault :=
  match st with Freed => UseAfterFree | _ => Misuse end.
Definition uses (o : resource) (s : pool) (k : result) : result :=
  if gone (stage s) o then Some (Fault (gone_fault (stage s))) else k.

Definition lock (t : nat) (p : pc) (s : pool) : result :=
  uses Mutex s
    match owner s with None => ok (goto t p (set_owner (Some t) s)) [] | Some _ => None end.

(** Only the owner may release a mutex. *)
Definition unlock (t : nat) (p : pc) (es : list event) (s : pool) : result :=
  uses Mutex s
    (if bool_decide (owner s = Some t) then ok (goto t p (set_owner None s)) es else Some (Fault Misuse)).

(** [pthread_cond_wait]: releases the mutex and blocks. *)
Definition wait (c : resource) (t : nat) (p : pc) (s : pool) : result := uses c s (unlock t p [] s).

(** ** Condition variables: workers and blocked submitters share [cond_work] *)
Definition waits_work (p : pc) : bool :=
  match p with WWait | SubWait _ => true | _ => false end.
Definition waits_empty (p : pc) : bool := match p with WaWait _ => true | _ => false end.

Definition woken (p : pc) : pc :=
  match p with WWait => WWoken | SubWait x => SubWoken x | WaWait k => WaWoken k | p => p end.

Definition signal (c : resource) (waits : pc → bool) (w : option nat) (t : nat) (p : pc) (s : pool)
    : result :=
  uses c s
    match cond_signal waits woken w (threads s) with
    | Some m => ok (goto t p (set_threads m s)) []
    | None => None
    end.

Definition broadcast_work (t : nat) (p : pc) (s : pool) : result :=
  uses CondWork s
    (ok (goto t p (set_threads (cond_broadcast waits_work woken (threads s)) s)) []).

Definition is_worker (p : pc) : bool :=
  match p with
  | WLock | WTest | WSleep | WWait | WWoken | WExit | WBroadcast _ | WSignal _ | WUnlock _
  | WRun _ | WDone => true
  | _ => false
  end.
Definition is_running_worker (p : pc) : bool :=
  match p with WDone => false | p => is_worker p end.

(** [pthread_join] on every worker; a thread must not be joined twice. *)
Definition join_workers (t : nat) (p : pc) (s : pool) : result :=
  uses ThreadsMem s
    (if freed s then Some (Fault Misuse) else
     if cnt is_running_worker (threads s) =? 0 then ok (goto t p (set_stage Joined s)) [] else None).

(** [pthread_cond_destroy], while no thread waits on it. *)
Definition cond_destroy (c : resource) (waits : pc → bool) (st : phase) (t : nat) (p : pc) (s : pool)
    : result :=
  uses c s
    (if cnt waits (threads s) =? 0 then ok (goto t p (set_stage st s)) [] else Some (Fault Misuse)).

(** [pthread_mutex_destroy], of a mutex that is not locked. *)
Definition mutex_destroy (t : nat) (p : pc) (s : pool) : result :=
  uses Mutex s
    match owner s with None => ok (goto t p (set_stage MutexGone s)) [] | Some _ => Some (Fault Misuse) end.

(** The end of [thread_pool_destroy] and of the failure path of
    [thread_pool_create]. *)
Definition clean_up (t : nat) (p : pc) (s : pool) : result :=
  match p with
  | DCondEmpty r => cond_destroy CondEmpty waits_empty EmptyGone t (DCondWork r) s
  | DCondWork r => cond_destroy CondWork waits_work WorkGone t (DMutex r) s
  | DMutex r => mutex_destroy t (DFree r) s
  | DFree r => uses PoolMem s (ok (goto t Idle (set_stage Freed s)) [Return t r])
  | _ => None
  end.

Definition shutting_down (s : pool) : bool := negb (shutdown s =? 0).
Definition is_empty (s : pool) : bool := Ring.size (ring s) =? 0.
Definition is_full (s : pool) : bool := Ring.capacity (ring s) <=? Ring.size (ring s).

(** After the dequeue: which of the two notifications are due. *)
Definition after_broadcast (x : task) (r : Ring.ring task) : pc :=
  if Ring.size r =? 0 then WSignal x else WUnlock x.
Definition after_pop (x : task) (r : Ring.ring task) : pc :=
  if Ring.size r =? Ring.capacity r - 1 then WBroadcast x else after_broadcast x r.

(** ** The functions *)
Definition worker_thread (t : nat) (p : pc) (ch : choice) (s : pool) : result :=
  match p, ch with
  | WLock, Go => lock t WTest s
  | WTest, Go =>
      if is_empty s && negb (shutting_down s) then ok (goto t WSleep s) []
      else if is_empty s && shutting_down s then ok (goto t WExit s) []
      else match Ring.pop (ring s) with
           | Done (x, r) => ok (goto t (after_pop x r) (set_ring r s)) [Started t x]
           | Fault e => Some (Fault e)
           | NoFuel => Some NoFuel
           end
  | WSleep, Go => wait CondWork t WWait s
  | WWait, Go => ok (goto t WWoken s) []
  | WWoken, Go => lock t WTest s
  | WExit, Go => unlock t WDone [] s
  | WBroadcast x, Go => broadcast_work t (after_broadcast x (ring s)) s
  | WSignal x, Wake w => signal CondEmpty waits_empty w t (WUnlock x) s
  | WUnlock x, Go => unlock t (WRun x) [] s
  | WRun x, Go => ok (goto t WLock s) [Finished t x]
  | _, _ => None
  end.

Definition push_task (t : nat) (x : task) (s : pool) : result :=
  match Ring.push x (ring s) with
  | Done (_, r) => ok (goto t SubSignal (set_ring r s)) [Submitted t x]
  | Fault e => Some (Fault e)
  | NoFuel => Some NoFuel
  end.

Definition thread_pool_submit (t : nat) (p : pc) (ch : choice) (s : pool) : result :=
  match p, ch with
  | SubLock x, Go => lock t (SubTest x) s
  | SubTest x, Go => if shutting_down s then ok (goto t SubFail s) [] else ok (goto t (SubFull x) s) []
  | SubFull x, Go => if is_full s then wait CondWork t (SubWait x) s else push_task t x s
  | SubWait x, Go => ok (goto t (SubWoken x) s) []
  | SubWoken x, Go => lock t (SubRecheck x) s
  | SubRecheck x, Go =>
      if shutting_down s then ok (goto t SubFail s) [] else ok (goto t (SubFull x) s) []
  | SubFail, Go => unlock t Idle [Return t (-1)] s
  | SubSignal, Wake w => signal CondWork waits_work w t SubUnlock s
  | SubUnlock, Go => unlock t Idle [Return t 0] s
  | _, _ => None
  end.

Definition thread_pool_wait_all (t : nat) (p : pc) (ch : choice) (s : pool) : result :=
  match p, ch with
  | WaLock k, Go => lock t (WaTest k) s
  | WaTest k, Go =>
      if (0 <? Ring.size (ring s)) && negb (shutting_down s) then wait CondEmpty t (WaWait k) s
      else ok (goto t (WaUnlock k) s) []
  | WaWait k, Go => ok (goto t (WaWoken k) s) []
  | WaWoken k, Go => lock t (WaTest k) s
  | WaUnlock true, Go => unlock t DLock [] s
  | WaUnlock false, Go => unlock t Idle [Return t 0] s
  | _, _ => None
  end.

Definition thread_pool_destroy (t : nat) (p : pc) (ch : choice) (s : pool) : result :=
  match p, ch with
  | DLock, Go => lock t DSet s
  | DSet, Go => ok (goto t DBroadcast (set_shutdown s)) []
  | DBroadcast, Go => broadcast_work t DUnlock s
  | DUnlock, Go => unlock t DJoin [] s
  | DJoin, Go => join_workers t (DCondEmpty 0) s
  | (DCondEmpty _ | DCondWork _ | DMutex _ | DFree _), Go => clean_up t p s
  | _, _ => None
  end.

(** [pool->shutdown = 1; pthread_cond_broadcast(..); pthread_join ..], without
    taking the mutex; then [return NULL]. *)
Definition create_failed (t : nat) (p : pc) (ch : choice) (s : pool) : result :=
  match p, ch with
  | CfSet, Go => uses PoolMem s (ok (goto t CfBroadcast (set_shutdown s)) [])
  | CfBroadcast, Go => broadcast_work t CfJoin s
  | CfJoin, Go => join_workers t (DCondEmpty NULL) s
  | _, _ => None
  end.

Definition enter (t : nat) (c : call) (s : pool) : result :=
  match c with
  | Submit x =>
      if func x =? NULL then ok s [Return t (-1)] else ok (goto t (SubLock x) s) []
  | WaitAll => ok (goto t (WaLock false) s) []
  | Destroy => ok (goto t (WaLock true) s) []
  end.

Definition tstep (t : nat) (ch : choice) (s : pool) : result :=
  match threads s !! t with
  | None => None
  | Some Idle => match ch with Start c => enter t c s | _ => None end
  | Some ((WLock | WTest | WSleep | WWait | WWoken | WExit | WBroadcast _ | WSignal _ | WUnlock _
          | WRun _ | WDone) as p) => worker_thread t p ch s
  | Some ((SubLock _ | SubTest _ | SubFull _ | SubWait _ | SubWoken _ | SubRecheck _ | SubFail
          | SubSignal | SubUnlock) as p) => thread_pool_submit t p ch s
  | Some ((WaLock _ | WaTest _ | WaWait _ | WaWoken _ | WaUnlock _) as p) =>
      thread_pool_wait_all t p ch s
  | Some ((DLock | DSet | DBroadcast | DUnlock | DJoin | DCondEmpty _ | DCondWork _ | DMutex _
          | DFree _) as p) => thread_pool_destroy t p ch s
  | Some ((CfSet | CfBroadcast | CfJoin) as p) => create_failed t p ch s
  end.

Definition step : pool → list event → pool → Prop := thread_step tstep.

(** ** Creation *)

(** Which library calls succeed; [c_started]: how many [pthread_create]s do. *)
Record create_calls : Type := mkCalls {
  c_pool : bool; c_queue : bool; c_threads : bool; c_mutex : bool; c_work : bool; c_empty : bool;
  c_started : nat;
}.

(** The threads that were created, last first, and whether all were. *)
Fixpoint start_workers (i n started : nat) : ST (list resource) bool :=
  match n with
  | O => mret true
  | S n =>
      b ← acquire (Worker i) (i <? started)%nat;
      if negb b then mret false else start_workers (S i) n started
  end.

Definition free_pool : ST (list resource) unit :=
  release_all [CondEmpty; CondWork; Mutex; ThreadsMem; QueueMem; PoolMem].

Definition thread_pool_create (o : create_calls) (num_threads : Z)
  : ST (list resource) (option (Ring.ring task)) :=
  if num_threads <=? 0 then mret None else
  b ← acquire PoolMem (c_pool o);
  if negb b then mret None else
  cap ← st_lift (int_result (num_threads * QUEUE_CAPACITY_MULTIPLIER));
  b ← acquire QueueMem (c_queue o);
  if negb b then _ ← release PoolMem; mret None else
  b ← acquire ThreadsMem (c_threads o);
  if negb b then _ ← release_all [QueueMem; PoolMem]; mret None else
  b ← acquire Mutex (c_mutex o);
  if negb b then _ ← release_all [ThreadsMem; QueueMem; PoolMem]; mret None else
  b ← acquire CondWork (c_work o);
  if negb b then _ ← release_all [Mutex; ThreadsMem; QueueMem; PoolMem]; mret None else
  b ← acquire CondEmpty (c_empty o);
  if negb b then _ ← release_all [CondWork; Mutex; ThreadsMem; QueueMem; PoolMem]; mret None else
  let n := Z.to_nat num_threads in
  b ← start_workers 0 n (c_started o);
  if negb b then
    _ ← release_all (Worker <$> seq 0 (Nat.min n (c_started o)));
    _ ← free_pool;
    mret None
  else mret (Some (Ring.empty cap)).

(** What [thread_pool_destroy] gives back: it joins the workers and frees. *)
Definition release_pool (num_threads : Z) : ST (list resource) unit :=
  _ ← release_all (Worker <$> seq 0 (Z.to_nat num_threads));
  free_pool.

(** The pool [thread_pool_create] returns, with [n] workers, among [c] client
    threads. *)
Definition start (n : Z) (c : nat) : pool :=
  mkPool (Ring.empty (n * QUEUE_CAPACITY_MULTIPLIER)) 0 Live None
    (list_to_map ((λ t, (t, if (t <? Z.to_nat n)%nat then WLock else Idle)) <$>
      seq 0 (Z.to_nat n + c))).

(** The pool while [thread_pool_create] handles a failed [pthread_create], with
    [i] workers running. *)
Definition start_failed (n : Z) (i : nat) : pool :=
  mkPool (Ring.empty (n * QUEUE_CAPACITY_MULTIPLIER)) 0 Live None
    (list_to_map ((λ t, (t, if (t <? i)%nat then WLock else CfSet)) <$> seq 0 (S i))).

End ThreadPool.
