(* ===== verification/PoolInvariant.v ===== *)
(** The invariant of the thread pool, under every interleaving of workers and
    clients, and the proof that every step preserves it. *)
From S2P Require Import Prelude Ring Threads ThreadPool.
Import ThreadPool.

#[global] Arguments freed s /.

(** ** Classes of program points *)

Definition crit (p : pc) : bool :=
  match p with
  | WTest | WSleep | WExit | WBroadcast _ | WSignal _ | WUnlock _
  | SubTest _ | SubFull _ | SubRecheck _ | SubFail | SubSignal | SubUnlock
  | WaTest _ | WaUnlock _ | DSet | DBroadcast | DUnlock => true
  | _ => false
  end.

(** Workers on their way to the test of the queue, and their wakeups. *)
Definition active (p : pc) : bool :=
  match p with WWoken | WTest | SubSignal => true | _ => false end.
Definition asleep_worker (p : pc) : bool := match p with WWait => true | _ => false end.
Definition asleep_submitter (p : pc) : bool := match p with SubWait _ => true | _ => false end.
(** Points where [shutdown] is known to be clear. *)
Definition not_shutdown (p : pc) : bool := match p with SubFull _ | WSleep => true | _ => false end.
Definition falling_asleep (p : pc) : bool := match p with WSleep => true | _ => false end.
Definition exiting (p : pc) : bool := match p with WExit | WDone => true | _ => false end.
Definition sub_signal (p : pc) : bool := match p with SubSignal => true | _ => false end.
Definition w_broadcast (p : pc) : bool := match p with WBroadcast _ => true | _ => false end.
Definition d_broadcast (p : pc) : bool := match p with DBroadcast => true | _ => false end.
Definition failing (p : pc) : bool := match p with CfSet | CfBroadcast | CfJoin => true | _ => false end.
(** Past the point where [destroy] sets [shutdown]. *)
Definition joining (p : pc) : bool :=
  match p with DBroadcast | DUnlock | DJoin | DCondEmpty _ | DCondWork _ | DMutex _ | DFree _ => true | _ => false end.
Definition w_signal (p : pc) : bool := match p with WSignal _ => true | _ => false end.
Definition is_client (p : pc) : bool := negb (is_worker p).
(** The worker has dequeued [x] and not finished it. *)
Definition carries (x : task) (p : pc) : bool :=
  match p with
  | WBroadcast y | WSignal y | WUnlock y | WRun y => bool_decide (x = y)
  | _ => false
  end.

(** ** Histories *)
Definition submitted (es : list event) : list task :=
  omap (λ e, match e with Submitted _ x => Some x | _ => None end) es.
Definition started (es : list event) : list task :=
  omap (λ e, match e with Started _ x => Some x | _ => None end) es.
Definition finished (es : list event) : list task :=
  omap (λ e, match e with Finished _ x => Some x | _ => None end) es.

(** Occurrences of [x]. *)
Definition occ (x : task) (l : list task) : Z :=
  foldr (λ y n, Z.b2z (bool_decide (x = y)) + n) 0 l.

Lemma occ_app x l1 l2 : occ x (l1 ++ l2) = occ x l1 + occ x l2.
Proof. induction l1 as [|y l1 IH]; simpl; lia. Qed.

Lemma occ_nonneg x l : 0 ≤ occ x l.
Proof. induction l as [|y l IH]; simpl; [lia|]. destruct (bool_decide _); simpl; lia. Qed.

(** ** The invariant *)
Record ctl_inv (n : Z) (s : pool) : Prop := {
  ci_mutex : mutex_inv crit (owner s) (threads s);
  ci_failing : cnt failing (threads s) = 0;
  ci_workers : cnt is_worker (threads s) = n;
  ci_not_shutdown : 0 < cnt not_shutdown (threads s) → shutdown s = 0;
  ci_falling : 0 < cnt falling_asleep (threads s) → Ring.size (ring s) = 0;
  ci_exiting : 0 < cnt exiting (threads s) → shutdown s ≠ 0 ∧ Ring.size (ring s) = 0;
  ci_shutdown : shutdown s ≠ 0 → cnt d_broadcast (threads s) = 0 → cnt waits_work (threads s) = 0;
  ci_asleep_worker : 0 < cnt asleep_worker (threads s) → Ring.size (ring s) ≤ cnt active (threads s);
  ci_asleep_submitter : 0 < cnt asleep_submitter (threads s) →
    Ring.size (ring s) = Ring.capacity (ring s) ∨ 0 < cnt w_broadcast (threads s);
  ci_joining : 0 < cnt joining (threads s) → shutdown s ≠ 0;
  ci_sub_signal : 0 < cnt sub_signal (threads s) → cnt asleep_submitter (threads s) = 0;
}.

(** What was released when a thread is at [p]. *)
Definition phase_of (p : pc) : option phase :=
  match p with
  | DCondEmpty _ => Some Joined
  | DCondWork _ => Some EmptyGone
  | DMutex _ => Some WorkGone
  | DFree _ => Some MutexGone
  | _ => None
  end.
Definition releasing (st : phase) : bool := match st with Live | Freed => false | _ => true end.
Definition closing (p : pc) : bool := match phase_of p with Some _ => true | None => false end.

(** The release of the pool: one thread is at it from the join to [free], the
    workers have exited, and the mutex is free when it is gone. *)
Record close_inv (s : pool) : Prop := {
  cl_running : freed s = true → cnt is_running_worker (threads s) = 0;
  cl_phase : ∀ t p st, threads s !! t = Some p → phase_of p = Some st → stage s = st;
  cl_closing : cnt closing (threads s) = Z.b2z (releasing (stage s));
  cl_owner : gone (stage s) Mutex = true → owner s = None;
}.

Record data_inv (n : Z) (s : pool) (es : list event) : Prop := {
  d_queue : ∃ l, Ring.holds (ring s) l ∧ submitted es = started es ++ l;
  d_cap : Ring.capacity (ring s) = n * QUEUE_CAPACITY_MULTIPLIER;
  d_tasks : ∀ x, occ x (started es) = occ x (finished es) + cnt (carries x) (threads s);
}.

(** ** Case analysis on a step *)
Ltac step_cases ch H :=
  unfold tstep in H;
  let p := fresh "p" in let Hpc := fresh "Hpc" in
  match type of H with context [threads ?s !! ?t] =>
    destruct (threads s !! t) as [p|] eqn:Hpc; [|discriminate H] end;
  destruct p, ch; simpl in H; try discriminate H;
  unfold enter, wait, lock, unlock, signal, broadcast_work, push_task, join_workers, clean_up, cond_destroy,
    mutex_destroy, uses, ok in H;
  repeat (case_match; try discriminate H); simplify_eq/=;
  repeat match goal with
  | Hs : cond_signal _ _ _ _ = Some _ |- _ =>
      let u := fresh "u" in let pu := fresh "pu" in let Hu := fresh "Hu" in let Hpu := fresh "Hpu" in
      apply cond_signal_spec in Hs as [[-> Hs]|(u & pu & Hu & Hpu & ->)];
      [|destruct pu; try discriminate Hpu]
  end;
  unfold after_pop, after_broadcast; repeat case_match.

(** What a broadcast does to the counts: the sleepers on [cond_work] wake. *)
Lemma broadcast_counts (m m' : gmap nat pc) :
  m' = cond_broadcast waits_work woken m →
  cnt failing m' = cnt failing m ∧ cnt is_worker m' = cnt is_worker m ∧
  cnt is_running_worker m' = cnt is_running_worker m ∧
  cnt not_shutdown m' = cnt not_shutdown m ∧ cnt falling_asleep m' = cnt falling_asleep m ∧
  cnt closing m' = cnt closing m ∧ cnt exiting m' = cnt exiting m ∧ cnt joining m' = cnt joining m ∧
  cnt is_client m' = cnt is_client m ∧ cnt waits_empty m' = cnt waits_empty m ∧
  cnt w_signal m' = cnt w_signal m ∧ cnt d_broadcast m' = cnt d_broadcast m ∧
  cnt w_broadcast m' = cnt w_broadcast m ∧ cnt sub_signal m' = cnt sub_signal m ∧
  cnt waits_work m' = 0 ∧ cnt asleep_worker m' = 0 ∧ cnt asleep_submitter m' = 0 ∧
  (∀ x, cnt (carries x) m' = cnt (carries x) m).
Proof.
  intros ->. split_and!;
    try (apply cnt_broadcast_same; intros []; done);
    try (apply cnt_broadcast_none; intros []; done).
  intros x. apply cnt_broadcast_same. by intros [].
Qed.

(** Replace a broadcast table by a new name and what is known of it. *)
Ltac note_broadcast :=
  try match goal with
  | |- context [cond_broadcast waits_work woken ?m] =>
      match goal with H : m !! ?t = Some ?p |- _ =>
        pose proof (lookup_broadcast waits_work woken m t p H eq_refl) end;
      let m' := fresh "m'" in let E := fresh "E" in
      remember (cond_broadcast waits_work woken m) as m' eqn:E;
      apply broadcast_counts in E as (? & ? & ? & ? & ? & ? & ? & ? & ? & ? & ? & ? & ? & ? & ? & ? & ? & ?)
  end.

Lemma pool_mutex_step t ch s s' es :
  tstep t ch s = Some (Done (s', es)) → mutex_inv crit (owner s) (threads s) →
  mutex_inv crit (owner s') (threads s').
Proof.
  intros H Hm. step_cases ch H; repeat match goal with E : owner _ = _ |- _ => rewrite E end;
    note_woken; try solve_mutex Hm.
  all: match goal with Hpc : threads _ !! ?t = Some ?p |- _ =>
    pose proof (lookup_broadcast waits_work woken _ t p Hpc eq_refl) end.
  all: eapply mutex_keep; [eassumption|done|]; apply mutex_broadcast; [by intros []|done].
Qed.


(** ** The control invariant *)

(** Counts of the points inside the critical section, seen from a thread in it. *)
Lemma crit_counts n s t p :
  ctl_inv n s → threads s !! t = Some p → crit p = true →
  cnt not_shutdown (threads s) = Z.b2z (not_shutdown p) ∧
  cnt falling_asleep (threads s) = Z.b2z (falling_asleep p) ∧
  cnt d_broadcast (threads s) = Z.b2z (d_broadcast p) ∧
  cnt w_broadcast (threads s) = Z.b2z (w_broadcast p) ∧
  cnt sub_signal (threads s) = Z.b2z (sub_signal p).
Proof.
  intros Hi Ht Hp.
  split_and!; (eapply mutex_exact; [apply (ci_mutex _ _ Hi)|done|done|by intros []]).
Qed.

(** The facts the arithmetic of one step needs. *)
Ltac know Hi Hl :=
  pose proof Hi as [_ ? ? ? ? ? ? ? ? ? ?]; pose proof (Ring.holds_bounds _ _ Hl);
  match goal with Hpc : threads ?s !! ?t = Some ?p |- _ =>
    try (pose proof (crit_counts _ _ _ _ Hi Hpc eq_refl) as (? & ? & ? & ? & ?));
    pose proof (cnt_at active _ _ _ Hpc); pose proof (cnt_at failing _ _ _ Hpc);
    pose proof (cnt_at asleep_worker _ _ _ Hpc); pose proof (cnt_at asleep_submitter _ _ _ Hpc);
    pose proof (cnt_at exiting _ _ _ Hpc); pose proof (cnt_at joining _ _ _ Hpc);
    pose proof (cnt_at not_shutdown _ _ _ Hpc); pose proof (cnt_at waits_work _ _ _ Hpc);
    pose proof (cnt_at d_broadcast _ _ _ Hpc); pose proof (cnt_at w_broadcast _ _ _ Hpc);
    pose proof (cnt_add asleep_worker asleep_submitter waits_work (threads s) ltac:(by intros []))
  end;
  note_ring Hl.

Lemma ctl_step n t ch s s' es l :
  tstep t ch s = Some (Done (s', es)) → Ring.holds (ring s) l → ctl_inv n s → ctl_inv n s'.
Proof.
  intros H Hl Hi. generalize (pool_mutex_step _ _ _ _ _ H (ci_mutex _ _ Hi)).
  step_cases ch H; intros Hm; try exact Hi; unfold is_full, is_empty, shutting_down in *;
    know Hi Hl; note_broadcast; note_woken;
    (split; [exact Hm|..]); clear Hm; simpl in *; count_threads; simpl; try lia.
  (* a submitter cannot be the one that a submit's signal wakes *)
  match goal with Hs : threads _ !! _ = Some SubSignal |- _ =>
    pose proof (cnt_at sub_signal _ _ _ Hs) end. simpl in *. lia.
Qed.

(** ** The release *)

(** A running worker means that the release has not begun. *)
Lemma worker_live s t p :
  close_inv s → threads s !! t = Some p → is_running_worker p = true → stage s = Live.
Proof.
  intros Hc Ht Hp. destruct (stage s) eqn:E; [done|..];
    (assert (cnt is_running_worker (threads s) = 0) as Hz by (apply Hc; simpl; by rewrite E);
     pose proof (proj1 (cnt_zero _ _) Hz t p Ht); congruence).
Qed.

Definition phases (st : phase) (m : gmap nat pc) : Prop :=
  ∀ t p st', m !! t = Some p → phase_of p = Some st' → st = st'.

Lemma phases_update st m t p :
  phases st m → phase_of p = None ∨ phase_of p = Some st → phases st (<[t := p]> m).
Proof.
  intros Hm Hp u q st' Hu Hq. destruct (decide (u = t)) as [->|Hne].
  - rewrite lookup_insert_eq in Hu. destruct Hp; congruence.
  - rewrite lookup_insert_ne in Hu by done. by eapply Hm.
Qed.

Lemma phases_broadcast st m : phases st m → phases st (cond_broadcast waits_work woken m).
Proof.
  intros Hm u q st' Hu Hq. unfold cond_broadcast in Hu. rewrite lookup_fmap in Hu.
  destruct (m !! u) as [p|] eqn:E; simplify_eq/=. destruct p; simpl in Hq; try done; by eapply Hm.
Qed.

(** When only [t] releases, the next phase is its own. *)
Lemma phases_next st m t p p' :
  m !! t = Some p → cnt closing m = Z.b2z (closing p) → phase_of p' = None ∨ phase_of p' = Some st →
  phases st (<[t := p']> m).
Proof.
  intros Ht Hc Hp u q st' Hu Hq. destruct (decide (u = t)) as [->|Hne].
  - rewrite lookup_insert_eq in Hu. destruct Hp; congruence.
  - rewrite lookup_insert_ne in Hu by done. exfalso.
    rewrite (cnt_delete closing m t p Ht) in Hc.
    assert (cnt closing (delete t m) = 0) as Hz by lia.
    pose proof (proj1 (cnt_zero _ _) Hz u q ltac:(by rewrite lookup_delete_ne)) as Hcl.
    unfold closing in Hcl. by rewrite Hq in Hcl.
Qed.

Lemma pool_close_step t ch s s' es :
  tstep t ch s = Some (Done (s', es)) → close_inv s → close_inv s'.
Proof.
  intros H [Hr Hp Hc Ho]. change (phases (stage s) (threads s)) in Hp.
  step_cases ch H; try by split.
  all: match goal with Hpc : threads _ !! _ = Some _ |- _ => pose proof (cnt_at is_running_worker _ _ _ Hpc) end.
  all: pose proof (phases_broadcast _ _ Hp) as Hpb.
  all: note_broadcast; note_woken; split; simpl in *; try done.
  all: try (count_threads; simpl; first [lia | intros Hf; specialize (Hr Hf); lia]).
  all: try (repeat (apply phases_update; [|by left]); done).
  all: try match goal with Hpc : threads _ !! _ = Some _ |- _ => pose proof (Hp _ _ _ Hpc eq_refl) as Est end.
  all: match goal with H : phases (stage ?s) _ |- _ => destruct (stage s) end; try discriminate; simpl in *;
    try done; try (count_threads; simpl; auto with lia).
  all: try (eapply phases_next; [eassumption|exact Hc|by auto]).
Qed.

(** ** Tasks *)

Lemma submitted_app es es' : submitted (es ++ es') = submitted es ++ submitted es'.
Proof. apply omap_app. Qed.
Lemma started_app es es' : started (es ++ es') = started es ++ started es'.
Proof. apply omap_app. Qed.
Lemma finished_app es es' : finished (es ++ es') = finished es ++ finished es'.
Proof. apply omap_app. Qed.

Lemma pool_data_step n t ch s s' es es' :
  tstep t ch s = Some (Done (s', es')) → data_inv n s es → data_inv n s' (es ++ es').
Proof.
  intros H [(l & Hl & Hes) Hc Ht]. split.
  - rewrite submitted_app, started_app. clear Ht.
    step_cases ch H; try (exists l; rewrite !app_nil_r; done).
    all: unfold is_full, is_empty, shutting_down in *; match goal with
    | E : Ring.push _ _ = Done _ |- _ =>
        destruct (Ring.push_done _ _ _ _ _ Hl ltac:(lia) E) as (Hl' & _);
        eexists; split; [exact Hl'|by rewrite !app_nil_r, Hes, <- app_assoc]
    | E : Ring.pop _ = Done _ |- _ =>
        destruct (Ring.pop_done _ _ _ _ Hl ltac:(lia) E) as (l' & -> & Hl' & _);
        exists l'; split; [exact Hl'|by rewrite !app_nil_r, Hes, <- app_assoc]
    end.
  - clear Ht. step_cases ch H; try done; unfold is_full, is_empty, shutting_down in *; match goal with
    | E : Ring.push _ _ = Done _ |- _ =>
        destruct (Ring.push_done _ _ _ _ _ Hl ltac:(lia) E) as (_ & -> & _)
    | E : Ring.pop _ = Done _ |- _ =>
        destruct (Ring.pop_done _ _ _ _ Hl ltac:(lia) E) as (l' & _ & _ & -> & _)
    end; done.
  - intros x. specialize (Ht x). rewrite started_app, finished_app, !occ_app.
    step_cases ch H; note_broadcast; note_woken; count_threads; simpl in *;
      repeat match goal with Hb : ∀ y, cnt (carries y) _ = _ |- _ => specialize (Hb x) end; lia.
Qed.

(** ** One client: a sleeping [wait_all] has a reason *)

Definition wait_inv (s : pool) : Prop :=
  cnt is_client (threads s) ≤ 1 → 0 < cnt waits_empty (threads s) →
  0 < Ring.size (ring s) ∨ 0 < cnt w_signal (threads s).

Lemma wait_step n t ch s s' es es0 :
  tstep t ch s = Some (Done (s', es)) → data_inv n s es0 → 1 ≤ n → ctl_inv n s → wait_inv s →
  wait_inv s'.
Proof.
  unfold wait_inv. intros H [(l & Hl & _) Hc _] Hn Hi Hw. unfold QUEUE_CAPACITY_MULTIPLIER in Hc.
  pose proof (cnt_le waits_empty is_client (threads s) ltac:(by intros [])).
  pose proof (cnt_nonneg waits_empty (threads s)). pose proof (Ring.holds_bounds _ _ Hl).
  assert (Hsig : ∀ t p, threads s !! t = Some p → crit p = true →
    cnt w_signal (threads s) = Z.b2z (w_signal p)).
  { intros t' p Ht Hp. eapply mutex_exact; [apply (ci_mutex _ _ Hi)|done|done|by intros []]. }
  step_cases ch H; try exact Hw; unfold is_full, is_empty, shutting_down in *;
    match goal with Hpc : threads ?s !! ?t = Some ?p |- _ =>
      try pose proof (Hsig _ _ Hpc eq_refl); clear Hsig end;
    note_ring Hl; note_broadcast; note_woken; simpl in *; count_threads; simpl; lia.
Qed.
