(* ===== verification/PoolTheorems.v ===== *)
(** The properties of the thread pool, under every interleaving: no task is
    lost, duplicated or reordered, [destroy] returns only when every task has
    finished, no work is stuck in the queue; and three ways in which the pool
    does not keep what its header promises. *)
From S2P Require Import Prelude Ring Threads Resources ThreadPool PoolInvariant.
Import ThreadPool.

(** ** Reachable states *)

Definition inv (n : Z) (s : pool) (es : list event) : Prop :=
  ctl_inv n s ∧ data_inv n s es ∧ wait_inv s ∧ close_inv s.

Lemma pool_start_threads n c t p : threads (start n c) !! t = Some p → p = WLock ∨ p = Idle.
Proof.
  simpl. intros H%elem_of_list_to_map_2. apply list_elem_of_fmap in H as (i & [= _ ->] & _).
  case_match; auto.
Qed.

Lemma start_none f n c : f WLock = false → f Idle = false → cnt f (threads (start n c)) = 0.
Proof. intros Hw Hi. apply cnt_zero. by intros t p [-> | ->]%pool_start_threads. Qed.

(** Counting over a table built from a range of thread numbers. *)
Lemma cnt_range (f : pc → bool) (g : nat → pc) k : ∀ m,
  cnt f (list_to_map ((λ t, (t, g t)) <$> seq m k)) = foldr (λ t n, Z.b2z (f (g t)) + n) 0 (seq m k).
Proof.
  induction k as [|k IH]; intros m; simpl; [apply cnt_empty|].
  rewrite cnt_insert_new, IH; [done|]. apply not_elem_of_list_to_map_1.
  rewrite <- list_fmap_compose. intros (i & -> & Hi)%list_elem_of_fmap. simpl in Hi.
  apply elem_of_seq in Hi. lia.
Qed.

Lemma sum_range (b : nat → bool) (v : Z) k : ∀ m,
  (∀ i, (m ≤ i < m + k)%nat → Z.b2z (b i) = v) →
  foldr (λ t n, Z.b2z (b t) + n) 0 (seq m k) = v * Z.of_nat k.
Proof.
  induction k as [|k IH]; intros m Hb; simpl; [lia|].
  rewrite IH by (intros i Hi; apply Hb; lia). rewrite Hb by lia. lia.
Qed.

Lemma start_workers_count n c : 0 ≤ n → cnt is_worker (threads (start n c)) = n.
Proof.
  intros Hn. simpl. rewrite (cnt_range is_worker (λ t, if (t <? Z.to_nat n)%nat then WLock else Idle)).
  rewrite seq_app, foldr_app.
  rewrite (sum_range (λ t, is_worker (if (t <? Z.to_nat n)%nat then WLock else Idle)) 0 c (0 + Z.to_nat n)).
  - rewrite Z.mul_0_l.
    rewrite (sum_range (λ t, is_worker (if (t <? Z.to_nat n)%nat then WLock else Idle)) 1); [lia|].
    intros i Hi. by rewrite (proj2 (Nat.ltb_lt _ _)) by lia.
  - intros i Hi. by rewrite (proj2 (Nat.ltb_ge _ _)) by lia.
Qed.

Lemma pool_start_inv n c :
  1 ≤ n → Ring.cap_ok (n * QUEUE_CAPACITY_MULTIPLIER) → inv n (start n c) [].
Proof.
  intros Hn Hc. split_and!.
  - split; rewrite ?start_none by done; simpl shutdown; try done; try lia.
    + apply mutex_init. by intros t p [-> | ->]%pool_start_threads.
    + apply start_workers_count. lia.
  - split; [exists []; split; [by apply Ring.holds_empty|done]|done|].
    intros x. rewrite start_none; done.
  - intros _ Hw. by rewrite start_none in Hw.
  - split; rewrite ?start_none by done; try done.
    by intros t p st [-> | ->]%pool_start_threads.
Qed.

Lemma pool_inv_step n s es s' es' : 1 ≤ n → inv n s es → step s es' s' → inv n s' (es ++ es').
Proof.
  intros Hn (Hc & Hd & Hw & Hcl) Hs. inversion Hs as [t ch ? ? ? H]; subst.
  pose proof (d_queue _ _ _ Hd) as (l & Hl & _).
  split_and!; [by eapply ctl_step|by eapply pool_data_step|by eapply wait_step|by eapply pool_close_step].
Qed.

(** A pool of [n] workers and [c] clients, whose index arithmetic fits. *)
Definition pool_ok (n : Z) : Prop := 1 ≤ n ∧ Ring.cap_ok (n * QUEUE_CAPACITY_MULTIPLIER).
#[export] Instance pool_ok_dec n : Decision (pool_ok n).
Proof. unfold pool_ok, Ring.cap_ok. apply _. Defined.

Lemma pool_reachable_inv n c es s : pool_ok n → run step (start n c) es s → inv n s es.
Proof.
  intros [Hn Hc] Hr. apply (run_invariant step (inv n) (start n c) es s); [by apply pool_start_inv| |done].
  intros s1 es1 es2 s2. by apply pool_inv_step.
Qed.

(** ** Demo run: one worker, one client that submits a task, waits for the queue
    and destroys the pool; the worker runs the task before it exits. *)
Definition t1 : task := Task 1 7.
Definition go (t : nat) (k : nat) : list (nat * choice) := replicate k (t, Go).
Definition demo_schedule : list (nat * choice) :=
  [(1%nat, Start (Submit t1))] ++ go 1 3 ++ [(1%nat, Wake None)] ++ go 1 1 ++
  go 0 2 ++ [(0%nat, Wake None)] ++ go 0 2 ++
  [(1%nat, Start Destroy)] ++ go 1 7 ++ go 0 3 ++ go 1 5.
Definition demo_events : list event :=
  [Submitted 1 t1; Return 1 0; Started 0 t1; Finished 0 t1; Return 1 0].
Definition demo_pool : pool :=
  match exec tstep demo_schedule (start 1 1) with Some (s, _) => s | None => start 1 1 end.

Lemma pool_demo_run : run step (start 1 1) demo_events demo_pool.
Proof. apply (exec_run tstep demo_schedule). vm_compute. reflexivity. Qed.

Lemma pool_ok_1 : pool_ok 1.
Proof. eapply bool_decide_unpack. vm_compute. exact I. Qed.

(** C15. Tasks start in the order of submission, and every task submitted is
    still queued, or held by exactly one worker, or finished: none is lost and
    none runs twice. *)
Theorem pool_tasks n c es s :
  pool_ok n → run step (start n c) es s →
  (∃ l, Ring.holds (ring s) l ∧ submitted es = started es ++ l) ∧
  ∀ x, occ x (started es) = occ x (finished es) + cnt (carries x) (threads s).
Proof.
  intros Hn Hr. destruct (pool_reachable_inv _ _ _ _ Hn Hr) as (_ & [Hq _ Ht] & _). done.
Qed.

Lemma pool_tasks_witness :
  (∃ l, Ring.holds (ring demo_pool) l ∧ [t1] = [t1] ++ l) ∧
  ∀ x, occ x [t1] = occ x [t1] + cnt (carries x) (threads demo_pool).
Proof. apply (pool_tasks 1 1 demo_events demo_pool); [apply pool_ok_1|apply pool_demo_run]. Defined.

Lemma carries_running x m : cnt (carries x) m ≤ cnt is_running_worker m.
Proof. apply cnt_le. by intros []. Qed.

Lemma worker_split m : cnt is_worker m = cnt is_running_worker m + cnt (λ p, match p with WDone => true | _ => false end) m.
Proof. apply cnt_add. by intros []. Qed.

(** C16. [thread_pool_destroy] begins to release the pool only when the queue is
    empty, every submitted task has finished and every worker has exited. *)
Theorem pool_destroy_completes n c es s :
  pool_ok n → run step (start n c) es s → freed s = true →
  Ring.holds (ring s) [] ∧ (∀ x, occ x (finished es) = occ x (submitted es)) ∧
  ∀ t p, threads s !! t = Some p → is_worker p = true → p = WDone.
Proof.
  intros Hn Hr Hf. destruct (pool_reachable_inv _ _ _ _ Hn Hr) as (Hc & [(l & Hl & Hs) _ Ht] & _ & Hcl).
  destruct Hn as [Hn _]. pose proof (cl_running _ Hcl Hf) as Hrun. pose proof (ci_workers _ _ Hc) as Hw.
  rewrite worker_split, Hrun in Hw.
  assert (0 < cnt exiting (threads s)) as Hex.
  { pose proof (cnt_le (λ p, match p with WDone => true | _ => false end) exiting (threads s)
      ltac:(by intros [])). lia. }
  destruct (ci_exiting _ _ Hc Hex) as [_ Hsz]. rewrite (Ring.h_size _ _ Hl) in Hsz.
  destruct l as [|y l]; [|done]. split_and!; [done| |].
  - intros x. rewrite Hs, app_nil_r, Ht. pose proof (carries_running x (threads s)).
    pose proof (cnt_nonneg (carries x) (threads s)). lia.
  - intros t p Hp Hwp. pose proof (proj1 (cnt_zero _ _) Hrun t p Hp) as Hnr. by destruct p.
Qed.

Lemma pool_destroy_completes_witness :
  Ring.holds (ring demo_pool) [] ∧
  (∀ x, occ x (finished demo_events) = occ x (submitted demo_events)) ∧
  ∀ t p, threads demo_pool !! t = Some p → is_worker p = true → p = WDone.
Proof.
  apply (pool_destroy_completes 1 1); [apply pool_ok_1|apply pool_demo_run|vm_compute; reflexivity].
Defined.

(** After [shutdown] is set no task enters the queue, and it stays set. *)
Theorem pool_shutdown_refuses n c es s s' es' :
  pool_ok n → run step (start n c) es s → step s es' s' → shutdown s ≠ 0 →
  submitted es' = [] ∧ shutdown s' ≠ 0.
Proof.
  intros Hn Hr Hs Hsd. destruct (pool_reachable_inv _ _ _ _ Hn Hr) as (Hc & _ & _).
  inversion Hs as [t ch ? ? ? H]; subst. pose proof (ci_not_shutdown _ _ Hc) as Hns.
  step_cases ch H; try done.
  match goal with Hpc : threads _ !! _ = Some _ |- _ => pose proof (cnt_at not_shutdown _ _ _ Hpc) end.
  simpl in *. lia.
Qed.

(** The demo pool, and a client calling submit: the call reaches a freed pool. *)
Lemma pool_shutdown_refuses_witness :
  submitted [] = [] ∧ shutdown (goto 1 (SubLock t1) demo_pool) ≠ 0.
Proof.
  apply (pool_shutdown_refuses 1 1 demo_events demo_pool);
    [apply pool_ok_1|apply pool_demo_run|apply (step_thread tstep 1 (Start (Submit t1)));
     vm_compute; reflexivity|vm_compute; discriminate].
Defined.

(** *** What is undefined *)

(** A client inside a function of the pool. *)
Definition inside (p : pc) : bool := match p with Idle => false | p => is_client p end.

(** Another client that is inside while [t], at [p], or that client releases. *)
Definition crossed (s : pool) (t : nat) (p : pc) : Prop :=
  ∃ u q, u ≠ t ∧ threads s !! u = Some q ∧ inside q = true ∧ (closing p = true ∨ closing q = true).

Lemma closed_crossed s t p :
  close_inv s → threads s !! t = Some p → closed (stage s) = true → closing p = false →
  stage s = Freed ∨ crossed s t p.
Proof.
  intros Hc Ht Hg Hp. assert (stage s = Freed ∨ releasing (stage s) = true) as [|Hf]; [|by left|right].
  { destruct (stage s); auto. }
  assert (0 < cnt closing (threads s)) as (u & q & Hu & Hq)%cnt_pos by by rewrite (cl_closing _ Hc), Hf.
  exists u, q. split_and!; [|done|by destruct q|by right]. congruence.
Qed.

Lemma gone_crossed s t p o :
  close_inv s → threads s !! t = Some p → gone (stage s) o = true →
  (∀ st, phase_of p = Some st → gone st o = false) → stage s = Freed ∨ crossed s t p.
Proof.
  intros Hc Ht Hg Hp. apply closed_crossed; [done..|by destruct (stage s), o|].
  unfold closing. destruct (phase_of p) as [st|] eqn:E; [|done].
  by rewrite (cl_phase _ Hc t p st Ht E), (Hp st eq_refl) in Hg.
Qed.

(** Whoever uses the pool while it is released is a client. *)
Lemma user_inside s t p u q :
  close_inv s → threads s !! t = Some p → closing p = true → threads s !! u = Some q →
  waits_work q || waits_empty q || crit q = true → inside q = true.
Proof.
  intros Hc Ht Hp Hu Hq. unfold closing in Hp. destruct (phase_of p) as [st|] eqn:E; [|done].
  assert (cnt is_running_worker (threads s) = 0) as Hz.
  { apply (cl_running _ Hc). simpl. rewrite (cl_phase _ Hc t p st Ht E).
    by destruct p; try discriminate E; injection E as <-. }
  pose proof (proj1 (cnt_zero _ _) Hz u q Hu) as Hr. by destruct q.
Qed.

Lemma waiter_crossed s t p f :
  close_inv s → threads s !! t = Some p → closing p = true → f p = false →
  (∀ q, f q = true → waits_work q || waits_empty q || crit q = true) →
  cnt f (threads s) ≠ 0 → crossed s t p.
Proof.
  intros Hc Ht Hp Hfp Hf Hz. pose proof (cnt_nonneg f (threads s)).
  assert (0 < cnt f (threads s)) as (u & q & Hu & Hq)%cnt_pos by lia.
  exists u, q. split_and!; [congruence|done|apply (user_inside s t p u q); auto|by left].
Qed.


(** Two clients wait for the queue to become empty, one of them in
    [thread_pool_destroy]. The worker wakes that one, which shuts the pool down
    and joins the worker, and then destroys [cond_empty]. *)
Definition waiter_schedule : list (nat * choice) :=
  [(1%nat, Start (Submit t1))] ++ go 1 3 ++ [(1%nat, Wake None)] ++ go 1 1 ++
  [(2%nat, Start WaitAll)] ++ go 2 2 ++ [(1%nat, Start Destroy)] ++ go 1 2 ++
  go 0 2 ++ [(0%nat, Wake (Some 1%nat))] ++ go 0 2 ++ go 1 7 ++ go 0 3 ++ go 1 1.
Definition waiter_events : list event := [Submitted 1 t1; Return 1 0; Started 0 t1; Finished 0 t1].
Definition waiter_pool : pool :=
  match exec tstep waiter_schedule (start 1 2) with Some (s, _) => s | None => start 1 1 end.

Lemma waiter_run : run step (start 1 2) waiter_events waiter_pool.
Proof. apply (exec_run tstep waiter_schedule). vm_compute. reflexivity. Qed.

(** [thread_pool_destroy] wakes the workers and the submitters, but not the
    callers of [thread_pool_wait_all]: it destroys the condition variable they
    wait on. *)
Theorem pool_destroy_with_waiter :
  threads waiter_pool !! 2%nat = Some (WaWait false) ∧ tstep 1 Go waiter_pool = Some (Fault Misuse).
Proof. split; vm_compute; reflexivity. Qed.


(** ** Progress *)

Definition asleep (p : pc) : bool := waits_work p || waits_empty p.
(** Neither outside the pool's code nor asleep nor waiting to join, or past it. *)
Definition busy (p : pc) : bool :=
  match p with Idle | WDone | DJoin => false | p => negb (asleep p || closing p) end.

Lemma not_closing s t p : close_inv s → freed s = false → threads s !! t = Some p → closing p = false.
Proof.
  intros Hc Hf Ht. unfold closing. destruct (phase_of p) as [st|] eqn:E; [|done].
  pose proof (cl_phase _ Hc t p st Ht E) as Hst. simpl in Hf. rewrite Hst in Hf.
  by destruct p; try discriminate E; injection E as <-.
Qed.

Lemma uses_live o s k : freed s = false → uses o s k = k.
Proof. unfold uses. simpl. by destruct (stage s), o. Qed.

Lemma unlock_own t p es s :
  freed s = false → owner s = Some t → unlock t p es s = Some (Done (goto t p (set_owner None s), es)).
Proof. intros Hf Ho. unfold unlock. rewrite uses_live by done. by rewrite bool_decide_true. Qed.

Lemma pool_crit_moves s t p l :
  threads s !! t = Some p → crit p = true → Ring.holds (ring s) l → freed s = false → owner s = Some t →
  ∃ ch s' es, tstep t ch s = Some (Done (s', es)).
Proof.
  intros Ht Hp Hl Hf Ho. pose proof (Ring.holds_bounds _ _ Hl). unfold tstep. rewrite Ht.
  destruct p; try discriminate Hp;
    try (exists Go; simpl; unfold wait, broadcast_work, ok;
      rewrite ?uses_live, ?unlock_own by done; repeat case_match; by eexists _, _);
    try (lazymatch goal with |- ∃ ch s' es, _ ?t ?p ch ?s = _ =>
      destruct (cond_signal_enabled waits_work woken (threads s)) as (w & m & E);
      destruct (cond_signal_enabled waits_empty woken (threads s)) as (w' & m' & E') end;
      first [exists (Wake w); simpl; unfold signal; rewrite uses_live, E by done; by eexists _, _
            |exists (Wake w'); simpl; unfold signal; rewrite uses_live, E' by done; by eexists _, _]).
  - exists Go. simpl. destruct (is_empty s) eqn:He; unfold is_empty in He.
    + destruct (shutting_down s); simpl; by eexists _, _.
    + simpl. destruct (Ring.pop_returns _ _ Hl ltac:(lia)) as (x & r & ->). by eexists _, _.
  - exists Go. simpl. destruct (is_full s) eqn:He; unfold is_full in He.
    + unfold wait. rewrite uses_live, unlock_own by done. by eexists _, _.
    + unfold push_task. destruct (Ring.push_returns x _ _ Hl ltac:(lia)) as (u & r & ->).
      by eexists _, _.
Qed.

Lemma pool_free_moves s t p :
  threads s !! t = Some p → crit p = false → busy p = true → failing p = false →
  owner s = None → freed s = false → ∃ ch s' es, tstep t ch s = Some (Done (s', es)).
Proof.
  intros Ht Hc Hb Hf Ho Hfr. unfold tstep. rewrite Ht.
  destruct p; try discriminate; exists Go; simpl; unfold lock, ok; rewrite ?uses_live, ?Ho by done; by eexists _, _.
Qed.

(** A busy thread means that some thread awake can step. *)
Lemma busy_moves n es s t p :
  inv n s es → freed s = false → threads s !! t = Some p → busy p = true →
  ∃ t p ch s' es', threads s !! t = Some p ∧ busy p = true ∧ tstep t ch s = Some (Done (s', es')).
Proof.
  intros (Hc & [(l & Hl & _) _ _] & _) Hfr Ht Hb. pose proof (ci_mutex _ _ Hc) as Hm.
  destruct (owner s) as [o|] eqn:Ho.
  - destruct Hm as (_ & po & Hpo & Hcr). destruct (pool_crit_moves _ _ _ _ Hpo Hcr Hl Hfr Ho) as (ch & s' & es' & E).
    exists o, po, ch, s', es'. split_and!; [done|by destruct po|done].
  - pose proof (proj1 (cnt_zero _ _) Hm t p Ht) as Hcr.
    pose proof (proj1 (cnt_zero _ _) (ci_failing _ _ Hc) t p Ht) as Hf.
    destruct (pool_free_moves _ _ _ Ht Hcr Hb Hf Ho Hfr) as (ch & s' & es' & E).
    by exists t, p, ch, s', es'.
Qed.

(** A destroyer whose workers have exited can join them. *)
Lemma join_moves s t :
  freed s = false → cnt is_running_worker (threads s) = 0 → threads s !! t = Some DJoin →
  ∃ s' es, tstep t Go s = Some (Done (s', es)).
Proof.
  intros Hf Hw Ht. unfold tstep. rewrite Ht. simpl. unfold join_workers, ok.
  rewrite uses_live, Hf, Hw by done. simpl. by eexists _, _.
Qed.

(** When no thread is busy: the workers that sleep find no work, and there is
    no work. *)
Lemma quiet_state n es s :
  pool_ok n → inv n s es → cnt busy (threads s) = 0 →
  Ring.size (ring s) = 0 ∧ cnt asleep_submitter (threads s) = 0 ∧
  (0 < cnt asleep_worker (threads s) → shutdown s = 0).
Proof.
  intros [Hn Hcap] (Hc & [(l & Hl & _) Hcp _] & _) Hz.
  pose proof (Ring.holds_bounds _ _ Hl). unfold QUEUE_CAPACITY_MULTIPLIER in Hcp.
  assert (Hsub : ∀ f, (∀ p, f p = true → busy p = true) → cnt f (threads s) = 0).
  { intros f Hf. pose proof (cnt_le f busy (threads s) Hf). pose proof (cnt_nonneg f (threads s)). lia. }
  pose proof (Hsub active ltac:(by intros [])). pose proof (Hsub w_broadcast ltac:(by intros [])).
  pose proof (Hsub d_broadcast ltac:(by intros [])) as Hd.
  pose proof (ci_workers _ _ Hc). pose proof (ci_exiting _ _ Hc). pose proof (ci_asleep_worker _ _ Hc).
  pose proof (ci_asleep_submitter _ _ Hc). pose proof (ci_shutdown _ _ Hc) as Hsd.
  pose proof (cnt_add asleep_worker asleep_submitter waits_work (threads s) ltac:(by intros [])).
  pose proof (cnt_nonneg asleep_submitter (threads s)). pose proof (cnt_nonneg asleep_worker (threads s)).
  pose proof (cnt_nonneg exiting (threads s)).
  set (rest p := is_worker p && negb (asleep_worker p) && negb (exiting p)).
  assert (cnt rest (threads s) = 0) by (apply Hsub; by intros []).
  assert (cnt is_worker (threads s) =
    cnt asleep_worker (threads s) + cnt (λ p, exiting p || rest p) (threads s))
    by (apply cnt_add; by intros []).
  assert (cnt (λ p, exiting p || rest p) (threads s) = cnt exiting (threads s) + cnt rest (threads s))
    by (apply cnt_add; by intros []).
  lia.
Qed.

(** C17. No work is stuck: while the pool is allocated, either some thread that
    is awake can take a step, or the queue is empty, no submitter sleeps,
    workers sleep only if the pool is not shutting down, and nobody is left
    waiting in the join of [destroy]. *)
Theorem pool_progress n c es s :
  pool_ok n → run step (start n c) es s → freed s = false →
  (∃ t p ch s' es', threads s !! t = Some p ∧ asleep p = false ∧ p ≠ Idle ∧
     tstep t ch s = Some (Done (s', es'))) ∨
  (Ring.size (ring s) = 0 ∧
   ∀ t p, threads s !! t = Some p →
     p = Idle ∨ p = WDone ∨ (p = WWait ∧ shutdown s = 0) ∨ waits_empty p = true).
Proof.
  intros Hn Hr Hfr. pose proof (pool_reachable_inv _ _ _ _ Hn Hr) as Hi.
  destruct (decide (0 < cnt busy (threads s))) as [Hb|Hb].
  { left. apply cnt_pos in Hb as (t & p & Ht & Hp).
    destruct (busy_moves _ _ _ _ _ Hi Hfr Ht Hp) as (t' & p' & ch & s' & es' & Ht' & Hp' & E).
    exists t', p', ch, s', es'. split_and!; [done| | |done]; by destruct p'. }
  pose proof (cnt_nonneg busy (threads s)). assert (Hz : cnt busy (threads s) = 0) by lia.
  destruct (quiet_state n es s Hn Hi Hz) as (Hsz & Has & Hsd). destruct Hi as (Hc & _ & _ & Hcl).
  destruct (decide (0 < cnt joining (threads s))) as [Hj|Hj].
  - (* a destroyer can join: all workers have exited *)
    left. pose proof (ci_joining _ _ Hc Hj) as Hs. apply cnt_pos in Hj as (t & p & Ht & Hp).
    pose proof (proj1 (cnt_zero _ _) Hz t p Ht) as Hbp.
    pose proof (not_closing _ _ _ Hcl Hfr Ht). destruct p; try discriminate.
    assert (cnt is_running_worker (threads s) = 0) as Hrw.
    { apply cnt_zero. intros t' p' Ht'. pose proof (proj1 (cnt_zero _ _) Hz t' p' Ht') as Hb'.
      destruct p'; try done. exfalso. apply Hs, Hsd, cnt_pos. eauto. }
    destruct (join_moves s t Hfr Hrw Ht) as (s' & es' & E). exists t, DJoin, Go, s', es'. by split_and!.
  - right. split; [done|]. intros t p Ht. pose proof (proj1 (cnt_zero _ _) Hz t p Ht) as Hbp.
    pose proof (proj1 (cnt_zero _ _) Has t p Ht) as Hsp. pose proof (not_closing _ _ _ Hcl Hfr Ht).
    destruct p; try discriminate; auto.
    + right. right. left. split; [done|]. apply Hsd, cnt_pos. eauto.
    + exfalso. apply Hj, cnt_pos. eauto.
Qed.

(** A state in the middle of the demo run: the task is queued, the worker is
    about to take the mutex. *)
Definition mid_schedule : list (nat * choice) :=
  [(1%nat, Start (Submit t1))] ++ go 1 3 ++ [(1%nat, Wake None)] ++ go 1 1.
Definition mid_pool : pool :=
  match exec tstep mid_schedule (start 1 1) with Some (s, _) => s | None => start 1 1 end.

Lemma mid_run : run step (start 1 1) [Submitted 1 t1; Return 1 0] mid_pool.
Proof. apply (exec_run tstep mid_schedule). vm_compute. reflexivity. Qed.

Lemma pool_progress_witness :
  (∃ t p ch s' es', threads mid_pool !! t = Some p ∧ asleep p = false ∧ p ≠ Idle ∧
     tstep t ch mid_pool = Some (Done (s', es'))) ∨
  (Ring.size (ring mid_pool) = 0 ∧
   ∀ t p, threads mid_pool !! t = Some p →
     p = Idle ∨ p = WDone ∨ (p = WWait ∧ shutdown mid_pool = 0) ∨ waits_empty p = true).
Proof. apply (pool_progress 1 1 [Submitted 1 t1; Return 1 0]); [apply pool_ok_1|apply mid_run|reflexivity]. Defined.

(** ** One client *)

Lemma client_count_step t ch s s' es :
  tstep t ch s = Some (Done (s', es)) → cnt is_client (threads s') = cnt is_client (threads s).
Proof.
  intros H. step_cases ch H; try done; note_broadcast; note_woken; simpl in *; count_threads; simpl; lia.
Qed.

Lemma client_count n c es s :
  0 ≤ n → run step (start n c) es s → cnt is_client (threads s) = Z.of_nat c.
Proof.
  intros Hn Hr. apply (run_state_invariant step (λ s, cnt is_client (threads s) = Z.of_nat c) _ _ _) in Hr; [done| |].
  - simpl. rewrite (cnt_range is_client (λ t, if (t <? Z.to_nat n)%nat then WLock else Idle)).
    rewrite seq_app, foldr_app.
    rewrite (sum_range (λ t, is_client (if (t <? Z.to_nat n)%nat then WLock else Idle)) 1 c (0 + Z.to_nat n)).
    + rewrite Z.mul_1_l. generalize (Z.of_nat c). intros v.
      assert (∀ m k, (m + k ≤ Z.to_nat n)%nat → foldr (λ t r, Z.b2z (is_client
        (if (t <? Z.to_nat n)%nat then WLock else Idle)) + r) v (seq m k) = v) as Hz.
      { intros m k. revert m. induction k as [|k IH]; intros m Hk; simpl; [done|].
        rewrite IH by lia. by rewrite (proj2 (Nat.ltb_lt _ _)) by lia. }
      apply Hz. lia.
    + intros i Hi. by rewrite (proj2 (Nat.ltb_ge _ _)) by lia.
  - intros s1 es1 s2 H1 Hs. inversion Hs; subst. rewrite <- H1. by eapply client_count_step.
Qed.

(** With a single client, its calls cannot hang: while the pool is
    allocated, either some thread that is awake can take a step or the client
    is outside the pool's code. *)
Theorem pool_single_client_progress n es s :
  pool_ok n → run step (start n 1) es s → freed s = false →
  (∃ t p ch s' es', threads s !! t = Some p ∧ (busy p = true ∨ p = DJoin) ∧
     tstep t ch s = Some (Done (s', es'))) ∨
  ∀ t p, threads s !! t = Some p → is_client p = true → p = Idle.
Proof.
  intros Hn Hr Hfr. pose proof (pool_reachable_inv _ _ _ _ Hn Hr) as Hi.
  destruct (decide (0 < cnt busy (threads s))) as [Hb|Hb].
  { left. apply cnt_pos in Hb as (t & p & Ht & Hp).
    destruct (busy_moves _ _ _ _ _ Hi Hfr Ht Hp) as (t' & p' & ch & s' & es' & Ht' & Hp' & E).
    exists t', p', ch, s', es'. auto. }
  pose proof (cnt_nonneg busy (threads s)). assert (Hz : cnt busy (threads s) = 0) by lia.
  destruct (quiet_state n es s Hn Hi Hz) as (Hsz & Has & Hsd). destruct Hi as (Hc & _ & Hw & Hcl).
  destruct Hn as [Hn _]. pose proof (client_count n 1 es s ltac:(lia) Hr) as Hcn.
  unfold wait_inv in Hw. rewrite Hcn, Hsz in Hw.
  pose proof (cnt_le w_signal busy (threads s) ltac:(by intros [])).
  pose proof (cnt_nonneg waits_empty (threads s)).
  assert (cnt waits_empty (threads s) = 0) as Hwe by lia.
  destruct (decide (0 < cnt joining (threads s))) as [Hj|Hj].
  - left. pose proof (ci_joining _ _ Hc Hj) as Hs. apply cnt_pos in Hj as (t & p & Ht & Hp).
    pose proof (proj1 (cnt_zero _ _) Hz t p Ht) as Hbp.
    pose proof (not_closing _ _ _ Hcl Hfr Ht). destruct p; try discriminate.
    assert (cnt is_running_worker (threads s) = 0) as Hrw.
    { apply cnt_zero. intros t' p' Ht'. pose proof (proj1 (cnt_zero _ _) Hz t' p' Ht') as Hb'.
      destruct p'; try done. exfalso. apply Hs, Hsd, cnt_pos. eauto. }
    destruct (join_moves s t Hfr Hrw Ht) as (s' & es' & E). exists t, DJoin, Go, s', es'. auto.
  - right. intros t p Ht Hp. pose proof (proj1 (cnt_zero _ _) Hz t p Ht) as Hbp.
    pose proof (proj1 (cnt_zero _ _) Has t p Ht) as Hsp. pose proof (not_closing _ _ _ Hcl Hfr Ht).
    pose proof (proj1 (cnt_zero _ _) Hwe t p Ht) as Hwp.
    destruct p; try discriminate; [done|]. exfalso. apply Hj, cnt_pos. eauto.
Qed.

Lemma pool_single_client_progress_witness :
  (∃ t p ch s' es', threads mid_pool !! t = Some p ∧ (busy p = true ∨ p = DJoin) ∧
     tstep t ch mid_pool = Some (Done (s', es'))) ∨
  ∀ t p, threads mid_pool !! t = Some p → is_client p = true → p = Idle.
Proof.
  apply (pool_single_client_progress 1 [Submitted 1 t1; Return 1 0]);
    [apply pool_ok_1|apply mid_run|reflexivity].
Defined.

(** ** What the header promises and the code does not do *)

(** [thread_pool_wait_all] is documented to wait for all submitted tasks to
    complete.  It waits for the queue to be empty: in this run it returns while
    the only task is still running. *)
Theorem pool_wait_all_returns_early :
  ∃ s, run step (start 1 1) [Submitted 1 t1; Return 1 0; Started 0 t1; Return 1 0] s ∧
    threads s !! 0%nat = Some (WRun t1).
Proof.
  pose (sched := [(1%nat, Start (Submit t1))] ++ go 1 3 ++ [(1%nat, Wake None)] ++ go 1 1 ++
    go 0 2 ++ [(0%nat, Wake None)] ++ go 0 1 ++ [(1%nat, Start WaitAll)] ++ go 1 3).
  destruct (exec tstep sched (start 1 1)) as [[s es]|] eqn:E; [|vm_compute in E; discriminate E].
  exists s. assert (Hes : es = [Submitted 1 t1; Return 1 0; Started 0 t1; Return 1 0] ∧
    threads s !! 0%nat = Some (WRun t1)) by (vm_compute in E; by simplify_eq).
  destruct Hes as [<- Hs]. split; [by apply (exec_run tstep sched)|done].
Qed.

Definition resting (p : pc) : bool := match p with Idle => true | p => asleep p end.

(** Lost wakeup: the worker that empties the queue signals one waiter.  With
    two callers of [thread_pool_wait_all] the other one sleeps on, with every
    task finished, and nothing but a spurious wakeup can move any thread. *)
Theorem pool_two_waiters_deadlock :
  ∃ s es, run step (start 1 2) es s ∧ submitted es = [t1] ∧ finished es = [t1] ∧
    Ring.size (ring s) = 0 ∧ threads s !! 2%nat = Some (WaWait false) ∧
    ∀ t p, threads s !! t = Some p → p = Idle ∨ asleep p = true.
Proof.
  pose (sched := [(1%nat, Start (Submit t1))] ++ go 1 3 ++ [(1%nat, Wake None)] ++ go 1 1 ++
    [(1%nat, Start WaitAll)] ++ go 1 2 ++ [(2%nat, Start WaitAll)] ++ go 2 2 ++
    go 0 2 ++ [(0%nat, Wake (Some 1%nat))] ++ go 0 5 ++ go 1 3).
  destruct (exec tstep sched (start 1 2)) as [[s es]|] eqn:E; [|vm_compute in E; discriminate E].
  assert (Hs : submitted es = [t1] ∧ finished es = [t1] ∧ Ring.size (ring s) = 0 ∧
    threads s !! 2%nat = Some (WaWait false) ∧
    map_Forall (λ _ p, resting p = true) (threads s)).
  { vm_compute in E. simplify_eq. split_and!; try reflexivity.
    eapply bool_decide_unpack. vm_compute. exact I. }
  destruct Hs as (H1 & H2 & H3 & H4 & H5). exists s, es.
  split_and!; [by apply (exec_run tstep sched)|done..|].
  intros t p Ht. specialize (H5 t p Ht). destruct p; auto.
Qed.

(** The failure path of [thread_pool_create] sets [shutdown] and broadcasts
    without taking the mutex.  A worker that has just tested [shutdown] misses
    both and goes to sleep, and the join never returns. *)
Theorem pool_create_failure_deadlock :
  ∃ s, run step (start_failed 1 1) [] s ∧ shutdown s = 1 ∧
    threads s !! 0%nat = Some WWait ∧ threads s !! 1%nat = Some CfJoin ∧
    ∀ ch, tstep 1 ch s = None.
Proof.
  pose (sched := go 0 2 ++ go 1 2 ++ go 0 1).
  destruct (exec tstep sched (start_failed 1 1)) as [[s es]|] eqn:E; [|vm_compute in E; discriminate E].
  exists s. assert (es = [] ∧ shutdown s = 1 ∧ threads s !! 0%nat = Some WWait ∧
    threads s !! 1%nat = Some CfJoin ∧ ∀ ch, tstep 1 ch s = None) as (-> & ? & ? & ? & ?).
  { vm_compute in E. simplify_eq. split_and!; try reflexivity. by intros [c| |w]. }
  split_and!; [by apply (exec_run tstep sched)|done..].
Qed.

(** ** Construction *)

Lemma start_workers_spec n : ∀ i k held,
  ∃ held', start_workers i n k held = Done (bool_decide (i + n ≤ k ∨ n = 0)%nat, held') ∧
    held' ≡ₚ (Worker <$> seq i (Nat.min n (k - i))) ++ held.
Proof.
  induction n as [|n IH]; intros i k held; simpl.
  - exists held. by rewrite bool_decide_true by lia.
  - unfold mbind, st_bind, acquire. destruct (Nat.ltb_spec i k) as [Hlt|Hge]; simpl.
    + destruct (IH (S i) k (Worker i :: held)) as (held' & -> & Hp). exists held'. split.
      * do 2 f_equal. apply bool_decide_ext. lia.
      * rewrite Hp. destruct (k - i)%nat as [|d] eqn:Hd; [lia|].
        replace (k - S i)%nat with d by lia. simpl. by rewrite Permutation_middle.
    + exists held. rewrite bool_decide_false by lia. split; [done|].
      replace (k - i)%nat with 0%nat by lia. done.
Qed.

(** [thread_pool_create] refuses a thread count that is not positive and
    releases everything it acquired on every error path, joining the workers it
    had started; otherwise [thread_pool_destroy] gives back exactly what it
    acquired. *)
Theorem pool_create_destroy o n held :
  n * QUEUE_CAPACITY_MULTIPLIER ≤ int_max →
  match thread_pool_create o n held with
  | Done (None, held') => held' ≡ₚ held
  | Done (Some r, held') => 0 < n ∧ r = Ring.empty (n * QUEUE_CAPACITY_MULTIPLIER) ∧
      ∃ held'', release_pool n held' = Done (tt, held'') ∧ held'' ≡ₚ held
  | _ => False
  end.
Proof.
  intros Hn. unfold thread_pool_create. destruct (Z.leb_spec n 0) as [|Hpos]; [apply Permutation_refl|].
  assert (Hint : int_result (n * QUEUE_CAPACITY_MULTIPLIER) = Done (n * QUEUE_CAPACITY_MULTIPLIER)).
  { apply Ring.int_result_done. unfold is_int, int_min, int_max, QUEUE_CAPACITY_MULTIPLIER in *. lia. }
  unfold mbind, st_bind, acquire at 1, st_lift. rewrite Hint.
  destruct (c_pool o); [|apply Permutation_refl]. simpl. unfold acquire.
  destruct (c_queue o); [|apply Permutation_refl]. simpl. destruct (ThreadPool.c_threads o); [|apply Permutation_refl]. simpl.
  destruct (c_mutex o); [|apply Permutation_refl]. simpl. destruct (c_work o); [|apply Permutation_refl]. simpl.
  destruct (c_empty o); [|apply Permutation_refl]. simpl.
  set (h := CondEmpty :: CondWork :: Mutex :: ThreadsMem :: QueueMem :: PoolMem :: held).
  destruct (start_workers_spec (Z.to_nat n) 0 (c_started o) h) as (h' & -> & Hp).
  rewrite Nat.sub_0_r in Hp. unfold release_pool, free_pool, mbind, st_bind.
  case_bool_decide as Hk; simpl.
  - split_and!; [lia|done|]. rewrite Nat.min_l in Hp by lia.
    destruct (release_all_ok _ _ _ Hp) as (h1 & -> & Hp1).
    exact (release_all_ok [CondEmpty; CondWork; Mutex; ThreadsMem; QueueMem; PoolMem] h1 held Hp1).
  - destruct (release_all_ok _ _ _ Hp) as (h1 & -> & Hp1).
    destruct (release_all_ok [CondEmpty; CondWork; Mutex; ThreadsMem; QueueMem; PoolMem] h1 held Hp1)
      as (h2 & E & Hp2). simpl in E. unfold mbind, st_bind in *. by rewrite E.
Qed.

Lemma pool_create_destroy_witness :
  match thread_pool_create (mkCalls true true true true true true 1) 2 [] with
  | Done (None, held') => held' ≡ₚ []
  | Done (Some r, held') => 0 < 2 ∧ r = Ring.empty (2 * QUEUE_CAPACITY_MULTIPLIER) ∧
      ∃ held'', release_pool 2 held' = Done (tt, held'') ∧ held'' ≡ₚ []
  | _ => False
  end.
Proof. apply pool_create_destroy. vm_compute. discriminate. Defined.
