(* ===== verification/SharedBuffer.v ===== *)
(** The ring buffer in shared memory: [08_advanced/shared_memory_ipc].

    The shared object, the named semaphores and the processes that use them,
    from [buffer_open(0)] on: a process that attaches stores the addresses it
    has the semaphores at into the object, for all the others.  A step of a
    process is one call of the system, or the code between two of them.
    [addr t n] is the address at which [sem_open] maps semaphore [n] in process
    [t]: a parameter, like the rest of the operating system. *)
From S2P Require Import Prelude Threads.

Module SharedBuffer.

Definition SHARED_BUF_SIZE : Z := 1024 * 1024.
Definition MSG_SIZE : Z := 256.
Definition MAX_MESSAGES : Z := SHARED_BUF_SIZE / MSG_SIZE.

(** Largest value of a semaphore. *)
Definition SEM_VALUE_MAX : Z := int_max.
(** What [sem_open] returns on failure. *)
Definition SEM_FAILED : Z := 0.

Inductive sem : Type := SemFull | SemEmpty | SemMutex.
#[export] Instance sem_eq_dec : EqDecision sem.
Proof. solve_decision. Defined.

(** [SharedBuffer]: the bytes that were written since the buffer was zeroed, and
    the fields that follow them.  [read_pos] is never used. *)
Record buffer : Type := mkBuffer {
  data : gmap Z Z;
  write_pos : Z;
  ptr : sem → Z;
}.

Definition set_data (d : gmap Z Z) (b : buffer) : buffer := mkBuffer d (write_pos b) (ptr b).
Definition set_write_pos (n : Z) (b : buffer) : buffer := mkBuffer (data b) n (ptr b).
Definition set_ptr (n : sem) (p : Z) (b : buffer) : buffer :=
  mkBuffer (data b) (write_pos b) (λ m, if decide (m = n) then p else ptr b m).

(** ** Bytes *)

Definition byte_at (d : gmap Z Z) (a : Z) : Z := default 0 (d !! a).

Fixpoint put_bytes (a : Z) (l : list Z) (d : gmap Z Z) : gmap Z Z :=
  match l with [] => d | x :: l => put_bytes (a + 1) l (<[a := x]> d) end.

(** [memcpy(&data[a], msg, len); data[a + len] = 0;] with [len] converted to
    [size_t]. *)
Definition copy_in (a : Z) (msg : list Z) (len : Z) (d : gmap Z Z) : outcome (gmap Z Z) :=
  let n := wrap64 len in
  if (Z.of_nat (length msg) <? n) || (SHARED_BUF_SIZE <? a + n) then Fault OutOfBounds else
  if (a + len <? 0) || (SHARED_BUF_SIZE <=? a + len) then Fault OutOfBounds else
  Done (<[a + len := 0]> (put_bytes a (take (Z.to_nat n) msg) d)).

Fixpoint strlen (fuel : nat) (d : gmap Z Z) (a : Z) : outcome Z :=
  match fuel with
  | O => NoFuel
  | S fuel =>
      if SHARED_BUF_SIZE <=? a then Fault OutOfBounds else
      if byte_at d a =? 0 then Done 0 else
      n ← strlen fuel d (a + 1); int_result (n + 1)
  end.

Definition bytes_at (d : gmap Z Z) (a n : Z) : list Z :=
  (λ i, byte_at d (a + i)) <$> seqZ 0 n.

(** [len = strlen(..); if (len > maxlen - 1) len = maxlen - 1; memcpy(msg, ..)]
    into an array of [maxlen] bytes. *)
Definition copy_out (fuel : nat) (a maxlen : Z) (d : gmap Z Z) : outcome (list Z) :=
  n ← strlen fuel d a;
  m ← int_result (maxlen - 1);
  let len := if m <? n then m else n in
  if len <? 0 then Fault OutOfBounds else Done (bytes_at d a len).

(** ** Processes *)

Inductive role : Type :=
| Producer                  (* calls [buffer_write] *)
| Reader (pos : Z)          (* calls [buffer_read] *)
| Consumer (pos : Z).       (* the loop of [consumer.c] *)

Inductive pc : Type :=
| Out (r : role)                                          (* not attached *)
| AShm (r : role)
| AOpen (r : role) (n : sem) | AStore (r : role) (n : sem) (p : Z) | ACheck (r : role) (n : sem)
| Idle (r : role)
| WEmpty (msg : list Z) (len : Z) | WMutex (msg : list Z) (len : Z) | WUndo
| WCopy (msg : list Z) (len : Z) | WPostMutex (len : Z) | WPostFull (len : Z)
| RCheck (r : role) (maxlen : Z) | RWait (r : role) (maxlen : Z) | RCopy (r : role) (maxlen : Z)
| RPost (r : role) (len : Z).

Inductive event : Type :=
| Opened (t : nat) (ok : bool)          (* what [buffer_open] returned *)
| Wrote (t : nat) (msg : list Z)
| Got (t : nat) (msg : list Z)
| Return (t : nat) (r : Z).

(** The calls, and how the system answers one. *)
Inductive choice : Type :=
| Attach
| Write (msg : list Z) (len : Z)
| Read (maxlen : Z)
| Poll
| Go
| Fail.

Record world : Type := mkWorld {
  buf : buffer;
  val : sem → Z;
  procs : gmap nat pc;
}.

Definition goto (t : nat) (p : pc) (w : world) : world :=
  mkWorld (buf w) (val w) (<[t := p]> (procs w)).
Definition set_buf (b : buffer) (w : world) : world := mkWorld b (val w) (procs w).
Definition set_val (n : sem) (v : Z) (w : world) : world :=
  mkWorld (buf w) (λ m, if decide (m = n) then v else val w m) (procs w).

Definition result : Type := option (outcome (world * list event)).
Definition ok (w : world) (es : list event) : result := Some (Done (w, es)).

Definition pos_of (r : role) : Z := match r with Producer => 0 | Reader p | Consumer p => p end.
Definition advance (r : role) : role :=
  match r with
  | Producer => Producer
  | Reader p => Reader (wrap64 (p + 1))
  | Consumer p => Consumer (wrap64 (p + 1))
  end.

Section processes.
Context (addr : nat → sem → Z).
(** Iterations allowed to [strlen]; [SHARED_BUF_SIZE] of them always suffice. *)
Context (strlen_fuel : nat).

(** A semaphore is used through the pointer in the shared object; it is valid
    in process [t] if it is the address of [t]'s own mapping. *)
Definition with_sem (t : nat) (n : sem) (k : result) (w : world) : result :=
  if ptr (buf w) n =? addr t n then k else Some (Fault OutOfBounds).

Definition sem_wait (t : nat) (n : sem) (p : pc) (w : world) : result :=
  with_sem t n
    (if 0 <? val w n then ok (goto t p (set_val n (val w n - 1) w)) [] else None) w.

(** A post that would exceed the maximum fails, and the code ignores it. *)
Definition sem_post (t : nat) (n : sem) (p : pc) (es : list event) (w : world) : result :=
  with_sem t n
    (ok (goto t p (set_val n (if val w n <? SEM_VALUE_MAX then val w n + 1 else val w n) w)) es) w.

(** A wait that fails, which it only finds out with the semaphore. *)
Definition sem_wait_fails (t : nat) (n : sem) (p : pc) (es : list event) (w : world) : result :=
  with_sem t n (ok (goto t p w) es) w.

(** [shared->sem_full], then [sem_empty], then [sem_mutex]. *)
Definition next_sem (n : sem) : option sem :=
  match n with SemFull => Some SemEmpty | SemEmpty => Some SemMutex | SemMutex => None end.

(** [buffer_open(0)]: the pointers are stored one by one as [sem_open] returns
    them, and then read back from the object to see if they are all good. *)
Definition buffer_attach (t : nat) (p : pc) (ch : choice) (w : world) : result :=
  match p, ch with
  | Out r, Attach => ok (goto t (AShm r) w) []
  | AShm r, Go => ok (goto t (AOpen r SemFull) w) []
  | AShm r, Fail => ok (goto t (Out r) w) [Opened t false]
  | AOpen r n, Go => ok (goto t (AStore r n (addr t n)) w) []
  | AOpen r n, Fail => ok (goto t (AStore r n SEM_FAILED) w) []
  | AStore r n p, Go =>
      ok (goto t (match next_sem n with Some m => AOpen r m | None => ACheck r SemFull end)
        (set_buf (set_ptr n p (buf w)) w)) []
  | ACheck r n, Go =>
      if ptr (buf w) n =? SEM_FAILED then ok (goto t (Out r) w) [Opened t false] else
      match next_sem n with
      | Some m => ok (goto t (ACheck r m) w) []
      | None => ok (goto t (Idle r) w) [Opened t true]
      end
  | _, _ => None
  end.

Definition offset_of (pos : Z) : Z := (pos mod MAX_MESSAGES) * MSG_SIZE.

Definition buffer_write (t : nat) (p : pc) (ch : choice) (w : world) : result :=
  match p, ch with
  | WEmpty msg len, Go => sem_wait t SemEmpty (WMutex msg len) w
  | WEmpty _ _, Fail => sem_wait_fails t SemEmpty (Idle Producer) [Return t (-1)] w
  | WMutex msg len, Go => sem_wait t SemMutex (WCopy msg len) w
  | WMutex _ _, Fail => sem_wait_fails t SemMutex WUndo [] w
  | WUndo, Go => sem_post t SemEmpty (Idle Producer) [Return t (-1)] w
  | WCopy msg len, Go =>
      match copy_in (offset_of (write_pos (buf w))) msg len (data (buf w)) with
      | Done d =>
          ok (goto t (WPostMutex len)
            (set_buf (set_write_pos (wrap64 (write_pos (buf w) + 1)) (set_data d (buf w))) w))
            [Wrote t (take (Z.to_nat len) msg)]
      | Fault e => Some (Fault e)
      | NoFuel => Some NoFuel
      end
  | WPostMutex len, Go => sem_post t SemMutex (WPostFull len) [] w
  | WPostFull len, Go => sem_post t SemFull (Idle Producer) [Return t len] w
  | _, _ => None
  end.

Definition buffer_read (t : nat) (p : pc) (ch : choice) (w : world) : result :=
  match p, ch with
  | RCheck r maxlen, Go =>
      ok (goto t (if write_pos (buf w) <=? pos_of r then RWait r maxlen else RCopy r maxlen) w) []
  | RWait r maxlen, Go => sem_wait t SemFull (RCopy r maxlen) w
  | RWait r _, Fail => sem_wait_fails t SemFull (Idle r) [Return t (-1)] w
  | RCopy r maxlen, Go =>
      match copy_out strlen_fuel (offset_of (pos_of r)) maxlen (data (buf w)) with
      | Done l => ok (goto t (RPost (advance r) (Z.of_nat (length l))) w) [Got t l]
      | Fault e => Some (Fault e)
      | NoFuel => Some NoFuel
      end
  | RPost r len, Go => sem_post t SemEmpty (Idle r) [Return t len] w
  | _, _ => None
  end.

(** Entering [buffer_write] and [buffer_read], and one turn of the loop of
    [consumer.c], which reads only when it is behind the producer. *)
Definition enter (t : nat) (r : role) (ch : choice) (w : world) : result :=
  match r, ch with
  | Producer, Write msg len =>
      if MSG_SIZE - 1 <? len then ok w [Return t (-1)] else ok (goto t (WEmpty msg len) w) []
  | Reader _, Read maxlen => ok (goto t (RCheck r maxlen) w) []
  | Consumer pos, Poll =>
      if write_pos (buf w) <=? pos then ok w [] else ok (goto t (RCheck r MSG_SIZE) w) []
  | _, _ => None
  end.

Definition tstep (t : nat) (ch : choice) (w : world) : result :=
  match procs w !! t with
  | None => None
  | Some (Idle r) => enter t r ch w
  | Some ((Out _ | AShm _ | AOpen _ _ | AStore _ _ _ | ACheck _ _) as p) => buffer_attach t p ch w
  | Some ((WEmpty _ _ | WMutex _ _ | WUndo | WCopy _ _ | WPostMutex _ | WPostFull _) as p) =>
      buffer_write t p ch w
  | Some ((RCheck _ _ | RWait _ _ | RCopy _ _ | RPost _ _) as p) => buffer_read t p ch w
  end.

Definition step : world → list event → world → Prop := thread_step tstep.

End processes.

(** What the semaphores are created with. *)
Definition initial (n : sem) : Z :=
  match n with SemFull => 0 | SemEmpty => MAX_MESSAGES | SemMutex => 1 end.

(** The zeroed buffer, with the pointers [a], and the processes that use it. *)
Definition start (a : sem → Z) (ps : gmap nat pc) : world := mkWorld (mkBuffer ∅ 0 a) initial ps.

End SharedBuffer.
