(* ===== verification/SharedTheorems.v ===== *)
(** The properties of the shared-memory ring: with the loop of [consumer.c],
    one consumer and any number of producers, messages arrive complete, in
    order and exactly once; and the configurations in which they do not. *)
From S2P Require Import Prelude Threads SharedBuffer.
Import SharedBuffer.

#[global] Arguments copy_in : simpl never.
#[global] Arguments copy_out : simpl never.
#[global] Arguments offset_of : simpl never.
#[global] Arguments MAX_MESSAGES : simpl never.
#[global] Arguments SHARED_BUF_SIZE : simpl never.

(** ** Bytes in a slot *)

Lemma byte_at_insert d a x b : byte_at (<[a := x]> d) b = if decide (b = a) then x else byte_at d b.
Proof.
  unfold byte_at. destruct (decide (b = a)) as [->|Hne].
  - by rewrite lookup_insert_eq.
  - by rewrite lookup_insert_ne.
Qed.

Lemma put_bytes_out l : ∀ a d x,
  x < a ∨ a + Z.of_nat (length l) ≤ x → byte_at (put_bytes a l d) x = byte_at d x.
Proof.
  induction l as [|y l IH]; intros a d x Hx; simpl in *; [done|].
  rewrite IH by lia. rewrite byte_at_insert. by rewrite decide_False by lia.
Qed.

Lemma put_bytes_in l : ∀ a d i x,
  l !! i = Some x → byte_at (put_bytes a l d) (a + Z.of_nat i) = x.
Proof.
  induction l as [|y l IH]; intros a d [|i] x Hx; simplify_eq/=.
  - rewrite put_bytes_out by lia. rewrite byte_at_insert. by rewrite decide_True by lia.
  - replace (a + Z.of_nat (S i)) with (a + 1 + Z.of_nat i) by lia. by apply IH.
Qed.

(** The bytes of [w] and a terminator from [a] on. *)
Definition slot_holds (d : gmap Z Z) (a : Z) (w : list Z) : Prop :=
  (∀ i x, w !! i = Some x → byte_at d (a + Z.of_nat i) = x) ∧
  byte_at d (a + Z.of_nat (length w)) = 0.

Fixpoint until_nul (w : list Z) : list Z :=
  match w with [] => [] | x :: w => if x =? 0 then [] else x :: until_nul w end.

Lemma until_nul_id w : Forall (λ x, x ≠ 0) w → until_nul w = w.
Proof.
  induction 1 as [|x w Hx Hw IH]; simpl; [done|]. by rewrite (proj2 (Z.eqb_neq x 0) Hx), IH.
Qed.

Lemma until_nul_length w : (length (until_nul w) ≤ length w)%nat.
Proof. induction w as [|x w IH]; simpl; [done|]. destruct (x =? 0); simpl; lia. Qed.

Lemma until_nul_prefix w i x : until_nul w !! i = Some x → w !! i = Some x.
Proof.
  revert i. induction w as [|y w IH]; intros i; simpl; [done|].
  destruct (y =? 0); [done|]. destruct i as [|i]; simpl; [done|]. apply IH.
Qed.

Lemma strlen_spec w : ∀ fuel d a,
  slot_holds d a w → (length w < fuel)%nat → a + Z.of_nat (length w) < SHARED_BUF_SIZE →
  Z.of_nat (length w) ≤ int_max → strlen fuel d a = Done (Z.of_nat (length (until_nul w))).
Proof.
  induction w as [|x w IH]; intros fuel d a [Hw Hz] Hf Ha Hm;
    (destruct fuel as [|fuel]; [simpl in Hf; lia|]); cbn [strlen]; simpl length in *.
  - cmp_step. rewrite Z.add_0_r in Hz. by rewrite Hz.
  - cmp_step.
    pose proof (Hw 0%nat x eq_refl) as Hx. rewrite Z.add_0_r in Hx. rewrite Hx. simpl.
    destruct (Z.eqb_spec x 0); [done|]. rewrite (IH fuel d (a + 1)); [|split|lia..].
    + simpl. pose proof (until_nul_length w). unfold mbind, outcome_bind, int_result.
      rewrite bool_decide_true by (unfold is_int, int_min, int_max in *; lia). f_equal. lia.
    + intros i y Hy. rewrite <- (Hw (S i) y Hy). f_equal. lia.
    + rewrite <- Hz. f_equal. lia.
Qed.

Lemma bytes_at_spec d a l :
  (∀ i x, l !! i = Some x → byte_at d (a + Z.of_nat i) = x) →
  bytes_at d a (Z.of_nat (length l)) = l.
Proof.
  intros Hl. apply list_eq. intros i. unfold bytes_at. rewrite list_lookup_fmap.
  destruct (decide (i < length l)%nat) as [Hi|Hi].
  - rewrite lookup_seqZ_lt by lia. simpl. destruct (lookup_lt_is_Some_2 l i Hi) as [x Hx].
    rewrite Hx. f_equal. by apply Hl.
  - rewrite lookup_seqZ_ge by lia. simpl. by rewrite lookup_ge_None_2 by lia.
Qed.

(** Reading a slot gives back the message, up to its first NUL. *)
Lemma copy_out_slot fuel d a w : (256 ≤ fuel)%nat →
  slot_holds d a w → 0 ≤ a → a + MSG_SIZE ≤ SHARED_BUF_SIZE → Z.of_nat (length w) < MSG_SIZE →
  copy_out fuel a MSG_SIZE d = Done (until_nul w).
Proof.
  unfold MSG_SIZE. intros Hfuel Hs Ha Ha' Hw. unfold copy_out.
  rewrite (strlen_spec w fuel d a Hs) by (unfold SHARED_BUF_SIZE, int_max in *; lia).
  pose proof (until_nul_length w). unfold mbind, outcome_bind, int_result.
  rewrite bool_decide_true by (unfold is_int, int_min, int_max; lia).
  do 2 cmp_step. f_equal.
  apply bytes_at_spec. intros i x Hx%until_nul_prefix. by apply (proj1 Hs).
Qed.

(** Writing a slot stores the message and touches no other slot. *)
Lemma copy_in_slot a msg len d d' :
  copy_in a msg len d = Done d' → 0 ≤ a < SHARED_BUF_SIZE → len < MSG_SIZE →
  let w := take (Z.to_nat len) msg in
  slot_holds d' a w ∧ Z.of_nat (length w) < MSG_SIZE ∧
  ∀ x, x < a ∨ a + MSG_SIZE ≤ x → byte_at d' x = byte_at d x.
Proof.
  unfold copy_in, MSG_SIZE, SHARED_BUF_SIZE. intros H Ha Hlen.
  destruct (_ || _) eqn:E1 in H; [done|]. destruct (_ || _) eqn:E2 in H; [done|].
  apply orb_false_iff in E1 as [E1 E1'], E2 as [E2 E2'].
  apply Z.ltb_ge in E1, E1', E2. apply Z.leb_gt in E2'. pose proof (wrap64_bound len).
  assert (0 ≤ len) as Hl0.
  { destruct (decide (0 ≤ len)) as [|Hneg]; [done|]. exfalso.
    assert (wrap64 len = len + 2 ^ 64); [|lia].
    unfold wrap64. symmetry. apply (Z.mod_unique _ _ (-1)); lia. }
  rewrite wrap64_small in * by lia. simplify_eq. cbv zeta.
  assert (length (take (Z.to_nat len) msg) = Z.to_nat len) as Hlw by (rewrite length_take; lia).
  split; [split|split].
  - intros i x Hx. pose proof (lookup_lt_Some _ _ _ Hx). rewrite byte_at_insert, decide_False by lia.
    by apply put_bytes_in.
  - rewrite byte_at_insert. by rewrite decide_True by lia.
  - lia.
  - intros x Hx. rewrite byte_at_insert, decide_False by lia. apply put_bytes_out. lia.
Qed.

Lemma offset_bounds i : 0 ≤ offset_of i ∧ offset_of i + MSG_SIZE ≤ SHARED_BUF_SIZE.
Proof.
  unfold offset_of, MAX_MESSAGES, SHARED_BUF_SIZE, MSG_SIZE.
  change (1024 * 1024 / 256) with 4096. pose proof (Z.mod_pos_bound i 4096). lia.
Qed.

(** Positions less than a whole round apart use different slots. *)
Lemma offset_apart i j :
  i ≠ j → - MAX_MESSAGES < i - j < MAX_MESSAGES →
  offset_of i + MSG_SIZE ≤ offset_of j ∨ offset_of j + MSG_SIZE ≤ offset_of i.
Proof.
  unfold offset_of, MAX_MESSAGES, SHARED_BUF_SIZE, MSG_SIZE.
  change (1024 * 1024 / 256) with 4096. intros Hne Hd.
  assert (i mod 4096 ≠ j mod 4096); [|lia].
  intros Heq. apply Hne. Z.div_mod_to_equations. lia.
Qed.

(** ** One consumer and any number of producers *)

Definition wrote (es : list event) : list (list Z) :=
  omap (λ e, match e with Wrote _ m => Some m | _ => None end) es.
Definition got (es : list event) : list (list Z) :=
  omap (λ e, match e with Got _ m => Some m | _ => None end) es.

Lemma wrote_app es es' : wrote (es ++ es') = wrote es ++ wrote es'.
Proof. apply omap_app. Qed.
Lemma got_app es es' : got (es ++ es') = got es ++ got es'.
Proof. apply omap_app. Qed.

(** Points of a writer that has a slot but has not published it yet; of a
    writer with the mutex; of the consumer that has a slot to give back. *)
Definition holding (p : pc) : bool :=
  match p with WMutex _ _ | WUndo | WCopy _ _ => true | _ => false end.
Definition locked (p : pc) : bool :=
  match p with WCopy _ _ | WPostMutex _ => true | _ => false end.
Definition unposted (p : pc) : bool := match p with RPost _ _ => true | _ => false end.

(** Process 0 is the consumer, at position [rp]; the others are producers. *)
Definition proc_ok (wp rp : Z) (t : nat) (p : pc) : Prop :=
  match t, p with
  | O, (Out (Consumer k) | AShm (Consumer k) | AOpen (Consumer k) _ | AStore (Consumer k) _ _
       | ACheck (Consumer k) _ | Idle (Consumer k) | RPost (Consumer k) _) => k = rp
  | O, (RCheck (Consumer k) m | RCopy (Consumer k) m) => k = rp ∧ m = MSG_SIZE ∧ rp < wp
  | S _, (Out Producer | AShm Producer | AOpen Producer _ | AStore Producer _ _ | ACheck Producer _
         | Idle Producer | WUndo | WPostMutex _ | WPostFull _) => True
  | S _, (WEmpty _ len | WMutex _ len | WCopy _ len) => len < MSG_SIZE
  | _, _ => False
  end.

Ltac step_cases ch H :=
  unfold SharedBuffer.tstep in H;
  let p := fresh "p" in let Hpc := fresh "Hpc" in
  match type of H with context [procs ?w !! ?t] =>
    destruct (procs w !! t) as [p|] eqn:Hpc; [|discriminate H] end;
  destruct p as [[]|[]|[]|[]|[]|[]| | | | | | |[]|[]|[]|[]], ch; simpl in H; try discriminate H;
  unfold enter, sem_wait, sem_wait_fails, sem_post, with_sem, ok in H;
  repeat (case_match; try discriminate H); simplify_eq/=.

Section one_consumer.
Context (addr : nat → sem → Z) (fuel : nat) (Hfuel : (256 ≤ fuel)%nat).
Local Abbreviation tstep := (tstep addr fuel).

Record ctl_inv (wp rp : Z) (w : world) : Prop := {
  k_procs : ∀ t p, procs w !! t = Some p → proc_ok wp rp t p;
  k_empty : val w SemEmpty + cnt holding (procs w) + (wp - rp) + cnt unposted (procs w) = MAX_MESSAGES;
  k_mutex : val w SemMutex + cnt locked (procs w) = 1;
  k_nonneg : ∀ n, 0 ≤ val w n;
}.

Record data_inv (W G : list (list Z)) (w : world) : Prop := {
  d_write_pos : write_pos (buf w) = Z.of_nat (length W);
  d_slots : ∀ i m, W !! i = Some m → (length G ≤ i)%nat →
    slot_holds (data (buf w)) (offset_of (Z.of_nat i)) m ∧ Z.of_nat (length m) < MSG_SIZE;
  d_got : G = until_nul <$> take (length G) W;
}.

Definition inv (w : world) (es : list event) : Prop :=
  ctl_inv (Z.of_nat (length (wrote es))) (Z.of_nat (length (got es))) w ∧
  data_inv (wrote es) (got es) w.

Lemma shared_got_le W G w : data_inv W G w → (length G ≤ length W)%nat.
Proof.
  intros Hd. pose proof (d_got _ _ _ Hd) as H. apply (f_equal length) in H.
  rewrite length_fmap, length_take in H. lia.
Qed.

(** A step of process [t] that changes neither buffer nor history keeps the
    process table well formed if its new program point is. *)
Lemma procs_update wp rp (m : gmap nat pc) t p :
  (∀ t p, m !! t = Some p → proc_ok wp rp t p) → proc_ok wp rp t p →
  ∀ t' p', <[t := p]> m !! t' = Some p' → proc_ok wp rp t' p'.
Proof.
  intros Hm Hp t' p' Ht'. destruct (decide (t' = t)) as [->|Hne].
  - rewrite lookup_insert_eq in Ht'. by simplify_eq.
  - rewrite lookup_insert_ne in Ht' by done. by apply Hm.
Qed.

(** The history only grows. *)
Lemma proc_ok_wrote wp wp' rp t p : wp ≤ wp' → proc_ok wp rp t p → proc_ok wp' rp t p.
Proof. intros Hle. destruct t, p as [[]|[]|[]|[]|[]|[]| | | | | | |[]|[]|[]|[]]; simpl; naive_solver lia. Qed.

(** Publishing a message: the writer's slot is free, so no unread message is
    overwritten. *)
Lemma write_slot W G w t msg len d :
  data_inv W G w → ctl_inv (Z.of_nat (length W)) (Z.of_nat (length G)) w →
  procs w !! t = Some (WCopy msg len) →
  copy_in (offset_of (write_pos (buf w))) msg len (data (buf w)) = Done d →
  Z.of_nat (length W) + 1 < 2 ^ 64 →
  data_inv (W ++ [take (Z.to_nat len) msg]) G
    (goto t (WPostMutex len) (set_buf (set_write_pos (wrap64 (write_pos (buf w) + 1))
      (set_data d (buf w))) w)).
Proof.
  intros Hd Hc Ht E Hlim. pose proof (shared_got_le _ _ _ Hd) as Hle. destruct Hd as [Hwp Hs Hg].
  rewrite Hwp in E. pose proof (offset_bounds (Z.of_nat (length W))) as Hob.
  assert (len < MSG_SIZE) as Hlen by (pose proof (k_procs _ _ _ Hc t _ Ht) as Hp; by destruct t).
  destruct (copy_in_slot _ _ _ _ _ E ltac:(unfold MSG_SIZE in *; lia) Hlen) as (Hnew & Hnl & Hold).
  pose proof (k_empty _ _ _ Hc). pose proof (k_nonneg _ _ _ Hc SemEmpty).
  pose proof (cnt_at holding _ _ _ Ht). pose proof (cnt_nonneg unposted (procs w)). simpl in *.
  split; simpl.
  - rewrite Hwp, length_app. simpl. rewrite wrap64_small by lia. lia.
  - intros i m Hi HG. destruct (decide (i = length W)) as [->|Hne].
    + rewrite list_lookup_middle in Hi by done. by simplify_eq.
    + assert (i < length W)%nat as Hlt.
      { apply lookup_lt_Some in Hi. rewrite length_app in Hi. simpl in Hi. lia. }
      rewrite lookup_app_l in Hi by done. destruct (Hs i m Hi HG) as [[Hb Hz] Hm].
      destruct (offset_apart (Z.of_nat i) (Z.of_nat (length W))) as [Hap|Hap]; [lia..| |];
        (split; [split|done]; [intros j x Hj; pose proof (lookup_lt_Some _ _ _ Hj); rewrite Hold by lia;
          by apply Hb|by rewrite Hold by lia]).
  - rewrite Hg at 1. by rewrite take_app_le by lia.
Qed.

(** Reading the next message. *)
Lemma read_slot W G w l :
  data_inv W G w → Z.of_nat (length G) < Z.of_nat (length W) →
  copy_out fuel (offset_of (Z.of_nat (length G))) MSG_SIZE (data (buf w)) = Done l →
  G ++ [l] = until_nul <$> take (S (length G)) W.
Proof.
  intros Hd Hlt E. pose proof (offset_bounds (Z.of_nat (length G))).
  destruct (lookup_lt_is_Some_2 W (length G) ltac:(lia)) as [m Hm].
  destruct (d_slots _ _ _ Hd _ _ Hm ltac:(lia)) as [Hs Hl].
  rewrite (copy_out_slot _ _ _ _ Hfuel Hs) in E by lia. simplify_eq.
  rewrite (take_S_r W (length G) m Hm), fmap_app. simpl. by rewrite <- (d_got _ _ _ Hd).
Qed.

(** [val] after a semaphore operation. *)
Lemma shared_ctl_step wp rp wp' rp' w w' t p p' :
  ctl_inv wp rp w → procs w !! t = Some p → procs w' = <[t := p']> (procs w) →
  wp ≤ wp' → (rp' = rp ∨ t = 0%nat ∧ ∀ u q, procs w !! u = Some q → u ≠ 0%nat → proc_ok wp rp' u q) →
  proc_ok wp' rp' t p' →
  val w' SemEmpty = val w SemEmpty + Z.b2z (holding p) - Z.b2z (holding p')
    + Z.b2z (unposted p) - Z.b2z (unposted p') - (wp' - wp) + (rp' - rp) →
  val w' SemMutex = val w SemMutex + Z.b2z (locked p) - Z.b2z (locked p') →
  (∀ n, 0 ≤ val w' n) → ctl_inv wp' rp' w'.
Proof.
  intros [Hp He Hm Hn] Ht Hprocs Hwp Hrp Hok Hve Hvm Hn'. split; [| | |done].
  - rewrite Hprocs. intros u q Hu. destruct (decide (u = t)) as [->|Hne].
    { rewrite lookup_insert_eq in Hu. by simplify_eq. }
    rewrite lookup_insert_ne in Hu by done. eapply proc_ok_wrote; [exact Hwp|].
    destruct Hrp as [->|[-> Hrp]]; [by apply Hp|]. by apply Hrp.
  - rewrite Hprocs, !(cnt_update _ _ _ _ p' Ht). lia.
  - rewrite Hprocs, (cnt_update _ _ _ _ p' Ht). lia.
Qed.

(** Producers do not depend on the consumer's position. *)
Lemma proc_ok_producer wp rp rp' t p : t ≠ 0%nat → proc_ok wp rp t p → proc_ok wp rp' t p.
Proof. destruct t; [done|]. by destruct p as [[]|[]|[]|[]|[]|[]| | | | | | |[]|[]|[]|[]]. Qed.

Lemma data_same W G w w' :
  data_inv W G w → write_pos (buf w') = write_pos (buf w) → data (buf w') = data (buf w) →
  data_inv W G w'.
Proof. intros [H1 H2 H3] Hw Hd. split; by rewrite ?Hw, ?Hd. Qed.

(** The semaphores stay far below their maximum. *)
Lemma shared_sem_bounds wp rp w :
  ctl_inv wp rp w → rp ≤ wp →
  (val w SemEmpty <? SEM_VALUE_MAX) = true ∧ (val w SemMutex <? SEM_VALUE_MAX) = true.
Proof.
  intros [_ He Hm _] Hle. pose proof (cnt_nonneg holding (procs w)).
  pose proof (cnt_nonneg unposted (procs w)). pose proof (cnt_nonneg locked (procs w)).
  unfold SEM_VALUE_MAX, int_max, MAX_MESSAGES, SHARED_BUF_SIZE, MSG_SIZE in *.
  change (1024 * 1024 / 256) with 4096 in He. lia.
Qed.

Lemma shared_inv_step t ch w w' es es' :
  tstep t ch w = Some (Done (w', es')) → Z.of_nat (length (wrote (es ++ es'))) < 2 ^ 64 →
  inv w es → inv w' (es ++ es').
Proof.
  unfold inv. rewrite wrote_app, got_app. intros H Hlim [Hc Hd].
  assert (Hn : ∀ n, 0 ≤ val w n) by apply (k_nonneg _ _ _ Hc).
  pose proof (shared_got_le _ _ _ Hd) as Hle. pose proof (d_write_pos _ _ _ Hd) as Hwp.
  destruct (shared_sem_bounds _ _ _ Hc ltac:(lia)) as [Hem Hmu].
  step_cases ch H; rewrite ?app_nil_r in *; try done;
    pose proof (k_procs _ _ _ Hc _ _ Hpc) as Hok; destruct t as [|t]; simpl in Hok; try done;
    rewrite ?length_app in *; simpl length in *; try lia.
  all: try (split; [|by eapply data_same];
    eapply shared_ctl_step; [exact Hc|exact Hpc|reflexivity|lia|by left|simpl..];
      [try done; try lia|lia|lia|let k := fresh in intros k; repeat case_decide; specialize (Hn k); subst; lia || done]).
  - (* a message is published *)
    split; [|eapply write_slot; [done|done|done|done|lia]].
    eapply shared_ctl_step; [exact Hc|exact Hpc|reflexivity|lia|by left|simpl; try done; lia..|done].
  - (* a message is read *)
    destruct Hok as (-> & -> & Hlt). rewrite wrap64_small by lia.
    match goal with E : copy_out _ _ _ _ = Done ?l |- _ =>
      pose proof (read_slot _ _ _ _ Hd Hlt E) as Hr end.
    split.
    + eapply shared_ctl_step; [exact Hc|exact Hpc|reflexivity|lia| |simpl; try done; lia..|done].
      right. split; [done|]. intros u q Hu Hu0.
      eapply proc_ok_producer; [exact Hu0|by apply (k_procs _ _ _ Hc)].
    + destruct Hd as [H1 H2 H3]. split; [done| |].
      * intros i m Hi. rewrite length_app. simpl. intros Hg. apply H2; [done|lia].
      * rewrite length_app. simpl. by rewrite Nat.add_1_r.
Qed.

(** Process 0 is the consumer and the others are producers; each of them has
    the buffer, or is to attach. *)
Definition at_start (ps : gmap nat pc) : Prop :=
  ∀ t p, ps !! t = Some p →
    let r := match t with O => Consumer 0 | S _ => Producer end in p = Idle r ∨ p = Out r.

Lemma start_count_zero (f : pc → bool) ps :
  at_start ps → (∀ r, f (Idle r) = false) → (∀ r, f (Out r) = false) → cnt f ps = 0.
Proof. intros Hps H1 H2. apply cnt_zero. intros t p Hp. by destruct (Hps t p Hp) as [-> | ->]. Qed.

Lemma shared_start_inv a ps : at_start ps → inv (start a ps) [].
Proof.
  intros Hps. split; split; simpl.
  - intros t p Hp. destruct (Hps t p Hp) as [-> | ->]; by destruct t.
  - rewrite !start_count_zero by done. lia.
  - by rewrite start_count_zero.
  - by intros [].
  - done.
  - done.
  - done.
Qed.

Lemma shared_reachable a ps es w :
  at_start ps → run (step addr fuel) (start a ps) es w →
  Z.of_nat (length (wrote es)) < 2 ^ 64 → inv w es.
Proof.
  intros Hps Hr. remember (start a ps) as s0 eqn:Hs0.
  induction Hr as [s|s es s' es' s'' Hr IH Hs]; [intros _; rewrite Hs0; by apply shared_start_inv|].
  intros Hlim. inversion Hs as [t ch ? ? ? H]; subst. eapply shared_inv_step; [done|done|].
  apply IH; [done|]. rewrite wrote_app, length_app in Hlim. lia.
Qed.

End one_consumer.

(** A run of a producer and the consumer, which attaches first: two messages
    are written, the first is read while the second one is being published. *)
Definition shared_sched : list (nat * choice) :=
  [(0%nat, Attach); (0%nat, Go); (0%nat, Go); (0%nat, Go); (0%nat, Go); (0%nat, Go); (0%nat, Go);
   (0%nat, Go); (0%nat, Go); (0%nat, Go); (0%nat, Go);
   (1%nat, Write [72; 105] 2); (1%nat, Go); (1%nat, Go); (1%nat, Go); (1%nat, Go); (1%nat, Go);
   (1%nat, Write [66] 1); (1%nat, Go); (1%nat, Go); (0%nat, Poll); (1%nat, Go); (0%nat, Go);
   (0%nat, Go)].
Definition shared_procs : gmap nat pc := <[0%nat := Out (Consumer 0)]> {[1%nat := Idle Producer]}.
Definition demo_addr : sem → Z := λ n, match n with SemFull => 8 | SemEmpty => 16 | SemMutex => 24 end.
(** Every process maps the semaphores at the same addresses. *)
Definition same_addr : nat → sem → Z := λ _, demo_addr.
Definition shared_events : list event :=
  [Opened 0 true; Wrote 1 [72; 105]; Return 1 2; Wrote 1 [66]; Got 0 [72; 105]].

Lemma shared_procs_start : at_start shared_procs.
Proof.
  intros t p H. unfold shared_procs in H. destruct t as [|[|t]].
  - rewrite lookup_insert_eq in H. simplify_eq. by right.
  - vm_compute in H. simplify_eq. by left.
  - rewrite lookup_insert_ne, lookup_singleton_ne in H by done. done.
Qed.

Definition shared_world : world :=
  match exec (tstep same_addr 256) shared_sched (start demo_addr shared_procs) with
  | Some (w, _) => w
  | None => start demo_addr ∅
  end.

Lemma shared_demo_run :
  run (step same_addr 256) (start demo_addr shared_procs) shared_events shared_world.
Proof.
  apply (exec_run _ shared_sched). unfold shared_world.
  destruct (exec _ _ _) as [[w es]|] eqn:E.
  - f_equal. f_equal. apply (f_equal (option_map snd)) in E. vm_compute in E. by injection E as <-.
  - exfalso. apply (f_equal (option_map snd)) in E. vm_compute in E. discriminate.
Qed.

(** C19. With one consumer, and any number of producers, wherever they have the
    semaphores, and whatever the interleaving, in which any of them may attach
    at any time and overwrite the pointers of the others: as long as no
    process uses a pointer that is not its own, the messages read are the
    messages written, in order, each exactly once and cut at its first NUL; at
    most [MAX_MESSAGES] are unread, so no unread message was overwritten. *)
Theorem shared_fifo addr fuel a ps es w :
  (256 ≤ fuel)%nat → at_start ps → run (step addr fuel) (start a ps) es w →
  Z.of_nat (length (wrote es)) < 2 ^ 64 →
  got es = until_nul <$> take (length (got es)) (wrote es) ∧
  (length (got es) ≤ length (wrote es))%nat ∧
  Z.of_nat (length (wrote es)) - Z.of_nat (length (got es)) ≤ MAX_MESSAGES.
Proof.
  intros Hf Hps Hr Hlim. destruct (shared_reachable addr fuel Hf a ps es w Hps Hr Hlim) as [Hc Hd].
  split_and!; [apply (d_got _ _ _ Hd)|by eapply shared_got_le|].
  pose proof (k_empty _ _ _ Hc). pose proof (k_nonneg _ _ _ Hc SemEmpty).
  pose proof (cnt_nonneg holding (procs w)). pose proof (cnt_nonneg unposted (procs w)). lia.
Qed.

Lemma shared_fifo_witness :
  [[72; 105]] = until_nul <$> take 1 [[72; 105]; [66]] ∧ (1 ≤ 2)%nat ∧ 2 - 1 ≤ MAX_MESSAGES.
Proof.
  apply (shared_fifo same_addr 256 demo_addr shared_procs shared_events shared_world);
    [lia|apply shared_procs_start|apply shared_demo_run|simpl; lia].
Defined.

(** ** Progress *)

(** The text a writer passed is at least as long as it says. *)
Definition callers_ok (w : world) : Prop :=
  ∀ t msg len, procs w !! t = Some (WCopy msg len) → 0 ≤ len ≤ Z.of_nat (length msg).

(** The semaphore the next step of a process operates on. *)
Definition next_op (p : pc) : option sem :=
  match p with
  | WEmpty _ _ | WUndo | RPost _ _ => Some SemEmpty
  | WMutex _ _ | WPostMutex _ => Some SemMutex
  | WPostFull _ | RWait _ _ => Some SemFull
  | _ => None
  end.

(** Process [t] is about to use a semaphore by a pointer that is not its own. *)
Definition crossed (addr : nat → sem → Z) (t : nat) (w : world) : Prop :=
  ∃ p n, procs w !! t = Some p ∧ next_op p = Some n ∧ ptr (buf w) n ≠ addr t n.

Lemma crossed_faults addr fuel t w : crossed addr t w → tstep addr fuel t Go w = Some (Fault OutOfBounds).
Proof.
  intros (p & n & Ht & Hp & Hne). unfold SharedBuffer.tstep. rewrite Ht.
  destruct p; simplify_eq/=; unfold sem_wait, sem_post, with_sem;
    by rewrite (proj2 (Z.eqb_neq _ _) Hne).
Qed.

Definition at_empty (p : pc) : bool := match p with WEmpty _ _ => true | _ => false end.
(** Inside a call, and past [sem_wait(sem_empty)] if it is [buffer_write]. *)
Definition busy (p : pc) : bool := match p with Out _ | Idle _ | WEmpty _ _ => false | _ => true end.

Section moves.
Context (addr : nat → sem → Z) (fuel : nat) (Hfuel : (256 ≤ fuel)%nat) (w : world) (es : list event).
Context (Hinv : inv w es) (Hcallers : callers_ok w) (Hown : ∀ t, ¬ crossed addr t w).

Definition moves (t : nat) : Prop :=
  ∃ w' es', tstep addr fuel t Go w = Some (Done (w', es')).

Lemma with_own_sem t p n k : procs w !! t = Some p → next_op p = Some n → with_sem addr t n k w = k.
Proof.
  intros Ht Hn. unfold with_sem. destruct (Z.eqb_spec (ptr (buf w) n) (addr t n)) as [|Hne]; [done|].
  destruct (Hown t). by exists p, n.
Qed.

Lemma copy_in_returns msg len :
  0 ≤ len ≤ Z.of_nat (length msg) → len < MSG_SIZE → 
  ∃ d, copy_in (offset_of (write_pos (buf w))) msg len (data (buf w)) = Done d.
Proof.
  intros Hlen Hm. pose proof (offset_bounds (write_pos (buf w))) as Ho.
  unfold copy_in. unfold MSG_SIZE, SHARED_BUF_SIZE in *. rewrite wrap64_small by lia.
  do 3 (cmp_step). cmp_step.
  by eexists.
Qed.

Lemma locked_moves t p : procs w !! t = Some p → locked p = true → moves t.
Proof.
  intros Ht Hp. destruct Hinv as [Hc _]. unfold moves, SharedBuffer.tstep. rewrite Ht.
  pose proof (k_procs _ _ _ Hc t p Ht) as Hok.
  destruct p; try discriminate Hp; simpl; unfold sem_post;
    [|rewrite (with_own_sem _ _ _ _ Ht eq_refl); unfold ok; by eexists _, _].
  destruct (copy_in_returns msg len) as [d ->]; [by eapply Hcallers|by destruct t|].
  unfold ok. by eexists _, _.
Qed.

(** Whoever is inside a call and past [sem_wait(sem_empty)] moves, or waits for
    somebody who does. *)
Lemma shared_busy_moves t p : procs w !! t = Some p → busy p = true → ∃ u, moves u.
Proof.
  intros Ht Hp. destruct Hinv as [Hc Hd]. pose proof (k_procs _ _ _ Hc t p Ht) as Hok.
  destruct (locked p) eqn:Hl; [exists t; by eapply locked_moves|].
  assert (Hmv : ∀ r, tstep addr fuel t Go w = Some (Done r) → ∃ u, moves u).
  { intros [w' es'] E. exists t, w', es'. done. }
  unfold SharedBuffer.tstep in Hmv. rewrite Ht in Hmv.
  destruct p as [[]|r|r n|r n p|r n|[]| | | | | | |r m|r m|r m|r len]; try discriminate; simpl in Hmv, Hok;
    unfold sem_post, sem_wait in Hmv; rewrite ?(with_own_sem _ _ _ _ Ht eq_refl) in Hmv;
    try (by eapply Hmv).
  - destruct (_ =? _); [by eapply Hmv|]. destruct (next_sem n); by eapply Hmv.
  - destruct (Z.ltb_spec 0 (val w SemMutex)) as [|Hz]; [by eapply Hmv|].
    assert (0 < cnt locked (procs w)) as Hcl.
    { pose proof (k_mutex _ _ _ Hc). lia. }
    apply cnt_pos in Hcl as (u & q & Hu & Hq). exists u. by eapply locked_moves.
  - by destruct t, r.
  - assert (∃ l, copy_out fuel (offset_of (pos_of r)) m (data (buf w)) = Done l) as [l El].
    { destruct t as [|t], r as [|k|k]; simpl in Hok; try done. destruct Hok as (-> & -> & Hlt). simpl.
      destruct (lookup_lt_is_Some_2 (wrote es) (length (got es)) ltac:(lia)) as [x Hx].
      destruct (d_slots _ _ _ Hd _ _ Hx ltac:(lia)) as [Hs Hxl].
      eexists. by apply copy_out_slot; [done|exact Hs|apply offset_bounds..|done]. }
    rewrite El in Hmv. by eapply Hmv.
Qed.

(** A writer at [sem_wait(sem_empty)] moves when a slot is free. *)
Lemma at_empty_moves t msg len :
  procs w !! t = Some (WEmpty msg len) → 0 < val w SemEmpty → moves t.
Proof.
  intros Ht Hv. unfold moves, SharedBuffer.tstep. rewrite Ht. simpl. unfold sem_wait.
  rewrite (with_own_sem _ _ _ _ Ht eq_refl), (proj2 (Z.ltb_lt _ _) Hv). unfold ok. by eexists _, _.
Qed.

End moves.

(** Can a process of the table be about to cross? *)
Lemma crossed_dec addr w : (∃ t, crossed addr t w) ∨ ∀ t, ¬ crossed addr t w.
Proof.
  set (bad := λ t p, match next_op p with Some n => negb (ptr (buf w) n =? addr t n) | None => false end).
  destruct (decide (map_Exists (λ t p, bad t p = true) (procs w))) as [H|H].
  - left. apply map_Exists_lookup_1 in H as (t & p & Ht & Hb). exists t, p. unfold bad in Hb.
    destruct (next_op p) as [n|]; [|done]. exists n. split_and!; [done..|].
    by apply negb_true_iff, Z.eqb_neq in Hb.
  - right. intros t (p & n & Ht & Hn & Hne). apply H. apply (map_Exists_lookup_2 _ _ t p Ht).
    unfold bad. rewrite Hn. by apply negb_true_iff, Z.eqb_neq.
Qed.


Lemma shared_world_callers : callers_ok shared_world.
Proof.
  assert (H : map_Forall (λ _ p, match p with WCopy _ _ => false | _ => true end = true)
    (procs shared_world)).
  { eapply bool_decide_unpack. vm_compute. exact I. }
  intros t msg len Ht. by specialize (H t _ Ht).
Qed.


(** ** Configurations in which messages are lost or invented *)

Definition schedule_events (sched : list (nat * choice)) (ps : gmap nat pc) : option (list event) :=
  snd <$> exec (tstep same_addr 256) sched (start demo_addr ps).

(** One whole call of [buffer_write] by process [t]. *)
Definition write_call (t : nat) (msg : list Z) : list (nat * choice) :=
  [(t, Write msg (Z.of_nat (length msg))); (t, Go); (t, Go); (t, Go); (t, Go); (t, Go)].
(** One whole call of [buffer_read], when the reader is behind. *)
Definition read_call (t : nat) : list (nat * choice) :=
  [(t, Read MSG_SIZE); (t, Go); (t, Go); (t, Go)].
(** One turn of the consumer's loop, when it is behind. *)
Definition poll_call (t : nat) : list (nat * choice) :=
  [(t, Poll); (t, Go); (t, Go); (t, Go)].

(** [buffer_read] does not count down [sem_full] when it finds itself behind,
    so the count stays for the next call, which returns an empty message
    although nothing was written since, where it should block. *)
Theorem shared_phantom_read :
  schedule_events (write_call 1 [65] ++ read_call 0 ++
      [(0%nat, Read MSG_SIZE); (0%nat, Go); (0%nat, Go); (0%nat, Go); (0%nat, Go)])
    (<[0%nat := Idle (Reader 0)]> {[1%nat := Idle Producer]}) =
  Some [Wrote 1 [65]; Return 1 1; Got 0 [65]; Return 0 1; Got 0 []; Return 0 0].
Proof. vm_compute. reflexivity. Qed.

Definition repeat_call (n : nat) (c : list (nat * choice)) : list (nat * choice) :=
  mjoin (replicate n c).

Definition two_consumers : gmap nat pc :=
  <[0%nat := Idle (Consumer 0)]> (<[2%nat := Idle (Consumer 0)]> {[1%nat := Idle Producer]}).

Definition last_events (n : nat) (es : list event) : list event := drop (length es - n) es.

(** Two consumers, each with its own position, free a slot each for the
    same message: after a full round of messages [65] and one read by each,
    the writer may write two messages [66], and consumer 0's next message is
    the second of them, not the message it was next to read. *)
Theorem shared_two_consumers_lose :
  last_events 7 <$> schedule_events
    (repeat_call 4096 (write_call 1 [65]) ++ poll_call 0 ++ poll_call 2 ++
     write_call 1 [66] ++ write_call 1 [67] ++ [(0%nat, Poll); (0%nat, Go); (0%nat, Go)])
    two_consumers =
  Some [Got 2 [65]; Return 2 1; Wrote 1 [66]; Return 1 1; Wrote 1 [67]; Return 1 1; Got 0 [67]].
Proof. vm_compute. reflexivity. Qed.

(** ** Attaching

    [buffer_open(0)] stores the addresses at which the opening process has the
    semaphores into the shared object, whether it succeeds or not. *)

(** One whole call of [buffer_open(0)]. *)
Definition attach_call (t : nat) : list (nat * choice) := (t, Attach) :: replicate 10 (t, Go).

(** An attached process whose addresses are all its own and good leaves its
    pointers behind: with other addresses than those, every other process is
    about to cross whenever it is at a semaphore. *)
Theorem attach_crosses_others addr fuel t r w :
  procs w !! t = Some (Out r) → (∀ n, addr t n ≠ SEM_FAILED) →
  ∃ w', exec (tstep addr fuel) (attach_call t) w = Some (w', [Opened t true]) ∧
    (∀ n, ptr (buf w') n = addr t n) ∧ procs w' !! t = Some (Idle r) ∧
    ∀ u p n, u ≠ t → procs w !! u = Some p → next_op p = Some n → addr u n ≠ addr t n → crossed addr u w'.
Proof.
  intros Ht Ha. unfold attach_call. simpl.
  repeat (unfold SharedBuffer.tstep at 1; simpl; rewrite ?Ht, ?lookup_insert_eq; simpl;
    rewrite ?(proj2 (Z.eqb_neq _ _) (Ha _)); simpl).
  eexists. split; [done|]. simpl. split_and!; [by intros []|by rewrite lookup_insert_eq|].
  intros u p n Hu Hp Hn Hne. exists p, n. simpl. rewrite !lookup_insert_ne by done.
  split_and!; [done..|]. destruct n; simpl; congruence.
Qed.

(** Two processes with the semaphores at different addresses: the writer is
    about to wait for a slot when the other one attaches. *)
Lemma attach_crosses_others_witness :
  let addr := λ (t : nat) (n : sem), if (t =? 0)%nat then demo_addr n + 4096 else demo_addr n in
  let w := start demo_addr (<[0%nat := Out (Consumer 0)]> {[1%nat := WEmpty [65] 1]}) in
  ∃ w', exec (tstep addr 256) (attach_call 0) w = Some (w', [Opened 0 true]) ∧
    (∀ n, ptr (buf w') n = addr 0%nat n) ∧ procs w' !! 0%nat = Some (Idle (Consumer 0)) ∧
    ∀ u p n, u ≠ 0%nat → procs w !! u = Some p → next_op p = Some n → addr u n ≠ addr 0%nat n → crossed addr u w'.
Proof.
  intros addr w. apply (attach_crosses_others addr 256 0 (Consumer 0) w); [vm_compute; reflexivity|].
  by intros [].
Defined.
