(* ===== verification/SharedPrograms.v ===== *)
(** The programs of [08_advanced/shared_memory_ipc]: [producer.c] and
    [consumer.c] around the shared buffer, and the descriptors, mappings and
    semaphores a process holds.

    Process 0 is a consumer and process 1 the producer, from the start of their
    [main]s on, when none of the names exists.  A step of the system is a step
    of one of their loops or of the call it is in: [buffer_open(1)], with the
    names it creates, [buffer_open(0)], which needs them, [buffer_write],
    [buffer_read] and [buffer_unlink].  A signal ends a program that has not
    installed its handler yet. *)
From S2P Require Import Prelude Resources Threads SharedBuffer SharedTheorems.
Import SharedBuffer.

Module SharedPrograms.

(** ** What a process holds *)

Inductive handle : Type := ShmFd | Mapping | SemHandle (n : sem).
#[export] Instance handle_eq_dec : EqDecision handle.
Proof. solve_decision. Defined.

(** What one call of [buffer_open(0)] meets: is the object there, is it mapped,
    and which semaphores are there? *)
Record attempt : Type := mkAttempt { at_fd : bool; at_map : bool; at_sem : sem → bool }.

(** [buffer_open(0)]; [shm_fd] keeps only the last descriptor. *)
Definition open_consumer (x : attempt) : ST (list handle) bool :=
  fd ← acquire ShmFd (at_fd x);
  if negb fd then mret false else
  m ← acquire Mapping (at_map x);
  if negb m then mret false else
  s1 ← acquire (SemHandle SemFull) (at_sem x SemFull);
  s2 ← acquire (SemHandle SemEmpty) (at_sem x SemEmpty);
  s3 ← acquire (SemHandle SemMutex) (at_sem x SemMutex);
  if s1 && s2 && s3 then mret true else _ ← release Mapping; mret false.

(** [while (!buf && retries > 0)]: is the consumer connected? *)
Fixpoint connect (retries : nat) (xs : list attempt) : ST (list handle) bool :=
  match retries with
  | O => mret false
  | S retries =>
      match xs with
      | [] => st_nofuel
      | x :: xs => ok ← open_consumer x; if (ok : bool) then mret true else connect retries xs
      end
  end.

(** [buffer_close], by a process whose last [shm_open] succeeded. *)
Definition buffer_close (buf : bool) : ST (list handle) unit :=
  if buf then _ ← release Mapping; release ShmFd else mret tt.

(** ** The loops *)

(** [snprintf(msg, MSG_SIZE, "msg_%ld", i)] *)
Definition message (i : Z) : list Z := take 255 ([109; 115; 103; 95] ++ decimal 19 i).

Inductive name : Type := Shm | Sem (n : sem).
#[export] Instance name_eq_dec : EqDecision name.
Proof. solve_decision. Defined.

Inductive producer_pc : Type :=
| KOpen | KTrunc | KMap | KZero                           (* [buffer_open(1)] *)
| KSem (n : sem) | KStore (n : sem) (p : Z) | KCheck (n : sem)
| KUndo (l : list name)    (* its failure: the names it unlinks *)
| PLoop                    (* the condition of the loop, and the next message *)
| PWrite                   (* in [buffer_write] *)
| PWait                    (* [while (running) sleep(1)] *)
| PUnlink (l : list name)  (* in [buffer_unlink] *)
| PDone                    (* returned from [main] *)
| PKilled.                 (* by a signal, before it had a handler *)

Inductive consumer_pc : Type :=
| COpen                    (* [while (!buf && retries > 0)] *)
| CAttach                  (* in [buffer_open(0)] *)
| CLoop | CRead | CDone | CKilled.

(** [named]: the names that exist; [sized]: was the object given its size? *)
Record system : Type := mkSystem {
  w : world; named : name → bool; sized : bool;
  ppc : producer_pc; sent : Z; p_running : bool;          (* [i] *)
  cpc : consumer_pc; retries : Z; messages_read : Z; idle_count : Z; c_running : bool;
}.

Definition set_object (w : world) (named : name → bool) (sized : bool) (s : system) : system :=
  mkSystem w named sized (ppc s) (sent s) (p_running s)
    (cpc s) (retries s) (messages_read s) (idle_count s) (c_running s).
Definition set_world (w : world) (s : system) : system := set_object w (named s) (sized s) s.
Definition set_named (n : name) (b : bool) (s : system) : system :=
  set_object (w s) (λ m, if decide (m = n) then b else named s m) (sized s) s.
Definition set_producer (p : producer_pc) (i : Z) (running : bool) (s : system) : system :=
  mkSystem (w s) (named s) (sized s) p i running
    (cpc s) (retries s) (messages_read s) (idle_count s) (c_running s).
Definition set_consumer (c : consumer_pc) (retries n idle : Z) (running : bool) (s : system) : system :=
  mkSystem (w s) (named s) (sized s) (ppc s) (sent s) (p_running s) c retries n idle running.

Definition p_goto (p : producer_pc) (s : system) : system := set_producer p (sent s) (p_running s) s.
Definition c_goto (c : consumer_pc) (s : system) : system :=
  set_consumer c (retries s) (messages_read s) (idle_count s) (c_running s) s.

(** What the call in progress returned, if it did. *)
Definition returned (es : list event) : option Z :=
  match es with [Return _ r] => Some r | _ => None end.
Definition opened (es : list event) : option bool :=
  match es with [Opened _ b] => Some b | _ => None end.

Inductive sys_choice : Type := Run (ch : choice) | Signal.

Definition sys_result : Type := option (outcome (system * list event)).
Definition sys_ok (s : system) : sys_result := Some (Done (s, [])).

(** A step of the buffer inside a step of a program. *)
Definition call (r : result) (k : world → list event → system) : sys_result :=
  match r with
  | Some (Done (w', es)) => Some (Done (k w' es, es))
  | Some (Fault e) => Some (Fault e)
  | Some NoFuel => Some NoFuel
  | None => None
  end.

Section programs.
Context (addr : nat → sem → Z) (strlen_fuel : nat) (num_messages : Z).

(** The names to unlink when semaphore [n] was not opened. *)
Definition undo (n : sem) : list name :=
  match n with
  | SemFull => [Shm]
  | SemEmpty => [Sem SemFull; Shm]
  | SemMutex => [Sem SemFull; Sem SemEmpty; Shm]
  end.

(** [buffer_open(1)]; [main] returns when it fails. *)
Definition buffer_create (ch : choice) (s : system) : sys_result :=
  match ppc s, ch with
  | KOpen, Go =>
      if named s Shm then sys_ok (p_goto PDone s) else sys_ok (p_goto KTrunc (set_named Shm true s))
  | KOpen, Fail => sys_ok (p_goto PDone s)
  | KTrunc, Go => sys_ok (p_goto KMap (set_object (w s) (named s) true s))
  | (KTrunc | KMap), Fail => sys_ok (p_goto (KUndo [Shm]) s)
  | KMap, Go => sys_ok (p_goto KZero s)
  | KZero, Go =>
      sys_ok (p_goto (KSem SemFull) (set_world (set_buf (mkBuffer ∅ 0 (λ _, 0)) (w s)) s))
  | KSem n, Go =>
      if named s (Sem n) then sys_ok (p_goto (KStore n SEM_FAILED) s) else
      sys_ok (p_goto (KStore n (addr 1%nat n))
        (set_named (Sem n) true (set_world (set_val n (initial n) (w s)) s)))
  | KSem n, Fail => sys_ok (p_goto (KStore n SEM_FAILED) s)
  | KStore n p, Go => sys_ok (p_goto (KCheck n) (set_world (set_buf (set_ptr n p (buf (w s))) (w s)) s))
  | KCheck n, Go =>
      if ptr (buf (w s)) n =? SEM_FAILED then sys_ok (p_goto (KUndo (undo n)) s) else
      sys_ok (p_goto (match next_sem n with Some m => KSem m | None => PLoop end) s)
  | KUndo (n :: l), Go => sys_ok (p_goto (KUndo l) (set_named n false s))
  | KUndo [], Go => sys_ok (p_goto PDone s)
  | _, _ => None
  end.

Definition buffer_unlink : list name := [Shm; Sem SemFull; Sem SemEmpty; Sem SemMutex].

Definition producer (ch : choice) (s : system) : sys_result :=
  match ppc s with
  | PLoop =>
      if (sent s <? num_messages) && p_running s then
        let msg := message (sent s) in
        call (tstep addr strlen_fuel 1 (Write msg (Z.of_nat (length msg))) (w s))
          (λ w' es, p_goto (if returned es is Some _ then PWait else PWrite) (set_world w' s))
      else sys_ok (p_goto PWait s)
  | PWrite =>
      call (tstep addr strlen_fuel 1 ch (w s)) (λ w' es,
        let s := set_world w' s in
        match returned es with
        | Some r => if r <? 0 then p_goto PWait s else set_producer PLoop (sent s + 1) (p_running s) s
        | None => s
        end)
  | PWait => if p_running s then None else sys_ok (p_goto (PUnlink buffer_unlink) s)
  | PUnlink (n :: l) => sys_ok (p_goto (PUnlink l) (set_named n false s))
  | PUnlink [] => sys_ok (p_goto PDone s)
  | PDone | PKilled => None
  | _ => buffer_create ch s
  end.

(** A step of [buffer_open(0)]: what is to be opened must be there, and the
    object must have its size to be used. *)
Definition attach (ch : choice) (s : system) : result :=
  match procs (w s) !! 0%nat, ch with
  | Some (AShm _), Go => if named s Shm then tstep addr strlen_fuel 0 ch (w s) else None
  | Some (AOpen _ n), Go => if named s (Sem n) then tstep addr strlen_fuel 0 ch (w s) else None
  | Some (AStore _ _ _), Go =>
      if sized s then tstep addr strlen_fuel 0 ch (w s) else Some (Fault OutOfBounds)
  | _, _ => tstep addr strlen_fuel 0 ch (w s)
  end.

Definition consumer (ch : choice) (s : system) : sys_result :=
  match cpc s with
  | COpen => call (tstep addr strlen_fuel 0 Attach (w s)) (λ w' es, c_goto CAttach (set_world w' s))
  | CAttach =>
      call (attach ch s) (λ w' es,
        let s := set_world w' s in
        match opened es with
        | Some true => c_goto CLoop s
        | Some false =>
            if 1 <? retries s
            then set_consumer COpen (retries s - 1) (messages_read s) (idle_count s) (c_running s) s
            else c_goto CDone s
        | None => s
        end)
  | CLoop =>
      if c_running s && (idle_count s <? 100) then
        call (tstep addr strlen_fuel 0 Poll (w s)) (λ w' es,
          let s := set_world w' s in
          match procs w' !! 0%nat with
          | Some (Idle _) =>
              set_consumer CLoop (retries s) (messages_read s) (idle_count s + 1) (c_running s) s
          | _ => set_consumer CRead (retries s) (messages_read s) 0 (c_running s) s
          end)
      else sys_ok (c_goto CDone s)
  | CRead =>
      call (tstep addr strlen_fuel 0 ch (w s)) (λ w' es,
        let s := set_world w' s in
        match returned es with
        | Some r =>
            set_consumer CLoop (retries s) (messages_read s + (if 0 <? r then 1 else 0))
              (idle_count s) (c_running s) s
        | None => s
        end)
  | CDone | CKilled => None
  end.

(** A signal: the handlers are installed after [buffer_open]. *)
Definition p_signal (s : system) : system :=
  match ppc s with
  | KOpen | KTrunc | KMap | KZero | KSem _ | KStore _ _ | KCheck _ | KUndo _ => p_goto PKilled s
  | p => set_producer p (sent s) false s
  end.
Definition c_signal (s : system) : system :=
  match cpc s with
  | COpen | CAttach => c_goto CKilled s
  | c => set_consumer c (retries s) (messages_read s) (idle_count s) false s
  end.

Definition sys_tstep (t : nat) (ch : sys_choice) (s : system) : sys_result :=
  match t, ch with
  | O, Run ch => consumer ch s
  | O, Signal => sys_ok (c_signal s)
  | 1%nat, Run ch => producer ch s
  | 1%nat, Signal => sys_ok (p_signal s)
  | _, _ => None
  end.

Definition sys_step : system → list event → system → Prop := thread_step sys_tstep.

End programs.

(** No name exists, and the two programs start. *)
Definition sys_start : system :=
  mkSystem (start (λ _, 0) shared_procs) (λ _, false) false KOpen 0 true COpen 10 0 0 true.

End SharedPrograms.
Import SharedPrograms.

(** ** The messages of the producer *)

Lemma message_ok i : 0 ≤ i →
  (4 ≤ length (message i) < 255)%nat ∧ until_nul (message i) = message i.
Proof.
  intros Hi. unfold message, decimal. cmp. pose proof (digits_length 19 i). split.
  - rewrite length_take, length_app. change (length [109; 115; 103; 95]) with 4%nat. lia.
  - apply until_nul_id, Forall_take, Forall_app. split; [repeat constructor; lia|].
    eapply Forall_impl; [by apply digits_positive|]. simpl. lia.
Qed.

#[local] Arguments message : simpl never.

(** ** The programs as users of the buffer *)

(** The messages before [n]. *)
Definition messages (n : Z) : list (list Z) := message <$> seqZ 0 n.

Lemma messages_snoc n : 0 ≤ n → messages n ++ [message n] = messages (n + 1).
Proof.
  intros Hn. unfold messages. rewrite seqZ_app by lia. by rewrite fmap_app.
Qed.

Lemma messages_length n : length (messages n) = Z.to_nat n.
Proof. unfold messages. by rewrite length_fmap, length_seqZ. Qed.

(** Has the call in progress published its message? *)
Definition published (p : pc) : bool := match p with WPostMutex _ | WPostFull _ => true | _ => false end.

(** The producer in a call carries the message of its turn. *)
Definition carries (i : Z) (p : pc) : Prop :=
  match p with
  | WEmpty msg len | WMutex msg len | WCopy msg len => msg = message i ∧ len = Z.of_nat (length msg)
  | WPostMutex len | WPostFull len => len = Z.of_nat (length (message i))
  | WUndo => True
  | _ => False
  end.

(** The points of a read whose message has a length. *)
Definition reading (p : pc) : Prop :=
  match p with RPost (Consumer _) len => 0 < len | RCheck (Consumer _) _ | RCopy (Consumer _) _ => True | _ => False end.

Definition producer_ok (num : Z) (w : world) (p : producer_pc) (i : Z) (W : list (list Z)) : Prop :=
  match p with
  | PWrite => i < num ∧ ∃ q, procs w !! 1%nat = Some q ∧ carries i q ∧ W = messages (i + Z.b2z (published q))
  | _ => procs w !! 1%nat = Some (Idle Producer) ∧ W = messages i
  end.

(** Where the consumer's process is when its program is at [c]. *)
Definition fits (c : consumer_pc) (q : pc) : Prop :=
  match c, q with
  | (COpen | CDone | CKilled), Out (Consumer _) => True
  | (CAttach | CKilled),
      (AShm (Consumer _) | AOpen (Consumer _) _ | AStore (Consumer _) _ _ | ACheck (Consumer _) _) => True
  | (CLoop | CDone), Idle (Consumer _) => True
  | CRead, q => reading q
  | _, _ => False
  end.

Definition consumer_ok (w : world) (c : consumer_pc) (n : Z) (G : list (list Z)) : Prop :=
  ∃ q, procs w !! 0%nat = Some q ∧ fits c q ∧ Z.of_nat (length G) = n + Z.b2z (unposted q).

(** In [buffer_open(1)]. *)
Definition creating (p : producer_pc) : bool :=
  match p with
  | KOpen | KTrunc | KMap | KZero | KSem _ | KStore _ _ | KCheck _ | KUndo _ => true
  | _ => false
  end.

Record sys_inv (num : Z) (s : system) (es : list event) : Prop := {
  y_sent : 0 ≤ sent s ≤ num;
  y_producer : producer_ok num (w s) (ppc s) (sent s) (wrote es);
  y_consumer : consumer_ok (w s) (cpc s) (messages_read s) (got es);
  y_fresh : creating (ppc s) = true → sent s = 0 ∧ cpc s ≠ CRead ∧ ∀ n, val (w s) n = initial n;
}.

Lemma producer_ok_messages num w p i W :
  producer_ok num w p i W → 0 ≤ i ≤ num → ∃ n, 0 ≤ n ≤ num ∧ W = messages n.
Proof.
  intros Hp Hi. assert ((∃ q, i < num ∧ W = messages (i + Z.b2z (published q))) ∨ W = messages i) as [(q & Hlt & ->)| ->].
  { destruct p; simpl in Hp; naive_solver. }
  - eexists. split; [|done]. destruct (published q); simpl; lia.
  - eauto.
Qed.

(** ** Every step of the system is a step of the buffer, or none *)

Lemma call_done r k s' es :
  call r k = Some (Done (s', es)) → ∃ w', r = Some (Done (w', es)) ∧ s' = k w' es.
Proof. destruct r as [[[w' es']| |]|]; simpl; intros ?; simplify_eq. eauto. Qed.

Section system.
Context (addr : nat → sem → Z) (fuel : nat) (Hfuel : (256 ≤ fuel)%nat) (num : Z).
Local Abbreviation tstep := (tstep addr fuel).
Local Abbreviation sys_tstep := (sys_tstep addr fuel num).
Local Abbreviation sys_step := (sys_step addr fuel num).

Ltac sys_cases H :=
  repeat match type of H with
  | call _ _ = _ => apply call_done in H as (? & H & ->)
  | _ => case_match; try discriminate H
  end; unfold sys_ok in H; simplify_eq/=.

(** [buffer_open(1)] touches neither the processes nor anything written, and
    leaves a fresh buffer as it is but for the pointers. *)
Record prepares (w w' : world) : Prop := {
  pr_procs : procs w' = procs w;
  pr_buf : (write_pos (buf w') = write_pos (buf w) ∧ data (buf w') = data (buf w)) ∨
    (write_pos (buf w') = 0 ∧ data (buf w') = ∅);
  pr_val : ∀ n, val w' n = val w n ∨ val w' n = initial n;
}.

Lemma prepares_refl w : prepares w w.
Proof. split; auto. Qed.

Lemma create_step ch s s' es :
  buffer_create addr ch s = Some (Done (s', es)) →
  es = [] ∧ prepares (w s) (w s') ∧ creating (ppc s) = true ∧ sent s' = sent s ∧
  cpc s' = cpc s ∧ messages_read s' = messages_read s ∧ ppc s' ≠ PWrite.
Proof.
  unfold buffer_create. intros H. sys_cases H; (split_and!; [done| |done..]);
    (split; simpl; [done|by auto|]); intros m; try case_decide; subst; auto.
Qed.

Lemma attach_tstep ch s r : attach addr fuel ch s = Some (Done r) → tstep 0 ch (w s) = Some (Done r).
Proof. unfold attach. intros H. repeat (case_match; try done). Qed.

Lemma sys_tstep_world t ch s s' es :
  sys_tstep t ch s = Some (Done (s', es)) →
  (w s' = w s ∧ es = []) ∨ (es = [] ∧ prepares (w s) (w s') ∧ creating (ppc s) = true) ∨
  (t < 2)%nat ∧ ∃ ch', tstep t ch' (w s) = Some (Done (w s', es)).
Proof.
  intros H. unfold SharedPrograms.sys_tstep in H. destruct t as [|[|t]]; [| |done].
  - destruct ch as [ch|]; [|unfold sys_ok, c_signal in H; by case_match; simplify_eq; left].
    unfold consumer in H. sys_cases H; try (by left); right; right; (split; [lia|]); eauto using attach_tstep.
  - destruct ch as [ch|]; [|unfold sys_ok, p_signal in H; by case_match; simplify_eq; left].
    unfold producer in H.
    destruct (creating (ppc s)) eqn:Ec.
    + right. left. assert (Hc : buffer_create addr ch s = Some (Done (s', es))) by by destruct (ppc s).
      by destruct (create_step _ _ _ _ Hc) as (-> & ? & _).
    + sys_cases H; try done; try (by left); right; right; (split; [lia|]); eauto.
Qed.

(** A step of one process leaves the other where it is. *)
Lemma tstep_other t ch w w' es u :
  tstep t ch w = Some (Done (w', es)) → u ≠ t → procs w' !! u = procs w !! u.
Proof.
  intros H Hu. step_cases ch H; try done; by rewrite lookup_insert_ne.
Qed.

(** ** One step of the call the producer is in, and of the consumer's *)

Lemma producer_call ch w w' es i q :
  tstep 1 ch w = Some (Done (w', es)) → procs w !! 1%nat = Some q → carries i q → 0 ≤ i →
  got es = [] ∧
  match returned es with
  | Some r => procs w' !! 1%nat = Some (Idle Producer) ∧ wrote es = [] ∧ published q = negb (r <? 0)
  | None => ∃ q', procs w' !! 1%nat = Some q' ∧ carries i q' ∧
      wrote es = (if published q' && negb (published q) then [message i] else []) ∧
      (published q = true → published q' = true)
  end.
Proof.
  intros H Hq Hc Hi. step_cases ch H; try done;
    rewrite ?lookup_insert_eq; (split; [done|]); destruct_and?; subst;
    try done; eexists; (split_and!; [done|done| |done]); try done.
  by rewrite Nat2Z.id, (take_ge (message i)) by done.
Qed.

Lemma consumer_call ch w w' es es' q :
  tstep 0 ch w = Some (Done (w', es')) → procs w !! 0%nat = Some q → reading q → inv w es →
  (∀ l, got es' = [l] → (0 < length l)%nat) →
  wrote es' = [] ∧
  match returned es' with
  | Some r => (∃ k, procs w' !! 0%nat = Some (Idle (Consumer k))) ∧ got es' = [] ∧ unposted q = true ∧ 0 < r
  | None => ∃ q', procs w' !! 0%nat = Some q' ∧ reading q' ∧
      Z.of_nat (length (got es')) + Z.b2z (unposted q) = Z.b2z (unposted q')
  end.
Proof.
  intros H Hq Hr [Hc Hd] Hl. pose proof (k_procs _ _ _ Hc 0%nat q Hq) as Hok.
  pose proof (d_write_pos _ _ _ Hd) as Hwp.
  step_cases ch H; try done; rewrite ?lookup_insert_eq; simpl in *; try done; (split; [done|]).
  - match goal with H : (_ <=? _) = true |- _ => apply Z.leb_le in H end. lia.
  - by eexists.
  - eexists. split_and!; [done| |done].
    match goal with |- reading (RPost _ (Z.of_nat (length ?l))) => specialize (Hl l eq_refl) end.
    simpl. lia.
  - eauto.
  - eauto.
Qed.

Lemma attach_call_step ch w w' es q :
  tstep 0 ch w = Some (Done (w', es)) → procs w !! 0%nat = Some q → fits CAttach q →
  wrote es = [] ∧ got es = [] ∧ (∀ n, val w' n = val w n) ∧
  ∃ q', procs w' !! 0%nat = Some q' ∧ unposted q' = false ∧
    match opened es with
    | Some true => fits CLoop q' | Some false => fits COpen q' | None => fits CAttach q'
    end.
Proof.
  intros H Hq Hf. step_cases ch H; try done; rewrite ?lookup_insert_eq; (split_and!; [done..|]);
    eexists; (split_and!; [done|..]); repeat case_match; done.
Qed.

(** What the consumer reads are the first messages. *)
Lemma got_messages w es n :
  inv w es → wrote es = messages n → 0 ≤ n → got es = messages (Z.of_nat (length (got es))).
Proof.
  intros [_ Hd] HW Hn. assert (length (got es) ≤ length (wrote es))%nat as Hle by by eapply shared_got_le.
  pose proof (d_got _ _ _ Hd) as HG. rewrite HW in HG, Hle. rewrite messages_length in Hle.
  rewrite HG at 1. set (k := length (got es)) in *. clearbody k.
  assert (Ht : take k (messages n) = messages (Z.of_nat k)).
  { unfold messages. rewrite <- fmap_take. f_equal.
    replace n with (Z.of_nat k + (n - Z.of_nat k)) by lia. rewrite seqZ_app, take_app_le by (rewrite ?length_seqZ; lia).
    rewrite take_ge by (rewrite length_seqZ; lia). done. }
  rewrite Ht. apply fmap_id_on. intros m (j & -> & Hj)%list_elem_of_fmap. apply elem_of_seqZ in Hj.
  apply message_ok. lia.
Qed.

(** ** The invariant of the system *)

Lemma enter_write w msg :
  procs w !! 1%nat = Some (Idle Producer) → Z.of_nat (length msg) ≤ 255 →
  tstep 1 (Write msg (Z.of_nat (length msg))) w = ok (goto 1 (WEmpty msg (Z.of_nat (length msg))) w) [].
Proof. intros Hp Hl. unfold SharedBuffer.tstep. rewrite Hp. cbn [enter]. unfold MSG_SIZE. by cmp. Qed.

Lemma producer_ok_idle n w p i W :
  p ≠ PWrite → producer_ok n w p i W ↔ procs w !! 1%nat = Some (Idle Producer) ∧ W = messages i.
Proof. by destruct p. Qed.

Lemma producer_step ch s s' es es' :
  sys_tstep 1 ch s = Some (Done (s', es')) → sys_inv num s es →
  0 ≤ sent s' ≤ num ∧ producer_ok num (w s') (ppc s') (sent s') (wrote (es ++ es')) ∧ got es' = [] ∧
  procs (w s') !! 0%nat = procs (w s) !! 0%nat ∧ cpc s' = cpc s ∧ messages_read s' = messages_read s ∧
  (creating (ppc s') = true → creating (ppc s) = true ∧ sent s' = sent s ∧
    ∀ n, val (w s') n = val (w s) n ∨ val (w s') n = initial n).
Proof.
  intros H [Hs Hp Hc _]. rewrite wrote_app. destruct ch as [ch|]; simpl in H.
  2:{ revert H Hp. unfold sys_ok, p_signal. destruct (ppc s); intros H Hp; simplify_eq/=;
        rewrite app_nil_r; split_and!; (done || apply Hp || lia || auto). }
  unfold producer in H. destruct (creating (ppc s)) eqn:Ecr.
  { assert (Hb : buffer_create addr ch s = Some (Done (s', es'))) by by destruct (ppc s).
    destruct (create_step _ _ _ _ Hb) as (-> & [Epr _ Ev] & _ & Es & Ec & Em & Ep). rewrite app_nil_r.
    apply producer_ok_idle in Hp; [|by destruct (ppc s)].
    rewrite (producer_ok_idle _ _ _ _ _ Ep), Epr, Es. split_and!; try apply Hp; auto; lia. }
  destruct (ppc s) eqn:Ep; simpl in Hp, Ecr; try discriminate Ecr.
  - destruct Hp as [Hp1 Hp2]. destruct (_ && _) eqn:Ec.
    2:{ unfold sys_ok in H. simplify_eq/=. by rewrite app_nil_r. }
    apply andb_true_iff in Ec as [Hlt%Z.ltb_lt _]. pose proof (message_ok (sent s) (proj1 Hs)) as [Hm _].
    rewrite enter_write in H by (done || lia). simplify_eq/=. rewrite app_nil_r. split_and!; try done;
      [lia|lia| |by rewrite lookup_insert_ne].
    eexists. rewrite lookup_insert_eq. split_and!; [done|done|]. by rewrite Z.add_0_r.
  - destruct Hp as (Hlt & q & Hq & Hca & HW). apply call_done in H as (w' & Et & ->).
    destruct (producer_call _ _ _ _ _ _ Et Hq Hca (proj1 Hs)) as [Hg Hr].
    pose proof (tstep_other _ _ _ _ _ 0%nat Et ltac:(done)) as H0.
    destruct (returned es') as [r|].
    + destruct Hr as (Hp' & -> & Hpub). rewrite app_nil_r, HW. destruct (r <? 0); rewrite Hpub; simpl;
        rewrite ?Z.add_0_r; split_and!; try done; lia.
    + destruct Hr as (q' & Hq' & Hca' & -> & Hpub). simpl. rewrite Ep. split_and!; try done; try lia.
      split; [lia|]. exists q'. split_and!; [done..|]. rewrite HW.
      destruct (published q), (published q'); simpl; rewrite ?app_nil_r, ?Z.add_0_r; try done.
      * by discriminate Hpub.
      * apply messages_snoc; lia.
  - destruct (p_running s); [done|]. unfold sys_ok in H. simplify_eq/=. by rewrite app_nil_r.
  - destruct l; unfold sys_ok in H; simplify_eq/=; by rewrite app_nil_r.
  - done.
  - done.
Qed.

Lemma consumer_step ch s s' es es' :
  sys_tstep 0 ch s = Some (Done (s', es')) → sys_inv num s es → inv (w s) es →
  (∀ l, got es' = [l] → (0 < length l)%nat) →
  consumer_ok (w s') (cpc s') (messages_read s') (got (es ++ es')) ∧ wrote es' = [] ∧
  procs (w s') !! 1%nat = procs (w s) !! 1%nat ∧ ppc s' = ppc s ∧ sent s' = sent s ∧
  (creating (ppc s) = true → cpc s' ≠ CRead ∧ ∀ n, val (w s') n = val (w s) n).
Proof.
  intros H [Hs Hp (q & Hq & Hf & HG) Hfr] Hinv Hl. rewrite got_app. destruct ch as [ch|]; simpl in H.
  2:{ unfold sys_ok in H. simplify_eq/=. rewrite app_nil_r. unfold c_signal, consumer_ok.
      destruct (cpc s) eqn:Ec; simpl; rewrite ?Ec in *; (split_and!; [|done|done|done|done|]);
        try (exists q; split_and!; [done| |done]; by destruct q as [[]|[]|[]|[]|[]|[]| | | | | | |[]|[]|[]|[]]);
        try (intros Hcr; by destruct (Hfr Hcr) as (_ & ? & _)). }
  unfold consumer in H. destruct (cpc s) eqn:Ec; simpl in Hf.
  - apply call_done in H as (w' & Et & ->). simpl. unfold SharedBuffer.tstep in Et. rewrite Hq in Et.
    destruct q as [[]|[]|[]|[]|[]|[]| | | | | | |[]|[]|[]|[]]; try done. simpl in Et. unfold ok in Et. simplify_eq/=.
    rewrite app_nil_r, lookup_insert_ne by done. split_and!; try done.
    eexists. simpl. rewrite lookup_insert_eq. done.
  - apply call_done in H as (w' & Et%attach_tstep & ->).
    pose proof (tstep_other _ _ _ _ _ 1%nat Et ltac:(done)) as H1.
    destruct (attach_call_step _ _ _ _ _ Et Hq Hf) as (Hw & Hg & Hv & q' & Hq' & Hu & Hf').
    rewrite Hg, app_nil_r. assert (Hun : unposted q = false) by by destruct q as [[]|[]|[]|[]|[]|[]| | | | | | |[]|[]|[]|[]].
    rewrite Hun in HG. unfold consumer_ok.
    destruct (opened es') as [[]|]; [|destruct (1 <? _)|]; simpl; rewrite ?Ec;
      (split_and!; [exists q'; rewrite Hu; split_and!; try done; by destruct q'|done..]).
  - destruct (_ && _); [|unfold sys_ok in H; simplify_eq/=; rewrite app_nil_r; split_and!; try done;
      exists q; split_and!; try done; by destruct q as [[]|[]|[]|[]|[]|[]| | | | | | |[]|[]|[]|[]]].
    apply call_done in H as (w' & Et & ->). simpl.
    destruct q as [[]|[]|[]|[]|[]|[| |k]| | | | | | |[]|[]|[]|[]]; try done.
    assert (Hk : creating (ppc s) = true → write_pos (buf (w s)) ≤ k).
    { intros Hcr. destruct (Hfr Hcr) as (Es & _ & _). destruct Hinv as [Hck Hd].
      rewrite (d_write_pos _ _ _ Hd), (k_procs _ _ _ Hck _ _ Hq).
      assert (HW : wrote es = messages (sent s)) by (destruct (ppc s); try done; by destruct Hp).
      rewrite HW, messages_length, Es. lia. }
    unfold SharedBuffer.tstep in Et. rewrite Hq in Et. cbn [enter] in Et.
    destruct (Z.leb_spec (write_pos (buf (w s))) k) as [Hle|Hlt]; unfold ok in Et; simplify_eq/=.
    + rewrite Hq, app_nil_r. split_and!; try done. exists (Idle (Consumer k)). done.
    + rewrite lookup_insert_eq, app_nil_r. simpl. rewrite lookup_insert_ne by done.
      split_and!; try done; [|intros Hcr; specialize (Hk Hcr); lia].
      eexists. simpl. rewrite lookup_insert_eq. split_and!; [done|done|simpl in *; lia].
  - apply call_done in H as (w' & Et & ->).
    pose proof (tstep_other _ _ _ _ _ 1%nat Et ltac:(done)) as H1.
    destruct (consumer_call _ _ _ _ _ _ Et Hq Hf Hinv Hl) as [Hw Hr].
    assert (Hcr : creating (ppc s) = true → False) by (intros Hcr; by destruct (Hfr Hcr) as (_ & ? & _)).
    destruct (returned es') as [r|]; simpl.
    + destruct Hr as ((k & Hk) & -> & Hu & Hr). rewrite app_nil_r. split_and!; try done.
      exists (Idle (Consumer k)). split_and!; [done|done|]. cmp. rewrite Hu in HG. simpl in *. lia.
    + destruct Hr as (q' & Hq' & Hrd' & HG'). rewrite Ec. split_and!; try done. exists q'. split_and!; [done..|].
      rewrite length_app. lia.
  - done.
  - done.
Qed.

Lemma messages_positive n k l : messages n !! k = Some l → (0 < length l)%nat.
Proof.
  intros (j & -> & Hj)%list_lookup_fmap_Some_1. apply lookup_seqZ in Hj as [-> _].
  pose proof (message_ok (0 + Z.of_nat k) ltac:(lia)). lia.
Qed.

(** A step writes one message at most, and a consumer's none. *)
Lemma step_wrote t ch w w' es :
  tstep t ch w = Some (Done (w', es)) → (length (wrote es) ≤ 1)%nat.
Proof. intros H. step_cases ch H; lia. Qed.

Lemma consumer_wrote ch s s' es es' :
  sys_tstep 0 ch s = Some (Done (s', es')) → sys_inv num s es → wrote es' = [].
Proof.
  intros H [_ _ (q & Hq & Hf & _) _]. destruct (sys_tstep_world _ _ _ _ _ H) as [[_ ->]|[[-> _]|(_ & ch' & Ht)]];
    [done..|].
  step_cases ch' Ht; try done; by destruct (cpc s).
Qed.

(** The buffer's invariant through a step of [buffer_open(1)]. *)
Lemma prepares_inv w w' es :
  prepares w w' → inv w es → wrote es = [] → (∀ n, val w n = initial n) → inv w' es.
Proof.
  intros [Hpr Hb Hv] [Hc Hd] HW Hi. assert (length (got es) ≤ length (wrote es))%nat as Hle by by eapply shared_got_le.
  assert (HV : ∀ n, val w' n = val w n) by (intros n; destruct (Hv n) as [->| ->]; by rewrite ?Hi).
  split.
  - destruct Hc as [H1 H2 H3 H4]. split; rewrite ?Hpr, ?HV; try done. intros n. by rewrite HV.
  - destruct Hb as [[Hw Hdt]|[Hw _]]; [by eapply data_same|]. rewrite HW in *.
    destruct Hd as [_ _ H3]. by split.
Qed.

Lemma sys_reachable es s :
  0 ≤ num < 2 ^ 63 → run sys_step sys_start es s → sys_inv num s es ∧ inv (w s) es.
Proof.
  intros Hnum Hr. remember sys_start as s0 eqn:E0.
  induction Hr as [s|s es s' es' s'' Hr IH Hs]; subst.
  { split; [|eapply shared_start_inv; [exact Hfuel|apply shared_procs_start]]. split; [simpl; lia|done| |done].
    eexists. done. }
  destruct (IH eq_refl) as [Hi Hinv]. clear IH. inversion Hs as [t ch ? ? ? H]; subst.
  destruct (producer_ok_messages _ _ _ _ _ (y_producer _ _ _ Hi) (y_sent _ _ _ Hi)) as (n & Hn & Hm).
  assert (HW : creating (ppc s') = true → wrote es = []).
  { intros Hcr. destruct (y_fresh _ _ _ Hi Hcr) as [Es _]. pose proof (y_producer _ _ _ Hi) as Hp.
    apply producer_ok_idle in Hp as [_ ->]; [|by destruct (ppc s')]. by rewrite Es. }
  assert (Hinv' : inv (w s'') (es ++ es')).
  { destruct (sys_tstep_world _ _ _ _ _ H) as [[-> ->]|[(-> & Hpr & Hcr)|(_ & ch' & Ht)]].
    - by rewrite app_nil_r.
    - rewrite app_nil_r. eapply prepares_inv; eauto. by apply (y_fresh _ _ _ Hi).
    - eapply (shared_inv_step addr fuel Hfuel); [exact Ht| |done].
      rewrite wrote_app, length_app, Hm, messages_length. pose proof (step_wrote _ _ _ _ _ Ht). lia. }
  split; [|done]. destruct t as [|[|t]]; [| |by destruct ch].
  - pose proof (consumer_wrote _ _ _ _ _ H Hi) as Hw. assert (HW' : wrote (es ++ es') = wrote es).
    { by rewrite wrote_app, Hw, app_nil_r. }
    destruct (consumer_step _ _ _ _ _ H Hi Hinv) as (Hc & _ & H1 & Ep & Es & Hcr).
    { intros l Hl. rewrite <- HW' in Hm. pose proof (got_messages _ _ _ Hinv' Hm (proj1 Hn)) as HG.
      rewrite got_app, Hl in HG. eapply messages_positive. rewrite <- HG. by apply list_lookup_middle. }
    split; [by rewrite Es; apply (y_sent _ _ _ Hi)| |done|].
    + rewrite HW', Ep, Es. pose proof (y_producer _ _ _ Hi) as Hp. unfold producer_ok in *. by rewrite H1.
    + rewrite Ep, Es. intros Hc'. destruct (y_fresh _ _ _ Hi Hc') as (? & _ & Hv).
      destruct (Hcr Hc') as [? Hv']. split_and!; [done..|]. intros m. by rewrite Hv'.
  - destruct (producer_step _ _ _ _ _ H Hi) as (Hse & Hp & Hg & H0 & Ec & Em & Hcr). split; [done|done| |].
    + rewrite got_app, Hg, app_nil_r, Ec, Em. pose proof (y_consumer _ _ _ Hi) as Hc.
      unfold consumer_ok in *. by rewrite H0.
    + intros Hc'. destruct (Hcr Hc') as (Hc0 & -> & Hv). destruct (y_fresh _ _ _ Hi Hc0) as (? & ? & Hv0).
      rewrite Ec. split_and!; [done..|]. intros m. destruct (Hv m) as [->|]; auto.
Qed.

End system.

(** ** Properties *)

(** The number of a message can be read back from it. *)
Lemma message_inj i j : 0 ≤ i < 2 ^ 63 → 0 ≤ j < 2 ^ 63 → message i = message j → i = j.
Proof.
  intros Hi Hj. unfold message, decimal. cmp.
  assert (Hl : ∀ n, (length ([109; 115; 103; 95]%Z ++ digits 19 n) ≤ 255)%nat).
  { intros n. rewrite length_app. change (length [109; 115; 103; 95]) with 4%nat. pose proof (digits_length 19 n). lia. }
  rewrite !take_ge by apply Hl. intros H. apply (inj ([109; 115; 103; 95] ++.)) in H.
  assert (Hten : 2 ^ 63 ≤ 10 ^ Z.of_nat 19) by (vm_compute; discriminate).
  apply (f_equal digits_value) in H. by rewrite (digits_read 19 i), (digits_read 19 j) in H by lia.
Qed.

Lemma messages_nodup n : 0 ≤ n < 2 ^ 63 → NoDup (messages n).
Proof.
  intros Hn. apply NoDup_fmap_2_strong; [|apply NoDup_seqZ].
  intros i j Hi%elem_of_seqZ Hj%elem_of_seqZ. apply message_inj; lia.
Qed.

(** ** Pointers that are not one's own *)

(** The programs that have returned from their [buffer_open]. *)
Definition past_open_p (p : producer_pc) : bool :=
  match p with PLoop | PWrite | PWait | PUnlink _ | PDone => true | _ => false end.
Definition past_open_c (c : consumer_pc) : bool :=
  match c with CLoop | CRead | CDone => true | _ => false end.

(** The producer has its slot and has not published its message. *)
Definition pending (w : world) : Z :=
  match procs w !! 1%nat with Some (WMutex _ _ | WCopy _ _) => 1 | _ => 0 end.
(** The consumer has read a message and not given back its slot. *)
Definition in_post (w : world) : Z :=
  match procs w !! 0%nat with Some p => Z.b2z (unposted p) | None => 0 end.

Lemma pending_le w : 0 ≤ pending w ≤ 1.
Proof. unfold pending. repeat case_match; lia. Qed.
Lemma in_post_le w : 0 ≤ in_post w ≤ 1.
Proof. unfold in_post. case_match; [destruct (unposted _)|]; simpl; lia. Qed.

Section stuck.
Context (addr : nat → sem → Z) (fuel : nat) (Hfuel : (256 ≤ fuel)%nat) (num : Z) (Hnum : 0 ≤ num < 2 ^ 63).
Local Abbreviation sys_step := (sys_step addr fuel num).

(** Writing and reading keep the pointers. *)
Lemma call_keeps_ptr t ch w w' es q :
  tstep addr fuel t ch w = Some (Done (w', es)) → procs w !! t = Some q →
  match q with Out _ | AShm _ | AOpen _ _ | AStore _ _ _ | ACheck _ _ => False | _ => True end →
  ptr (buf w') = ptr (buf w).
Proof. intros H Hq Hn. step_cases ch H; done. Qed.

Lemma producer_stuck ch w w' es i q :
  tstep addr fuel 1 ch w = Some (Done (w', es)) → procs w !! 1%nat = Some q → carries i q →
  ptr (buf w) SemEmpty ≠ addr 1%nat SemEmpty →
  Z.of_nat (length (wrote es)) + pending w' ≤ pending w.
Proof.
  intros H Hq Hc Hne. apply Z.eqb_neq in Hne.
  step_cases ch H; try done; unfold pending; simpl; rewrite ?Hpc, ?lookup_insert_eq; lia || congruence.
Qed.

Lemma consumer_stuck ch w w' es q :
  tstep addr fuel 0 ch w = Some (Done (w', es)) → procs w !! 0%nat = Some q → reading q →
  ptr (buf w) SemEmpty ≠ addr 0%nat SemEmpty →
  returned es = None ∧ Z.of_nat (length (got es)) + in_post w ≤ in_post w'.
Proof.
  intros H Hq Hr Hne. apply Z.eqb_neq in Hne.
  step_cases ch H; try done; unfold in_post; simpl; rewrite ?Hpc, ?lookup_insert_eq; simpl;
    (split; [done|lia]) || congruence.
Qed.

(** What is left of a run from [s] on when the pointer to [sem_empty] is [e]. *)
Record stuck (e : Z) (s : system) (es : list event) (s' : system) : Prop := {
  st_p : past_open_p (ppc s') = true;
  st_c : past_open_c (cpc s') = true;
  st_ptr : ptr (buf (w s')) SemEmpty = e;
  st_wrote : e ≠ addr 1%nat SemEmpty → Z.of_nat (length (wrote es)) + pending (w s') ≤ pending (w s);
  st_got : e ≠ addr 0%nat SemEmpty →
    messages_read s' = messages_read s ∧ Z.of_nat (length (got es)) ≤ in_post (w s');
}.

Lemma stuck_same e s es s1 s2 :
  stuck e s es s1 → w s2 = w s1 → messages_read s2 = messages_read s1 →
  past_open_p (ppc s2) = true → past_open_c (cpc s2) = true → stuck e s (es ++ []) s2.
Proof. intros [H1 H2 H3 H4 H5] Hw Hm Hp Hc. rewrite app_nil_r. split; rewrite ?Hw, ?Hm; done. Qed.

Lemma stuck_producer e s es0 es s1 ch s2 es' :
  stuck e s es s1 → sys_inv num s1 es0 →
  sys_tstep addr fuel num 1 ch s1 = Some (Done (s2, es')) → stuck e s (es ++ es') s2.
Proof.
  intros Hst Hi H. pose proof (st_p _ _ _ _ Hst) as Hpo. pose proof (st_c _ _ _ _ Hst) as Hco.
  destruct Hi as [Hs Hp _ _]. destruct ch as [ch|]; simpl in H.
  2:{ unfold sys_ok in H. simplify_eq. eapply stuck_same; [done|..]; unfold p_signal; by destruct (ppc s1) eqn:E. }
  unfold producer in H. destruct (ppc s1) eqn:Ep; simpl in Hp; try discriminate Hpo.
  - destruct Hp as [Hp1 _]. destruct (_ && _); [|unfold sys_ok in H; simplify_eq; by eapply stuck_same].
    pose proof (message_ok (sent s1) (proj1 Hs)) as [Hm _].
    rewrite enter_write in H by (done || lia). simplify_eq/=.
    destruct Hst as [_ _ H3 H4 H5]. rewrite app_nil_r. split; try done; simpl.
    + unfold pending in *. simpl. rewrite lookup_insert_eq, Hp1 in *. done.
    + unfold in_post in *. simpl. by rewrite lookup_insert_ne.
  - destruct Hp as (_ & q & Hq & Hca & _). apply call_done in H as (w' & Et & ->).
    assert (Hptr : ptr (buf w') = ptr (buf (w s1))) by (eapply call_keeps_ptr; [done..|]; by destruct q).
    pose proof (tstep_other _ _ _ _ _ _ _ 0%nat Et ltac:(done)) as H0.
    destruct (producer_call _ _ _ _ _ _ _ _ Et Hq Hca (proj1 Hs)) as [Hg _].
    assert (Hw : w (match returned es' with
        | Some r => if r <? 0 then p_goto PWait (set_world w' s1)
                    else set_producer PLoop (sent (set_world w' s1) + 1) (p_running (set_world w' s1)) (set_world w' s1)
        | None => set_world w' s1 end) = w').
    { destruct (returned es'); [destruct (_ <? _)|]; done. }
    destruct Hst as [_ _ H3 H4 H5]. split.
    + destruct (returned es'); [destruct (_ <? _)|]; simpl; by rewrite ?Ep.
    + destruct (returned es'); [destruct (_ <? _)|]; done.
    + rewrite Hw, Hptr. done.
    + intros He. rewrite Hw, wrote_app, length_app. specialize (H4 He). rewrite <- H3 in He.
      pose proof (producer_stuck _ _ _ _ _ _ Et Hq Hca He). lia.
    + intros He. rewrite Hw, got_app, Hg, app_nil_r. unfold in_post in *. rewrite H0.
      destruct (returned es'); [destruct (_ <? _)|]; by apply H5.
  - destruct (p_running s1); [done|]. unfold sys_ok in H. simplify_eq. by eapply stuck_same.
  - destruct l; unfold sys_ok in H; simplify_eq; by eapply stuck_same.
  - done.
Qed.

Lemma stuck_consumer e s es0 es s1 ch s2 es' :
  stuck e s es s1 → sys_inv num s1 es0 →
  sys_tstep addr fuel num 0 ch s1 = Some (Done (s2, es')) → stuck e s (es ++ es') s2.
Proof.
  intros Hst Hi H. pose proof (st_p _ _ _ _ Hst) as Hpo. pose proof (st_c _ _ _ _ Hst) as Hco.
  assert (Hwr : wrote es' = []) by by eapply consumer_wrote.
  destruct Hi as [_ _ (q & Hq & Hf & _) _]. destruct ch as [ch|]; simpl in H.
  2:{ unfold sys_ok in H. simplify_eq. eapply stuck_same; [done|..]; unfold c_signal; by destruct (cpc s1) eqn:E. }
  unfold consumer in H. destruct (cpc s1) eqn:Ec; simpl in Hf; try discriminate Hco.
  - destruct (_ && _); [|unfold sys_ok in H; simplify_eq; by eapply stuck_same].
    apply call_done in H as (w' & Et & ->).
    destruct q as [[]|[]|[]|[]|[]|[| |k]| | | | | | |[]|[]|[]|[]]; try done.
    unfold SharedBuffer.tstep in Et. rewrite Hq in Et. cbn [enter] in Et.
    destruct (_ <=? _); unfold ok in Et; simplify_eq/=.
    + rewrite Hq. by eapply stuck_same.
    + rewrite lookup_insert_eq. destruct Hst as [_ _ H3 H4 H5]. rewrite app_nil_r. split; try done; simpl.
      * unfold pending in *. simpl. by rewrite lookup_insert_ne.
      * unfold in_post in *. simpl. rewrite lookup_insert_eq, Hq in *. done.
  - apply call_done in H as (w' & Et & ->).
    assert (Hptr : ptr (buf w') = ptr (buf (w s1))) by (eapply call_keeps_ptr; [done..|]; by destruct q).
    pose proof (tstep_other _ _ _ _ _ _ _ 1%nat Et ltac:(done)) as H1.
    destruct Hst as [_ _ H3 H4 H5]. rewrite <- H3. split.
    + by destruct (returned es').
    + destruct (returned es'); simpl; by rewrite ?Ec.
    + destruct (returned es'); simpl; by rewrite Hptr.
    + rewrite H3. intros He. rewrite wrote_app, Hwr, app_nil_r. specialize (H4 He). unfold pending in *.
      destruct (returned es'); simpl; by rewrite H1.
    + intros He. destruct (consumer_stuck _ _ _ _ _ Et Hq Hf He) as [Hret Hg]. rewrite Hret, got_app, length_app.
      rewrite H3 in He. destruct (H5 He). simpl. split; [done|lia].
  - done.
Qed.

Lemma stuck_run es s es' s' :
  run sys_step sys_start es s → past_open_p (ppc s) = true → past_open_c (cpc s) = true →
  run sys_step s es' s' → stuck (ptr (buf (w s)) SemEmpty) s es' s'.
Proof.
  intros Hr Hp Hc Hr'. remember s as s0 eqn:E0.
  induction Hr' as [s1|s1 es1 s2 es2 s3 Hr1 IH Hs]; subst.
  { split; try done; simpl. intros _. split; [done|]. apply in_post_le. }
  specialize (IH eq_refl Hr Hp Hc).
  destruct (sys_reachable addr fuel Hfuel num (es ++ es1) s2 Hnum (run_app _ _ _ _ _ _ Hr Hr1)) as [Hi _].
  inversion Hs as [t ch ? ? ? H]; subst. destruct t as [|[|t]]; [| |by destruct ch].
  - by eapply stuck_consumer.
  - by eapply stuck_producer.
Qed.

End stuck.

(** C21. The two programs from their start, in any interleaving of their steps,
    those of [buffer_open] included, with the semaphores anywhere, with
    signals and failing calls, as long as no semaphore is used by a pointer
    that is not the process's own: the consumer reads the producer's messages
    "msg_0", "msg_1", ... in order, each of them once and none twice; it has
    counted all it has read but perhaps the one it is returning from; and the
    producer has written those before its index, and perhaps that one.  When
    they have [sem_empty] at different addresses, they do not work together:
    once both have opened the buffer, either the producer writes at most one
    more message, or the consumer counts none and reads at most one. *)
Theorem shared_programs_deliver addr fuel num es s :
  (256 ≤ fuel)%nat → 0 ≤ num < 2 ^ 63 → run (sys_step addr fuel num) sys_start es s →
  (got es = messages (Z.of_nat (length (got es))) ∧ NoDup (got es) ∧
   messages_read s ≤ Z.of_nat (length (got es)) ≤ messages_read s + 1 ∧
   (cpc s ≠ CRead → messages_read s = Z.of_nat (length (got es))) ∧
   ∃ n, wrote es = messages n ∧ 0 ≤ n ≤ num ∧ Z.of_nat (length (got es)) ≤ n) ∧
  (addr 0%nat SemEmpty ≠ addr 1%nat SemEmpty → past_open_p (ppc s) = true → past_open_c (cpc s) = true →
   ∀ es' s', run (sys_step addr fuel num) s es' s' →
     (length (wrote es') ≤ 1)%nat ∨ messages_read s' = messages_read s ∧ (length (got es') ≤ 1)%nat).
Proof.
  intros Hf Hnum Hr. split.
  - destruct (sys_reachable addr fuel Hf num es s Hnum Hr) as [[Hs Hp (q & _ & Hfit & Hc) _] Hinv].
    destruct (producer_ok_messages _ _ _ _ _ Hp Hs) as (n & Hn & HW).
    assert (HG : got es = messages (Z.of_nat (length (got es)))) by (eapply got_messages; [exact Hf|exact Hinv|exact HW|lia]).
    assert (length (got es) ≤ length (wrote es))%nat as Hle by (destruct Hinv as [_ Hd]; by eapply shared_got_le).
    rewrite HW, messages_length in Hle. split_and!; [done| | | | |exists n; split_and!; [done|lia..]].
    + rewrite HG. apply messages_nodup. lia.
    + destruct (unposted q); simpl in Hc; lia.
    + destruct (unposted q); simpl in Hc; lia.
    + intros Hne. assert (unposted q = false) as Hu by (by destruct (cpc s), q).
      rewrite Hu in Hc. simpl in Hc. lia.
  - intros Hne Hp Hc es' s' Hr'. destruct (stuck_run addr fuel Hf num Hnum es s es' s' Hr Hp Hc Hr') as [_ _ _ Hw Hg].
    pose proof (pending_le (w s)). pose proof (pending_le (w s')). pose proof (in_post_le (w s')).
    destruct (decide (ptr (buf (w s)) SemEmpty = addr 1%nat SemEmpty)) as [E|E].
    + right. destruct Hg as [Hm Hl]; [congruence|]. split; [done|lia].
    + left. specialize (Hw E). lia.
Qed.

(** The consumer has the semaphores elsewhere. *)
Definition demo_addrs (t : nat) (n : sem) : Z := if (t =? 0)%nat then demo_addr n + 4096 else demo_addr n.
Definition run_go (t k : nat) : list (nat * sys_choice) := replicate k (t, Run Go).

(** The producer makes the buffer and writes a message, the consumer attaches
    and reads it, and the producer goes on to write the second one. *)
Definition demo_sched : list (nat * sys_choice) :=
  run_go 1 13 ++ run_go 1 6 ++ run_go 0 11 ++ run_go 0 4 ++ run_go 1 1.
Definition demo_system : system :=
  match exec (sys_tstep demo_addrs 256 2) demo_sched sys_start with
  | Some (s, _) => s
  | None => sys_start
  end.
Definition demo_events : list event :=
  [Wrote 1 (message 0); Return 1 5; Opened 0 true; Got 0 (message 0); Return 0 5].

Lemma demo_run : run (sys_step demo_addrs 256 2) sys_start demo_events demo_system.
Proof.
  apply (exec_run _ demo_sched). unfold demo_system. destruct (exec _ _ _) as [[s es]|] eqn:E.
  - f_equal. f_equal. apply (f_equal (option_map snd)) in E. vm_compute in E. by injection E as <-.
  - exfalso. apply (f_equal (option_map snd)) in E. vm_compute in E. discriminate.
Qed.

Lemma shared_programs_deliver_witness :
  ([message 0] = messages 1 ∧ NoDup [message 0] ∧
   messages_read demo_system ≤ 1 ≤ messages_read demo_system + 1 ∧
   (cpc demo_system ≠ CRead → messages_read demo_system = 1) ∧
   ∃ n, [message 0] = messages n ∧ 0 ≤ n ≤ 2 ∧ 1 ≤ n) ∧
  (∀ es' s', run (sys_step demo_addrs 256 2) demo_system es' s' →
     (length (wrote es') ≤ 1)%nat ∨ messages_read s' = messages_read demo_system ∧ (length (got es') ≤ 1)%nat).
Proof.
  destruct (shared_programs_deliver demo_addrs 256 2 demo_events demo_system (le_n 256)
    ltac:(lia) demo_run) as [H1 H2]. split; [exact H1|]. apply H2; [discriminate|vm_compute; reflexivity..].
Defined.

(** There the producer crashes: its [sem_empty] is the consumer's. *)
Theorem producer_crashes_after_attach :
  sys_tstep demo_addrs 256 2 1 (Run Go) demo_system = Some (Fault OutOfBounds).
Proof. vm_compute. reflexivity. Qed.

(** Even with the same addresses a consumer that starts too early can stop the
    producer: it finds [sem_empty] missing, and stores [SEM_FAILED] for it
    after the producer has created it and checked its own pointer. *)
Theorem early_consumer_stops_producer :
  match exec (sys_tstep same_addr 256 2)
    (run_go 1 7 ++ run_go 0 4 ++ [(0%nat, Run Fail)] ++ run_go 1 7 ++ run_go 0 1) sys_start with
  | Some (s, _) => sys_tstep same_addr 256 2 1 (Run Go) s
  | None => None
  end = Some (Fault OutOfBounds).
Proof. vm_compute. reflexivity. Qed.

(** ** What the consumer holds *)

(** The object is there, but no semaphore yet. *)
Definition too_early : attempt := mkAttempt true true (λ _, false).
Definition all_there : attempt := mkAttempt true true (λ _, true).
Definition sem_handles : list handle := [SemHandle SemMutex; SemHandle SemEmpty; SemHandle SemFull].

Lemma too_early_wp h : wp (open_consumer too_early) (λ ok h', ok = false ∧ h' = ShmFd :: h) h.
Proof. unfold open_consumer, wp, mbind, st_bind, acquire, release. simpl. done. Qed.

Lemma connect_early retries k : ∀ h, (k < retries)%nat →
  wp (connect retries (replicate k too_early ++ [all_there]))
    (λ ok h', ok = true ∧ h' = sem_handles ++ Mapping :: ShmFd :: replicate k ShmFd ++ h) h.
Proof.
  revert k. induction retries as [|retries IH]; intros k h Hk; [lia|]. cbn [connect].
  destruct k as [|k]; cbn [replicate app]; [done|]. apply wp_bind. eapply wp_mono; [apply too_early_wp|].
  intros ok h' [-> ->]. eapply wp_mono; [apply IH; lia|]. intros ok h' [-> ->]. split; [done|].
  do 5 f_equal. clear. induction k as [|k IH]; [done|]. simpl in *. by f_equal.
Qed.

(** C22. A consumer that finds the object before its semaphores, [k] times of
    its ten, and then connects: each failed [buffer_open] unmaps the object but
    keeps its descriptor, [shm_fd] being overwritten by the next one, and
    [buffer_close] closes the last one only and none of the semaphores. *)
Theorem consumer_leaks_descriptors k h :
  (k < 10)%nat →
  wp (ok ← connect 10 (replicate k too_early ++ [all_there]); buffer_close ok)
    (λ _ h', h' ≡ₚ replicate k ShmFd ++ sem_handles ++ h) h.
Proof.
  intros Hk. apply wp_bind. eapply wp_mono; [by apply connect_early|]. intros ok h1 [-> ->].
  unfold buffer_close. apply wp_bind.
  apply (release_wp _ _ _ (sem_handles ++ ShmFd :: replicate k ShmFd ++ h)).
  { unfold sem_handles. solve_Permutation. }
  intros h2 H2. apply (release_wp _ _ _ (sem_handles ++ replicate k ShmFd ++ h)).
  { rewrite H2. unfold sem_handles. solve_Permutation. }
  intros h3 H3. rewrite H3. unfold sem_handles. solve_Permutation.
Qed.

Lemma consumer_leaks_descriptors_witness :
  wp (ok ← connect 10 (replicate 2 too_early ++ [all_there]); buffer_close ok)
    (λ _ h', h' ≡ₚ replicate 2 ShmFd ++ sem_handles ++ []) [].
Proof. apply consumer_leaks_descriptors. lia. Defined.
