(* ===== verification/Shell.v ===== *)
(** The mini shell: [01_processes/mini_shell/shell.c].

    Parsing, redirection and the wiring of pipelines.  The kernel is a table of
    open descriptors, the children that were forked and the ones waited for;
    a child is what it executes and the descriptors it does it with.  Which
    descriptor the kernel hands out and which calls fail are parameters. *)
From Stdlib Require Import Ascii.
From stdpp Require Import strings.
From S2P Require Import Prelude.

Module Shell.

Definition MAX_CMD_LEN : Z := 1024.
Definition MAX_ARGS : Z := 64.
Definition MAX_PIPES : Z := 10.

(** C strings, without their terminator. *)
Abbreviation str := (list ascii).
Definition lit (s : String.string) : str := String.list_ascii_of_string s.

Definition chr_newline : ascii := ascii_of_nat 10.
Definition chr_tab : ascii := ascii_of_nat 9.
Definition chr_nul : ascii := ascii_of_nat 0.
Definition chr_space : ascii := " "%char.
Definition chr_pipe : ascii := "|"%char.
Definition is_char (c d : ascii) : bool := bool_decide (d = c).

(** " \t\n", " \t" and "|" *)
Definition blank_nl (c : ascii) : bool :=
  is_char chr_space c || is_char chr_tab c || is_char chr_newline c.
Definition blank (c : ascii) : bool := is_char chr_space c || is_char chr_tab c.
Definition bar (c : ascii) : bool := is_char chr_pipe c.

(** ** Tokens *)

Fixpoint skip (d : ascii → bool) (s : str) : str :=
  match s with [] => [] | c :: s' => if d c then skip d s' else s end.
Fixpoint token (d : ascii → bool) (s : str) : str :=
  match s with [] => [] | c :: s' => if d c then [] else c :: token d s' end.
Fixpoint after_token (d : ascii → bool) (s : str) : str :=
  match s with [] => [] | c :: s' => if d c then s' else after_token d s' end.

(** [strtok]: the token and the position it saves, or [NULL]. *)
Definition strtok (d : ascii → bool) (s : str) : option (str * str) :=
  match skip d s with
  | [] => None
  | s' => Some (token d s', after_token d s')
  end.

(** The loop of [parse_command]; [args] is what is stored so far. *)
Fixpoint parse_loop (fuel : nat) (tok : option (str * str)) (args : list str) (background : Z)
    : outcome (list str * Z) :=
  match fuel with
  | O => NoFuel
  | S fuel =>
      match tok with
      | None => Done (args, background)
      | Some (t, rest) =>
          if MAX_ARGS - 1 <=? Z.of_nat (length args) then Done (args, background) else
          let next := strtok blank_nl rest in
          if decide (t = lit "&") then parse_loop fuel next args 1
          else parse_loop fuel next (args ++ [t]) background
      end
  end.

(** The part of [args] that was stored ([NULL] is [None]), the count and the
    background flag. *)
Definition parse_command (line : str) : outcome (list (option str) * Z * Z) :=
  r ← parse_loop (S (length line)) (strtok blank_nl line) [] 0;
  let '(args, background) := r in
  Done ((Some <$> args) ++ [None], Z.of_nat (length args), background).

Fixpoint count_loop (s : str) (count : Z) : outcome Z :=
  match s with
  | [] => Done count
  | c :: s =>
      if decide (c = chr_pipe) then n ← int_result (count + 1); count_loop s n
      else count_loop s count
  end.
Definition count_pipes (line : str) : outcome Z := count_loop line 0.

(** The pieces of a pipeline, as [main] splits it. *)
Definition trim (s : str) : str := skip (is_char chr_space) s.

(** The commands, and the text after the position [strtok] keeps. *)
Fixpoint split_loop (fuel : nat) (tok : option (str * str)) (commands : list str)
    : outcome (list str * str) :=
  match fuel with
  | O => NoFuel
  | S fuel =>
      match tok with
      | None => Done (commands, [])
      | Some (t, rest) =>
          if MAX_PIPES + 1 <=? Z.of_nat (length commands) then Done (commands, rest) else
          split_loop fuel (strtok bar rest) (commands ++ [trim t])
      end
  end.
Definition split_commands (line : str) : outcome (list str * str) :=
  split_loop (S (length line)) (strtok bar line) [].

(** [args] of a command of a pipeline, its terminating [NULL] left out. *)
Fixpoint piped_loop (fuel : nat) (s : str) (args : list (option str)) : outcome (list (option str)) :=
  match fuel with
  | O => NoFuel
  | S fuel =>
      if MAX_ARGS - 1 <=? Z.of_nat (length args) then Done args else
      match strtok blank s with
      | None => Done args
      | Some (t, rest) => piped_loop fuel rest (args ++ [Some t])
      end
  end.
Definition piped_args (cmd : str) : outcome (list (option str)) :=
  match strtok blank cmd with
  | None => Done [None]
  | Some (t, rest) => piped_loop (S (length rest)) rest [Some t]
  end.

(** ** Processes and descriptors *)

Inductive chan : Type :=
| Other (n : Z)                          (* what the shell was started with *)
| File (name : str) (append : bool)
| PipeRead (id : nat)
| PipeWrite (id : nat).

(** What a child executes, and its descriptors when it does. *)
Record child : Type := mkChild { argv : list str; child_fds : gmap Z chan }.

Record os : Type := mkOs {
  fds : gmap Z chan;
  pipes : nat;                           (* pipes made so far *)
  children : list (outcome child);       (* by process id *)
  waited : list nat;
  chdirs : list (option str);
}.

Definition set_fds (m : gmap Z chan) (s : os) : os :=
  mkOs m (pipes s) (children s) (waited s) (chdirs s).
Definition set_pipes (n : nat) (s : os) : os :=
  mkOs (fds s) n (children s) (waited s) (chdirs s).
Definition add_child (c : outcome child) (s : os) : os :=
  mkOs (fds s) (pipes s) (children s ++ [c]) (waited s) (chdirs s).
Definition add_waited (pid : nat) (s : os) : os :=
  mkOs (fds s) (pipes s) (children s) (waited s ++ [pid]) (chdirs s).
Definition add_chdir (d : option str) (s : os) : os :=
  mkOs (fds s) (pipes s) (children s) (waited s) (chdirs s ++ [d]).

Definition dup2 (a b : Z) (m : gmap Z chan) : gmap Z chan :=
  match m !! a with Some c => <[b := c]> m | None => m end.
Definition close_fd (a : Z) (m : gmap Z chan) : gmap Z chan := delete a m.
Definition close_pipes (ps : list (Z * Z)) (m : gmap Z chan) : gmap Z chan :=
  foldl (λ m p, close_fd p.2 (close_fd p.1 m)) m ps.

(** [execvp(args[0], args)] reads up to the first [NULL]. *)
Fixpoint exec_argv (args : list (option str)) : outcome (list str) :=
  match args with
  | [] => Fault Uninit
  | None :: _ => Done []
  | Some a :: args => l ← exec_argv args; Done (a :: l)
  end.

(** ** The array of commands, read as an array of pointers *)

(** Byte [j] of [commands], whose first rows hold the strings copied to them;
    the other bytes are what the stack held, [stack]. *)
Definition commands_byte (stack : Z → Z) (commands : list str) (j : Z) : Z :=
  let left := stack j mod 256 in
  match commands !! Z.to_nat (j / MAX_CMD_LEN) with
  | None => left
  | Some text =>
      match (text ++ [chr_nul]) !! Z.to_nat (j mod MAX_CMD_LEN) with
      | Some c => Z.of_nat (nat_of_ascii c)
      | None => left
      end
  end.

(** [k] bytes from [j] on, the least significant one first. *)
Fixpoint load_bytes (byte : Z → Z) (k : nat) (j : Z) : Z :=
  match k with O => 0 | S k => byte j + 256 * load_bytes byte k (j + 1) end.

(** [commands_array[i]]: the eight bytes at [8 * i] are an address; [None] is
    [NULL], and otherwise [string_at] says what string is there, if any. *)
Definition commands_element (stack : Z → Z) (string_at : Z → outcome str) (commands : list str)
    (i : nat) : option (outcome str) :=
  let a := load_bytes (commands_byte stack commands) 8 (8 * Z.of_nat i) in
  if a =? 0 then None else Some (string_at a).

Definition execvp (args : list (option str)) (m : gmap Z chan) : outcome child :=
  match args with
  | Some _ :: _ => l ← exec_argv args; Done (mkChild l m)
  | _ => Fault NullDeref
  end.

Section kernel.
(** The descriptor handed out next; and whether the next [pipe], the next
    [fork] and the [open] of a file succeed. *)
Context (fresh_fd : gmap Z chan → Z) (pipe_ok fork_ok : os → bool) (open_ok : str → bool).
(** The value of [HOME]. *)
Context (home : option str).
(** The bytes the stack holds where [commands] is placed, and the string at an
    address of the process, in either case when the system is in that state. *)
Context (stack : os → Z → Z) (string_at : os → Z → outcome str).

(** [pipe(pipes[i])]: [None] when it fails. *)
Definition pipe : ST os (option (Z * Z)) :=
  s ← st_get;
  if negb (pipe_ok s) then mret None else
  let r := fresh_fd (fds s) in
  let m := <[r := PipeRead (pipes s)]> (fds s) in
  let w := fresh_fd m in
  _ ← st_modify (λ s, set_pipes (S (pipes s)) (set_fds (<[w := PipeWrite (pipes s)]> m) s));
  mret (Some (r, w)).

(** The first loop of [execute_piped_commands]; [None]: the shell exits. *)
Fixpoint make_pipes (n : nat) (ps : list (Z * Z)) : ST os (option (list (Z * Z))) :=
  match n with
  | O => mret (Some ps)
  | S n =>
      if MAX_PIPES <=? Z.of_nat (length ps) then st_fault OutOfBounds else
      p ← pipe;
      match p with None => mret None | Some p => make_pipes n (ps ++ [p]) end
  end.

(** Child [i] of [n]: its input, its output, the pipes closed, its arguments.
    [strtok(NULL, ...)] goes on in [saved], the text [main]'s calls left. *)
Definition piped_child (saved : str) (cmd : option (outcome str)) (i n : nat) (ps : list (Z * Z)) (m : gmap Z chan)
    : outcome child :=
  m ← match i with
      | O => Done m
      | S i' => match ps !! i' with Some p => Done (dup2 p.1 0 m) | None => Fault OutOfBounds end
      end;
  m ← (if (i <? n - 1)%nat
       then match ps !! i with Some p => Done (dup2 p.2 1 m) | None => Fault OutOfBounds end
       else Done m);
  let m := close_pipes ps m in
  c ← default (Done saved) cmd;
  args ← piped_args c;
  execvp (args ++ [None]) m.

(** The process id, or [None]: the shell exits. *)
Definition fork (run : gmap Z chan → outcome child) : ST os (option nat) :=
  s ← st_get;
  if negb (fork_ok s) then mret None else
  _ ← st_modify (add_child (run (fds s)));
  mret (Some (length (children s))).

Fixpoint fork_children (saved : str) (cmds : list (option (outcome str))) (n i : nat) (ps : list (Z * Z)) (pids : list nat)
    : ST os (option (list nat)) :=
  match cmds with
  | [] => mret (Some pids)
  | cmd :: cmds =>
      if MAX_PIPES + 1 <=? Z.of_nat i then st_fault OutOfBounds else
      pid ← fork (piped_child saved cmd i n ps);
      match pid with
      | None => mret None
      | Some pid => fork_children saved cmds n (S i) ps (pids ++ [pid])
      end
  end.

Fixpoint wait_all (pids : list nat) : ST os unit :=
  match pids with [] => mret tt | pid :: pids => _ ← st_modify (add_waited pid); wait_all pids end.

(** [commands_array] is what reading its elements gives.  [false]: exit. *)
Definition execute_piped_commands (saved : str) (commands_array : list (option (outcome str)))
    : ST os bool :=
  let n := length commands_array in
  ps ← make_pipes (n - 1) [];
  match ps with
  | None => mret false
  | Some ps =>
      pids ← fork_children saved commands_array n 0 ps [];
      match pids with
      | None => mret false
      | Some pids =>
          _ ← st_modify (λ s, set_fds (close_pipes ps (fds s)) s);
          _ ← wait_all pids;
          mret true
      end
  end.

Definition redirect (fd target : Z) (m : gmap Z chan) : gmap Z chan :=
  if 0 <=? fd then close_fd fd (dup2 fd target m) else m.
Definition close_redir (fd : Z) (m : gmap Z chan) : gmap Z chan :=
  if 0 <=? fd then close_fd fd m else m.

Definition execute_single_command (args : list (option str)) (redir_in redir_out : Z) : ST os bool :=
  pid ← fork (λ m, execvp args (redirect redir_out 1 (redirect redir_in 0 m)));
  match pid with
  | None => mret false
  | Some pid =>
      _ ← st_modify (add_waited pid);
      _ ← st_modify (λ s, set_fds (close_redir redir_out (close_redir redir_in (fds s))) s);
      mret true
  end.

(** ** Redirection *)

Definition open_file (name : str) (append : bool) : ST os Z :=
  if negb (open_ok name) then mret (-1) else
  s ← st_get;
  let fd := fresh_fd (fds s) in
  _ ← st_modify (λ s, set_fds (<[fd := File name append]> (fds s)) s);
  mret fd.

(** [while (j + 2 < arg_count) { args[j] = args[j + 2]; j++; }] *)
Fixpoint shift_args (fuel j : nat) (count : Z) (args : list (option str)) : outcome (list (option str)) :=
  match fuel with
  | O => NoFuel
  | S fuel =>
      if Z.of_nat j + 2 <? count then
        match args !! (j + 2)%nat with
        | Some x => shift_args fuel (S j) count (<[j := x]> args)
        | None => Fault Uninit
        end
      else Done args
  end.

(** Where [redir_in] and [redir_out] point to: a variable of [main], or
    [&args[k]]. *)
Inductive out_param : Type := Local | Element (k : Z).

(** A store of an [int] through such a pointer.  Inside [args] it would replace
    half of a pointer, which is not a value of the array. *)
Definition store_int (p : out_param) : ST os unit :=
  match p with
  | Local => mret tt
  | Element k => if (0 <=? k) && (k <? MAX_ARGS) then st_fault Misuse else st_fault OutOfBounds
  end.

Definition redirection : Type := list (option str) * Z * Z.   (* args, arg_count, redir_out *)

(** The loop from index [i] on. *)
Fixpoint redirect_loop (fuel i : nat) (args : list (option str)) (count out : Z) : ST os redirection :=
  match fuel with
  | O => st_nofuel
  | S fuel =>
      if negb (Z.of_nat i <? count) then mret (args, count, out) else
      match args !! i with
      | None => st_fault Uninit
      | Some None => st_fault NullDeref
      | Some (Some a) =>
          if bool_decide (a = lit ">") || bool_decide (a = lit ">>") then
            if Z.of_nat i + 1 <? count then
              match args !! S i with
              | Some (Some name) =>
                  out ← open_file name (bool_decide (a = lit ">>"));
                  if out <? 0 then mret (args, count, out) else
                  args ← st_lift (shift_args (S (Z.to_nat count)) i count args);
                  redirect_loop fuel (S i) args (Z.of_nat i) out
              | Some None => st_fault NullDeref
              | None => st_fault Uninit
              end
            else redirect_loop fuel (S i) args count out
          else redirect_loop fuel (S i) args count out
      end
  end.

(** [redir_in] is only ever set to -1. *)
Definition extract_redirection (redir_in redir_out : out_param) (args : list (option str)) (count : Z)
    : ST os redirection :=
  _ ← store_int redir_in;
  _ ← store_int redir_out;
  redirect_loop (S (S (Z.to_nat count))) 0 args count (-1).

(** ** The loop of [main] *)

(** Up to [n - 1] characters, to the end of the line; [None] at end of file. *)
Fixpoint line_of (n : nat) (s : str) : str :=
  match n, s with
  | S n, c :: s => c :: if decide (c = chr_newline) then [] else line_of n s
  | _, _ => []
  end.
Definition fgets (n : nat) (s : str) : option (str * str) :=
  match s with
  | [] => None
  | _ => let l := line_of (n - 1) s in Some (l, drop (length l) s)
  end.

(** [line[strcspn(line, "\n")] = 0], as a C string. *)
Definition strip_newline (s : str) : str :=
  token (λ c, is_char chr_newline c || is_char chr_nul c) s.

Inductive status : Type := Next | Break | Exited.

Definition status_of (b : bool) : status := if b then Next else Exited.

Definition run_external (line : str) (args : list (option str)) (arg_count : Z) : ST os status :=
  n ← st_lift (count_pipes line);
  if 0 <? n then
    r ← st_lift (split_commands line);
    let '(commands, saved) := r in
    s ← st_get;
    b ← execute_piped_commands saved
          (commands_element (stack s) (string_at s) commands <$> seq 0 (length commands));
    mret (status_of b)
  else
    r ← extract_redirection (Element (-1)) (Element (-2)) args arg_count;
    let '(args, arg_count, _) := r in
    r ← extract_redirection Local Local args arg_count;
    let '(args, arg_count, redir_out) := r in
    b ← execute_single_command args (-1) redir_out;
    mret (status_of b).

(** One turn, from the line [fgets] stored. *)
Definition run_line (input : str) : ST os status :=
  let line := strip_newline input in
  if decide (line = []) then mret Next else
  r ← st_lift (parse_command line);
  let '(args, arg_count, _) := r in
  match args with
  | Some cmd :: rest =>
      if decide (cmd = lit "exit") then mret Break else
      if decide (cmd = lit "cd") then
        _ ← st_modify (add_chdir (if 1 <? arg_count then default None (rest !! O) else home));
        mret Next
      else if decide (cmd = lit "help") then mret Next else
      run_external line args arg_count
  | _ => mret Next
  end.

Fixpoint main_loop (fuel : nat) (input : str) : ST os status :=
  match fuel with
  | O => st_nofuel
  | S fuel =>
      match fgets (Z.to_nat MAX_CMD_LEN) input with
      | None => mret Break
      | Some (line, rest) =>
          r ← run_line line;
          match r with Next => main_loop fuel rest | _ => mret r end
      end
  end.

End kernel.
End Shell.
