(* ===== verification/ShellTheorems.v ===== *)
(** The properties of the mini shell: the tokenizer against a reference
    splitting function, the wiring of a pipeline, what redirection does to the
    arguments, and what becomes of external commands. *)
From Stdlib Require Import Ascii.
From stdpp Require Import strings.
From S2P Require Import Prelude Shell.
Import Shell.

#[global] Arguments MAX_ARGS : simpl never.
#[global] Arguments MAX_PIPES : simpl never.
#[global] Arguments lit : simpl never.

(** ** Words *)

(** All pieces between delimiters, and the nonempty ones. *)
Fixpoint pieces (d : ascii → bool) (s : str) : list str :=
  match s with
  | [] => [[]]
  | c :: s =>
      if d c then [] :: pieces d s else
      match pieces d s with [] => [[c]] | t :: ts => (c :: t) :: ts end
  end.
Definition words (d : ascii → bool) (s : str) : list str := filter (λ w, w ≠ []) (pieces d s).

Lemma pieces_token d s : ∃ ts, pieces d s = token d s :: ts.
Proof.
  induction s as [|c s [ts IH]]; simpl; [eauto|]. destruct (d c); [eauto|]. rewrite IH. eauto.
Qed.

Lemma pieces_after d s : filter (λ w, w ≠ []) (tail (pieces d s)) = words d (after_token d s).
Proof.
  induction s as [|c s IH]; simpl; [done|]. destruct (d c); [done|].
  destruct (pieces_token d s) as [ts E]. rewrite E in *. done.
Qed.

Lemma words_cons d c s :
  words d (c :: s) = if d c then words d s else token d (c :: s) :: words d (after_token d (c :: s)).
Proof.
  destruct (d c) eqn:Hc; [unfold words; simpl; by rewrite Hc|].
  rewrite <- pieces_after. unfold words. simpl. rewrite Hc.
  destruct (pieces_token d s) as [ts ->]. by rewrite filter_cons_True.
Qed.

(** [strtok] takes the words one by one. *)
Lemma strtok_words d s :
  words d s = match strtok d s with None => [] | Some (t, rest) => t :: words d rest end.
Proof.
  unfold strtok. induction s as [|c s IH]; [done|]. rewrite words_cons. simpl skip.
  by destruct (d c).
Qed.

Lemma after_token_length d s : (length (after_token d s) ≤ length s)%nat.
Proof. induction s as [|c s IH]; simpl; [done|]. destruct (d c); lia. Qed.

Lemma strtok_length d s t rest : strtok d s = Some (t, rest) → (length rest < length s)%nat.
Proof.
  unfold strtok. induction s as [|c s IH]; simpl; [done|]. destruct (d c) eqn:Hc.
  - intros H%IH. lia.
  - intros ?. simplify_eq/=. rewrite Hc. pose proof (after_token_length d s). lia.
Qed.

(** ** Parsing a command *)

Definition is_amp (w : str) : Prop := w = lit "&".

Lemma parse_loop_spec fuel : ∀ s args bg,
  (length s < fuel)%nat → (length args ≤ 63)%nat →
  let ws := words blank_nl s in
  let kept := filter (λ w, ¬ is_amp w) ws in
  ∃ bg', parse_loop fuel (strtok blank_nl s) args bg = Done (args ++ take (63 - length args) kept, bg') ∧
    ((length args + length kept < 63)%nat → bg' = if decide (lit "&" ∈ ws) then 1 else bg).
Proof.
  induction fuel as [|fuel IH]; intros s args bg Hf Hargs; [lia|]. cbn zeta.
  rewrite (strtok_words blank_nl s). simpl. destruct (strtok blank_nl s) as [[t rest]|] eqn:E.
  2: { exists bg. rewrite filter_nil, take_nil, app_nil_r. split; [done|].
       intros _. by rewrite decide_False by apply not_elem_of_nil. }
  pose proof (strtok_length _ _ _ _ E).
  destruct (Z.leb_spec (MAX_ARGS - 1) (Z.of_nat (length args))) as [Hge|Hlt]; unfold MAX_ARGS in *.
  { exists bg. replace (63 - length args)%nat with 0%nat by lia. simpl. rewrite app_nil_r.
    split; [done|lia]. }
  destruct (decide (t = lit "&")) as [->|Ht].
  - rewrite filter_cons_False by (unfold is_amp; naive_solver).
    destruct (IH rest args 1 ltac:(lia) Hargs) as (bg' & -> & Hbg). exists bg'. split; [done|].
    intros Hk. rewrite Hbg by done. rewrite (decide_True _ _ (list_elem_of_here _ _)). by case_decide.
  - rewrite filter_cons_True by done.
    destruct (IH rest (args ++ [t]) bg ltac:(lia) ltac:(rewrite length_app; simpl; lia))
      as (bg' & -> & Hbg).
    rewrite length_app in *. exists bg'. split.
    + rewrite <- app_assoc. simpl length. do 2 f_equal.
      replace (63 - length args)%nat with (S (63 - (length args + 1))) by lia. done.
    + simpl. intros Hk. rewrite Hbg by (simpl; lia). 
      rewrite (decide_ext (lit "&" ∈ words blank_nl rest) (lit "&" ∈ t :: words blank_nl rest)); [done|].
      rewrite elem_of_cons. naive_solver.
Qed.

(** C24. [parse_command] terminates and stores the words of the line other than
    "&", the first 63 of them, then [NULL], and returns their number; with
    fewer than 63 the background flag says whether "&" is one of the words. *)
Theorem parse_command_spec line :
  let ws := words blank_nl line in
  let kept := filter (λ w, ¬ is_amp w) ws in
  let args := take 63 kept in
  ∃ bg, parse_command line = Done ((Some <$> args) ++ [None], Z.of_nat (length args), bg) ∧
    ((length kept < 63)%nat → bg = if decide (lit "&" ∈ ws) then 1 else 0).
Proof.
  cbn zeta. destruct (parse_loop_spec (S (length line)) line [] 0) as (bg & E & Hbg);
    [lia|simpl; lia|]. exists bg. unfold parse_command. rewrite E. split; [done|]. apply Hbg.
Qed.

(** ** Splitting a pipeline *)

Lemma split_loop_spec fuel : ∀ s cs,
  (length s < fuel)%nat → (length cs ≤ 11)%nat →
  ∃ saved, split_loop fuel (strtok bar s) cs =
      Done (cs ++ take (11 - length cs) (trim <$> words bar s), saved) ∧
    words bar saved = drop (12 - length cs) (words bar s) ∧
    ((length cs + length (words bar s) ≤ 11)%nat → saved = []).
Proof.
  induction fuel as [|fuel IH]; intros s cs Hf Hcs; [lia|].
  rewrite (strtok_words bar s). simpl. destruct (strtok bar s) as [[t rest]|] eqn:E.
  2: { exists []. simpl. by rewrite take_nil, drop_nil, app_nil_r. }
  pose proof (strtok_length _ _ _ _ E).
  destruct (Z.leb_spec (MAX_PIPES + 1) (Z.of_nat (length cs))) as [Hge|Hlt]; unfold MAX_PIPES in *.
  { exists rest. replace (11 - length cs)%nat with 0%nat by lia. rewrite app_nil_r.
    replace (12 - length cs)%nat with 1%nat by lia. split_and!; [done..|]. simpl. lia. }
  destruct (IH rest (cs ++ [trim t])) as (saved & E1 & E2 & E3); [lia|rewrite length_app; simpl; lia|].
  rewrite length_app in *. simpl in *. exists saved. rewrite E1, E2, <- app_assoc. simpl.
  replace (11 - length cs)%nat with (S (11 - (length cs + 1))) by lia.
  replace (12 - length cs)%nat with (S (12 - (length cs + 1))) by lia.
  split_and!; [done..|]. intros ?. apply E3. lia.
Qed.

Lemma count_loop_spec s : ∀ n, 0 ≤ n → n + Z.of_nat (length s) ≤ int_max →
  count_loop s n = Done (n + Z.of_nat (length (filter (λ c, c = chr_pipe) s))).
Proof.
  induction s as [|c s IH]; intros n Hn Hm; simpl in *; [by rewrite Z.add_0_r|].
  destruct (decide (c = chr_pipe)) as [->|Hc].
  - rewrite filter_cons_True by done. unfold int_result, mbind, outcome_bind.
    rewrite bool_decide_true by (unfold is_int, int_min, int_max in *; lia).
    rewrite IH by lia. f_equal. simpl. lia.
  - rewrite filter_cons_False by done. apply IH; lia.
Qed.

Lemma words_nil d s : Forall (λ c, d c = true) s → words d s = [].
Proof. induction 1 as [|c s Hc Hs IH]; [done|]. by rewrite words_cons, Hc. Qed.

(** Text without delimiters. *)
Definition plain (d : ascii → bool) (w : str) : Prop := Forall (λ c, d c = false) w.

Lemma token_plain d w s : plain d w → token d (w ++ s) = w ++ token d s.
Proof. induction 1 as [|c w Hc Hw IH]; simpl; [done|]. by rewrite Hc, IH. Qed.
Lemma after_plain d w s : plain d w → after_token d (w ++ s) = after_token d s.
Proof. induction 1 as [|c w Hc Hw IH]; simpl; [done|]. by rewrite Hc, IH. Qed.

Lemma words_plain d w s : plain d w → w ≠ [] →
  words d (w ++ s) = (w ++ token d s) :: words d (after_token d s).
Proof.
  intros Hw Hne. rewrite <- token_plain, <- (after_plain d w s) by done.
  destruct w as [|c w]; [done|]. simpl app. rewrite words_cons.
  by rewrite (Forall_inv Hw).
Qed.

(** Words with the delimiter [c] between them. *)
Fixpoint join (c : ascii) (ws : list str) : str :=
  match ws with [] => [] | [w] => w | w :: ws => w ++ c :: join c ws end.

Lemma words_join d c ws :
  d c = true → Forall (λ w, plain d w ∧ w ≠ []) ws → words d (join c ws) = ws.
Proof.
  intros Hc. induction 1 as [|w ws [Hp Hne] Hws IH]; [done|]. destruct ws as [|w' ws].
  - simpl. rewrite <- (app_nil_r w) at 1. rewrite words_plain by done. simpl. by rewrite app_nil_r.
  - change (join c (w :: w' :: ws)) with (w ++ c :: join c (w' :: ws)).
    rewrite words_plain by done. cbn [token after_token]. rewrite Hc, app_nil_r. by rewrite IH.
Qed.

(** Splitting a line at its bars gives the pieces between them without
    leading spaces, empty pieces left out and only the first eleven kept, and
    leaves [strtok] after the twelfth; a line of at most eleven pieces, joined
    by bars, is split into them again. *)
Theorem split_commands_spec line :
  (length line < 1024)%nat →
  (∃ saved, split_commands line = Done (take 11 (trim <$> words bar line), saved) ∧
    words bar saved = drop 12 (words bar line)) ∧
  count_pipes line = Done (Z.of_nat (length (filter (λ c, c = chr_pipe) line))) ∧
  ∀ cs, line = join chr_pipe cs → (length cs ≤ 11)%nat → Forall (λ c, plain bar c ∧ c ≠ []) cs →
    take 11 (trim <$> words bar line) = trim <$> cs.
Proof.
  intros Hlen. split_and!.
  - destruct (split_loop_spec (S (length line)) line []) as (saved & E & Hs & _); [lia|simpl; lia|].
    exists saved. by split.
  - unfold count_pipes. rewrite count_loop_spec; [done|lia|unfold int_max; lia].
  - intros cs -> Hcs Hp. rewrite words_join by done. by rewrite take_ge by (rewrite length_fmap; lia).
Qed.

Lemma split_commands_spec_witness :
  (∃ saved, split_commands (lit "ls -l | wc") = Done ([lit "ls -l "; lit "wc"], saved) ∧
    words bar saved = []) ∧
  count_pipes (lit "ls -l | wc") = Done 1 ∧
  ∀ cs, lit "ls -l | wc" = join chr_pipe cs → (length cs ≤ 11)%nat →
    Forall (λ c, plain bar c ∧ c ≠ []) cs → [lit "ls -l "; lit "wc"] = trim <$> cs.
Proof. apply (split_commands_spec (lit "ls -l | wc")). simpl. lia. Defined.

(** ** Pipelines *)

Lemma piped_loop_spec fuel : ∀ s args,
  (length s < fuel)%nat → (length args ≤ 63)%nat →
  piped_loop fuel s args = Done (args ++ (Some <$> take (63 - length args) (words blank s))).
Proof.
  induction fuel as [|fuel IH]; intros s args Hf Hargs; [lia|]. cbn [piped_loop].
  destruct (Z.leb_spec (MAX_ARGS - 1) (Z.of_nat (length args))) as [Hge|Hlt]; unfold MAX_ARGS in *.
  { replace (63 - length args)%nat with 0%nat by lia. simpl. by rewrite app_nil_r. }
  rewrite (strtok_words blank s). destruct (strtok blank s) as [[t rest]|] eqn:E.
  2: { rewrite take_nil. simpl. by rewrite app_nil_r. }
  pose proof (strtok_length _ _ _ _ E). rewrite IH; [|lia|rewrite length_app; simpl; lia].
  rewrite length_app, <- app_assoc. simpl length.
  replace (63 - length args)%nat with (S (63 - (length args + 1))) by lia. done.
Qed.

Lemma piped_args_spec cmd :
  words blank cmd ≠ [] → piped_args cmd = Done (Some <$> take 63 (words blank cmd)).
Proof.
  unfold piped_args. rewrite (strtok_words blank cmd).
  destruct (strtok blank cmd) as [[t rest]|]; [|done]. intros _.
  rewrite piped_loop_spec by (simpl; lia). done.
Qed.

Lemma execvp_words w ws m : execvp ((Some <$> (w :: ws)) ++ [None]) m = Done (mkChild (w :: ws) m).
Proof.
  assert (E : ∀ l, exec_argv ((Some <$> l) ++ [None]) = Done l).
  { induction l as [|x l IH]; [done|].
    change (exec_argv ((Some <$> (x :: l)) ++ [None])) with
      (r ← exec_argv ((Some <$> l) ++ [None]); Done (x :: r)). by rewrite IH. }
  change (execvp ((Some <$> (w :: ws)) ++ [None]) m) with
    (l ← exec_argv ((Some <$> (w :: ws)) ++ [None]); Done (mkChild l m)).
  by rewrite E.
Qed.

(** The descriptors of pipes [ps], the first of which is number [base], in the
    table [m], which is [m0] otherwise. *)
Record made (base : nat) (m0 m : gmap Z chan) (ps : list (Z * Z)) : Prop := {
  md_in : ∀ j p, ps !! j = Some p →
    m !! p.1 = Some (PipeRead (base + j)) ∧ m !! p.2 = Some (PipeWrite (base + j)) ∧
    m0 !! p.1 = None ∧ m0 !! p.2 = None;
  md_out : ∀ k, (∀ p, p ∈ ps → k ≠ p.1 ∧ k ≠ p.2) → m !! k = m0 !! k;
}.

Definition end_of (k : Z) (p : Z * Z) : Prop := k = p.1 ∨ k = p.2.

Lemma close_pipes_lookup ps : ∀ m k,
  close_pipes ps m !! k = if decide (Exists (end_of k) ps) then None else m !! k.
Proof.
  induction ps as [|p ps IH]; intros m k; [by rewrite decide_False by by intros ?%Exists_nil|].
  change (close_pipes (p :: ps) m) with (close_pipes ps (close_fd p.2 (close_fd p.1 m))).
  rewrite IH. unfold close_fd. destruct (decide (Exists (end_of k) ps)) as [He|He].
  - by rewrite decide_True by (by apply Exists_cons_tl).
  - destruct (decide (end_of k p)) as [Hk|Hk].
    + rewrite decide_True by (by apply Exists_cons_hd).
      destruct Hk as [-> | ->]; [|by rewrite lookup_delete_eq].
      destruct (decide (p.1 = p.2)) as [->|]; [by rewrite lookup_delete_eq|].
      by rewrite lookup_delete_ne, lookup_delete_eq by done.
    + rewrite decide_False by (rewrite Exists_cons; tauto).
      unfold end_of in Hk. rewrite !lookup_delete_ne by naive_solver. done.
Qed.

Lemma made_not_end base m0 m ps k :
  made base m0 m ps → is_Some (m0 !! k) → ¬ Exists (end_of k) ps.
Proof.
  intros Hm [c Hc] (p & Hp & Hk)%Exists_exists.
  apply list_elem_of_lookup in Hp as [j Hj]. destruct (md_in _ _ _ _ Hm j p Hj) as (_ & _ & H1 & H2).
  destruct Hk as [-> | ->]; congruence.
Qed.

Lemma made_at base m0 m ps k :
  made base m0 m ps → m0 !! k = if decide (Exists (end_of k) ps) then None else m !! k.
Proof.
  intros Hm. destruct (decide (Exists (end_of k) ps)) as [He|He].
  - apply Exists_exists in He as (p & Hp & Hk). apply list_elem_of_lookup in Hp as [j Hj].
    destruct (md_in _ _ _ _ Hm j p Hj) as (_ & _ & H1 & H2). by destruct Hk as [-> | ->].
  - symmetry. apply (md_out _ _ _ _ Hm). intros p Hp. rewrite Exists_exists in He.
    unfold end_of in He. naive_solver.
Qed.

(** Closing all ends gives the table before the pipes. *)
Lemma close_made base m0 m ps : made base m0 m ps → close_pipes ps m = m0.
Proof.
  intros Hm. apply map_eq. intros k. rewrite close_pipes_lookup. symmetry. by eapply made_at.
Qed.

Lemma close_pipes_insert m ps k c :
  ¬ Exists (end_of k) ps → close_pipes ps (<[k := c]> m) = <[k := c]> (close_pipes ps m).
Proof.
  intros Hk. apply map_eq. intros k'. rewrite close_pipes_lookup. destruct (decide (k' = k)) as [->|Hne].
  - rewrite decide_False by done. by rewrite !lookup_insert_eq.
  - rewrite !lookup_insert_ne by done. by rewrite close_pipes_lookup.
Qed.

(** The descriptors of command [i] of [n]: the reading end of the pipe before
    it as its input, the writing end of the next one as its output, and
    otherwise those of the shell. *)
Definition wired (base n i : nat) (m : gmap Z chan) : gmap Z chan :=
  let m := match i with O => m | S j => <[0 := PipeRead (base + j)]> m end in
  if (i <? n - 1)%nat then <[1 := PipeWrite (base + i)]> m else m.

Lemma piped_child_spec base m0 m ps saved cmd i n :
  made base m0 m ps → length ps = (n - 1)%nat → (i < n)%nat →
  is_Some (m0 !! 0) → is_Some (m0 !! 1) → words blank cmd ≠ [] →
  piped_child saved (Some (Done cmd)) i n ps m = Done (mkChild (take 63 (words blank cmd)) (wired base n i m0)).
Proof.
  intros Hm Hl Hi H0 H1 Hw. unfold piped_child.
  set (m1 := match i with O => m | S j => <[0 := PipeRead (base + j)]> m end).
  assert (E1 : match i with
      | O => Done m
      | S i' => match ps !! i' with Some p => Done (dup2 p.1 0 m) | None => Fault OutOfBounds end
      end = Done m1).
  { unfold m1. destruct i as [|j]; [done|]. destruct (lookup_lt_is_Some_2 ps j ltac:(lia)) as [p Ej].
    rewrite Ej. unfold dup2. by destruct (md_in _ _ _ _ Hm j p Ej) as (-> & _). }
  rewrite E1. unfold mbind, outcome_bind.
  set (m2 := if (i <? n - 1)%nat then <[1 := PipeWrite (base + i)]> m1 else m1).
  assert (E2 : (if (i <? n - 1)%nat
      then match ps !! i with Some p => Done (dup2 p.2 1 m1) | None => Fault OutOfBounds end
      else Done m1) = Done m2).
  { unfold m2. destruct (Nat.ltb_spec i (n - 1)) as [Hlt|]; [|done].
    destruct (lookup_lt_is_Some_2 ps i ltac:(lia)) as [p Ei]. rewrite Ei. f_equal. unfold dup2.
    destruct (md_in _ _ _ _ Hm i p Ei) as (_ & Hp & _ & Hp0). destruct H0 as [c0 H0].
    assert (m1 !! p.2 = Some (PipeWrite (base + i))) as ->; [|done].
    unfold m1. destruct i as [|j]; [done|]. rewrite lookup_insert_ne by congruence. done. }
  rewrite E2. cbv beta iota zeta delta [from_option id]. rewrite (piped_args_spec cmd Hw).
  assert (close_pipes ps m2 = wired base n i m0) as ->.
  { unfold m2, wired, m1. rewrite <- (close_made _ _ _ _ Hm).
    pose proof (made_not_end _ _ _ _ _ Hm H0). pose proof (made_not_end _ _ _ _ _ Hm H1).
    destruct (i <? n - 1)%nat, i as [|j]; by rewrite ?close_pipes_insert by done. }
  destruct (words blank cmd) as [|w ws]; [done|]. simpl take. apply execvp_words.
Qed.

Section running.
Context (fresh_fd : gmap Z chan → Z) (pipe_ok fork_ok : os → bool).
Context (fresh_fd_unused : ∀ m, m !! fresh_fd m = None).
Context (pipes_work : ∀ s, pipe_ok s = true) (forks_work : ∀ s, fork_ok s = true).

Lemma made_snoc base m0 m ps :
  made base m0 m ps →
  let r := fresh_fd m in
  let m1 := <[r := PipeRead (base + length ps)]> m in
  let w := fresh_fd m1 in
  made base m0 (<[w := PipeWrite (base + length ps)]> m1) (ps ++ [(r, w)]).
Proof.
  intros Hm r m1 w. pose proof (fresh_fd_unused m) as Hr. pose proof (fresh_fd_unused m1) as Hw.
  fold r in Hr. fold w in Hw.
  assert (Hrw : r ≠ w) by (intros Heq; rewrite <- Heq in Hw; unfold m1 in Hw; by rewrite lookup_insert_eq in Hw).
  assert (Hw' : m !! w = None) by (unfold m1 in Hw; by rewrite lookup_insert_ne in Hw).
  assert (Hun : ∀ k, m !! k = None → m0 !! k = None).
  { intros k Hk. rewrite (made_at _ _ _ _ k Hm). by case_decide. }
  split.
  - intros j p Hj. destruct (decide (j = length ps)) as [->|Hne].
    + rewrite list_lookup_middle in Hj by done. simplify_eq. simpl.
      rewrite lookup_insert_ne by done. unfold m1. rewrite !lookup_insert_eq. auto.
    + assert (j < length ps)%nat by (apply lookup_lt_Some in Hj; rewrite length_app in Hj; simpl in Hj; lia).
      rewrite lookup_app_l in Hj by done. destruct (md_in _ _ _ _ Hm j p Hj) as (H1 & H2 & H3 & H4).
      unfold m1. rewrite !lookup_insert_ne by congruence. done.
  - intros k Hk. destruct (Hk (r, w)) as [Hkr Hkw]; [apply elem_of_middle|]. simpl in *.
    unfold m1. rewrite !lookup_insert_ne by done. apply (md_out _ _ _ _ Hm).
    intros p Hp. apply Hk. apply elem_of_app. by left.
Qed.

Lemma make_pipes_spec base m0 n : ∀ ps s,
  made base m0 (fds s) ps → pipes s = (base + length ps)%nat → (length ps + n ≤ 10)%nat →
  wp (make_pipes fresh_fd pipe_ok n ps) (λ r s', ∃ ps', r = Some ps' ∧
    length ps' = (length ps + n)%nat ∧ made base m0 (fds s') ps' ∧
    children s' = children s ∧ waited s' = waited s) s.
Proof.
  induction n as [|n IH]; intros ps s Hm Hp Hn; simpl.
  { apply wp_ret. exists ps. rewrite Nat.add_0_r. done. }
  unfold MAX_PIPES. cmp_step. apply wp_bind. unfold pipe.
  apply wp_bind, wp_get. rewrite pipes_work. apply wp_bind, wp_modify, wp_ret. rewrite Hp.
  eapply wp_mono; [apply IH|].
  - simpl. by apply made_snoc.
  - simpl. rewrite length_app. simpl. lia.
  - rewrite length_app. simpl. lia.
  - simpl. intros r s' (ps' & -> & Hl & Hm' & Hc & Hw). exists ps'.
    rewrite length_app in Hl. simpl in Hl. split_and!; [done|lia|done..].
Qed.

Lemma fork_children_spec saved n ps cmds : ∀ i pids s,
  (i + length cmds ≤ 11)%nat →
  wp (fork_children fork_ok saved cmds n i ps pids) (λ r s',
    r = Some (pids ++ seq (length (children s)) (length cmds)) ∧
    fds s' = fds s ∧ waited s' = waited s ∧
    children s' = children s ++ imap (λ j c, piped_child saved c (i + j) n ps (fds s)) cmds) s.
Proof.
  induction cmds as [|c cmds IH]; intros i pids s Hi; simpl in *.
  { apply wp_ret. by rewrite !app_nil_r. }
  unfold MAX_PIPES. cmp_step.
  apply wp_bind. unfold fork. apply wp_bind, wp_get. rewrite forks_work.
  apply wp_bind, wp_modify, wp_ret.
  eapply wp_mono; [apply IH; lia|]. simpl.
  intros r s' (-> & Hfds & Hwt & Hch). rewrite length_app in *. simpl in *.
  rewrite <- app_assoc, Nat.add_1_r. split_and!; [done..|].
  rewrite Hch, <- app_assoc, Nat.add_0_r. simpl. do 2 f_equal. apply imap_ext.
  intros j x _. simpl. by rewrite Nat.add_succ_r.
Qed.

Lemma wait_all_spec pids : ∀ s,
  wp (wait_all pids) (λ _ s', waited s' = waited s ++ pids ∧ fds s' = fds s ∧ children s' = children s) s.
Proof.
  induction pids as [|p pids IH]; intros s; simpl; [apply wp_ret; by rewrite app_nil_r|].
  apply wp_bind, wp_modify. eapply wp_mono; [apply IH|]. simpl.
  intros _ s' (-> & -> & ->). by rewrite <- app_assoc.
Qed.

(** A pipeline of up to eleven commands, whatever they are read from: the pipes
    between them are made, child [i] runs with all of them open, and the
    shell closes them and waits for every child. *)
Lemma execute_piped_spec saved arr s :
  (length arr ≤ 11)%nat →
  wp (execute_piped_commands fresh_fd pipe_ok fork_ok saved arr) (λ b s',
    b = true ∧ fds s' = fds s ∧
    waited s' = waited s ++ seq (length (children s)) (length arr) ∧
    ∃ ps m, made (pipes s) (fds s) m ps ∧ length ps = (length arr - 1)%nat ∧
      children s' = children s ++ imap (λ i c, piped_child saved c i (length arr) ps m) arr) s.
Proof.
  intros Hn. unfold execute_piped_commands.
  apply wp_bind. eapply wp_mono; [apply (make_pipes_spec (pipes s) (fds s) _ [])|].
  - split; [intros j p; by rewrite lookup_nil|done].
  - simpl. lia.
  - simpl. lia.
  - intros r s1 (ps & -> & Hl & Hm & Hc1 & Hw1). apply wp_bind.
    eapply wp_mono; [apply (fork_children_spec saved (length arr) ps arr 0 []); simpl; lia|].
    simpl. intros r s2 (-> & Hf2 & Hw2 & Hc2). apply wp_bind, wp_modify, wp_bind.
    eapply wp_mono; [apply wait_all_spec|]. simpl. intros _ s3 (Hw3 & Hf3 & Hc3). apply wp_ret.
    rewrite Hf3, Hw3, Hf2, Hw2, Hc1, Hw1. split_and!; [done|by eapply close_made|done|].
    exists ps, (fds s1). by rewrite Hc3, Hc2, Hc1.
Qed.

End running.


(** A kernel that hands out an unused descriptor, and a shell started with the
    three standard ones. *)
Definition next_fd (m : gmap Z chan) : Z := map_fold (λ k _ n, Z.max n (k + 1)) 3 m.

Lemma next_fd_above m : 3 ≤ next_fd m ∧ ∀ k, is_Some (m !! k) → k < next_fd m.
Proof.
  unfold next_fd. induction m as [|k c m Hk IH] using map_ind.
  - rewrite map_fold_empty. split; [lia|]. intros k [c Hc]. by rewrite lookup_empty in Hc.
  - rewrite (map_fold_insert_L (λ k _ n, Z.max n (k + 1))) by (done || intros; lia).
    destruct IH as [IH1 IH2]. split; [lia|]. intros k' Hk'. destruct (decide (k' = k)) as [->|]; [lia|].
    rewrite lookup_insert_ne in Hk' by done. specialize (IH2 k' Hk'). lia.
Qed.

Lemma next_fd_unused m : m !! next_fd m = None.
Proof.
  destruct (m !! next_fd m) as [c|] eqn:E; [|done].
  pose proof (proj2 (next_fd_above m) (next_fd m) (ltac:(by eexists))). lia.
Qed.

Definition std_fds : gmap Z chan := <[0 := Other 0]> (<[1 := Other 1]> {[2 := Other 2]}).
Definition fresh_os : os := mkOs std_fds 0 [] [] [].


(** ** Redirection *)

Definition is_redirect (w : str) : bool := bool_decide (w = lit ">") || bool_decide (w = lit ">>").

Lemma shift_args_spec l2 : ∀ fuel l1 (a b : option str) tl,
  (length l2 < fuel)%nat →
  shift_args fuel (length l1) (Z.of_nat (length l1 + 2 + length l2)) (l1 ++ a :: b :: l2 ++ tl) =
  Done (l1 ++ l2 ++ drop (length l2) (a :: b :: l2) ++ tl).
Proof.
  induction l2 as [|c l2 IH]; intros fuel l1 a b tl Hf; (destruct fuel as [|fuel]; [simpl in Hf; lia|]);
    cbn [shift_args length].
  - cmp_step. done.
  - cmp_step.
    replace ((l1 ++ a :: b :: (c :: l2) ++ tl) !! (length l1 + 2)%nat) with (Some c)
      by (rewrite lookup_app_r by lia; by replace (length l1 + 2 - length l1)%nat with 2%nat by lia).
    rewrite insert_app_r_alt by lia. rewrite Nat.sub_diag. simpl.
    pose proof (IH fuel (l1 ++ [c]) b c tl ltac:(simpl in Hf; lia)) as H.
    rewrite length_app, Nat.add_1_r in H. simpl in H. rewrite <- !app_assoc in H. simpl in H.
    rewrite <- H. f_equal. lia.
Qed.

Section redirecting.
#[local] Arguments shift_args : simpl never.
Context (fresh_fd : gmap Z chan → Z) (open_ok : str → bool).

Local Abbreviation redirect_loop := (redirect_loop fresh_fd open_ok).

(** Words before the operator are passed over. *)
Lemma redirect_skip ws1 : ∀ fuel l args count out s,
  Forall (λ w, is_redirect w = false) ws1 → args = l ++ (Some <$> ws1) ++ drop (length l + length ws1) args →
  Z.of_nat (length l + length ws1) ≤ count →
  redirect_loop (length ws1 + fuel) (length l) args count out s =
  redirect_loop fuel (length l + length ws1) args count out s.
Proof.
  induction ws1 as [|w ws1 IH]; intros fuel l args count out s Hws Hargs Hc.
  { simpl. by rewrite Nat.add_0_r. }
  inversion_clear Hws as [|? ? Hw Hws1]. cbn [length Nat.add Shell.redirect_loop] in *.
  cmp_step. simpl negb.
  assert (args !! length l = Some (Some w)) as ->.
  { rewrite Hargs. rewrite lookup_app_r, Nat.sub_diag by lia. done. }
  unfold is_redirect in Hw. rewrite Hw.
  pose proof (IH fuel (l ++ [Some w]) args count out s Hws1) as H.
  rewrite length_app in H. simpl in H. rewrite Nat.add_1_r in H.
  replace (length l + S (length ws1))%nat with (S (length l + length ws1)) in * by lia.
  apply H; [|lia]. rewrite <- app_assoc. done.
Qed.

(** C25. What [extract_redirection] does to the words of a command: without an
    operator, with nothing after it, or when the file does not open, it leaves
    them alone; otherwise the file is opened, the words after its name move
    two places down, and the last two places keep what they held, so that
    [execvp] reads as many words as before. *)
Theorem extract_redirection_spec ws1 rest s :
  (∀ m, 0 ≤ fresh_fd m) → Forall (λ w, is_redirect w = false) ws1 →
  match rest with [] => True | op :: _ => is_redirect op = true end →
  let args := (Some <$> (ws1 ++ rest)) ++ [None] in
  let count := Z.of_nat (length (ws1 ++ rest)) in
  extract_redirection fresh_fd open_ok Local Local args count s =
  match rest with
  | op :: name :: ws2 =>
      if open_ok name then
        Done ((Some <$> (ws1 ++ ws2 ++ drop (length ws2) rest)) ++ [None], Z.of_nat (length ws1),
          fresh_fd (fds s),
          set_fds (<[fresh_fd (fds s) := File name (bool_decide (op = lit ">>"))]> (fds s)) s)
      else Done (args, count, -1, s)
  | _ => Done (args, count, -1, s)
  end.
Proof.
  intros Hfd Hws Hop args count. change (extract_redirection fresh_fd open_ok Local Local args count s)
    with (redirect_loop (S (S (Z.to_nat count))) 0 args count (-1) s).
  set (n := (length ws1 + length rest)%nat).
  assert (Hcount : count = Z.of_nat n) by (unfold count, n; by rewrite length_app).
  replace (S (S (Z.to_nat count))) with (length ws1 + S (S (length rest)))%nat by lia.
  rewrite (redirect_skip ws1 _ [] args count (-1) s Hws); simpl length; [|unfold args|lia].
  2: { simpl. rewrite fmap_app, <- app_assoc, drop_app_length' by (by rewrite length_fmap). done. }
  assert (Hat : ∀ k, args !! (length ws1 + k)%nat = ((Some <$> rest) ++ [None]) !! k).
  { intros k. unfold args. rewrite fmap_app, <- app_assoc, lookup_app_r by (rewrite length_fmap; lia).
    rewrite length_fmap. f_equal. lia. }
  pose proof (Hat 0%nat) as H0. pose proof (Hat 1%nat) as H1. rewrite Nat.add_0_r in H0.
  rewrite Nat.add_0_l. rewrite Nat.add_1_r in H1. unfold is_redirect in Hop.
  destruct rest as [|op [|name ws2]]; cbn [Shell.redirect_loop length fmap list_fmap app] in *.
  - cmp_step. done.
  - cmp_step. simpl negb. rewrite H0. simpl. rewrite Hop.
    rewrite !(proj2 (Z.ltb_ge _ count)) by lia. done.
  - rewrite (proj2 (Z.ltb_lt (Z.of_nat (length ws1)) count)) by lia. simpl negb. rewrite H0, H1. simpl.
    rewrite Hop, (proj2 (Z.ltb_lt (Z.of_nat (length ws1) + 1) count)) by lia.
    unfold mbind, st_bind, open_file. destruct (open_ok name); simpl; [|done].
    specialize (Hfd (fds s)). unfold st_get, st_modify, st_lift. simpl.
    cmp_step.
    unfold args. rewrite fmap_app, <- app_assoc. simpl. rewrite <- (length_fmap Some ws1) at 1.
    pose proof (shift_args_spec (Some <$> ws2) (S (Z.to_nat count)) (Some <$> ws1) (Some op)
      (Some name) [None]) as Hsh. rewrite !length_fmap in Hsh.
    replace (Z.of_nat (length ws1 + 2 + length ws2)) with count in Hsh by lia. simpl in Hsh.
    rewrite length_fmap. simpl. change (list_fmap str (option str) Some ws2) with (Some <$> ws2).
    rewrite Hsh by lia. simpl. cmp_step. simpl.
    rewrite !fmap_app, <- !app_assoc, fmap_drop. done.
Qed.
End redirecting.

(** [ls > out]: the file is opened, and [execvp] still reads [ls], [>], [out]. *)
Lemma extract_redirection_spec_witness :
  extract_redirection next_fd (λ _, true) Local Local
    ((Some <$> [lit "ls"; lit ">"; lit "out"]) ++ [None]) 3 fresh_os =
  Done ((Some <$> [lit "ls"; lit ">"; lit "out"]) ++ [None], 1, 3,
    set_fds (<[3 := File (lit "out") false]> std_fds) fresh_os).
Proof.
  refine (extract_redirection_spec next_fd (λ _, true) [lit "ls"] [lit ">"; lit "out"] fresh_os _ _ _).
  - intros m. pose proof (next_fd_above m). lia.
  - repeat constructor.
  - vm_compute. reflexivity.
Defined.

(** ** What becomes of external commands *)

Definition is_fault {A} (o : outcome A) : Prop := ∃ e, o = Fault e.

(** A command without a pipe: the first call of [extract_redirection] stores
    through [&args[-1]] before anything is forked. *)
Lemma single_command_stores_outside fresh_fd pipe_ok fork_ok open_ok stack string_at line args count s :
  chr_pipe ∉ line →
  faults (run_external fresh_fd pipe_ok fork_ok open_ok stack string_at line args count) OutOfBounds s.
Proof.
  intros Hl. assert (E : count_pipes line = Done 0).
  { unfold count_pipes. revert Hl. generalize 0.
    induction line as [|c line IH]; intros z [Hc Hl]%not_elem_of_cons || intros z _; [done|].
    cbn [count_loop]. rewrite decide_False by done. by apply IH. }
  unfold run_external, faults, mbind, st_bind, st_lift. by rewrite E.
Qed.

Lemma load_bytes_ext f g k : ∀ j, (∀ l, j ≤ l < j + Z.of_nat k → f l = g l) →
  load_bytes f k j = load_bytes g k j.
Proof.
  induction k as [|k IH]; intros j H; [done|]. cbn [load_bytes]. rewrite (H j) by lia.
  by rewrite (IH (j + 1)) by (intros l ?; apply H; lia).
Qed.

(** Only the first of the commands is where the elements are read. *)
Lemma commands_element_first stack string_at first rest i :
  (i < 11)%nat →
  commands_element stack string_at (first :: rest) i = commands_element stack string_at [first] i.
Proof.
  intros Hi. unfold commands_element. rewrite (load_bytes_ext _ (commands_byte stack [first])); [done|].
  intros l Hl. unfold commands_byte, MAX_CMD_LEN. by replace (l / 1024) with 0 by (symmetry; apply Z.div_small; lia).
Qed.

Lemma commands_byte_range stack commands j : 0 ≤ commands_byte stack commands j < 256.
Proof.
  assert (0 ≤ stack j mod 256 < 256) by (apply Z.mod_pos_bound; lia).
  unfold commands_byte. repeat case_match; try done. pose proof (nat_ascii_bounded a). lia.
Qed.

(** Seven characters of the command in an element: an address no process has. *)
Lemma text_address stack first i :
  (i < 11)%nat → chr_nul ∉ first → (8 * i + 7 ≤ length first)%nat →
  2 ^ 47 ≤ load_bytes (commands_byte stack [first]) 8 (8 * Z.of_nat i) < 2 ^ 64.
Proof.
  intros Hi Hn Hl. set (b := commands_byte stack [first]).
  assert (Hr : ∀ j, 0 ≤ b j < 256) by (intros j; apply commands_byte_range).
  set (j := 8 * Z.of_nat i).
  assert (H6 : 1 ≤ b (j + 1 + 1 + 1 + 1 + 1 + 1)).
  { unfold b, commands_byte, MAX_CMD_LEN.
    replace ((j + 1 + 1 + 1 + 1 + 1 + 1) / 1024) with 0 by (symmetry; apply Z.div_small; lia).
    rewrite Z.mod_small by lia. simpl (_ !! Z.to_nat 0).
    destruct (lookup_lt_is_Some_2 first (8 * i + 6)%nat ltac:(lia)) as [c Ec]. cbv iota.
    replace (Z.to_nat (j + 1 + 1 + 1 + 1 + 1 + 1)) with (8 * i + 6)%nat by lia.
    rewrite (lookup_app_l_Some _ _ _ _ Ec).
    assert (nat_of_ascii c ≠ 0%nat); [|lia]. intros E. apply Hn.
    replace chr_nul with c; [by apply list_elem_of_lookup; eauto|].
    by rewrite <- (ascii_nat_embedding c), E. }
  cbn [load_bytes].
  pose proof (Hr j). pose proof (Hr (j + 1)). pose proof (Hr (j + 1 + 1)).
  pose proof (Hr (j + 1 + 1 + 1)). pose proof (Hr (j + 1 + 1 + 1 + 1)).
  pose proof (Hr (j + 1 + 1 + 1 + 1 + 1)). pose proof (Hr (j + 1 + 1 + 1 + 1 + 1 + 1)).
  pose proof (Hr (j + 1 + 1 + 1 + 1 + 1 + 1 + 1)). lia.
Qed.

(** The characters of the pieces are those of the line. *)
Lemma token_elem d s c : c ∈ token d s → c ∈ s.
Proof.
  induction s as [|c' s IH]; simpl; [done|]. destruct (d c'); [by intros ?%elem_of_nil|].
  rewrite !elem_of_cons. naive_solver.
Qed.
Lemma after_token_elem d s c : c ∈ after_token d s → c ∈ s.
Proof.
  induction s as [|c' s IH]; simpl; [done|]. destruct (d c'); rewrite elem_of_cons; naive_solver.
Qed.
Lemma skip_elem d s c : c ∈ skip d s → c ∈ s.
Proof. induction s as [|c' s IH]; simpl; [done|]. destruct (d c'); rewrite ?elem_of_cons; naive_solver. Qed.

Lemma words_elem d s w c : w ∈ words d s → c ∈ w → c ∈ s.
Proof.
  remember (length s) as n eqn:Hn. revert s Hn. induction n as [n IH] using lt_wf_ind. intros s -> Hw Hc.
  rewrite strtok_words in Hw. destruct (strtok d s) as [[t rest]|] eqn:E; [|by apply elem_of_nil in Hw].
  pose proof (strtok_length _ _ _ _ E) as Hlt. unfold strtok in E.
  apply (skip_elem d). destruct (skip d s) as [|c0 s0]; [done|]. injection E as <- <-.
  apply elem_of_cons in Hw as [-> |Hw]; [by eapply token_elem|].
  apply (after_token_elem d). by eapply IH.
Qed.

Lemma piped_child_fault saved cmd i n ps m :
  (∀ m, is_fault (c ← default (Done saved) cmd; args ← piped_args c; execvp (args ++ [None]) m)) →
  is_fault (piped_child saved cmd i n ps m).
Proof.
  intros H. unfold piped_child. unfold mbind, outcome_bind in *.
  destruct i as [|j]; [|destruct (ps !! j); [|by eexists]];
    (destruct (_ <? _)%nat; [|apply H]);
    match goal with |- context [ps !! ?k] => destruct (ps !! k) end; apply H || by eexists.
Qed.

(** C26. A pipeline does not run its commands: the array of texts is read as an
    array of pointers, so that child [i] takes bytes [8 * i] to [8 * i + 7] of
    the first command, and what the stack held after it, for the address of
    its command, whatever the other commands are.  The child gets the
    descriptors of command [i], and the shell waits for it and goes on, but it
    crashes when seven of those bytes are characters of the command, and, with
    at most eleven commands, when the eight of them are null; what it executes
    otherwise is the text at that address or, past a null one, the text that
    eleven commands left of the line. *)
Theorem pipeline_reads_addresses fresh_fd pipe_ok fork_ok open_ok stack string_at line args count
    first rest s :
  (∀ m, m !! fresh_fd m = None) → (∀ s, pipe_ok s = true) → (∀ s, fork_ok s = true) →
  (∀ s a, 2 ^ 47 ≤ a < 2 ^ 64 → is_fault (string_at s a)) →
  (length line < 1024)%nat → chr_nul ∉ line → chr_pipe ∈ line →
  take 11 (trim <$> words bar line) = first :: rest →
  let n := S (length rest) in
  let element := commands_element (stack s) (string_at s) [first] in
  wp (run_external fresh_fd pipe_ok fork_ok open_ok stack string_at line args count) (λ r s',
    r = Next ∧ fds s' = fds s ∧ waited s' = waited s ++ seq (length (children s)) n ∧
    ∃ saved ps m, words bar saved = drop 12 (words bar line) ∧
      made (pipes s) (fds s) m ps ∧ length ps = length rest ∧
      ∃ cs, children s' = children s ++ cs ∧ length cs = n ∧
        ∀ i c, cs !! i = Some c →
          c = piped_child saved (element i) i n ps m ∧
          ((8 * i + 7 ≤ length first)%nat → is_fault c) ∧
          ((length (words bar line) ≤ 11)%nat → element i = None → is_fault c)) s.
Proof.
  intros Hfresh Hpipe Hfork Hfar Hlen Hnul Hbar Hws n element.
  destruct (split_loop_spec (S (length line)) line []) as (saved & E & Hsaved & Hfew); [lia|simpl; lia|].
  simpl in E, Hsaved, Hfew. rewrite Hws in E.
  assert (Hn : (n ≤ 11)%nat) by (change n with (length (first :: rest)); rewrite <- Hws, length_take; lia).
  unfold run_external. apply wp_bind. eapply wp_lift; [by apply split_commands_spec|].
  assert (0 < Z.of_nat (length (filter (λ c, c = chr_pipe) line))).
  { assert (chr_pipe ∈ filter (λ c, c = chr_pipe) line) as H by by apply list_elem_of_filter.
    destruct (filter _ line); [by apply elem_of_nil in H|simpl; lia]. }
  cmp_step. apply wp_bind. eapply wp_lift; [exact E|]. apply wp_bind, wp_get, wp_bind. eapply wp_mono.
  { apply (execute_piped_spec fresh_fd pipe_ok fork_ok Hfresh Hpipe Hfork). by rewrite length_fmap, length_seq. }
  intros b s' (-> & Hf & Hw & ps & m & Hm & Hl & Hc). apply wp_ret.
  rewrite length_fmap, length_seq in *. change (length (first :: rest)) with n in *.
  split_and!; [done..|]. exists saved, ps, m. split_and!; [done|done|simpl in Hl; lia|].
  eexists. split; [exact Hc|]. rewrite length_imap, length_fmap, length_seq. split; [done|].
  intros i c Hi. rewrite list_lookup_imap in Hi. apply fmap_Some in Hi as (el & Hel & ->).
  apply list_lookup_fmap_Some in Hel as (k & -> & [-> Hk]%lookup_seq). simpl plus in *.
  rewrite commands_element_first by lia. fold (element i). split; [done|].
  split.
  - intros Htext. apply piped_child_fault. unfold element, commands_element.
    assert (chr_nul ∉ first) as Hn0.
    { intros H0. destruct (words bar line) as [|w ws] eqn:Ew; [done|]. injection Hws as <- _.
      apply Hnul, (words_elem bar line w); [rewrite Ew; by apply elem_of_cons; left|].
      by eapply skip_elem. }
    pose proof (text_address (stack s) first i ltac:(lia) Hn0 Htext) as Ha.
    rewrite (proj2 (Z.eqb_neq _ 0)) by lia. intros m'. destruct (Hfar s _ Ha) as [e ->]. by exists e.
  - intros Hle ->. rewrite Hfew by done. apply piped_child_fault. intros m'. by eexists.
Qed.

(** ** Termination *)

Lemma parse_command_ends line : parse_command line ≠ NoFuel.
Proof.
  unfold parse_command. destruct (parse_loop_spec (S (length line)) line [] 0) as (bg & -> & _); [lia|simpl; lia|done].
Qed.

Lemma split_commands_ends line : split_commands line ≠ NoFuel.
Proof.
  unfold split_commands.
  by destruct (split_loop_spec (S (length line)) line []) as (saved & -> & _); [lia|simpl; lia|].
Qed.

Lemma count_pipes_ends line : count_pipes line ≠ NoFuel.
Proof.
  unfold count_pipes. generalize 0. induction line as [|c line IH]; intros n; [done|]. cbn [count_loop].
  case_decide; [|apply IH]. unfold int_result. case_bool_decide; [apply IH|done].
Qed.

#[local] Hint Resolve parse_command_ends split_commands_ends count_pipes_ends : ends.

Lemma fgets_shorter n input line rest :
  fgets (S (S n)) input = Some (line, rest) → (length rest < length input)%nat.
Proof.
  destruct input as [|c input]; [done|]. unfold fgets. intros [= <- <-]. simpl. rewrite length_drop. lia.
Qed.

Section session.
Context (fresh_fd : gmap Z chan → Z) (pipe_ok fork_ok : os → bool) (open_ok : str → bool).
Context (home : option str) (stack : os → Z → Z) (string_at : os → Z → outcome str).

Lemma make_pipes_ends n : ∀ ps, ends (make_pipes fresh_fd pipe_ok n ps).
Proof.
  induction n as [|n IH]; intros ps; simpl; [auto with ends|]. case_match; [auto with ends|].
  apply ends_bind.
  - unfold pipe. apply ends_bind; [auto with ends|]. intros s. case_match; auto with ends.
  - intros [p|]; auto with ends.
Qed.

Lemma fork_ends run : ends (fork fork_ok run).
Proof. unfold fork. apply ends_bind; [auto with ends|]. intros s. case_match; auto with ends. Qed.

Lemma fork_children_ends saved cmds n : ∀ i ps pids, ends (fork_children fork_ok saved cmds n i ps pids).
Proof.
  induction cmds as [|cmd cmds IH]; intros i ps pids; simpl; [auto with ends|]. case_match; [auto with ends|].
  apply ends_bind; [apply fork_ends|]. intros [pid|]; auto with ends.
Qed.

Lemma wait_all_ends pids : ends (wait_all pids).
Proof. induction pids; simpl; auto with ends. Qed.

Lemma piped_ends saved cmds : ends (execute_piped_commands fresh_fd pipe_ok fork_ok saved cmds).
Proof.
  unfold execute_piped_commands. apply ends_bind; [apply make_pipes_ends|]. intros [ps|]; [|auto with ends].
  apply ends_bind; [apply fork_children_ends|]. intros [pids|]; [|auto with ends].
  apply ends_bind; [auto with ends|]. intros _. apply ends_bind; [apply wait_all_ends|auto with ends].
Qed.

Lemma run_line_ends line : ends (run_line fresh_fd pipe_ok fork_ok open_ok home stack string_at line).
Proof.
  unfold run_line. case_decide; [auto with ends|]. apply ends_bind; [auto with ends|].
  intros [[args n] bg]. destruct args as [|[cmd|] rest]; [auto with ends| |auto with ends].
  repeat (case_decide; [auto with ends|]). unfold run_external. apply ends_bind; [auto with ends|].
  intros k. case_match; [|by apply (ends_faults _ OutOfBounds)].
  apply ends_bind; [auto with ends|]. intros [cmds saved].
  apply ends_bind; [auto with ends|]. intros s. apply ends_bind; [apply piped_ends|auto with ends].
Qed.

(** C27. The shell's session ends, whatever the input and the answers of the
    system: each turn of [main]'s loop takes at least one character of the
    input and none of the loops inside it runs on. *)
Theorem main_loop_terminates fuel input s :
  (length input < fuel)%nat →
  main_loop fresh_fd pipe_ok fork_ok open_ok home stack string_at fuel input s ≠ NoFuel.
Proof.
  intros Hf. revert s. change (ends (main_loop fresh_fd pipe_ok fork_ok open_ok home stack string_at fuel input)).
  revert input Hf. induction fuel as [|fuel IH]; intros input Hf; [lia|]. cbn [main_loop].
  destruct (fgets _ _) as [[line rest]|] eqn:E; [|auto with ends].
  assert (length rest < length input)%nat.
  { change (Z.to_nat MAX_CMD_LEN) with (S (S 1022)) in E. by eapply fgets_shorter. }
  apply ends_bind; [apply run_line_ends|]. intros []; [apply IH; lia|auto with ends..].
Qed.

End session.

(** An address space with one string in it, a stack that holds the bytes [b]. *)
Definition one_string (t : str) (_ : os) (a : Z) : outcome str :=
  if a =? 4096 then Done t else Fault OutOfBounds.
Definition filled (b : Z) (_ : os) (_ : Z) : Z := b.

Lemma main_loop_terminates_witness :
  main_loop next_fd (λ _, true) (λ _, true) (λ _, true) None (filled 0) (one_string []) 5 (lit "exit")
    fresh_os ≠ NoFuel.
Proof. apply main_loop_terminates. simpl. lia. Defined.

(** A session with a pipeline and a built-in: two children crash, the shell
    goes on, changes directory and leaves. *)
Example shell_session :
  (λ '(r, s), (r, children s, waited s, chdirs s)) <$>
    match main_loop next_fd (λ _, true) (λ _, true) (λ _, true) None (filled 0) (one_string []) 10
      (lit "ls | wc" ++ [chr_newline] ++ lit "cd /tmp" ++ [chr_newline] ++ lit "exit") fresh_os with
    | Done x => Some x | _ => None end =
  Some (Break, [Fault OutOfBounds; Fault NullDeref], [0; 1]%nat, [Some (lit "/tmp")]).
Proof. vm_compute. reflexivity. Qed.

(** The children of a line of thirteen short commands, on a stack of zeros:
    the first one crashes, and each of the others executes the thirteenth
    command, which the loop of [main] did not take. *)
Example pipeline_executes_the_rest :
  (λ '(_, s), map (λ c, match c with Done c => inl (argv c) | Fault e => inr e | NoFuel => inl [] end)
     (children s)) <$>
    match run_external next_fd (λ _, true) (λ _, true) (λ _, true) (filled 0) (one_string [])
      (lit "a|b|c|d|e|f|g|h|i|j|k|l|ls -l") [] 0 fresh_os with
    | Done x => Some x | _ => None end =
  Some (inr OutOfBounds :: repeat (inl [lit "ls"; lit "-l"]) 10).
Proof. vm_compute. reflexivity. Qed.

(** [sort -r | wc]: the first child takes "sort -r " for an address. *)
Lemma pipeline_reads_addresses_witness :
  let n := 2%nat in
  let element := commands_element (filled 0 fresh_os) (one_string [] fresh_os) [lit "sort -r "] in
  wp (run_external next_fd (λ _, true) (λ _, true) (λ _, true) (filled 0) (one_string [])
      (lit "sort -r | wc") [] 0) (λ r s',
    r = Next ∧ fds s' = std_fds ∧ waited s' = [] ++ seq 0 n ∧
    ∃ saved ps m, words bar saved = drop 12 (words bar (lit "sort -r | wc")) ∧
      made 0 std_fds m ps ∧ length ps = 1%nat ∧
      ∃ cs, children s' = [] ++ cs ∧ length cs = n ∧
        ∀ i c, cs !! i = Some c →
          c = piped_child saved (element i) i n ps m ∧
          ((8 * i + 7 ≤ length (lit "sort -r "))%nat → is_fault c) ∧
          ((length (words bar (lit "sort -r | wc")) ≤ 11)%nat → element i = None → is_fault c)) fresh_os.
Proof.
  apply (pipeline_reads_addresses next_fd (λ _, true) (λ _, true) (λ _, true) (filled 0) (one_string [])
    (lit "sort -r | wc") [] 0 (lit "sort -r ") [lit "wc"] fresh_os).
  - apply next_fd_unused.
  - done.
  - done.
  - intros s a Ha. exists OutOfBounds. unfold one_string. by rewrite (proj2 (Z.eqb_neq a 4096)) by lia.
  - simpl. lia.
  - apply (bool_decide_unpack _). vm_compute. exact I.
  - apply (bool_decide_unpack _). vm_compute. exact I.
  - vm_compute. reflexivity.
Defined.
