(* ===== verification/FileSearch.v ===== *)
(** The file searches of [02_memory/mmap_playground/benchmark.c]: with [read]
    into a buffer and in a mapping of the whole file.  A file is its bytes; a
    query is a C string without its terminator.  The size of a page is that of
    the machine. *)
From S2P Require Import Prelude.

Module FileSearch.

(** [getpagesize()]: positive, and less than a gigabyte on every machine. *)
Class PageSize : Type := {
  page_size : Z;
  page_size_range : 0 < page_size ≤ 2 ^ 30;
}.

#[program] Definition pages_of_4k : PageSize := {| page_size := 4096 |}.
Next Obligation. lia. Qed.

Definition buffer_size : Z := 4096.

(** [query[0]]: the terminator if the query is empty. *)
Definition first_char (query : list Z) : Z := default 0 (query !! 0%nat).

(** A mapping of [data]: whole pages, zero after the end of the file. *)
Definition map_len `{PageSize} (data : list Z) : Z :=
  (Z.of_nat (length data) + page_size - 1) / page_size * page_size.
Definition map_byte `{PageSize} (data : list Z) (i : Z) : outcome Z :=
  if (i <? 0) || (map_len data <=? i) then Fault OutOfBounds
  else Done (default 0 (data !! Z.to_nat i)).

(** The buffer of [search_with_read], of which [chunk] was just read; what
    follows it is never looked at. *)
Definition buffer_byte (chunk : list Z) (i : Z) : outcome Z :=
  if (i <? 0) || (Z.of_nat (length chunk) <=? i) then Fault Uninit
  else Done (default 0 (chunk !! Z.to_nat i)).

Section search.
Context (byte : Z → outcome Z).

(** [strncmp(&data[i], query, strlen(query)) == 0] *)
Fixpoint strncmp_eq (i : Z) (query : list Z) : outcome bool :=
  match query with
  | [] => Done true
  | c :: query => b ← byte i; if b =? c then strncmp_eq (i + 1) query else Done false
  end.

(** One iteration: is there a match at [i], when [guard] lets it be compared? *)
Definition match_at (query : list Z) (guard : bool) (i matches : Z) : outcome Z :=
  b ← byte i;
  if b =? first_char query then
    if guard then
      e ← strncmp_eq i query;
      if (e : bool) then int_result (matches + 1) else Done matches
    else Done matches
  else Done matches.

End search.

(** [for (size_t i = 0; i < file_size - strlen(query) + 1; i++)] *)
Fixpoint mmap_loop `{PageSize} (fuel : nat) (data query : list Z) (bound i matches : Z) : outcome Z :=
  match fuel with
  | O => NoFuel
  | S fuel =>
      if bound <=? i then Done matches else
      m ← match_at (map_byte data) query true i matches;
      mmap_loop fuel data query bound (i + 1) m
  end.

(** What the system calls before the loop answer. *)
Record calls : Type := mkCalls { open_ok : bool; stat_ok : bool; map_ok : bool }.

(** A mapping of length 0 fails. *)
Definition search_with_mmap `{PageSize} (fuel : nat) (c : calls) (data query : list Z) : outcome Z :=
  if negb (open_ok c) then Done (-1) else
  if negb (stat_ok c) then Done (-1) else
  if negb (map_ok c) || (length data =? 0)%nat then Done (-1) else
  mmap_loop fuel data query (wrap64 (Z.of_nat (length data) - Z.of_nat (length query) + 1)) 0 0.

(** [madvise] changes nothing but the speed. *)
Definition search_with_mmap_advise `{PageSize} : nat → calls → list Z → list Z → outcome Z := search_with_mmap.

(** The inner loop of [search_with_read], over the [n] bytes read. *)
Fixpoint read_loop (fuel : nat) (chunk query : list Z) (i matches : Z) : outcome Z :=
  match fuel with
  | O => NoFuel
  | S fuel =>
      let n := Z.of_nat (length chunk) in
      if n <=? i then Done matches else
      m ← match_at (buffer_byte chunk) query (wrap64 (i + Z.of_nat (length query)) <=? n) i matches;
      read_loop fuel chunk query (i + 1) m
  end.

(** [chunks] is what the calls of [read] return, up to the end of the file. *)
Fixpoint read_chunks (chunks : list (list Z)) (query : list Z) (matches : Z) : outcome Z :=
  match chunks with
  | [] => Done matches
  | chunk :: chunks =>
      m ← read_loop (S (length chunk)) chunk query 0 matches;
      read_chunks chunks query m
  end.

Definition search_with_read (c : calls) (chunks : list (list Z)) (query : list Z) : outcome Z :=
  if negb (open_ok c) then Done (-1) else read_chunks chunks query 0.

(** All of them succeed. *)
Definition calls_ok : calls := mkCalls true true true.

End FileSearch.
