(* ===== verification/SearchTheorems.v ===== *)
(** The two searches against the number of occurrences of the query: the one
    in a mapping finds them all, the one with [read] misses those that cross
    the end of a buffer. *)
From S2P Require Import Prelude FileSearch.
Import FileSearch.

(** ** Occurrences *)

Definition starts (q l : list Z) : bool := bool_decide (q `prefix_of` l).

Fixpoint occurrences (q l : list Z) : Z :=
  match l with [] => 0 | _ :: l' => Z.b2z (starts q l) + occurrences q l' end.

(** Occurrences that begin in [a] and end in [b]. *)
Fixpoint crossing (q a b : list Z) : Z :=
  match a with
  | [] => 0
  | _ :: a' => Z.b2z (starts q (a ++ b) && negb (starts q a)) + crossing q a' b
  end.

Fixpoint crossings (q : list Z) (chunks : list (list Z)) : Z :=
  match chunks with
  | [] => 0
  | c :: cs => crossing q c (mjoin cs) + crossings q cs
  end.

Lemma starts_app q a b : starts q a = true → starts q (a ++ b) = true.
Proof. unfold starts. rewrite !bool_decide_eq_true. intros. by apply prefix_app_r. Qed.

Lemma occurrences_app q a b :
  occurrences q (a ++ b) = occurrences q a + crossing q a b + occurrences q b.
Proof.
  induction a as [|x a IH]; simpl; [done|]. rewrite IH.
  destruct (starts q (x :: a)) eqn:E; simpl; [|rewrite andb_true_r; lia].
  rewrite andb_false_r. apply (starts_app _ _ b) in E. simpl in E. rewrite E. simpl. lia.
Qed.

Lemma occurrences_chunks q chunks :
  occurrences q (mjoin chunks) = foldr (λ c n, occurrences q c + n) 0 chunks + crossings q chunks.
Proof.
  induction chunks as [|c cs IH]; [done|]. simpl. rewrite occurrences_app, IH. lia.
Qed.

Lemma occurrences_bound q l : 0 ≤ occurrences q l ≤ Z.of_nat (length l).
Proof. induction l as [|x l IH]; simpl; [lia|]. destruct (starts q _); simpl; lia. Qed.

Lemma crossings_nonneg q chunks : 0 ≤ crossings q chunks.
Proof.
  assert (H : ∀ a b, 0 ≤ crossing q a b).
  { intros a b. induction a as [|x a IH]; simpl; [done|]. destruct (_ && _); simpl; lia. }
  induction chunks as [|c cs IH]; simpl; [done|]. specialize (H c (mjoin cs)). lia.
Qed.

(** ** Comparing at a position *)

(** [byte] reads [l] from position 0. *)
Definition reads (byte : Z → outcome Z) (l : list Z) : Prop :=
  ∀ i x, l !! i = Some x → byte (Z.of_nat i) = Done x.

Lemma strncmp_spec byte l q : ∀ i,
  reads byte l → (i + length q ≤ length l)%nat →
  strncmp_eq byte (Z.of_nat i) q = Done (starts q (drop i l)).
Proof.
  induction q as [|c q IH]; intros i Hb Hi; simpl in *.
  { done. }
  destruct (lookup_lt_is_Some_2 l i ltac:(lia)) as [x Hx]. rewrite (Hb i x Hx).
  rewrite (drop_S l x i Hx). unfold mbind, outcome_bind.
  replace (Z.of_nat i + 1) with (Z.of_nat (S i)) by lia. unfold starts.
  destruct (Z.eqb_spec x c) as [->|Hne].
  - rewrite IH by (done || lia). f_equal. unfold starts. apply bool_decide_ext.
    split; [apply prefix_cons|apply prefix_cons_inv_2].
  - f_equal. symmetry. apply bool_decide_eq_false. intros Hp. apply prefix_cons_inv_1 in Hp. done.
Qed.

Lemma starts_length q l : starts q l = true → (length q ≤ length l)%nat.
Proof. unfold starts. rewrite bool_decide_eq_true. apply prefix_length. Qed.

(** An iteration counts a match at its position. *)
Lemma match_at_spec byte l q i guard m :
  reads byte l → (i < length l)%nat → q ≠ [] → (guard = true ↔ (i + length q ≤ length l)%nat) →
  0 ≤ m < int_max →
  match_at byte q guard (Z.of_nat i) m = Done (m + Z.b2z (starts q (drop i l))).
Proof.
  intros Hb Hi Hq Hg Hm. unfold match_at. destruct (lookup_lt_is_Some_2 l i Hi) as [x Hx].
  rewrite (Hb i x Hx). unfold mbind, outcome_bind. destruct q as [|c q]; [done|].
  change (first_char (c :: q)) with c.
  assert (Hno : (¬ (i + length (c :: q) ≤ length l))%nat → starts (c :: q) (drop i l) = false).
  { intros Hn. destruct (starts _ _) eqn:E; [|done]. apply starts_length in E.
    rewrite length_drop in E. simpl in *. lia. }
  destruct (Z.eqb_spec x c) as [->|Hne].
  - destruct guard.
    + rewrite (strncmp_spec byte l) by (done || by apply Hg). destruct (starts _ _); simpl.
      * unfold int_result. rewrite bool_decide_true; [done|]. unfold is_int, int_min, int_max in *. lia.
      * f_equal. lia.
    + rewrite Hno; [simpl; f_equal; lia|]. intros Hle%Hg. done.
  - rewrite (drop_S l x i Hx). unfold starts. rewrite bool_decide_false; [simpl; f_equal; lia|].
    intros Hp%prefix_cons_inv_1. done.
Qed.

(** ** Searching with [read] *)

Lemma buffer_reads chunk : reads (buffer_byte chunk) chunk.
Proof.
  intros i x Hx. pose proof (lookup_lt_Some _ _ _ Hx). unfold buffer_byte.
  do 2 cmp_step. simpl. by rewrite Nat2Z.id, Hx.
Qed.

Lemma drop_occurrences q l i x :
  l !! i = Some x → occurrences q (drop i l) = Z.b2z (starts q (drop i l)) + occurrences q (drop (S i) l).
Proof. intros Hx. by rewrite (drop_S l x i Hx). Qed.

Lemma read_loop_spec chunk q fuel : ∀ i m,
  q ≠ [] → Z.of_nat (length chunk) ≤ buffer_size → Z.of_nat (length q) < 2 ^ 63 →
  (i ≤ length chunk)%nat → (length chunk - i < fuel)%nat →
  0 ≤ m → m + Z.of_nat (length chunk - i) ≤ int_max →
  read_loop fuel chunk q (Z.of_nat i) m = Done (m + occurrences q (drop i chunk)).
Proof.
  induction fuel as [|fuel IH]; intros i m Hq Hc Hl Hi Hf Hm Hb; [lia|]. cbn [read_loop].
  unfold buffer_size in *. destruct (Z.leb_spec (Z.of_nat (length chunk)) (Z.of_nat i)) as [Hle|Hlt].
  { rewrite drop_ge by lia. simpl. f_equal. lia. }
  rewrite (match_at_spec (buffer_byte chunk) chunk); [|apply buffer_reads|lia|done| |lia].
  2: { rewrite wrap64_small by lia. rewrite Z.leb_le. lia. }
  unfold mbind, outcome_bind. replace (Z.of_nat i + 1) with (Z.of_nat (S i)) by lia.
  destruct (lookup_lt_is_Some_2 chunk i ltac:(lia)) as [x Hx].
  rewrite IH; [|try done; destruct (starts q (drop i chunk)); simpl; lia..].
  rewrite (drop_occurrences _ _ _ _ Hx). f_equal. lia.
Qed.

#[local] Arguments read_loop : simpl never.

Lemma read_chunks_spec q chunks : ∀ m,
  q ≠ [] → Z.of_nat (length q) < 2 ^ 63 →
  Forall (λ c, Z.of_nat (length c) ≤ buffer_size) chunks →
  0 ≤ m → m + Z.of_nat (length (mjoin chunks)) ≤ int_max →
  read_chunks chunks q m = Done (m + foldr (λ c n, occurrences q c + n) 0 chunks).
Proof.
  induction chunks as [|c cs IH]; intros m Hq Hl Hc Hm Hb; simpl in *; [by rewrite Z.add_0_r|].
  inversion_clear Hc. rewrite length_app in Hb.
  pose proof (read_loop_spec c q (S (length c)) 0 m) as Hr. rewrite drop_0 in Hr.
  change (Z.of_nat 0) with 0 in Hr. rewrite Hr by (done || lia).
  pose proof (occurrences_bound q c).
  unfold mbind, outcome_bind. rewrite IH by (done || lia). f_equal. lia.
Qed.

(** ** Searching in a mapping *)

Lemma map_len_bounds `{PageSize} data :
  Z.of_nat (length data) ≤ map_len data < Z.of_nat (length data) + page_size.
Proof.
  unfold map_len. pose proof page_size_range.
  rewrite Z.mul_comm. apply round_up. lia.
Qed.

Lemma map_reads `{PageSize} data : reads (map_byte data) data.
Proof.
  intros i x Hx. pose proof (lookup_lt_Some _ _ _ Hx). pose proof (map_len_bounds data).
  unfold map_byte. do 2 cmp_step. simpl.
  by rewrite Nat2Z.id, Hx.
Qed.

(** No occurrence begins in the last bytes. *)
Lemma occurrences_tail q l i :
  (length l < i + length q)%nat → q ≠ [] → occurrences q (drop i l) = 0.
Proof.
  intros Hi Hq. assert (H : (length (drop i l) < length q)%nat).
  { rewrite length_drop. destruct q; [done|]. simpl in *. lia. }
  revert H. generalize (drop i l). clear. intros l. induction l as [|x l IH]; simpl; [done|].
  intros H. destruct (starts q (x :: l)) eqn:E; [apply starts_length in E; simpl in E; lia|].
  simpl. apply IH. lia.
Qed.

Lemma mmap_loop_spec `{PageSize} data q fuel : ∀ i m,
  q ≠ [] → (length q ≤ length data)%nat → (length data < fuel + i)%nat →
  (i + length q ≤ length data + 1)%nat → 0 ≤ m → m + Z.of_nat (length data - i) ≤ int_max →
  mmap_loop fuel data q (Z.of_nat (length data) - Z.of_nat (length q) + 1) (Z.of_nat i) m =
  Done (m + occurrences q (drop i data)).
Proof.
  induction fuel as [|fuel IH]; intros i m Hq Hl Hf Hi Hm Hb; [destruct q; simpl in *; [done|lia]|].
  cbn [mmap_loop]. assert (0 < length q)%nat by (destruct q; simpl; [done|lia]).
  destruct (Z.leb_spec (Z.of_nat (length data) - Z.of_nat (length q) + 1) (Z.of_nat i)) as [Hle|Hlt].
  { rewrite occurrences_tail by (done || lia). f_equal. lia. }
  rewrite (match_at_spec (map_byte data) data); [|apply map_reads|lia|done|split; [lia|done]|lia].
  unfold mbind, outcome_bind. replace (Z.of_nat i + 1) with (Z.of_nat (S i)) by lia.
  destruct (lookup_lt_is_Some_2 data i ltac:(lia)) as [x Hx].
  rewrite IH; [|try done; destruct (starts q (drop i data)); simpl; lia..].
  rewrite (drop_occurrences _ _ _ _ Hx). f_equal. lia.
Qed.

(** ** A query longer than the file *)

Lemma map_byte_in `{PageSize} data i : 0 ≤ i < map_len data → map_byte data i = Done (default 0 (data !! Z.to_nat i)).
Proof.
  intros Hi. unfold map_byte. by do 2 cmp_step.
Qed.

Lemma map_byte_out `{PageSize} data i : map_len data ≤ i → map_byte data i = Fault OutOfBounds.
Proof.
  intros Hi. unfold map_byte. rewrite (proj2 (Z.leb_le _ _) Hi). by rewrite orb_true_r.
Qed.

#[local] Arguments Z.eqb : simpl never.

Definition no_match {A} (o : outcome A) (a : A) : Prop := o = Done a ∨ o = Fault OutOfBounds.

Lemma strncmp_over `{PageSize} data q : ∀ i,
  Forall (λ c, c ≠ 0) q → (i ≤ length data)%nat → (length data < i + length q)%nat →
  no_match (strncmp_eq (map_byte data) (Z.of_nat i) q) false.
Proof.
  induction q as [|c q IH]; intros i Hq Hi Hl; simpl in *; [lia|]. inversion_clear Hq as [|? ? Hc Hq'].
  unfold mbind, outcome_bind. destruct (decide (Z.of_nat i < map_len data)) as [Hlt|Hge].
  2: { rewrite map_byte_out by lia. by right. }
  rewrite map_byte_in, Nat2Z.id by lia.
  destruct (data !! i) as [x|] eqn:Hx; simpl.
  - destruct (Z.eqb_spec x c); [|by left]. replace (Z.of_nat i + 1) with (Z.of_nat (S i)) by lia.
    apply lookup_lt_Some in Hx. apply IH; [done|lia|lia].
  - rewrite (proj2 (Z.eqb_neq 0 c)) by done. by left.
Qed.

Lemma mmap_loop_over `{PageSize} data q bound fuel : ∀ i m,
  q ≠ [] → Forall (λ c, c ≠ 0) q → (length data < length q)%nat → map_len data < bound →
  Z.of_nat i ≤ map_len data → map_len data < Z.of_nat fuel + Z.of_nat i →
  mmap_loop fuel data q bound (Z.of_nat i) m = Fault OutOfBounds.
Proof.
  induction fuel as [|fuel IH]; intros i m Hne Hq Hl Hb Hi Hf; [lia|]. cbn [mmap_loop].
  cmp_step. unfold match_at, mbind, outcome_bind.
  destruct (decide (Z.of_nat i < map_len data)) as [Hlt|Hge].
  2: { by rewrite map_byte_out by lia. }
  rewrite map_byte_in, Nat2Z.id by lia.
  assert (Hnext : ∀ m, mmap_loop fuel data q bound (Z.of_nat i + 1) m = Fault OutOfBounds).
  { intros m'. replace (Z.of_nat i + 1) with (Z.of_nat (S i)) by lia. apply IH; (done || lia). }
  destruct (Z.eqb_spec (default 0 (data !! i)) (first_char q)) as [E|]; [|apply Hnext].
  destruct (strncmp_over data q i Hq) as [-> | ->]; [|lia|apply Hnext|done].
  destruct (decide (i ≤ length data)%nat) as [|Hgt]; [done|]. exfalso.
  destruct q as [|c q]; [done|]. rewrite (lookup_ge_None_2 data i) in E by lia.
  inversion Hq. by simplify_eq/=.
Qed.

Lemma search_with_mmap_count `{PageSize} fuel c data q :
  open_ok c = true → stat_ok c = true → map_ok c = true → q ≠ [] → (length q ≤ length data)%nat →
  Z.of_nat (length data) ≤ int_max → map_len data + 1 < Z.of_nat fuel →
  search_with_mmap fuel c data q = Done (occurrences q data).
Proof.
  intros Ho Hst Hma Hq Hl Hb Hf. unfold search_with_mmap. rewrite Ho, Hst, Hma. simpl.
  assert (0 < length q)%nat by (destruct q; simpl; [done|lia]).
  pose proof (map_len_bounds data). pose proof page_size_range. unfold int_max in *.
  rewrite (proj2 (Nat.eqb_neq _ _)) by lia. rewrite wrap64_small by lia.
  pose proof (mmap_loop_spec data q fuel 0 0 Hq) as Hloop. rewrite drop_0 in Hloop.
  apply Hloop; unfold int_max; lia.
Qed.

(** C28. [search_with_mmap] returns the number of occurrences of the query in
    the file, on a file that is not empty; with a query that is longer than
    the file by more than one byte the bound of its loop wraps around and it
    reads past the mapping. *)
Theorem search_with_mmap_spec `{PageSize} fuel c data q :
  open_ok c = true → stat_ok c = true → map_ok c = true → data ≠ [] → q ≠ [] →
  Forall (λ c, c ≠ 0) q → Z.of_nat (length data) ≤ int_max → Z.of_nat (length q) ≤ int_max →
  map_len data + 1 < Z.of_nat fuel →
  search_with_mmap fuel c data q =
    if (length q <=? length data + 1)%nat then Done (occurrences q data) else Fault OutOfBounds.
Proof.
  intros Ho Hst Hma Hd Hq Hnz Hdl Hql Hf. unfold search_with_mmap. rewrite Ho, Hst, Hma. simpl.
  pose proof (map_len_bounds data) as Hml. pose proof page_size_range. unfold int_max in *.
  assert (0 < length q)%nat by (destruct q; simpl; [done|lia]).
  destruct (Nat.eqb_spec (length data) 0) as [Hz|_]; [by destruct data|].
  destruct (Nat.leb_spec (length q) (length data + 1)) as [Hle|Hgt].
  - destruct (decide (length q = length data + 1)%nat) as [Heq|Hne].
    + rewrite (wrap64_small _) by lia. replace (_ - _ + 1) with 0 by lia.
      destruct fuel as [|fuel]; [lia|]. simpl. f_equal.
      pose proof (occurrences_tail q data 0 ltac:(lia) Hq) as Ht. by rewrite drop_0 in Ht.
    + rewrite wrap64_small by lia.
      pose proof (mmap_loop_spec data q fuel 0 0 Hq) as Hloop. rewrite drop_0 in Hloop.
      apply Hloop; unfold int_max; lia.
  - apply (mmap_loop_over data q _ fuel 0 0); try done; [lia| |lia..].
    replace (wrap64 _) with (2 ^ 64 + (Z.of_nat (length data) - Z.of_nat (length q) + 1)); [lia|].
    unfold wrap64. apply (Z.mod_unique _ _ (-1)); lia.
Qed.

Section demo.
#[local] Existing Instance pages_of_4k.

(** "a" in "banana"; and a query of three bytes in a file of one. *)
Lemma search_with_mmap_spec_witness :
  search_with_mmap 5000 calls_ok [98; 97; 110; 97; 110; 97] [97] = Done 3 ∧
  search_with_mmap 5000 calls_ok [98] [98; 97; 97] = Fault OutOfBounds.
Proof.
  split.
  - refine (search_with_mmap_spec 5000 calls_ok [98; 97; 110; 97; 110; 97] [97] _ _ _ _ _ _ _ _ _);
      [done..|by repeat constructor|simpl; unfold int_max; lia|simpl; unfold int_max; lia
      |vm_compute; reflexivity].
  - refine (search_with_mmap_spec 5000 calls_ok [98] [98; 97; 97] _ _ _ _ _ _ _ _ _);
      [done..|by repeat constructor|simpl; unfold int_max; lia|simpl; unfold int_max; lia
      |vm_compute; reflexivity].
Defined.

End demo.

(** C29. [search_with_read] finds what [search_with_mmap] finds in the same file
    except the occurrences that begin in one buffer and end after it. *)
Theorem search_with_read_misses `{PageSize} fuel c chunks q :
  open_ok c = true → stat_ok c = true → map_ok c = true → q ≠ [] →
  Forall (λ c, c ≠ 0) q → (length q ≤ length (mjoin chunks))%nat →
  Forall (λ c, Z.of_nat (length c) ≤ buffer_size) chunks →
  Z.of_nat (length (mjoin chunks)) ≤ int_max → map_len (mjoin chunks) + 1 < Z.of_nat fuel →
  ∃ n, search_with_read c chunks q = Done n ∧
    search_with_mmap fuel c (mjoin chunks) q = Done (n + crossings q chunks) ∧
    0 ≤ crossings q chunks.
Proof.
  intros Ho Hst Hma Hq Hnz Hl Hc Hb Hf.
  exists (foldr (λ c n, occurrences q c + n) 0 chunks). split_and!; [|..|apply crossings_nonneg].
  - unfold search_with_read. rewrite Ho. simpl.
    rewrite read_chunks_spec by (done || unfold int_max in *; lia). done.
  - rewrite <- occurrences_chunks. by apply search_with_mmap_count.
Qed.

Section demo.
#[local] Existing Instance pages_of_4k.

(** "ab" in "xab", read as "xa" and "b". *)
Lemma search_with_read_misses_witness :
  crossings [97; 98] [[120; 97]; [98]] = 1 ∧
  ∃ n, search_with_read calls_ok [[120; 97]; [98]] [97; 98] = Done n ∧
    search_with_mmap 5000 calls_ok [120; 97; 98] [97; 98] = Done (n + 1) ∧ 0 ≤ 1.
Proof.
  split; [vm_compute; reflexivity|].
  apply (search_with_read_misses 5000 calls_ok [[120; 97]; [98]] [97; 98]);
    [done..|by repeat constructor|simpl; lia|repeat constructor; simpl; unfold buffer_size; lia
    |simpl; unfold int_max; lia|vm_compute; reflexivity].
Defined.

End demo.
