(* ===== verification/SearchBench.v ===== *)
(** The benchmark around the searches, [02_memory/mmap_playground/benchmark.c]:
    the file it writes, what [read] returns for it, and the counts it prints.

    The sizes are computed in floating point from whole numbers below 2^53, so
    they are exact; times are left out. *)
From S2P Require Import Prelude FileSearch SearchTheorems.
Import FileSearch.

Module SearchBench.

(** "The quick brown fox jumps over the lazy dog. " *)
Definition pattern : list Z :=
  [84; 104; 101; 32; 113; 117; 105; 99; 107; 32; 98; 114; 111; 119; 110; 32; 102; 111; 120; 32;
   106; 117; 109; 112; 115; 32; 111; 118; 101; 114; 32; 116; 104; 101; 32; 108; 97; 122; 121; 32;
   100; 111; 103; 46; 32].

(** [while (bytes_written < size_mb * 1e6)] *)
Fixpoint fill (fuel : nat) (limit bytes_written : Z) : outcome (list Z) :=
  match fuel with
  | O => NoFuel
  | S fuel =>
      if limit <=? bytes_written then Done [] else
      let to_write := if limit <? bytes_written + 45 then limit - bytes_written else 45 in
      l ← fill fuel limit (bytes_written + to_write);
      Done (take (Z.to_nat to_write) pattern ++ l)
  end.

(** The file's bytes: none when it cannot be opened. *)
Definition create_test_file (fuel : nat) (fopen_ok : bool) (size_mb : Z) : outcome (list Z) :=
  if fopen_ok then fill fuel (size_mb * 1000000) 0 else Done [].

(** What [read] returns for a regular file: full buffers up to its end. *)
Fixpoint file_reads (fuel : nat) (data : list Z) : list (list Z) :=
  match fuel, data with
  | S fuel, _ :: _ => take (Z.to_nat buffer_size) data :: file_reads fuel (drop (Z.to_nat buffer_size) data)
  | _, _ => []
  end.

(** [for (i = 0; i < iterations; i++) matches = search(...)] *)
Fixpoint iterate (iterations : nat) (search : outcome Z) (matches : Z) : outcome Z :=
  match iterations with
  | O => Done matches
  | S n => m ← search; iterate n search m
  end.

(** The three counts of matches. *)
Definition benchmark `{PageSize} (fuel : nat) (c : calls) (data query : list Z) (iterations : nat) : outcome (Z * Z * Z) :=
  matches_read ← iterate iterations (search_with_read c (file_reads fuel data) query) 0;
  matches_mmap ← iterate iterations (search_with_mmap fuel c data query) 0;
  matches_advise ← iterate iterations (search_with_mmap_advise fuel c data query) 0;
  Done (matches_read, matches_mmap, matches_advise).

Definition quick : list Z := [113; 117; 105; 99; 107].
Definition lazy_ : list Z := [108; 97; 122; 121].

Definition main `{PageSize} (fuel : nat) (c : calls) : outcome ((Z * Z * Z) * (Z * Z * Z)) :=
  small ← create_test_file fuel true 1;
  medium ← create_test_file fuel true 10;
  r1 ← benchmark fuel c small quick 100;
  r2 ← benchmark fuel c medium lazy_ 10;
  Done (r1, r2).

End SearchBench.
Import SearchBench.

(** ** The file as a stream *)

(** The byte at position [i] of the file, however long it is, and [n] bytes
    from position [s]. *)
Definition byte (i : Z) : Z := default 0 (pattern !! Z.to_nat (i mod 45)).
Fixpoint segment (s : Z) (n : nat) : list Z :=
  match n with O => [] | S n => byte s :: segment (s + 1) n end.

Lemma segment_length n : ∀ s, length (segment s n) = n.
Proof. induction n as [|n IH]; intros s; simpl; [done|]. by rewrite IH. Qed.

Lemma segment_app n m : ∀ s, segment s (n + m) = segment s n ++ segment (s + Z.of_nat n) m.
Proof.
  induction n as [|n IH]; intros s; cbn [Nat.add segment app]; [by rewrite Z.add_0_r|].
  rewrite IH. do 3 f_equal. lia.
Qed.

Lemma segment_take n m s : (m ≤ n)%nat → take m (segment s n) = segment s m.
Proof.
  intros H. replace n with (m + (n - m))%nat by lia. rewrite segment_app, take_app_le.
  - apply take_ge. by rewrite segment_length.
  - by rewrite segment_length.
Qed.

Lemma segment_drop n m s : (m ≤ n)%nat → drop m (segment s n) = segment (s + Z.of_nat m) (n - m).
Proof.
  intros H. replace n with (m + (n - m))%nat at 1 by lia. rewrite segment_app.
  by rewrite drop_app_length' by by rewrite segment_length.
Qed.

Lemma byte_mod s k : byte (s + 45 * k) = byte s.
Proof. unfold byte. f_equal. f_equal. f_equal. rewrite Z.mul_comm. apply Z.mod_add. lia. Qed.

Lemma segment_mod n k : ∀ s, segment (s + 45 * k) n = segment s n.
Proof.
  induction n as [|n IH]; intros s; cbn [segment]; [done|]. rewrite byte_mod. f_equal.
  rewrite <- (IH (s + 1)). f_equal. lia.
Qed.

(** A whole copy of the pattern. *)
Lemma segment_pattern k w : (w ≤ 45)%nat → segment (45 * k) w = take w pattern.
Proof.
  intros Hw. rewrite <- (Z.add_0_l (45 * k)), segment_mod. rewrite <- (segment_take 45) by done. done.
Qed.

(** [create_test_file] writes the first bytes of the stream, and ends. *)
Lemma fill_done fuel : ∀ k n,
  Z.of_nat n / 45 - k < Z.of_nat fuel - 1 → 0 ≤ k → 45 * k ≤ Z.of_nat n →
  fill fuel (Z.of_nat n) (45 * k) = Done (segment (45 * k) (n - Z.to_nat (45 * k))).
Proof.
  induction fuel as [|fuel IH]; intros k n Hf Hk Hn; [Z.div_mod_to_equations; lia|]. cbn [fill].
  destruct (Z.leb_spec (Z.of_nat n) (45 * k)) as [Hle|Hlt].
  { by replace (n - Z.to_nat (45 * k))%nat with 0%nat by lia. }
  destruct (Z.ltb_spec (Z.of_nat n) (45 * k + 45)) as [Hlast|Hmore].
  - replace (45 * k + (Z.of_nat n - 45 * k)) with (Z.of_nat n) by lia.
    destruct fuel as [|fuel]; [Z.div_mod_to_equations; lia|]. cbn [fill]. cmp. cbn [mbind outcome_bind].
    rewrite app_nil_r, <- segment_pattern with (k := k) by lia. do 2 f_equal. lia.
  - replace (45 * k + 45) with (45 * (k + 1)) by lia.
    rewrite IH by (Z.div_mod_to_equations; lia). cbn [mbind outcome_bind]. f_equal.
    rewrite <- segment_pattern with (k := k) by done.
    replace (n - Z.to_nat (45 * k))%nat with (45 + (n - Z.to_nat (45 * (k + 1))))%nat by lia.
    rewrite segment_app. do 2 f_equal. lia.
Qed.

Lemma create_test_file_done fuel size_mb :
  0 ≤ size_mb → size_mb * 1000000 + 1 < Z.of_nat fuel →
  create_test_file fuel true size_mb = Done (segment 0 (Z.to_nat (size_mb * 1000000))).
Proof.
  intros Hs Hf. unfold create_test_file. set (n := Z.to_nat (size_mb * 1000000)).
  replace (size_mb * 1000000) with (Z.of_nat n) in * by (unfold n; lia). clearbody n.
  pose proof (fill_done fuel 0 n) as H. rewrite Z.mul_0_r in H. rewrite H, Nat.sub_0_r; [done|..|lia|lia].
  Z.div_mod_to_equations. lia.
Qed.

(** ** Occurrences in the stream *)

Section query.
Context (q : list Z) (r0 : Z).

(** The query is a part of the pattern, from [r0] on, and its first byte is
    nowhere else. *)
Hypothesis q_part : q = segment r0 (length q).
Hypothesis q_head : Forall (λ r, byte r = first_char q → r = r0) (seqZ 0 45).
Hypothesis q_pos : (0 < length q)%nat.
Hypothesis r0_range : 0 ≤ r0 < 45.

Lemma starts_segment s n :
  starts q (segment s n) = bool_decide (s mod 45 = r0 ∧ (length q ≤ n)%nat).
Proof.
  unfold starts. apply bool_decide_ext. assert (Hs : s = s mod 45 + 45 * (s / 45)) by (Z.div_mod_to_equations; lia). split.
  - intros Hp. pose proof (prefix_length _ _ Hp) as Hl. rewrite segment_length in Hl. split; [|done].
    destruct n as [|n]; [lia|]. destruct Hp as [k E]. destruct q as [|c q']; [simpl in q_pos; lia|].
    simpl in E. injection E as E _. apply (proj1 (Forall_forall _ _) q_head); [apply elem_of_seqZ; apply Z.mod_pos_bound; lia|].
    rewrite <- (byte_mod _ (s / 45)), <- Hs. exact E.
  - intros [Hr Hl]. rewrite Hs, Hr, segment_mod. replace n with (length q + (n - length q))%nat by lia.
    rewrite segment_app, <- q_part. by apply prefix_app_r.
Qed.

(** The number of positions before [x] where the query starts. *)
Definition before (x : Z) : Z := (x + 44 - r0) / 45.

Lemma before_step s : before (s + 1) = before s + Z.b2z (bool_decide (s mod 45 = r0)).
Proof.
  unfold before. case_bool_decide; simpl; Z.div_mod_to_equations; lia.
Qed.

(** The number of occurrences in [n] bytes from [s] on. *)
Definition occ (s n : Z) : Z :=
  let m := Z.of_nat (length q) in if n <? m then 0 else before (s + n - m + 1) - before s.

Lemma occurrences_segment n : ∀ s, occurrences q (segment s n) = occ s (Z.of_nat n).
Proof.
  induction n as [|n IH]; intros s.
  { unfold occ. by cmp. }
  change (occurrences q (segment s (S n))) with
    (Z.b2z (starts q (segment s (S n))) + occurrences q (segment (s + 1) n)).
  rewrite starts_segment, IH. unfold occ. set (m := length q) in *.
  destruct (Z.ltb_spec (Z.of_nat n) (Z.of_nat m)) as [Hlt|Hge]; destruct (decide (m ≤ S n)%nat) as [Hle|Hgt].
  - cmp. replace (s + Z.of_nat (S n) - Z.of_nat m + 1) with (s + 1) by lia. rewrite before_step.
    rewrite (bool_decide_ext _ (s mod 45 = r0)) by tauto. lia.
  - cmp. rewrite bool_decide_eq_false_2 by lia. done.
  - cmp. rewrite (before_step s), (bool_decide_ext _ (s mod 45 = r0)) by tauto.
    replace (s + 1 + Z.of_nat n - Z.of_nat m + 1) with (s + Z.of_nat (S n) - Z.of_nat m + 1) by lia. lia.
  - lia.
Qed.

(** ** The buffers of [read] *)

(** The occurrences inside [k] full buffers from [s] on. *)
Fixpoint full (k : nat) (s : Z) : Z :=
  match k with O => 0 | S k => occ s buffer_size + full k (s + buffer_size) end.

Lemma file_reads_step fuel k r s :
  let b := Z.to_nat buffer_size in
  (0 < b * k + r)%nat → file_reads (S fuel) (segment s (b * k + r)) =
    segment s (Nat.min b (b * k + r)) ::
    file_reads fuel (segment (s + Z.of_nat (Nat.min b (b * k + r))) (b * k + r - Nat.min b (b * k + r))).
Proof.
  intros b Hn. set (n := (b * k + r)%nat) in *. destruct (segment s n) as [|x l] eqn:E.
  { apply (f_equal length) in E. rewrite segment_length in E. simpl in E. lia. }
  cbn [file_reads]. rewrite <- E. fold b. f_equal.
  - destruct (decide (b ≤ n)%nat); [rewrite segment_take by lia; by rewrite Nat.min_l by lia|].
    rewrite Nat.min_r, take_ge by (rewrite ?segment_length; lia). done.
  - f_equal. destruct (decide (b ≤ n)%nat); [rewrite segment_drop by lia; by rewrite Nat.min_l by lia|].
    rewrite Nat.min_r, drop_ge, Nat.sub_diag by (rewrite ?segment_length; lia). done.
Qed.

Lemma file_reads_sum fuel : ∀ k r s,
  (k < fuel)%nat → (r < Z.to_nat buffer_size)%nat →
  foldr (λ c n, occurrences q c + n) 0 (file_reads fuel (segment s (Z.to_nat buffer_size * k + r))) =
    full k s + occ (s + buffer_size * Z.of_nat k) (Z.of_nat r).
Proof.
  assert (Hb : Z.of_nat (Z.to_nat buffer_size) = buffer_size) by done.
  pose proof file_reads_step as Hstep. set (b := Z.to_nat buffer_size) in *.
  assert (0 < b)%nat by (unfold buffer_size in Hb; lia). clearbody b.
  induction fuel as [|fuel IH]; intros k r s Hf Hr; [lia|].
  assert (H0 : ∀ x, occ x 0 = 0) by (intros x; unfold occ; by cmp).
  destruct (decide (b * k + r = 0)%nat) as [Hz|Hnz].
  { assert (k = 0%nat) as -> by nia. assert (r = 0%nat) as -> by lia.
    rewrite Nat.mul_0_r. simpl. by rewrite H0. }
  rewrite Hstep by lia. cbn [foldr]. rewrite occurrences_segment. destruct k as [|k].
  - rewrite Nat.mul_0_r, Nat.add_0_l, Nat.min_r, Nat.sub_diag by lia. cbn [segment].
    replace (file_reads fuel []) with (@nil (list Z)) by by destruct fuel. cbn [foldr full].
    replace (s + buffer_size * Z.of_nat 0) with s by lia. lia.
  - rewrite Nat.min_l by lia. replace (b * S k + r - b)%nat with (b * k + r)%nat by lia.
    rewrite IH by lia. cbn [full]. rewrite Hb.
    replace (s + buffer_size + buffer_size * Z.of_nat k) with (s + buffer_size * Z.of_nat (S k)) by lia. lia.
Qed.

End query.

Lemma file_reads_ok fuel : ∀ data, (length data ≤ fuel)%nat →
  mjoin (file_reads fuel data) = data ∧
  Forall (λ c, Z.of_nat (length c) ≤ buffer_size) (file_reads fuel data).
Proof.
  assert (Hb : Z.of_nat (Z.to_nat buffer_size) = buffer_size) by done.
  set (b := Z.to_nat buffer_size) in *. assert (0 < b)%nat by (unfold buffer_size in Hb; lia).
  induction fuel as [|fuel IH]; intros data Hl; [destruct data; [done|simpl in Hl; lia]|].
  destruct data as [|x l] eqn:Ed; [done|]. rewrite <- Ed in *.
  replace (file_reads (S fuel) data) with (take b data :: file_reads fuel (drop b data)) by by rewrite Ed.
  destruct (IH (drop b data)) as [E HF].
  { rewrite length_drop. lia. }
  change (mjoin (take b data :: file_reads fuel (drop b data)))
    with (take b data ++ mjoin (file_reads fuel (drop b data))).
  rewrite E, take_drop. split; [done|]. constructor; [|done]. rewrite length_take. lia.
Qed.

(** ** The counts *)

Lemma iterate_same n x m : (0 < n)%nat → iterate n (Done x) m = Done x.
Proof.
  intros Hn. destruct n as [|n]; [lia|]. clear Hn. cbn [iterate mbind outcome_bind].
  induction n as [|n IH]; [done|]. exact IH.
Qed.

(** What a benchmark prints for [k] buffers and [r] bytes of the stream. *)
Lemma benchmark_counts `{PageSize} fuel q r0 iterations k r :
  q = segment r0 (length q) → Forall (λ r, byte r = first_char q → r = r0) (seqZ 0 45) →
  (0 < length q)%nat → 0 ≤ r0 < 45 → (0 < iterations)%nat → (r < Z.to_nat buffer_size)%nat →
  (length q ≤ Z.to_nat buffer_size * k + r)%nat → buffer_size * Z.of_nat k + Z.of_nat r ≤ 2 ^ 29 →
  2 ^ 31 ≤ Z.of_nat fuel →
  let n := (Z.to_nat buffer_size * k + r)%nat in
  benchmark fuel calls_ok (segment 0 n) q iterations = Done
    (full q r0 k 0 + occ q r0 (buffer_size * Z.of_nat k) (Z.of_nat r), occ q r0 0 (Z.of_nat n), occ q r0 0 (Z.of_nat n)).
Proof.
  intros Hq Hh Hp Hr0 Hit Hr Hl Hb Hf n.
  assert (Hn : Z.of_nat n = buffer_size * Z.of_nat k + Z.of_nat r) by (unfold n, buffer_size; lia).
  assert (Hlen : length (segment 0 n) = n) by apply segment_length.
  assert (q ≠ []) by by destruct q; [simpl in Hp; lia|].
  destruct (file_reads_ok fuel (segment 0 n) ltac:(lia)) as [Ej HF].
  pose proof (map_len_bounds (segment 0 n)) as Hml. pose proof page_size_range.
  assert (Hmmap : search_with_mmap fuel calls_ok (segment 0 n) q = Done (occ q r0 0 (Z.of_nat n))).
  { rewrite (search_with_mmap_count fuel calls_ok) by (done || unfold int_max; lia).
    by rewrite (occurrences_segment q r0). }
  assert (Hread : search_with_read calls_ok (file_reads fuel (segment 0 n)) q =
    Done (full q r0 k 0 + occ q r0 (buffer_size * Z.of_nat k) (Z.of_nat r))).
  { unfold search_with_read. cbn [open_ok calls_ok negb].
    rewrite read_chunks_spec by (done || rewrite ?Ej; unfold int_max; lia).
    unfold n. rewrite (file_reads_sum q r0) by (done || unfold buffer_size in *; lia). done. }
  unfold benchmark. rewrite Hread, iterate_same by done. cbn [mbind outcome_bind].
  unfold search_with_mmap_advise. by rewrite Hmmap, !iterate_same by done.
Qed.

(** C30. The benchmark, when every call succeeds: it creates the files it means
    to and every search ends; but the searches disagree. The one with [read]
    finds 24 of the 22223 occurrences of "quick" too few, and 162 of the 222222
    of "lazy": those that cross the end of a buffer. *)
Theorem search_benchmark_disagrees `{PageSize} fuel :
  2 ^ 31 ≤ Z.of_nat fuel →
  main fuel calls_ok = Done ((22199, 22223, 22223), (222060, 222222, 222222)).
Proof.
  intros Hf. unfold main. rewrite !create_test_file_done by lia. cbn [mbind outcome_bind].
  replace (Z.to_nat (1 * 1000000)) with (Z.to_nat buffer_size * 244 + 576)%nat by (unfold buffer_size; lia).
  replace (Z.to_nat (10 * 1000000)) with (Z.to_nat buffer_size * 2441 + 1664)%nat by (unfold buffer_size; lia).
  assert (Hq : Forall (λ r, byte r = first_char quick → r = 4) (seqZ 0 45)) by (eapply bool_decide_unpack; vm_compute; exact I).
  assert (Hl : Forall (λ r, byte r = first_char lazy_ → r = 35) (seqZ 0 45)) by (eapply bool_decide_unpack; vm_compute; exact I).
  pose proof (benchmark_counts fuel quick 4 100 244 576) as Hquick. cbv zeta in Hquick.
  rewrite Hquick by first [exact Hq | unfold buffer_size; cbn [length quick]; lia | done].
  cbn [mbind outcome_bind].
  pose proof (benchmark_counts fuel lazy_ 35 10 2441 1664) as Hlazy. cbv zeta in Hlazy.
  rewrite Hlazy by first [exact Hl | unfold buffer_size; cbn [length lazy_]; lia | done].
  cbn [mbind outcome_bind].
  replace (Z.of_nat (Z.to_nat buffer_size * 244 + 576)) with 1000000 by (unfold buffer_size; lia).
  replace (Z.of_nat (Z.to_nat buffer_size * 2441 + 1664)) with 10000000 by (unfold buffer_size; lia).
  vm_compute. reflexivity.
Qed.

Section demo.
#[local] Existing Instance pages_of_4k.

Lemma search_benchmark_disagrees_witness :
  main (Z.to_nat (2 ^ 31)) calls_ok = Done ((22199, 22223, 22223), (222060, 222222, 222222)).
Proof. apply search_benchmark_disagrees. rewrite Z2Nat.id; lia. Defined.

End demo.
