(* ===== verification/VmStudy.v ===== *)
(** The demonstrations of [02_memory/mmap_playground/vm_study.c]: one byte of
    each page of a mapped file, blocks at random offsets, two mappings of one
    file. What the system calls answer and the numbers [random] returns are
    inputs; a mapping, and the size of a page, are those of [FileSearch]. *)
From S2P Require Import Prelude FileSearch SearchTheorems.
Import FileSearch.

Module VmStudy.

(** [volatile char sum; sum += map[i]] *)
Definition char_of (z : Z) : Z := (z + 128) mod 256 - 128.

(** [for (i = 0; i < file_size; i += page_size) sum += map[i]]: the sum, and the
    offsets that were read. *)
Fixpoint touch_loop `{PageSize} (fuel : nat) (data : list Z) (i sum : Z) : outcome (Z * list Z) :=
  match fuel with
  | O => NoFuel
  | S fuel =>
      if Z.of_nat (length data) <=? i then Done (sum, []) else
      b ← map_byte data i;
      r ← touch_loop fuel data (wrap64 (i + page_size)) (char_of (sum + b));
      Done (r.1, i :: r.2)
  end.

(** [(file_size + page_size - 1) / page_size] *)
Definition pages `{PageSize} (file_size : Z) : Z := wrap64 (file_size + page_size - 1) / page_size.

(** What is printed, and the offsets both passes read; [None] when [open] or
    [mmap] failed. *)
Definition demonstrate_page_faults `{PageSize} (fuel : nat) (c : calls) (data : list Z) : outcome (option (Z * list Z * list Z)) :=
  if negb (open_ok c) then Done None else
  if negb (stat_ok c) then Fault Uninit else
  if negb (map_ok c) || (length data =? 0)%nat then Done None else
  r1 ← touch_loop fuel data 0 0;
  r2 ← touch_loop fuel data 0 r1.1;
  Done (Some (pages (Z.of_nat (length data)), r1.2, r2.2)).

(** [random() % (file_size - 1024)], as [size_t] and then as [off_t]. *)
Definition random_offset (file_size r : Z) : outcome Z :=
  let n := wrap64 (file_size - 1024) in
  if n =? 0 then Fault DivByZero else Done (wrap64 r mod n).

(** [read(fd, buffer, 1024)] at an offset: the bytes up to the end of the file. *)
Definition read_at (data : list Z) (offset : Z) : list Z := take 1024 (drop (Z.to_nat offset) data).

Fixpoint read_blocks (data : list Z) (rs : list Z) : outcome (list (list Z)) :=
  match rs with
  | [] => Done []
  | r :: rs =>
      offset ← random_offset (Z.of_nat (length data)) r;
      l ← read_blocks data rs;
      Done (read_at data offset :: l)
  end.

(** [for (j = 0; j < 1024; j++) sum += map[offset + j]] *)
Fixpoint block_loop `{PageSize} (n : nat) (data : list Z) (offset sum : Z) : outcome Z :=
  match n with
  | O => Done sum
  | S n => b ← map_byte data offset; block_loop n data (offset + 1) (char_of (sum + b))
  end.

Fixpoint map_blocks `{PageSize} (data : list Z) (rs : list Z) (sum : Z) : outcome Z :=
  match rs with
  | [] => Done sum
  | r :: rs =>
      offset ← random_offset (Z.of_nat (length data)) r;
      s ← block_loop 1024 data offset sum;
      map_blocks data rs s
  end.

(** [rs1] and [rs2]: the hundred random numbers of each method. *)
Definition demonstrate_random_access `{PageSize} (c : calls) (data rs1 rs2 : list Z) : outcome (option (list (list Z) * Z)) :=
  if negb (open_ok c) then Done None else
  if negb (stat_ok c) then Fault Uninit else
  blocks ← read_blocks data (take 100 rs1);
  if negb (map_ok c) || (length data =? 0)%nat then Done None else
  sum ← map_blocks data (take 100 rs2) 0;
  Done (Some (blocks, sum)).

(** The two mappings are printed, and unmapped, without a look at [MAP_FAILED]
    or at the bytes: only [fstat] matters. *)
Definition demonstrate_shared_memory (c : calls) (data : list Z) : outcome (option Z) :=
  if negb (open_ok c) then Done None else
  if negb (stat_ok c) then Fault Uninit else
  Done (Some (Z.of_nat (length data))).

(** "ABC...Z0123456789" *)
Definition alphabet : list Z := seqZ 65 26 ++ seqZ 48 10.

(** The bytes [i .. i + n - 1] of the file [create_demo_file] writes. *)
Fixpoint demo_bytes (n : nat) (i : Z) : list Z :=
  match n with
  | O => []
  | S n => default 0 (alphabet !! Z.to_nat (i mod 36)) :: demo_bytes n (i + 1)
  end.

(** The file is not checked for NULL. *)
Definition create_demo_file (fopen_ok : bool) (size : nat) : outcome (list Z) :=
  if fopen_ok then Done (demo_bytes size 0) else Fault NullDeref.

(** [main], with [size] for [1024 * 1024]. *)
Definition main `{PageSize} (fuel : nat) (fopen_ok : bool) (c : calls) (size : nat) (rs1 rs2 : list Z)
    : outcome (option (Z * list Z * list Z) * option (list (list Z) * Z) * option Z) :=
  data ← create_demo_file fopen_ok size;
  r1 ← demonstrate_page_faults fuel c data;
  r2 ← demonstrate_random_access c data rs1 rs2;
  r3 ← demonstrate_shared_memory c data;
  Done (r1, r2, r3).

End VmStudy.
Import VmStudy.

(** ** The pages of a file *)

Lemma map_byte_ok `{PageSize} data i : 0 ≤ i < Z.of_nat (length data) → ∃ b, map_byte data i = Done b.
Proof.
  intros Hi. pose proof (map_len_bounds data). unfold map_byte. cmp. eauto.
Qed.

(** The pages cover the file, the last one at least in part. *)
Lemma pages_cover `{PageSize} n :
  0 ≤ n ≤ 2 ^ 63 → n ≤ page_size * pages n < n + page_size ∧ 0 ≤ pages n.
Proof.
  intros Hn. pose proof page_size_range. unfold pages. rewrite wrap64_small by lia.
  pose proof (round_up n page_size) as Hr. split; [by apply Hr; lia|]. apply Z.div_pos; lia.
Qed.

(** The loop reads one byte of each page that is left, and ends. *)
Lemma touch_loop_done `{PageSize} data fuel : ∀ k sum,
  Z.of_nat (length data) ≤ 2 ^ 63 → 0 ≤ k ≤ pages (Z.of_nat (length data)) →
  pages (Z.of_nat (length data)) - k < Z.of_nat fuel →
  ∃ sum', touch_loop fuel data (page_size * k) sum =
    Done (sum', Z.mul page_size <$> seqZ k (pages (Z.of_nat (length data)) - k)).
Proof.
  pose proof page_size_range as Hps.
  induction fuel as [|fuel IH]; intros k sum Hlen Hk Hf; [simpl in Hf; lia|]. cbn [touch_loop].
  destruct (pages_cover (Z.of_nat (length data)) ltac:(lia)) as [Hn _].
  set (n := pages (Z.of_nat (length data))) in *.
  destruct (Z.leb_spec (Z.of_nat (length data)) (page_size * k)) as [Hle|Hlt].
  - exists sum. assert (n ≤ k) by nia. rewrite (seqZ_nil k (n - k)) by lia. done.
  - assert (k < n) by nia. assert (0 ≤ page_size * k) by nia.
    destruct (map_byte_ok data (page_size * k)) as [b ->]; [lia|]. cbn [mbind outcome_bind].
    rewrite wrap64_small by lia. replace (page_size * k + page_size) with (page_size * (k + 1)) by lia.
    destruct (IH (k + 1) (char_of (sum + b)) Hlen ltac:(lia) ltac:(lia)) as [sum' ->].
    exists sum'. rewrite (seqZ_cons k (n - k)) by lia.
    replace (Z.pred (n - k)) with (n - (k + 1)) by lia. rewrite <- Z.add_1_r. done.
Qed.

(** C31. Both passes over the mapping end, and read the first byte of every
    page of the file, once each and in order: as many as the number of pages
    that is printed. *)
Theorem page_faults_touch_every_page `{PageSize} fuel data :
  data ≠ [] → Z.of_nat (length data) ≤ 2 ^ 63 → pages (Z.of_nat (length data)) < Z.of_nat fuel →
  ∃ offsets, demonstrate_page_faults fuel calls_ok data =
      Done (Some (Z.of_nat (length offsets), offsets, offsets)) ∧
    offsets = Z.mul page_size <$> seqZ 0 (Z.of_nat (length offsets)) ∧
    ∀ i, 0 ≤ i < Z.of_nat (length data) → i / page_size * page_size ∈ offsets.
Proof.
  intros Hd Hlen Hf. set (n := pages (Z.of_nat (length data))).
  assert (0 < length data)%nat by (destruct data; simpl; [done|lia]).
  pose proof page_size_range as Hps.
  destruct (pages_cover (Z.of_nat (length data)) ltac:(lia)) as [Hn Hn0]. fold n in Hn, Hn0.
  pose proof (λ sum, touch_loop_done data fuel 0 sum) as Ht. fold n in Ht. rewrite Z.sub_0_r, Z.mul_0_r in Ht.
  exists (Z.mul page_size <$> seqZ 0 n). rewrite length_fmap, length_seqZ, Z2Nat.id by lia. split_and!; [|done|].
  - unfold demonstrate_page_faults. cbn [open_ok stat_ok map_ok calls_ok negb orb].
    rewrite (proj2 (Nat.eqb_neq _ _)) by lia.
    destruct (Ht 0) as [s1 ->]; [lia..|]. cbn [mbind outcome_bind fst snd].
    destruct (Ht s1) as [s2 ->]; [lia..|]. done.
  - intros i Hi. apply list_elem_of_fmap. exists (i / page_size). split; [lia|].
    apply elem_of_seqZ. split; [apply Z.div_pos; lia|]. apply Z.div_lt_upper_bound; lia.
Qed.

Section demo.
#[local] Existing Instance pages_of_4k.

Lemma page_faults_touch_every_page_witness :
  ∃ offsets, demonstrate_page_faults 3 calls_ok [65; 66] =
      Done (Some (Z.of_nat (length offsets), offsets, offsets)) ∧
    offsets = Z.mul page_size <$> seqZ 0 (Z.of_nat (length offsets)) ∧
    ∀ i, 0 ≤ i < Z.of_nat (length [65; 66]) → i / page_size * page_size ∈ offsets.
Proof.
  apply page_faults_touch_every_page; [done|simpl; lia|vm_compute; reflexivity].
Defined.

End demo.

(** ** Random blocks *)

Lemma random_offset_ok n r :
  1024 < n ≤ 2 ^ 63 → 0 ≤ r → r < 2 ^ 63 → random_offset n r = Done (r mod (n - 1024)).
Proof.
  intros Hn Hr1 Hr2. unfold random_offset. rewrite !wrap64_small by lia. by cmp.
Qed.

Lemma block_loop_done `{PageSize} data n : ∀ offset sum,
  0 ≤ offset → offset + Z.of_nat n ≤ Z.of_nat (length data) →
  ∃ sum', block_loop n data offset sum = Done sum'.
Proof.
  induction n as [|n IH]; intros offset sum Ho Hn; cbn [block_loop]; [eauto|].
  destruct (map_byte_ok data offset ltac:(lia)) as [b ->]. cbn [mbind outcome_bind]. apply IH; lia.
Qed.

Lemma block_loop_out `{PageSize} n data offset sum :
  0 ≤ map_len data ≤ offset → block_loop (S n) data offset sum = Fault OutOfBounds.
Proof. intros Ho. cbn [block_loop]. unfold map_byte. by cmp. Qed.

(** What [random] returns. *)
Definition random_ok (r : Z) : Prop := 0 ≤ r < 2 ^ 31.

Lemma map_blocks_done `{PageSize} data rs : ∀ sum,
  1024 < Z.of_nat (length data) ≤ 2 ^ 63 → Forall random_ok rs → ∃ sum', map_blocks data rs sum = Done sum'.
Proof.
  induction rs as [|r rs IH]; intros sum Hd Hrs; cbn [map_blocks]; [eauto|].
  apply Forall_cons in Hrs as [[Hr1 Hr2] Hrs]. rewrite random_offset_ok by lia. cbn [mbind outcome_bind].
  pose proof (Z.mod_pos_bound r (Z.of_nat (length data) - 1024) ltac:(lia)).
  destruct (block_loop_done data 1024 (r mod (Z.of_nat (length data) - 1024)) sum) as [s E]; [lia|lia|].
  rewrite E. by apply IH.
Qed.

Lemma read_blocks_done data rs :
  1024 < Z.of_nat (length data) ≤ 2 ^ 63 → Forall random_ok rs →
  ∃ l, read_blocks data rs = Done l ∧ Forall (λ b, length b = 1024%nat) l ∧ length l = length rs.
Proof.
  intros Hd. induction 1 as [|r rs [Hr1 Hr2] Hrs IH]; cbn [read_blocks]; [by exists []|].
  rewrite random_offset_ok by lia. cbn [mbind outcome_bind]. destruct IH as (l & -> & Hl & Hn).
  eexists. split; [done|]. split; [|simpl; by f_equal]. constructor; [|done].
  pose proof (Z.mod_pos_bound r (Z.of_nat (length data) - 1024) ltac:(lia)).
  unfold read_at. rewrite length_take, length_drop. lia.
Qed.

(** C32. On a file of more than 1024 bytes no random number leads outside the
    mapping, and every [read] gets a whole block; on one of exactly 1024 bytes
    the program divides by zero; on a smaller one the subtraction wraps around
    and a random number past the mapped pages is read through. *)
Theorem random_access_bounds `{PageSize} data rs1 rs2 :
  Forall random_ok rs1 → Forall random_ok rs2 → 0 < Z.of_nat (length data) ≤ 2 ^ 63 →
  (1024 < Z.of_nat (length data) → ∃ blocks sum,
    demonstrate_random_access calls_ok data rs1 rs2 = Done (Some (blocks, sum)) ∧
    Forall (λ b, length b = 1024%nat) blocks ∧ length blocks = Nat.min 100 (length rs1)) ∧
  (Z.of_nat (length data) = 1024 → rs1 ≠ [] → demonstrate_random_access calls_ok data rs1 rs2 = Fault DivByZero) ∧
  (Z.of_nat (length data) < 1024 → ∀ r rs, rs2 = r :: rs → map_len data ≤ r →
    demonstrate_random_access calls_ok data rs1 rs2 = Fault OutOfBounds).
Proof.
  intros H1 H2 Hd. apply (Forall_take _ 100) in H1. unfold demonstrate_random_access.
  cbn [open_ok stat_ok map_ok calls_ok negb orb]. rewrite (proj2 (Nat.eqb_neq (length data) 0)) by lia.
  split_and!.
  - intros Hlt. apply (Forall_take _ 100) in H2.
    destruct (read_blocks_done data _ ltac:(lia) H1) as (blocks & -> & Hb & Hl).
    destruct (map_blocks_done data _ 0 ltac:(lia) H2) as [sum E]. cbn [mbind outcome_bind].
    rewrite E. exists blocks, sum. by rewrite Hl, length_take.
  - intros He Hne. destruct rs1 as [|r rs]; [done|]. cbn [take read_blocks]. by rewrite He.
  - intros Hlt r rs -> Hr. apply Forall_cons in H2 as [[_ Hr2] _].
    assert (Hoff : ∀ x, random_ok x → random_offset (Z.of_nat (length data)) x = Done x).
    { intros x [Hx1 Hx2]. unfold random_offset. rewrite (wrap64_small x) by lia.
      assert (E : wrap64 (Z.of_nat (length data) - 1024) = 2 ^ 64 + Z.of_nat (length data) - 1024).
      { unfold wrap64. symmetry. apply (Z.mod_unique _ _ (-1)); lia. }
      rewrite E. cmp. f_equal. apply Z.mod_small. lia. }
    assert (Hread : ∃ l, read_blocks data (take 100 rs1) = Done l).
    { clear -H1 Hoff. induction H1 as [|x xs Hx Hxs IH]; cbn [read_blocks]; [eauto|].
      rewrite (Hoff x Hx). cbn [mbind outcome_bind]. destruct IH as [l ->]. eauto. }
    destruct Hread as [l ->]. cbn [mbind outcome_bind take map_blocks].
    pose proof (map_len_bounds data). rewrite Hoff by (unfold random_ok; lia). cbn [mbind outcome_bind].
    rewrite (block_loop_out 1023); [done|lia].
Qed.

Section demo.
#[local] Existing Instance pages_of_4k.

Lemma random_access_bounds_witness :
  (1024 < Z.of_nat (length [65]) → ∃ blocks sum,
    demonstrate_random_access calls_ok [65] [7] [5000] = Done (Some (blocks, sum)) ∧
    Forall (λ b, length b = 1024%nat) blocks ∧ length blocks = Nat.min 100 (length [7])) ∧
  (Z.of_nat (length [65]) = 1024 → [7] ≠ [] → demonstrate_random_access calls_ok [65] [7] [5000] = Fault DivByZero) ∧
  (Z.of_nat (length [65]) < 1024 → ∀ r rs, [5000] = r :: rs → map_len [65] ≤ r →
    demonstrate_random_access calls_ok [65] [7] [5000] = Fault OutOfBounds).
Proof.
  apply random_access_bounds; [repeat constructor..|]; vm_compute; done.
Defined.

End demo.

(** ** The whole program *)

Lemma demo_bytes_length n : ∀ i, length (demo_bytes n i) = n.
Proof. induction n as [|n IH]; intros i; simpl; [done|]. by rewrite IH. Qed.

(** [main], on the file it writes, whatever its size above 1024 bytes and
    whatever [random] returns: no demonstration leaves the mapping, and each
    prints what it should. *)
Theorem vm_main_safe `{PageSize} fuel size rs1 rs2 :
  1024 < Z.of_nat size ≤ 2 ^ 31 → Forall random_ok rs1 → Forall random_ok rs2 →
  pages (Z.of_nat size) < Z.of_nat fuel →
  ∃ offsets blocks sum, main fuel true calls_ok size rs1 rs2 = Done
    (Some (pages (Z.of_nat size), offsets, offsets), Some (blocks, sum), Some (Z.of_nat size)) ∧
    offsets = Z.mul page_size <$> seqZ 0 (pages (Z.of_nat size)).
Proof.
  intros Hs H1 H2 Hf. apply (Forall_take _ 100) in H1. apply (Forall_take _ 100) in H2.
  unfold main, create_demo_file. cbn [mbind outcome_bind].
  set (data := demo_bytes size 0). assert (Hlen : length data = size) by apply demo_bytes_length.
  assert (Hp : 0 ≤ pages (Z.of_nat size)).
  { apply pages_cover. lia. }
  pose proof (λ sum, touch_loop_done data fuel 0 sum) as Ht. rewrite Hlen, Z.sub_0_r, Z.mul_0_r in Ht.
  unfold demonstrate_page_faults, demonstrate_random_access, demonstrate_shared_memory.
  cbn [open_ok stat_ok map_ok calls_ok negb orb]. rewrite Hlen, (proj2 (Nat.eqb_neq size 0)) by lia.
  destruct (Ht 0 ltac:(lia) ltac:(lia) Hf) as [s1 ->]. cbn [mbind outcome_bind fst snd].
  destruct (Ht s1 ltac:(lia) ltac:(lia) Hf) as [s2 ->]. cbn [mbind outcome_bind fst snd].
  destruct (read_blocks_done data _ ltac:(lia) H1) as (blocks & -> & _). cbn [mbind outcome_bind].
  destruct (map_blocks_done data _ 0 ltac:(lia) H2) as [sum E]. rewrite E. cbn [mbind outcome_bind]. eauto.
Qed.

Section demo.
#[local] Existing Instance pages_of_4k.

Lemma vm_main_safe_witness :
  ∃ offsets blocks sum, main 3 true calls_ok 2000 [7] [999] = Done
    (Some (pages 2000, offsets, offsets), Some (blocks, sum), Some 2000) ∧
    offsets = Z.mul page_size <$> seqZ 0 (pages 2000).
Proof.
  apply (vm_main_safe 3 2000 [7] [999]); [lia|by repeat constructor|by repeat constructor|vm_compute; reflexivity].
Defined.

End demo.
