(* ===== verification/SignalServer.v ===== *)
(** The server of [01_processes/signal_handlers/signal_server.c]: accepting
    clients, counting connections, and draining them when a signal arrives.

    Thread 0 is [main]; the others run [handle_client].  A step is one call on
    the mutex or the condition variable, one system call, or the code between
    two of them.  Signals only clear a flag, so their masks are left out. *)
From S2P Require Import Prelude Threads.

Module SignalServer.

Inductive pc : Type :=
(* main *)
| MLoop | MAccept | MShutLock | MShutSet | MShutUnlock | MClose
| MDrainLock | MDrainTest | MDrainWait | MDrainWoken | MDrainUnlock
| MDestroyMutex | MDestroyCond | MExit
(* handle_client *)
| TIncLock | TInc | TIncUnlock | TServe
| TDecLock | TDec | TSignal | TDecUnlock | TEnd.

Record state : Type := mkState {
  shutdown_requested : Z;
  active_connections : Z;
  server_running : Z;
  listening : bool;
  owner : option nat;           (* of the mutex *)
  mutex_alive : bool;
  threads : gmap nat pc;
}.

Inductive choice : Type :=
| Go
| Sig                           (* SIGINT or SIGTERM *)
| Accept (u : nat) (created : bool)   (* a client; was its thread [u] created? *)
| AcceptTimeout | AcceptError
| Recv (msg : list Z) (n : nat) (* [read] returns [msg]; [write] takes [n] bytes of it *)
| Eof                           (* [read] returns 0 or an error *)
| Wake (w : option nat)         (* the waiter a signal wakes *)
| Spurious.

Inductive event : Type :=
| Connected (u : nat)
| Echo (t : nat) (msg reply : list Z)
| Closed (t : nat)
| Drained                       (* main found no active connection *)
| Exited.

Definition set_shutdown (v : Z) (s : state) : state :=
  mkState v (active_connections s) (server_running s) (listening s) (owner s) (mutex_alive s) (threads s).
Definition set_active (v : Z) (s : state) : state :=
  mkState (shutdown_requested s) v (server_running s) (listening s) (owner s) (mutex_alive s) (threads s).
Definition set_running (v : Z) (s : state) : state :=
  mkState (shutdown_requested s) (active_connections s) v (listening s) (owner s) (mutex_alive s) (threads s).
Definition set_listening (b : bool) (s : state) : state :=
  mkState (shutdown_requested s) (active_connections s) (server_running s) b (owner s) (mutex_alive s)
    (threads s).
Definition set_owner (o : option nat) (s : state) : state :=
  mkState (shutdown_requested s) (active_connections s) (server_running s) (listening s) o (mutex_alive s)
    (threads s).
Definition set_alive (b : bool) (s : state) : state :=
  mkState (shutdown_requested s) (active_connections s) (server_running s) (listening s) (owner s) b
    (threads s).
Definition set_threads (m : gmap nat pc) (s : state) : state :=
  mkState (shutdown_requested s) (active_connections s) (server_running s) (listening s) (owner s)
    (mutex_alive s) m.
Definition goto (t : nat) (p : pc) (s : state) : state := set_threads (<[t := p]> (threads s)) s.

Definition result : Type := option (outcome (state * list event)).
Definition ok (s : state) (es : list event) : result := Some (Done (s, es)).

(** Using a mutex that was destroyed is undefined. *)
Definition lock (t : nat) (p : pc) (s : state) : result :=
  if negb (mutex_alive s) then Some (Fault UseAfterFree) else
  match owner s with None => ok (goto t p (set_owner (Some t) s)) [] | Some _ => None end.
Definition unlock (t : nat) (p : pc) (s : state) : result :=
  if negb (mutex_alive s) then Some (Fault UseAfterFree) else ok (goto t p (set_owner None s)) [].

Definition waits_drain (p : pc) : bool := match p with MDrainWait => true | _ => false end.
Definition woken (p : pc) : pc := match p with MDrainWait => MDrainWoken | _ => p end.

Definition signal_handler (s : state) : state := set_running 0 s.

Definition increment_connections (t : nat) (p : pc) (ch : choice) (s : state) : result :=
  match p, ch with
  | TIncLock, Go => lock t TInc s
  | TInc, Go =>
      match int_result (active_connections s + 1) with
      | Done n => ok (goto t TIncUnlock (set_active n s)) []
      | _ => Some (Fault IntOverflow)
      end
  | TIncUnlock, Go => unlock t TServe s
  | _, _ => None
  end.

Definition decrement_connections (t : nat) (p : pc) (ch : choice) (s : state) : result :=
  match p, ch with
  | TDecLock, Go => lock t TDec s
  | TDec, Go =>
      match int_result (active_connections s - 1) with
      | Done n =>
          ok (goto t (if negb (shutdown_requested s =? 0) && (n =? 0) then TSignal else TDecUnlock)
                (set_active n s)) []
      | _ => Some (Fault IntOverflow)
      end
  | TSignal, Wake w =>
      match cond_signal waits_drain woken w (threads s) with
      | Some m => ok (goto t TDecUnlock (set_threads m s)) []
      | None => None
      end
  | TDecUnlock, Go => unlock t TEnd s
  | _, _ => None
  end.

Definition handle_client (t : nat) (p : pc) (ch : choice) (s : state) : result :=
  match p, ch with
  | TServe, Recv msg n =>
      if (0 <? length msg)%nat && (length msg <=? 1024)%nat && (n <=? length msg)%nat
      then ok s [Echo t msg (take n msg)] else None
  | TServe, Eof => ok (goto t TDecLock s) [Closed t]
  | (TIncLock | TInc | TIncUnlock), _ => increment_connections t p ch s
  | (TDecLock | TDec | TSignal | TDecUnlock), _ => decrement_connections t p ch s
  | _, _ => None
  end.

(** The loop of [main] that accepts clients; a new thread has an unused id. *)
Definition accept_loop (t : nat) (p : pc) (ch : choice) (s : state) : result :=
  match p, ch with
  | MLoop, Go => ok (goto t (if server_running s =? 0 then MShutLock else MAccept) s) []
  | MAccept, Accept u created =>
      match threads s !! u with
      | Some _ => None
      | None =>
          if created then ok (goto u TIncLock (goto t MLoop s)) [Connected u]
          else ok (goto t MLoop s) []
      end
  | MAccept, AcceptTimeout => ok (goto t MLoop s) []
  | MAccept, AcceptError => ok (goto t MShutLock s) []
  | _, _ => None
  end.

Definition shutdown_phase (t : nat) (p : pc) (ch : choice) (s : state) : result :=
  match p, ch with
  | MShutLock, Go => lock t MShutSet s
  | MShutSet, Go => ok (goto t MShutUnlock (set_shutdown 1 s)) []
  | MShutUnlock, Go => unlock t MClose s
  | MClose, Go => ok (goto t MDrainLock (set_listening false s)) []
  | MDrainLock, Go => lock t MDrainTest s
  | MDrainTest, Go =>
      if 0 <? active_connections s then unlock t MDrainWait s
      else ok (goto t MDrainUnlock s) [Drained]
  | MDrainWait, Spurious => ok (goto t MDrainWoken s) []
  | MDrainWoken, Go => lock t MDrainTest s
  | MDrainUnlock, Go => unlock t MDestroyMutex s
  | MDestroyMutex, Go =>
      match owner s with
      | None => ok (goto t MDestroyCond (set_alive false s)) []
      | Some _ => Some (Fault UseAfterFree)
      end
  | MDestroyCond, Go => ok (goto t MExit s) [Exited]
  | _, _ => None
  end.

Definition exited (s : state) : bool :=
  match threads s !! 0%nat with Some MExit => true | _ => false end.

(** Once [main] has returned, no thread runs. *)
Definition tstep (t : nat) (ch : choice) (s : state) : result :=
  if exited s then None else
  match threads s !! t, ch with
  | None, _ => None
  | Some _, Sig => ok (signal_handler s) []
  | Some ((MLoop | MAccept) as p), _ => accept_loop t p ch s
  | Some ((MShutLock | MShutSet | MShutUnlock | MClose | MDrainLock | MDrainTest | MDrainWait
          | MDrainWoken | MDrainUnlock | MDestroyMutex | MDestroyCond) as p), _ =>
      shutdown_phase t p ch s
  | Some p, _ => handle_client t p ch s
  end.

Definition step : state → list event → state → Prop := thread_step tstep.

Definition start : state := mkState 0 0 1 true None true {[0%nat := MLoop]}.

End SignalServer.
