(* ===== verification/SignalTheorems.v ===== *)
(** The properties of the signal server: the count of connections, the drain at
    shutdown, and the window in which a client is not counted yet. *)
From S2P Require Import Prelude Threads SignalServer.
Import SignalServer.

(** ** Classes of program points *)

Definition is_main (p : pc) : bool :=
  match p with
  | MLoop | MAccept | MShutLock | MShutSet | MShutUnlock | MClose | MDrainLock | MDrainTest
  | MDrainWait | MDrainWoken | MDrainUnlock | MDestroyMutex | MDestroyCond | MExit => true
  | _ => false
  end.

(** The mutex is held. *)
Definition crit (p : pc) : bool :=
  match p with
  | MShutSet | MShutUnlock | MDrainTest | MDrainUnlock
  | TInc | TIncUnlock | TDec | TSignal | TDecUnlock => true
  | _ => false
  end.

(** Between the increment and the decrement. *)
Definition counted (p : pc) : bool :=
  match p with TIncUnlock | TServe | TDecLock | TDec => true | _ => false end.

(** [main] after it has set [shutdown_requested]. *)
Definition shutting (p : pc) : bool :=
  match p with
  | MShutUnlock | MClose | MDrainLock | MDrainTest | MDrainWait | MDrainWoken | MDrainUnlock
  | MDestroyMutex | MDestroyCond | MExit => true
  | _ => false
  end.

Definition signalling (p : pc) : bool := match p with TSignal => true | _ => false end.
Definition drained (p : pc) : bool := match p with MDrainUnlock => true | _ => false end.

Ltac step_cases ch H :=
  unfold tstep in H;
  match type of H with context [exited ?s] => destruct (exited s) eqn:Hex; [discriminate H|] end;
  let p := fresh "p" in let Hpc := fresh "Hpc" in
  match type of H with context [threads ?s !! ?t] =>
    destruct (threads s !! t) as [p|] eqn:Hpc; [|discriminate H] end;
  destruct p, ch; simpl in H; try discriminate H;
  unfold lock, unlock, ok in H;
  repeat (case_match; try discriminate H); simplify_eq/=;
  repeat match goal with
  | Hs : cond_signal _ _ _ _ = Some _ |- _ =>
      let u := fresh "u" in let pu := fresh "pu" in let Hu := fresh "Hu" in let Hpu := fresh "Hpu" in
      apply cond_signal_spec in Hs as [[-> Hs]|(u & pu & Hu & Hpu & ->)];
      [|destruct pu; try discriminate Hpu]
  end.

(** ** The invariant *)

Record inv (s : state) : Prop := {
  i_mutex : mutex_inv crit (owner s) (threads s);
  i_role : roles is_main (threads s);
  i_count : active_connections s = cnt counted (threads s);
  i_shut : 0 < cnt shutting (threads s) → shutdown_requested s = 1;
  i_wait : 0 < cnt waits_drain (threads s) →
    0 < active_connections s ∨ 0 < cnt signalling (threads s);
  i_drained : 0 < cnt drained (threads s) → active_connections s = 0;
}.

(** At most one thread, [main], waits, has drained, or holds the mutex. *)
Lemma signal_role_step t ch s s' es :
  tstep t ch s = Some (Done (s', es)) → roles is_main (threads s) → roles is_main (threads s').
Proof.
  intros H Hr. pose proof (λ p, Hr t p) as Ht. step_cases ch H; try done;
    specialize (Ht _ eq_refl); simpl in Ht;
    repeat (apply role_update; [|done || (repeat case_match; done)]); try done.
  - apply role_update; [by apply role_update|]. simpl. symmetry. apply bool_decide_false.
    intros ->. rewrite (proj1 (bool_decide_eq_true _) (eq_sym Ht)) in Hpc. congruence.
  - by apply role_update, (Hr _ _ Hu).
Qed.

Lemma signal_mutex_step t ch s s' es :
  tstep t ch s = Some (Done (s', es)) → mutex_inv crit (owner s) (threads s) →
  mutex_inv crit (owner s') (threads s').
Proof.
  intros H Hm. step_cases ch H; note_woken; try solve_mutex Hm.
  - apply mutex_new; [by eapply lookup_insert_none|done|].
    eapply mutex_keep; [eassumption|done|exact Hm].
  - match goal with Ho : owner s = None |- _ => rewrite Ho end.
    eapply mutex_keep; [eassumption|done|exact Hm].
Qed.

(** [active_connections], the flag, and who waits, are right after the step. *)
Definition counts_ok (s : state) : Prop :=
  active_connections s = cnt counted (threads s) ∧
  (0 < cnt shutting (threads s) → shutdown_requested s = 1) ∧
  (0 < cnt waits_drain (threads s) → 0 < active_connections s ∨ 0 < cnt signalling (threads s)) ∧
  (0 < cnt drained (threads s) → active_connections s = 0).

Lemma counts_new s u :
  threads s !! u = None → counts_ok s → counts_ok (goto u TIncLock s).
Proof.
  intros Hu (H1 & H2 & H3 & H4). unfold counts_ok. simpl. rewrite !cnt_insert_new by done.
  simpl. split_and!; lia || done.
Qed.

Lemma counts_goto s t p p' :
  threads s !! t = Some p → counts_ok s → counted p' = counted p → shutting p' = shutting p →
  waits_drain p' = waits_drain p → signalling p' = signalling p → drained p' = drained p →
  counts_ok (goto t p' s).
Proof.
  intros Ht (H1 & H2 & H3 & H4) E1 E2 E3 E4 E5. unfold counts_ok. simpl.
  rewrite !(cnt_update _ _ _ _ p' Ht), E1, E2, E3, E4, E5. split_and!; lia || (intros; lia).
Qed.

Lemma signal_count_step t ch s s' es :
  tstep t ch s = Some (Done (s', es)) → inv s → counts_ok s'.
Proof.
  intros H [Hm Hr Hc Hs Hw Hd].
  pose proof (cnt_nonneg counted (threads s)). pose proof (cnt_nonneg shutting (threads s)).
  pose proof (cnt_nonneg signalling (threads s)). pose proof (cnt_nonneg drained (threads s)).
  pose proof (cnt_le waits_drain shutting (threads s) ltac:(by intros [])).
  pose proof (cnt_main waits_drain (threads s) Hr ltac:(by intros [])).
  assert (Hex1 : ∀ p, threads s !! t = Some p → crit p = true → cnt drained (threads s) = Z.b2z (drained p)).
  { intros p Ht Hp. eapply mutex_exact; [done..|by intros []]. }
  pose proof (cnt_at counted (threads s) t) as Hat.
  step_cases ch H; note_woken;
    pose proof (Hat _ eq_refl); try (pose proof (Hex1 _ eq_refl eq_refl)); clear Hat Hex1;
    repeat match goal with E : int_result _ = Done _ |- _ => apply int_result_inv in E as -> end.
  all: try (apply counts_new; [by eapply lookup_insert_none|]; by eapply counts_goto).
  all: unfold counts_ok; simpl in *; count_threads; simpl in *; split_and!; try done; intros; lia.
Qed.

Lemma signal_start_inv : inv start.
Proof.
  assert (E : ∀ f, f MLoop = false → cnt f (threads start) = 0).
  { intros f Hf. apply cnt_zero. intros t p. simpl. intros [<- <-]%lookup_singleton_Some. done. }
  split; rewrite ?E by done; try done.
  simpl. by intros t p [<- <-]%lookup_singleton_Some.
Qed.

Lemma signal_reachable es s : run step start es s → inv s.
Proof.
  intros Hr. apply (run_state_invariant step inv start es s); [apply signal_start_inv| |done].
  intros s1 es1 s2 Hi Hs. inversion Hs as [t ch ? ? ? H]; subst.
  destruct (signal_count_step _ _ _ _ _ H Hi) as (H1 & H2 & H3 & H4).
  split; [by eapply signal_mutex_step, (i_mutex _ Hi)|by eapply signal_role_step, (i_role _ Hi)|done..].
Qed.

(** ** Properties *)

(** Client 1 connects and sends two bytes; a signal arrives; [main] waits for
    the client. *)
Definition drain_sched : list (nat * choice) :=
  [(0, Go); (0, Accept 1 true); (1, Go); (1, Go); (1, Go); (0, Sig); (0, Go); (0, Go); (0, Go);
   (0, Go); (0, Go); (0, Go); (0, Go)]%nat ++ [(1%nat, Recv [104; 105] 2); (1%nat, Eof)].

Definition drain_state : state :=
  mkState 1 1 0 false None true (<[1%nat := TDecLock]> {[0%nat := MDrainWait]}).

Lemma drain_run : run step start [Connected 1; Echo 1 [104; 105] [104; 105]; Closed 1] drain_state.
Proof. apply (exec_run tstep drain_sched). vm_compute. reflexivity. Qed.

(** C33. In every reachable state [active_connections] is the number of
    connections between their increment and their decrement; when [main]
    leaves the drain loop it is zero and no connection is counted; and while
    [main] sleeps in it some connection is counted, or its wakeup is about to
    be sent: the wakeup of the last connection is not lost. *)
Theorem signal_drain es s :
  run step start es s →
  active_connections s = cnt counted (threads s) ∧
  (threads s !! 0%nat = Some MDrainUnlock →
    ∀ t p, threads s !! t = Some p → counted p = false) ∧
  (threads s !! 0%nat = Some MDrainWait →
    ∃ t p, threads s !! t = Some p ∧ (counted p = true ∨ p = TSignal)).
Proof.
  intros [Hm Hr Hc Hs Hw Hd]%signal_reachable. split_and!; [done|intros H0|intros H0].
  - pose proof (cnt_at drained _ _ _ H0) as Hdr. simpl in Hdr.
    apply cnt_zero. rewrite <- Hc. apply Hd. lia.
  - pose proof (cnt_at waits_drain _ _ _ H0) as Hwt. simpl in Hwt.
    destruct Hw as [Ha|Ha]; [lia| |].
    + rewrite Hc in Ha. apply cnt_pos in Ha as (t & p & Ht & Hp). eauto.
    + apply cnt_pos in Ha as (t & p & Ht & Hp). exists t, p. split; [done|].
      right. by destruct p.
Qed.

Lemma signal_drain_witness :
  1 = cnt counted (threads drain_state) ∧
  (threads drain_state !! 0%nat = Some MDrainUnlock →
    ∀ t p, threads drain_state !! t = Some p → counted p = false) ∧
  (threads drain_state !! 0%nat = Some MDrainWait →
    ∃ t p, threads drain_state !! t = Some p ∧ (counted p = true ∨ p = TSignal)).
Proof. exact (signal_drain _ drain_state drain_run). Defined.

(** [main] and a client whose thread was created but has not run. *)
Definition late_sched : list (nat * choice) :=
  [(0, Go); (0, Accept 1 true); (0, Sig); (0, Go); (0, Go); (0, Go); (0, Go); (0, Go); (0, Go);
   (0, Go); (0, Go); (0, Go)]%nat.

(** A client is counted by its own thread, after it was accepted: a signal
    in between makes [main] find no active connection and exit with the client
    connected and never served, or, when its thread runs just before the exit,
    makes the thread lock a mutex that was destroyed. *)
Theorem signal_drops_client :
  (λ '(s, es), (es, threads s !! 1%nat)) <$> exec tstep (late_sched ++ [(0%nat, Go)]) start =
    Some ([Connected 1; Drained; Exited], Some TIncLock) ∧
  (λ '(s, _), tstep 1 Go s) <$> exec tstep late_sched start = Some (Some (Fault UseAfterFree)).
Proof. split; vm_compute; reflexivity. Qed.
