(* ===== verification/EchoServer.v ===== *)
(** The echo servers of [04_networking/tcp_echo_server]: the loop that writes a
    chunk back in [server_threaded.c], and the event loop of [server_epoll.c].
    What the system calls answer is an input of each turn of the loop. *)
From S2P Require Import Prelude.

Definition BUFFER_SIZE : Z := 4096.

(** ** [server_threaded.c] *)
Module Threaded.

(** [while (bytes_written < bytes_read)] with the results of [write]; the part
    of the chunk that was sent and the results that are left. *)
Fixpoint write_loop (ws : list Z) (chunk : list Z) (bytes_written : Z) : outcome (list Z * list Z) :=
  if Z.of_nat (length chunk) <=? bytes_written
  then Done (take (Z.to_nat bytes_written) chunk, ws) else
  match ws with
  | [] => NoFuel
  | n :: ws =>
      if n <=? 0 then Done (take (Z.to_nat bytes_written) chunk, ws)
      else write_loop ws chunk (bytes_written + n)
  end.

(** The chunks [read] returned until the connection ended, and what was sent
    for each of them. *)
Fixpoint handle_client (chunks : list (list Z)) (ws : list Z) : outcome (list (list Z)) :=
  match chunks with
  | [] => Done []
  | chunk :: chunks =>
      r ← write_loop ws chunk 0;
      let '(sent, ws) := r in
      l ← handle_client chunks ws;
      Done (sent :: l)
  end.

End Threaded.

(** ** [server_epoll.c] *)
Module Poll.

Definition MAX_CLIENTS : Z := 10000.

Record revents : Type := mkRevents { pollin : bool; pollhup_err : bool }.

(** [client_t]; [has_buffer]: was its buffer allocated? *)
Record client : Type := mkClient { buffer : list Z; has_buffer : bool }.

(** [fds[i]] and [clients[i]], for [i] from 1 on. *)
Record slot : Type := mkSlot { fd : Z; slot_revents : revents; slot_client : option client }.

Record server : Type := mkServer { slots : list slot; active_clients : Z }.

(** Slot [i] received, sent, was closed; a connection was put into slot [i], or
    refused. *)
Inductive event : Type :=
| Recv (i : nat) (l : list Z)
| Sent (i : nat) (l : list Z)
| Closed (i : nat)
| Opened (i : nat)
| Refused.

(** A connection [accept] returns: is it made nonblocking, are its structure
    and its buffer allocated, and what [fds[nfds].revents] holds: the memory
    was never written, and [poll] has already returned. *)
Record accepted : Type := mkAccepted {
  a_fd : Z; a_nonblocking : bool; a_client : bool; a_buffer : bool; a_revents : revents;
}.

(** What [read] and [write] answer for a slot: the bytes, or [None] for end of
    file and errors; the number of bytes taken. *)
Record io : Type := mkIo { in_data : option (list Z); out_count : Z }.

Definition nfds (s : server) : Z := 1 + Z.of_nat (length (slots s)).

Definition accept_one (a : accepted) (s : server) : outcome (server * list event) :=
  if negb (a_nonblocking a) then Done (s, [Refused]) else
  if nfds s <? MAX_CLIENTS then
    if negb (a_client a) then Fault NullDeref else
    Done (mkServer (slots s ++ [mkSlot (a_fd a) (a_revents a) (Some (mkClient [] (a_buffer a)))])
            (active_clients s + 1), [Opened (length (slots s))])
  else Done (s, [Refused]).

Fixpoint accept_all (l : list accepted) (s : server) : outcome (server * list event) :=
  match l with
  | [] => Done (s, [])
  | a :: l =>
      r ← accept_one a s;
      let '(s, es) := r in
      r ← accept_all l s;
      let '(s, es') := r in
      Done (s, es ++ es')
  end.

(** [read(fd, buffer + len, capacity - len)]: the bytes, or [None] for a result
    that is not positive: end of file, an error, no room, or no buffer. *)
Definition read_slot (o : io) (c : client) : option (list Z) :=
  let room := (Z.to_nat BUFFER_SIZE - length (buffer c))%nat in
  if negb (has_buffer c) then None else
  match in_data o with
  | None => None
  | Some l => match take room l with [] => None | l' => Some l' end
  end.

(** The answer of [write] for [n] bytes, if positive. *)
Definition write_count (o : io) (n : nat) : nat := Nat.min n (Z.to_nat (out_count o)).

Definition close_slot (i : nat) (sl : slot) : slot * list event * Z :=
  (mkSlot (-1) (slot_revents sl) None, [Closed i], -1).

(** The body of the loop over the client sockets: the slot, what happened, and
    the change of [active_clients]. *)
Definition slot_step (i : nat) (o : io) (sl : slot) : slot * list event * Z :=
  if fd sl <? 0 then (sl, [], 0) else
  match slot_client sl with
  | None => (sl, [], 0)
  | Some c =>
      let '(read, c') :=
        if pollin (slot_revents sl) then
          match read_slot o c with
          | Some l => (Some l, Some (mkClient (buffer c ++ l) (has_buffer c)))
          | None => (None, None)
          end
        else (None, Some c) in
      let recv := match read with Some l => [Recv i l] | None => [] end in
      match c' with
      | None => close_slot i sl
      | Some c =>
          if pollhup_err (slot_revents sl) then
            let '(sl, es, d) := close_slot i sl in (sl, recv ++ es, d)
          else
            let n := write_count o (length (buffer c)) in
            (mkSlot (fd sl) (slot_revents sl) (Some (mkClient (drop n (buffer c)) (has_buffer c))),
             recv ++ (if (0 <? n)%nat then [Sent i (take n (buffer c))] else []), 0)
      end
  end.

Fixpoint scan (i : nat) (ios : nat → io) (l : list slot) : list slot * list event * Z :=
  match l with
  | [] => ([], [], 0)
  | sl :: l =>
      let '(sl, es, d) := slot_step i (ios i) sl in
      let '(l, es', d') := scan (S i) ios l in
      (sl :: l, es ++ es', d + d')
  end.

(** What one turn of the event loop meets: [poll]'s answer for the listening
    socket and the slots, the connections, and the sockets. *)
Record turn : Type := mkTurn {
  t_listen : bool; t_revents : nat → revents; t_accepted : list accepted; t_io : nat → io;
}.

Definition poll (t : turn) (s : server) : server :=
  mkServer (imap (λ i sl, mkSlot (fd sl) (t_revents t i) (slot_client sl)) (slots s)) (active_clients s).

Definition iterate (t : turn) (s : server) : outcome (server * list event) :=
  let s := poll t s in
  r ← (if t_listen t then accept_all (t_accepted t) s else Done (s, []));
  let '(s, es) := r in
  let '(l, es', d) := scan 0 (t_io t) (slots s) in
  Done (mkServer l (active_clients s + d), es ++ es').

Fixpoint event_loop (ts : list turn) (s : server) : outcome (server * list event) :=
  match ts with
  | [] => Done (s, [])
  | t :: ts =>
      r ← iterate t s;
      let '(s, es) := r in
      r ← event_loop ts s;
      let '(s, es') := r in
      Done (s, es ++ es')
  end.

(** The slots closed when the loop ends. *)
Fixpoint cleanup (i : nat) (l : list slot) : list event :=
  match l with
  | [] => []
  | sl :: l => (if 0 <=? fd sl then [Closed i] else []) ++ cleanup (S i) l
  end.

Definition start : server := mkServer [] 0.

End Poll.
