(* ===== verification/EchoTheorems.v ===== *)
(** The properties of the echo servers: what is sent back is what was received,
    in order; when bytes are lost; and how many connections are served. *)
From S2P Require Import Prelude EchoServer.

(** ** [server_threaded.c] *)

Import Threaded.

Lemma write_loop_prefix chunk ws : ∀ n sent ws',
  write_loop ws chunk n = Done (sent, ws') → sent `prefix_of` chunk.
Proof.
  induction ws as [|k ws IH]; intros n sent ws'; simpl; destruct (_ <=? n); try done;
    try (intros [= <- <-]; by apply prefix_take).
  destruct (k <=? 0); [intros [= <- <-]; by apply prefix_take|apply IH].
Qed.

(** Positive results: the whole chunk is sent, with at most one call a byte. *)
Lemma write_loop_whole chunk ws : ∀ n,
  Forall (λ k, 0 < k) ws → 0 ≤ n → Z.of_nat (length chunk) - n ≤ Z.of_nat (length ws) →
  ∃ ws', write_loop ws chunk n = Done (chunk, ws') ∧ Forall (λ k, 0 < k) ws' ∧
    Z.of_nat (length ws) - Z.of_nat (length ws') ≤ Z.max 0 (Z.of_nat (length chunk) - n).
Proof.
  induction ws as [|k ws IH]; intros n Hws Hn Hl; simpl in *;
    (destruct (Z.leb_spec (Z.of_nat (length chunk)) n) as [Hle|Hlt];
      [rewrite take_ge by lia; eexists; split_and!; [done|done|simpl; lia]|]); [lia|].
  inversion_clear Hws as [|? ? Hk Hks]. cmp_step.
  destruct (IH (n + k) Hks ltac:(lia) ltac:(lia)) as (ws' & E & H1 & H2).
  exists ws'. split_and!; [done|done|lia].
Qed.

(** What each connection gets back is a prefix of each chunk it sent, and all
    of it when no [write] fails. *)
Theorem threaded_echo chunks ws :
  (∀ l, handle_client chunks ws = Done l → Forall2 prefix l chunks) ∧
  (Forall (λ k, 0 < k) ws → (length (mjoin chunks) ≤ length ws)%nat →
    handle_client chunks ws = Done chunks).
Proof.
  revert ws. induction chunks as [|c cs IH]; intros ws; simpl.
  { split; [|done]. intros l [= <-]. constructor. }
  split.
  - intros l H. destruct (write_loop ws c 0) as [[sent ws']| |] eqn:E; try done. simpl in H.
    destruct (handle_client cs ws') as [l'| |] eqn:E'; try done. simpl in H. simplify_eq.
    constructor; [by eapply write_loop_prefix|by eapply (proj1 (IH ws'))].
  - intros Hws Hl. rewrite length_app in Hl.
    destruct (write_loop_whole c ws 0 Hws ltac:(lia) ltac:(lia)) as (ws' & -> & Hws' & Hlen). simpl.
    rewrite (proj2 (IH ws') Hws' ltac:(lia)). done.
Qed.

(** ** [server_epoll.c] *)

Import Poll.

Definition recvd (i : nat) (es : list event) : list Z :=
  mjoin (omap (λ e, match e with Recv j l => if decide (i = j) then Some l else None | _ => None end) es).
Definition sent (i : nat) (es : list event) : list Z :=
  mjoin (omap (λ e, match e with Sent j l => if decide (i = j) then Some l else None | _ => None end) es).
Definition opened (es : list event) : list nat :=
  omap (λ e, match e with Opened i => Some i | _ => None end) es.

Lemma recvd_app i es es' : recvd i (es ++ es') = recvd i es ++ recvd i es'.
Proof. unfold recvd. by rewrite omap_app, join_app. Qed.
Lemma sent_app i es es' : sent i (es ++ es') = sent i es ++ sent i es'.
Proof. unfold sent. by rewrite omap_app, join_app. Qed.
Lemma opened_app es es' : opened (es ++ es') = opened es ++ opened es'.
Proof. apply omap_app. Qed.

Definition is_open (sl : slot) : Z := Z.b2z (0 <=? fd sl).

(** A slot with what it received ([R]) and sent ([S]) so far. *)
Definition slot_inv (R S : list Z) (sl : slot) : Prop :=
  match slot_client sl with
  | Some c => 0 ≤ fd sl ∧ R = S ++ buffer c ∧ Z.of_nat (length (buffer c)) ≤ BUFFER_SIZE
  | None => fd sl = -1 ∧ S `prefix_of` R
  end.

Lemma read_slot_room o c l :
  read_slot o c = Some l → Z.of_nat (length (buffer c)) ≤ BUFFER_SIZE →
  Z.of_nat (length (buffer c ++ l)) ≤ BUFFER_SIZE.
Proof.
  unfold read_slot. intros H Hb. destruct (has_buffer c); [|done]. destruct (in_data o) as [l0|]; [|done].
  destruct (take _ l0) as [|x l1] eqn:E; [done|]. simpl in H. injection H as <-.
  rewrite length_app, <- E, length_take. unfold BUFFER_SIZE in *. lia.
Qed.

(** Events of slot [i] only, none of which opens a slot. *)
Definition only (i : nat) (es : list event) : Prop :=
  (∀ j, j ≠ i → recvd j es = [] ∧ sent j es = []) ∧ opened es = [].

Lemma only_nil i : only i [].
Proof. done. Qed.
Lemma only_app i es es' : only i es → only i es' → only i (es ++ es').
Proof.
  intros [H1 H2] [H3 H4]. split; [|by rewrite opened_app, H2, H4].
  intros j Hj. rewrite recvd_app, sent_app. destruct (H1 j Hj) as [-> ->], (H3 j Hj) as [-> ->]. done.
Qed.
Lemma only_one i e : e = Closed i ∨ (∃ l, e = Recv i l) ∨ (∃ l, e = Sent i l) → only i [e].
Proof.
  intros [-> |[[l ->]|[l ->]]]; (split; [|done]); intros j Hj; unfold recvd, sent; simpl; try done;
    by rewrite decide_False by done.
Qed.

Lemma recvd_recv i l : recvd i [Recv i l] = l.
Proof. unfold recvd. simpl. rewrite decide_True by done. apply app_nil_r. Qed.
Lemma sent_sent i l : sent i [Sent i l] = l.
Proof. unfold sent. simpl. rewrite decide_True by done. apply app_nil_r. Qed.

(** A slot that reads [l] (or nothing) keeps the invariant, with the events of
    that read. *)
Definition read_event (i : nat) (read : option (list Z)) : list event :=
  match read with Some l => [Recv i l] | None => [] end.

Lemma read_event_spec i read :
  recvd i (read_event i read) = default [] read ∧ sent i (read_event i read) = [] ∧
  only i (read_event i read).
Proof.
  destruct read as [l|]; [|done]. split_and!; [apply recvd_recv|done|].
  apply only_one. right. left. by eexists.
Qed.

(** The rest of the body, once the slot has read: close it, or write back. *)
Definition after_read (i : nat) (o : io) (sl : slot) (read : option (list Z)) (c : client) :
    slot * list event * Z :=
  if pollhup_err (slot_revents sl) then
    let '(sl, es, d) := close_slot i sl in (sl, read_event i read ++ es, d)
  else
    let n := write_count o (length (buffer c)) in
    (mkSlot (fd sl) (slot_revents sl) (Some (mkClient (drop n (buffer c)) (has_buffer c))),
     read_event i read ++ (if (0 <? n)%nat then [Sent i (take n (buffer c))] else []), 0).

Lemma after_read_spec i o sl read c sl' es d R S :
  after_read i o sl read c = (sl', es, d) → 0 ≤ fd sl →
  R ++ default [] read = S ++ buffer c → Z.of_nat (length (buffer c)) ≤ BUFFER_SIZE →
  slot_inv (R ++ recvd i es) (S ++ sent i es) sl' ∧ d = is_open sl' - is_open sl ∧ only i es.
Proof.
  intros H Hfd HR Hb. destruct (read_event_spec i read) as (E1 & E2 & E3).
  unfold after_read, close_slot in H. unfold is_open.
  destruct (pollhup_err _); simplify_eq/=; rewrite ?recvd_app, ?sent_app, E1, E2.
  - rewrite (proj2 (Z.leb_le 0 (fd sl)) Hfd). split_and!; [|done|].
    + unfold slot_inv. simpl. split; [done|]. unfold recvd, sent. simpl.
      rewrite !app_nil_r, HR. by apply prefix_app_r.
    + apply only_app; [done|]. apply only_one. by left.
  - set (n := write_count o (length (buffer c))). split_and!; [|lia|].
    + unfold slot_inv. simpl. split_and!; [done| |rewrite length_drop; lia].
      destruct (Nat.ltb_spec 0 n) as [Hn|Hn].
      * rewrite sent_sent. unfold recvd. simpl. rewrite app_nil_r, HR, <- app_assoc.
        by rewrite take_drop.
      * replace n with 0%nat by lia. unfold recvd, sent. simpl. by rewrite !app_nil_r, drop_0.
    + apply only_app; [done|]. destruct (0 <? n)%nat; [|done]. apply only_one.
      right. right. by eexists.
Qed.

Lemma slot_step_spec i o sl sl' es d R S :
  slot_step i o sl = (sl', es, d) → slot_inv R S sl →
  slot_inv (R ++ recvd i es) (S ++ sent i es) sl' ∧ d = is_open sl' - is_open sl ∧ only i es.
Proof.
  unfold slot_step. intros H Hi. pose proof Hi as Hi'. unfold slot_inv in Hi'.
  assert (Hsame : slot_inv (R ++ recvd i []) (S ++ sent i []) sl).
  { unfold recvd, sent. simpl. by rewrite !app_nil_r. }
  destruct (Z.ltb_spec (fd sl) 0) as [Hneg|Hpos].
  { simplify_eq. split_and!; [done|lia|done]. }
  destruct (slot_client sl) as [c|] eqn:Ec; [|simplify_eq; split_and!; [done|lia|done]].
  destruct Hi' as (Hfd & HR & Hb). destruct (pollin (slot_revents sl)).
  - destruct (read_slot o c) as [l|] eqn:Er.
    + eapply (after_read_spec i o sl (Some l)); [exact H|done| |by eapply read_slot_room].
      simpl. by rewrite HR, <- app_assoc.
    + unfold close_slot in H. simplify_eq/=. split_and!.
      * unfold slot_inv. simpl. split; [done|]. unfold recvd, sent. simpl. rewrite !app_nil_r.
        by apply prefix_app_r.
      * unfold is_open. simpl. by rewrite (proj2 (Z.leb_le 0 (fd sl)) Hfd).
      * apply only_one. by left.
  - eapply (after_read_spec i o sl None); [exact H|done| |done]. simpl. by rewrite app_nil_r.
Qed.

Definition total (l : list slot) : Z := foldr (λ sl n, is_open sl + n) 0 l.

Lemma total_app l l' : total (l ++ l') = total l + total l'.
Proof. unfold total. induction l as [|sl l IH]; simpl; [done|]. lia. Qed.

(** The slots of [l], the first of which is number [i], with the history [es]. *)
Definition slots_inv (i : nat) (l : list slot) (es : list event) : Prop :=
  ∀ k sl, l !! k = Some sl → slot_inv (recvd (i + k) es) (sent (i + k) es) sl.

Lemma slots_inv_cons i sl l es :
  slots_inv i (sl :: l) es ↔ slot_inv (recvd i es) (sent i es) sl ∧ slots_inv (S i) l es.
Proof.
  split.
  - intros H. split; [specialize (H 0%nat sl eq_refl); by rewrite Nat.add_0_r in H|].
    intros k sl' Hk. specialize (H (S k) sl' Hk). by rewrite Nat.add_succ_r in H.
  - intros [H1 H2] [|k] sl' Hk; simplify_eq/=; [by rewrite Nat.add_0_r|].
    rewrite Nat.add_succ_r. by apply H2.
Qed.

(** Events that concern no slot of [l]. *)
Lemma slots_inv_app i l es es' :
  (∀ j, (i ≤ j)%nat → recvd j es' = [] ∧ sent j es' = []) →
  slots_inv i l es → slots_inv i l (es ++ es').
Proof.
  intros H Hl k sl Hk. destruct (H (i + k)%nat ltac:(lia)) as [E1 E2].
  rewrite recvd_app, sent_app, E1, E2, !app_nil_r. by apply Hl.
Qed.

Lemma scan_spec ios l : ∀ i l' es d es0,
  scan i ios l = (l', es, d) → slots_inv i l es0 →
  slots_inv i l' (es0 ++ es) ∧ length l' = length l ∧ d = total l' - total l ∧
  (∀ j, (j < i ∨ i + length l ≤ j)%nat → recvd j es = [] ∧ sent j es = []) ∧ opened es = [].
Proof.
  induction l as [|sl l IH]; intros i l' es d es0 H Hl; simpl in H.
  { simplify_eq. rewrite app_nil_r. done. }
  destruct (slot_step i (ios i) sl) as [[sl' e1] d1] eqn:E1.
  destruct (scan (S i) ios l) as [[l2 e2] d2] eqn:E2. simplify_eq/=.
  apply slots_inv_cons in Hl as [Hsl Hl].
  destruct (slot_step_spec _ _ _ _ _ _ _ _ E1 Hsl) as (Hsl' & -> & Ho & Hop).
  assert (Hl1 : slots_inv (S i) l (es0 ++ e1)).
  { apply slots_inv_app; [|done]. intros j Hj. apply Ho. lia. }
  destruct (IH _ _ _ _ _ E2 Hl1) as (Hl2 & Hlen & -> & Hout & Hop2).
  destruct (Hout i) as [Ei1 Ei2]; [lia|]. rewrite app_assoc. split_and!.
  - apply slots_inv_cons. split; [|done].
    by rewrite !recvd_app, !sent_app, Ei1, Ei2, !app_nil_r.
  - simpl. lia.
  - simpl. lia.
  - intros j Hj. rewrite recvd_app, sent_app. destruct (Ho j) as [-> ->]; [lia|]. apply Hout. lia.
  - by rewrite opened_app, Hop, Hop2.
Qed.

(** ** The invariant of the event loop *)

Record server_inv (s : server) (es : list event) : Prop := {
  s_slots : slots_inv 0 (slots s) es;
  s_unused : ∀ k, (length (slots s) ≤ k)%nat → recvd k es = [] ∧ sent k es = [];
  s_active : active_clients s = total (slots s);
  s_max : nfds s ≤ MAX_CLIENTS;
  s_opened : opened es = seq 0 (length (slots s));
}.

Lemma no_data_app s es e :
  server_inv s es → (∀ j, recvd j [e] = [] ∧ sent j [e] = []) → opened [e] = [] →
  server_inv s (es ++ [e]).
Proof.
  intros [H1 H2 H3 H4 H5] He Ho. split; [|..|done|done|by rewrite opened_app, Ho, app_nil_r].
  - apply slots_inv_app; [|done]. intros j _. apply He.
  - intros k Hk. rewrite recvd_app, sent_app. destruct (He k) as [-> ->], (H2 k Hk) as [-> ->]. done.
Qed.

Lemma accept_one_inv a s s' es es' :
  0 ≤ a_fd a → accept_one a s = Done (s', es') → server_inv s es → server_inv s' (es ++ es').
Proof.
  unfold accept_one. intros Hfd H Hi. destruct (negb (a_nonblocking a)).
  { simplify_eq. by apply no_data_app. }
  destruct (Z.ltb_spec (nfds s) MAX_CLIENTS) as [Hlt|]; [|simplify_eq; by apply no_data_app].
  destruct (negb (a_client a)); simplify_eq. destruct Hi as [H1 H2 H3 H4 H5].
  unfold nfds in *. split; simpl; rewrite ?length_app; simpl.
  - intros k sl Hk. simpl. rewrite recvd_app, sent_app. unfold recvd at 2, sent at 2. simpl.
    rewrite !app_nil_r. destruct (decide (k = length (slots s))) as [->|Hne].
    + rewrite list_lookup_middle in Hk by done. simplify_eq. unfold slot_inv. simpl.
      destruct (H2 (length (slots s)) ltac:(lia)) as [-> ->]. done.
    + pose proof (lookup_lt_Some _ _ _ Hk) as Hlen. rewrite length_app in Hlen. simpl in Hlen.
      rewrite lookup_app_l in Hk by lia. by apply (H1 k).
  - intros k Hk. rewrite recvd_app, sent_app. unfold recvd at 2, sent at 2. simpl.
    rewrite !app_nil_r. apply H2. lia.
  - rewrite total_app, H3. unfold total at 3. cbn [foldr]. unfold is_open. cbn [fd].
    rewrite (proj2 (Z.leb_le 0 (a_fd a)) Hfd). simpl. lia.
  - unfold nfds. simpl. rewrite length_app. simpl. lia.
  - rewrite opened_app, H5, seq_app. done.
Qed.

Lemma accept_all_inv l : ∀ s s' es es',
  Forall (λ a, 0 ≤ a_fd a) l → accept_all l s = Done (s', es') → server_inv s es →
  server_inv s' (es ++ es').
Proof.
  induction l as [|a l IH]; intros s s' es es' Hl H Hi; simpl in H.
  { simplify_eq. by rewrite app_nil_r. }
  inversion_clear Hl as [|? ? Ha Hl']. destruct (accept_one a s) as [[s1 e1]| |] eqn:E1; try done.
  simpl in H. destruct (accept_all l s1) as [[s2 e2]| |] eqn:E2; try done. simplify_eq/=.
  rewrite app_assoc. eapply IH; [done|exact E2|]. by eapply accept_one_inv.
Qed.

Lemma poll_inv t s es : server_inv s es → server_inv (poll t s) es.
Proof.
  intros [H1 H2 H3 H4 H5]. unfold nfds in *.
  split; simpl; rewrite ?length_imap; try done.
  - intros k sl Hk. rewrite list_lookup_imap in Hk. destruct (slots s !! k) as [sl0|] eqn:E; [|done].
    simplify_eq/=. by apply (H1 k sl0).
  - rewrite H3. clear. revert t. generalize (slots s). intros l t.
    assert (H : ∀ f : nat → revents, total l =
      total (imap (λ i sl, mkSlot (fd sl) (f i) (slot_client sl)) l)); [|apply H].
    induction l as [|sl l IH]; intros f; [done|]. simpl. rewrite (IH (f ∘ S)). done.
  - unfold nfds. simpl. by rewrite length_imap.
Qed.

Lemma iterate_inv t s s' es es' :
  Forall (λ a, 0 ≤ a_fd a) (t_accepted t) → iterate t s = Done (s', es') → server_inv s es →
  server_inv s' (es ++ es').
Proof.
  unfold iterate. intros Ha H Hi. apply (poll_inv t) in Hi.
  destruct (if t_listen t then _ else _) as [[s1 e1]| |] eqn:E1; try done. simpl in H.
  assert (Hi1 : server_inv s1 (es ++ e1)).
  { destruct (t_listen t); [by eapply accept_all_inv|]. simplify_eq. by rewrite app_nil_r. }
  destruct (scan 0 (t_io t) (slots s1)) as [[l e2] d] eqn:E2. simplify_eq/=.
  destruct Hi1 as [H1 H2 H3 H4 H5]. unfold nfds in *. rewrite app_assoc.
  destruct (scan_spec _ _ _ _ _ _ _ E2 H1) as (Hl & Hlen & -> & Hout & Hop).
  split; simpl; rewrite ?Hlen; [done| |lia|unfold nfds; simpl; by rewrite Hlen|].
  - intros k Hk. rewrite recvd_app, sent_app. destruct (Hout k) as [-> ->]; [lia|].
    destruct (H2 k Hk) as [-> ->]. done.
  - by rewrite opened_app, H5, Hop, app_nil_r.
Qed.

Lemma event_loop_inv ts : ∀ s s' es es',
  Forall (λ t, Forall (λ a, 0 ≤ a_fd a) (t_accepted t)) ts → event_loop ts s = Done (s', es') →
  server_inv s es → server_inv s' (es ++ es').
Proof.
  induction ts as [|t ts IH]; intros s s' es es' Hts H Hi; simpl in H.
  { simplify_eq. by rewrite app_nil_r. }
  inversion_clear Hts as [|? ? Ht Hts']. destruct (iterate t s) as [[s1 e1]| |] eqn:E1; try done.
  simpl in H. destruct (event_loop ts s1) as [[s2 e2]| |] eqn:E2; try done. simplify_eq/=.
  rewrite app_assoc. eapply IH; [done|exact E2|]. by eapply iterate_inv.
Qed.

Lemma start_server_inv : server_inv start [].
Proof. split; try done. Qed.

Lemma server_sent_prefix s es i : server_inv s es → sent i es `prefix_of` recvd i es.
Proof.
  intros [H1 H2 _ _ _]. destruct (slots s !! i) as [sl|] eqn:Hi.
  - specialize (H1 i sl Hi). unfold slot_inv in H1. simpl in H1. destruct (slot_client sl) as [c|].
    + destruct H1 as (_ & -> & _). by apply prefix_app_r.
    + by destruct H1.
  - apply lookup_ge_None in Hi. destruct (H2 i Hi) as [_ ->]. apply prefix_nil.
Qed.

(** ** Properties *)

(** Turns of the loop: a connection is accepted; two bytes are read and one is
    written back; the other one is. *)
Definition no_revents : revents := mkRevents false false.
Definition demo_turns : list turn :=
  [mkTurn true (λ _, no_revents) [mkAccepted 5 true true true no_revents] (λ _, mkIo None 0);
   mkTurn false (λ _, mkRevents true false) [] (λ _, mkIo (Some [104; 105]) 1)].
Definition demo_server : server :=
  mkServer [mkSlot 5 (mkRevents true false) (Some (mkClient [105] true))] 1.
Definition demo_echo : list event := [Opened 0; Recv 0 [104; 105]; Sent 0 [104]].

(** C34. Whatever [poll], [accept] (a descriptor is not negative), [read] and
    [write] answer: each open
    connection was sent exactly what it sent, in order, but for what its
    buffer still holds, at most [BUFFER_SIZE] bytes; a closed one was sent a
    prefix of it; [active_clients] is the number of open slots; and as no slot
    is used twice, fewer than [MAX_CLIENTS] connections are ever served. *)
Theorem poll_echo ts s es :
  Forall (λ t, Forall (λ a, 0 ≤ a_fd a) (t_accepted t)) ts → event_loop ts start = Done (s, es) →
  (∀ i sl c, slots s !! i = Some sl → slot_client sl = Some c →
    recvd i es = sent i es ++ buffer c ∧ Z.of_nat (length (buffer c)) ≤ BUFFER_SIZE) ∧
  (∀ i, sent i es `prefix_of` recvd i es) ∧
  active_clients s = Z.of_nat (length (filter (λ sl, 0 ≤ fd sl) (slots s))) ∧
  Z.of_nat (length (opened es)) < MAX_CLIENTS.
Proof.
  intros Hts H. destruct (event_loop_inv _ _ _ _ _ Hts H start_server_inv) as [H1 H2 H3 H4 H5].
  pose proof (event_loop_inv _ _ _ _ _ Hts H start_server_inv) as Hinv.
  simpl in *. split_and!.
  - intros i sl c Hi Hc. specialize (H1 i sl Hi). unfold slot_inv in H1. rewrite Hc in H1.
    destruct H1 as (_ & ? & ?). done.
  - intros i. by eapply server_sent_prefix.
  - rewrite H3. unfold total, is_open. clear. induction (slots s) as [|sl l IH]; [done|]. simpl.
    rewrite IH. destruct (decide (0 ≤ fd sl)) as [Hle|Hgt].
    + rewrite filter_cons_True, (proj2 (Z.leb_le _ _) Hle) by done. simpl length. simpl Z.b2z. lia.
    + rewrite filter_cons_False by done. cmp_step. simpl. lia.
  - rewrite H5, length_seq. unfold nfds in H4. lia.
Qed.

Lemma poll_echo_witness :
  (∀ i sl c, slots demo_server !! i = Some sl → slot_client sl = Some c →
    recvd i demo_echo = sent i demo_echo ++ buffer c ∧ Z.of_nat (length (buffer c)) ≤ BUFFER_SIZE) ∧
  (∀ i, sent i demo_echo `prefix_of` recvd i demo_echo) ∧
  1 = Z.of_nat (length (filter (λ sl, 0 ≤ fd sl) (slots demo_server))) ∧
  Z.of_nat (length (opened demo_echo)) < MAX_CLIENTS.
Proof.
  apply (poll_echo demo_turns demo_server demo_echo); [|vm_compute; reflexivity].
  repeat constructor; simpl; lia.
Defined.

(** What happens in a run of the loop. *)
Definition events_of (ts : list turn) : outcome (list event) :=
  r ← event_loop ts start; Done r.2.

Definition turn_of (r : revents) (data : option (list Z)) (n : Z) : turn :=
  mkTurn false (λ _, r) [] (λ _, mkIo data n).
Definition accept_turn (r : revents) : turn :=
  mkTurn true (λ _, no_revents) [mkAccepted 5 true true true r] (λ _, mkIo None 0).

(** A connection whose buffer is full is closed at its next byte, because
    [read] into no room returns 0: what it was not sent yet is lost.  And a
    connection is closed as it is accepted when the memory of its [revents],
    which is looked at before [poll] writes it, happens to say POLLIN. *)
Theorem poll_full_buffer_closes :
  events_of [accept_turn no_revents;
      turn_of (mkRevents true false) (Some (replicate 4096 7)) 0;
      turn_of (mkRevents true false) (Some [8]) 4096] =
    Done [Opened 0; Recv 0 (replicate 4096 7); Closed 0] ∧
  events_of [accept_turn (mkRevents true false)] = Done [Opened 0; Closed 0].
Proof. split; vm_compute; reflexivity. Qed.
