(* ===== verification/ThreadedServer.v ===== *)
(** The threads of [04_networking/tcp_echo_server/server_threaded.c]: [main]
    accepts connections and counts each one after it has created its handler;
    the handler echoes and uncounts it.

    Thread 0 is [main]; the others run [handle_client].  A step is one call on
    the mutex, one access to [active_clients], one call of [printf], one turn of
    a loop, or the code between two of them. The handler of SIGINT calls
    [printf], which is undefined when it interrupts a function that is not
    async-signal-safe. *)
From S2P Require Import Prelude Threads EchoServer EchoTheorems.

Module ThreadedServer.

Inductive pc : Type :=
(* main *)
| MLoop | MAccept | MDestroyAttr | MLock | MLoad | MStore (v : Z) | MTest | MPrint | MUnlock
| MClose | MSleep | MFinLock | MFinPrint | MFinUnlock | MExit
(* handle_client *)
| HLoop | HRead | HClose | HLock | HLoad | HStore (v : Z) | HUnlock | HEnd.

Record state : Type := mkState {
  running : Z;
  active_clients : Z;
  listening : bool;
  attrs : Z;                    (* thread attributes that were not destroyed *)
  owner : option nat;           (* of [client_count_lock] *)
  threads : gmap nat pc;
}.

Inductive choice : Type :=
| Go
| Sig                           (* SIGINT *)
| Accept (u : nat) (created : bool)   (* a client; was its thread [u] created? *)
| AcceptError                   (* EINTR or another error *)
| Recv (chunk : list Z) (ws : list Z) (* [read] returns [chunk], [write] the numbers [ws] *)
| Eof.                          (* [read] returns 0 or an error *)

Inductive event : Type :=
| Connected (u : nat)
| Echo (t : nat) (chunk sent : list Z)
| Closed (t : nat)
| CreateFailed                  (* the message of [pthread_create] *)
| Active (n : Z)                (* the message every ten clients *)
| Final (n : Z).

Definition set_running (v : Z) (s : state) : state :=
  mkState v (active_clients s) (listening s) (attrs s) (owner s) (threads s).
Definition set_active (v : Z) (s : state) : state :=
  mkState (running s) v (listening s) (attrs s) (owner s) (threads s).
Definition set_listening (b : bool) (s : state) : state :=
  mkState (running s) (active_clients s) b (attrs s) (owner s) (threads s).
Definition set_attrs (n : Z) (s : state) : state :=
  mkState (running s) (active_clients s) (listening s) n (owner s) (threads s).
Definition set_owner (o : option nat) (s : state) : state :=
  mkState (running s) (active_clients s) (listening s) (attrs s) o (threads s).
Definition set_threads (m : gmap nat pc) (s : state) : state :=
  mkState (running s) (active_clients s) (listening s) (attrs s) (owner s) m.
Definition goto (t : nat) (p : pc) (s : state) : state := set_threads (<[t := p]> (threads s)) s.

Definition result : Type := option (outcome (state * list event)).
Definition ok (s : state) (es : list event) : result := Some (Done (s, es)).

Definition lock (t : nat) (p : pc) (s : state) : result :=
  match owner s with None => ok (goto t p (set_owner (Some t) s)) [] | Some _ => None end.
(** Only the owner may release a mutex. *)
Definition unlock (t : nat) (p : pc) (s : state) : result :=
  if bool_decide (owner s = Some t) then ok (goto t p (set_owner None s)) [] else Some (Fault Misuse).

(** The store of [active_clients++] and [active_clients--], [v] having been
    loaded. *)
Definition store (t : nat) (p : pc) (v : Z) (s : state) : result :=
  match int_result v with
  | Done n => ok (goto t p (set_active n s)) []
  | _ => Some (Fault IntOverflow)
  end.

Definition signal_handler (s : state) : state := set_running 0 s.

Definition main (t : nat) (p : pc) (ch : choice) (s : state) : result :=
  match p, ch with
  | MLoop, Go => ok (goto t (if running s =? 0 then MClose else MAccept) s) []
  | MAccept, AcceptError => ok (goto t MLoop s) []
  | MAccept, Accept u created =>
      match threads s !! u with
      | Some _ => None
      | None =>
          let s := set_attrs (attrs s + 1) s in
          if created then ok (goto u HLoop (goto t MDestroyAttr s)) [Connected u]
          else ok (goto t MLoop s) [CreateFailed]
      end
  | MDestroyAttr, Go => ok (goto t MLock (set_attrs (attrs s - 1) s)) []
  | MLock, Go => lock t MLoad s
  | MLoad, Go => ok (goto t (MStore (active_clients s)) s) []
  | MStore v, Go => store t MTest (v + 1) s
  | MTest, Go => ok (goto t (if Z.rem (active_clients s) 10 =? 0 then MPrint else MUnlock) s) []
  | MPrint, Go => ok (goto t MUnlock s) [Active (active_clients s)]
  | MUnlock, Go => unlock t MLoop s
  | MClose, Go => ok (goto t MSleep (set_listening false s)) []
  | MSleep, Go => ok (goto t MFinLock s) []
  | MFinLock, Go => lock t MFinPrint s
  | MFinPrint, Go => ok (goto t MFinUnlock s) [Final (active_clients s)]
  | MFinUnlock, Go => unlock t MExit s
  | _, _ => None
  end.

(** The loop that writes a chunk back is [Threaded.write_loop]. *)
Definition handle_client (t : nat) (p : pc) (ch : choice) (s : state) : result :=
  match p, ch with
  | HLoop, Go => ok (goto t (if running s =? 0 then HClose else HRead) s) []
  | HRead, Recv chunk ws =>
      if (0 <? length chunk)%nat && (Z.of_nat (length chunk) <=? BUFFER_SIZE) then
        match Threaded.write_loop ws chunk 0 with
        | Done (sent, _) => ok (goto t HLoop s) [Echo t chunk sent]
        | _ => None
        end
      else None
  | HRead, Eof => ok (goto t HClose s) []
  | HClose, Go => ok (goto t HLock s) [Closed t]
  | HLock, Go => lock t HLoad s
  | HLoad, Go => ok (goto t (HStore (active_clients s)) s) []
  | HStore v, Go => store t HUnlock (v - 1) s
  | HUnlock, Go => unlock t HEnd s
  | _, _ => None
  end.

Definition is_main (p : pc) : bool :=
  match p with
  | MLoop | MAccept | MDestroyAttr | MLock | MLoad | MStore _ | MTest | MPrint | MUnlock | MClose | MSleep
  | MFinLock | MFinPrint | MFinUnlock | MExit => true
  | _ => false
  end.

Definition exited (s : state) : bool :=
  match threads s !! 0%nat with Some MExit => true | _ => false end.

(** In a function that is not async-signal-safe. *)
Definition unsafe (p : pc) : bool :=
  match p with
  | MDestroyAttr | MLock | MPrint | MUnlock | MFinLock | MFinPrint | MFinUnlock | HLock | HUnlock => true
  | _ => false
  end.

(** Once [main] has returned, no thread runs. The signal is handled by any
    thread. *)
Definition tstep (t : nat) (ch : choice) (s : state) : result :=
  if exited s then None else
  match threads s !! t, ch with
  | None, _ => None
  | Some p, Sig => if unsafe p then Some (Fault Misuse) else ok (signal_handler s) []
  | Some p, _ => if is_main p then main t p ch s else handle_client t p ch s
  end.

Definition step : state → list event → state → Prop := thread_step tstep.

Definition start : state := mkState 1 0 true 0 None {[0%nat := MLoop]}.

End ThreadedServer.
Import ThreadedServer.

(** ** Classes of program points *)

(** The mutex is held. *)
Definition crit (p : pc) : bool :=
  match p with
  | MLoad | MStore _ | MTest | MPrint | MUnlock | MFinPrint | MFinUnlock | HLoad | HStore _ | HUnlock => true
  | _ => false
  end.

(** A handler before its decrement. *)
Definition connected (p : pc) : bool :=
  match p with HLoop | HRead | HClose | HLock | HLoad | HStore _ => true | _ => false end.

(** [main] has created a handler and not counted it yet. *)
Definition uncounted (p : pc) : bool :=
  match p with MDestroyAttr | MLock | MLoad | MStore _ => true | _ => false end.

(** The value of [active_clients] a thread has loaded. *)
Definition loaded (p : pc) : option Z := match p with MStore v | HStore v => Some v | _ => None end.

(** It has not destroyed its attribute either. *)
Definition holds_attr (p : pc) : bool := match p with MDestroyAttr => true | _ => false end.

Ltac step_cases ch H :=
  unfold tstep in H;
  match type of H with context [exited ?s] => destruct (exited s) eqn:Hex; [discriminate H|] end;
  let p := fresh "p" in let Hpc := fresh "Hpc" in
  match type of H with context [threads ?s !! ?t] =>
    destruct (threads s !! t) as [p|] eqn:Hpc; [|discriminate H] end;
  destruct p, ch; simpl in H; try discriminate H;
  unfold lock, unlock, store, ok in H;
  repeat (case_match; try discriminate H); simplify_eq/=;
  repeat match goal with E : int_result _ = Done _ |- _ => apply int_result_inv in E as -> end.

#[export] Instance create_failed_dec e :
  Decision (match e with CreateFailed => True | _ => False end).
Proof. destruct e; apply _. Defined.

(** ** The invariant *)

Definition failures (es : list event) : Z :=
  Z.of_nat (length (filter (λ e, match e with CreateFailed => True | _ => False end) es)).

(** What a thread has loaded is still the count. *)
Definition loaded_ok (n : Z) (m : gmap nat pc) : Prop :=
  ∀ t p v, m !! t = Some p → loaded p = Some v → v = n.

Record inv (s : state) (es : list event) : Prop := {
  i_mutex : mutex_inv crit (owner s) (threads s);
  i_role : roles is_main (threads s);
  i_count : active_clients s = cnt connected (threads s) - cnt uncounted (threads s);
  i_loaded : loaded_ok (active_clients s) (threads s);
  i_attrs : attrs s = cnt holds_attr (threads s) + failures es;
}.

Lemma threaded_role_step t ch s s' es :
  tstep t ch s = Some (Done (s', es)) → roles is_main (threads s) → roles is_main (threads s').
Proof.
  intros H Hr. pose proof (λ p, Hr t p) as Ht. step_cases ch H; try done;
    specialize (Ht _ eq_refl); simpl in Ht;
    repeat (apply role_update; [|done || (repeat case_match; done)]); try done.
  apply role_update; [by apply role_update|]. simpl. symmetry. apply bool_decide_false.
  intros ->. rewrite (proj1 (bool_decide_eq_true _) (eq_sym Ht)) in Hpc. congruence.
Qed.

Lemma threaded_mutex_step t ch s s' es :
  tstep t ch s = Some (Done (s', es)) → mutex_inv crit (owner s) (threads s) →
  mutex_inv crit (owner s') (threads s').
Proof.
  intros H Hm. step_cases ch H; try solve_mutex Hm.
  apply mutex_new; [by eapply lookup_insert_none|done|].
  eapply mutex_keep; [eassumption|done|exact Hm].
Qed.

Lemma failures_app es1 es2 : failures (es1 ++ es2) = failures es1 + failures es2.
Proof. unfold failures. rewrite filter_app, length_app. lia. Qed.

Lemma threaded_count_step t ch s s' es es' :
  tstep t ch s = Some (Done (s', es')) → inv s es →
  active_clients s' = cnt connected (threads s') - cnt uncounted (threads s') ∧
  attrs s' = cnt holds_attr (threads s') + failures (es ++ es').
Proof.
  intros H [Hm Hr Hc Hl Ha]. rewrite failures_app.
  pose proof (λ p v, Hl t p v) as Hv. clear Hl. step_cases ch H; unfold failures at 2; simpl;
    try specialize (Hv _ _ eq_refl eq_refl);
    try match goal with Hu : threads _ !! ?u = None |- _ =>
      rewrite !(cnt_insert_new _ _ u) by by eapply lookup_insert_none end.
  all: count_threads; simpl in *; repeat case_match; simpl in *; split; lia.
Qed.

Lemma loaded_update n m t p :
  loaded_ok n m → loaded p = None ∨ loaded p = Some n → loaded_ok n (<[t := p]> m).
Proof.
  intros Hm Hp u q v Hu Hq. destruct (decide (u = t)) as [->|Hne].
  - rewrite lookup_insert_eq in Hu. destruct Hp; congruence.
  - rewrite lookup_insert_ne in Hu by done. by eapply Hm.
Qed.

(** Whoever stores holds the mutex, so nobody else has loaded. *)
Lemma loaded_store o n m t p p' :
  mutex_inv crit o m → m !! t = Some p → crit p = true → loaded p' = None → loaded_ok n (<[t := p']> m).
Proof.
  intros Hm Ht Hp Hp' u q v Hu Hq. destruct (decide (u = t)) as [->|Hne].
  - rewrite lookup_insert_eq in Hu. congruence.
  - rewrite lookup_insert_ne in Hu by done. exfalso. apply Hne.
    eapply mutex_exclusive; [exact Hm|exact Hu|exact Ht|by destruct q|done].
Qed.

Lemma threaded_loaded_step t ch s s' es es' :
  tstep t ch s = Some (Done (s', es')) → inv s es → loaded_ok (active_clients s') (threads s').
Proof.
  intros H [Hm _ _ Hl _]. step_cases ch H; try done;
    try (repeat (apply loaded_update; [|by auto || (case_match; auto)]); done);
    by eapply loaded_store.
Qed.

Lemma threaded_start_inv : inv start [].
Proof.
  assert (E : ∀ f, f MLoop = false → cnt f (threads start) = 0).
  { intros f Hf. apply cnt_zero. intros t p. simpl. intros [<- <-]%lookup_singleton_Some. done. }
  split; rewrite ?E by done; try done.
  - intros t p. simpl. by intros [<- <-]%lookup_singleton_Some.
  - intros t p v. simpl. by intros [<- <-]%lookup_singleton_Some.
Qed.

Lemma threaded_reachable es s : run step start es s → inv s es.
Proof.
  apply (run_invariant step inv); [apply threaded_start_inv|].
  intros s1 es1 es2 s2 Hi Hs. inversion Hs as [t ch ? ? ? H]; subst.
  destruct (threaded_count_step _ _ _ _ _ _ H Hi) as [H1 H2].
  split; [by eapply threaded_mutex_step, (i_mutex _ _ Hi)|by eapply threaded_role_step, (i_role _ _ Hi)|done| |done].
  by eapply threaded_loaded_step.
Qed.

Lemma threaded_echo_prefix s es s' t chunk sent :
  step s es s' → Echo t chunk sent ∈ es → sent `prefix_of` chunk.
Proof.
  intros Hs Hin. inversion Hs as [u ch ? ? ? H]; subst. step_cases ch H;
    repeat (apply elem_of_cons in Hin as [Hin|Hin]; simplify_eq/=); try by apply elem_of_nil in Hin.
  by eapply write_loop_prefix.
Qed.

(** ** Properties *)

(** A handler that serves "hi" and ends before [main] has counted it. *)
Definition early_sched : list (nat * choice) :=
  [(0, Go); (0, Accept 1 true); (1, Go); (1, Recv [104; 105]%Z [1; 1]%Z); (1, Go); (1, Eof); (1, Go);
   (1, Go); (1, Go); (1, Go); (1, Go)]%nat.
Definition early_events : list event := [Connected 1; Echo 1 [104; 105] [104; 105]; Closed 1].
Definition early_state : state :=
  mkState 1 (-1) true 1 None (<[1%nat := HEnd]> {[0%nat := MDestroyAttr]}).

Lemma early_run : run step start early_events early_state.
Proof. apply (exec_run tstep early_sched). vm_compute. reflexivity. Qed.

(** C35. In every reachable state of the threaded server, [active_clients] is
    the number of handlers before their decrement, less one while [main] has
    created a handler and not counted it yet: it is never less than -1, it is
    right whenever [main] is elsewhere, and one attribute object is lost for
    every handler that could not be created. *)
Theorem threaded_count es s :
  run step start es s →
  active_clients s = cnt connected (threads s) - cnt uncounted (threads s) ∧
  0 ≤ cnt uncounted (threads s) ≤ 1 ∧ -1 ≤ active_clients s ∧
  (∀ p, threads s !! 0%nat = Some p → uncounted p = false → active_clients s = cnt connected (threads s)) ∧
  failures es ≤ attrs s ≤ failures es + 1.
Proof.
  intros [_ Hr Hc _ Ha]%threaded_reachable. pose proof (cnt_nonneg connected (threads s)).
  pose proof (cnt_nonneg uncounted (threads s)). pose proof (cnt_nonneg holds_attr (threads s)).
  pose proof (cnt_main uncounted (threads s) Hr ltac:(by intros [])).
  pose proof (cnt_main holds_attr (threads s) Hr ltac:(by intros [])).
  split_and!; try lia. intros p Hp Hu. rewrite Hc, (proj2 (cnt_zero uncounted (threads s))); [lia|].
  intros t q Ht. destruct (uncounted q) eqn:Eq; [|done].
  assert (is_main q = true) as Hq by by destruct q. rewrite (Hr t q Ht) in Hq.
  apply bool_decide_eq_true in Hq as ->. congruence.
Qed.

Lemma threaded_count_witness :
  -1 = cnt connected (threads early_state) - cnt uncounted (threads early_state) ∧
  0 ≤ cnt uncounted (threads early_state) ≤ 1 ∧ -1 ≤ -1 ∧
  (∀ p, threads early_state !! 0%nat = Some p → uncounted p = false → -1 = cnt connected (threads early_state)) ∧
  failures early_events ≤ 1 ≤ failures early_events + 1.
Proof. exact (threaded_count early_events early_state early_run). Defined.

(** C36. No update of [active_clients] is lost: in a reachable state, what a
    thread has loaded and not stored yet is the count, and the thread owns the
    mutex. A step is undefined only if more connections are open than an [int]
    counts, or if a signal reaches a thread inside a function that is not
    async-signal-safe; the mutex is only released by its owner. *)
Theorem threaded_no_lost_update es s :
  run step start es s →
  (∀ t p v, threads s !! t = Some p → loaded p = Some v → v = active_clients s ∧ owner s = Some t) ∧
  (∀ t ch e, tstep t ch s = Some (Fault e) →
    (e = IntOverflow ∧ int_max ≤ cnt connected (threads s)) ∨
    (e = Misuse ∧ ch = Sig ∧ ∃ p, threads s !! t = Some p ∧ unsafe p = true)).
Proof.
  intros [Hm Hr Hc Hl _]%threaded_reachable. split.
  { intros t p v Ht Hp. split; [by eapply Hl|]. eapply mutex_owner; [exact Hm|exact Ht|by destruct p]. }
  intros t ch e H. pose proof (cnt_nonneg connected (threads s)). pose proof (cnt_nonneg uncounted (threads s)).
  pose proof (cnt_main uncounted (threads s) Hr ltac:(by intros [])).
  unfold tstep in H. destruct (exited s); [done|]. destruct (threads s !! t) as [p|] eqn:Ht; [|done].
  pose proof (mutex_owner crit _ _ _ _ Hm Ht) as Hmine. pose proof (Hl t p) as Hv.
  destruct p, ch; simpl in H; try done; unfold lock, unlock, store, ok in H;
    repeat case_match; simplify_eq; try (right; by eauto);
    try (match goal with E : bool_decide _ = false |- _ => apply bool_decide_eq_false in E end;
      exfalso; by auto).
  all: left; specialize (Hv _ Ht eq_refl); subst; split; [done|].
  all: match goal with E : int_result _ = _ |- _ => unfold int_result in E; case_bool_decide as Hi; [done|] end.
  all: unfold is_int, int_min, int_max in *; lia.
Qed.

Lemma threaded_no_lost_update_witness :
  (∀ t p v, threads early_state !! t = Some p → loaded p = Some v → v = -1 ∧ None = Some t) ∧
  (∀ t ch e, tstep t ch early_state = Some (Fault e) →
    (e = IntOverflow ∧ int_max ≤ cnt connected (threads early_state)) ∨
    (e = Misuse ∧ ch = Sig ∧ ∃ p, threads early_state !! t = Some p ∧ unsafe p = true)).
Proof. exact (threaded_no_lost_update early_events early_state early_run). Defined.

(** A signal while [main] prints the final count. *)
Definition printf_sched : list (nat * choice) :=
  [(0, Sig); (0, Go); (0, Go); (0, Go); (0, Go)]%nat.
Theorem threaded_signal_in_printf :
  (λ '(s, _), tstep 0 Sig s) <$> exec tstep printf_sched start = Some (Some (Fault Misuse)).
Proof. vm_compute. reflexivity. Qed.

(** The count does reach -1, and the message every ten clients then reports 0
    of them. *)
Theorem threaded_reports_zero :
  (λ '(s, es), (active_clients s, es)) <$>
    exec tstep (early_sched ++ [(0, Go); (0, Go); (0, Go); (0, Go); (0, Go); (0, Go)]%nat) start =
  Some (0, early_events ++ [Active 0]).
Proof. vm_compute. reflexivity. Qed.
