(* ===== verification/EchoClient.v ===== *)
(** The clients of the echo servers: the load generator
    [04_networking/tcp_echo_server/client.c] and the test client
    [01_processes/signal_handlers/client.c].

    What the socket calls answer is an input. A worker is run on its own: what
    workers share are atomic counters, and the scheduler's choice is the order
    in which their increments take place. *)
From S2P Require Import Prelude Resources.

(** What a process holds: the arguments, socket and buffers of worker [id], and
    the array of thread identifiers. *)
Inductive res : Type :=
| RArgs (id : Z) | RSock (id : Z) | RSend (id : Z) | RRecv (id : Z) | RThreads.

#[export] Instance res_eq_dec : EqDecision res.
Proof. solve_decision. Defined.

(** [for (...) pthread_join(threads[i], NULL)]: the entry of a thread that was
    not created was never written. *)
Fixpoint join_all {S A} (threads : list (option A)) : ST S (list A) :=
  match threads with
  | [] => mret []
  | None :: _ => st_fault Uninit
  | Some a :: threads => l ← join_all threads; mret (a :: l)
  end.

(** ** The load generator *)
Module LoadClient.

Record args : Type := mkArgs { client_id : Z; num_messages : Z; message_size : Z }.

(** The updates of [messages_sent], [messages_received] and [errors]. *)
Inductive tick : Type := MsgSent | MsgReceived | Error.

(** What [write] answers for a message, and [read] for its replies: the bytes,
    or [None] for end of file and errors. *)
Record io : Type := mkIo { io_write : Z; io_reads : list (option (list Z)) }.

Record answers : Type := mkAnswers {
  w_socket : bool; w_connect : bool; w_send_buf : bool; w_recv_buf : bool; w_io : list io;
}.

(** What a worker did: its updates, and the bytes it wrote and read. *)
Record report : Type := mkReport { ticks : list tick; out : list Z; inp : list Z }.

Definition more (r1 r2 : report) : report :=
  mkReport (ticks r1 ++ ticks r2) (out r1 ++ out r2) (inp r1 ++ inp r2).

(** [while (total < message_size)]: the bytes in [recv_buf], and whether a
    [read] failed, as it does into a buffer that is NULL. *)
Fixpoint read_loop (buf_ok : bool) (size : Z) (got : list Z) (reads : list (option (list Z)))
    : outcome (list Z * bool) :=
  let total := Z.of_nat (length got) in
  if size <=? total then Done (got, false) else
  match reads with
  | [] => NoFuel
  | r :: reads =>
      match (if buf_ok then take (Z.to_nat (size - total)) <$> r else None) with
      | None | Some [] => Done (got, true)
      | Some l => read_loop buf_ok size (got ++ l) reads
      end
  end.

(** The byte [memset] fills the message with: ['A' + client_id % 26]. *)
Definition letter (a : args) : Z := 65 + Z.rem (client_id a) 26.
Definition send_buf (a : args) : list Z := replicate (Z.to_nat (message_size a)) (letter a).

(** One message and its echo; is there a next one? *)
Definition exchange (a : args) (buf_ok : bool) (x : io) : outcome (report * bool) :=
  let n := io_write x in
  let written := take (Z.to_nat n) (send_buf a) in
  if negb (n =? message_size a) then Done (mkReport [Error] written [], false) else
  r ← read_loop buf_ok (message_size a) [] (io_reads x);
  let '(got, failed) := r in
  let errs := if failed : bool then [Error] else [] in
  let recv := if Z.of_nat (length got) =? message_size a then [MsgReceived] else [] in
  Done (mkReport ([MsgSent] ++ errs ++ recv) written got, true).

Fixpoint exchanges (a : args) (buf_ok : bool) (num : nat) (ios : list io) : outcome report :=
  match num with
  | O => Done (mkReport [] [] [])
  | S num =>
      match ios with
      | [] => NoFuel
      | x :: ios =>
          r ← exchange a buf_ok x;
          let '(rep, go) := r in
          if go : bool then rep' ← exchanges a buf_ok num ios; Done (more rep rep') else Done rep
      end
  end.

Definition client_worker (a : args) (w : answers) : ST (list res) report :=
  let id := client_id a in
  sock ← acquire (RSock id) (w_socket w);
  if negb sock then _ ← release (RArgs id); mret (mkReport [Error] [] []) else
  if negb (w_connect w) then
    _ ← release (RSock id); _ ← release (RArgs id); mret (mkReport [Error] [] []) else
  send ← acquire (RSend id) (w_send_buf w);
  recv ← acquire (RRecv id) (w_recv_buf w);
  if negb send && (0 <? message_size a) then st_fault NullDeref else
  rep ← st_lift (exchanges a recv (Z.to_nat (num_messages a)) (w_io w));
  _ ← release (RSock id);
  _ ← (if send : bool then release (RSend id) else mret tt);
  _ ← (if recv : bool then release (RRecv id) else mret tt);
  _ ← release (RArgs id);
  mret rep.

(** The atomic counters wrap around. *)
Record counters : Type := mkCounters { messages_sent : Z; messages_received : Z; errors : Z }.
Definition fetch_add (z : Z) : Z := sign32 (wrap32 (z + 1)).
Definition apply_tick (c : counters) (t : tick) : counters :=
  match t with
  | MsgSent => mkCounters (fetch_add (messages_sent c)) (messages_received c) (errors c)
  | MsgReceived => mkCounters (messages_sent c) (fetch_add (messages_received c)) (errors c)
  | Error => mkCounters (messages_sent c) (messages_received c) (fetch_add (errors c))
  end.

(** What creating a client meets: are its arguments allocated, its thread
    created, and what its thread meets. *)
Record birth : Type := mkBirth { b_args : bool; b_created : bool; b_answers : answers }.

(** [for (i = 0; i < num_clients; i++)]: the thread of each client. *)
Fixpoint spawn (num size i : Z) (l : list birth) : ST (list res) (list (option report)) :=
  match l with
  | [] => mret []
  | b :: l =>
      ok ← acquire (RArgs i) (b_args b);
      if negb ok then st_fault NullDeref else
      t ← (if b_created b
           then rep ← client_worker (mkArgs i num size) (b_answers b); mret (Some rep)
           else _ ← release (RArgs i); mret None);
      ts ← spawn num size (i + 1) l;
      mret (t :: ts)
  end.

(** [order] is the order the scheduler gives the updates of all workers. *)
Definition benchmark (threads_ok : bool) (order : list (list tick) → list tick)
    (num size : Z) (births : list birth) : ST (list res) counters :=
  ok ← acquire RThreads threads_ok;
  if negb ok then st_fault NullDeref else
  ts ← spawn num size 0 births;
  reps ← join_all ts;
  _ ← release RThreads;
  mret (foldl apply_tick (mkCounters 0 0 0) (order (ticks <$> reps))).

(** [main] for [n = atoi(argv[1])], or no argument: the exit status, and the
    three benchmarks. [births] says what the clients of each meet. *)
Definition main (arg : option Z) (order : list (list tick) → list tick)
    (births : list birth * list birth * list birth) : ST (list res) (Z * list counters) :=
  match arg with
  | None => mret (0, [])
  | Some n =>
      if (n <=? 0) || (10000 <? n) then mret (1, []) else
      let '(b1, b2, b3) := births in
      c1 ← benchmark true order 100 64 (take (Z.to_nat n) b1);
      c2 ← benchmark true order 100 1024 (take (Z.to_nat n) b2);
      c3 ← benchmark true order 50 4096 (take (Z.to_nat n) b3);
      mret (0, [c1; c2; c3])
  end.

End LoadClient.

(** ** The test client of the signal server *)
Module SignalClient.

Definition bytes (s : list nat) : list Z := Z.of_nat <$> s.
Definition str_client : list Z := bytes [67; 108; 105; 101; 110; 116; 32]%nat.          (* "Client " *)
Definition str_message : list Z := bytes [32; 109; 101; 115; 115; 97; 103; 101; 32]%nat. (* " message " *)

(** [snprintf(msg, 256, "Client %d message %d", client_id, i)] *)
Definition message (client_id i : Z) : list Z :=
  take 255 (str_client ++ decimal 10 client_id ++ str_message ++ decimal 10 i).

(** What [write] and [read] answer in one turn, [None] for end of file and
    errors. *)
Record io : Type := mkIo { io_write : Z; io_read : option (list Z) }.

(** The messages [i .. i + n - 1]; the bytes written, and the replies printed. *)
Fixpoint exchanges (id i : Z) (n : nat) (ios : list io) : outcome (list Z * list (list Z)) :=
  match n with
  | O => Done ([], [])
  | S n =>
      match ios with
      | [] => NoFuel
      | x :: ios =>
          if io_write x <? 0 then Done ([], []) else
          let written := take (Z.to_nat (io_write x)) (message id i) in
          reply ← match take 256 <$> io_read x with
                  | None | Some [] => Done []
                  | Some l => if Z.of_nat (length l) <? 256 then Done [l] else Fault OutOfBounds
                  end;
          r ← exchanges id (i + 1) n ios;
          Done (written ++ r.1, reply ++ r.2)
      end
  end.

(** [connected]: did [socket] and [connect] succeed? *)
Definition client_thread (id : Z) (sock connected : bool) (ios : list io)
    : ST (list res) (list Z * list (list Z)) :=
  ok ← acquire (RSock id) sock;
  if negb ok then mret ([], []) else
  if negb connected then _ ← release (RSock id); mret ([], []) else
  r ← st_lift (exchanges id 0 5 ios);
  _ ← release (RSock id);
  mret r.

Record birth : Type := mkBirth { b_created : bool; b_sock : bool; b_connected : bool; b_io : list io }.

Fixpoint spawn (i : Z) (l : list birth) : ST (list res) (list (option (list Z * list (list Z)))) :=
  match l with
  | [] => mret []
  | b :: l =>
      t ← (if b_created b
           then r ← client_thread i (b_sock b) (b_connected b) (b_io b); mret (Some r)
           else mret None);
      ts ← spawn (i + 1) l;
      mret (t :: ts)
  end.

Definition main (threads_ok : bool) (births : list birth) : ST (list res) (list (list Z * list (list Z))) :=
  ok ← acquire RThreads threads_ok;
  if negb ok && negb (length births =? 0)%nat then st_fault NullDeref else
  ts ← spawn 0 births;
  rs ← join_all ts;
  _ ← (if ok : bool then release RThreads else mret tt);
  mret rs.

End SignalClient.
