(* ===== verification/EchoSession.v ===== *)
(** Clients and echo servers together: what a client may rely on, as an
    interface; the three servers as instances; and the properties of the
    clients against the interface. *)
From S2P Require Import Prelude Resources Threads EchoServer EchoTheorems SignalServer SignalTheorems ThreadedServer EchoClient.

(** ** The interface *)

(** Sessions of a server, seen from one of its connections: what it read there
    and what it wrote. *)
Class EchoService (R : Type) : Type := {
  es_valid : R → Prop;
  es_in : R → list Z;
  es_out : R → list Z;
  es_echo r : es_valid r → es_out r `prefix_of` es_in r;
}.

(** A client that wrote [out] and read [inp] is connected to session [r]: the
    network delivers in order what was written, perhaps not all of it. *)
Record linked {R} `{EchoService R} (r : R) (out inp : list Z) : Prop := {
  l_valid : es_valid r;
  l_up : es_in r `prefix_of` out;
  l_down : inp `prefix_of` es_out r;
}.

Lemma linked_echo {R} `{EchoService R} (r : R) out inp : linked r out inp → inp `prefix_of` out.
Proof.
  intros [Hv Hu Hd]. etrans; [exact Hd|]. etrans; [by apply es_echo|exact Hu].
Qed.

(** ** The servers *)

(** A slot of the event loop. *)
Record poll_session : Type := PollSession {
  p_turns : list Poll.turn; p_server : Poll.server; p_events : list Poll.event; p_slot : nat;
}.

#[export] Program Instance poll_service : EchoService poll_session := {|
  es_valid r :=
    Forall (λ t, Forall (λ a, 0 ≤ Poll.a_fd a) (Poll.t_accepted t)) (p_turns r) ∧
    Poll.event_loop (p_turns r) Poll.start = Done (p_server r, p_events r);
  es_in r := recvd (p_slot r) (p_events r);
  es_out r := sent (p_slot r) (p_events r);
|}.
Next Obligation.
  intros r [Hts H]. simpl. by eapply server_sent_prefix, (event_loop_inv _ _ _ _ _ Hts H start_server_inv).
Qed.

(** *** Servers given by a step relation *)

Lemma join_short_last (l : list (list Z * list Z)) :
  Forall (λ p, p.2 `prefix_of` p.1) l → Forall (λ p, p.2 = p.1) (removelast l) →
  mjoin l.*2 `prefix_of` mjoin l.*1.
Proof.
  induction 1 as [|[msg reply] l Hp Hl IH]; [done|]. simpl in Hp. intros Hall.
  destruct l as [|q l]; [simpl; by rewrite !app_nil_r|].
  change (removelast ((msg, reply) :: q :: l)) with ((msg, reply) :: removelast (q :: l)) in Hall.
  apply Forall_cons in Hall as [Heq Hall]. simpl in Heq. subst reply.
  rewrite !fmap_cons. cbn [mjoin list_join fst snd]. apply prefix_app. by apply IH.
Qed.

Section stepwise.
Context {S E : Type} (step : S → list E → S → Prop) (start : S).

(** [echo_of e]: the thread that echoed, what it read and what it wrote. *)
Context (echo_of : E → option (nat * (list Z * list Z))).

Hypothesis echo_prefix : ∀ s es s' e t p,
  step s es s' → e ∈ es → echo_of e = Some (t, p) → p.2 `prefix_of` p.1.

Definition echoes (t : nat) (es : list E) : list (list Z * list Z) :=
  omap (λ e, match echo_of e with Some (u, p) => if decide (u = t) then Some p else None | None => None end) es.

(** The handler of thread [x_thread] in a run; no [write] but its last is short. *)
Record session : Type := Session { x_events : list E; x_state : S; x_thread : nat }.

Lemma echoes_prefix t s es s' :
  run step s es s' → Forall (λ p, p.2 `prefix_of` p.1) (echoes t es).
Proof.
  apply (run_invariant step (λ _ es, Forall (λ p, p.2 `prefix_of` p.1) (echoes t es))); [constructor|].
  intros s1 es1 es2 s2 H1 Hs. unfold echoes. rewrite omap_app. apply Forall_app. split; [done|].
  apply Forall_forall. intros p (e & He & Hp)%list_elem_of_omap.
  destruct (echo_of e) as [[u q]|] eqn:Eq; [|done]. case_decide; simplify_eq.
  by eapply echo_prefix.
Qed.

Program Definition stepwise_service : EchoService session := {|
  es_valid r := run step start (x_events r) (x_state r) ∧
    Forall (λ p, p.2 = p.1) (removelast (echoes (x_thread r) (x_events r)));
  es_in r := mjoin (echoes (x_thread r) (x_events r)).*1;
  es_out r := mjoin (echoes (x_thread r) (x_events r)).*2;
|}.
Next Obligation. intros r [Hr Hall]. simpl. apply join_short_last; [|done]. by eapply echoes_prefix. Qed.

End stepwise.
#[global] Arguments Session {S E} x_events x_state x_thread.

(** The threaded server: its loop ends a short write only when [write] fails. *)
Definition threaded_echo_of (e : ThreadedServer.event) : option (nat * (list Z * list Z)) :=
  match e with ThreadedServer.Echo t chunk sent => Some (t, (chunk, sent)) | _ => None end.

#[export] Instance threaded_service : EchoService (@session ThreadedServer.state ThreadedServer.event).
Proof.
  apply (stepwise_service ThreadedServer.step ThreadedServer.start threaded_echo_of).
  intros s es s' e t p Hs He Hp. destruct e; simplify_eq/=. by eapply threaded_echo_prefix.
Defined.

(** The signal server never looks at what [write] returns. *)
Definition signal_echo_of (e : SignalServer.event) : option (nat * (list Z * list Z)) :=
  match e with SignalServer.Echo t msg reply => Some (t, (msg, reply)) | _ => None end.

Lemma signal_echo_prefix s es s' t msg reply :
  SignalServer.step s es s' → SignalServer.Echo t msg reply ∈ es → reply `prefix_of` msg.
Proof.
  intros Hs Hin. inversion Hs as [u ch ? ? ? H]; subst. SignalTheorems.step_cases ch H;
    repeat (apply elem_of_cons in Hin as [Hin|Hin]; simplify_eq/=); try by apply elem_of_nil in Hin.
  apply prefix_take.
Qed.

#[export] Instance signal_service : EchoService (@session SignalServer.state SignalServer.event).
Proof.
  apply (stepwise_service SignalServer.step SignalServer.start signal_echo_of).
  intros s es s' e t p Hs He Hp. destruct e; simplify_eq/=. by eapply signal_echo_prefix.
Defined.

(** ** The worker of the load generator *)
Module Load.
Import LoadClient.

#[export] Instance tick_eq_dec : EqDecision tick.
Proof. solve_decision. Defined.

Definition count (t : tick) (l : list tick) : Z := Z.of_nat (length (filter (t =.) l)).

Lemma count_app t l1 l2 : count t (l1 ++ l2) = count t l1 + count t l2.
Proof. unfold count. rewrite filter_app, length_app. lia. Qed.

Lemma count_perm t l1 l2 : l1 ≡ₚ l2 → count t l1 = count t l2.
Proof. intros H. unfold count. by rewrite H. Qed.

Lemma count_nonneg t l : 0 ≤ count t l.
Proof. unfold count. lia. Qed.

(** The updates of a worker, or of several, that were to send [num] messages,
    when [lost] of them may have stopped early. *)
Record balanced (num lost : Z) (l : list tick) : Prop := {
  b_received : count MsgReceived l ≤ count MsgSent l;
  b_sent : count MsgSent l ≤ num;
  b_errors : count MsgSent l ≤ count MsgReceived l + count Error l ≤ count MsgSent l + lost;
  b_clean : count Error l = 0 → count MsgReceived l = num;
}.

Ltac tick_facts := split; vm_compute; repeat split; intros; first [discriminate|reflexivity].

Lemma balanced_app n1 k1 l1 n2 k2 l2 :
  balanced n1 k1 l1 → balanced n2 k2 l2 → balanced (n1 + n2) (k1 + k2) (l1 ++ l2).
Proof.
  intros [H1 H2 H3 H4] [H5 H6 H7 H8]. pose proof (count_nonneg Error l1). pose proof (count_nonneg Error l2).
  split; rewrite ?count_app; lia.
Qed.

(** A worker's report. *)
Record sound (a : args) (num lost : Z) (rep : report) : Prop := {
  s_ticks : balanced num lost (ticks rep);
  s_letters : Forall (λ b, b = letter a) (out rep);
  s_clean : count Error (ticks rep) = 0 →
    Z.of_nat (length (out rep)) = num * message_size a ∧ length (inp rep) = length (out rep);
}.

Lemma sound_more a n1 k1 n2 k2 r1 r2 :
  sound a n1 k1 r1 → sound a n2 k2 r2 → sound a (n1 + n2) (k1 + k2) (more r1 r2).
Proof.
  intros [T1 L1 C1] [T2 L2 C2]. split; simpl; [by apply balanced_app|by apply Forall_app|].
  pose proof (count_nonneg Error (ticks r1)). pose proof (count_nonneg Error (ticks r2)).
  rewrite count_app, !length_app. intros Hz. destruct C1, C2; lia.
Qed.

(** A worker that stops at its first message, or before it. *)
Lemma sound_stop a num o :
  0 ≤ num → Forall (λ b, b = letter a) o → sound a num 1 (mkReport [Error] o []).
Proof. intros Hn Ho. split; simpl; [|done|by vm_compute]. split; vm_compute; lia || done. Qed.

Lemma read_loop_done buf_ok size reads : ∀ got,
  0 ≤ Z.of_nat (length got) ≤ size → size - Z.of_nat (length got) ≤ Z.of_nat (length reads) →
  ∃ got' failed, read_loop buf_ok size got reads = Done (got', failed) ∧
    if failed : bool then Z.of_nat (length got') < size else Z.of_nat (length got') = size.
Proof.
  induction reads as [|r reads IH]; intros got Hg Hf; simpl in *;
    (destruct (Z.leb_spec size (Z.of_nat (length got))) as [Hle|Hlt];
      [exists got, false; split; [done|lia]|]); [lia|].
  set (l := if buf_ok then _ else None).
  assert (Hl : ∀ x, l = Some x → Z.of_nat (length x) ≤ size - Z.of_nat (length got)).
  { unfold l. destruct buf_ok; [|done]. intros x (y & _ & ->)%fmap_Some. rewrite length_take. lia. }
  destruct l as [[|b x]|] eqn:E; [exists got, true; split; [done|lia]| |exists got, true; split; [done|lia]].
  specialize (Hl _ eq_refl). apply IH; rewrite length_app; simpl in *; lia.
Qed.

(** The answers of [read] suffice, one for each byte of a message at most. *)
Definition enough (a : args) (w : answers) : Prop :=
  num_messages a ≤ Z.of_nat (length (w_io w)) ∧
  Forall (λ x, message_size a ≤ Z.of_nat (length (io_reads x))) (w_io w).

Lemma letters_take a n : Forall (λ b, b = letter a) (take n (send_buf a)).
Proof. apply Forall_take, Forall_replicate. done. Qed.

Lemma exchange_done a buf_ok x :
  0 ≤ message_size a → message_size a ≤ Z.of_nat (length (io_reads x)) →
  ∃ rep go, exchange a buf_ok x = Done (rep, go) ∧
    if go : bool then sound a 1 0 rep else ticks rep = [Error] ∧ inp rep = [] ∧ Forall (λ b, b = letter a) (out rep).
Proof.
  intros Hs Hr. unfold exchange. destruct (Z.eqb_spec (io_write x) (message_size a)) as [E|E]; simpl.
  - destruct (read_loop_done buf_ok (message_size a) (io_reads x) []) as (got & failed & -> & Hf); [done|simpl; lia|].
    simpl. eexists _, true. split; [done|]. destruct failed; simpl; cmp.
    + split; [tick_facts|apply letters_take|]. by vm_compute.
    + split; [tick_facts|apply letters_take|]. intros _. simpl. rewrite E.
      unfold send_buf. rewrite length_take, length_replicate. lia.
  - eexists _, false. split; [done|]. split_and!; [done..|apply letters_take].
Qed.

Lemma exchanges_done a buf_ok num : ∀ ios,
  0 ≤ message_size a → (num ≤ length ios)%nat →
  Forall (λ x, message_size a ≤ Z.of_nat (length (io_reads x))) ios →
  ∃ rep, exchanges a buf_ok num ios = Done rep ∧ sound a (Z.of_nat num) 1 rep.
Proof.
  induction num as [|num IH]; intros ios Hs Hn Hios; simpl.
  { eexists. split; [done|]. split; [tick_facts|constructor|done]. }
  destruct ios as [|x ios]; simpl in Hn; [lia|]. apply Forall_cons in Hios as [Hx Hios].
  destruct (exchange_done a buf_ok x Hs Hx) as (rep & go & -> & Hrep). simpl. destruct go.
  - destruct (IH ios Hs ltac:(lia) Hios) as (rep' & -> & Hrep'). simpl. eexists. split; [done|].
    replace (Z.of_nat (S num)) with (1 + Z.of_nat num) by lia. by apply (sound_more a 1 0 _ 1).
  - destruct rep as [ts o i]. simpl in *. destruct Hrep as (-> & -> & Ho).
    eexists. split; [done|]. apply sound_stop; [lia|done].
Qed.

(** The whole worker: it gives back all it holds, and reports. *)
Lemma client_worker_wp a w h h0 :
  h ≡ₚ RArgs (client_id a) :: h0 → 0 ≤ message_size a → 0 ≤ num_messages a → w_send_buf w = true → enough a w →
  wp (client_worker a w) (λ rep h', h' ≡ₚ h0 ∧ sound a (num_messages a) 1 rep) h.
Proof.
  intros Hh Hs Hn Hb [Hlen Hreads]. unfold client_worker. rewrite Hb. set (id := client_id a) in *.
  assert (Hstop : sound a (num_messages a) 1 (mkReport [Error] [] [])) by by apply sound_stop.
  apply wp_bind, acquire_wp. destruct (w_socket w); cbn [negb].
  2:{ apply wp_bind. eapply release_wp; [exact Hh|]. intros h' Hh'. by apply wp_ret. }
  destruct (w_connect w); cbn [negb].
  2:{ apply wp_bind. eapply release_wp; [done|]. intros h1 H1. apply wp_bind.
      eapply release_wp; [by rewrite H1|]. intros h2 H2. by apply wp_ret. }
  apply wp_bind, acquire_wp. apply wp_bind, acquire_wp. cbn [negb andb].
  destruct (exchanges_done a (w_recv_buf w) (Z.to_nat (num_messages a)) (w_io w) Hs ltac:(lia) Hreads)
    as (rep & E & Hrep). rewrite Z2Nat.id in Hrep by done.
  apply wp_bind. eapply wp_lift; [exact E|]. clear E. apply wp_bind.
  apply (release_wp _ _ _ ((if w_recv_buf w then [RRecv id] else []) ++ RSend id :: RArgs id :: h0)).
  { rewrite <- Hh. destruct (w_recv_buf w); simpl; solve_Permutation. }
  intros h1 H1. apply wp_bind.
  apply (release_wp _ _ _ ((if w_recv_buf w then [RRecv id] else []) ++ RArgs id :: h0)).
  { rewrite H1. destruct (w_recv_buf w); simpl; solve_Permutation. }
  intros h2 H2. apply wp_bind. destruct (w_recv_buf w); simpl in H2.
  - eapply release_wp; [exact H2|]. intros h3 H3. apply wp_bind. eapply release_wp; [exact H3|].
    intros h4 H4. by apply wp_ret.
  - apply wp_ret, wp_bind. eapply release_wp; [exact H2|]. intros h4 H4. by apply wp_ret.
Qed.

(** ** The counters *)

Lemma fetch_add_small z : 0 ≤ z < int_max → fetch_add z = z + 1.
Proof.
  unfold fetch_add, sign32, wrap32, int_max. intros. rewrite Z.mod_small by lia. by cmp.
Qed.

Lemma fold_ticks l : ∀ x y z,
  0 ≤ x → 0 ≤ y → 0 ≤ z → x + count MsgSent l ≤ int_max → y + count MsgReceived l ≤ int_max →
  z + count Error l ≤ int_max →
  foldl apply_tick (mkCounters x y z) l =
    mkCounters (x + count MsgSent l) (y + count MsgReceived l) (z + count Error l).
Proof.
  induction l as [|t l IH]; intros x y z Hx Hy Hz H1 H2 H3.
  { unfold count. simpl. by rewrite !Z.add_0_r. }
  change (t :: l) with ([t] ++ l) in *. rewrite !count_app in *. simpl.
  pose proof (count_nonneg MsgSent l). pose proof (count_nonneg MsgReceived l).
  pose proof (count_nonneg Error l).
  destruct t; cbn [apply_tick messages_sent messages_received errors];
    repeat match goal with H : context [count ?t [?u]] |- _ =>
      let v := eval vm_compute in (count t [u]) in change (count t [u]) with v in * end;
    rewrite fetch_add_small by lia; rewrite IH by lia; f_equal; lia.
Qed.

(** ** All the workers of a benchmark *)

(** The arguments of the client are allocated; its thread, if it is created,
    gets its message buffer. *)
Definition fine (num size : Z) (b : birth) : Prop :=
  b_args b = true ∧ (b_created b = true → w_send_buf (b_answers b) = true ∧ enough (mkArgs 0 num size) (b_answers b)).

Definition all_ticks (ts : list (option report)) : list tick := mjoin (ticks <$> omap id ts).

Lemma spawn_wp num size births : ∀ i h,
  Forall (fine num size) births → 0 ≤ num → 0 ≤ size →
  wp (spawn num size i births) (λ ts h', h' ≡ₚ h ∧
    (λ t, bool_decide (is_Some t)) <$> ts = b_created <$> births ∧
    balanced (num * Z.of_nat (length (omap id ts))) (Z.of_nat (length (omap id ts))) (all_ticks ts)) h.
Proof.
  induction births as [|b births IH]; intros i h Hall Hn Hs; cbn [spawn].
  { apply wp_ret. split_and!; [done..|]. rewrite Z.mul_0_r. tick_facts. }
  apply Forall_cons in Hall as [[Ha Hb] Hall]. rewrite Ha. apply wp_bind, acquire_wp. cbn [negb].
  apply wp_bind. destruct (b_created b) eqn:Hc.
  - destruct (Hb eq_refl) as [Hsend Hen]. apply wp_bind. eapply wp_mono.
    { by apply (client_worker_wp (mkArgs i num size) _ _ h). }
    intros rep h1 [H1 Hrep]. apply wp_ret, wp_bind. eapply wp_mono; [by apply IH|].
    intros ts h2 (H2 & Hts & Hbal). apply wp_ret. rewrite H2, !fmap_cons, Hts, Hc. split_and!; [done..|].
    pose proof (balanced_app _ _ _ _ _ _ (s_ticks _ _ _ _ Hrep) Hbal) as Happ. cbn [num_messages] in Happ.
    change (all_ticks (Some rep :: ts)) with (ticks rep ++ all_ticks ts).
    change (omap id (Some rep :: ts)) with (rep :: omap id ts). cbn [length].
    rewrite Nat2Z.inj_succ, <- Z.add_1_l, Z.mul_add_distr_l, Z.mul_1_r. exact Happ.
  - apply wp_bind. eapply release_wp; [done|]. intros h1 H1. apply wp_ret, wp_bind.
    eapply wp_mono; [by apply IH|]. intros ts h2 (H2 & Hts & Hbal). apply wp_ret.
    rewrite H2, !fmap_cons, Hts, Hc. done.
Qed.

Lemma join_all_some {S A} (l : list A) (s : S) : join_all (Some <$> l) s = Done (l, s).
Proof.
  induction l as [|a l IH]; [done|]. rewrite fmap_cons. cbn [join_all].
  unfold mbind, st_bind. by rewrite IH.
Qed.

Lemma join_all_none {S A} (ts : list (option A)) (s : S) :
  false ∈ (λ t, bool_decide (is_Some t)) <$> ts → join_all ts s = Fault Uninit.
Proof.
  induction ts as [|[a|] ts IH]; rewrite ?fmap_nil, ?fmap_cons; [by intros ?%elem_of_nil| |done].
  intros [?|Hin]%elem_of_cons; [done|]. cbn [join_all]. unfold mbind, st_bind. by rewrite IH.
Qed.

Lemma created_all (ts : list (option report)) bs :
  (λ t, bool_decide (is_Some t)) <$> ts = b_created <$> bs → Forall (λ b, b_created b = true) bs →
  ts = Some <$> omap id ts ∧ length (omap id ts) = length bs.
Proof.
  revert bs. induction ts as [|t ts IH]; intros [|b bs]; rewrite ?fmap_cons; try done.
  intros [= Ht Hts] [Hb Hbs]%Forall_cons. rewrite Hb in Ht. apply bool_decide_eq_true in Ht as [rep ->].
  destruct (IH bs Hts Hbs) as [E1 E2]. cbn [omap list_omap id fmap list_fmap length]. split; [by rewrite <- E1|]. by rewrite E2.
Qed.

(** What a benchmark of [n] clients may print. *)
Definition tally (n num : Z) (c : counters) : Prop :=
  messages_received c ≤ messages_sent c ≤ n * num ∧
  messages_sent c ≤ messages_received c + errors c ≤ messages_sent c + n ∧
  (errors c = 0 → messages_received c = n * num).

(** The scheduler lets every update take place, once. *)
Definition fair (order : list (list tick) → list tick) : Prop := ∀ ls, order ls ≡ₚ mjoin ls.

Definition created (b : birth) : Prop := b_created b = true.

Lemma benchmark_wp order num size births h :
  fair order → Forall (fine num size) births → Forall created births → 0 ≤ num → 0 ≤ size →
  Z.of_nat (length births) * (num + 1) ≤ int_max →
  wp (benchmark true order num size births) (λ c h', h' ≡ₚ h ∧ tally (Z.of_nat (length births)) num c) h.
Proof.
  intros Ho Hall Hcr Hn Hs Hmax. unfold benchmark. apply wp_bind, acquire_wp. cbn [negb].
  apply wp_bind. eapply wp_mono; [by apply spawn_wp|]. intros ts h1 (H1 & Hts & Hbal).
  destruct (created_all _ _ Hts Hcr) as [Ets Elen]. unfold all_ticks in Hbal. rewrite Elen in Hbal.
  set (reps := omap id ts) in *. rewrite Ets. apply wp_bind. eapply wp_mono.
  { apply (wp_run (join_all (Some <$> reps)) (λ l s', l = reps ∧ s' = h1)). exists reps, h1.
    split; [apply join_all_some|done]. }
  intros l h2 [-> ->]. apply wp_bind. eapply release_wp; [exact H1|]. intros h' Hh'. apply wp_ret.
  split; [done|]. pose proof (Ho (ticks <$> reps)) as Hperm. set (l := order _) in *.
  destruct Hbal as [B1 B2 B3 B4]. rewrite <- !(count_perm _ _ _ Hperm) in *.
  set (n := Z.of_nat (length births)) in *. assert (n * (num + 1) = num * n + n) as Hmul by lia.
  rewrite (fold_ticks l 0 0 0); [|lia..|];
    pose proof (count_nonneg MsgSent l); pose proof (count_nonneg MsgReceived l); [|lia].
  unfold tally. cbn [messages_sent messages_received errors].
  rewrite !Z.add_0_l, (Z.mul_comm n num). lia.
Qed.

(** ** Properties of the load generator *)

(** C37. A worker connected to any server that keeps the interface reads
    nothing but its own letter, whatever the network does; and when it counts no
    error, the bytes it read are exactly the messages it wrote. It gives back
    its arguments, socket and buffers on every path. *)
Theorem echo_session_intact {R} `{EchoService R} (r : R) a w h h0 :
  h ≡ₚ RArgs (client_id a) :: h0 → 0 ≤ message_size a → 0 ≤ num_messages a → w_send_buf w = true → enough a w →
  wp (client_worker a w) (λ rep h', h' ≡ₚ h0 ∧ (linked r (out rep) (inp rep) →
    Forall (λ b, b = letter a) (inp rep) ∧
    (count Error (ticks rep) = 0 →
      inp rep = replicate (Z.to_nat (num_messages a * message_size a)) (letter a) ∧ inp rep = out rep))) h.
Proof.
  intros Hh Hs Hn Hb Hen. eapply wp_mono; [by apply (client_worker_wp a w h h0)|].
  intros rep h' [Hh' [_ Ho Hc]]. split; [done|]. intros [l' El]%linked_echo.
  rewrite El in Ho. apply Forall_app in Ho as [Hi _]. split; [done|].
  intros Hz. destruct (Hc Hz) as [Hlo Hli]. assert (E : inp rep = out rep).
  { rewrite El, length_app in Hli. destruct l'; [by rewrite El, app_nil_r|simpl in Hli; lia]. }
  split; [|done]. rewrite <- Hlo, Nat2Z.id, <- Hli.
  clear -Hi. induction Hi as [|b l -> Hl IH]; [done|]. simpl. by rewrite <- IH.
Qed.

(** Client 0 sends "AA" once to the threaded server. *)
Definition demo_args : args := mkArgs 0 1 2.
Definition demo_answers : answers := mkAnswers true true true true [mkIo 2 [Some [65]; Some [65]]].
Definition demo_schedule : list (nat * ThreadedServer.choice) :=
  [(0, ThreadedServer.Go); (0, ThreadedServer.Accept 1 true); (1, ThreadedServer.Go);
   (1, ThreadedServer.Recv [65; 65]%Z [1; 1]%Z)]%nat.
Definition demo_session : @session ThreadedServer.state ThreadedServer.event :=
  Session [ThreadedServer.Connected 1; ThreadedServer.Echo 1 [65; 65] [65; 65]]
    (ThreadedServer.mkState 1 0 true 1 None
       (<[1%nat := ThreadedServer.HLoop]> {[0%nat := ThreadedServer.MDestroyAttr]})) 1.

Lemma echo_session_intact_witness :
  wp (client_worker demo_args demo_answers) (λ rep h', h' ≡ₚ [] ∧
    (linked demo_session (out rep) (inp rep) →
      Forall (λ b, b = letter demo_args) (inp rep) ∧
      (count Error (ticks rep) = 0 →
        inp rep = replicate (Z.to_nat (num_messages demo_args * message_size demo_args)) (letter demo_args) ∧
        inp rep = out rep))) [RArgs 0] ∧
  linked demo_session [65; 65] [65; 65].
Proof.
  split.
  - apply (echo_session_intact demo_session demo_args demo_answers [RArgs 0] []); [done|done|done|done|].
    split; [vm_compute; discriminate|]. repeat constructor. vm_compute. discriminate.
  - split; [|by exists []..].
    split; [apply (exec_run ThreadedServer.tstep demo_schedule); vm_compute; reflexivity|constructor].
Defined.

(** C38. [main] for a number of clients it accepts, when every thread is created
    and every buffer allocated: in every benchmark and for every order of the
    updates, no counter overflows; every message received
    was sent; each message sent was received or counted as an error, and no
    more errors are counted than that but one a client; without errors every
    message was echoed. Everything acquired is given back. *)
Theorem load_main_tallies n order b1 b2 b3 h :
  1 ≤ n ≤ 10000 → fair order →
  Z.of_nat (length b1) = n → Z.of_nat (length b2) = n → Z.of_nat (length b3) = n →
  Forall (fine 100 64) b1 → Forall (fine 100 1024) b2 → Forall (fine 50 4096) b3 →
  Forall created b1 → Forall created b2 → Forall created b3 →
  wp (main (Some n) order (b1, b2, b3)) (λ r h', h' ≡ₚ h ∧ r.1 = 0 ∧
    ∃ c1 c2 c3, r.2 = [c1; c2; c3] ∧ tally n 100 c1 ∧ tally n 100 c2 ∧ tally n 50 c3) h.
Proof.
  intros Hn Ho L1 L2 L3 F1 F2 F3 C1 C2 C3. unfold main. cmp. cbn [orb].
  assert (Htake : ∀ b : list birth, Z.of_nat (length b) = n → take (Z.to_nat n) b = b).
  { intros b Hb. apply take_ge. lia. }
  rewrite (Htake b1 L1), (Htake b2 L2), (Htake b3 L3).
  assert (Hm : ∀ num, num ≤ 100 → n * (num + 1) ≤ int_max) by (unfold int_max; nia).
  apply wp_bind. eapply wp_mono; [apply benchmark_wp; try done; rewrite L1; by apply Hm|].
  intros c1 h1 [H1 T1]. apply wp_bind. eapply wp_mono; [apply benchmark_wp; try done; rewrite L2; by apply Hm|].
  intros c2 h2 [H2 T2]. apply wp_bind. eapply wp_mono; [apply benchmark_wp; try done; rewrite L3; by apply Hm|].
  intros c3 h3 [H3 T3]. apply wp_ret. rewrite H3, H2, H1. rewrite L1 in T1. rewrite L2 in T2. rewrite L3 in T3.
  split_and!; [done..|]. exists c1, c2, c3. done.
Qed.

(** One client; it gets its echo a byte at a time. *)
Definition demo_birth (num size : nat) : birth :=
  mkBirth true true (mkAnswers true true true true
    (replicate num (mkIo (Z.of_nat size) (replicate size (Some [65]))))).

Lemma demo_fine num size : Forall (fine (Z.of_nat num) (Z.of_nat size)) [demo_birth num size].
Proof.
  repeat constructor; simpl; [by rewrite length_replicate|].
  apply Forall_replicate. simpl. by rewrite length_replicate.
Qed.

Lemma load_main_tallies_witness :
  wp (main (Some 1) mjoin ([demo_birth 100 64], [demo_birth 100 1024], [demo_birth 50 4096]))
    (λ r h', h' ≡ₚ [] ∧ r.1 = 0 ∧
      ∃ c1 c2 c3, r.2 = [c1; c2; c3] ∧ tally 1 100 c1 ∧ tally 1 100 c2 ∧ tally 1 50 c3) [].
Proof.
  apply load_main_tallies; [lia|intros ls; reflexivity|done|done|done|exact (demo_fine 100 64)|exact (demo_fine 100 1024)
    |exact (demo_fine 50 4096)|by repeat constructor..].
Defined.

(** When a thread cannot be created, the benchmark reports it, goes on,
    and then joins the thread whose identifier was never written. *)
Theorem benchmark_joins_uncreated order num size births h :
  Forall (fine num size) births → 0 ≤ num → 0 ≤ size → ¬ Forall created births →
  benchmark true order num size births h = Fault Uninit.
Proof.
  intros Hall Hn Hs Hnc. change (faults (benchmark true order num size births) Uninit h).
  unfold benchmark. apply faults_later, acquire_wp. cbn [negb]. apply faults_later.
  eapply wp_mono; [by apply spawn_wp|]. intros ts h1 (_ & Hts & _). apply faults_here.
  apply join_all_none. rewrite Hts. destruct (decide (false ∈ b_created <$> births)) as [|Hni]; [done|].
  destruct Hnc. apply Forall_forall. intros b Hb. unfold created. destruct (b_created b) eqn:E; [done|].
  destruct Hni. apply list_elem_of_fmap. by exists b.
Qed.

Lemma benchmark_joins_uncreated_witness :
  benchmark true mjoin 0 0 [mkBirth true false demo_answers] [] = Fault Uninit.
Proof.
  apply benchmark_joins_uncreated; [by repeat constructor|done|done|].
  intros H. inversion_clear H. done.
Defined.

End Load.

(** ** The test client of the signal server *)
Module Test.
Import SignalClient.

(** What the client writes, from message [i] on, and what it is sent back. *)
Fixpoint written (id i : Z) (n : nat) (ios : list io) : list Z :=
  match n, ios with
  | S n, x :: ios =>
      if io_write x <? 0 then [] else
      take (Z.to_nat (io_write x)) (message id i) ++ written id (i + 1) n ios
  | _, _ => []
  end.
Fixpoint replied (n : nat) (ios : list io) : list Z :=
  match n, ios with
  | S n, x :: ios => if io_write x <? 0 then [] else default [] (io_read x) ++ replied n ios
  | _, _ => []
  end.

Lemma message_length id i : (length (message id i) ≤ 38)%nat.
Proof.
  unfold message. rewrite length_take, !length_app.
  pose proof (decimal_length 10 id). pose proof (decimal_length 10 i).
  change (length str_client) with 7%nat. change (length str_message) with 9%nat. lia.
Qed.

Lemma written_length id n : ∀ i ios, (length (written id i n ios) ≤ 38 * n)%nat.
Proof.
  induction n as [|n IH]; intros i [|x ios]; cbn [written]; try (simpl; lia).
  destruct (io_write x <? 0); [simpl; lia|]. rewrite length_app, length_take.
  pose proof (message_length id i). specialize (IH (i + 1) ios). lia.
Qed.

(** Short replies are stored with their terminator. *)
Lemma exchanges_short id n : ∀ i ios,
  (n ≤ length ios)%nat → (length (replied n ios) < 256)%nat →
  ∃ rs, exchanges id i n ios = Done (written id i n ios, rs) ∧ mjoin rs = replied n ios.
Proof.
  induction n as [|n IH]; intros i ios Hn Hr; [by exists []|]. destruct ios as [|x ios]; [simpl in Hn; lia|].
  cbn [exchanges written replied] in *. destruct (io_write x <? 0); [by exists []|].
  rewrite length_app in Hr. simpl in Hn.
  destruct (IH (i + 1) ios ltac:(lia) ltac:(lia)) as (rs & -> & Hrs).
  destruct (io_read x) as [l|]; cbn [fmap option_fmap option_map]; [|by exists rs].
  change (default [] (Some l)) with l in *. rewrite (take_ge l) by lia. destruct l as [|b l]; [by exists rs|]. cmp.
  exists ([b :: l] ++ rs). simpl. by rewrite Hrs.
Qed.

(** C39. Connected to any server that keeps the interface, the test client never
    stores the terminator of a reply outside its buffer: what it can be sent
    back is shorter than the buffer. It prints what it was sent, a prefix of
    what it wrote. *)
Theorem test_client_safe {R} `{EchoService R} (r : R) id ios h :
  (5 ≤ length ios)%nat → linked r (written id 0 5 ios) (replied 5 ios) →
  wp (client_thread id true true ios) (λ res h', h' ≡ₚ h ∧ res.1 = written id 0 5 ios ∧
    mjoin res.2 `prefix_of` res.1) h.
Proof.
  intros Hios Hl%linked_echo. pose proof (written_length id 5 0 ios) as Hw.
  assert (Hr : (length (replied 5 ios) < 256)%nat).
  { destruct Hl as [k El]. rewrite El, length_app in Hw. lia. }
  destruct (exchanges_short id 5 0 ios Hios Hr) as (rs & E & Hrs).
  unfold client_thread. apply wp_bind, acquire_wp. cbn [negb]. apply wp_bind. eapply wp_lift; [exact E|].
  apply wp_bind. eapply release_wp; [done|]. intros h' Hh'. apply wp_ret. simpl. by rewrite Hrs.
Qed.

(** A session of the signal server in which client 3's first message is echoed
    and its second one is cut short. *)
Definition demo_events (reply : list Z) : list SignalServer.event :=
  [SignalServer.Connected 1; SignalServer.Echo 1 (message 3 0) reply].
Definition demo_schedule : list (nat * SignalServer.choice) :=
  [(0, SignalServer.Go); (0, SignalServer.Accept 1 true); (1, SignalServer.Go); (1, SignalServer.Go);
   (1, SignalServer.Go); (1, SignalServer.Recv (message 3 0) 4)]%nat.
Definition demo_state : SignalServer.state :=
  SignalServer.mkState 0 1 1 true None true (<[1%nat := SignalServer.TServe]> {[0%nat := SignalServer.MLoop]}).
Definition demo_ios : list io :=
  mkIo 18 (Some (take 4 (message 3 0))) :: replicate 4 (mkIo (-1) None).

Lemma test_client_safe_witness :
  linked (Session (demo_events (take 4 (message 3 0))) demo_state 1)
    (written 3 0 5 demo_ios) (replied 5 demo_ios) ∧
  wp (client_thread 3 true true demo_ios) (λ res h', h' ≡ₚ [] ∧ res.1 = written 3 0 5 demo_ios ∧
    mjoin res.2 `prefix_of` res.1) [].
Proof.
  assert (Hl : linked (Session (demo_events (take 4 (message 3 0))) demo_state 1)
    (written 3 0 5 demo_ios) (replied 5 demo_ios)).
  { split; [split; [apply (exec_run SignalServer.tstep demo_schedule); vm_compute; reflexivity|]|..].
    - vm_compute. constructor.
    - by exists [].
    - by exists []. }
  split; [exact Hl|]. exact (test_client_safe _ 3 demo_ios [] ltac:(simpl; lia) Hl).
Defined.

(** A reply that fills the buffer, which no echo does but another server
    may send, makes the client store the terminator one past its end. *)
Theorem test_client_overflow id x l ios h :
  0 ≤ io_write x → io_read x = Some l → (256 ≤ length l)%nat →
  client_thread id true true (x :: ios) h = Fault OutOfBounds.
Proof.
  intros Hw Hr Hl. assert (E : exchanges id 0 5 (x :: ios) = Fault OutOfBounds).
  { cbn [exchanges]. cmp. rewrite Hr. cbn [fmap option_fmap option_map].
    destruct (take 256 l) as [|b k] eqn:Et.
    - apply (f_equal length) in Et. rewrite length_take in Et. cbn [length] in Et. lia.
    - rewrite <- Et, length_take. by cmp. }
  unfold client_thread, mbind, st_bind, acquire. cbn [negb]. unfold st_lift. by rewrite E.
Qed.

Lemma test_client_overflow_witness :
  client_thread 0 true true [mkIo 18 (Some (replicate 300 65))] [] = Fault OutOfBounds.
Proof.
  apply (test_client_overflow 0 (mkIo 18 (Some (replicate 300 65))) (replicate 300 65) []);
    [done|done|]. rewrite length_replicate. lia.
Defined.

End Test.
