(* ===== verification/ServerSetup.v ===== *)
(** How the three servers create their listening socket, up to the loop that
    accepts, and what they hold when a call fails:
    [04_networking/tcp_echo_server/server_threaded.c], [server_epoll.c] and
    [01_processes/signal_handlers/signal_server.c]. *)
From S2P Require Import Prelude Resources.

Module Setup.

(** A server's listening socket and its two arrays. *)
Inductive handle : Type := Listen | Fds | Clients.
#[export] Instance handle_eq_dec : EqDecision handle.
Proof. solve_decision. Defined.

(** What the calls answer, in the order they are made. *)
Record calls : Type := mkCalls {
  sigaction_ok : bool; socket_ok : bool; setsockopt_ok : bool; bind_ok : bool; listen_ok : bool;
  fcntl_get_ok : bool; fcntl_set_ok : bool; fds_ok : bool; clients_ok : bool;
}.

(** [return 1], or the loop is reached: the port. *)
Inductive started : Type := Failed | Serving (port : Z).

(** [if (call < 0) { perror(..); close(listen_fd); return 1; }] *)
Definition or_close (ok : bool) (k : ST (list handle) started) : ST (list handle) started :=
  if ok then k else _ ← release Listen; mret Failed.

(** The same without [close]. *)
Definition or_leave (ok : bool) (k : ST (list handle) started) : ST (list handle) started :=
  if ok then k else mret Failed.

(** [htons] takes the low 16 bits. *)
Definition htons (port : Z) : Z := port mod 2 ^ 16.

Definition threaded_main (c : calls) : ST (list handle) started :=
  fd ← acquire Listen (socket_ok c);
  if negb fd then mret Failed else
  or_close (setsockopt_ok c)
  (or_close (bind_ok c)
  (or_close (listen_ok c)
  (mret (Serving (htons 8888))))).

Definition set_nonblocking (get set : bool) : bool := if negb get then false else set.

(** [setsockopt] is not checked, and neither are the two arrays. *)
Definition epoll_main (c : calls) : ST (list handle) started :=
  fd ← acquire Listen (socket_ok c);
  if negb fd then mret Failed else
  or_close (bind_ok c)
  (or_close (listen_ok c)
  (or_close (set_nonblocking (fcntl_get_ok c) (fcntl_set_ok c))
  (fds ← acquire Fds (fds_ok c);
   clients ← acquire Clients (clients_ok c);
   if negb (fds && clients) then st_fault NullDeref else
   mret (Serving (htons 8889))))).

(** [port] is [atoi(argv[1])], or 9999. *)
Definition signal_main (port : Z) (c : calls) : ST (list handle) started :=
  if negb (sigaction_ok c) then mret Failed else
  fd ← acquire Listen (socket_ok c);
  if negb fd then mret Failed else
  or_leave (setsockopt_ok c)
  (or_leave (bind_ok c)
  (or_leave (listen_ok c)
  (mret (Serving (htons port))))).

(** The ports the clients connect to: [client.c] of either directory. *)
Definition load_client_port : Z := htons 8888.
Definition test_client_port : Z := htons 9999.

End Setup.
Import Setup.

(** ** What is held afterwards *)

(** [h0] was held before: on success the server also holds [hs], on failure
    nothing more. *)
Definition clean (hs h0 : list handle) (r : started) (h : list handle) : Prop :=
  match r with Failed => h ≡ₚ h0 | Serving _ => h ≡ₚ hs ++ h0 end.

Lemma clean_failed hs h : clean hs h Failed h.
Proof. unfold clean. done. Qed.

Lemma clean_serving hs h port : clean hs h (Serving port) (hs ++ h).
Proof. unfold clean. done. Qed.

Lemma or_close_wp ok k hs h0 :
  wp k (clean hs h0) (Listen :: h0) → wp (or_close ok k) (clean hs h0) (Listen :: h0).
Proof.
  intros Hk. unfold or_close. destruct ok; [done|]. apply wp_bind. eapply release_wp; [done|].
  intros h Hh. by apply wp_ret.
Qed.

(** C40. A server whose setup fails: the two echo servers hold no more than
    before, on every path, unless the event loop's arrays cannot be allocated,
    which is not checked; the signal server returns with its socket open
    whenever a call after [socket] fails. *)
Theorem setup_closes_on_error c port h :
  wp (threaded_main c) (clean [Listen] h) h ∧
  (fds_ok c && clients_ok c = true → wp (epoll_main c) (clean [Clients; Fds; Listen] h) h) ∧
  wp (signal_main port c) (λ r h', if sigaction_ok c && socket_ok c then h' = Listen :: h
    else r = Failed ∧ h' = h) h.
Proof.
  split_and!.
  - unfold threaded_main. apply wp_bind, acquire_wp. destruct (socket_ok c); cbn [negb]; [|apply wp_ret, clean_failed].
    do 3 apply or_close_wp. apply wp_ret, (clean_serving [Listen]).
  - intros [Hf Hc]%andb_true_iff. unfold epoll_main. apply wp_bind, acquire_wp.
    destruct (socket_ok c); cbn [negb]; [|apply wp_ret, clean_failed]. do 3 apply or_close_wp.
    apply wp_bind, acquire_wp. rewrite Hf. apply wp_bind, acquire_wp. rewrite Hc. apply wp_ret, (clean_serving [Clients; Fds; Listen]).
  - unfold signal_main. destruct (sigaction_ok c); cbn [negb andb]; [|by apply wp_ret].
    apply wp_bind, acquire_wp. destruct (socket_ok c); cbn [negb]; [|by apply wp_ret].
    unfold or_leave. by destruct (setsockopt_ok c), (bind_ok c), (listen_ok c).
Qed.

Definition all_ok : calls := mkCalls true true true true true true true true true.

Lemma setup_closes_on_error_witness :
  wp (threaded_main all_ok) (clean [Listen] []) [] ∧
  wp (epoll_main all_ok) (clean [Clients; Fds; Listen] []) [] ∧
  wp (signal_main 9999 all_ok) (λ r h', if sigaction_ok all_ok && socket_ok all_ok then h' = [Listen]
    else r = Failed ∧ h' = []) [].
Proof.
  destruct (setup_closes_on_error all_ok 9999 []) as (H1 & H2 & H3).
  split; [exact H1|]. split; [exact (H2 eq_refl)|exact H3].
Defined.

(** The load generator connects to the threaded server's port, and no run
    of it reaches the event loop it is to be compared with. *)
Theorem load_client_reaches_threaded c h :
  (∀ port h', threaded_main c h = Done (Serving port, h') → port = load_client_port) ∧
  (∀ port h', epoll_main c h = Done (Serving port, h') → port ≠ load_client_port) ∧
  (∀ port h', signal_main 9999 c h = Done (Serving port, h') → port = test_client_port).
Proof.
  unfold threaded_main, epoll_main, signal_main, or_close, or_leave, mbind, st_bind, acquire, release,
    mret, st_ret, load_client_port, test_client_port, htons.
  split_and!; intros port h' H; repeat (case_match; simplify_eq/=); done.
Qed.
