(* ===== verification/Monitors.v ===== *)
(** The four components with a mutex as instances of the [Monitor] interface,
    and mutual exclusion for all of them at once.

    Their models do not assume it: what a thread does between taking and
    releasing the mutex does not depend on the owner.  A release by a thread
    that is not the owner goes through in the queue and the signal server, and
    is a fault in the pool and the threaded server. *)
From S2P Require Import Prelude Ring Threads Resources.
From S2P Require Import BoundedQueue QueueTheorems ThreadPool PoolInvariant PoolTheorems.
From S2P Require Import SignalServer SignalTheorems EchoServer EchoTheorems ThreadedServer.

(** The queue: any capacity, any number of threads. *)
Definition queue_start (q : BoundedQueue.queue) : Prop := ∃ cap n, q = BoundedQueue.start cap n.

#[export] Program Instance queue_monitor : Monitor BoundedQueue.tstep queue_start := {|
  m_owner := BoundedQueue.owner;
  m_threads := BoundedQueue.threads;
  m_crit := QueueTheorems.crit;
|}.
Next Obligation.
  intros s (cap & n & ->). apply mutex_init. by intros t p ->%queue_start_threads.
Qed.
Next Obligation. intros *. apply queue_mutex_step. Qed.

(** The pool, once [thread_pool_create] has returned it. *)
Definition pool_start (s : ThreadPool.pool) : Prop := ∃ n c, s = ThreadPool.start n c.

#[export] Program Instance pool_monitor : Monitor ThreadPool.tstep pool_start := {|
  m_owner := ThreadPool.owner;
  m_threads := ThreadPool.threads;
  m_crit := PoolInvariant.crit;
|}.
Next Obligation.
  intros s (n & c & ->). apply mutex_init. by intros t p [-> | ->]%pool_start_threads.
Qed.
Next Obligation. intros *. apply pool_mutex_step. Qed.

#[export] Program Instance signal_monitor : Monitor SignalServer.tstep (eq SignalServer.start) := {|
  m_owner := SignalServer.owner;
  m_threads := SignalServer.threads;
  m_crit := SignalTheorems.crit;
|}.
Next Obligation. intros s <-. apply (SignalTheorems.i_mutex _ signal_start_inv). Qed.
Next Obligation. intros *. apply signal_mutex_step. Qed.

#[export] Program Instance threaded_monitor : Monitor ThreadedServer.tstep (eq ThreadedServer.start) := {|
  m_owner := ThreadedServer.owner;
  m_threads := ThreadedServer.threads;
  m_crit := ThreadedServer.crit;
|}.
Next Obligation. intros s <-. apply (ThreadedServer.i_mutex _ _ threaded_start_inv). Qed.
Next Obligation. intros *. apply threaded_mutex_step. Qed.

(** C14. Mutual exclusion: in every run of the queue, of the pool, of the signal
    server and of the threaded server, at most one thread is between taking and
    releasing the mutex of the component, and it is the owner. *)
Theorem monitors_exclusive :
  (∀ cap n es q, run BoundedQueue.step (BoundedQueue.start cap n) es q →
    exclusive QueueTheorems.crit (BoundedQueue.owner q) (BoundedQueue.threads q)) ∧
  (∀ n c es s, run ThreadPool.step (ThreadPool.start n c) es s →
    exclusive PoolInvariant.crit (ThreadPool.owner s) (ThreadPool.threads s)) ∧
  (∀ es s, run SignalServer.step SignalServer.start es s →
    exclusive SignalTheorems.crit (SignalServer.owner s) (SignalServer.threads s)) ∧
  (∀ es s, run ThreadedServer.step ThreadedServer.start es s →
    exclusive ThreadedServer.crit (ThreadedServer.owner s) (ThreadedServer.threads s)).
Proof.
  split_and!.
  - intros cap n es q Hr. refine (monitor_exclusive BoundedQueue.tstep queue_start _ es q _ Hr). by eexists _, _.
  - intros n c es s Hr. refine (monitor_exclusive ThreadPool.tstep pool_start _ es s _ Hr). by eexists _, _.
  - intros es s Hr. exact (monitor_exclusive SignalServer.tstep (eq SignalServer.start) _ es s eq_refl Hr).
  - intros es s Hr. exact (monitor_exclusive ThreadedServer.tstep (eq ThreadedServer.start) _ es s eq_refl Hr).
Qed.

Lemma monitors_exclusive_witness :
  exclusive QueueTheorems.crit (BoundedQueue.owner demo_queue) (BoundedQueue.threads demo_queue) ∧
  exclusive ThreadedServer.crit (ThreadedServer.owner early_state) (ThreadedServer.threads early_state).
Proof.
  destruct monitors_exclusive as (H1 & _ & _ & H4).
  split; [exact (H1 _ _ _ _ queue_demo_run)|exact (H4 _ _ early_run)].
Defined.
